(* ===== verification/_CoqProject ===== *)
-Q . S2P
Prelude.v
Refinement.v
Errors.v
Quicvarint.v
Protocol.v
Config.v
FlowControl.v
DataLink.v
Utf8.v
GoStrings.v
Capsule.v
OutgoingStreams.v
OutgoingStreamsSafety.v
OutgoingStreamsGuarantees.v
Semaphore.v
IncomingStreams.v
IncomingStreamsSafety.v
SendStream.v
Deadline.v
SendFlow.v
ReceiveStream.v
Stream.v
SessionManager.v
Connection.v
Session.v
SessionLoops.v
Origin.v
Negotiation.v
Server.v
ServerShutdown.v
ClientConn.v
SessionStreams.v
Handshake.v
StreamLink.v
Connected.v
SessionLink.v
Delivery.v
Interop.v
InteropMain.v
Programs.v
InteropLoops.v
