(* ===== verification/Prelude.v ===== *)
(** * A verification development for webtransport-go (root file and prelude)

    webtransport-go implements WebTransport over HTTP/3: sessions on top of the
    QUIC and HTTP/3 implementation quic-go. A session lives on the CONNECT stream
    of an HTTP/3 request; its streams are QUIC streams that begin with a header
    which names the session; limits, blocking and the end of the session are
    announced by capsules on the CONNECT stream.

    ** How the program is modelled

    Every method is a function on an explicit state, executable, with the errors
    and branches of the code. Results of calls into quic-go, http3 and other
    libraries are arguments; calls that have an effect outside are outputs, listed
    in order. Go integers are [Z] at their width ([u64], [i64], ...), strings and
    byte slices are [list byte], maps are [gmap]s ([None] for the nil map), errors
    are values of [error]. A result [None] stands for a panic where a file says
    so. A method that releases a mutex is cut there; the pieces are the labels of
    a step relation in which any number of goroutines run, and invariants of that
    relation give properties of every interleaving. Channels with a buffer of one
    place are booleans, closed channels are sets of numbers.

    ** The files, in the order of the program's layers

    - [Prelude]: this header, integers, bytes, the error monad [result], sums over
      lists and maps, increasing sequences.
    - [Refinement]: labelled transition systems, their executions and traces, and
      forward simulations between them.
    - [Errors] (errors.go, stream.go): error values, their conversion from and to
      codes. Every error code of a stream has its own HTTP/3 code.
    - [Quicvarint]: the interface of quic-go's variable-length integers, with the
      laws of RFC 9000, and an instance that is used by the witnesses.
    - [Protocol] (protocol.go; the stream dispatch of server.go and
      client_conn.go): settings, stream headers, and what an endpoint does with a
      stream it accepts. Headers round-trip; nothing else reaches a session.
    - [Config] (config.go): settings that are advertised, limits that follow.
    - [FlowControl] (flow_control.go), [DataLink]: the two data flow controllers,
      the refinement of the sender by a ledger of unbounded integers, and two
      endpoints that exchange data and WT_MAX_DATA capsules: no violation, no
      deadlock.
    - [Utf8], [Capsule] (capsule.go): parsing and writing of capsules over the
      interface of http3's capsule parser; round trip of whole streams, rejection
      of malformed capsules, truncation of messages.
    - [OutgoingStreams], [OutgoingStreamsSafety], [OutgoingStreamsGuarantees]
      (streams_map_outgoing.go): the map of outgoing streams, the goroutines that
      open streams, and what holds of them: the limit of the peer, no lost wakeup,
      no panic, nobody waits after the session is closed, WT_STREAMS_BLOCKED once
      for each limit. [Semaphore]: its abstract specification, a first-in
      first-out semaphore, and the refinement by all interleavings of the goroutines.
    - [IncomingStreams], [IncomingStreamsSafety] (streams_map_incoming.go): the
      same for the streams of the peer: exact credit, increasing limits, every
      stream accepted once and in order.
    - [SendStream] (send_stream.go), [Deadline], [SendFlow]: the sending half. The
      header precedes the payload and survives a reset; deadlines that change are
      noticed; a writer waits only without credit.
    - [ReceiveStream] (receive_stream.go): every byte counts once for flow control.
    - [Stream] (stream.go): both halves together.
    - [SessionManager] (session_manager.go): streams that arrive before or after
      their session. No stream is lost or delivered twice, entries are well-formed,
      streams of ended sessions are rejected.
    - [Connection] (server.go, client_conn.go): the goroutines that read the headers
      of the peer's streams, from the bytes to the session manager.
    - [Session] (session.go): the methods of a session, without interruption.
      [SessionLoops]: the goroutines that share the capsule queue: the order of
      what is written to the CONNECT stream, delivery of every capsule, return of
      [CloseWithError].
    - [SessionStreams] (session.go, streams_map_outgoing.go): the session with its
      streams. Nothing outlives the session; what becomes of a stream of the peer.
    - [Origin] (server.go): the origin check against its specification.
    - [Negotiation] (server.go, client_conn.go): application protocols, over the
      interface of the structured field library.
    - [Server] (server.go): connections, sessions, [Upgrade], the parts of [Close].
      [ServerShutdown]: the goroutines of [Serve], [ServeQUICConn] and [Close].
      They refine the steps of [Server]; [Close] returns after a bounded number of
      steps, with every accepted connection closed and no goroutine left.
    - [ClientConn] (client_conn.go, transport.go): [dial] and [Transport].
    - [Handshake]: [dial] and [Upgrade] together make two sessions that agree.
    - [Connected]: the sessions that [dial] and [Upgrade] make start in states from
      which no limit for streams or data is ever violated, in either direction.
    - [Delivery]: the way of a stream from one session to the other.
    - [StreamLink]: the map of outgoing streams of one endpoint with the map of
      incoming streams of the other: no stream and no limit is ever refused, and
      no credit for streams is lost.
    - [SessionLink]: the goroutines that write to the CONNECT stream of one
      endpoint with the loop that reads it at the other: both see the same end.
    - [GoStrings], [Interop], [InteropLoops], [InteropMain] (interop): the functions
      of [strings] and [path/filepath] that the interoperability endpoints use,
      these endpoints, their goroutines and their two programs: a transfer saves
      the files that were requested, inside of the download directory; everything
      that arrives is answered; the programs choose matching functions.
    - [Programs] (example, interop_chrome): the certificate of the example and its
      pinning by the client, protocols, pages, and what the browser test accepts.

    The state of a Go struct is the record of the same name, and a method is the
    definition of the same name, with the type as a prefix where Go distinguishes
    methods only by their type ([Stream_Close]). The comment of a definition says
    which part of a method it is when the method is cut.

    ** Interfaces

    [Quicvarint]/[QuicvarintLaws], [CapsuleParser]/[CapsuleParserLaws],
    [StructuredFields]/[StructuredFieldsLaws], [GoRuntime], [GoQuote] and
    [ErrorText] are classes that stand for code of other modules, with the
    documented behaviour that this code relies on as laws. Theorems are proved
    against the classes; [Rfc9000], [SliceParser] and [CommaSeparated] are
    instances that show that the laws can hold, and on which the witnesses run.

    ** Fuel

    [parseNextCapsule] and [readFromConnectStream] take fuel, one unit for each
    capsule (unknown capsules are skipped in a loop); the theorems ask for more
    units than there are capsules. [equalASCIIFold] takes one unit for each
    character, and the number of bytes plus one is proved to be enough. Trimming
    and splitting at white space take the number of bytes, since each rune that
    they pass has at least one. Everything
    else recurs structurally. Goroutines are not bounded: they are steps of a
    relation.

    ** What the model leaves out

    - Sockets, listeners, TLS configuration and HTTP/3 request handling, which
      succeed or fail at any moment; that request handlers return once their
      connection is closed is assumed where [Close] waits for them.
    - [SendDatagram], [ReceiveDatagram], the address methods, [RoundTrip] and the
      plain accessors, which delegate to quic-go.
    - The time of a timer or a deadline: that it fires is a step that may happen
      at any moment.
    - Data races: a read outside of its mutex is modelled as the value at that
      moment.
    - Parsing of URLs and headers, random numbers and formatting, which are
      parameters or interfaces.
    - In the programs under interop, interop_chrome and example: logs, flags, keys and
      signatures, which are calls of the standard library; the certificates under
      internal/testdata. SHA-256 and the parsing of addresses are parameters. *)

From Stdlib Require Export ZArith Lia.
From Stdlib Require Export Strings.Byte Sorting.Sorted.
From stdpp Require Export base tactics list gmap strings pretty.

#[export] Set Default Goal Selector "!".

Open Scope Z_scope.

(** ** Go integers at their width *)

Definition u8 (z : Z) : Z := z mod 2 ^ 8.
Definition u32 (z : Z) : Z := z mod 2 ^ 32.
Definition u64 (z : Z) : Z := z mod 2 ^ 64.
Definition i64 (z : Z) : Z := (z + 2 ^ 63) mod 2 ^ 64 - 2 ^ 63.

(** ** Bytes and Go strings

    A Go [string] is a sequence of bytes, and so is a [[]byte]; both are
    [list byte] here. *)

Abbreviation gostring := (list byte).

Definition byte_val (b : byte) : Z := Z.of_N (Byte.to_N b).

Definition byte_of (z : Z) : byte :=
  match Byte.of_N (Z.to_N (u8 z)) with Some b => b | None => x00 end.

Declare Scope go_scope.
Delimit Scope go_scope with go.

(** A Go string literal. *)
Notation "'str' s" := (String.list_byte_of_string s%string)
  (at level 1, s at level 0, only parsing) : go_scope.

Open Scope go_scope.

(** [strconv.Itoa] / the [%d] verb. *)
Definition itoa (z : Z) : gostring := String.list_byte_of_string (pretty z).

#[export] Instance byte_eq_dec : EqDecision byte := Byte.byte_eq_dec.

(** ** Results: a Go function that returns [(A, error)] *)

Inductive result (E A : Type) : Type :=
| Ok (a : A)
| Err (e : E).
Arguments Ok {E A} a.
Arguments Err {E A} e.

#[export] Instance result_ret E : MRet (result E) := fun A a => Ok a.
#[export] Instance result_bind E : MBind (result E) := fun A B f m =>
  match m with Ok a => f a | Err e => Err e end.

#[export] Instance result_eq_dec E A `{!EqDecision E, !EqDecision A} :
  EqDecision (result E A).
Proof. solve_decision. Defined.

(** ** Tactics *)

(** Split every conjunction of the context and the goal, then try to close. *)
Ltac split_ands :=
  repeat match goal with
  | H : _ /\ _ |- _ => destruct H
  | |- _ /\ _ => split
  end.

(** Split the pairs that the results of a monadic computation are bound to. *)
Ltac destruct_pairs :=
  repeat (match goal with p : _ * _ |- _ => destruct p end; simplify_option_eq).

(** Evaluate the right-hand side of an equation on closed terms. *)
Ltac compute_rhs H :=
  match type of H with _ = ?r => let r' := eval vm_compute in r in change r with r' in H end.

(** Decide every equation between closed constants that the goal tests. *)
Ltac decide_consts :=
  repeat match goal with |- context [decide (?a = ?b)] =>
    (rewrite (decide_True (P := a = b)) by reflexivity) ||
    (rewrite (decide_False (P := a = b)) by discriminate) end.

(** Arithmetic on wrapped integers whose bounds are in the context. *)
Create Rewrite HintDb goint.

Ltac Zify.zify_post_hook ::= Z.to_euclidean_division_equations.

(** ** Lemmas on integers *)

Lemma u64_id z : 0 <= z < 2 ^ 64 -> u64 z = z.
Proof. intros. by apply Z.mod_small. Qed.

Lemma u32_id z : 0 <= z < 2 ^ 32 -> u32 z = z.
Proof. intros. by apply Z.mod_small. Qed.

Lemma u8_id z : 0 <= z < 2 ^ 8 -> u8 z = z.
Proof. intros. by apply Z.mod_small. Qed.

Lemma u64_range z : 0 <= u64 z < 2 ^ 64.
Proof. by apply Z.mod_pos_bound. Qed.

Lemma u32_range z : 0 <= u32 z < 2 ^ 32.
Proof. by apply Z.mod_pos_bound. Qed.

Lemma u8_range z : 0 <= u8 z < 2 ^ 8.
Proof. by apply Z.mod_pos_bound. Qed.

Lemma i64_id z : - 2 ^ 63 <= z < 2 ^ 63 -> i64 z = z.
Proof. intros. unfold i64. rewrite Z.mod_small; lia. Qed.

#[export] Hint Rewrite u64_id u32_id u8_id i64_id using lia : goint.

Ltac goint := autorewrite with goint in *.

(** ** Lemmas on bytes *)

Lemma byte_val_range b : 0 <= byte_val b < 256.
Proof. pose proof (Byte.to_N_bounded b). unfold byte_val. lia. Qed.

Lemma byte_of_val b : byte_of (byte_val b) = b.
Proof. by destruct b. Qed.

Lemma byte_val_of z : byte_val (byte_of z) = u8 z.
Proof.
  unfold byte_of, byte_val. pose proof (u8_range z).
  destruct (Byte.of_N (Z.to_N (u8 z))) as [b|] eqn:E.
  - apply Byte.to_of_N in E. rewrite E. lia.
  - apply Byte.of_N_None_iff in E. lia.
Qed.

#[export] Instance byte_val_inj : Inj (=) (=) byte_val.
Proof. intros b1 b2 H. by rewrite <- (byte_of_val b1), H, byte_of_val. Qed.

(** ** Lemmas on results *)

Lemma bind_Ok {E A B} (m : result E A) (f : A -> result E B) b :
  (m ≫= f) = Ok b <-> exists a, m = Ok a /\ f a = Ok b.
Proof. destruct m as [a|e]; simpl; [|naive_solver]. split; [eauto|]. by intros (? & [= ->] & ?). Qed.

(** ** Code that must not panic

    [None] is a Go panic where the model says so: [ensures m P] states that [m]
    does not panic and that its result satisfies [P]. *)

Definition ensures {A} (m : option A) (P : A -> Prop) : Prop :=
  match m with Some a => P a | None => False end.

Lemma ensures_bind {A B} (m : option A) (f : A -> option B) (P : A -> Prop) (Q : B -> Prop) :
  ensures m P -> (forall a, P a -> ensures (f a) Q) -> ensures (m ≫= f) Q.
Proof. destruct m; simpl; [auto|done]. Qed.

Lemma ensures_Some {A} (m : option A) (P : A -> Prop) a : ensures m P -> m = Some a -> P a.
Proof. by intros ? ->. Qed.

Lemma ensures_None {A} (m : option A) (P : A -> Prop) : ensures m P -> m <> None.
Proof. by intros ? ->. Qed.

Lemma ensures_impl {A} (m : option A) (P Q : A -> Prop) :
  ensures m P -> (forall a, P a -> Q a) -> ensures m Q.
Proof. destruct m; simpl; [auto|done]. Qed.

(** ** Lemmas on lists *)

Lemma take_min_length {A} n (l : list A) : take (Nat.min n (length l)) l = take n l.
Proof.
  destruct (Nat.min_spec n (length l)) as [[? ->]|[? ->]]; [done|].
  by rewrite firstn_all, firstn_all2 by lia.
Qed.

Lemma drop_min_length {A} n (l : list A) : drop (Nat.min n (length l)) l = drop n l.
Proof.
  destruct (Nat.min_spec n (length l)) as [[? ->]|[? ->]]; [done|].
  by rewrite skipn_all, skipn_all2 by lia.
Qed.

(** ** Sums over the values of a finite map *)

Definition zsum {A} (f : A -> Z) (l : list A) : Z := foldr (fun x a => f x + a) 0 l.

Lemma zsum_perm {A} (f : A -> Z) l1 l2 : l1 ≡ₚ l2 -> zsum f l1 = zsum f l2.
Proof. induction 1; simpl; lia. Qed.

Lemma zsum_app {A} (f : A -> Z) l1 l2 : zsum f (l1 ++ l2) = zsum f l1 + zsum f l2.
Proof. induction l1; simpl; lia. Qed.

Definition msum {A} (f : A -> Z) (m : gmap nat A) : Z := zsum (fun x => f x.2) (map_to_list m).

Lemma msum_empty {A} (f : A -> Z) : msum f ∅ = 0.
Proof. unfold msum. by rewrite map_to_list_empty. Qed.

Lemma msum_insert_new {A} (f : A -> Z) m t x : m !! t = None ->
  msum f (<[t := x]> m) = f x + msum f m.
Proof.
  intros Ht. unfold msum. by rewrite (zsum_perm _ _ _ (map_to_list_insert m t x Ht)).
Qed.

Lemma msum_insert {A} (f : A -> Z) m t x x0 : m !! t = Some x0 ->
  msum f (<[t := x]> m) = f x - f x0 + msum f m.
Proof.
  intros Ht. rewrite <- (insert_delete_eq m t x).
  rewrite <- (insert_delete_id m t x0) at 2 by done.
  rewrite !msum_insert_new by apply lookup_delete_eq. lia.
Qed.

Lemma msum_nonneg {A} (f : A -> Z) m : (forall t x, m !! t = Some x -> 0 <= f x) -> 0 <= msum f m.
Proof.
  intros Hf. unfold msum. assert (forall x, x ∈ map_to_list m -> 0 <= f x.2) as H.
  { intros [t x] Hin%elem_of_map_to_list. by eapply Hf. }
  induction (map_to_list m) as [|x l IH]; simpl; [lia|].
  pose proof (H x ltac:(by left)). specialize (IH ltac:(intros y ?; apply H; by right)). lia.
Qed.

Lemma msum_zero {A} (f : A -> Z) m : (forall t x, m !! t = Some x -> f x = 0) -> msum f m = 0.
Proof.
  intros Hf. unfold msum. assert (forall x, x ∈ map_to_list m -> f x.2 = 0) as H.
  { intros [t x] Hin%elem_of_map_to_list. by eapply Hf. }
  induction (map_to_list m) as [|x l IH]; simpl; [done|].
  rewrite H by by left. rewrite IH; [done|]. intros y Hy. apply H. by right.
Qed.

Arguments zsum : simpl never.
Arguments msum : simpl never.

(** ** Big-endian integers ([encoding/binary]) *)

Fixpoint be_bytes (n : nat) (v : Z) : gostring :=
  match n with
  | O => []
  | S k => byte_of (v / 256 ^ Z.of_nat k) :: be_bytes k v
  end.

Definition be_value (acc : Z) (bs : gostring) : Z :=
  fold_left (fun a b => a * 256 + byte_val b) bs acc.

Lemma length_be_bytes n v : length (be_bytes n v) = n.
Proof. induction n; simpl; congruence. Qed.

Lemma mod_256_step v m : 0 < m -> v / m mod 256 * m + v mod m = v mod (256 * m).
Proof. intros. rewrite (Z.mul_comm 256), Z.rem_mul_r by lia. lia. Qed.

Lemma be_value_be_bytes n v acc :
  be_value acc (be_bytes n v) = acc * 256 ^ Z.of_nat n + v mod 256 ^ Z.of_nat n.
Proof.
  revert acc. induction n as [|n IH]; intros acc; simpl be_bytes.
  { unfold be_value; simpl. rewrite Z.mod_1_r. lia. }
  unfold be_value in *. simpl fold_left. rewrite IH, byte_val_of.
  unfold u8. change (2 ^ 8) with 256.
  rewrite Nat2Z.inj_succ, Z.pow_succ_r by lia.
  rewrite <- mod_256_step by (apply Z.pow_pos_nonneg; lia). ring.
Qed.

Lemma be_value_mod_range acc bs : 0 <= acc ->
  acc * 256 ^ Z.of_nat (length bs) <= be_value acc bs
  < (acc + 1) * 256 ^ Z.of_nat (length bs).
Proof.
  revert acc. induction bs as [|b bs IH]; intros acc Hacc; [unfold be_value; simpl; lia|].
  unfold be_value in *; simpl fold_left; simpl length.
  pose proof (byte_val_range b). specialize (IH (acc * 256 + byte_val b)).
  rewrite Nat2Z.inj_succ, Z.pow_succ_r by lia. nia.
Qed.

Lemma be_value_range bs : 0 <= be_value 0 bs < 256 ^ Z.of_nat (length bs).
Proof. pose proof (be_value_mod_range 0 bs). lia. Qed.

(** ** Chains: the successive values of an increasing limit in flight

    [chain a l z]: starting at [a], the list [l] increases strictly and ends
    at [z]. *)

Fixpoint chain (a : Z) (l : list Z) (z : Z) : Prop :=
  match l with
  | [] => a = z
  | x :: l => a < x /\ chain x l z
  end.

Lemma chain_le a l z : chain a l z -> a <= z.
Proof.
  revert a. induction l as [|x l IH]; simpl; intros a; [lia|].
  intros [? ?%IH]. lia.
Qed.

Lemma chain_snoc a l z y : chain a l z -> z < y -> chain a (l ++ [y]) y.
Proof.
  revert a. induction l as [|x l IH]; simpl; intros a; [naive_solver|].
  intros [? ?] ?. eauto.
Qed.

Lemma chain_last a l z : chain a l z -> last (a :: l) = Some z.
Proof.
  revert a. induction l as [|x l IH]; intros a; [by intros <-|]. intros [_ H]. apply (IH _ H).
Qed.

Lemma chain_bounds a l z : chain a l z -> Forall (fun x => x <= z) (a :: l).
Proof.
  revert a. induction l as [|x l IH]; intros a; [intros <-; repeat constructor; lia|].
  intros [? H]. constructor; [apply chain_le in H; lia|by apply IH].
Qed.

Lemma chain_sorted a l z : chain a l z -> StronglySorted Z.lt (a :: l).
Proof.
  revert a. induction l as [|x l IH]; intros a; simpl; [repeat constructor|].
  intros [? Hs%IH]. constructor; [done|]. inversion Hs; subst.
  constructor; [done|]. eapply Forall_impl; [done|]. simpl. lia.
Qed.
