(* ===== verification/Refinement.v ===== *)
(** * Refinement by forward simulation

    Labelled transition systems, their executions and observable traces, and
    forward simulations: every step of the detailed system is matched by some
    steps of the abstract one with the same observable event. Used where a
    component is shown to implement a simpler one. *)

From S2P Require Import Prelude.

(** ** Executions

    A step has at most one observable event. *)

Section executions.
Context {S E : Type} (init : S) (step : S -> option E -> S -> Prop).

Inductive execution : S -> list E -> S -> Prop :=
| exec_nil s : execution s [] s
| exec_step s o s' t s'' : step s o s' -> execution s' t s'' -> execution s (option_list o ++ t) s''.

Lemma exec_one s o s' : step s o s' -> execution s (option_list o) s'.
Proof. intros H. rewrite <- (app_nil_r (option_list o)). eapply exec_step; [done|apply exec_nil]. Qed.

Lemma exec_trans s1 t1 s2 t2 s3 : execution s1 t1 s2 -> execution s2 t2 s3 -> execution s1 (t1 ++ t2) s3.
Proof. induction 1; [done|]. intros. rewrite <- app_assoc. eauto using exec_step. Qed.

Lemma exec_snoc s1 t s2 o s3 : execution s1 t s2 -> step s2 o s3 -> execution s1 (t ++ option_list o) s3.
Proof. eauto using exec_trans, exec_one. Qed.

(** What an observer can see. *)
Definition trace (t : list E) : Prop := exists s, execution init t s.

(** A property of the states that the steps preserve. *)
Lemma exec_invariant (P : S -> Prop) s t s' :
  (forall s o s', P s -> step s o s' -> P s') -> P s -> execution s t s' -> P s'.
Proof. intros Hp Hs H. revert Hs. induction H; eauto. Qed.

(** The steps without their events. *)
Definition silent (s s' : S) : Prop := exists o, step s o s'.

Lemma rtc_exec s s' : rtc silent s s' <-> exists t, execution s t s'.
Proof.
  split.
  - induction 1 as [|s1 s2 s3 [o H1] _ [t IH]]; [exists []; apply exec_nil|]. eauto using exec_step.
  - intros [t H]. induction H; [done|]. eapply rtc_l; [by eexists|done].
Qed.

End executions.

(** ** Forward simulations *)

Section simulation.
Context {C A E : Type}.
Context (cinit : C) (cstep : C -> option E -> C -> Prop).
Context (ainit : A) (astep : A -> option E -> A -> Prop).

Record ForwardSimulation (R : C -> A -> Prop) : Prop := {
  sim_init : R cinit ainit;
  sim_step c a o c' : R c a -> cstep c o c' -> exists a', execution astep a (option_list o) a' /\ R c' a';
}.

Context {R : C -> A -> Prop} (H : ForwardSimulation R).

Lemma sim_execution c a t c' : R c a -> execution cstep c t c' ->
  exists a', execution astep a t a' /\ R c' a'.
Proof.
  intros Hr He. revert a Hr. induction He as [c|c o c1 t c' Hc _ IH]; intros a Hr.
  - exists a. split; [apply exec_nil|done].
  - destruct (sim_step _ H _ _ _ _ Hr Hc) as (a1 & Ha & Hr1). destruct (IH a1 Hr1) as (a' & Ha' & Hr').
    exists a'. split; [by eapply exec_trans|done].
Qed.

Lemma sim_from_init t c : execution cstep cinit t c -> exists a, execution astep ainit t a /\ R c a.
Proof. apply sim_execution, sim_init, H. Qed.

Lemma sim_trace t : trace cinit cstep t -> trace ainit astep t.
Proof. intros [c Hc]. destruct (sim_from_init _ _ Hc) as (a & Ha & _). by exists a. Qed.

End simulation.
