(* ===== verification/Errors.v ===== *)
(** * Error values and error codes

    [errors.go], and [maybeConvertStreamError] and [isTimeoutError] of
    [stream.go]: the error types of the package, the mapping between 32-bit
    WebTransport stream error codes and HTTP/3 error codes, and the conversion
    of QUIC stream errors that every stream method applies to what it returns. *)

From S2P Require Import Prelude.

(** ** Data *)

(** [StreamError]: returned from stream operations when the stream is canceled. *)
Record StreamError := mkStreamError {
  StreamError_ErrorCode : Z;
  StreamError_Remote : bool;
}.

(** [SessionError]: a WebTransport connection error. *)
Record SessionError := mkSessionError {
  SessionError_Remote : bool;
  SessionError_ErrorCode : Z;
  SessionError_Message : gostring;
}.

(** [RequirementsNotMetError]: the peer lacks a required capability. *)
Record RequirementsNotMetError := mkRequirementsNotMetError {
  RequirementsNotMetError_Message : gostring;
}.

(** The error values that flow through the package: its own error types, the
    library errors it inspects ([http3.Error], [quic.StreamError],
    [os.ErrDeadlineExceeded], [context.Canceled], [io.EOF],
    [io.ErrUnexpectedEOF], [quic.ErrWriteLimitReached]), [errors.New],
    [fmt.Errorf] with [%w] as [ErrWrap], and every other library error as
    [ErrOther], which carries its text and the answer of its [Timeout] method. *)
Inductive error : Type :=
| ErrStream (e : StreamError)
| ErrSession (e : SessionError)
| ErrRequirementsNotMet (e : RequirementsNotMetError)
| ErrStreamLimitReached
| ErrHTTP3 (ErrorCode : Z) (ErrorMessage : gostring)
| ErrQuicStream (ErrorCode : Z) (Remote : bool)
| ErrNew (text : gostring)
| ErrWrap (text : gostring) (inner : error)
| ErrDeadlineExceeded
| ErrCanceled
| ErrEOF
| ErrUnexpectedEOF
| ErrWriteLimitReached
| ErrOther (text : gostring) (timeout : bool).

#[export] Instance StreamError_eq_dec : EqDecision StreamError.
Proof. solve_decision. Defined.
#[export] Instance SessionError_eq_dec : EqDecision SessionError.
Proof. solve_decision. Defined.
#[export] Instance RequirementsNotMetError_eq_dec : EqDecision RequirementsNotMetError.
Proof. solve_decision. Defined.
#[export] Instance error_eq_dec : EqDecision error.
Proof. solve_decision. Defined.

(** The texts of the library errors whose [Error()] method is not in this
    repository. *)
Class ErrorText := {
  HTTP3ErrorText : Z -> gostring -> gostring;
  QuicStreamErrorText : Z -> bool -> gostring;
  WriteLimitReachedText : gostring;
}.

(** ** Error codes *)

Definition firstErrorCode : Z := 0x52e4a40fa8db.
Definition lastErrorCode : Z := 0x52e5ac983162.

Definition webtransportCodeToHTTPCode (n : Z) : Z :=
  u64 (u64 (firstErrorCode + n) + n / 0x1e).

Definition httpCodeToWebtransportCode (h : Z) : result error Z :=
  if decide (h < firstErrorCode \/ lastErrorCode < h) then
    Err (ErrNew (str "error code outside of expected range"))
  else if decide (u64 (h - 0x21) mod 0x1f = 0) then
    Err (ErrNew (str "invalid error code"))
  else
    let shifted := u64 (h - firstErrorCode) in
    Ok (u32 (u64 (shifted - shifted / 0x1f))).

Definition WTBufferedStreamRejectedErrorCode : Z := 0x3994bd84.
Definition WTSessionGoneErrorCode : Z := 0x170d7b68.
Definition WTFlowControlErrorCode : Z := 0x045d4487.
Definition WTRequirementsNotMetErrorCode : Z := 0x212c0d48.
Definition WTALPNErrorCode : Z := 0x0817b3dd.

(** HTTP/3 error codes (RFC 9114, RFC 9297), the constants of [http3.ErrCode]. *)
Module http3.
Definition ErrCodeDatagramError : Z := 0x33.
Definition ErrCodeNoError : Z := 0x100.
Definition ErrCodeGeneralProtocolError : Z := 0x101.
Definition ErrCodeExcessiveLoad : Z := 0x107.
Definition ErrCodeIDError : Z := 0x108.
Definition ErrCodeRequestRejected : Z := 0x10b.
Definition ErrCodeRequestCanceled : Z := 0x10c.
End http3.

(** ** The [Error] and [Is] methods *)

Definition StreamError_Error (e : StreamError) : gostring :=
  str "stream canceled with error code " ++ itoa (StreamError_ErrorCode e).

Definition StreamError_Is (e : StreamError) (target : error) : bool :=
  match target with
  | ErrStream t =>
      bool_decide (StreamError_Remote t = StreamError_Remote e) &&
      bool_decide (StreamError_ErrorCode t = StreamError_ErrorCode e)
  | _ => false
  end.

Definition SessionError_Error (e : SessionError) : gostring := SessionError_Message e.

Definition SessionError_Is (e : SessionError) (target : error) : bool :=
  match target with
  | ErrSession t =>
      bool_decide (SessionError_ErrorCode e = SessionError_ErrorCode t) &&
      bool_decide (SessionError_Remote e = SessionError_Remote t)
  | _ => false
  end.

Definition RequirementsNotMetError_Error (e : RequirementsNotMetError) : gostring :=
  RequirementsNotMetError_Message e.

Definition StreamLimitReachedError_Error : gostring := str "too many open streams".

(** Dynamic dispatch of [err.Error()]. *)
Definition Error `{!ErrorText} (e : error) : gostring :=
  match e with
  | ErrStream e => StreamError_Error e
  | ErrSession e => SessionError_Error e
  | ErrRequirementsNotMet e => RequirementsNotMetError_Error e
  | ErrStreamLimitReached => StreamLimitReachedError_Error
  | ErrHTTP3 c m => HTTP3ErrorText c m
  | ErrQuicStream c r => QuicStreamErrorText c r
  | ErrNew t => t
  | ErrWrap t _ => t
  | ErrDeadlineExceeded => str "i/o timeout"
  | ErrCanceled => str "context canceled"
  | ErrEOF => str "EOF"
  | ErrUnexpectedEOF => str "unexpected EOF"
  | ErrWriteLimitReached => WriteLimitReachedText
  | ErrOther t _ => t
  end.

(** ** Inspecting errors

    [errors.AsType] (and [errors.As]) walk the chain of wrapped errors. *)

Fixpoint as_quic_StreamError (e : error) : option (Z * bool) :=
  match e with
  | ErrQuicStream c r => Some (c, r)
  | ErrWrap _ inner => as_quic_StreamError inner
  | _ => None
  end.

Fixpoint as_http3_Error (e : error) : option (Z * gostring) :=
  match e with
  | ErrHTTP3 c m => Some (c, m)
  | ErrWrap _ inner => as_http3_Error inner
  | _ => None
  end.

Fixpoint as_RequirementsNotMetError (e : error) : option RequirementsNotMetError :=
  match e with
  | ErrRequirementsNotMet r => Some r
  | ErrWrap _ inner => as_RequirementsNotMetError inner
  | _ => None
  end.

(** [errors.Is] against a sentinel value. *)
Fixpoint errors_Is (e target : error) : bool :=
  bool_decide (e = target) ||
  match e with ErrWrap _ inner => errors_Is inner target | _ => false end.

(** [err.(net.Error)] is a type assertion: it does not unwrap. *)
Definition isTimeoutError (e : error) : bool :=
  match e with
  | ErrDeadlineExceeded => true
  | ErrOther _ timeout => timeout
  | _ => false
  end.

(** The result of a Go function that returns only an [error]; [None] is [nil]. *)
Definition maybeConvertStreamError `{!ErrorText} (err : option error) : option error :=
  match err with
  | None => None
  | Some err =>
      match as_quic_StreamError err with
      | Some (code, remote) =>
          match httpCodeToWebtransportCode code with
          | Err cerr =>
              Some (ErrWrap (str "stream reset, but failed to convert stream error "
                             ++ itoa code ++ str ": " ++ Error cerr) cerr)
          | Ok errorCode => Some (ErrStream (mkStreamError errorCode remote))
          end
      | None => Some err
      end
  end.

(** ** Theorems *)

(** The 32-bit WebTransport stream error codes are in bijection with the
    HTTP/3 error codes that [httpCodeToWebtransportCode] accepts: decoding [h]
    gives [n] exactly when [n] fits in 32 bits and [h] is its encoding. In
    particular decoding an encoded code is the identity, the encoding is
    injective, and re-encoding an accepted code gives it back. *)
Theorem error_code_bijection h n :
  0 <= h < 2 ^ 64 ->
  httpCodeToWebtransportCode h = Ok n <->
  0 <= n < 2 ^ 32 /\ h = webtransportCodeToHTTPCode n.
Proof.
  intros Hh. unfold httpCodeToWebtransportCode, webtransportCodeToHTTPCode.
  unfold firstErrorCode, lastErrorCode, u64, u32.
  repeat case_decide; (split; [intros [= <-] || done | intros [Hn ->]]); try lia.
  f_equal. lia.
Qed.

Lemma error_code_bijection_witness :
  0 <= 0x52e5ac983162 < 2 ^ 64 /\
  httpCodeToWebtransportCode 0x52e5ac983162 = Ok 0xffffffff.
Proof.
  split; [lia|]. apply (error_code_bijection 0x52e5ac983162); [lia|].
  split; [lia | by vm_compute].
Defined.
