(* ===== verification/Quicvarint.v ===== *)
(** * The quicvarint interface

    [github.com/quic-go/quic-go/quicvarint] is not part of the repository. Its
    functions are the operations of the class [Quicvarint], and what the code
    relies on is the class [QuicvarintLaws]. [Rfc9000] instantiates both with
    the variable-length integers of RFC 9000, section 16; the witnesses of the
    theorems run on it. The module also models [io.ByteReader]. *)

From S2P Require Import Prelude Errors.

(** ** [io.ByteReader] *)

(** [ReadByte] of a reader whose state is [S]. *)
Definition byteReader (S : Type) : Type := S -> result error byte * S.

(** Reading from [s] yields the bytes [bs], one successful [ReadByte] each, and
    leaves the reader in [s']. *)
Inductive yields {S} (rb : byteReader S) : S -> gostring -> S -> Prop :=
| yields_nil s : yields rb s [] s
| yields_cons s b s1 bs s2 :
    rb s = (Ok b, s1) -> yields rb s1 bs s2 -> yields rb s (b :: bs) s2.

(** A reader over a byte slice. *)
Definition bytesReader : byteReader gostring := fun bs =>
  match bs with
  | [] => (Err ErrEOF, [])
  | b :: bs => (Ok b, bs)
  end.

(** ** The interface *)

(** [quicvarint.Max] *)
Definition Max : Z := 2 ^ 62 - 1.

Class Quicvarint := {
  (** [Append b v]: appends the encoding of [v] to [b] *)
  Append : gostring -> Z -> gostring;
  (** [Len v]: the number of bytes of the encoding of [v] *)
  Len : Z -> Z;
  (** [Read r]: reads a varint from an [io.ByteReader] *)
  Read : forall {S}, byteReader S -> S -> result error Z * S;
  (** [Peek r]: reads a varint without consuming it *)
  Peek : forall {S}, byteReader S -> S -> result error Z;
}.

Class QuicvarintLaws `(!Quicvarint) := {
  Append_app b v : 0 <= v <= Max -> Append b v = b ++ Append [] v;
  Append_length v : 0 <= v <= Max -> Z.of_nat (length (Append [] v)) = Len v;
  Len_range v : 0 <= v <= Max -> 1 <= Len v <= 8;
  Read_Append {S} (rb : byteReader S) s v s' :
    0 <= v <= Max -> yields rb s (Append [] v) s' -> Read rb s = (Ok v, s');
  Read_Ok {S} (rb : byteReader S) s v s' :
    Read rb s = (Ok v, s') -> 0 <= v <= Max /\ exists bs, yields rb s bs s' /\ (length bs <= 8)%nat;
  Peek_Read {S} (rb : byteReader S) s v :
    Peek rb s = Ok v <-> exists s', Read rb s = (Ok v, s');
}.

(** ** Lemmas on readers *)

Lemma yields_app {S} (rb : byteReader S) s bs1 bs2 s2 :
  yields rb s (bs1 ++ bs2) s2 <->
  exists s1, yields rb s bs1 s1 /\ yields rb s1 bs2 s2.
Proof.
  revert s. induction bs1 as [|b bs1 IH]; intros s; simpl; split.
  - eauto using yields.
  - intros (s1 & H & ?). by inversion H; subst.
  - inversion 1; subst. apply IH in H5 as (? & ? & ?). eauto using yields.
  - intros (s1 & H & ?). inversion H; subst. econstructor; [done|]. apply IH. eauto.
Qed.

Lemma yields_bytes bs rest : yields bytesReader (bs ++ rest) bs rest.
Proof. induction bs; simpl; eauto using yields. Qed.

Lemma bytesReader_yields bs s s' : yields bytesReader s bs s' -> s = bs ++ s'.
Proof.
  induction 1 as [|s b s1 bs s2 H _ IH]; [done|].
  destruct s; simplify_eq/=. congruence.
Qed.

(** ** RFC 9000 *)

Module Rfc9000.

(** The base-2 logarithm of the length of the encoding. *)
Definition tag (v : Z) : Z :=
  if decide (v < 2 ^ 6) then 0
  else if decide (v < 2 ^ 14) then 1
  else if decide (v < 2 ^ 30) then 2 else 3.

Definition len (v : Z) : Z := 2 ^ tag v.

Definition append (b : gostring) (v : Z) : gostring :=
  b ++ be_bytes (Z.to_nat (len v)) (tag v * 2 ^ (8 * len v - 2) + v).

Fixpoint read_be {S} (n : nat) (acc : Z) (rb : byteReader S) (s : S) : result error Z * S :=
  match n with
  | O => (Ok acc, s)
  | S n =>
      match rb s with
      | (Err e, s) => (Err e, s)
      | (Ok b, s) => read_be n (acc * 256 + byte_val b) rb s
      end
  end.

Definition read {S} (rb : byteReader S) (s : S) : result error Z * S :=
  match rb s with
  | (Err e, s) => (Err e, s)
  | (Ok b, s) =>
      read_be (Z.to_nat (2 ^ (byte_val b / 64)) - 1) (byte_val b mod 64) rb s
  end.

Definition peek {S} (rb : byteReader S) (s : S) : result error Z := fst (read rb s).

#[export] Instance quicvarint : Quicvarint := {|
  Append := append;
  Len := len;
  Read := @read;
  Peek := @peek;
|}.

Lemma read_be_yields {S} n acc (rb : byteReader S) s bs s' :
  length bs = n -> yields rb s bs s' -> read_be n acc rb s = (Ok (be_value acc bs), s').
Proof.
  intros Hlen H. revert n acc Hlen.
  induction H as [|s b s1 bs s2 H _ IH]; intros [|n] acc; try done.
  intros [= Hlen]. simpl. rewrite H. rewrite IH by done. done.
Qed.

Lemma read_be_Ok {S} n acc (rb : byteReader S) s v s' :
  read_be n acc rb s = (Ok v, s') ->
  exists bs, yields rb s bs s' /\ length bs = n /\ v = be_value acc bs.
Proof.
  revert acc s. induction n as [|n IH]; simpl; intros acc s H.
  { simplify_eq. exists []. eauto using yields. }
  destruct (rb s) as [[b|e] s1] eqn:Hb; [|done].
  apply IH in H as (bs & ? & <- & ->). exists (b :: bs). eauto using yields.
Qed.

Lemma tag_cases v : 0 <= v <= Max ->
  tag v = 0 /\ v < 2 ^ 6 \/ tag v = 1 /\ v < 2 ^ 14 \/
  tag v = 2 /\ v < 2 ^ 30 \/ tag v = 3 /\ v < 2 ^ 62.
Proof. unfold tag, Max. intros. repeat case_decide; lia. Qed.

Lemma append_split v : 0 <= v <= Max ->
  exists b bs, append [] v = b :: bs /\
    byte_val b / 64 = tag v /\ length bs = (Z.to_nat (2 ^ tag v) - 1)%nat /\
    be_value (byte_val b mod 64) bs = v.
Proof.
  intros Hv. unfold append, len. simpl app.
  destruct (Z.to_nat (2 ^ tag v)) as [|n] eqn:En.
  { destruct (tag_cases v Hv) as [[E ?]|[[E ?]|[[E ?]|[E ?]]]];
      rewrite E in En; by vm_compute in En. }
  simpl be_bytes. eexists _, _. split; [done|].
  rewrite length_be_bytes, be_value_be_bytes, byte_val_of.
  assert (n = Z.to_nat (2 ^ tag v - 1)) as -> by lia. clear En. unfold u8.
  destruct (tag_cases v Hv) as [[-> ?]|[[-> ?]|[[-> ?]|[-> ?]]]].
  all: match goal with |- context [Z.of_nat (Z.to_nat ?x)] =>
         let y := eval vm_compute in (Z.of_nat (Z.to_nat x)) in
         change (Z.of_nat (Z.to_nat x)) with y end.
  all: repeat match goal with |- context [8 * ?x - 2] =>
         let y := eval vm_compute in (8 * x - 2) in change (8 * x - 2) with y end.
  all: split; [lia|]; split; [done|]; lia.
Qed.

#[export] Instance laws : QuicvarintLaws quicvarint.
Proof.
  split; simpl.
  - done.
  - intros v Hv. unfold append, len; simpl. rewrite length_be_bytes. lia.
  - intros v Hv. unfold len.
    destruct (tag_cases v Hv) as [[-> ?]|[[-> ?]|[[-> ?]|[-> ?]]]]; lia.
  - intros S rb s v s' Hv. destruct (append_split v Hv) as (b & bs & -> & Ht & Hl & Hval).
    inversion 1 as [|? ? s1 ? ? Hb Hy]; subst. unfold read. rewrite Hb, Ht.
    by erewrite read_be_yields by done.
  - intros S rb s v s'. unfold read. destruct (rb s) as [[b|e] s1] eqn:Hb; [|done].
    intros (bs & Hy & Hl & ->)%read_be_Ok.
    assert (yields rb s (b :: bs) s') as Hyb by eauto using yields.
    pose proof (byte_val_range b).
    assert (exists k, byte_val b / 64 = k /\ (k = 0 \/ k = 1 \/ k = 2 \/ k = 3)) as (k & Hk & Hk')
      by (eexists; split; [done|lia]).
    rewrite Hk in Hl. unfold Max. split.
    + pose proof (be_value_mod_range (byte_val b mod 64) bs).
      destruct Hk' as [-> | [-> | [-> | ->]]]; compute_rhs Hl; rewrite Hl in *; lia.
    + exists (b :: bs). split; [done|]. simpl.
      destruct Hk' as [-> | [-> | [-> | ->]]]; compute_rhs Hl; lia.
  - intros S rb s v. unfold peek. destruct (read rb s) as [r s'] eqn:E; simpl. naive_solver.
Qed.

(** Reading back from a byte slice. *)
Lemma read_append v tl : 0 <= v <= Max -> read bytesReader (append [] v ++ tl) = (Ok v, tl).
Proof. intros. apply (Read_Append (QuicvarintLaws := laws) bytesReader); [done|]. apply yields_bytes. Qed.

End Rfc9000.
