(* ===== verification/Protocol.v ===== *)
(** * Protocol constants, stream headers and the dispatch of incoming streams

    [protocol.go], [newOutgoingStreamHeader] of [streams_map_outgoing.go], and
    the functions that [ServeQUICConn] ([server.go]) and [NewClientConn]
    ([client_conn.go]) run on every stream accepted from the QUIC connection.

    An incoming QUIC stream is a reader state [S] with its [byteReader]; a
    dispatch function returns what it does with the stream and the state in
    which it hands it on. *)

From S2P Require Import Prelude Errors Quicvarint.

(** ** Constants *)

Definition settingsEnableWebtransportDraft06 : Z := 0x2b603742.
Definition settingsWebTransportEnabled : Z := 0x2c7cf000.
Definition settingsWebTransportMaxSessions : Z := 0x14e9cd29.
Definition settingsWebTransportInitialMaxStreamsUni : Z := 0x2b64.
Definition settingsWebTransportInitialMaxStreamsBidi : Z := 0x2b65.
Definition settingsWebTransportInitialMaxData : Z := 0x2b61.

(** The largest stream limit ([capsule.go]). *)
Definition maxStreamsLimit : Z := Z.shiftl 1 60.

Definition protocolHeader : gostring := str "webtransport-h3".
Definition protocolHeaderLegacy : gostring := str "webtransport".

Definition webTransportFrameType : Z := 0x41.
Definition webTransportUniStreamType : Z := 0x54.

Definition isWebTransportProtocol (s : gostring) : bool :=
  bool_decide (s = protocolHeader) || bool_decide (s = protocolHeaderLegacy).

Definition isValidSessionID (id : Z) : bool := bool_decide (id mod 4 = 0).

(** ** Counting the bytes of the stream header *)

Record byteCountingReader (S : Type) := mkByteCountingReader {
  ByteReader : S;
  BytesRead : Z;
}.
Arguments mkByteCountingReader {S} _ _.
Arguments ByteReader {S} _.
Arguments BytesRead {S} _.

Definition ReadByte {S} (rb : byteReader S) : byteReader (byteCountingReader S) := fun r =>
  match rb (ByteReader r) with
  | (Ok b, s) => (Ok b, mkByteCountingReader s (u64 (BytesRead r + 1)))
  | (Err e, s) => (Err e, mkByteCountingReader s (BytesRead r))
  end.

(** ** Stream headers *)

Definition newOutgoingStreamHeader `{!Quicvarint} (streamType sessionID : Z) : gostring :=
  Append (Append [] streamType) sessionID.

(** ** Dispatching an accepted stream *)

Inductive dispatch : Type :=
(** the function returns without touching the stream any more *)
| Ignored
(** the stream is handed to the HTTP/3 connection *)
| ToHTTP3
(** [str.CancelRead] and [str.CancelWrite], in this order, with these codes *)
| Cancelled (read write : option Z)
(** the whole QUIC connection is closed with this application error code *)
| ConnClosed (code : Z)
(** the stream is handed to the session manager *)
| ToSession (id headerLen : Z).

#[export] Instance dispatch_eq_dec : EqDecision dispatch.
Proof. solve_decision. Defined.

Section dispatch.
Context `{!Quicvarint} {S : Type} (rb : byteReader S).

(** [ServeQUICConn], bidirectional streams. *)
Definition serverDispatchStream (s : S) : dispatch * S :=
  match Peek rb s with
  | Err _ => (Ignored, s)
  | Ok typ =>
      if decide (typ <> webTransportFrameType) then (ToHTTP3, s)
      else
        match Read (ReadByte rb) (mkByteCountingReader s 0) with
        | (Err _, r) => (Ignored, ByteReader r)
        | (Ok _, r) =>
            match Read (ReadByte rb) r with
            | (Err _, r) =>
                (Cancelled (Some http3.ErrCodeGeneralProtocolError)
                           (Some http3.ErrCodeGeneralProtocolError), ByteReader r)
            | (Ok id, r) =>
                if negb (isValidSessionID id) then
                  (ConnClosed http3.ErrCodeIDError, ByteReader r)
                else (ToSession id (BytesRead r), ByteReader r)
            end
        end
  end.

(** [ServeQUICConn], unidirectional streams. *)
Definition serverDispatchUniStream (s : S) : dispatch * S :=
  match Peek rb s with
  | Err _ => (Ignored, s)
  | Ok typ =>
      if decide (typ <> webTransportUniStreamType) then (ToHTTP3, s)
      else
        match Read (ReadByte rb) (mkByteCountingReader s 0) with
        | (Err _, r) => (Ignored, ByteReader r)
        | (Ok _, r) =>
            match Read (ReadByte rb) r with
            | (Err _, r) =>
                (Cancelled (Some http3.ErrCodeGeneralProtocolError) None, ByteReader r)
            | (Ok id, r) =>
                if negb (isValidSessionID id) then
                  (ConnClosed http3.ErrCodeIDError, ByteReader r)
                else (ToSession id (BytesRead r), ByteReader r)
            end
        end
  end.

(** [NewClientConn], bidirectional streams. *)
Definition clientDispatchStream (s : S) : dispatch * S :=
  match Peek rb s with
  | Err _ => (Ignored, s)
  | Ok typ =>
      if decide (typ <> webTransportFrameType) then (ToHTTP3, s)
      else
        match Read (ReadByte rb) (mkByteCountingReader s 0) with
        | (Err _, r) => (Ignored, ByteReader r)
        | (Ok _, r) =>
            match Read (ReadByte rb) r with
            | (Err _, r) => (Ignored, ByteReader r)
            | (Ok id, r) =>
                if negb (isValidSessionID id) then
                  (ConnClosed http3.ErrCodeIDError, ByteReader r)
                else (ToSession id (BytesRead r), ByteReader r)
            end
        end
  end.

(** [NewClientConn], unidirectional streams. *)
Definition clientDispatchUniStream (s : S) : dispatch * S :=
  match Peek rb s with
  | Err _ => (Ignored, s)
  | Ok typ =>
      if decide (typ <> webTransportUniStreamType) then (ToHTTP3, s)
      else
        match Read (ReadByte rb) (mkByteCountingReader s 0) with
        | (Err _, r) => (Ignored, ByteReader r)
        | (Ok _, r) =>
            match Read (ReadByte rb) r with
            | (Err _, r) =>
                (Cancelled (Some http3.ErrCodeGeneralProtocolError) None, ByteReader r)
            | (Ok id, r) =>
                if negb (isValidSessionID id) then
                  (ConnClosed http3.ErrCodeIDError, ByteReader r)
                else (ToSession id (BytesRead r), ByteReader r)
            end
        end
  end.

End dispatch.

(** The endpoint that accepts a stream, and its direction. *)
Inductive endpoint := Server | Client.
Inductive direction := Bidi | Uni.

#[export] Instance direction_eq_dec : EqDecision direction.
Proof. solve_decision. Defined.

Definition headerType (d : direction) : Z :=
  match d with Bidi => webTransportFrameType | Uni => webTransportUniStreamType end.

(** The dispatch function that an endpoint runs on a stream of a direction. *)
Definition dispatchStream `{!Quicvarint} (e : endpoint) (d : direction)
    {S} (rb : byteReader S) : S -> dispatch * S :=
  match e, d with
  | Server, Bidi => serverDispatchStream rb
  | Server, Uni => serverDispatchUniStream rb
  | Client, Bidi => clientDispatchStream rb
  | Client, Uni => clientDispatchUniStream rb
  end.

(** ** Lemmas *)

Lemma ReadByte_yields {S} (rb : byteReader S) s bs s' n :
  yields rb s bs s' -> 0 <= n -> n + Z.of_nat (length bs) < 2 ^ 64 ->
  yields (ReadByte rb) (mkByteCountingReader s n) bs (mkByteCountingReader s' (n + Z.of_nat (length bs))).
Proof.
  intros H. revert n. induction H as [|s b s1 bs s2 Hb _ IH]; intros n Hn Hlt.
  - rewrite Z.add_0_r. constructor.
  - simpl length in *. econstructor.
    { unfold ReadByte; simpl. rewrite Hb. rewrite u64_id by lia. done. }
    replace (n + Z.of_nat (Datatypes.S (length bs))) with (n + 1 + Z.of_nat (length bs)) by lia. apply IH; lia.
Qed.

Lemma ReadByte_yields_inv {S} (rb : byteReader S) r bs r' :
  yields (ReadByte rb) r bs r' -> 0 <= BytesRead r ->
  BytesRead r + Z.of_nat (length bs) < 2 ^ 64 ->
  yields rb (ByteReader r) bs (ByteReader r') /\
  BytesRead r' = BytesRead r + Z.of_nat (length bs).
Proof.
  induction 1 as [|r b r1 bs r2 Hb _ IH]; simpl length; intros Hn Hlt.
  { split; [constructor|lia]. }
  unfold ReadByte in Hb. destruct (rb (ByteReader r)) as [[b'|e] s] eqn:E; simplify_eq.
  simpl in IH. rewrite u64_id in IH by lia. destruct IH as [Hy ->]; [lia..|].
  split; [|lia]. econstructor; done.
Qed.

Section header.
Context `{!Quicvarint} `{!QuicvarintLaws _}.

Lemma headerType_range d : 0 <= headerType d <= Max.
Proof. by destruct d. Qed.

Lemma newOutgoingStreamHeader_app typ sid :
  0 <= typ <= Max -> 0 <= sid <= Max ->
  newOutgoingStreamHeader typ sid = Append [] typ ++ Append [] sid.
Proof. intros. unfold newOutgoingStreamHeader. by apply Append_app. Qed.

Lemma Append_length_le v : 0 <= v <= Max -> (length (Append [] v) <= 8)%nat.
Proof.
  intros Hv. pose proof (Append_length v Hv). pose proof (Len_range v Hv). lia.
Qed.

(** Reading a well-formed header through the counting reader. *)
Lemma read_header {S} (rb : byteReader S) s sid d s' :
  0 <= sid <= Max -> yields rb s (newOutgoingStreamHeader (headerType d) sid) s' ->
  Peek rb s = Ok (headerType d) /\
  exists r, Read (ReadByte rb) (mkByteCountingReader s 0) = (Ok (headerType d), r) /\
    Read (ReadByte rb) r = (Ok sid, mkByteCountingReader s'
      (Z.of_nat (length (newOutgoingStreamHeader (headerType d) sid)))).
Proof.
  intros Hsid. pose proof (headerType_range d) as Hd.
  rewrite newOutgoingStreamHeader_app by done.
  intros (s1 & H1 & H2)%yields_app.
  pose proof (Append_length_le _ Hd). pose proof (Append_length_le _ Hsid).
  split.
  { apply Peek_Read. exists s1. by apply Read_Append. }
  eexists. split; [apply Read_Append, ReadByte_yields; [done..|lia|lia]|].
  rewrite length_app, Nat2Z.inj_add.
  apply Read_Append; [done|]. apply ReadByte_yields; [done|lia|lia].
Qed.

(** The header that an endpoint writes leads to the session. *)
Lemma header_dispatched (e : endpoint) (d : direction) {S} (rb : byteReader S) (s s' : S) (sid : Z) :
  0 <= sid <= Max -> sid mod 4 = 0 -> yields rb s (newOutgoingStreamHeader (headerType d) sid) s' ->
  dispatchStream e d rb s =
    (ToSession sid (Z.of_nat (length (newOutgoingStreamHeader (headerType d) sid))), s').
Proof.
  intros Hsid Hmod Hy. apply read_header in Hy as (Hp & r & Hr1 & Hr2); [|done].
  assert (isValidSessionID sid = true) as Hv by by apply bool_decide_eq_true.
  destruct e, d; simpl in *;
    unfold serverDispatchStream, serverDispatchUniStream, clientDispatchStream,
      clientDispatchUniStream; rewrite Hp, Hr1, Hr2, Hv; by rewrite decide_False by auto.
Qed.

End header.

(** What a dispatch function has done when it hands a stream to a session. *)
Ltac dispatch_cases :=
  repeat match goal with
  | H : context [if decide ?P then _ else _] |- _ => destruct (decide P); simplify_eq/=
  | H : context [match ?x with _ => _ end] |- _ => destruct x eqn:?; simplify_eq/=
  end.

(** Only a valid header leads to a session. *)
Lemma dispatched_sound `{!Quicvarint} `{!QuicvarintLaws _}
    (e : endpoint) (d : direction) {S} (rb : byteReader S) (s s' : S) (id n : Z) :
  dispatchStream e d rb s = (ToSession id n, s') ->
  id mod 4 = 0 /\ 0 <= id <= Max /\ Peek rb s = Ok (headerType d) /\
  exists hdr, yields rb s hdr s' /\ n = Z.of_nat (length hdr).
Proof.
  intros Hdsp.
  assert (exists t r1 r2, Peek rb s = Ok (headerType d) /\
    Read (ReadByte rb) (mkByteCountingReader s 0) = (Ok t, r1) /\ Read (ReadByte rb) r1 = (Ok id, r2) /\
    isValidSessionID id = true /\ n = BytesRead r2 /\ s' = ByteReader r2)
    as (t & r1 & r2 & Hp & Hr1 & Hr2 & Hid & -> & ->).
  { destruct e, d; simpl in Hdsp;
    unfold serverDispatchStream, serverDispatchUniStream, clientDispatchStream,
      clientDispatchUniStream in Hdsp; dispatch_cases;
    match goal with H : ~ (_ <> _) |- _ => apply dec_stable in H; subst end;
    eexists _, _, _; split_and!; try done; by apply negb_false_iff. }
  apply Read_Ok in Hr1 as (_ & bs1 & Hy1 & Hl1). apply Read_Ok in Hr2 as (? & bs2 & Hy2 & Hl2).
  apply ReadByte_yields_inv in Hy1 as [Hy1 Hn1]; simpl in *; [|lia..].
  apply ReadByte_yields_inv in Hy2 as [Hy2 Hn2]; [|lia..].
  apply bool_decide_eq_true in Hid. split_and!; try done; [lia|lia|].
  exists (bs1 ++ bs2). split; [apply yields_app; eauto|]. rewrite length_app. lia.
Qed.

(** ** Theorems

    The witnesses run on the RFC 9000 instance. *)

Import (hints) Rfc9000.

(** The header that an endpoint writes on a stream of a valid session is
    parsed by the dispatch function of the other endpoint (either endpoint,
    both stream directions): the stream goes to the session it was opened for,
    positioned right after the header, with the exact header length. *)
Theorem stream_header_roundtrip `{!Quicvarint} `{!QuicvarintLaws _}
    (e : endpoint) (d : direction) {S} (rb : byteReader S) (s s' : S) (sid : Z) :
  0 <= sid <= Max -> sid mod 4 = 0 ->
  yields rb s (newOutgoingStreamHeader (headerType d) sid) s' ->
  dispatchStream e d rb s =
    (ToSession sid (Z.of_nat (length (newOutgoingStreamHeader (headerType d) sid))), s').
Proof. apply header_dispatched. Qed.

Lemma stream_header_roundtrip_witness :
  dispatchStream Server Bidi bytesReader
    (newOutgoingStreamHeader webTransportFrameType 16388 ++ str "payload") =
  (ToSession 16388 6, str "payload").
Proof.
  refine (stream_header_roundtrip Server Bidi bytesReader _ (str "payload") 16388 _ _ _).
  - unfold Max. lia.
  - reflexivity.
  - apply yields_bytes.
Defined.

(** A stream reaches a session only when its first varint is the
    WebTransport type of its direction and its second one is a valid session
    ID (a QUIC varint divisible by 4), and the header length that is reported
    is exactly the number of bytes consumed, whatever encoding the peer chose. *)
Theorem dispatch_to_session_sound `{!Quicvarint} `{!QuicvarintLaws _}
    (e : endpoint) (d : direction) {S} (rb : byteReader S) (s s' : S) (id n : Z) :
  dispatchStream e d rb s = (ToSession id n, s') ->
  id mod 4 = 0 /\ 0 <= id <= Max /\ Peek rb s = Ok (headerType d) /\
  exists hdr, yields rb s hdr s' /\ n = Z.of_nat (length hdr).
Proof. apply dispatched_sound. Qed.

(** A header in a non-minimal encoding: type 0x41 on 4 bytes, session 4 on 2. *)
Lemma dispatch_to_session_sound_witness :
  (4 mod 4 = 0 /\ 0 <= 4 <= Max /\
   Peek bytesReader [x80; x00; x00; x41; x40; x04; x61] = Ok webTransportFrameType /\
   exists hdr, yields bytesReader [x80; x00; x00; x41; x40; x04; x61] hdr [x61] /\
     6 = Z.of_nat (length hdr)).
Proof.
  apply (dispatch_to_session_sound Client Bidi bytesReader). reflexivity.
Defined.
