(* ===== verification/Config.v ===== *)
(** * Configuration and the negotiation of flow control ([config.go])

    [addSettings] writes the HTTP/3 settings that an endpoint advertises, and
    [Config_sessionFlowControl] derives the limits of a session from the local
    configuration and the settings of the peer. A Go map is a [gmap]; reading a
    missing key of a map, or any key of a nil map, gives 0. *)

From S2P Require Import Prelude Errors Quicvarint Protocol.

(** ** Data *)

(** [Config]; the three fields are [int64]. *)
Record Config := mkConfig {
  Config_MaxIncomingStreams : Z;
  Config_MaxIncomingUniStreams : Z;
  Config_MaxIncomingData : Z;
}.

(** [sessionFlowControl]: the stream limits are [uint64], the data limits [int64]. *)
Record sessionFlowControl := mkSessionFlowControl {
  Enabled : bool;
  MaxIncomingStreams : Z;
  MaxIncomingUniStreams : Z;
  MaxOutgoingStreams : Z;
  MaxOutgoingUniStreams : Z;
  MaxIncomingData : Z;
  MaxOutgoingData : Z;
}.

(** The fields of [http3.Settings] that the package reads. *)
Record http3_Settings := mkSettings {
  EnableDatagrams : bool;
  EnableExtendedConnect : bool;
  Other : option (gmap Z Z);
}.

(** [m[k]] for a Go map of type [map[uint64]uint64], which may be nil. *)
Definition getSetting (m : option (gmap Z Z)) (k : Z) : Z :=
  default 0 (m ≫= fun m => m !! k).

(** ** Operations *)

Definition streamLimit (limit : Z) : Z :=
  if decide (limit <= 0) then 0 else Z.min (u64 limit) (u64 maxStreamsLimit).

Definition dataLimit (limit : Z) : Z := Z.min (Z.max limit 0) (i64 Max).

Definition setIf (b : bool) (k v : Z) (m : gmap Z Z) : gmap Z Z :=
  if b then <[k := v]> m else m.

Definition addSettings (c : Config) (settings : gmap Z Z) : gmap Z Z :=
  let settings := delete settingsWebTransportInitialMaxStreamsBidi settings in
  let settings := delete settingsWebTransportInitialMaxStreamsUni settings in
  let settings := delete settingsWebTransportInitialMaxData settings in
  let settings :=
    setIf (bool_decide (Config_MaxIncomingStreams c <> 0))
      settingsWebTransportInitialMaxStreamsBidi
      (streamLimit (Config_MaxIncomingStreams c)) settings in
  let settings :=
    setIf (bool_decide (Config_MaxIncomingUniStreams c <> 0))
      settingsWebTransportInitialMaxStreamsUni
      (streamLimit (Config_MaxIncomingUniStreams c)) settings in
  setIf (bool_decide (Config_MaxIncomingData c <> 0))
    settingsWebTransportInitialMaxData
    (u64 (dataLimit (Config_MaxIncomingData c))) settings.

(** [sessionFlowControl{}] *)
Definition noFlowControl : sessionFlowControl := mkSessionFlowControl false 0 0 0 0 0 0.

Definition Config_sessionFlowControl (c : Config) (remote : option http3_Settings)
  : sessionFlowControl :=
  let localEnabled :=
    bool_decide (0 < Config_MaxIncomingStreams c) ||
    bool_decide (0 < Config_MaxIncomingUniStreams c) ||
    bool_decide (0 < Config_MaxIncomingData c) in
  match localEnabled, remote with
  | false, _ | _, None => noFlowControl
  | true, Some remote =>
      let peerSettings := Other remote in
      let peerEnabled :=
        bool_decide (0 < getSetting peerSettings settingsWebTransportInitialMaxStreamsBidi) ||
        bool_decide (0 < getSetting peerSettings settingsWebTransportInitialMaxStreamsUni) ||
        bool_decide (0 < getSetting peerSettings settingsWebTransportInitialMaxData) in
      if negb peerEnabled then noFlowControl
      else
        mkSessionFlowControl true
          (streamLimit (Config_MaxIncomingStreams c))
          (streamLimit (Config_MaxIncomingUniStreams c))
          (getSetting peerSettings settingsWebTransportInitialMaxStreamsBidi)
          (getSetting peerSettings settingsWebTransportInitialMaxStreamsUni)
          (dataLimit (Config_MaxIncomingData c))
          (i64 (getSetting peerSettings settingsWebTransportInitialMaxData))
  end.

(** The values of a Go [int64]. *)
Definition is_int64 (z : Z) : Prop := - 2 ^ 63 <= z < 2 ^ 63.

Definition Config_wf (c : Config) : Prop :=
  is_int64 (Config_MaxIncomingStreams c) /\ is_int64 (Config_MaxIncomingUniStreams c) /\
  is_int64 (Config_MaxIncomingData c).

(** At least one limit is positive: the endpoint wants flow control. *)
Definition wantsFlowControl (c : Config) : Prop :=
  0 < Config_MaxIncomingStreams c \/ 0 < Config_MaxIncomingUniStreams c \/
  0 < Config_MaxIncomingData c.

(** The settings that an endpoint configured with [c] advertises on top of [m]. *)
Definition advertised (c : Config) (m : gmap Z Z) : http3_Settings :=
  mkSettings true true (Some (addSettings c m)).

(** ** Lemmas *)

Lemma streamLimit_spec limit : is_int64 limit ->
  streamLimit limit = Z.max 0 (Z.min limit (2 ^ 60)).
Proof.
  unfold is_int64, streamLimit, maxStreamsLimit. intros.
  rewrite (u64_id (Z.shiftl 1 60)) by (vm_compute; naive_solver).
  change (Z.shiftl 1 60) with (2 ^ 60).
  case_decide; [lia|]. rewrite u64_id by lia. lia.
Qed.

Lemma dataLimit_spec limit : dataLimit limit = Z.max 0 (Z.min limit Max).
Proof. unfold dataLimit, Max. rewrite i64_id by lia. lia. Qed.

Lemma streamLimit_0 : streamLimit 0 = 0.
Proof. done. Qed.

(** What the peer reads back from the advertised settings. *)
Lemma advertised_settings c m :
  is_int64 (Config_MaxIncomingData c) ->
  getSetting (Some (addSettings c m)) settingsWebTransportInitialMaxStreamsBidi =
    streamLimit (Config_MaxIncomingStreams c) /\
  getSetting (Some (addSettings c m)) settingsWebTransportInitialMaxStreamsUni =
    streamLimit (Config_MaxIncomingUniStreams c) /\
  getSetting (Some (addSettings c m)) settingsWebTransportInitialMaxData =
    dataLimit (Config_MaxIncomingData c).
Proof.
  intros Hd. unfold addSettings, getSetting, setIf. simpl.
  assert (u64 (dataLimit (Config_MaxIncomingData c)) = dataLimit (Config_MaxIncomingData c)) as ->.
  { apply u64_id. rewrite dataLimit_spec. unfold Max, is_int64 in *. lia. }
  unfold settingsWebTransportInitialMaxStreamsBidi, settingsWebTransportInitialMaxStreamsUni,
    settingsWebTransportInitialMaxData.
  repeat case_bool_decide; split_and!; simplify_map_eq; try done;
    match goal with H : _ = 0 |- _ => by rewrite H end.
Qed.

#[export] Instance wantsFlowControl_dec c : Decision (wantsFlowControl c).
Proof. unfold wantsFlowControl. apply _. Defined.

Lemma wantsFlowControl_limits c : Config_wf c ->
  wantsFlowControl c <->
  0 < streamLimit (Config_MaxIncomingStreams c) \/
  0 < streamLimit (Config_MaxIncomingUniStreams c) \/
  0 < dataLimit (Config_MaxIncomingData c).
Proof.
  intros (? & ? & ?). rewrite !streamLimit_spec, dataLimit_spec by done.
  unfold wantsFlowControl, Max. lia.
Qed.

(** The limits of a session with a peer that advertises [cB]. *)
Lemma sessionFlowControl_advertised cA cB mB : Config_wf cA -> Config_wf cB ->
  Config_sessionFlowControl cA (Some (advertised cB mB)) =
  if decide (wantsFlowControl cA /\ wantsFlowControl cB) then
    mkSessionFlowControl true
      (streamLimit (Config_MaxIncomingStreams cA))
      (streamLimit (Config_MaxIncomingUniStreams cA))
      (streamLimit (Config_MaxIncomingStreams cB))
      (streamLimit (Config_MaxIncomingUniStreams cB))
      (dataLimit (Config_MaxIncomingData cA))
      (dataLimit (Config_MaxIncomingData cB))
  else noFlowControl.
Proof.
  intros HA HB. pose proof (wantsFlowControl_limits cB HB) as HwB.
  unfold Config_sessionFlowControl, advertised, Other.
  destruct HB as (HB1 & HB2 & HB3).
  destruct (advertised_settings cB mB HB3) as (-> & -> & ->).
  rewrite <- !bool_decide_or, bool_decide_decide.
  assert (i64 (dataLimit (Config_MaxIncomingData cB)) = dataLimit (Config_MaxIncomingData cB))
    as ->. { apply i64_id. rewrite dataLimit_spec. unfold Max. lia. }
  destruct (decide (_ /\ _)) as [[Hw Hw']|Hw].
  - rewrite decide_True by (unfold wantsFlowControl in Hw; tauto).
    rewrite bool_decide_eq_true_2 by tauto. done.
  - case_decide; [|done]. rewrite bool_decide_eq_false_2; [done|].
    unfold wantsFlowControl in Hw at 1. tauto.
Qed.

(** ** Theorems *)

(** The two ends of a connection derive matching limits from each other's
    advertised settings. Whatever else the settings contain, flow control is
    enabled on one side exactly when it is enabled on the other, which is when
    both want it; and then the outgoing limits of one side are the incoming
    limits of the other, for bidirectional streams, unidirectional streams and
    data. *)
Theorem negotiation_agrees (cA cB : Config) (mA mB : gmap Z Z) :
  Config_wf cA -> Config_wf cB ->
  let fA := Config_sessionFlowControl cA (Some (advertised cB mB)) in
  let fB := Config_sessionFlowControl cB (Some (advertised cA mA)) in
  Enabled fA = Enabled fB /\
  (Enabled fA = true <-> wantsFlowControl cA /\ wantsFlowControl cB) /\
  MaxOutgoingStreams fA = MaxIncomingStreams fB /\
  MaxOutgoingUniStreams fA = MaxIncomingUniStreams fB /\
  MaxOutgoingData fA = MaxIncomingData fB.
Proof.
  intros HA HB fA fB; subst fA fB.
  rewrite !sessionFlowControl_advertised by done.
  repeat case_decide; simpl; split_and!; try done; tauto.
Qed.

Lemma negotiation_agrees_witness :
  let cA := mkConfig 100 0 (2 ^ 62) in
  let cB := mkConfig (-1) (2 ^ 61) 5000 in
  let fA := Config_sessionFlowControl cA (Some (advertised cB ∅)) in
  let fB := Config_sessionFlowControl cB (Some (advertised cA ∅)) in
  Config_wf cA /\ Config_wf cB /\ Enabled fA = true /\
  MaxOutgoingUniStreams fA = 2 ^ 60 /\ MaxIncomingUniStreams fB = 2 ^ 60 /\
  MaxOutgoingData fA = MaxIncomingData fB.
Proof.
  assert (Config_wf (mkConfig 100 0 (2 ^ 62))) as HA by (unfold Config_wf, is_int64; simpl; lia).
  assert (Config_wf (mkConfig (-1) (2 ^ 61) 5000)) as HB by (unfold Config_wf, is_int64; simpl; lia).
  split_and!; [done..| reflexivity | reflexivity | reflexivity |].
  apply (negotiation_agrees _ _ ∅ ∅ HA HB).
Defined.
