(* ===== verification/FlowControl.v ===== *)
(** * Data flow control ([flow_control.go])

    The two controllers of a session. Every method runs with the controller's
    mutex held from beginning to end, so it is one function from the old state
    to its results and the new state. The callback [queueWindowUpdate] is an
    output: the limits it is called with, in order. A [chan struct{}] that is
    only ever closed is a number, and the closed ones are a set. *)

From S2P Require Import Prelude Errors Quicvarint Protocol Config.

(** ** Sending side *)

Record outgoingDataFlowController := mkOutgoingFC {
  out_maxData : Z;
  bytesSent : Z;
  lastBlockedAt : Z;
  updated : nat;
  closedChans : gset nat;
}.

Definition errMaxDataNotIncreasedText : gostring :=
  str "webtransport: WT_MAX_DATA capsule didn't increase data limit".
Definition errMaxDataNotIncreased : error := ErrNew errMaxDataNotIncreasedText.

Definition newOutgoingDataFlowController (maxData : Z) : outgoingDataFlowController :=
  mkOutgoingFC maxData 0 (-1) 0 ∅.

Definition AddBytesSent (f : outgoingDataFlowController) (n : Z)
  : Z * outgoingDataFlowController :=
  let added :=
    if decide (bytesSent f < out_maxData f)
    then Z.min n (i64 (out_maxData f - bytesSent f)) else 0 in
  (added, mkOutgoingFC (out_maxData f) (i64 (bytesSent f + added))
            (lastBlockedAt f) (updated f) (closedChans f)).

Definition IsNewlyBlocked (f : outgoingDataFlowController)
  : (bool * Z) * outgoingDataFlowController :=
  if decide (bytesSent f < out_maxData f \/ out_maxData f = lastBlockedAt f)
  then ((false, 0), f)
  else ((true, out_maxData f),
        mkOutgoingFC (out_maxData f) (bytesSent f) (out_maxData f)
          (updated f) (closedChans f)).

Definition UpdateMaxData (f : outgoingDataFlowController) (maxData : Z)
  : option error * outgoingDataFlowController :=
  if decide (maxData <= out_maxData f) then
    (Some (ErrWrap (errMaxDataNotIncreasedText ++ str ": current limit: "
                    ++ itoa (out_maxData f) ++ str ", received limit: " ++ itoa maxData)
             errMaxDataNotIncreased), f)
  else
    (None, mkOutgoingFC maxData (bytesSent f) (lastBlockedAt f)
             (S (updated f)) ({[updated f]} ∪ closedChans f)).

Definition NextUpdate (f : outgoingDataFlowController) : nat := updated f.

(** ** Receiving side *)

Record incomingDataFlowController := mkIncomingFC {
  in_bytesRead : Z;
  in_maxData : Z;
  receiveWindow : Z;
}.

Definition newIncomingDataFlowController (bytesRead maxData : Z) : incomingDataFlowController :=
  mkIncomingFC bytesRead maxData (i64 (maxData - bytesRead)).

(** The second component lists the calls of [queueWindowUpdate]. *)
Definition AddBytesRead (f : incomingDataFlowController) (n : Z)
  : option error * list Z * incomingDataFlowController :=
  if decide (i64 (in_maxData f - in_bytesRead f) < n) then
    (Some (ErrNew (str "webtransport: received more than " ++ itoa (in_maxData f)
                   ++ str " bytes of stream data")), [], f)
  else
    let bytesRead := i64 (in_bytesRead f + n) in
    let f := mkIncomingFC bytesRead (in_maxData f) (receiveWindow f) in
    if decide (i64 (receiveWindow f - Z.quot (receiveWindow f) 4)
               < i64 (in_maxData f - bytesRead)) then (None, [], f)
    else
      let maxData := i64 (bytesRead + receiveWindow f) in
      if decide (maxData = in_maxData f) then (None, [], f)
      else (None, [maxData], mkIncomingFC bytesRead maxData (receiveWindow f)).

Arguments AddBytesSent : simpl never.
Arguments IsNewlyBlocked : simpl never.
Arguments UpdateMaxData : simpl never.
Arguments AddBytesRead : simpl never.

(** ** Specification of the sending side

    The ledger of a sender: unbounded integers, and the set of all limits at
    which it has been reported as blocked. *)

Record ledger := mkLedger {
  limit : Z;
  granted : Z;
  reported : gset Z;
}.

Inductive fcOp : Type :=
| OpAddBytesSent (n : Z)
| OpIsNewlyBlocked
| OpUpdateMaxData (maxData : Z).

Inductive fcOut : Type :=
| OutGranted (n : Z)
| OutBlocked (b : option Z)
| OutUpdated (ok : bool).

Definition ledger_step (l : ledger) (op : fcOp) : fcOut * ledger :=
  match op with
  | OpAddBytesSent n =>
      let a := Z.min n (limit l - granted l) in
      (OutGranted a, mkLedger (limit l) (granted l + a) (reported l))
  | OpIsNewlyBlocked =>
      if decide (granted l = limit l /\ limit l ∉ reported l)
      then (OutBlocked (Some (limit l)), mkLedger (limit l) (granted l) ({[limit l]} ∪ reported l))
      else (OutBlocked None, l)
  | OpUpdateMaxData m =>
      if decide (limit l < m) then (OutUpdated true, mkLedger m (granted l) (reported l))
      else (OutUpdated false, l)
  end.

Definition controller_step (f : outgoingDataFlowController) (op : fcOp)
  : fcOut * outgoingDataFlowController :=
  match op with
  | OpAddBytesSent n => let '(a, f) := AddBytesSent f n in (OutGranted a, f)
  | OpIsNewlyBlocked =>
      let '((b, m), f) := IsNewlyBlocked f in
      (OutBlocked (if b then Some m else None), f)
  | OpUpdateMaxData m =>
      let '(e, f) := UpdateMaxData f m in
      (OutUpdated (match e with None => true | Some _ => false end), f)
  end.

(** Run a sequence of operations and collect the outputs. *)
Fixpoint run {S Op Out} (step : S -> Op -> Out * S) (s : S) (ops : list Op) : list Out :=
  match ops with
  | [] => []
  | op :: ops => let '(o, s) := step s op in o :: run step s ops
  end.

(** Arguments that the code passes: a count is a non-negative [int64], a limit
    is a non-negative [int64] (it comes from a varint). *)
Definition op_wf (op : fcOp) : Prop :=
  match op with
  | OpAddBytesSent n => 0 <= n < 2 ^ 63
  | OpIsNewlyBlocked => True
  | OpUpdateMaxData m => 0 <= m < 2 ^ 63
  end.

(** ** Invariants *)

Definition out_inv (f : outgoingDataFlowController) : Prop :=
  0 <= bytesSent f <= out_maxData f /\ out_maxData f < 2 ^ 63 /\
  -1 <= lastBlockedAt f <= out_maxData f /\
  (forall c, c ∈ closedChans f <-> (c < updated f)%nat).

Definition in_inv (f : incomingDataFlowController) : Prop :=
  0 <= in_bytesRead f <= in_maxData f /\ 0 <= receiveWindow f /\
  in_maxData f <= in_bytesRead f + receiveWindow f < 2 ^ 63 /\
  (in_maxData f = in_bytesRead f + receiveWindow f \/
   receiveWindow f - receiveWindow f / 4 < in_maxData f - in_bytesRead f).

Definition ledger_rel (f : outgoingDataFlowController) (l : ledger) : Prop :=
  out_inv f /\ limit l = out_maxData f /\ granted l = bytesSent f /\
  (forall m, m ∈ reported l -> m <= lastBlockedAt f) /\
  (lastBlockedAt f = -1 \/ lastBlockedAt f ∈ reported l).

(** ** Lemmas: the sending side *)

Lemma out_inv_new m : 0 <= m < 2 ^ 63 -> out_inv (newOutgoingDataFlowController m).
Proof.
  intros. unfold out_inv; simpl. split_and!; [lia..|].
  intros c. rewrite elem_of_empty. lia.
Qed.

Lemma AddBytesSent_spec f n : out_inv f -> 0 <= n ->
  AddBytesSent f n =
    (Z.min n (out_maxData f - bytesSent f),
     mkOutgoingFC (out_maxData f) (bytesSent f + Z.min n (out_maxData f - bytesSent f))
       (lastBlockedAt f) (updated f) (closedChans f)).
Proof.
  intros (? & ? & ? & _) ?. unfold AddBytesSent.
  rewrite (i64_id (out_maxData f - bytesSent f)) by lia.
  case_decide; (rewrite i64_id by lia).
  - done.
  - replace (Z.min n _) with 0 by lia. done.
Qed.

Lemma AddBytesSent_inv f n : out_inv f -> 0 <= n -> out_inv (AddBytesSent f n).2.
Proof.
  intros Hf Hn. rewrite AddBytesSent_spec by done.
  destruct Hf as (? & ? & ? & ?). unfold out_inv; simpl. split_and!; try lia; done.
Qed.

Lemma IsNewlyBlocked_inv f : out_inv f -> out_inv (IsNewlyBlocked f).2.
Proof.
  intros (? & ? & ? & ?). unfold IsNewlyBlocked. case_decide; simpl; [done|].
  unfold out_inv; simpl. split_and!; try lia; done.
Qed.

Lemma UpdateMaxData_inv f m : out_inv f -> 0 <= m < 2 ^ 63 -> out_inv (UpdateMaxData f m).2.
Proof.
  intros (? & ? & ? & Hc) ?. unfold UpdateMaxData. case_decide; simpl; [done|].
  unfold out_inv; simpl. split_and!; try lia. intros c.
  rewrite elem_of_union, elem_of_singleton, Hc. lia.
Qed.

Lemma UpdateMaxData_increase f m : out_maxData f < m ->
  UpdateMaxData f m = (None, mkOutgoingFC m (bytesSent f) (lastBlockedAt f)
    (S (updated f)) ({[updated f]} ∪ closedChans f)).
Proof. intros. unfold UpdateMaxData. by rewrite decide_False by lia. Qed.

Lemma ledger_rel_step f l op : ledger_rel f l -> op_wf op ->
  (controller_step f op).1 = (ledger_step l op).1 /\
  ledger_rel (controller_step f op).2 (ledger_step l op).2.
Proof.
  intros (Hinv & Hl & Hg & Hr & Hlast) Hop. destruct op as [n| |m]; unfold op_wf, controller_step, ledger_step in *.
  - rewrite AddBytesSent_spec, Hl, Hg by (done || lia). simpl. split; [done|].
    pose proof (AddBytesSent_inv f n Hinv) as H. rewrite AddBytesSent_spec in H by (done || lia).
    unfold ledger_rel; simpl. split_and!; try done. apply H; lia.
  - pose proof (IsNewlyBlocked_inv f Hinv) as H. unfold IsNewlyBlocked in *.
    destruct Hinv as (? & ? & ? & ?). rewrite Hl, Hg.
    destruct (decide (bytesSent f < _ \/ _)) as [Hb|Hb]; simpl in *.
    + rewrite decide_False; [done|]. intros [? Hn]. destruct Hb; [lia|].
      destruct Hlast; [lia|congruence].
    + rewrite decide_True; [|split; [lia|]; intros ?%Hr; lia]. simpl. split; [done|].
      unfold ledger_rel; simpl. split_and!; try done; [|set_solver].
      intros m' [Hm|Hm]%elem_of_union; [|apply Hr in Hm; lia].
      apply elem_of_singleton in Hm. lia.
  - pose proof (UpdateMaxData_inv f m Hinv Hop) as H. unfold UpdateMaxData in *. rewrite Hl.
    destruct (decide (m <= out_maxData f)); simpl in *.
    + rewrite decide_False by lia. done.
    + rewrite decide_True by lia. done.
Qed.

Lemma ledger_rel_run f l ops : ledger_rel f l -> Forall op_wf ops ->
  run controller_step f ops = run ledger_step l ops.
Proof.
  intros Hrel Hops. revert f l Hrel.
  induction Hops as [|op ops Hop _ IH]; intros f l Hrel; simpl; [done|].
  destruct (ledger_rel_step f l op Hrel Hop) as [Ho Hrel'].
  destruct (controller_step f op), (ledger_step l op). simpl in *. f_equal; eauto.
Qed.

(** ** Lemmas: the receiving side *)

Lemma in_inv_new m : 0 <= m < 2 ^ 63 -> in_inv (newIncomingDataFlowController 0 m).
Proof.
  intros. unfold in_inv, newIncomingDataFlowController; simpl. rewrite i64_id by lia. lia.
Qed.

(** Every branch of [AddBytesRead] under the invariant. *)
Lemma AddBytesRead_spec f n : in_inv f -> 0 <= n < 2 ^ 63 ->
  in_bytesRead f + n + receiveWindow f < 2 ^ 63 ->
  (in_maxData f < in_bytesRead f + n ->
   exists e, AddBytesRead f n = (Some e, [], f)) /\
  (in_bytesRead f + n <= in_maxData f ->
   let b := in_bytesRead f + n in
   let w := receiveWindow f in
   AddBytesRead f n =
     if decide (w - w / 4 < in_maxData f - b \/ b + w = in_maxData f)
     then (None, [], mkIncomingFC b (in_maxData f) w)
     else (None, [b + w], mkIncomingFC b (b + w) w)).
Proof.
  intros (? & ? & ? & _) Hn Hov. unfold AddBytesRead; simpl.
  rewrite (i64_id (in_maxData f - in_bytesRead f)) by lia. split.
  { intros. rewrite decide_True by lia. eauto. }
  intros. rewrite decide_False by lia.
  rewrite (i64_id (in_bytesRead f + n)) by lia.
  rewrite (i64_id (in_maxData f - _)), (i64_id (_ + receiveWindow f)) by lia.
  rewrite Z.quot_div_nonneg by lia. rewrite (i64_id (receiveWindow f - _)) by lia.
  repeat case_decide; try done; exfalso; lia.
Qed.

Lemma AddBytesRead_inv f n : in_inv f -> 0 <= n < 2 ^ 63 ->
  in_bytesRead f + n + receiveWindow f < 2 ^ 63 -> in_inv (AddBytesRead f n).2.
Proof.
  intros Hf Hn Hov. destruct (AddBytesRead_spec f n Hf Hn Hov) as [H1 H2].
  destruct (decide (in_bytesRead f + n <= in_maxData f)) as [Hle|].
  2: { destruct H1 as [e ->]; [lia|done]. }
  rewrite (H2 Hle). destruct Hf as (? & ? & ? & ?).
  case_decide; unfold in_inv; simpl; lia.
Qed.

(** ** Theorems *)

(** C35: the sending controller refines its specification. For every sequence of
    calls with arguments in range it gives the outputs of the ledger, which
    works on unbounded integers and remembers every limit it has reported: it
    grants exactly the remaining credit, accepts exactly the increasing limits,
    and reports a limit as newly blocked exactly when all of its credit is used
    and this limit has never been reported, although the controller remembers
    only the last one. No 64-bit operation wraps around. *)
Theorem outgoing_refines_ledger (m : Z) (ops : list fcOp) :
  0 <= m < 2 ^ 63 -> Forall op_wf ops ->
  run controller_step (newOutgoingDataFlowController m) ops =
  run ledger_step (mkLedger m 0 ∅) ops.
Proof.
  intros Hm Hops. apply ledger_rel_run; [|done].
  split; [by apply out_inv_new|]. simpl. split_and!; try done; set_solver.
Qed.

Lemma outgoing_refines_ledger_witness :
  run ledger_step (mkLedger 10 0 ∅)
    [OpAddBytesSent 7; OpIsNewlyBlocked; OpAddBytesSent 7; OpIsNewlyBlocked;
     OpIsNewlyBlocked; OpUpdateMaxData 9; OpUpdateMaxData 12; OpIsNewlyBlocked;
     OpAddBytesSent 5; OpIsNewlyBlocked] =
  [OutGranted 7; OutBlocked None; OutGranted 3; OutBlocked (Some 10);
   OutBlocked None; OutUpdated false; OutUpdated true; OutBlocked None;
   OutGranted 2; OutBlocked (Some 12)].
Proof.
  rewrite <- (outgoing_refines_ledger 10).
  - vm_compute. reflexivity.
  - lia.
  - repeat (apply Forall_cons; split; [simpl; done || lia|]). apply Forall_nil; exact I.
Defined.

(** Every branch of [AddBytesRead], at 64-bit width. While the window fits,
    a read beyond the advertised limit is refused, leaves the controller
    unchanged and advertises nothing. A read within the limit is accepted; it
    advertises a new limit exactly when at least a quarter of the window has
    been consumed since the last advertised limit, namely the bytes read plus
    the whole window, which is larger than the old limit; and afterwards the
    peer has more than three quarters of the window, or all of it, as credit. *)
Theorem AddBytesRead_correct (f : incomingDataFlowController) (n : Z) :
  in_inv f -> 0 <= n < 2 ^ 63 -> in_bytesRead f + n + receiveWindow f < 2 ^ 63 ->
  let b := in_bytesRead f + n in
  let '(err, updates, f') := AddBytesRead f n in
  in_inv f' /\
  (err = None <-> b <= in_maxData f) /\
  (err <> None -> f' = f /\ updates = []) /\
  (err = None ->
     in_bytesRead f' = b /\
     (updates = [] /\ in_maxData f' = in_maxData f \/
      updates = [b + receiveWindow f] /\ in_maxData f' = b + receiveWindow f /\
      in_maxData f < in_maxData f' /\
      receiveWindow f / 4 <= receiveWindow f - (in_maxData f - b))).
Proof.
  intros Hf Hn Hov b. pose proof (AddBytesRead_inv f n Hf Hn Hov) as Hinv.
  destruct (AddBytesRead_spec f n Hf Hn Hov) as [H1 H2].
  destruct (decide (in_bytesRead f + n <= in_maxData f)) as [Hle|].
  2: { destruct H1 as [e He]; [lia|]. rewrite He in *. split_and!; try done; lia. }
  rewrite (H2 Hle) in *. destruct Hf as (? & ? & ? & ?).
  case_decide; simpl in *; split_and!; try done; intros _; split; try done; [by left|].
  right. subst b. split_and!; try done; lia.
Qed.

(** A quarter of a window of 100 bytes has been read: the limit moves to 126. *)
Lemma AddBytesRead_correct_witness :
  let f := mkIncomingFC 0 100 100 in
  in_inv f /\ AddBytesRead f 26 = (None, [126], mkIncomingFC 26 126 100) /\
  (let '(err, updates, f') := AddBytesRead f 26 in
   in_inv f' /\ (err = None <-> 26 <= in_maxData f)).
Proof.
  assert (in_inv (mkIncomingFC 0 100 100)) as Hinv by (unfold in_inv; simpl; lia).
  split; [done|]. split; [reflexivity|].
  pose proof (AddBytesRead_correct (mkIncomingFC 0 100 100) 26 Hinv) as H.
  destruct (AddBytesRead (mkIncomingFC 0 100 100) 26) as [[err upd] f'].
  destruct H as (? & ? & _); [lia|simpl; lia|]. done.
Defined.
