(* ===== verification/DataLink.v ===== *)
(** * Data flow control between two endpoints

    The sending controller of one endpoint and the receiving controller of the
    other ([flow_control.go]), with the bytes and the WT_MAX_DATA capsules that
    are in flight between them. Any number of streams shares the two
    controllers, so bytes may be read in any order and in any portions; the
    capsules arrive in the order in which they were queued, because they travel
    on the CONNECT stream. *)

From S2P Require Import Prelude Errors Quicvarint Protocol Config FlowControl.

Record dataLink := mkLink {
  link_snd : outgoingDataFlowController;
  link_rcv : incomingDataFlowController;
  inflight : Z;
  link_updates : list Z;
}.

Definition newLink (m : Z) : dataLink :=
  mkLink (newOutgoingDataFlowController m) (newIncomingDataFlowController 0 m) 0 [].

(** The 64-bit counters of the receiver have room for [n] more bytes. *)
Definition link_room (s : dataLink) (n : Z) : Prop :=
  in_bytesRead (link_rcv s) + n + receiveWindow (link_rcv s) < 2 ^ 63.

Inductive link_step : dataLink -> dataLink -> Prop :=
| link_send s n : 0 <= n < 2 ^ 63 ->
    link_step s (mkLink (AddBytesSent (link_snd s) n).2 (link_rcv s)
      (inflight s + (AddBytesSent (link_snd s) n).1) (link_updates s))
| link_blocked s :
    link_step s (mkLink (IsNewlyBlocked (link_snd s)).2 (link_rcv s)
      (inflight s) (link_updates s))
| link_read s n : 0 < n <= inflight s -> link_room s n ->
    link_step s (mkLink (link_snd s) (AddBytesRead (link_rcv s) n).2
      (inflight s - n) (link_updates s ++ (AddBytesRead (link_rcv s) n).1.2))
| link_deliver s u us : link_updates s = u :: us ->
    link_step s (mkLink (UpdateMaxData (link_snd s) u).2 (link_rcv s) (inflight s) us).

(** Sent bytes are read or in flight, and the limits in flight lead from the
    limit of the sender to the limit of the receiver. *)
Definition link_inv (m : Z) (s : dataLink) : Prop :=
  out_inv (link_snd s) /\ in_inv (link_rcv s) /\ receiveWindow (link_rcv s) = m /\
  0 <= inflight s /\ bytesSent (link_snd s) = in_bytesRead (link_rcv s) + inflight s /\
  chain (out_maxData (link_snd s)) (link_updates s) (in_maxData (link_rcv s)).

(** ** Lemmas *)

Lemma link_inv_new m : 0 <= m < 2 ^ 63 -> link_inv m (newLink m).
Proof.
  intros. unfold link_inv, newLink; simpl. split_and!; try done; try lia.
  - by apply out_inv_new.
  - by apply in_inv_new.
  - rewrite i64_id; lia.
Qed.

(** A read of bytes in flight is within the limit of the receiver. *)
Lemma link_read_le m s n : link_inv m s -> n <= inflight s ->
  in_bytesRead (link_rcv s) + n <= in_maxData (link_rcv s).
Proof.
  intros ((? & _) & _ & _ & ? & ? & Hc%chain_le) ?. lia.
Qed.

Lemma link_inv_step m s s' : link_inv m s -> link_step s s' -> link_inv m s'.
Proof.
  intros Hinv Hstep. pose proof Hinv as (Ho & Hi & Hw & Hf & Hb & Hc).
  destruct Hstep as [s n Hn|s|s n Hn Hov|s u us Hu]; unfold link_inv; cbn.
  - pose proof (AddBytesSent_inv _ n Ho (proj1 Hn)) as Ho'.
    rewrite AddBytesSent_spec in * by (done || lia). cbn in *.
    destruct Ho as (? & _). split_and!; try done; lia.
  - pose proof (IsNewlyBlocked_inv _ Ho) as Ho'. unfold IsNewlyBlocked in *.
    case_decide; simpl in *; split_and!; done.
  - pose proof (link_read_le m s n Hinv) as Hle. specialize (Hle ltac:(lia)).
    destruct Hi as (Hi1 & Hi2 & Hi3 & Hi4).
    assert (in_inv (link_rcv s)) as Hi by done.
    pose proof (AddBytesRead_inv _ n Hi) as Hi'.
    destruct (AddBytesRead_spec _ n Hi) as [_ Hspec]; [lia|done|].
    rewrite (Hspec Hle) in *. unfold link_room in Hov.
    case_decide; simpl in *; split_and!; try done; try lia; try (apply Hi'; lia).
    + by rewrite app_nil_r.
    + eapply chain_snoc; [done|]. lia.
  - rewrite Hu in Hc. destruct Hc as [Hlt Hc]. destruct Hi as (Hi1 & Hi2 & Hi3 & Hi4).
    pose proof (chain_le _ _ _ Hc).
    pose proof (UpdateMaxData_inv _ u Ho) as Ho'.
    destruct Ho as ((? & ?) & ? & ?).
    rewrite UpdateMaxData_increase in * by done. simpl in *.
    split_and!; try done; try lia. apply Ho'; lia.
Qed.

Lemma link_inv_reachable m s : 0 <= m < 2 ^ 63 -> rtc link_step (newLink m) s -> link_inv m s.
Proof.
  intros Hm H. apply link_inv_new in Hm. revert Hm.
  induction H; eauto using link_inv_step.
Qed.

(** Neither endpoint refuses what the other has sent. *)
Definition accepts (s : dataLink) : Prop :=
  (forall n, 0 < n <= inflight s -> link_room s n -> (AddBytesRead (link_rcv s) n).1.1 = None) /\
  (forall u us, link_updates s = u :: us -> (UpdateMaxData (link_snd s) u).1 = None).

Lemma link_inv_accepts m s : link_inv m s -> accepts s.
Proof.
  intros Hr. pose proof Hr as (Ho & Hi & Hw & Hf & Hb & Hc). split.
  - intros n Hn Hov. unfold link_room in Hov. pose proof Hi as (? & ? & ? & ?).
    destruct (AddBytesRead_spec _ n Hi) as [_ Hspec]; [lia|done|].
    rewrite Hspec by (eapply link_read_le; [done|lia]). by case_decide.
  - intros u us Hu. rewrite Hu in Hc. destruct Hc as [Hlt _].
    by rewrite UpdateMaxData_increase.
Qed.

(** ** Theorems *)

(** C5: two endpoints that start with the same limit [m] never violate each
    other's data flow control, in any interleaving of sending, reading and
    capsule delivery. In every reachable state: reading any bytes in flight is
    accepted; the next WT_MAX_DATA capsule is accepted by the sender; the sender
    never believes in a larger limit than the receiver enforces; and when
    everything in flight has been read and delivered the sender has credit
    again (more than three quarters of the window), so the session cannot
    deadlock. *)
Theorem data_flow_control_safe (m : Z) (s : dataLink) :
  0 <= m < 2 ^ 63 -> rtc link_step (newLink m) s ->
  (forall n, 0 < n <= inflight s -> link_room s n ->
     (AddBytesRead (link_rcv s) n).1.1 = None) /\
  (forall u us, link_updates s = u :: us -> (UpdateMaxData (link_snd s) u).1 = None) /\
  out_maxData (link_snd s) <= in_maxData (link_rcv s) /\
  (0 < m -> inflight s = 0 -> link_updates s = [] ->
     m - m / 4 <= out_maxData (link_snd s) - bytesSent (link_snd s) /\
     bytesSent (link_snd s) < out_maxData (link_snd s)).
Proof.
  intros Hm Hr%link_inv_reachable; [|done].
  apply and_assoc. split; [by eapply link_inv_accepts|].
  destruct Hr as (Ho & Hi & Hw & Hf & Hb & Hc). split.
  - by eapply chain_le.
  - intros Hpos Hfl Hus. rewrite Hus in Hc; simpl in Hc.
    destruct Hi as (? & ? & ? & ?). lia.
Qed.

(** A window of 8 bytes: 8 bytes are sent, 5 read, and the new limit 13 is in
    flight with the 3 remaining bytes. *)
Lemma data_flow_control_safe_witness :
  let s := mkLink (mkOutgoingFC 8 8 (-1) 0 ∅) (mkIncomingFC 5 13 8) 3 [13] in
  rtc link_step (newLink 8) s /\
  (AddBytesRead (link_rcv s) 3).1.1 = None /\ (UpdateMaxData (link_snd s) 13).1 = None.
Proof.
  set (s := mkLink _ _ _ _). intros s'. subst s'.
  assert (rtc link_step (newLink 8) s) as Hr.
  { eapply rtc_l; [exact (link_send (newLink 8) 8 ltac:(lia))|].
    eapply rtc_l; [refine (link_read _ 5 _ _)|]; [vm_compute; split; congruence| |].
    - unfold link_room. vm_compute. reflexivity.
    - apply rtc_refl. }
  destruct (data_flow_control_safe 8 s) as (H1 & H2 & _); [lia|done|].
  split_and!; [done| |by eapply H2].
  apply H1; [simpl; lia|unfold link_room; simpl; lia].
Defined.
