(* ===== verification/Utf8.v ===== *)
(** * UTF-8 as Go's [unicode/utf8] defines it

    The parts of the standard library that [truncateUTF8] ([capsule.go]) and
    [equalASCIIFold] ([server.go]) use: [RuneStart], [DecodeRuneInString] with
    its accepted byte ranges, and validity. *)

From S2P Require Import Prelude.

Definition RuneError : Z := 0xFFFD.

(** [utf8.RuneStart] *)
Definition RuneStart (b : byte) : bool :=
  negb (bool_decide (Z.land (byte_val b) 0xC0 = 0x80)).

Definition between (lo hi : Z) (b : byte) : bool :=
  bool_decide (lo <= byte_val b <= hi).

(** A continuation byte. *)
Definition cont (b : byte) : bool := between 0x80 0xBF b.

(** The low six bits of a continuation byte. *)
Definition low6 (b : byte) : Z := byte_val b mod 64.

(** The range of the second byte that a leading byte of a 3- or 4-byte
    sequence accepts: no overlong forms, no surrogates, nothing above
    U+10FFFF. *)
Definition second3 (b0 b1 : byte) : bool :=
  if decide (byte_val b0 = 0xE0) then between 0xA0 0xBF b1
  else if decide (byte_val b0 = 0xED) then between 0x80 0x9F b1
  else cont b1.

Definition second4 (b0 b1 : byte) : bool :=
  if decide (byte_val b0 = 0xF0) then between 0x90 0xBF b1
  else if decide (byte_val b0 = 0xF4) then between 0x80 0x8F b1
  else cont b1.

(** [utf8.DecodeRuneInString]: the first rune and its width; an invalid
    encoding is [(RuneError, 1)], the empty string [(RuneError, 0)]. *)
Definition DecodeRune (s : gostring) : Z * nat :=
  match s with
  | [] => (RuneError, 0%nat)
  | b0 :: s1 =>
      if between 0x00 0x7F b0 then (byte_val b0, 1%nat)
      else if between 0xC2 0xDF b0 then
        match s1 with
        | b1 :: _ => if cont b1 then (byte_val b0 mod 32 * 64 + low6 b1, 2%nat)
                     else (RuneError, 1%nat)
        | _ => (RuneError, 1%nat)
        end
      else if between 0xE0 0xEF b0 then
        match s1 with
        | b1 :: b2 :: _ =>
            if second3 b0 b1 && cont b2
            then ((byte_val b0 mod 16 * 64 + low6 b1) * 64 + low6 b2, 3%nat)
            else (RuneError, 1%nat)
        | _ => (RuneError, 1%nat)
        end
      else if between 0xF0 0xF4 b0 then
        match s1 with
        | b1 :: b2 :: b3 :: _ =>
            if second4 b0 b1 && cont b2 && cont b3
            then (((byte_val b0 mod 8 * 64 + low6 b1) * 64 + low6 b2) * 64 + low6 b3, 4%nat)
            else (RuneError, 1%nat)
        | _ => (RuneError, 1%nat)
        end
      else (RuneError, 1%nat)
  end.

(** [c] is the encoding of exactly one rune. *)
Definition is_char (c : gostring) : bool :=
  let '(r, n) := DecodeRune c in
  bool_decide (n = length c) && bool_decide (n <> 0%nat) &&
  negb (bool_decide (r = RuneError /\ n = 1%nat)).

(** Valid strings ([utf8.ValidString]): sequences of encoded runes. *)
Inductive Valid : gostring -> Prop :=
| Valid_nil : Valid []
| Valid_char c s : is_char c = true -> Valid s -> Valid (c ++ s).

(** ** Lemmas *)

(** Case analysis on the byte tests of a hypothesis or goal. *)
Ltac utf8_cases :=
  repeat match goal with
  | H : context [if ?b then _ else _] |- _ => destruct b eqn:?; simplify_eq/=
  | H : context [match ?l with [] => _ | _ => _ end] |- _ => destruct l; simplify_eq/=
  | H : andb _ _ = true |- _ => apply andb_true_iff in H as [? ?]
  end.

Lemma RuneStart_spec b : RuneStart b = negb (cont b).
Proof. by destruct b. Qed.

Lemma between_cont lo hi b : 0x80 <= lo -> hi <= 0xBF -> between lo hi b = true -> cont b = true.
Proof.
  unfold cont, between. rewrite !bool_decide_eq_true. lia.
Qed.

Lemma second3_cont b0 b1 : second3 b0 b1 = true -> cont b1 = true.
Proof.
  unfold second3. repeat case_decide; [| |done]; apply between_cont; lia.
Qed.

Lemma second4_cont b0 b1 : second4 b0 b1 = true -> cont b1 = true.
Proof.
  unfold second4. repeat case_decide; [| |done]; apply between_cont; lia.
Qed.

Lemma lead_not_cont lo hi b : hi < 0x80 \/ 0xC0 <= lo -> between lo hi b = true -> cont b = false.
Proof.
  unfold cont, between. rewrite bool_decide_eq_true, bool_decide_eq_false. lia.
Qed.

(** An encoded rune is a leading byte and at most three continuation bytes. *)
Lemma is_char_shape c : is_char c = true ->
  exists b bs, c = b :: bs /\ cont b = false /\ forallb cont bs = true /\ (length bs <= 3)%nat.
Proof.
  unfold is_char. destruct (DecodeRune c) as [r n] eqn:Hd. intros H.
  apply andb_true_iff in H as [H Hne]. apply andb_true_iff in H as [Hn Hpos].
  apply bool_decide_eq_true in Hn, Hpos. apply negb_true_iff, bool_decide_eq_false in Hne.
  destruct c as [|b bs]; [by simplify_eq/=|]. exists b, bs. unfold DecodeRune in Hd.
  utf8_cases; try (exfalso; apply Hne; split; congruence);
    repeat match goal with H : S _ = S _ |- _ => injection H as H end;
    repeat match goal with H : _ = length ?l |- _ => destruct l; simplify_eq/= end;
    (split; [done|]; split; [|simpl; split; [|repeat constructor]]).
  all: repeat (apply andb_true_iff; split); try done; eauto using second3_cont, second4_cont.
  all: eapply lead_not_cont; [|done]; clear; lia.
Qed.
