(* ===== verification/GoStrings.v ===== *)
(** * Strings and paths as Go's standard library defines them

    The functions of [strings], [bytes] and [path/filepath] (for Unix) that the
    interoperability endpoints use, with their laws: splitting and joining,
    trimming of white space, and paths whose components are plain names. *)

From S2P Require Import Prelude Utf8.

#[export] Program Instance byte_countable : Countable byte :=
  inj_countable Byte.to_N Byte.of_N _.
Next Obligation. intros b. apply Byte.of_to_N. Qed.

(** ** Prefixes, splitting and joining *)

Definition HasPrefix (s prefix : gostring) : bool := bool_decide (take (length prefix) s = prefix).

Definition TrimPrefix (s prefix : gostring) : gostring :=
  if HasPrefix s prefix then drop (length prefix) s else s.

(** [strings.Split] for a separator of one byte. *)
Fixpoint Split (s : gostring) (sep : byte) : list gostring :=
  match s with
  | [] => [[]]
  | b :: s =>
      if decide (b = sep) then [] :: Split s sep
      else match Split s sep with
           | c :: cs => (b :: c) :: cs
           | [] => [[b]]
           end
  end.

Fixpoint joinWith (l : list gostring) (sep : gostring) : gostring :=
  match l with
  | [] => []
  | [s] => s
  | s :: l => s ++ sep ++ joinWith l sep
  end.

(** [Cut] for a separator of one byte. *)
Fixpoint Cut (s : gostring) (sep : byte) : gostring * gostring * bool :=
  match s with
  | [] => ([], [], false)
  | b :: t =>
      if decide (b = sep) then ([], t, true)
      else let '(before, after, found) := Cut t sep in (b :: before, after, found)
  end.

(** [strings.Count] for a separator of one byte. *)
Definition countByte (s : gostring) (sep : byte) : nat := length (filter (fun b => b = sep) s).

(** [strings.ReplaceAll] for a string that is not empty; one unit of fuel for each
    byte. *)
Fixpoint replaceAll (fuel : nat) (s old new : gostring) : gostring :=
  match fuel, s with
  | S fuel, b :: t =>
      if HasPrefix s old then new ++ replaceAll fuel (drop (length old) s) old new
      else b :: replaceAll fuel t old new
  | _, _ => s
  end.

Definition ReplaceAll (s old new : gostring) : gostring := replaceAll (length s) s old new.

(** ** White space *)

(** [unicode.IsSpace] *)
Definition IsSpace (r : Z) : bool :=
  bool_decide (9 <= r <= 13 \/ r = 0x20 \/ r = 0x85 \/ r = 0xA0 \/ r = 0x1680 \/ 0x2000 <= r <= 0x200a \/
    r = 0x2028 \/ r = 0x2029 \/ r = 0x202f \/ r = 0x205f \/ r = 0x3000).

(** [utf8.DecodeLastRune]. The last rune begins at the last byte but at most
    three that is not a continuation byte. *)
Definition DecodeLastRune (s : gostring) : Z * nat :=
  match reverse s with
  | [] => (RuneError, 0%nat)
  | b :: before =>
      if between 0x00 0x7F b then (byte_val b, 1%nat)
      else
        match list_find (fun b => RuneStart b = true) (take 3 before) with
        | None => (RuneError, 1%nat)
        | Some (i, _) =>
            let '(r, size) := DecodeRune (drop (length s - (i + 2)) s) in
            if decide (size = i + 2)%nat then (r, size) else (RuneError, 1%nat)
        end
  end.

(** One unit of fuel for each rune. *)
Fixpoint trimLeft (fuel : nat) (s : gostring) : gostring :=
  match fuel, s with
  | S fuel, _ :: _ =>
      let '(r, size) := DecodeRune s in
      if IsSpace r then trimLeft fuel (drop size s) else s
  | _, _ => s
  end.

Fixpoint trimRight (fuel : nat) (s : gostring) : gostring :=
  match fuel, s with
  | S fuel, _ :: _ =>
      let '(r, size) := DecodeLastRune s in
      if IsSpace r then trimRight fuel (take (length s - size) s) else s
  | _, _ => s
  end.

(** [strings.TrimSpace], [bytes.TrimSpace] *)
Definition TrimSpace (s : gostring) : gostring :=
  let s := trimLeft (length s) s in trimRight (length s) s.

(** [strings.FieldsSeq]; [field] is the field that has begun. *)
Fixpoint fields (fuel : nat) (field s : gostring) : list gostring :=
  let flush := match field with [] => [] | _ => [field] end in
  match fuel, s with
  | S fuel, _ :: _ =>
      let '(r, size) := DecodeRune s in
      if IsSpace r then flush ++ fields fuel [] (drop size s)
      else fields fuel (field ++ take size s) (drop size s)
  | _, _ => flush
  end.

Definition Fields (s : gostring) : list gostring := fields (length s) [] s.

(** ** Paths *)

Definition slash : byte := "/"%byte.
Definition dot : gostring := str ".".
Definition dotdot : gostring := str "..".

(** The elements of a path that [filepath.Clean] keeps, the last one first. *)
Definition cleanElem (rooted : bool) (kept : list gostring) (c : gostring) : list gostring :=
  if decide (c = [] \/ c = dot) then kept
  else if decide (c = dotdot) then
    match kept with
    | k :: kept' => if decide (k = dotdot) then dotdot :: kept else kept'
    | [] => if rooted then [] else [dotdot]
    end
  else c :: kept.

Definition cleanElems (rooted : bool) (path : gostring) : list gostring :=
  reverse (foldl (cleanElem rooted) [] (Split path slash)).

Definition Clean (path : gostring) : gostring :=
  match path with
  | [] => dot
  | b :: _ =>
      if decide (b = slash) then slash :: joinWith (cleanElems true path) [slash]
      else match cleanElems false path with
           | [] => dot
           | l => joinWith l [slash]
           end
  end.

(** [filepath.Join] *)
Fixpoint Join (elem : list gostring) : gostring :=
  match elem with
  | [] => []
  | [] :: elem => Join elem
  | _ => Clean (joinWith elem [slash])
  end.

(** [filepath.Base]: the last element, without the separators at the end. *)
Definition Base (path : gostring) : gostring :=
  match path with
  | [] => dot
  | _ => default [slash] (last (filter (fun c => c <> []) (Split path slash)))
  end.

(** [filepath.Dir]: everything up to the last separator. *)
Definition Dir (path : gostring) : gostring :=
  Clean (joinWith (removelast (Split path slash) ++ [[]]) [slash]).

(** ** Lemmas on splitting and joining *)

Lemma HasPrefix_app p s : HasPrefix (p ++ s) p = true.
Proof. unfold HasPrefix. apply bool_decide_eq_true. by rewrite take_app_length. Qed.

Lemma TrimPrefix_app p s : TrimPrefix (p ++ s) p = s.
Proof. unfold TrimPrefix. by rewrite HasPrefix_app, drop_app_length. Qed.

Lemma HasPrefix_head b t c old : b <> c -> HasPrefix (b :: t) (c :: old) = false.
Proof. intros Hb. apply bool_decide_eq_false. simpl. by intros [= ?]. Qed.

(** Where the first byte of [old] does not occur, nothing is replaced. *)
Lemma replaceAll_none fuel s c old new : c ∉ s -> replaceAll fuel s (c :: old) new = s.
Proof.
  revert s. induction fuel as [|fuel IH]; intros [|b t] Hc; try done.
  apply not_elem_of_cons in Hc as [Hb Ht]. cbn [replaceAll]. rewrite HasPrefix_head by done. by rewrite IH.
Qed.

Lemma ReplaceAll_first c old new s : c ∉ s -> ReplaceAll ((c :: old) ++ s) (c :: old) new = new ++ s.
Proof.
  intros Hs. unfold ReplaceAll. rewrite length_app. cbn [length Nat.add app replaceAll].
  assert (HasPrefix (c :: old ++ s) (c :: old) = true) as -> by apply (HasPrefix_app (c :: old)).
  assert (drop (S (length old)) (c :: old ++ s) = s) as -> by apply (drop_app_length (c :: old)).
  by rewrite replaceAll_none.
Qed.

Lemma ReplaceAll_last c new s : c ∉ s -> ReplaceAll (s ++ [c]) [c] new = s ++ new.
Proof.
  unfold ReplaceAll. induction s as [|b s IH]; intros Hs.
  - cbn [app length replaceAll]. assert (HasPrefix [c] [c] = true) as -> by apply (HasPrefix_app [c] []).
    cbn. by rewrite app_nil_r.
  - apply not_elem_of_cons in Hs as [Hb Hs]. cbn [app length replaceAll]. rewrite HasPrefix_head by done. by rewrite IH.
Qed.

Lemma Split_ne s sep : Split s sep <> [].
Proof. destruct s as [|b s]; simpl; [done|]. case_decide; [done|]. by destruct (Split s sep). Qed.

Lemma Split_cons b s sep c cs : b <> sep -> Split s sep = c :: cs -> Split (b :: s) sep = (b :: c) :: cs.
Proof. intros Hb E. simpl. by rewrite decide_False, E. Qed.

Lemma Split_sep s1 sep s2 : Split (s1 ++ sep :: s2) sep = Split s1 sep ++ Split s2 sep.
Proof.
  induction s1 as [|b s1 IH]; simpl; [by rewrite decide_True|]. rewrite IH. case_decide; [done|].
  pose proof (Split_ne s1 sep). by destruct (Split s1 sep).
Qed.

Lemma Split_first s sep : Split (sep :: s) sep = [] :: Split s sep.
Proof. apply (Split_sep [] sep s). Qed.

Lemma Split_none s sep : sep ∉ s -> Split s sep = [s].
Proof.
  induction s as [|b s IH]; [done|]. rewrite not_elem_of_cons. intros [Hb Hs]. by apply Split_cons; auto.
Qed.

Lemma Split_joinWith l sep : l <> [] -> Forall (fun c => sep ∉ c) l -> Split (joinWith l [sep]) sep = l.
Proof.
  intros Hl H. induction H as [|c l Hc H IH]; [done|]. destruct l as [|c' l]; [by apply Split_none|].
  change (joinWith (c :: c' :: l) [sep]) with (c ++ sep :: joinWith (c' :: l) [sep]).
  rewrite Split_sep, Split_none, IH; done.
Qed.

Lemma joinWith_cons c l sep : l <> [] -> joinWith (c :: l) sep = c ++ sep ++ joinWith l sep.
Proof. by destruct l. Qed.

Lemma joinWith_Split s sep : joinWith (Split s sep) [sep] = s.
Proof.
  induction s as [|b s IH]; [done|]. simpl. pose proof (Split_ne s sep) as Hne. case_decide; subst.
  - by rewrite joinWith_cons, IH.
  - destruct (Split s sep) as [|c cs]; [done|]. rewrite <- IH. by destruct cs.
Qed.

Lemma Split_elem c s sep : c ∈ Split s sep -> sep ∉ c.
Proof.
  revert c. induction s as [|b s IH]; intros c; [intros ->%list_elem_of_singleton; apply not_elem_of_nil|].
  simpl. case_decide as Hb.
  - intros [->|?]%elem_of_cons; [apply not_elem_of_nil|auto].
  - pose proof (Split_ne s sep). destruct (Split s sep) as [|c0 cs]; [done|].
    intros [->|?]%elem_of_cons; [|apply IH; by right]. rewrite not_elem_of_cons. split; [congruence|]. apply IH. by left.
Qed.

Lemma Cut_sep s1 sep s2 : sep ∉ s1 -> Cut (s1 ++ sep :: s2) sep = (s1, s2, true).
Proof.
  induction s1 as [|b s1 IH]; simpl; [intros _; by rewrite decide_True|]. rewrite not_elem_of_cons. intros [Hb Hs].
  rewrite decide_False, IH; done.
Qed.

Lemma Cut_none s sep : sep ∉ s -> Cut s sep = (s, [], false).
Proof.
  induction s as [|b s IH]; [done|]. rewrite not_elem_of_cons. intros [Hb Hs]. simpl. rewrite decide_False, IH; done.
Qed.

Lemma Cut_spec s sep before after found : Cut s sep = (before, after, found) ->
  (sep ∉ before) /\ if found then s = before ++ sep :: after else before = s /\ after = [].
Proof.
  revert before after found. induction s as [|b s IH]; simpl; intros before after found.
  - intros [= <- <- <-]. split; [apply not_elem_of_nil|done].
  - case_decide as Hb.
    + intros [= <- <- <-]. subst. split; [apply not_elem_of_nil|done].
    + destruct (Cut s sep) as [[bf af] fd]. intros [= <- <- <-]. destruct (IH _ _ _ eq_refl) as [H1 H2].
      split; [rewrite not_elem_of_cons; split; congruence|]. destruct fd; [by rewrite H2|]. by destruct H2 as [-> ->].
Qed.

(** ** Lemmas on white space *)

(** The visible characters of ASCII. *)
Definition visible (b : byte) : Prop := 0x20 < byte_val b < 0x7f.

#[export] Instance visible_dec b : Decision (visible b).
Proof. unfold visible. apply _. Defined.

Lemma visible_rune b t : visible b -> DecodeRune (b :: t) = (byte_val b, 1%nat) /\ IsSpace (byte_val b) = false.
Proof.
  unfold visible. intros Hb. split.
  - unfold DecodeRune. assert (between 0x00 0x7F b = true) as ->; [|done]. unfold between. apply bool_decide_eq_true. lia.
  - apply bool_decide_eq_false. lia.
Qed.

Lemma TrimSpace_visible s : Forall visible s -> TrimSpace s = s.
Proof.
  intros Hs. unfold TrimSpace. assert (trimLeft (length s) s = s) as ->.
  { destruct s as [|b t]; [done|]. apply Forall_cons in Hs as [Hb _]. cbn [length trimLeft].
    destruct (visible_rune b t Hb) as [-> E]. by rewrite E. }
  destruct s as [|b s _] using rev_ind; [done|]. apply Forall_app in Hs as [_ [Hb _]%Forall_cons].
  assert (forall n l, trimRight (S n) (l ++ [b]) =
    let '(r, size) := DecodeLastRune (l ++ [b]) in
    if IsSpace r then trimRight n (take (length (l ++ [b]) - size) (l ++ [b])) else l ++ [b]) as E by (by intros n []).
  rewrite length_app, Nat.add_comm. simpl Nat.add. rewrite E. unfold DecodeLastRune. rewrite reverse_snoc.
  assert (between 0x00 0x7F b = true) as -> by (unfold between, visible in *; apply bool_decide_eq_true; lia).
  by rewrite (proj2 (visible_rune b [] Hb)).
Qed.

(** ** Paths whose elements are plain names *)

Definition plainName (c : gostring) : Prop := c <> [] /\ (slash ∉ c) /\ c <> dot /\ c <> dotdot.

#[export] Instance plainName_dec c : Decision (plainName c).
Proof. unfold plainName. apply _. Defined.

Abbreviation joinPath l := (joinWith l [slash]).

Lemma cleanElem_name rooted kept c : plainName c -> cleanElem rooted kept c = c :: kept.
Proof. intros (H1 & _ & H3 & H4). unfold cleanElem. rewrite !decide_False; tauto. Qed.

Lemma cleanElem_skip rooted kept c : c = [] \/ c = dot -> cleanElem rooted kept c = kept.
Proof. intros H. unfold cleanElem. by rewrite decide_True. Qed.

Lemma cleanElem_up rooted kept c : plainName c -> cleanElem rooted (c :: kept) dotdot = kept.
Proof. intros (_ & _ & _ & H). unfold cleanElem. rewrite decide_False, decide_True, decide_False; [done|done|done|naive_solver]. Qed.

Lemma cleanElem_names rooted kept l : Forall plainName l -> foldl (cleanElem rooted) kept l = reverse l ++ kept.
Proof.
  intros H. revert kept. induction H as [|c l Hc _ IH]; intros kept; [done|]. simpl.
  by rewrite cleanElem_name, IH, reverse_cons, <- (assoc_L (++)).
Qed.

Lemma plainName_noslash l : Forall plainName l -> Forall (fun c => slash ∉ c) l.
Proof. intros H. eapply Forall_impl; [exact H|]. by intros c (_ & ? & _). Qed.

Lemma Split_joinPath l : l <> [] -> Forall plainName l -> Split (joinPath l) slash = l.
Proof. intros Hl H. apply Split_joinWith; [done|]. by apply plainName_noslash. Qed.

Lemma joinPath_first l : l <> [] -> Forall plainName l -> exists b t, joinPath l = b :: t /\ b <> slash.
Proof.
  intros Hl H. destruct H as [|c l Hc _]; [done|]. destruct Hc as (Hne & Hs & _).
  destruct c as [|b t]; [done|]. apply not_elem_of_cons in Hs as [Hb _]. exists b. destruct l; eexists; split; try done.
Qed.

Lemma Clean_rooted path l : foldl (cleanElem true) [] (Split path slash) = reverse l ->
  Clean (slash :: path) = slash :: joinPath l.
Proof.
  intros H. unfold Clean, cleanElems. rewrite decide_True by done.
  rewrite Split_first. simpl foldl. rewrite cleanElem_skip by auto. by rewrite H, reverse_involutive.
Qed.

Lemma Clean_relative b t l : b <> slash -> foldl (cleanElem false) [] (Split (b :: t) slash) = reverse l ->
  Clean (b :: t) = match l with [] => dot | _ => joinPath l end.
Proof.
  intros Hb H. unfold Clean, cleanElems. rewrite decide_False by done. rewrite H, reverse_involutive. by destruct l.
Qed.

(** [Join] of two paths, the first of them made of plain names. *)
Lemma Join_relative l1 s l : l1 <> [] -> Forall plainName l1 ->
  foldl (cleanElem false) (reverse l1) (Split s slash) = reverse l ->
  Join [joinPath l1; s] = match l with [] => dot | _ => joinPath l end.
Proof.
  intros Hl H E. destruct (joinPath_first l1 Hl H) as (b & t & Eb & Hb).
  assert (Join [joinPath l1; s] = Clean (b :: (t ++ slash :: s))) as ->.
  { rewrite Eb. done. }
  apply Clean_relative; [done|]. change (b :: t ++ slash :: s) with ((b :: t) ++ slash :: s).
  rewrite Split_sep, <- Eb, Split_joinPath, foldl_app, (cleanElem_names false [] l1), app_nil_r; done.
Qed.

Lemma Join_rooted c s l : plainName c -> foldl (cleanElem true) [c] (Split s slash) = reverse l ->
  Join [slash :: c; s] = slash :: joinPath l.
Proof.
  intros Hc E. assert (Join [slash :: c; s] = Clean (slash :: (c ++ slash :: s))) as -> by done.
  apply Clean_rooted. rewrite Split_sep, foldl_app, Split_none by apply Hc.
  simpl foldl. by rewrite cleanElem_name.
Qed.

Lemma Join_names l1 l2 : l1 <> [] -> l2 <> [] -> Forall plainName l1 -> Forall plainName l2 ->
  Join [joinPath l1; joinPath l2] = joinPath (l1 ++ l2).
Proof.
  intros Hl1 Hl2 H1 H2. rewrite (Join_relative l1 _ (l1 ++ l2)); [|done..|].
  - by destruct l1.
  - by rewrite Split_joinPath, cleanElem_names, reverse_app.
Qed.

Lemma Join_root_names c l : plainName c -> l <> [] -> Forall plainName l ->
  Join [slash :: c; joinPath l] = slash :: joinPath (c :: l).
Proof.
  intros Hc Hl H. apply Join_rooted; [done|]. by rewrite Split_joinPath, cleanElem_names, reverse_cons.
Qed.

(** What [Base] can return: a plain name, or one of three others. *)
Lemma Base_cases path : plainName (Base path) \/ Base path = dot \/ Base path = [slash] \/ Base path = dotdot.
Proof.
  unfold Base. destruct path as [|b t]; [auto|].
  destruct (last (filter (fun c => c <> []) (Split (b :: t) slash))) as [c|] eqn:E; [|by auto]. simpl.
  apply last_Some_elem_of, list_elem_of_filter in E as [Hne Hin]. apply Split_elem in Hin.
  destruct (decide (c = dot)); [auto|]. destruct (decide (c = dotdot)); [auto|]. by left.
Qed.

Lemma filter_true {A} (P : A -> Prop) `{forall x, Decision (P x)} l : Forall P l -> filter P l = l.
Proof. induction 1 as [|x l Hx _ IH]; [done|]. by rewrite filter_cons_True, IH. Qed.

Lemma Base_names l : l <> [] -> Forall plainName l -> Some (Base (joinPath l)) = last l.
Proof.
  intros Hl H. destruct (joinPath_first l Hl H) as (b & t & Eb & _).
  unfold Base. rewrite Eb. rewrite <- Eb, Split_joinPath by done.
  rewrite filter_true by (eapply Forall_impl; [exact H|]; by intros c (? & _)).
  destruct (last l) eqn:E; [done|]. by apply last_None in E.
Qed.

Lemma Dir_names l c : Forall plainName l -> plainName c ->
  Dir (slash :: joinPath (l ++ [c])) = slash :: joinPath l.
Proof.
  intros H Hc. unfold Dir.
  rewrite Split_first, Split_joinPath; [|by destruct l|apply Forall_app; auto].
  rewrite app_comm_cons, removelast_last.
  assert (joinWith (([] :: l) ++ [[]]) [slash] = slash :: joinPath (l ++ [[]])) as ->.
  { rewrite <- app_comm_cons, joinWith_cons by (by destruct l). done. }
  apply Clean_rooted. rewrite Split_joinWith, foldl_app, (cleanElem_names true [] l), app_nil_r; [|done|by destruct l|].
  - simpl. by rewrite cleanElem_skip by auto.
  - apply Forall_app. split; [by apply plainName_noslash|]. apply Forall_singleton, not_elem_of_nil.
Qed.
