(* ===== verification/Capsule.v ===== *)
(** * Capsules ([capsule.go])

    The capsules that a session reads from and writes to its CONNECT stream.
    [http3.CapsuleParser] and the [http3.CapsuleReader] that it returns are not
    part of the repository: they are the class [CapsuleParser], whose state [P]
    is the parser together with the capsule it is positioned in. [io.ReadFull],
    [io.LimitReader] and [io.ReadAll] are the loops of the standard library over
    the reader's [Read] method. *)

From S2P Require Import Prelude Errors Quicvarint Protocol Utf8.

(** ** The interfaces *)

Class CapsuleParser (P : Type) := {
  (** [parser.Next()]: the type of the next capsule; the new state is
      positioned at the start of its value *)
  Next : P -> result error Z * P;
  (** the methods of the returned [http3.CapsuleReader] *)
  CapsuleReader_ReadByte : byteReader P;
  (** [Read(p)] with [len(p)] the argument: the bytes read, and the error *)
  CapsuleReader_Read : nat -> P -> gostring * option error * P;
  Remaining : P -> Z;
  Discard : P -> option error * P;
}.

(** The free capacity of the buffer of [io.ReadAll] once it holds [n] bytes:
    the growth of a slice is up to the runtime. *)
Class GoRuntime := {
  readAllRoom : nat -> nat;
  readAllRoom_pos n : (0 < readAllRoom n)%nat;
}.

(** ** Data *)

Definition closeSessionCapsuleType : Z := 0x2843.
Definition maxDataCapsuleType : Z := 0x190b4d3d.
Definition maxStreamDataCapsuleType : Z := 0x190b4d3e.
Definition maxStreamsBidiCapsuleType : Z := 0x190b4d3f.
Definition maxStreamsUniCapsuleType : Z := 0x190b4d40.
Definition dataBlockedCapsuleType : Z := 0x190b4d41.
Definition streamDataBlockedCapsuleType : Z := 0x190b4d42.
Definition streamsBlockedBidiCapsuleType : Z := 0x190b4d43.
Definition streamsBlockedUniCapsuleType : Z := 0x190b4d44.

Definition maxCloseCapsuleErrorMsgLen : nat := 1024.

(** The structs that implement the interface [capsule]. *)
Inductive capsule : Type :=
| closeSessionCapsule (ErrorCode : Z) (Message : gostring)
| maxDataCapsule (MaximumData : Z)
| maxStreamsBidiCapsule (MaximumStreams : Z)
| maxStreamsUniCapsule (MaximumStreams : Z)
| dataBlockedCapsule (MaximumData : Z)
| streamsBlockedBidiCapsule (MaximumStreams : Z)
| streamsBlockedUniCapsule (MaximumStreams : Z).

#[export] Instance capsule_eq_dec : EqDecision capsule.
Proof. solve_decision. Defined.

(** ** Truncation of messages *)

(** The loop of [truncateUTF8]: [s[n]] is in range there. *)
Fixpoint truncateLoop (s : gostring) (n : nat) : nat :=
  match n with
  | O => O
  | S n' =>
      match s !! n with
      | Some b => if RuneStart b then n else truncateLoop s n'
      | None => n
      end
  end.

Definition truncateUTF8 (s : gostring) (n : nat) : gostring :=
  if decide (length s <= n)%nat then s else take (truncateLoop s n) s.

(** ** Writing *)

Section append.
Context `{!Quicvarint}.

Definition closeSessionCapsule_Append (ErrorCode : Z) (Message : gostring) (b : gostring) : gostring :=
  let msg := Message in
  let msg := if decide (maxCloseCapsuleErrorMsgLen < length msg)%nat
             then truncateUTF8 msg maxCloseCapsuleErrorMsgLen else msg in
  let b := Append b closeSessionCapsuleType in
  let b := Append b (4 + Z.of_nat (length msg)) in
  (* four zero bytes, overwritten with the big-endian error code *)
  let b := b ++ be_bytes 4 (u32 ErrorCode) in
  b ++ msg.

Definition maxDataCapsule_Append (MaximumData : Z) (b : gostring) : gostring :=
  let b := Append b maxDataCapsuleType in
  let b := Append b (Len MaximumData) in
  Append b MaximumData.

Definition maxStreamsBidiCapsule_Append (MaximumStreams : Z) (b : gostring) : gostring :=
  let b := Append b maxStreamsBidiCapsuleType in
  let b := Append b (Len MaximumStreams) in
  Append b MaximumStreams.

Definition maxStreamsUniCapsule_Append (MaximumStreams : Z) (b : gostring) : gostring :=
  let b := Append b maxStreamsUniCapsuleType in
  let b := Append b (Len MaximumStreams) in
  Append b MaximumStreams.

Definition dataBlockedCapsule_Append (MaximumData : Z) (b : gostring) : gostring :=
  let b := Append b dataBlockedCapsuleType in
  let b := Append b (Len MaximumData) in
  Append b MaximumData.

Definition streamsBlockedBidiCapsule_Append (MaximumStreams : Z) (b : gostring) : gostring :=
  let b := Append b streamsBlockedBidiCapsuleType in
  let b := Append b (Len MaximumStreams) in
  Append b MaximumStreams.

Definition streamsBlockedUniCapsule_Append (MaximumStreams : Z) (b : gostring) : gostring :=
  let b := Append b streamsBlockedUniCapsuleType in
  let b := Append b (Len MaximumStreams) in
  Append b MaximumStreams.

(** The method [Append] of the interface [capsule]. *)
Definition capsule_Append (c : capsule) (b : gostring) : gostring :=
  match c with
  | closeSessionCapsule e m => closeSessionCapsule_Append e m b
  | maxDataCapsule v => maxDataCapsule_Append v b
  | maxStreamsBidiCapsule v => maxStreamsBidiCapsule_Append v b
  | maxStreamsUniCapsule v => maxStreamsUniCapsule_Append v b
  | dataBlockedCapsule v => dataBlockedCapsule_Append v b
  | streamsBlockedBidiCapsule v => streamsBlockedBidiCapsule_Append v b
  | streamsBlockedUniCapsule v => streamsBlockedUniCapsule_Append v b
  end.

End append.

Definition ToSessionError (ErrorCode : Z) (Message : gostring) : SessionError :=
  mkSessionError true ErrorCode Message.

(** ** Reading *)

Section parse.
Context `{!Quicvarint} `{!GoRuntime} {P : Type} `{!CapsuleParser P}.

(** [io.ReadFull(r, buf)] with [len(buf) = n], [acc] read so far: [None] when
    the fuel, a bound on the number of calls of [Read], runs out. *)
Fixpoint ReadFull (fuel n : nat) (acc : gostring) (p : P) : option (result error gostring * P) :=
  if decide (n <= length acc)%nat then Some (Ok acc, p)
  else
    match fuel with
    | O => None
    | S fuel =>
        match CapsuleReader_Read (n - length acc) p with
        | (bs, None, p) => ReadFull fuel n (acc ++ bs) p
        | (bs, Some err, p) =>
            let acc := acc ++ bs in
            if decide (n <= length acc)%nat then Some (Ok acc, p)
            else if bool_decide (err = ErrEOF) && negb (bool_decide (acc = []))
                 then Some (Err ErrUnexpectedEOF, p)
            else Some (Err err, p)
        end
    end.

(** [LimitedReader.Read]: at most [limit] bytes in total. *)
Definition LimitedReader_Read (limit n : nat) (p : P) : gostring * option error * P :=
  match limit with
  | O => ([], Some ErrEOF, p)
  | _ => CapsuleReader_Read (Nat.min n limit) p
  end.

(** [io.ReadAll(io.LimitReader(r, limit))]. *)
Fixpoint ReadAll (fuel limit : nat) (acc : gostring) (p : P) : option (result error gostring * P) :=
  match fuel with
  | O => None
  | S fuel =>
      match LimitedReader_Read limit (readAllRoom (length acc)) p with
      | (bs, None, p) => ReadAll fuel (limit - length bs) (acc ++ bs) p
      | (bs, Some err, p) =>
          if decide (err = ErrEOF) then Some (Ok (acc ++ bs), p) else Some (Err err, p)
      end
  end.

(** Every [Read] of a non-empty buffer returns a byte or an error, so these
    many calls are enough. *)
Definition readFullFuel : nat := 4.
Definition readAllFuel : nat := S (S maxCloseCapsuleErrorMsgLen).

Definition parseCloseSessionCapsule (p : P) : option (result error capsule * P) :=
  r ← ReadFull readFullFuel 4 [] p;
  match r with
  | (Err err, p) => Some (Err err, p)
  | (Ok b, p) =>
      r ← ReadAll readAllFuel maxCloseCapsuleErrorMsgLen [] p;
      match r with
      | (Err err, p) => Some (Err err, p)
      | (Ok msg, p) =>
          match Discard p with
          | (Some err, p) => Some (Err err, p)
          | (None, p) => Some (Ok (closeSessionCapsule (be_value 0 b) msg), p)
          end
      end
  end.

Definition parseMaxDataCapsule (p : P) : result error Z * P :=
  match Read CapsuleReader_ReadByte p with
  | (Err err, p) => (Err err, p)
  | (Ok maxData, p) =>
      if decide (Remaining p <> 0)
      then (Err (ErrNew (str "WT_MAX_DATA capsule has trailing data")), p)
      else (Ok maxData, p)
  end.

Definition parseDataBlockedCapsule (p : P) : result error Z * P :=
  match Read CapsuleReader_ReadByte p with
  | (Err err, p) => (Err err, p)
  | (Ok maxData, p) =>
      if decide (Remaining p <> 0)
      then (Err (ErrNew (str "WT_DATA_BLOCKED capsule has trailing data")), p)
      else (Ok maxData, p)
  end.

Definition parseMaxStreamsCapsule (p : P) : result error Z * P :=
  match Read CapsuleReader_ReadByte p with
  | (Err err, p) => (Err err, p)
  | (Ok maxStreams, p) =>
      if decide (Remaining p <> 0)
      then (Err (ErrNew (str "WT_MAX_STREAMS capsule has trailing data")), p)
      else if decide (maxStreamsLimit < maxStreams)
      then (Err (ErrNew (str "WT_MAX_STREAMS value too large")), p)
      else (Ok maxStreams, p)
  end.

Definition parseStreamsBlockedCapsule (p : P) : result error Z * P :=
  match Read CapsuleReader_ReadByte p with
  | (Err err, p) => (Err err, p)
  | (Ok maxStreams, p) =>
      if decide (Remaining p <> 0)
      then (Err (ErrNew (str "WT_STREAMS_BLOCKED capsule has trailing data")), p)
      else if decide (maxStreamsLimit < maxStreams)
      then (Err (ErrNew (str "WT_STREAMS_BLOCKED value too large")), p)
      else (Ok maxStreams, p)
  end.

(** Wrap a parsed number as a capsule. *)
Definition as_capsule (c : Z -> capsule) (r : result error Z * P) : option (result error capsule * P) :=
  Some (match r.1 with Ok v => Ok (c v) | Err err => Err err end, r.2).

(** The loop of [parseNextCapsule]; the fuel bounds the number of capsules that
    are looked at. *)
Fixpoint parseNextCapsule (fuel : nat) (p : P) : option (result error capsule * P) :=
  match fuel with
  | O => None
  | S fuel =>
      match Next p with
      | (Err err, p) => Some (Err err, p)
      | (Ok typ, p) =>
          if decide (typ = closeSessionCapsuleType) then parseCloseSessionCapsule p
          else if decide (typ = maxDataCapsuleType) then
            as_capsule maxDataCapsule (parseMaxDataCapsule p)
          else if decide (typ = maxStreamDataCapsuleType) then
            Some (Err (ErrNew (str "WT_MAX_STREAM_DATA capsule received")), p)
          else if decide (typ = maxStreamsBidiCapsuleType) then
            as_capsule maxStreamsBidiCapsule (parseMaxStreamsCapsule p)
          else if decide (typ = maxStreamsUniCapsuleType) then
            as_capsule maxStreamsUniCapsule (parseMaxStreamsCapsule p)
          else if decide (typ = dataBlockedCapsuleType) then
            as_capsule dataBlockedCapsule (parseDataBlockedCapsule p)
          else if decide (typ = streamDataBlockedCapsuleType) then
            Some (Err (ErrNew (str "WT_STREAM_DATA_BLOCKED capsule received")), p)
          else if decide (typ = streamsBlockedBidiCapsuleType) then
            as_capsule streamsBlockedBidiCapsule (parseStreamsBlockedCapsule p)
          else if decide (typ = streamsBlockedUniCapsuleType) then
            as_capsule streamsBlockedUniCapsule (parseStreamsBlockedCapsule p)
          else
            match Discard p with
            | (Some err, p) => Some (Err err, p)
            | (None, p) => parseNextCapsule fuel p
            end
      end
  end.

End parse.

(** ** What is relied on of [http3.CapsuleParser]

    [payload] is what remains of the current capsule and [rest] what follows it
    on the stream. The laws speak about streams of complete capsules; a [Read]
    may return fewer bytes than asked for, and may report [io.EOF] together
    with the last bytes. *)

Definition frame `{!Quicvarint} (typ : Z) (body : gostring) : gostring :=
  Append [] typ ++ Append [] (Z.of_nat (length body)) ++ body.

Class CapsuleParserLaws `(!Quicvarint) {P : Type} `(!CapsuleParser P) := {
  payload : P -> gostring;
  rest : P -> gostring;
  Next_Ok p typ body tl :
    0 <= typ <= Max -> Z.of_nat (length body) <= Max ->
    payload p = [] -> rest p = frame typ body ++ tl ->
    exists p', Next p = (Ok typ, p') /\ payload p' = body /\ rest p' = tl;
  Next_EOF p : payload p = [] -> rest p = [] ->
    exists e p', Next p = (Err e, p');
  ReadByte_Ok p b bs : payload p = b :: bs ->
    exists p', CapsuleReader_ReadByte p = (Ok b, p') /\ payload p' = bs /\ rest p' = rest p;
  Read_bytes n p : (0 < n)%nat -> payload p <> [] ->
    exists j err p', CapsuleReader_Read n p = (take j (payload p), err, p') /\
      (1 <= j <= n)%nat /\ (j <= length (payload p))%nat /\
      payload p' = drop j (payload p) /\ rest p' = rest p /\
      (err = None \/ err = Some ErrEOF /\ payload p' = []);
  Read_EOF n p : (0 < n)%nat -> payload p = [] ->
    exists p', CapsuleReader_Read n p = ([], Some ErrEOF, p') /\
      payload p' = [] /\ rest p' = rest p;
  Remaining_payload p : Remaining p = Z.of_nat (length (payload p));
  Discard_Ok p : exists p', Discard p = (None, p') /\ payload p' = [] /\ rest p' = rest p;
}.

(** ** Specification of the encoding *)

Definition capsule_type (c : capsule) : Z :=
  match c with
  | closeSessionCapsule _ _ => closeSessionCapsuleType
  | maxDataCapsule _ => maxDataCapsuleType
  | maxStreamsBidiCapsule _ => maxStreamsBidiCapsuleType
  | maxStreamsUniCapsule _ => maxStreamsUniCapsuleType
  | dataBlockedCapsule _ => dataBlockedCapsuleType
  | streamsBlockedBidiCapsule _ => streamsBlockedBidiCapsuleType
  | streamsBlockedUniCapsule _ => streamsBlockedUniCapsuleType
  end.

(** The message of a close capsule that is sent. *)
Definition sentMessage (m : gostring) : gostring := truncateUTF8 m maxCloseCapsuleErrorMsgLen.

Definition capsule_body `{!Quicvarint} (c : capsule) : gostring :=
  match c with
  | closeSessionCapsule e m => be_bytes 4 e ++ sentMessage m
  | maxDataCapsule v | maxStreamsBidiCapsule v | maxStreamsUniCapsule v
  | dataBlockedCapsule v | streamsBlockedBidiCapsule v | streamsBlockedUniCapsule v =>
      Append [] v
  end.

(** The capsule that the peer receives. *)
Definition sent (c : capsule) : capsule :=
  match c with
  | closeSessionCapsule e m => closeSessionCapsule e (sentMessage m)
  | c => c
  end.

(** The values that fit: 32-bit error codes, varints, stream limits up to 2^60. *)
Definition capsule_wf (c : capsule) : Prop :=
  match c with
  | closeSessionCapsule e _ => 0 <= e < 2 ^ 32
  | maxDataCapsule v | dataBlockedCapsule v => 0 <= v <= Max
  | maxStreamsBidiCapsule v | maxStreamsUniCapsule v
  | streamsBlockedBidiCapsule v | streamsBlockedUniCapsule v => 0 <= v <= maxStreamsLimit
  end.

(** What a peer may write on the CONNECT stream: capsules that this package
    knows, and others. *)
Inductive item : Type :=
| Known (c : capsule)
| Unknown (typ : Z) (body : gostring).

Definition knownTypes : list Z :=
  [closeSessionCapsuleType; maxDataCapsuleType; maxStreamDataCapsuleType;
   maxStreamsBidiCapsuleType; maxStreamsUniCapsuleType; dataBlockedCapsuleType;
   streamDataBlockedCapsuleType; streamsBlockedBidiCapsuleType;
   streamsBlockedUniCapsuleType].

Definition item_wf (i : item) : Prop :=
  match i with
  | Known c => capsule_wf c
  | Unknown typ body =>
      0 <= typ <= Max /\ Z.of_nat (length body) <= Max /\ typ ∉ knownTypes
  end.

Definition item_Append `{!Quicvarint} (b : gostring) (i : item) : gostring :=
  match i with
  | Known c => capsule_Append c b
  | Unknown typ body => b ++ frame typ body
  end.

Definition knowns (l : list item) : list capsule :=
  omap (fun i => match i with Known c => Some c | Unknown _ _ => None end) l.

(** Values that must be refused. *)
Inductive malformed `{!Quicvarint} : Z -> gostring -> Prop :=
(** capsules of WebTransport over HTTP/2 *)
| malformed_http2 typ body :
    typ = maxStreamDataCapsuleType \/ typ = streamDataBlockedCapsuleType ->
    malformed typ body
(** a close capsule without an error code *)
| malformed_close body : (length body < 4)%nat -> malformed closeSessionCapsuleType body
(** bytes after the varint *)
| malformed_trailing typ v extra :
    typ ∈ [maxDataCapsuleType; maxStreamsBidiCapsuleType; maxStreamsUniCapsuleType;
           dataBlockedCapsuleType; streamsBlockedBidiCapsuleType; streamsBlockedUniCapsuleType] ->
    0 <= v <= Max -> extra <> [] -> malformed typ (Append [] v ++ extra)
(** a stream limit beyond 2^60 *)
| malformed_limit typ v :
    typ ∈ [maxStreamsBidiCapsuleType; maxStreamsUniCapsuleType;
           streamsBlockedBidiCapsuleType; streamsBlockedUniCapsuleType] ->
    maxStreamsLimit < v <= Max -> malformed typ (Append [] v).

(** Parse until the first error. *)
Fixpoint parseAll `{!Quicvarint} `{!GoRuntime} {P} `{!CapsuleParser P} (n fuel : nat) (p : P)
  : option (list capsule * error) :=
  match n with
  | O => None
  | S n =>
      match parseNextCapsule fuel p with
      | None => None
      | Some (Err err, _) => Some ([], err)
      | Some (Ok c, p) => r ← parseAll n fuel p; Some (c :: r.1, r.2)
      end
  end.

(** ** A parser over byte slices *)

Module SliceParser.
Import (hints) Rfc9000.

Definition state : Type := gostring * gostring.

Definition next (p : state) : result error Z * state :=
  match Rfc9000.read bytesReader p.2 with
  | (Err e, r) => (Err e, ([], r))
  | (Ok typ, r) =>
      match Rfc9000.read bytesReader r with
      | (Err e, r) => (Err e, ([], r))
      | (Ok len, r) =>
          if decide (Z.of_nat (length r) < len) then (Err ErrUnexpectedEOF, ([], r))
          else (Ok typ, (take (Z.to_nat len) r, drop (Z.to_nat len) r))
      end
  end.

#[export] Instance parser : CapsuleParser state := {|
  Next := next;
  CapsuleReader_ReadByte := fun p =>
    match p.1 with [] => (Err ErrEOF, p) | b :: bs => (Ok b, (bs, p.2)) end;
  CapsuleReader_Read := fun n p =>
    match p.1 with
    | [] => ([], Some ErrEOF, p)
    | bs => (take n bs, None, (drop n bs, p.2))
    end;
  Remaining := fun p => Z.of_nat (length p.1);
  Discard := fun p => (None, ([], p.2));
|}.

Lemma next_frame typ body tl :
  0 <= typ <= Max -> Z.of_nat (length body) <= Max ->
  next ([], frame typ body ++ tl) = (Ok typ, (body, tl)).
Proof.
  intros Ht Hl. unfold next, frame; simpl. rewrite <- !app_assoc.
  rewrite !Rfc9000.read_append by lia.
  rewrite decide_False by (rewrite length_app; lia).
  by rewrite Nat2Z.id, take_app_length, drop_app_length.
Qed.

#[export] Instance laws : CapsuleParserLaws Rfc9000.quicvarint parser.
Proof.
  refine {| payload := fst; rest := snd |}; simpl.
  - intros [pl r] typ body tl ? ?; simpl. intros -> ->. eexists. by rewrite next_frame.
  - intros [pl r]; simpl. intros -> ->. unfold next; simpl. eauto.
  - intros [pl r] b bs; simpl. intros ->. eauto.
  - intros n [pl r] Hn Hpl. destruct pl as [|b bs]; [done|]. simpl in *.
    exists (Nat.min n (length (b :: bs))), None, (drop n (b :: bs), r).
    rewrite take_min_length, drop_min_length. simpl length.
    split_and!; try done; try lia. by left.
  - intros n [pl r] Hn; simpl. intros ->. eauto.
  - done.
  - eauto.
Defined.

#[export] Instance runtime : GoRuntime := {|
  readAllRoom := fun _ => 512%nat;
  readAllRoom_pos := fun _ => Nat.lt_0_succ 511;
|}.

End SliceParser.

(** ** Lemmas: truncation *)

Lemma truncateLoop_le s n : (truncateLoop s n <= n)%nat.
Proof. induction n as [|n IH]; simpl; [lia|]. repeat case_match; lia. Qed.

(** Inside an encoded rune the loop runs back to its first byte. *)
Lemma truncateLoop_cont b bs s n :
  forallb cont bs = true -> (n <= length bs)%nat -> truncateLoop ((b :: bs) ++ s) n = O.
Proof.
  intros Hbs. induction n as [|n IH]; intros Hn; [done|].
  cbn [truncateLoop].
  change (((b :: bs) ++ s) !! S n) with ((bs ++ s) !! n).
  rewrite lookup_app_l by lia. destruct (lookup_lt_is_Some_2 bs n) as [c Hc]; [lia|].
  rewrite Hc, RuneStart_spec.
  rewrite forallb_forall in Hbs. rewrite Hbs by (by apply list_elem_of_In, list_elem_of_lookup; eauto).
  apply IH. lia.
Qed.

(** Past a whole rune the loop continues in the rest of the string. *)
Lemma truncateLoop_app c s n :
  is_char c = true -> Valid s -> (n < length s)%nat ->
  truncateLoop (c ++ s) (length c + n) = (length c + truncateLoop s n)%nat.
Proof.
  intros Hc Hs. induction n as [|n IH]; intros Hn.
  - destruct Hs as [|c' s Hc' _]; [simpl in Hn; lia|].
    apply is_char_shape in Hc as (b & bs & -> & _), Hc' as (b' & bs' & -> & Hb' & _).
    simpl length. rewrite Nat.add_0_r. cbn [truncateLoop].
    change (S (length bs)) with (length (b :: bs)).
    rewrite lookup_app_r, Nat.sub_diag by lia. simpl. rewrite RuneStart_spec, Hb'. simpl. lia.
  - rewrite Nat.add_succ_r. cbn [truncateLoop].
    rewrite lookup_app_r by lia. replace (S (length c + n) - length c)%nat with (S n) by lia.
    destruct (s !! S n); [case_match|]; [lia| |lia]. apply IH. lia.
Qed.

(** Cutting a valid string at the position that the loop finds. *)
Lemma truncateLoop_valid s n : Valid s -> (n < length s)%nat ->
  Valid (take (truncateLoop s n) s) /\ (n < truncateLoop s n + 4)%nat.
Proof.
  intros Hs. revert n. induction Hs as [|c s Hc Hs IH]; intros n Hn; [simpl in Hn; lia|].
  destruct (decide (n < length c)%nat) as [Hlt|Hge].
  - pose proof (is_char_shape c Hc) as (b & bs & -> & _ & Hbs & ?).
    simpl in Hlt. rewrite truncateLoop_cont by (done || lia). simpl. split; [constructor|lia].
  - replace n with (length c + (n - length c))%nat by lia. rewrite length_app in Hn.
    rewrite truncateLoop_app by (done || lia).
    destruct (IH (n - length c)%nat) as [Hv ?]; [lia|].
    rewrite take_app_add. split; [by constructor|lia].
Qed.

Lemma sentMessage_le m : (length (sentMessage m) <= maxCloseCapsuleErrorMsgLen)%nat.
Proof.
  unfold sentMessage, truncateUTF8. case_decide; [done|].
  rewrite length_take. pose proof (truncateLoop_le m maxCloseCapsuleErrorMsgLen). lia.
Qed.

(** ** Lemmas: reading *)

Section reading.
Context `{!Quicvarint} `{!QuicvarintLaws _} `{!GoRuntime}.
Context {P : Type} `{!CapsuleParser P} `{!CapsuleParserLaws _ _}.

Lemma capsule_yields p bs tl : payload p = bs ++ tl ->
  exists p', yields CapsuleReader_ReadByte p bs p' /\ payload p' = tl /\ rest p' = rest p.
Proof.
  revert p. induction bs as [|b bs IH]; simpl; intros p Hp.
  - eauto using yields.
  - apply ReadByte_Ok in Hp as (p1 & H1 & Hp1 & Hr1).
    destruct (IH p1 Hp1) as (p2 & ? & ? & ?).
    exists p2. split_and!; [by econstructor|done|congruence].
Qed.

Lemma ReadFull_Ok fuel n acc p bs tl :
  payload p = bs ++ tl -> (length acc + length bs = n)%nat -> (length bs <= fuel)%nat ->
  exists p', ReadFull fuel n acc p = Some (Ok (acc ++ bs), p') /\
    payload p' = tl /\ rest p' = rest p.
Proof.
  revert acc p bs. induction fuel as [|fuel IH]; intros acc p bs Hp Hn Hf; simpl; case_decide.
  1,3: destruct bs; [rewrite app_nil_r; eauto|simpl in *; lia].
  { lia. }
  destruct (Read_bytes (n - length acc) p) as (j & err & p1 & -> & ? & ? & Hp1 & Hr1 & Herr).
  { lia. }
  { rewrite Hp. destruct bs; simpl in *; [lia|done]. }
  rewrite Hp in *. rewrite take_app_le, drop_app_le in * by lia.
  destruct Herr as [-> | [-> Hnil]].
  - destruct (IH (acc ++ take j bs) p1 (drop j bs)) as (p2 & -> & ? & ?).
    + done.
    + rewrite length_app, length_take, length_drop. lia.
    + rewrite length_drop. lia.
    + rewrite <- app_assoc, take_drop. exists p2. split_and!; [done..|congruence].
  - rewrite Hp1 in Hnil. apply app_nil in Hnil as [Hd ->].
    assert (take j bs = bs) as ->.
    { apply firstn_all2. pose proof (f_equal length Hd) as Hl.
      rewrite length_drop in Hl. simpl in Hl. lia. }
    rewrite decide_True by (rewrite length_app; lia).
    exists p1. split_and!; [done| |done]. by rewrite Hp1, Hd.
Qed.

Lemma ReadAll_Ok fuel limit acc p :
  (Nat.min limit (length (payload p)) < fuel)%nat ->
  exists p', ReadAll fuel limit acc p = Some (Ok (acc ++ take limit (payload p)), p') /\
    rest p' = rest p.
Proof.
  revert limit acc p. induction fuel as [|fuel IH]; intros limit acc p Hf; [lia|]. simpl.
  unfold LimitedReader_Read. destruct limit as [|limit].
  { rewrite decide_True by done. simpl. eauto. }
  pose proof (readAllRoom_pos (length acc)).
  destruct (decide (payload p = [])) as [Hnil|Hnil].
  { destruct (Read_EOF (Nat.min (readAllRoom (length acc)) (S limit)) p) as (p1 & -> & ? & ?);
      [lia|done|].
    rewrite decide_True by done. rewrite Hnil. simpl. eauto. }
  destruct (Read_bytes (Nat.min (readAllRoom (length acc)) (S limit)) p)
    as (j & err & p1 & -> & Hj & Hjl & Hp1 & Hr1 & Herr); [lia|done|].
  rewrite length_take, Nat.min_l by lia.
  assert (take j (payload p) ++ take (S limit - j) (drop j (payload p)) = take (S limit) (payload p))
    as Htake.
  { replace (S limit) with (j + (S limit - j))%nat at 2 by lia.
    rewrite <- take_take_drop. done. }
  destruct Herr as [-> | [-> Hnil']].
  - destruct (IH (S limit - j)%nat (acc ++ take j (payload p)) p1) as (p2 & -> & ?).
    { rewrite Hp1, length_drop. lia. }
    rewrite Hp1, <- app_assoc, Htake. exists p2. split; [done|congruence].
  - rewrite decide_True by done. rewrite <- Hp1 in Htake. rewrite Hnil', take_nil, app_nil_r in Htake.
    rewrite Htake. eauto.
Qed.

(** Parsing the value of a close capsule with an arbitrary message. *)
Lemma parseCloseSessionCapsule_Ok p code m :
  payload p = be_bytes 4 code ++ m -> 0 <= code < 2 ^ 32 ->
  exists p', parseCloseSessionCapsule p =
      Some (Ok (closeSessionCapsule code (take maxCloseCapsuleErrorMsgLen m)), p') /\
    payload p' = [] /\ rest p' = rest p.
Proof.
  intros Hp Hcode. unfold parseCloseSessionCapsule.
  destruct (ReadFull_Ok readFullFuel 4 [] p (be_bytes 4 code) m) as (p1 & -> & Hp1 & Hr1);
    [done|by rewrite length_be_bytes|by rewrite length_be_bytes|]. cbn [mbind option_bind].
  destruct (ReadAll_Ok readAllFuel maxCloseCapsuleErrorMsgLen [] p1) as (p2 & -> & Hr2).
  { unfold readAllFuel. lia. }
  rewrite app_nil_l, Hp1. cbn [mbind option_bind].
  destruct (Discard_Ok p2) as (p3 & -> & ? & ?). exists p3.
  rewrite be_value_be_bytes, Z.add_0_l, Z.mod_small by (simpl; lia).
  split_and!; [done..|congruence].
Qed.

(** Reading a value that is one varint. *)
Lemma read_varint p v tl : payload p = Append [] v ++ tl -> 0 <= v <= Max ->
  exists p', Read CapsuleReader_ReadByte p = (Ok v, p') /\
    payload p' = tl /\ rest p' = rest p /\ Remaining p' = Z.of_nat (length tl).
Proof.
  intros Hp Hv. apply capsule_yields in Hp as (p' & Hy & Hp' & Hr').
  exists p'. split_and!; [by apply Read_Append|done|done|]. by rewrite Remaining_payload, Hp'.
Qed.

Lemma Append_frame typ v b : 0 <= typ <= Max -> 0 <= v <= Max ->
  Append (Append (Append b typ) (Len v)) v = b ++ frame typ (Append [] v).
Proof.
  intros Ht Hv. pose proof (Len_range v Hv). unfold frame.
  rewrite (Append_app (Append (Append b typ) (Len v))) by done.
  rewrite (Append_app (Append b typ)), (Append_app b) by (unfold Max; lia || done).
  rewrite Append_length by done. by rewrite !app_assoc.
Qed.

Lemma maxStreamsLimit_Max v : v <= maxStreamsLimit -> v <= Max.
Proof. change maxStreamsLimit with (2 ^ 60). unfold Max. lia. Qed.

(** Every capsule is written as one frame. *)
Lemma capsule_Append_frame c b : capsule_wf c ->
  capsule_Append c b = b ++ frame (capsule_type c) (capsule_body c).
Proof.
  destruct c as [e m| | | | | |]; cbn [capsule_wf capsule_Append capsule_type capsule_body];
    intros Hc;
    [|apply Append_frame; [by vm_compute|];
      first [exact Hc | split; [lia | apply maxStreamsLimit_Max; lia]]..].
  unfold closeSessionCapsule_Append. pose proof (sentMessage_le m) as Hm.
  assert ((if decide (maxCloseCapsuleErrorMsgLen < length m)%nat
           then truncateUTF8 m maxCloseCapsuleErrorMsgLen else m) = sentMessage m) as ->.
  { unfold sentMessage, truncateUTF8. repeat case_decide; done || lia. }
  unfold maxCloseCapsuleErrorMsgLen in Hm.
  rewrite (Append_app (Append b _)), (Append_app b) by (unfold Max; lia || done).
  unfold frame. rewrite length_app, length_be_bytes, u32_id by lia.
  rewrite Nat2Z.inj_add. by rewrite !app_assoc.
Qed.

Lemma capsule_body_length c : capsule_wf c -> Z.of_nat (length (capsule_body c)) <= Max.
Proof.
  destruct c as [e m| | | | | |]; cbn [capsule_wf capsule_body]; intros Hc.
  2,5: pose proof (Append_length_le _ Hc); unfold Max; lia.
  2-5: destruct Hc as [? ?%maxStreamsLimit_Max];
       match goal with |- context [Append [] ?v] =>
         pose proof (Append_length_le v ltac:(lia)) end; unfold Max; lia.
  pose proof (sentMessage_le m). rewrite length_app, length_be_bytes.
  unfold maxCloseCapsuleErrorMsgLen, Max in *. lia.
Qed.


Definition item_frame (i : item) : gostring :=
  match i with
  | Known c => frame (capsule_type c) (capsule_body c)
  | Unknown typ body => frame typ body
  end.

Lemma items_Append b items : Forall item_wf items ->
  foldl item_Append b items = b ++ concat (item_frame <$> items).
Proof.
  intros H1. revert b. induction H1 as [|[c|typ body] items Hi _ IH]; intros b; simpl.
  - by rewrite app_nil_r.
  - rewrite IH, capsule_Append_frame, app_assoc by done. done.
  - by rewrite IH, app_assoc.
Qed.

Lemma capsule_type_range c : 0 <= capsule_type c <= Max.
Proof. by destruct c; vm_compute. Qed.

Lemma parseNextCapsule_known fuel p c tl :
  capsule_wf c -> payload p = [] ->
  rest p = frame (capsule_type c) (capsule_body c) ++ tl ->
  exists p', parseNextCapsule (S fuel) p = Some (Ok (sent c), p') /\
    payload p' = [] /\ rest p' = tl.
Proof.
  intros Hc Hp Hr.
  destruct (Next_Ok p _ _ tl (capsule_type_range c) (capsule_body_length c Hc) Hp Hr)
    as (p1 & Hn & Hp1 & Hr1).
  cbn [parseNextCapsule]. rewrite Hn.
  destruct c as [e m|v|v|v|v|v|v];
    cbn [capsule_type capsule_body sent capsule_wf] in *;
    decide_consts.
  { destruct (parseCloseSessionCapsule_Ok p1 e (sentMessage m)) as (p2 & -> & ? & ?); [done..|].
    rewrite firstn_all2 by apply sentMessage_le.
    exists p2. split_and!; [done..|congruence]. }
  all: assert (0 <= v <= Max) as Hv by
    first [exact Hc | split; [lia | apply maxStreamsLimit_Max; lia]].
  all: destruct (read_varint p1 v []) as (p2 & Hrd & ? & ? & Hrem);
    [by rewrite app_nil_r | done |].
  all: unfold as_capsule, parseMaxDataCapsule, parseMaxStreamsCapsule, parseDataBlockedCapsule,
    parseStreamsBlockedCapsule; rewrite Hrd; rewrite decide_False by (rewrite Hrem; tauto).
  all: try rewrite decide_False by lia.
  all: exists p2; split_and!; [done..|congruence].
Qed.

Lemma parseNextCapsule_unknown fuel p typ body tl :
  item_wf (Unknown typ body) -> payload p = [] -> rest p = frame typ body ++ tl ->
  exists p', parseNextCapsule (S fuel) p = parseNextCapsule fuel p' /\
    payload p' = [] /\ rest p' = tl.
Proof.
  intros (Ht & Hl & Hk) Hp Hr.
  destruct (Next_Ok p _ _ tl Ht Hl Hp Hr) as (p1 & Hn & Hp1 & Hr1).
  destruct (Discard_Ok p1) as (p2 & Hd & ? & ?). exists p2.
  cbn [parseNextCapsule]. rewrite Hn.
  unfold knownTypes in Hk. rewrite !not_elem_of_cons in Hk. destruct_and!.
  rewrite !decide_False by done. rewrite Hd. split_and!; [done..|congruence].
Qed.

(** One call on a stream of capsules: the first known one, or an error. *)
Lemma parseNextCapsule_items fuel p items :
  Forall item_wf items -> (length items < fuel)%nat ->
  payload p = [] -> rest p = concat (item_frame <$> items) ->
  (knowns items = [] /\ exists e p', parseNextCapsule fuel p = Some (Err e, p')) \/
  (exists c items' p', knowns items = c :: knowns items' /\
    parseNextCapsule fuel p = Some (Ok (sent c), p') /\
    Forall item_wf items' /\ (length items' < length items)%nat /\
    payload p' = [] /\ rest p' = concat (item_frame <$> items')).
Proof.
  intros Hwf. revert fuel p.
  induction Hwf as [|[c|typ body] items Hi Hwf IH]; intros fuel p Hf Hp Hr;
    (destruct fuel as [|fuel]; [simpl in Hf; lia|]); simpl in Hr.
  - left. split; [done|]. destruct (Next_EOF p Hp Hr) as (e & p' & Hn).
    cbn [parseNextCapsule]. rewrite Hn. eauto.
  - right. destruct (parseNextCapsule_known fuel p c _ Hi Hp Hr) as (p' & ? & ? & ?).
    exists c, items, p'. split_and!; try done. simpl. lia.
  - destruct (parseNextCapsule_unknown fuel p typ body _ Hi Hp Hr) as (p1 & -> & Hp1 & Hr1).
    simpl in Hf. destruct (IH fuel p1) as [?|(c & items' & p' & ?)]; [lia|done|done|by left|].
    right. exists c, items', p'. simpl. destruct_and!. split_and!; try done. lia.
Qed.

Lemma ReadFull_short fuel n acc p :
  (length acc + length (payload p) < n)%nat -> (length (payload p) < fuel)%nat ->
  exists e p', ReadFull fuel n acc p = Some (Err e, p').
Proof.
  revert acc p. induction fuel as [|fuel IH]; intros acc p Hn Hf; [lia|]. simpl.
  rewrite decide_False by lia.
  destruct (decide (payload p = [])) as [Hnil|Hnil].
  - destruct (Read_EOF (n - length acc) p) as (p1 & -> & _ & _); [lia|done|].
    rewrite app_nil_r, decide_False by lia. case_match; eauto.
  - destruct (Read_bytes (n - length acc) p) as (j & err & p1 & -> & ? & ? & Hp1 & _ & Herr);
      [lia|done|].
    destruct Herr as [-> | [-> _]].
    + apply IH; rewrite ?length_app, ?length_take, Hp1, length_drop; lia.
    + rewrite decide_False by (rewrite length_app, length_take; lia). case_match; eauto.
Qed.

Lemma malformed_range typ body : malformed typ body -> 0 <= typ <= Max.
Proof.
  assert (Forall (fun t => 0 <= t <= Max) knownTypes) as Hall.
  { repeat (apply Forall_cons; split; [by vm_compute|]). by apply Forall_nil. }
  rewrite Forall_forall in Hall. intros Hm. apply Hall. unfold knownTypes.
  rewrite !elem_of_cons.
  destruct Hm as [? ? [-> | ->]|? ?|? ? ? He ? ?|? ? He ?]; rewrite ?elem_of_cons in *; tauto.
Qed.

End reading.

(** ** Theorems *)

Import (hints) Rfc9000.
Import (hints) SliceParser.

(** C17: round trip of a whole CONNECT stream. When the peer writes any sequence
    of well-formed capsules with [Append], interleaved with capsules of unknown
    types, repeated calls of [parseNextCapsule] return exactly the known ones,
    in order, each as it was sent (the message of a close capsule cut to 1024
    bytes), skip the unknown ones, and end with the error of the exhausted
    stream. Every call returns: the fuel only has to exceed the number of
    capsules. The statement holds for every way in which the parser's [Read]
    fragments the stream. *)
Theorem capsule_stream_roundtrip `{!Quicvarint} `{!QuicvarintLaws _} `{!GoRuntime}
    {P} `{!CapsuleParser P} `{!CapsuleParserLaws _ _} (items : list item) (p : P) (n fuel : nat) :
  Forall item_wf items -> payload p = [] -> rest p = foldl item_Append [] items ->
  (length items < n)%nat -> (length items < fuel)%nat ->
  exists err, parseAll n fuel p = Some (sent <$> knowns items, err).
Proof.
  intros Hwf Hp Hr Hn Hf. rewrite items_Append, app_nil_l in Hr by done.
  revert items p Hwf Hp Hr Hn Hf. induction n as [|n IH]; intros items p Hwf Hp Hr Hn Hf; [lia|].
  simpl. destruct (parseNextCapsule_items fuel p items)
    as [[-> (e & p' & ->)]|(c & items' & p' & -> & -> & Hwf' & Hl & Hp' & Hr')]; try done.
  { simpl. eauto. }
  destruct (IH items' p') as [e ->]; try done; try lia. simpl. eauto.
Qed.

Lemma capsule_stream_roundtrip_witness :
  let items := [Known (maxDataCapsule 1000); Unknown 0x78ae [];
                Known (maxStreamsBidiCapsule (2 ^ 60));
                Known (closeSessionCapsule 1337 (str "bye"))] in
  exists err, parseAll 5 5 ([] : gostring, foldl item_Append [] items) =
    Some ([maxDataCapsule 1000; maxStreamsBidiCapsule (2 ^ 60);
           closeSessionCapsule 1337 (str "bye")], err).
Proof.
  intros items.
  refine (capsule_stream_roundtrip items ([] : gostring, foldl item_Append [] items) 5 5 _ _ _ _ _).
  - repeat (apply Forall_cons; split); [| | | |apply Forall_nil; exact I]; simpl;
      try (vm_compute; intuition congruence).
    unfold knownTypes. rewrite !not_elem_of_cons. split; [done|]. split; [done|].
    split_and!; try done. apply not_elem_of_nil.
  - reflexivity.
  - reflexivity.
  - simpl. lia.
  - simpl. lia.
Defined.

(** Every malformed value makes [parseNextCapsule] fail: the two capsule
    types that only exist over HTTP/2, a close capsule shorter than its error
    code, bytes after the number of a limit or blocked capsule, and stream
    limits beyond 2^60. *)
Theorem capsule_malformed_rejected `{!Quicvarint} `{!QuicvarintLaws _} `{!GoRuntime}
    {P} `{!CapsuleParser P} `{!CapsuleParserLaws _ _} (typ : Z) (body tl : gostring)
    (p : P) (fuel : nat) :
  malformed typ body -> Z.of_nat (length body) <= Max ->
  payload p = [] -> rest p = frame typ body ++ tl -> (0 < fuel)%nat ->
  exists err p', parseNextCapsule fuel p = Some (Err err, p').
Proof.
  intros Hm Hl Hp Hr Hf. destruct fuel as [|fuel]; [lia|].
  pose proof (malformed_range typ body Hm) as Ht.
  destruct (Next_Ok p typ body tl Ht Hl Hp Hr) as (p1 & Hn & Hp1 & Hr1).
  cbn [parseNextCapsule]. rewrite Hn. destruct Hm as [typ body Ho|body Hb|typ v extra He Hv Hx|typ v He Hv].
  - destruct Ho as [-> | ->]; decide_consts; do 2 eexists; reflexivity.
  - rewrite decide_True by done. unfold parseCloseSessionCapsule.
    destruct (ReadFull_short readFullFuel 4 [] p1) as (e & p2 & ->);
      rewrite ?Hp1; [simpl; lia|unfold readFullFuel; lia|].
    do 2 eexists; reflexivity.
  - destruct (read_varint p1 v extra) as (p2 & Hrd & Hp2 & _ & Hrem); [done..|].
    assert (Remaining p2 <> 0) by (rewrite Hrem; destruct extra; simpl; [done|lia]).
    repeat (apply elem_of_cons in He as [-> | He];
      [decide_consts; unfold as_capsule, parseMaxDataCapsule, parseMaxStreamsCapsule,
         parseDataBlockedCapsule, parseStreamsBlockedCapsule;
       rewrite Hrd, decide_True by done; do 2 eexists; reflexivity|]).
    by apply elem_of_nil in He.
  - assert (0 <= maxStreamsLimit) by by vm_compute.
    destruct (read_varint p1 v []) as (p2 & Hrd & Hp2 & _ & Hrem);
      [by rewrite app_nil_r|lia|].
    repeat (apply elem_of_cons in He as [-> | He];
      [decide_consts; unfold as_capsule, parseMaxStreamsCapsule, parseStreamsBlockedCapsule;
       rewrite Hrd, decide_False by (rewrite Hrem; tauto);
       rewrite decide_True by lia; do 2 eexists; reflexivity|]).
    by apply elem_of_nil in He.
Qed.

Lemma capsule_malformed_rejected_witness :
  exists err p', parseNextCapsule 1
    ([] : gostring, frame maxStreamsUniCapsuleType (Append [] (2 ^ 60 + 1)) ++ str "tail") =
    Some (Err err, p').
Proof.
  refine (capsule_malformed_rejected maxStreamsUniCapsuleType (Append [] (2 ^ 60 + 1))
    (str "tail") _ 1 _ _ _ _ _).
  - apply malformed_limit; [|by vm_compute].
    apply elem_of_cons; right. apply elem_of_cons. by left.
  - by vm_compute.
  - reflexivity.
  - reflexivity.
  - lia.
Defined.



(** [truncateUTF8] does not break characters: cutting a valid UTF-8 string
    to [n] bytes gives a valid prefix of at most [n] bytes, which is the whole
    string when it fits and is otherwise at most three bytes shorter than [n]. *)
Theorem truncateUTF8_valid (s : gostring) (n : nat) :
  Valid s ->
  let t := truncateUTF8 s n in
  Valid t /\ t `prefix_of` s /\ (length t <= n)%nat /\
  ((length s <= n)%nat -> t = s) /\ ((n < length s)%nat -> (n < length t + 4)%nat).
Proof.
  intros Hs t; subst t. unfold truncateUTF8. case_decide as Hl.
  { split_and!; try done. lia. }
  destruct (truncateLoop_valid s n Hs) as [Hv Hn]; [lia|].
  pose proof (truncateLoop_le s n).
  rewrite length_take. split_and!; try lia; [done|]. eexists. symmetry. apply take_drop.
Qed.

(** "aé€" cut to 5 bytes: the three bytes of the euro sign do not fit. *)
Lemma truncateUTF8_valid_witness :
  Valid [x61; xc3; xa9; xe2; x82; xac] /\
  truncateUTF8 [x61; xc3; xa9; xe2; x82; xac] 5 = [x61; xc3; xa9] /\
  Valid (truncateUTF8 [x61; xc3; xa9; xe2; x82; xac] 5).
Proof.
  assert (Valid [x61; xc3; xa9; xe2; x82; xac]) as Hv.
  { apply (Valid_char [x61]); [reflexivity|]. apply (Valid_char [xc3; xa9]); [reflexivity|].
    apply (Valid_char [xe2; x82; xac] []); [reflexivity|constructor]. }
  split; [done|]. split; [reflexivity|]. apply (truncateUTF8_valid _ 5 Hv).
Defined.
