(* ===== verification/OutgoingStreams.v ===== *)
(** * Opening streams ([streams_map_outgoing.go])

    The map of outgoing streams of a session: [outgoingStreamsMap] with all of
    its methods. Every stretch of code between taking and releasing the mutex
    is a function on the state; [OutgoingStreamsSafety]
    composes these functions into the step relation of
    the goroutines that call the methods.

    A goroutine is a number, and [waitChan] of the call made by goroutine [t]
    is the channel [t] (a call makes at most one). The buffered channels and
    the closed ones are sets. A Go panic (a send on a closed channel, closing a
    closed channel, writing to a nil map, slicing beyond the end) is [None]. *)

From S2P Require Import Prelude Errors Quicvarint Protocol.

Section outgoing.
Context {T : Type}.

(** ** State *)

Record outgoingStreamsMap := mkOutgoingStreamsMap {
  o_closeErr : option error;
  (** the goroutine whose context each cancel function cancels *)
  o_streamCtxs : gmap Z nat;
  o_openQueue : list nat;
  o_numStreams : Z;
  o_maxStreams : Z;
  o_blockedSent : bool;
  (** [None] is the nil map *)
  o_m : option (gmap Z T);
  (** channels that hold a value *)
  o_chanBuf : gset nat;
  (** closed channels *)
  o_chanClosed : gset nat;
  (** goroutines whose derived context has been cancelled *)
  o_cancelled : gset nat;
}.

Definition set_closeErr (e : option error) (s : outgoingStreamsMap) : outgoingStreamsMap :=
  mkOutgoingStreamsMap e (o_streamCtxs s) (o_openQueue s) (o_numStreams s) (o_maxStreams s)
    (o_blockedSent s) (o_m s) (o_chanBuf s) (o_chanClosed s) (o_cancelled s).
Definition set_streamCtxs (c : gmap Z nat) (s : outgoingStreamsMap) : outgoingStreamsMap :=
  mkOutgoingStreamsMap (o_closeErr s) c (o_openQueue s) (o_numStreams s) (o_maxStreams s)
    (o_blockedSent s) (o_m s) (o_chanBuf s) (o_chanClosed s) (o_cancelled s).
Definition set_openQueue (q : list nat) (s : outgoingStreamsMap) : outgoingStreamsMap :=
  mkOutgoingStreamsMap (o_closeErr s) (o_streamCtxs s) q (o_numStreams s) (o_maxStreams s)
    (o_blockedSent s) (o_m s) (o_chanBuf s) (o_chanClosed s) (o_cancelled s).
Definition set_numStreams (n : Z) (s : outgoingStreamsMap) : outgoingStreamsMap :=
  mkOutgoingStreamsMap (o_closeErr s) (o_streamCtxs s) (o_openQueue s) n (o_maxStreams s)
    (o_blockedSent s) (o_m s) (o_chanBuf s) (o_chanClosed s) (o_cancelled s).
Definition set_maxStreams (n : Z) (s : outgoingStreamsMap) : outgoingStreamsMap :=
  mkOutgoingStreamsMap (o_closeErr s) (o_streamCtxs s) (o_openQueue s) (o_numStreams s) n
    (o_blockedSent s) (o_m s) (o_chanBuf s) (o_chanClosed s) (o_cancelled s).
Definition set_blockedSent (b : bool) (s : outgoingStreamsMap) : outgoingStreamsMap :=
  mkOutgoingStreamsMap (o_closeErr s) (o_streamCtxs s) (o_openQueue s) (o_numStreams s)
    (o_maxStreams s) b (o_m s) (o_chanBuf s) (o_chanClosed s) (o_cancelled s).
Definition set_m (m : option (gmap Z T)) (s : outgoingStreamsMap) : outgoingStreamsMap :=
  mkOutgoingStreamsMap (o_closeErr s) (o_streamCtxs s) (o_openQueue s) (o_numStreams s)
    (o_maxStreams s) (o_blockedSent s) m (o_chanBuf s) (o_chanClosed s) (o_cancelled s).
Definition set_chanBuf (c : gset nat) (s : outgoingStreamsMap) : outgoingStreamsMap :=
  mkOutgoingStreamsMap (o_closeErr s) (o_streamCtxs s) (o_openQueue s) (o_numStreams s)
    (o_maxStreams s) (o_blockedSent s) (o_m s) c (o_chanClosed s) (o_cancelled s).
Definition set_chanClosed (c : gset nat) (s : outgoingStreamsMap) : outgoingStreamsMap :=
  mkOutgoingStreamsMap (o_closeErr s) (o_streamCtxs s) (o_openQueue s) (o_numStreams s)
    (o_maxStreams s) (o_blockedSent s) (o_m s) (o_chanBuf s) c (o_cancelled s).
Definition set_cancelled (c : gset nat) (s : outgoingStreamsMap) : outgoingStreamsMap :=
  mkOutgoingStreamsMap (o_closeErr s) (o_streamCtxs s) (o_openQueue s) (o_numStreams s)
    (o_maxStreams s) (o_blockedSent s) (o_m s) (o_chanBuf s) (o_chanClosed s) c.

Definition errMaxStreamsNotIncreasedText : gostring :=
  str "webtransport: WT_MAX_STREAMS capsule didn't increase stream limit".
Definition errMaxStreamsNotIncreased : error := ErrNew errMaxStreamsNotIncreasedText.

Definition newOutgoingStreamsMap (maxStreams : Z) : outgoingStreamsMap :=
  mkOutgoingStreamsMap None ∅ [] 0 maxStreams false (Some ∅) ∅ ∅ ∅.

(** ** Helpers of the methods *)

(** [s.m[id] = str] *)
Definition insertStream (id : Z) (v : T) (s : outgoingStreamsMap) : option outgoingStreamsMap :=
  m ← o_m s; Some (set_m (Some (<[id := v]> m)) s).

(** [close(c)] *)
Definition closeChan (c : nat) (s : outgoingStreamsMap) : option outgoingStreamsMap :=
  if decide (c ∈ o_chanClosed s) then None
  else Some (set_chanClosed ({[c]} ∪ o_chanClosed s) s).

(** [slices.DeleteFunc(s.openQueue, ...)] *)
Definition deleteChan (c : nat) (s : outgoingStreamsMap) : outgoingStreamsMap :=
  set_openQueue (filter (fun c' => c' <> c) (o_openQueue s)) s.

(** A non-blocking send: when the buffer is full, the [default] case is taken. *)
Definition maybeUnblockOpenSync (s : outgoingStreamsMap) : option outgoingStreamsMap :=
  match o_openQueue s with
  | [] => Some s
  | c :: _ =>
      if decide (o_maxStreams s <= o_numStreams s) then Some s
      else if decide (c ∈ o_chanClosed s) then None
      else Some (set_chanBuf ({[c]} ∪ o_chanBuf s) s)
  end.

(** ** Methods that hold the mutex from beginning to end *)

Definition removeStream (id : Z) (s : outgoingStreamsMap) : outgoingStreamsMap :=
  set_m (delete id <$> o_m s) s.

(** [openStream] is the result of the callback, which is called with the mutex
    held. The second component is the argument of the call of [queueBlocked]
    that the method makes after releasing the mutex, if it makes one. *)
Definition OpenStream (openStream : result error (T * Z)) (s : outgoingStreamsMap)
  : option (result error T * option Z * outgoingStreamsMap) :=
  match o_closeErr s with
  | Some closeErr => Some (Err closeErr, None, s)
  | None =>
      if decide (0 < length (o_openQueue s))%nat then
        Some (Err ErrStreamLimitReached, None, s)
      else if decide (o_maxStreams s <= o_numStreams s) then
        let sendBlocked := negb (o_blockedSent s) in
        let maxStreams := o_maxStreams s in
        let s := if sendBlocked then set_blockedSent true s else s in
        Some (Err ErrStreamLimitReached, if sendBlocked then Some maxStreams else None, s)
      else
        let s := set_numStreams (u64 (o_numStreams s + 1)) s in
        match openStream with
        | Err err =>
            let s := set_numStreams (u64 (o_numStreams s - 1)) s in
            s ← maybeUnblockOpenSync s; Some (Err err, None, s)
        | Ok (v, id) => s ← insertStream id v s; Some (Ok v, None, s)
        end
  end.

Definition UpdateStreamLimit (limit : Z) (s : outgoingStreamsMap)
  : option (option error * outgoingStreamsMap) :=
  match o_closeErr s with
  | Some _ => Some (None, s)
  | None =>
      if decide (limit <= o_maxStreams s) then
        Some (Some (ErrWrap (errMaxStreamsNotIncreasedText ++ str ": current limit: "
                             ++ itoa (o_maxStreams s) ++ str ", received limit: " ++ itoa limit)
                      errMaxStreamsNotIncreased), s)
      else
        let s := set_maxStreams limit s in
        let s := set_blockedSent false s in
        s ← maybeUnblockOpenSync s; Some (None, s)
  end.

(** The first component lists the streams on which [closeWithSession(err)] is
    called. *)
Definition CloseSession (err : error) (s : outgoingStreamsMap)
  : option (list T * outgoingStreamsMap) :=
  match o_closeErr s with
  | Some _ => Some ([], s)
  | None =>
      let s := set_closeErr (Some err) s in
      let s := set_cancelled (list_to_set (map_to_list (o_streamCtxs s)).*2 ∪ o_cancelled s) s in
      s ← foldr (fun c s => s ≫= closeChan c) (Some s) (o_openQueue s);
      let s := set_openQueue [] s in
      Some ((map_to_list (default ∅ (o_m s))).*2, set_m None s)
  end.

(** ** [OpenStreamSync] and [waitForStreamLimit]

    The method is cut where it releases and takes the mutex. [waitResult] says
    where a piece of [waitForStreamLimit] ends. *)

Inductive waitResult : Type :=
(** it returns, with the mutex held *)
| WReturn (err : option error)
(** it releases the mutex to call [queueBlocked] *)
| WBlocked (maxStreams : Z)
(** it releases the mutex and waits in the [select] *)
| WSelect.

(** [ctxErr] is [ctx.Err()]. From the beginning; goroutine [t] makes [waitChan]. *)
Definition waitStart (t : nat) (ctxErr : option error) (s : outgoingStreamsMap)
  : waitResult * outgoingStreamsMap :=
  match ctxErr with
  | Some err => (WReturn (Some err), s)
  | None =>
      if decide (o_openQueue s = [] /\ o_numStreams s < o_maxStreams s) then
        (WReturn None, set_numStreams (u64 (o_numStreams s + 1)) s)
      else
        let s := set_openQueue (o_openQueue s ++ [t]) s in
        if decide (o_maxStreams s <= o_numStreams s /\ o_blockedSent s = false) then
          (WBlocked (o_maxStreams s), set_blockedSent true s)
        else (WSelect, s)
  end.

(** After the first call of [queueBlocked]. *)
Definition waitAfterBlocked (s : outgoingStreamsMap) : waitResult :=
  match o_closeErr s with
  | Some closeErr => WReturn (Some closeErr)
  | None => WSelect
  end.

(** The case [<-ctx.Done()] of the [select]. *)
Definition waitCtxDone (t : nat) (s : outgoingStreamsMap) : option outgoingStreamsMap :=
  maybeUnblockOpenSync (deleteChan t s).

(** After the case [<-waitChan] of the [select]. *)
Definition waitWoken (t : nat) (ctxErr : option error) (s : outgoingStreamsMap)
  : option (waitResult * outgoingStreamsMap) :=
  match o_closeErr s with
  | Some closeErr => Some (WReturn (Some closeErr), s)
  | None =>
      match ctxErr with
      | Some err =>
          s ← maybeUnblockOpenSync (deleteChan t s);
          Some (WReturn (Some err), s)
      | None =>
          let s := set_numStreams (u64 (o_numStreams s + 1)) s in
          match o_openQueue s with
          | [] => None
          | _ :: q =>
              let s := set_openQueue q s in
              if decide ((0 < length (o_openQueue s))%nat /\
                         o_maxStreams s <= o_numStreams s) then
                if o_blockedSent s then Some (WReturn None, s)
                else Some (WBlocked (o_maxStreams s), set_blockedSent true s)
              else
                s ← maybeUnblockOpenSync s;
                Some (WReturn None, s)
          end
      end
  end.

(** After the second call of [queueBlocked]. *)
Definition waitAfterBlocked2 (s : outgoingStreamsMap) : waitResult :=
  match o_closeErr s with
  | Some closeErr => WReturn (Some closeErr)
  | None => WReturn None
  end.

(** [id] is the random number that is finally used: the [goto] loop draws until
    it finds one that is not taken. *)
Definition addStreamCtxCancel (id : Z) (cancel : nat) (s : outgoingStreamsMap)
  : option outgoingStreamsMap :=
  match o_streamCtxs s !! id with
  | Some _ => None
  | None => Some (set_streamCtxs (<[id := cancel]> (o_streamCtxs s)) s)
  end.

(** [OpenStreamSync] up to the point where it first releases the mutex. *)
Definition OpenStreamSyncStart (t : nat) (ctxErr : option error) (s : outgoingStreamsMap)
  : waitResult * outgoingStreamsMap :=
  match o_closeErr s with
  | Some closeErr => (WReturn (Some closeErr), s)
  | None => waitStart t ctxErr s
  end.

(** [OpenStreamSync] after [openStreamSync] has returned [r]; a callback that
    fails returns [invalidStreamID]. The second component lists the streams on
    which [closeWithSession(s.closeErr)] is called. *)
Definition OpenStreamSyncFinish (id : Z) (r : result error (T * Z)) (s : outgoingStreamsMap)
  : option (result error T * list T * outgoingStreamsMap) :=
  let s := set_streamCtxs (delete id (o_streamCtxs s)) s in
  match r, o_closeErr s with
  | Ok (v, streamID), Some closeErr => Some (Err closeErr, [v], s)
  | Err err, Some closeErr => Some (Err closeErr, [], s)
  | Err err, None =>
      let s := set_numStreams (u64 (o_numStreams s - 1)) s in
      s ← maybeUnblockOpenSync s;
      Some (Err err, [], s)
  | Ok (v, streamID), None =>
      s ← insertStream streamID v s; Some (Ok v, [], s)
  end.

End outgoing.

Arguments outgoingStreamsMap : clear implicits.

(** ** What waking the next goroutine changes *)

Lemma unblock_fields {T} (s s' : outgoingStreamsMap T) : maybeUnblockOpenSync s = Some s' ->
  exists b, s' = set_chanBuf b s.
Proof.
  unfold maybeUnblockOpenSync. assert (s = set_chanBuf (o_chanBuf s) s) by by destruct s.
  repeat case_match; intros [= <-]; eauto.
Qed.

Ltac unblocked :=
  repeat match goal with H : maybeUnblockOpenSync _ = Some _ |- _ =>
    apply unblock_fields in H as [? ->] end.
