(* ===== verification/OutgoingStreamsSafety.v ===== *)
(** * The goroutines that open streams: a step relation and its invariants

    [OutgoingStreams] gives the critical sections of [outgoingStreamsMap]; here
    any number of goroutines call [OpenStream] and [OpenStreamSync], while
    streams are removed, the limit is updated, contexts are cancelled and the
    session is closed, interleaved in every possible way at the points where
    the mutex is not held. *)

From S2P Require Import Prelude Errors Quicvarint Protocol OutgoingStreams.

Section concurrent.
Context {T : Type}.

(** ** Goroutines *)

(** Where a goroutine is between two critical sections. *)
Inductive pc : Type :=
(** [OpenStream] has released the mutex and calls [queueBlocked] *)
| PBlocked0 (limit : Z)
(** [waitForStreamLimit] calls [queueBlocked] for the first time, then relocks *)
| PBlocked1 (limit : Z)
| PRelock1
(** in the [select] *)
| PWaiting
(** has received from [ctx.Done()], [waitChan] respectively, and relocks *)
| PCancelled
| PWoken
(** calls [queueBlocked] for the second time, then relocks *)
| PBlocked2 (limit : Z)
| PRelock2
(** in [openStreamSync]; has returned from it and relocks *)
| POpening (id : Z)
| POpened (id : Z) (r : result error (T * Z))
(** the method has returned *)
| PDone (r : result error T).

(** The state of the map, the goroutines, and a record of what happened. *)
Record world := mkWorld {
  w_s : outgoingStreamsMap T;
  w_threads : gmap nat pc;
  (** the contexts of the callers that have ended *)
  w_ctxErr : gmap nat error;
  (** the calls of [queueBlocked] *)
  w_blocked : list Z;
  (** the streams returned to callers *)
  w_opened : list (T * Z);
  (** the streams closed with the session *)
  w_closed : list T;
  (** the stream IDs that were removed, and those that QUIC has used *)
  w_removed : gset Z;
  w_ids : gset Z;
}.

Definition newWorld (maxStreams : Z) : world :=
  mkWorld (newOutgoingStreamsMap maxStreams) ∅ ∅ [] [] [] ∅ ∅.

(** Where a goroutine goes from the end of a piece of [waitForStreamLimit];
    [blocked] is the call of [queueBlocked] it may be at, [id] the number that
    [addStreamCtxCancel] uses. *)
Definition resume (t : nat) (id : Z) (blocked : Z -> pc) (r : waitResult)
    (s : outgoingStreamsMap T) : option (pc * outgoingStreamsMap T) :=
  match r with
  | WReturn (Some err) => Some (PDone (Err err), s)
  | WReturn None => s ← addStreamCtxCancel id t s; Some (POpening id, s)
  | WBlocked limit => Some (blocked limit, s)
  | WSelect => Some (PWaiting, s)
  end.

(** The next critical section of a goroutine that waits for the mutex. *)
Definition critical (t : nat) (id : Z) (ctxErr : option error) (p : pc)
    (s : outgoingStreamsMap T) : option (pc * list T * outgoingStreamsMap T) :=
  match p with
  | PRelock1 =>
      '(p, s) ← resume t id PBlocked1 (waitAfterBlocked s) s; Some (p, [], s)
  | PCancelled =>
      s ← waitCtxDone t s; Some (PDone (Err (default ErrCanceled ctxErr)), [], s)
  | PWoken =>
      '(r, s) ← waitWoken t ctxErr s;
      '(p, s) ← resume t id PBlocked2 r s; Some (p, [], s)
  | PRelock2 =>
      '(p, s) ← resume t id PBlocked2 (waitAfterBlocked2 s) s; Some (p, [], s)
  | POpened id r =>
      '(r, closed, s) ← OpenStreamSyncFinish id r s; Some (PDone r, closed, s)
  | p => Some (p, [], s)
  end.

Definition wants_lock (p : pc) : bool :=
  match p with
  | PRelock1 | PCancelled | PWoken | PRelock2 | POpened _ _ => true
  | _ => false
  end.

(** The call of [queueBlocked] that a goroutine is about to make, and where it
    continues. *)
Definition pending_blocked (p : pc) : option Z :=
  match p with
  | PBlocked0 l | PBlocked1 l | PBlocked2 l => Some l
  | _ => None
  end.

Definition after_blocked (p : pc) : pc :=
  match p with
  | PBlocked0 _ => PDone (Err ErrStreamLimitReached)
  | PBlocked1 _ => PRelock1
  | PBlocked2 _ => PRelock2
  | p => p
  end.

(** The streams that a call returns to its caller, given what QUIC returned. *)
Definition newly_opened (o : result error (T * Z)) (r : result error T) : list (T * Z) :=
  match o, r with Ok vid, Ok _ => [vid] | _, _ => [] end.

(** What [openStreamSync] returned to the goroutine. *)
Definition from_QUIC (p : pc) : result error (T * Z) :=
  match p with POpened _ o => o | _ => Err ErrEOF end.

(** The stream IDs of QUIC are never reused. *)
Definition fresh_stream (w : world) (o : result error (T * Z)) : Prop :=
  match o with Ok (_, id) => id ∉ w_ids w | Err _ => True end.

Definition used_ids (o : result error (T * Z)) : gset Z :=
  match o with Ok (_, id) => {[id]} | Err _ => ∅ end.

Definition goto (t : nat) (p : pc) (w : world) : gmap nat pc := <[t := p]> (w_threads w).

Inductive step : world -> world -> Prop :=
| step_OpenStream w t o r b s :
    w_threads w !! t = None -> fresh_stream w o ->
    OpenStream o (w_s w) = Some (r, b, s) ->
    step w (mkWorld s (goto t (match b with Some l => PBlocked0 l | None => PDone r end) w)
      (w_ctxErr w) (w_blocked w) (w_opened w ++ newly_opened o r) (w_closed w)
      (w_removed w) (used_ids o ∪ w_ids w))
| step_OpenStreamSync w t id p s :
    w_threads w !! t = None -> o_streamCtxs (w_s w) !! id = None ->
    (let '(r, s') := OpenStreamSyncStart t (w_ctxErr w !! t) (w_s w) in
     resume t id PBlocked1 r s') = Some (p, s) ->
    step w (mkWorld s (goto t p w) (w_ctxErr w) (w_blocked w) (w_opened w) (w_closed w)
      (w_removed w) (w_ids w))
| step_queueBlocked w t p l :
    w_threads w !! t = Some p -> pending_blocked p = Some l ->
    step w (mkWorld (w_s w) (goto t (after_blocked p) w) (w_ctxErr w) (w_blocked w ++ [l])
      (w_opened w) (w_closed w) (w_removed w) (w_ids w))
| step_ctxDone w t err :
    w_threads w !! t = Some PWaiting -> w_ctxErr w !! t = Some err ->
    step w (mkWorld (w_s w) (goto t PCancelled w) (w_ctxErr w) (w_blocked w)
      (w_opened w) (w_closed w) (w_removed w) (w_ids w))
| step_receive w t :
    w_threads w !! t = Some PWaiting -> t ∈ o_chanBuf (w_s w) ->
    step w (mkWorld (set_chanBuf (o_chanBuf (w_s w) ∖ {[t]}) (w_s w)) (goto t PWoken w)
      (w_ctxErr w) (w_blocked w) (w_opened w) (w_closed w) (w_removed w) (w_ids w))
| step_receiveClosed w t :
    w_threads w !! t = Some PWaiting -> t ∈ o_chanClosed (w_s w) ->
    step w (mkWorld (w_s w) (goto t PWoken w) (w_ctxErr w) (w_blocked w)
      (w_opened w) (w_closed w) (w_removed w) (w_ids w))
| step_critical w t id p p' closed s :
    w_threads w !! t = Some p -> wants_lock p = true ->
    o_streamCtxs (w_s w) !! id = None ->
    critical t id (w_ctxErr w !! t) p (w_s w) = Some (p', closed, s) ->
    step w (mkWorld s (goto t p' w) (w_ctxErr w) (w_blocked w)
      (w_opened w ++ match p' with PDone r => newly_opened (from_QUIC p) r | _ => [] end)
      (w_closed w ++ closed) (w_removed w) (w_ids w))
| step_openStreamSync w t id o :
    w_threads w !! t = Some (POpening id) -> fresh_stream w o ->
    step w (mkWorld (w_s w) (goto t (POpened id o) w) (w_ctxErr w) (w_blocked w)
      (w_opened w) (w_closed w) (w_removed w) (used_ids o ∪ w_ids w))
| step_UpdateStreamLimit w limit e s :
    0 <= limit < 2 ^ 64 -> UpdateStreamLimit limit (w_s w) = Some (e, s) ->
    step w (mkWorld s (w_threads w) (w_ctxErr w) (w_blocked w)
      (w_opened w) (w_closed w) (w_removed w) (w_ids w))
| step_CloseSession w err closed s :
    CloseSession err (w_s w) = Some (closed, s) ->
    step w (mkWorld s (w_threads w) (w_ctxErr w) (w_blocked w)
      (w_opened w) (w_closed w ++ closed) (w_removed w) (w_ids w))
| step_removeStream w id :
    step w (mkWorld (removeStream id (w_s w)) (w_threads w) (w_ctxErr w) (w_blocked w)
      (w_opened w) (w_closed w) ({[id]} ∪ w_removed w) (w_ids w))
| step_cancel w t err :
    w_ctxErr w !! t = None ->
    step w (mkWorld (w_s w) (w_threads w) (<[t := err]> (w_ctxErr w)) (w_blocked w)
      (w_opened w) (w_closed w) (w_removed w) (w_ids w)).

Definition reachable (m : Z) (w : world) : Prop := rtc step (newWorld m) w.

(** ** Classification of goroutines *)

(** The goroutine is in [openQueue]. *)
Definition queued (p : pc) : bool :=
  match p with PBlocked1 _ | PRelock1 | PWaiting | PCancelled | PWoken => true | _ => false end.

(** The goroutine holds one unit of [numStreams] for a stream that it has not
    returned yet. *)
Definition reserved (p : pc) : bool :=
  match p with PBlocked2 _ | PRelock2 | POpening _ | POpened _ _ => true | _ => false end.

Definition nreserved (th : gmap nat pc) : nat :=
  size (filter (fun tp => reserved tp.2 = true) th).

(** The critical sections that a Go panic would interrupt. *)
Inductive panics (w : world) : Prop :=
| panics_OpenStream o : OpenStream o (w_s w) = None -> panics w
| panics_critical t id p :
    w_threads w !! t = Some p -> wants_lock p = true -> o_streamCtxs (w_s w) !! id = None ->
    critical t id (w_ctxErr w !! t) p (w_s w) = None -> panics w
| panics_UpdateStreamLimit limit : UpdateStreamLimit limit (w_s w) = None -> panics w
| panics_CloseSession err : CloseSession err (w_s w) = None -> panics w.

(** A goroutine that can make a step of its own, without waiting for another
    goroutine or for QUIC. *)
Definition runnable (w : world) (t : nat) : Prop :=
  exists p, w_threads w !! t = Some p /\
    (wants_lock p = true \/ is_Some (pending_blocked p) \/
     p = PWaiting /\ (t ∈ o_chanBuf (w_s w) \/ t ∈ o_chanClosed (w_s w))).

(** ** The invariant

    [thread_ok] relates one goroutine to the state of the map, [pre] collects
    what holds at any time while the mutex is held, and [wake] is what
    [maybeUnblockOpenSync] restores: the first goroutine of the queue has been
    told that it can open its stream. [n] counts the opened streams. *)

Definition ctx_id (p : pc) : option Z :=
  match p with POpening id | POpened id _ => Some id | _ => None end.

Definition token (s : outgoingStreamsMap T) (t : nat) (p : pc) : Prop :=
  t ∈ o_chanBuf s \/ p = PWoken.

Record thread_ok (s : outgoingStreamsMap T) (t : nat) (p : pc) : Prop := mkThreadOk {
  ok_queue : o_closeErr s = None -> queued p = true <-> t ∈ o_openQueue s;
  ok_token : o_closeErr s = None -> queued p = true -> token s t p ->
    head (o_openQueue s) = Some t /\ o_numStreams s < o_maxStreams s;
  ok_closed : o_closeErr s <> None -> p = PWaiting -> t ∈ o_chanClosed s;
  ok_ctx : forall id, ctx_id p = Some id -> o_streamCtxs s !! id = Some t;
  ok_cancelled : o_closeErr s <> None -> forall id, p = POpening id -> t ∈ o_cancelled s;
}.

Record pre (s : outgoingStreamsMap T) (th : gmap nat pc) (n : Z) : Prop := mkPre {
  pre_num : 0 <= n <= o_numStreams s /\ o_numStreams s <= o_maxStreams s < 2 ^ 64;
  pre_count : o_closeErr s = None -> o_numStreams s = n + Z.of_nat (nreserved th);
  pre_open : o_closeErr s = None ->
    NoDup (o_openQueue s) /\ o_chanClosed s = ∅ /\ is_Some (o_m s);
  pre_closed : o_closeErr s <> None -> o_openQueue s = [] /\ o_m s = None;
  pre_dom : forall t, t ∈ o_openQueue s \/ t ∈ o_chanBuf s -> is_Some (th !! t);
  pre_thread : forall t p, th !! t = Some p -> thread_ok s t p;
}.

Definition wake (s : outgoingStreamsMap T) (th : gmap nat pc) : Prop :=
  o_closeErr s = None -> forall t, head (o_openQueue s) = Some t ->
  o_numStreams s < o_maxStreams s -> t ∈ o_chanBuf s \/ th !! t = Some PWoken.

Definition inv (s : outgoingStreamsMap T) (th : gmap nat pc) (n : Z) : Prop :=
  pre s th n /\ wake s th.

(** ** Lemmas: counting *)

Definition reserved_at (th : gmap nat pc) (t : nat) : bool :=
  match th !! t with Some p => reserved p | None => false end.

Lemma nreserved_insert th t p :
  (nreserved (<[t := p]> th) + Nat.b2n (reserved_at th t) =
   nreserved th + Nat.b2n (reserved p))%nat.
Proof.
  unfold nreserved, reserved_at.
  assert (forall p0, th !! t = Some p0 ->
    filter (fun tp : nat * pc => reserved tp.2 = true) th !! t =
    if reserved p0 then Some p0 else None) as Hlk.
  { intros p0 Hp0. destruct (reserved p0) eqn:E.
    - by apply map_lookup_filter_Some.
    - apply map_lookup_filter_None. right. intros ? [= <-]%(fun H => eq_trans (eq_sym Hp0) H).
      simpl. by rewrite E. }
  assert (th !! t = None -> filter (fun tp : nat * pc => reserved tp.2 = true) th !! t = None)
    as Hlk'. { intros. apply map_lookup_filter_None. by left. }
  destruct (reserved p) eqn:Ep.
  - rewrite map_filter_insert_True by done. rewrite map_size_insert.
    destruct (th !! t) as [p0|] eqn:E; [|rewrite Hlk' by done; simpl; lia].
    rewrite (Hlk p0) by done. destruct (reserved p0) eqn:E0; simpl; [|lia].
    lia.
  - rewrite map_filter_insert_False by (simpl; by rewrite Ep).
    rewrite map_filter_delete, map_size_delete.
    destruct (th !! t) as [p0|] eqn:E; [|rewrite Hlk' by done; simpl; lia].
    rewrite (Hlk p0) by done. destruct (reserved p0) eqn:E0; simpl; [|lia].
    assert (size (filter (fun tp : nat * pc => reserved tp.2 = true) th) <> 0%nat); [|lia].
    rewrite map_size_ne_0_lookup. exists t. rewrite (Hlk p0), E0 by done. eauto.
Qed.

(** ** Lemmas: waking the next goroutine *)

Lemma unblock_ok s th n : pre s th n ->
  exists b, maybeUnblockOpenSync s = Some (set_chanBuf b s) /\ inv (set_chanBuf b s) th n.
Proof.
  intros [Hnum Hcnt Hopen Hclosed Hdom Hth]. unfold maybeUnblockOpenSync.
  assert (s = set_chanBuf (o_chanBuf s) s) as Hs by by destruct s.
  destruct (o_openQueue s) as [|c q] eqn:Eq.
  { exists (o_chanBuf s). rewrite <- Hs. split; [done|]. split; [by constructor; rewrite ?Eq|].
    intros _ t. by rewrite Eq. }
  case_decide as Hlt.
  { exists (o_chanBuf s). rewrite <- Hs. split; [done|]. split; [by constructor; rewrite ?Eq|].
    intros _ t. lia. }
  destruct (o_closeErr s) eqn:Ec. { by destruct Hclosed. }
  destruct Hopen as (Hnd & Hcl & Hm); [done|]. rewrite Hcl.
  rewrite decide_False by set_solver.
  exists ({[c]} ∪ o_chanBuf s). split; [done|]. split.
  2: { intros _ t. simpl. rewrite Eq. intros [= ->] _. set_solver. }
  constructor; cbn; rewrite ?Ec, ?Eq; try done.
  - intros t [?|[->%elem_of_singleton|?]%elem_of_union]; apply Hdom; set_solver.
  - intros t p Hp. destruct (Hth t p Hp) as [H1 H2 H3 H4 H5]. rewrite Ec, Eq in *.
    constructor; unfold token in *; cbn; rewrite ?Ec, ?Eq; try done.
    intros _ Hq [[->%elem_of_singleton|?]%elem_of_union| ->].
    + split; [done|lia].
    + apply H2; [done..|by left].
    + apply H2; [done..|by right].
Qed.

(** ** Lemmas: elementary changes of the state *)

Lemma open_dec (s : outgoingStreamsMap T) : o_closeErr s = None \/ o_closeErr s <> None.
Proof. destruct (o_closeErr s); auto. Qed.

Lemma reserved_at_Some th t p : th !! t = Some p -> reserved_at th t = reserved p.
Proof. unfold reserved_at. by intros ->. Qed.

Lemma reserved_at_None th t : th !! t = None -> reserved_at th t = false.
Proof. unfold reserved_at. by intros ->. Qed.

Lemma reserved_count th t : reserved_at th t = true -> (0 < nreserved th)%nat.
Proof.
  intros H. pose proof (nreserved_insert th t (PDone (Err ErrEOF))) as E.
  rewrite H in E. simpl in E. lia.
Qed.

Lemma pre_goto s th n t p : pre s th n -> thread_ok s t p ->
  (o_closeErr s = None -> reserved_at th t = reserved p) -> pre s (<[t := p]> th) n.
Proof.
  intros [Hnum Hcnt Hopen Hclosed Hdom Hth] Hp Hr. constructor; try done.
  - intros Ho. specialize (Hcnt Ho). specialize (Hr Ho).
    pose proof (nreserved_insert th t p). rewrite Hr in *. lia.
  - intros t' H'. apply lookup_insert_is_Some'. right. auto.
  - intros t' p' [[<- <-]|[? ?]]%lookup_insert_Some; auto.
Qed.

Lemma wake_goto s th t p : wake s th ->
  (o_closeErr s = None -> th !! t <> Some PWoken) -> wake s (<[t := p]> th).
Proof.
  intros Hw Hn Ho t' Hh Hlt. destruct (Hw Ho t' Hh Hlt) as [?|E]; [by left|].
  right. rewrite lookup_insert_ne; [done|]. intros ->. by apply Hn.
Qed.

Lemma inv_goto s th n t p : inv s th n -> thread_ok s t p ->
  (o_closeErr s = None -> reserved_at th t = reserved p /\ th !! t <> Some PWoken) ->
  inv s (<[t := p]> th) n.
Proof.
  intros [Hp Hw] Hok H. split; [apply pre_goto|apply wake_goto]; naive_solver.
Qed.

(** The fields that the invariant does not mention. *)
Lemma thread_ok_m m s t p : thread_ok s t p -> thread_ok (set_m m s) t p.
Proof. intros []; by constructor. Qed.

Lemma thread_ok_blockedSent b s t p : thread_ok s t p -> thread_ok (set_blockedSent b s) t p.
Proof. intros []; by constructor. Qed.

Lemma inv_m m s th n : inv s th n -> (o_closeErr s = None -> is_Some m) ->
  (o_closeErr s <> None -> m = None) -> inv (set_m m s) th n.
Proof.
  intros [[Hnum Hcnt Hopen Hclosed Hdom Hth] Hw] H1 H2. split; [|done]. constructor; try done.
  - intros Ho. destruct (Hopen Ho) as (? & ? & _). split_and!; auto.
  - intros Ho. destruct (Hclosed Ho) as (? & _). split_and!; auto.
  - intros. by apply thread_ok_m, Hth.
Qed.

Lemma pre_blockedSent b s th n : pre s th n -> pre (set_blockedSent b s) th n.
Proof. intros []. constructor; try done. intros. apply thread_ok_blockedSent; auto. Qed.

Lemma inv_blockedSent b s th n : inv s th n -> inv (set_blockedSent b s) th n.
Proof. intros [? ?]. split; [by apply pre_blockedSent|done]. Qed.

(** A goroutine takes a unit of the limit: on the fast path, or as the first of
    the queue. *)
Lemma pre_reserve s th n t p q : pre s th n -> o_closeErr s = None ->
  o_numStreams s < o_maxStreams s ->
  reserved p = true -> queued p = false -> ctx_id p = None -> reserved_at th t = false ->
  o_openQueue s = [] /\ q = [] \/ o_openQueue s = t :: q ->
  pre (set_numStreams (u64 (o_numStreams s + 1)) (set_openQueue q s)) (<[t := p]> th) n.
Proof.
  intros [Hnum Hcnt Hopen Hclosed Hdom Hth] Ho Hlt Hr Hqd Hctx Hat Hq.
  rewrite u64_id by lia. pose proof (Hopen Ho) as (Hnd & Hcl & Hm).
  pose proof (nreserved_insert th t p) as Hcard. rewrite Hat, Hr in Hcard. simpl in Hcard.
  assert (forall t', t' ∈ q -> t' ∈ o_openQueue s /\ t' <> t) as Hsub.
  { destruct Hq as [[_ ->]|Eq]; [set_solver|]. rewrite Eq in *.
    apply NoDup_cons in Hnd as [? ?]. intros t' ?. split; set_solver. }
  specialize (Hcnt Ho). constructor; cbn; try done; try lia.
  - intros _. split_and!; try done. destruct Hq as [[_ ->]|Eq]; [constructor|].
    rewrite Eq in Hnd. by apply NoDup_cons in Hnd as [_ ?].
  - intros t' H'. apply lookup_insert_is_Some'. right. apply Hdom. naive_solver.
  - intros t' p' [[<- <-]|[Hne H']]%lookup_insert_Some.
    + constructor; cbn; rewrite ?Hqd, ?Hctx; try done. intros _. naive_solver.
    + destruct (Hth t' p' H') as [H1 H2 H3 H4 H5]. constructor; cbn; try done.
      * intros _. rewrite H1 by done. split; [|naive_solver].
        destruct Hq as [[Eq ->]|Eq]; rewrite Eq; set_solver.
      * intros _ Hqd' Htok. destruct (H2 Ho Hqd' Htok) as [Hh _].
        destruct Hq as [[Eq ->]|Eq]; rewrite Eq in Hh; naive_solver.
Qed.

(** ... and registers the cancel function of its derived context. *)
Lemma inv_ctx s th n t id p : inv s th n -> o_closeErr s = None -> th !! t = Some p ->
  reserved p = true -> queued p = false -> o_streamCtxs s !! id = None ->
  inv (set_streamCtxs (<[id := t]> (o_streamCtxs s)) s) (<[t := POpening id]> th) n.
Proof.
  intros [Hp Hw] Ho Hth Hr Hqd Hid.
  assert (forall t' p', thread_ok s t' p' ->
    thread_ok (set_streamCtxs (<[id := t]> (o_streamCtxs s)) s) t' p') as Hframe.
  { intros t' p' [H1 H2 H3 H4 H5]. constructor; try done. intros id' E. cbn.
    rewrite lookup_insert_ne; [auto|]. intros ->. rewrite (H4 _ E) in Hid. done. }
  split.
  - apply pre_goto.
    + destruct Hp. constructor; try done. auto.
    + destruct (pre_thread _ _ _ Hp _ _ Hth) as [H1 H2 H3 H4 H5]. constructor; cbn; try done.
      * intros _. rewrite <- H1, Hqd by done. done.
      * intros ? [= <-]. by rewrite lookup_insert_eq.
    + intros _. by rewrite (reserved_at_Some _ _ _ Hth).
  - apply wake_goto; [done|]. intros _ E. rewrite Hth in E. by injection E as ->.
Qed.

(** It returns from [openStreamSync]: the cancel function is forgotten. *)
Lemma inv_unctx s th n t id r : inv s th n -> th !! t = Some (POpened id r) ->
  inv (set_streamCtxs (delete id (o_streamCtxs s)) s) (<[t := PRelock2]> th) n.
Proof.
  intros [Hp Hw] Hth. pose proof (pre_thread _ _ _ Hp _ _ Hth) as [H1 H2 H3 H4 H5].
  split; [|apply wake_goto; [done|congruence]].
  pose proof Hp as [Hnum Hcnt Hopen Hclosed Hdom Hths]. constructor; try done.
  - intros Ho. pose proof (nreserved_insert th t PRelock2) as E.
    rewrite (reserved_at_Some _ _ _ Hth) in E. simpl in E. cbn. rewrite Hcnt by done. lia.
  - intros t' H'. apply lookup_insert_is_Some'. right. auto.
  - intros t' p' [[<- <-]|[Hne H']]%lookup_insert_Some.
    + constructor; cbn; try done.
    + destruct (Hths t' p' H') as [G1 G2 G3 G4 G5]. constructor; try done. intros id' E. cbn.
      rewrite lookup_delete_ne; [auto|]. intros ->. specialize (H4 _ eq_refl).
      rewrite (G4 _ E) in H4. congruence.
Qed.

(** It gives the unit back, or returns with the stream. *)
Lemma pre_unreserve s th n t p r : pre s th n -> o_closeErr s = None ->
  th !! t = Some p -> reserved p = true -> queued p = false ->
  pre (set_numStreams (u64 (o_numStreams s - 1)) s) (<[t := PDone r]> th) n.
Proof.
  intros Hp Ho Hth Hr Hqd. pose proof Hp as [Hnum Hcnt Hopen Hclosed Hdom Hths].
  pose proof (reserved_at_Some _ _ _ Hth) as Hat. rewrite Hr in Hat.
  pose proof (nreserved_insert th t (PDone r)) as E. rewrite Hat in E. simpl in E.
  specialize (Hcnt Ho). rewrite u64_id by lia.
  constructor; cbn; try done; try lia.
  - intros t' H'. apply lookup_insert_is_Some'. right. auto.
  - intros t' p' [[<- <-]|[Hne H']]%lookup_insert_Some.
    + destruct (Hths _ _ Hth) as [H1 H2 H3 H4 H5]. constructor; cbn; try done.
      intros _. rewrite <- H1, Hqd by done. done.
    + destruct (Hths _ _ H') as [H1 H2 H3 H4 H5]. constructor; cbn; try done.
      intros _ Hq Htok. destruct (H2 Ho Hq Htok). split; [done|lia].
Qed.

Lemma inv_opened s th n t p r : inv s th n -> o_closeErr s = None ->
  th !! t = Some p -> reserved p = true -> queued p = false ->
  inv s (<[t := PDone r]> th) (n + 1).
Proof.
  intros [Hp Hw] Ho Hth Hr Hqd. pose proof Hp as [Hnum Hcnt Hopen Hclosed Hdom Hths].
  pose proof (reserved_at_Some _ _ _ Hth) as Hat. rewrite Hr in Hat.
  pose proof (nreserved_insert th t (PDone r)) as E. rewrite Hat in E. simpl in E.
  specialize (Hcnt Ho). split.
  2: { apply wake_goto; [done|]. intros _ E'. rewrite Hth in E'. by injection E' as ->. }
  constructor; try done; try lia.
  - intros t' H'. apply lookup_insert_is_Some'. right. auto.
  - intros t' p' [[<- <-]|[Hne H']]%lookup_insert_Some; [|auto].
    destruct (Hths _ _ Hth) as [H1 H2 H3 H4 H5]. constructor; cbn; try done.
    intros _. rewrite <- H1, Hqd by done. done.
Qed.

(** A goroutine joins the queue. *)
Lemma inv_enqueue s th n t p : inv s th n -> o_closeErr s = None -> th !! t = None ->
  queued p = true -> reserved p = false -> ctx_id p = None -> p <> PWoken ->
  o_openQueue s <> [] \/ o_maxStreams s <= o_numStreams s ->
  inv (set_openQueue (o_openQueue s ++ [t]) s) (<[t := p]> th) n.
Proof.
  intros [[Hnum Hcnt Hopen Hclosed Hdom Hths] Hw] Ho Hth Hqd Hr Hctx Hpw Hq.
  assert ((t ∉ o_openQueue s) /\ (t ∉ o_chanBuf s)) as [Hnq Hnb].
  { split; intros H'; destruct (Hdom t) as [? ?]; tauto || congruence. }
  pose proof (Hopen Ho) as (Hnd & Hcl & Hm).
  pose proof (nreserved_insert th t p) as E. rewrite reserved_at_None, Hr in E by done.
  simpl in E. specialize (Hcnt Ho). split.
  - constructor; cbn; try done; try lia.
    + intros _. split_and!; try done. apply NoDup_app. split_and!; [done|set_solver|].
      apply NoDup_singleton.
    + intros t'. rewrite elem_of_app, list_elem_of_singleton. intros H'.
      apply lookup_insert_is_Some'. destruct H' as [[?| ->]|?]; [right; auto|by left|right; auto].
    + intros t' p' [[<- <-]|[Hne H']]%lookup_insert_Some.
      * constructor; cbn; try done; [|intros _ _ [?| ->]; done|by rewrite Hctx].
        rewrite Hqd, elem_of_app, list_elem_of_singleton. intros _. split; auto.
      * destruct (Hths _ _ H') as [H1 H2 H3 H4 H5]. constructor; cbn; try done.
        -- intros _. rewrite H1, elem_of_app, list_elem_of_singleton by done.
           split; [by left|]. by intros [?| ->].
        -- intros _ Hq' Htok. destruct (H2 Ho Hq' Htok) as [Hh ?]. split; [|done].
           by destruct (o_openQueue s).
  - intros _ t' Hh Hlt. cbn in *. destruct Hq as [Hq|?]; [|lia].
    assert (head (o_openQueue s) = Some t') as Hh' by by destruct (o_openQueue s).
    destruct (Hw Ho t' Hh' Hlt) as [?|E']; [by left|right].
    rewrite lookup_insert_ne; [done|]. congruence.
Qed.

(** It leaves the queue without a stream. *)
Lemma pre_deleteChan s th n t p r : pre s th n -> th !! t = Some p -> queued p = true ->
  pre (deleteChan t s) (<[t := PDone r]> th) n.
Proof.
  intros Hp Hth Hqd. pose proof Hp as [Hnum Hcnt Hopen Hclosed Hdom Hths].
  assert (forall t', t' ∈ filter (fun c' => c' <> t) (o_openQueue s) <->
    t' ∈ o_openQueue s /\ t' <> t) as Hf.
  { intros t'. rewrite list_elem_of_filter. tauto. }
  constructor; unfold deleteChan; cbn; try done.
  - intros Ho. pose proof (nreserved_insert th t (PDone r)) as E.
    rewrite (reserved_at_Some _ _ _ Hth) in E. destruct p; simpl in *; try done; rewrite Hcnt by done; lia.
  - intros Ho. destruct (Hopen Ho) as (? & ? & ?). split_and!; try done. by apply NoDup_filter.
  - intros Ho. destruct (Hclosed Ho) as [-> ?]. done.
  - intros t' H'. apply lookup_insert_is_Some'. right. apply Hdom. rewrite Hf in H'. tauto.
  - intros t' p' [[<- <-]|[Hne H']]%lookup_insert_Some.
    + constructor; cbn; try done. intros _. rewrite Hf. naive_solver.
    + destruct (Hths _ _ H') as [H1 H2 H3 H4 H5]. constructor; cbn; try done.
      * intros Ho. rewrite Hf, H1 by done. naive_solver.
      * intros Ho Hq Htok. destruct (H2 Ho Hq Htok) as [Hh ?]. split; [|done].
        destruct (o_openQueue s) as [|c q]; [done|]. simpl in Hh. injection Hh as ->.
        rewrite filter_cons_True by done. done.
Qed.

(** It receives from its channel. *)
Lemma inv_receive s th n t : inv s th n -> th !! t = Some PWaiting -> t ∈ o_chanBuf s ->
  inv (set_chanBuf (o_chanBuf s ∖ {[t]}) s) (<[t := PWoken]> th) n.
Proof.
  intros [Hp Hw] Hth Hb. pose proof Hp as [Hnum Hcnt Hopen Hclosed Hdom Hths]. split.
  - constructor; cbn; try done.
    + intros Ho. pose proof (nreserved_insert th t PWoken) as E.
      rewrite (reserved_at_Some _ _ _ Hth) in E. simpl in E. rewrite Hcnt by done. lia.
    + intros t' H'. apply lookup_insert_is_Some'. right. apply Hdom. set_solver.
    + intros t' p' [[<- <-]|[Hne H']]%lookup_insert_Some.
      * destruct (Hths _ _ Hth) as [H1 H2 H3 H4 H5]. constructor; cbn; try done.
        intros Ho _ _. apply H2; [done..|by left].
      * destruct (Hths _ _ H') as [H1 H2 H3 H4 H5]. constructor; cbn; try done.
        intros Ho Hq Htok. apply H2; [done..|]. unfold token in *; cbn in *. set_solver.
  - intros Ho t' Hh Hlt. cbn. destruct (decide (t' = t)) as [->|?].
    + right. by rewrite lookup_insert_eq.
    + rewrite lookup_insert_ne by done. destruct (Hw Ho t' Hh Hlt); [left; set_solver|by right].
Qed.

(** The limit is raised. *)
Lemma pre_raise s th n limit : pre s th n -> o_maxStreams s < limit < 2 ^ 64 ->
  pre (set_blockedSent false (set_maxStreams limit s)) th n.
Proof.
  intros [Hnum Hcnt Hopen Hclosed Hdom Hths] Hl. apply pre_blockedSent.
  constructor; cbn; try done; try lia. intros t p Hth. destruct (Hths _ _ Hth) as [H1 H2 H3 H4 H5].
  constructor; cbn; try done. intros Ho Hq Htok. destruct (H2 Ho Hq Htok). split; [done|lia].
Qed.

Lemma closeChans_spec q (s : outgoingStreamsMap T) : NoDup q -> (forall c, c ∈ q -> c ∉ o_chanClosed s) ->
  foldr (fun c s => s ≫= closeChan c) (Some s) q =
  Some (set_chanClosed (list_to_set q ∪ o_chanClosed s) s).
Proof.
  induction q as [|c q IH]; intros Hnd Hc; simpl.
  { rewrite (left_id_L ∅ (∪)). by destruct s. }
  apply NoDup_cons in Hnd as [Hc' Hnd]. rewrite IH by (done || set_solver).
  unfold closeChan; simpl. rewrite decide_False.
  - f_equal. unfold set_chanClosed; simpl. f_equal. by rewrite (assoc_L (∪)).
  - rewrite elem_of_union, elem_of_list_to_set. intros [?|?]; [done|]. by apply (Hc c); [left|].
Qed.

(** ** Lemmas: every method preserves the invariant and does not panic *)

Lemma unblock_ensures s th n : pre s th n ->
  ensures (maybeUnblockOpenSync s) (fun s' => inv s' th n /\ exists b, s' = set_chanBuf b s).
Proof. intros (b & -> & ?)%unblock_ok. simpl. eauto. Qed.

Lemma inv_CloseSession s th n err : inv s th n ->
  ensures (CloseSession err s) (fun '(_, s') => inv s' th n).
Proof.
  intros Hinv. pose proof Hinv as [[Hnum Hcnt Hopen Hclosed Hdom Hths] Hw]. unfold CloseSession.
  destruct (o_closeErr s) eqn:Ho; [exact Hinv|].
  destruct Hopen as (Hnd & Hcl & Hm); [done|].
  rewrite closeChans_spec; [|done|cbn; rewrite Hcl; set_solver]. simpl.
  split; [|by intros [=]].
  constructor; cbn; try done. { intros t [?|?]; [set_solver|apply Hdom; by right]. }
  intros t p Hth. destruct (Hths _ _ Hth) as [H1 H2 H3 H4 H5]. constructor; cbn; try done.
  - intros _ ->. rewrite elem_of_union, elem_of_list_to_set. left. by apply H1.
  - intros _ id ->. rewrite elem_of_union, elem_of_list_to_set, list_elem_of_fmap. left.
    exists (id, t). split; [done|]. apply elem_of_map_to_list. by apply H4.
Qed.

Lemma inv_UpdateStreamLimit s th n limit : inv s th n -> limit < 2 ^ 64 ->
  ensures (UpdateStreamLimit limit s) (fun '(_, s') => inv s' th n).
Proof.
  intros [Hp Hw] Hl. unfold UpdateStreamLimit.
  destruct (o_closeErr s) eqn:Ho; [done|]. case_decide; [done|].
  eapply ensures_bind; [apply unblock_ensures, (pre_raise _ _ n); [done|lia]|]. by intros s' [? _].
Qed.

Lemma inv_removeStream s th n id : inv s th n -> inv (removeStream id s) th n.
Proof.
  intros Hinv. pose proof Hinv as [[Hnum Hcnt Hopen Hclosed Hdom Hths] Hw].
  apply inv_m; [done|..]; intros Ho.
  - destruct (Hopen Ho) as (_ & _ & [m ->]). eauto.
  - by destruct (Hclosed Ho) as [_ ->].
Qed.

Definition opened_by (o : result error (T * Z)) (r : result error T) : Z :=
  Z.of_nat (length (newly_opened o r)).

(** A goroutine that comes or goes without touching anything. *)
Lemma thread_ok_Done s th n t r : pre s th n ->
  (o_closeErr s = None -> t ∉ o_openQueue s) -> thread_ok s t (PDone r).
Proof. intros Hp Hq. constructor; try done. intros Ho. specialize (Hq Ho). split; done. Qed.

Lemma fresh_not_queued s th n t : pre s th n -> th !! t = None ->
  (t ∉ o_openQueue s) /\ (t ∉ o_chanBuf s).
Proof.
  intros Hp Hth. split; intros H'; (destruct (pre_dom _ _ _ Hp t) as [? ?]; [|congruence]); tauto.
Qed.

Lemma inv_idle s th n t p : inv s th n -> th !! t = None ->
  queued p = false -> reserved p = false -> ctx_id p = None -> p <> PWoken ->
  inv s (<[t := p]> th) n.
Proof.
  intros Hinv Hth Hq Hr Hc Hw. pose proof (fresh_not_queued _ _ _ _ (proj1 Hinv) Hth) as [? ?].
  apply inv_goto; [done| |].
  - constructor; rewrite ?Hq, ?Hc; try done; try (intros; subst; done). 
  - intros _. rewrite (reserved_at_None _ _ Hth). split; [done|congruence].
Qed.

Lemma inv_take s th n t r : inv s th n -> o_closeErr s = None -> o_openQueue s = [] ->
  o_numStreams s < o_maxStreams s -> th !! t = None ->
  inv (set_numStreams (u64 (o_numStreams s + 1)) s) (<[t := PRelock2]> th) n /\
  inv (set_numStreams (u64 (o_numStreams s + 1)) s) (<[t := PDone r]> th) (n + 1).
Proof.
  intros [Hp Hw] Ho Hq Hlt Hth.
  assert (inv (set_numStreams (u64 (o_numStreams s + 1)) s) (<[t := PRelock2]> th) n) as Hi.
  { split.
    - replace (set_numStreams _ s) with
        (set_numStreams (u64 (o_numStreams s + 1)) (set_openQueue [] s)).
      2: { rewrite <- Hq. by destruct s. }
      eapply pre_reserve; try done; [by apply reserved_at_None|by left].
    - intros _ t'. cbn. by rewrite Hq. }
  split; [done|]. rewrite <- (insert_insert_eq th t (PDone r) PRelock2).
  eapply inv_opened; [done|done|apply lookup_insert_eq|done..].
Qed.

Lemma inv_OpenStream s th n t o : inv s th n -> th !! t = None ->
  ensures (OpenStream o s) (fun '(r, b, s') =>
    inv s' (<[t := match b with Some l => PBlocked0 l | None => PDone r end]> th)
      (n + opened_by o r)).
Proof.
  intros Hinv Hth. unfold OpenStream, opened_by.
  assert (forall e l, inv s (<[t := match l with Some l => PBlocked0 l | None => PDone (Err e) end]> th) (n + 0))
    as Hid. { intros e l. rewrite Z.add_0_r. by apply inv_idle; destruct l. }
  destruct (o_closeErr s) eqn:Ho; simpl.
  { destruct o; apply (Hid _ None). }
  case_decide as Hq; simpl. { destruct o; apply (Hid _ None). }
  destruct (o_openQueue s) eqn:Eq; [|simpl in Hq; lia].
  case_decide as Hlt; simpl.
  { destruct (o_blockedSent s); simpl; destruct o; simpl; try apply (Hid _ None).
    all: apply inv_blockedSent, (Hid ErrEOF (Some _)). }
  pose proof (pre_num _ _ _ (proj1 Hinv)). destruct o as [[v id]|e]; simpl.
  - unfold insertStream. cbn. destruct (pre_open _ _ _ (proj1 Hinv) Ho) as (_ & _ & [m Hm]).
    rewrite Hm. simpl. apply inv_m; [|eauto|intros Hn; cbn in Hn; congruence].
    apply inv_take; (done || lia).
  - rewrite !u64_id by (rewrite ?u64_id; lia). rewrite Z.add_simpl_r.
    eapply ensures_bind.
    + apply unblock_ensures. instantiate (1 := n). instantiate (1 := <[t := PDone (Err e)]> th).
      replace (set_numStreams _ _) with s by (by destruct s). 
      specialize (Hid e None). rewrite Z.add_0_r in Hid. apply Hid.
    + simpl. intros s' [? _]. by rewrite Z.add_0_r.
Qed.

Lemma ensures_register s th n t id p : inv s th n -> o_closeErr s = None -> th !! t = Some p ->
  reserved p = true -> queued p = false -> o_streamCtxs s !! id = None ->
  ensures (addStreamCtxCancel id t s) (fun s' => inv s' (<[t := POpening id]> th) n).
Proof.
  intros Hi Ho Hth Hr Hq Hid. unfold addStreamCtxCancel. rewrite Hid. simpl. by eapply inv_ctx.
Qed.

Lemma inv_OpenStreamSyncStart s th n t id ctxErr : inv s th n -> th !! t = None ->
  o_streamCtxs s !! id = None ->
  ensures (let '(r, s') := OpenStreamSyncStart t ctxErr s in resume t id PBlocked1 r s')
    (fun '(p, s') => inv s' (<[t := p]> th) n).
Proof.
  intros Hinv Hth Hid. unfold OpenStreamSyncStart, waitStart.
  destruct (o_closeErr s) eqn:Ho; [by apply inv_idle|].
  destruct ctxErr; [by apply inv_idle|].
  case_decide as Hf; simpl.
  - destruct Hf as [Hq Hlt]. destruct (inv_take s th n t (Err ErrEOF) Hinv Ho Hq Hlt Hth) as [Hi _].
    eapply ensures_bind; [eapply ensures_register; [exact Hi|done|apply lookup_insert_eq|done..]|].
    intros s'. simpl. by rewrite insert_insert_eq.
  - assert (o_openQueue s <> [] \/ o_maxStreams s <= o_numStreams s) as Hor.
    { destruct (decide (o_openQueue s = [])); [right|by left]. destruct (decide (o_maxStreams s <= o_numStreams s)); [done|].
      exfalso. apply Hf. split; [done|lia]. }
    case_decide; simpl; [apply inv_blockedSent|]; by apply inv_enqueue.
Qed.

(** The four kinds of goroutines that take the mutex again. *)
Lemma inv_waitAfterBlocked s th n t id : inv s th n -> th !! t = Some PRelock1 ->
  ensures (resume t id PBlocked1 (waitAfterBlocked s) s) (fun '(p, s') => inv s' (<[t := p]> th) n).
Proof.
  intros Hinv Hth. unfold waitAfterBlocked.
  pose proof (pre_thread _ _ _ (proj1 Hinv) _ _ Hth) as [H1 H2 H3 H4 H5].
  destruct (o_closeErr s) eqn:Ho; simpl; apply inv_goto; try done.
  - constructor; try done; by rewrite Ho.
  - by rewrite Ho.
  - constructor; rewrite ?Ho; try done. intros _ _ [?|?]; [|done]. apply H2; [done..|by left].
  - rewrite (reserved_at_Some _ _ _ Hth), Hth. done.
Qed.

Lemma inv_waitCtxDone s th n t p r : inv s th n -> th !! t = Some p -> queued p = true ->
  ensures (waitCtxDone t s) (fun s' => inv s' (<[t := PDone r]> th) n).
Proof.
  intros [Hp Hw] Hth Hq. unfold waitCtxDone.
  eapply ensures_impl; [by eapply unblock_ensures, pre_deleteChan|]. by intros s' [? _].
Qed.

Lemma inv_waitWoken s th n t id ctxErr : inv s th n -> th !! t = Some PWoken ->
  o_streamCtxs s !! id = None ->
  ensures ('(r, s') ← waitWoken t ctxErr s; resume t id PBlocked2 r s')
    (fun '(p, s') => inv s' (<[t := p]> th) n).
Proof.
  intros Hinv Hth Hid. pose proof Hinv as [Hp Hw]. unfold waitWoken.
  pose proof (pre_thread _ _ _ Hp _ _ Hth) as [H1 H2 H3 H4 H5].
  destruct (o_closeErr s) eqn:Ho; simpl.
  { apply inv_goto; [done|constructor; by rewrite ?Ho|by rewrite Ho]. }
  destruct ctxErr; simpl.
  { pose proof (inv_waitCtxDone s th n t PWoken (Err e) Hinv Hth eq_refl) as He.
    unfold waitCtxDone in He. by destruct (maybeUnblockOpenSync _). }
  destruct H2 as [Hh Hlt]; [done..|by right|].
  destruct (o_openQueue s) as [|t' q] eqn:Eq; [done|]. injection Hh as ->. simpl.
  assert (forall p, reserved p = true -> queued p = false -> ctx_id p = None ->
    pre (set_openQueue q (set_numStreams (u64 (o_numStreams s + 1)) s)) (<[t:=p]> th) n) as Hpre.
  { intros p ???. eapply (pre_reserve s); try done; [|by right].
    by rewrite (reserved_at_Some _ _ _ Hth). }
  pose proof (pre_num _ _ _ Hp).
  case_decide as Hb; cbn in Hb.
  - assert (wake (set_openQueue q (set_numStreams (u64 (o_numStreams s + 1)) s)) (<[t:=PRelock2]> th)).
    { intros _ t' _. cbn. destruct Hb. lia. }
    destruct (o_blockedSent s) eqn:Eb; simpl.
    + eapply ensures_bind; [eapply ensures_register; [split; [by apply (Hpre PRelock2)|done]|done|apply lookup_insert_eq|done..]|].
      intros s'. simpl. by rewrite insert_insert_eq.
    + apply inv_blockedSent. split; [by apply Hpre|]. intros _ t' _. cbn. destruct Hb. lia.
  - pose proof (unblock_ensures _ _ _ (Hpre PRelock2 eq_refl eq_refl eq_refl)) as He.
    destruct (maybeUnblockOpenSync _) as [s'|]; [|done]. destruct He as [Hinv' [b ->]]. simpl.
    eapply ensures_bind; [eapply ensures_register; [exact Hinv'|done|apply lookup_insert_eq|done..]|].
    intros s'. simpl. by rewrite insert_insert_eq.
Qed.

Lemma inv_waitAfterBlocked2 s th n t id : inv s th n -> th !! t = Some PRelock2 ->
  o_streamCtxs s !! id = None ->
  ensures (resume t id PBlocked2 (waitAfterBlocked2 s) s) (fun '(p, s') => inv s' (<[t := p]> th) n).
Proof.
  intros Hinv Hth Hid. unfold waitAfterBlocked2.
  destruct (o_closeErr s) eqn:Ho; simpl.
  - apply inv_goto; [done|constructor; by rewrite ?Ho|by rewrite Ho].
  - eapply ensures_bind; [by eapply ensures_register|]. done.
Qed.

Lemma inv_OpenStreamSyncFinish s th n t id o : inv s th n -> th !! t = Some (POpened id o) ->
  ensures (OpenStreamSyncFinish id o s) (fun '(r, _, s') =>
    inv s' (<[t := PDone r]> th) (n + opened_by o r)).
Proof.
  intros Hinv Hth. apply (inv_unctx _ _ _ _ _ _ Hinv) in Hth as Hi. clear Hinv.
  unfold OpenStreamSyncFinish, opened_by.
  set (s' := set_streamCtxs _ s) in *. clearbody s'.
  set (th' := <[t:=PRelock2]> th) in *.
  assert (th' !! t = Some PRelock2) as Hth' by apply lookup_insert_eq.
  assert (forall r, <[t := PDone r]> th = <[t := PDone r]> th') as Hr.
  { intros r. symmetry. apply insert_insert_eq. }
  destruct (o_closeErr s') as [e|] eqn:Ho, o as [[v sid]|e']; simpl; rewrite ?Hr, ?Z.add_0_r.
  - apply inv_goto; [done|constructor; by rewrite ?Ho|by rewrite Ho].
  - apply inv_goto; [done|constructor; by rewrite ?Ho|by rewrite Ho].
  - unfold insertStream. destruct (pre_open _ _ _ (proj1 Hi) Ho) as (_ & _ & [m Hm]).
    rewrite Hm. simpl. rewrite Hr. apply inv_m; [by eapply inv_opened|eauto|by rewrite Ho].
  - eapply ensures_bind; [eapply unblock_ensures, (pre_unreserve _ _ _ _ _ (Err e')); [apply Hi|done..]|].
    intros s1 [? _]. simpl. by rewrite ?Hr, ?Z.add_0_r.
Qed.

Definition gained (p p' : pc) : Z :=
  match p' with PDone r => opened_by (from_QUIC p) r | _ => 0 end.

Lemma gained_0 p p' : (forall id o, p <> POpened id o) -> gained p p' = 0.
Proof. intros H. destruct p, p'; try done. by destruct (H id r). Qed.

Lemma inv_critical s th n t id ctxErr p : inv s th n -> th !! t = Some p ->
  wants_lock p = true -> o_streamCtxs s !! id = None ->
  ensures (critical t id ctxErr p s) (fun '(p', _, s') =>
    inv s' (<[t := p']> th) (n + gained p p')).
Proof.
  intros Hinv Hth Hp Hid.
  assert (forall p' s', (forall id o, p <> POpened id o) ->
    inv s' (<[t := p']> th) n -> inv s' (<[t := p']> th) (n + gained p p')) as H0.
  { intros. by rewrite gained_0, Z.add_0_r. }
  destruct p; try done; unfold critical.
  - eapply ensures_bind; [by apply (inv_waitAfterBlocked s th n)|]. intros [] ?. by apply H0.
  - eapply ensures_bind; [by eapply (inv_waitCtxDone s th n t _ (Err (default ErrCanceled ctxErr)))|].
    intros ? ?. by apply H0.
  - pose proof (inv_waitWoken s th n t id ctxErr Hinv Hth Hid) as He.
    destruct (waitWoken t ctxErr s) as [[r s']|]; simpl in *; [|done].
    eapply ensures_bind; [exact He|]. intros [] ?. by apply H0.
  - eapply ensures_bind; [by apply (inv_waitAfterBlocked2 s th n)|]. intros [] ?. by apply H0.
  - eapply ensures_bind; [by apply (inv_OpenStreamSyncFinish s th n)|]. by intros [[] ].
Qed.

(** ** The invariant holds in every reachable state *)

Definition opened_count (w : world) : Z := Z.of_nat (length (w_opened w)).

Definition winv (w : world) : Prop := inv (w_s w) (w_threads w) (opened_count w).

Lemma opened_count_app (l l' : list (T * Z)) :
  Z.of_nat (length (l ++ l')) = Z.of_nat (length l) + Z.of_nat (length l').
Proof. rewrite length_app. lia. Qed.

Lemma winv_new m : 0 <= m < 2 ^ 64 -> winv (newWorld m).
Proof.
  intros. split; [|by intros _ t]. constructor; cbn; try done; try lia.
  - intros _. split_and!; [constructor|done|eauto].
  - set_solver.
Qed.

Lemma winv_step w w' : winv w -> step w w' -> winv w'.
Proof.
  unfold winv, opened_count. intros Hinv Hstep. destruct Hstep as
    [w t o r b s Hth Hf He|w t id p s Hth Hid He|w t p l Hth Hp|w t err Hth Hc|w t Hth Hb
    |w t Hth Hb|w t id p p' closed s Hth Hw Hid He|w t id o Hth Hf|w limit e s Hl He
    |w err closed s He|w id|w t err Hc]; cbn; unfold goto.
  - rewrite opened_count_app. exact (ensures_Some _ _ _ (inv_OpenStream _ _ _ t o Hinv Hth) He).
  - exact (ensures_Some _ _ _ (inv_OpenStreamSyncStart _ _ _ t id _ Hinv Hth Hid) He).
  - pose proof (pre_thread _ _ _ (proj1 Hinv) _ _ Hth) as [H1 H2 H3 H4 H5].
    apply inv_goto; [done| |].
    + destruct p; try done; constructor; cbn; try done.
      intros Ho _ [?|?]; [|done]. apply H2; [done..|by left].
    + intros _. rewrite (reserved_at_Some _ _ _ Hth), Hth. by destruct p.
  - pose proof (pre_thread _ _ _ (proj1 Hinv) _ _ Hth) as [H1 H2 H3 H4 H5].
    apply inv_goto; [done| |].
    + constructor; cbn; try done. intros Ho _ [?|?]; [|done]. apply H2; [done..|by left].
    + intros _. by rewrite (reserved_at_Some _ _ _ Hth), Hth.
  - by apply inv_receive.
  - destruct (open_dec (w_s w)) as [Ho|Ho].
    { destruct (pre_open _ _ _ (proj1 Hinv) Ho) as (_ & Hcl & _). set_solver. }
    apply inv_goto; [done|constructor; done|done].
  - rewrite opened_count_app.
    pose proof (ensures_Some _ _ _ (inv_critical _ _ _ t id _ p Hinv Hth Hw Hid) He) as Hi.
    simpl in Hi. destruct p'; exact Hi.
  - pose proof (pre_thread _ _ _ (proj1 Hinv) _ _ Hth) as [H1 H2 H3 H4 H5].
    apply inv_goto; [done|constructor; done|]. intros _.
    by rewrite (reserved_at_Some _ _ _ Hth), Hth.
  - exact (ensures_Some _ _ _ (inv_UpdateStreamLimit _ _ _ limit Hinv (proj2 Hl)) He).
  - exact (ensures_Some _ _ _ (inv_CloseSession _ _ _ err Hinv) He).
  - by apply inv_removeStream.
  - done.
Qed.

Lemma winv_reachable m w : 0 <= m < 2 ^ 64 -> reachable m w -> winv w.
Proof.
  intros Hm H. apply winv_new in Hm. revert Hm. induction H; eauto using winv_step.
Qed.

(** ** WT_STREAMS_BLOCKED: the invariant

    [blk b s s'] is what a critical section does to [blockedSent], where [b] is
    the call of [queueBlocked] that follows it. *)

Definition blk (b : option Z) (s s' : outgoingStreamsMap T) : Prop :=
  o_maxStreams s' = o_maxStreams s /\
  match b with
  | None => o_blockedSent s' = o_blockedSent s
  | Some l => l = o_maxStreams s /\ o_blockedSent s = false /\ o_blockedSent s' = true
  end.

(** Whoever waits for credit has been reported. *)
Definition waiting_reported (s : outgoingStreamsMap T) : Prop :=
  o_closeErr s = None -> o_openQueue s <> [] -> o_maxStreams s <= o_numStreams s ->
  o_blockedSent s = true.

Record binv (w : world) : Prop := mkBinv {
  b_nodup : NoDup (w_blocked w);
  b_emitted : forall l, l ∈ w_blocked w -> l <= o_maxStreams (w_s w) /\
    (o_blockedSent (w_s w) = false -> l < o_maxStreams (w_s w));
  b_pending : forall t p l, w_threads w !! t = Some p -> pending_blocked p = Some l ->
    (l ∉ w_blocked w) /\ l <= o_maxStreams (w_s w) /\
    (o_blockedSent (w_s w) = false -> l < o_maxStreams (w_s w));
  b_distinct : forall t1 t2 p1 p2 l, w_threads w !! t1 = Some p1 -> w_threads w !! t2 = Some p2 ->
    pending_blocked p1 = Some l -> pending_blocked p2 = Some l -> t1 = t2;
  b_sent : o_blockedSent (w_s w) = true -> o_maxStreams (w_s w) ∈ w_blocked w \/
    exists t p, w_threads w !! t = Some p /\ pending_blocked p = Some (o_maxStreams (w_s w));
  b_waiting : waiting_reported (w_s w);
}.

Lemma blk_OpenStream s o r b s' : OpenStream o s = Some (r, b, s') ->
  blk b s s' /\ (waiting_reported s -> waiting_reported s').
Proof.
  unfold OpenStream, insertStream, blk, waiting_reported. intros He. 
  destruct (o_closeErr s) eqn:Ho; [simplify_eq/=; naive_solver|].
  case_decide as Hq; [simplify_eq/=; naive_solver|].
  assert (o_openQueue s = []) as Hnil by (destruct (o_openQueue s); [done|simpl in Hq; lia]).
  case_decide.
  { destruct (o_blockedSent s) eqn:Eb; simplify_eq/=; rewrite ?Eb; naive_solver. }
  destruct o as [[v id]|e]; simplify_option_eq.
  2: unblocked.
  all: cbn; rewrite Hnil; done.
Qed.

Lemma blk_register (s : outgoingStreamsMap T) id t s' : addStreamCtxCancel id t s = Some s' ->
  exists c, s' = set_streamCtxs c s.
Proof. unfold addStreamCtxCancel. case_match; [done|]. intros [= <-]. eauto. Qed.

Lemma blk_resume t id bl r s s0 p s' : (forall l, pending_blocked (bl l) = Some l) ->
  resume t id bl r s = Some (p, s') ->
  blk (match r with WBlocked l => Some l | _ => None end) s0 s ->
  waiting_reported s -> blk (pending_blocked p) s0 s' /\ waiting_reported s'.
Proof.
  intros Hbl. unfold resume. destruct r as [[e|]|l|]; intros He Hb Hw; simplify_option_eq; try done.
  - match goal with H : addStreamCtxCancel _ _ _ = _ |- _ => apply blk_register in H as [c ->] end.
    done.
  - by rewrite Hbl.
Qed.

Lemma blk_Start s t id ctxErr p s' :
  (let '(r, s') := OpenStreamSyncStart t ctxErr s in resume t id PBlocked1 r s') = Some (p, s') ->
  waiting_reported s -> blk (pending_blocked p) s s' /\ waiting_reported s'.
Proof.
  destruct (OpenStreamSyncStart t ctxErr s) as [r s1] eqn:E. intros He Hw.
  eapply (blk_resume _ _ PBlocked1); [done|exact He|..]; revert E;
    unfold OpenStreamSyncStart, waitStart, blk, waiting_reported in *.
  all: destruct (o_closeErr s) eqn:Ho; [intros [= <- <-]; rewrite ?Ho; done|].
  all: destruct ctxErr; [by intros [= <- <-]; rewrite ?Ho|].
  all: case_decide as Hf; [intros [= <- <-]; cbn; rewrite ?Ho; destruct Hf as [Eq ?]; rewrite ?Eq; done|].
  all: case_decide as Hb; intros [= <- <-]; cbn; rewrite ?Ho; try done; try tauto.
  intros _ _ Hle. apply not_and_l in Hb as [?|?]; [done|]. by cbn in *; destruct (o_blockedSent s).
Qed.

Lemma blk_waitWoken s t ctxErr r s' : waitWoken t ctxErr s = Some (r, s') ->
  waiting_reported s ->
  blk (match r with WBlocked l => Some l | _ => None end) s s' /\ waiting_reported s'.
Proof.
  unfold waitWoken, deleteChan, blk, waiting_reported. intros He Hw.
  destruct (o_closeErr s) eqn:Ho; [simplify_eq/=; rewrite ?Ho; done|].
  destruct ctxErr.
  { simplify_option_eq. unblocked. cbn. rewrite Ho. split; [done|].
    intros _ Hf. apply Hw; [done|]. intros E; by rewrite E in Hf. }
  cbn in He. destruct (o_openQueue s) as [|c q] eqn:Eq; [done|].
  destruct (decide _) as [Hb|Hb] in He.
  { destruct (o_blockedSent s) eqn:Eb; simplify_eq; cbn; rewrite ?Ho, ?Eb; done. }
  simplify_option_eq. unblocked. cbn. rewrite Ho. split; [done|].
  intros _ Hq Hle. destruct Hb. split; [|done]. destruct q; [done|simpl; lia].
Qed.

Lemma blk_critical s th n t id ctxErr p p' closed s' : inv s th n -> th !! t = Some p ->
  critical t id ctxErr p s = Some (p', closed, s') -> wants_lock p = true -> 
  waiting_reported s -> blk (pending_blocked p') s s' /\ waiting_reported s'.
Proof.
  intros Hinv Hth He Hp Hw. destruct p; try done; unfold critical in He; simplify_option_eq; destruct_pairs.
  - eapply (blk_resume _ _ PBlocked1); [done..| |done]. unfold waitAfterBlocked, blk. by destruct (o_closeErr s).
  - unfold waitCtxDone, deleteChan in *.
    unblocked. split; [done|]. unfold waiting_reported in *. cbn. intros Ho Hf. apply Hw; [done|]. by intros E; rewrite E in Hf.
  - match goal with H : waitWoken _ _ _ = Some _ |- _ => apply blk_waitWoken in H as [? ?] end; [|done].
    by eapply (blk_resume _ _ PBlocked2).
  - eapply (blk_resume _ _ PBlocked2); [done..| |done]. unfold waitAfterBlocked2, blk. by destruct (o_closeErr s).
  - unfold OpenStreamSyncFinish, insertStream in *. cbn in *.
    pose proof (pre_num _ _ _ (proj1 Hinv)).
    destruct (o_closeErr s) as [ce|] eqn:Ho, r as [[v sid]|e]; simplify_option_eq;
      unblocked;
      try (split; [done|exact Hw]).
    split; [done|]. unfold waiting_reported in *; cbn. intros _ Hq Hle. apply Hw; [done..|].
    pose proof (pre_count _ _ _ (proj1 Hinv) Ho).
    pose proof (reserved_count th t (reserved_at_Some _ _ _ Hth)).
    rewrite u64_id in Hle; lia.
Qed.

Lemma binv_blk w t p s' ctx op cl re ids : binv w -> blk (pending_blocked p) (w_s w) s' ->
  waiting_reported s' -> (forall p0, w_threads w !! t = Some p0 -> pending_blocked p0 = None) ->
  binv (mkWorld s' (goto t p w) ctx (w_blocked w) op cl re ids).
Proof.
  intros [Hnd Hem Hpe Hdi Hse Hwa] [Hmax Hb] Hw Hold. constructor; unfold goto; cbn; rewrite ?Hmax; try done.
  - intros l Hl. destruct (Hem l Hl). split; [done|]. intros Hf.
    destruct (pending_blocked p); [destruct Hb as (_ & _ & ?); congruence|]. rewrite Hb in Hf. auto.
  - intros t' p' l [[<- <-]|[Hne Ht]]%lookup_insert_Some Hp.
    + rewrite Hp in Hb. destruct Hb as (-> & Hf & Hf'). split_and!; [|done|congruence].
      intros Hl. destruct (Hem _ Hl) as [_ Hlt]. specialize (Hlt Hf). lia.
    + destruct (Hpe _ _ _ Ht Hp) as (? & ? & Hlt). split_and!; try done. intros Hf. apply Hlt.
      destruct (pending_blocked p); [by destruct Hb as (_ & ? & ?)|congruence].
  - assert (forall t2 p2 l, w_threads w !! t2 = Some p2 -> pending_blocked p2 = Some l ->
      pending_blocked p = Some l -> False) as Hx.
    { intros t2 p2 l Ht Hp2 Hp. rewrite Hp in Hb. destruct Hb as (-> & Hf & _).
      destruct (Hpe _ _ _ Ht Hp2) as (_ & _ & Hlt). specialize (Hlt Hf). lia. }
    intros t1 t2 p1 p2 l [[<- <-]|[? ?]]%lookup_insert_Some [[<- <-]|[? ?]]%lookup_insert_Some ??;
      try done; try (exfalso; by eapply Hx). by eapply Hdi.
  - intros Hs. destruct (pending_blocked p) as [l|] eqn:Ep.
    + right. exists t, p. split; [apply lookup_insert_eq|]. rewrite Ep. by destruct Hb as [-> _].
    + rewrite Hb in Hs. destruct (Hse Hs) as [?|(t' & p' & Ht & Hp)]; [by left|right].
      exists t', p'. split; [|done]. rewrite lookup_insert_ne; [done|]. intros ->.
      rewrite (Hold _ Ht) in Hp. done.
Qed.

Lemma binv_state w s' ctx op cl re ids : binv w ->
  o_maxStreams s' = o_maxStreams (w_s w) /\ o_blockedSent s' = o_blockedSent (w_s w) \/
  o_maxStreams (w_s w) < o_maxStreams s' /\ o_blockedSent s' = false ->
  waiting_reported s' -> binv (mkWorld s' (w_threads w) ctx (w_blocked w) op cl re ids).
Proof.
  intros [Hnd Hem Hpe Hdi Hse Hwa] H Hw. constructor; unfold goto; cbn; try done.
  - intros l Hl. destruct (Hem l Hl). destruct H as [[-> ->]|[? ?]]; split; auto; lia.
  - intros t p l Ht Hp. destruct (Hpe t p l Ht Hp) as (? & ? & ?).
    destruct H as [[-> ->]|[? ?]]; split_and!; auto; lia.
  - destruct H as [[-> ->]|[? ->]]; [auto|done].
Qed.

Lemma binv_emit w t p l ctx op cl re ids : binv w -> w_threads w !! t = Some p ->
  pending_blocked p = Some l ->
  binv (mkWorld (w_s w) (goto t (after_blocked p) w) ctx (w_blocked w ++ [l]) op cl re ids).
Proof.
  intros [Hnd Hem Hpe Hdi Hse Hwa] Ht Hp. pose proof (Hpe _ _ _ Ht Hp) as (Hn & Hle & Hlt).
  assert (pending_blocked (after_blocked p) = None) as Ha by (by destruct p).
  constructor; unfold goto; cbn; try done.
  - apply NoDup_app. split_and!; [done|set_solver|apply NoDup_singleton].
  - intros l' [?| ->%list_elem_of_singleton]%elem_of_app; auto.
  - intros t' p' l' [[<- <-]|[Hne Ht']]%lookup_insert_Some Hp'; [congruence|].
    destruct (Hpe _ _ _ Ht' Hp') as (? & ? & ?). split_and!; try done.
    intros [?| ->%list_elem_of_singleton]%elem_of_app; [done|]. apply Hne. by eapply Hdi.
  - intros t1 t2 p1 p2 l' [[<- <-]|[? ?]]%lookup_insert_Some [[<- <-]|[? ?]]%lookup_insert_Some ??;
      try congruence. by eapply Hdi.
  - intros Hs. destruct (Hse Hs) as [?|(t' & p' & Ht' & Hp')].
    + left. set_solver.
    + destruct (decide (t' = t)) as [->|Hne]; [left; set_solver|right].
      exists t', p'. split; [|done]. by rewrite lookup_insert_ne.
Qed.

Lemma binv_new m : binv (newWorld m).
Proof.
  constructor; cbn; intros *; rewrite ?lookup_empty; try done; try apply NoDup_nil_2; [set_solver|].
  by intros _ [].
Qed.

Lemma binv_step w w' : winv w -> binv w -> step w w' -> binv w'.
Proof.
  intros Hinv Hb Hstep. pose proof (b_waiting _ Hb) as Hwa. destruct Hstep as
    [w t o r b s Hth Hf He|w t id p s Hth Hid He|w t p l Hth Hp|w t err Hth Hc|w t Hth Hbuf
    |w t Hth Hcl|w t id p p' closed s Hth Hw Hid He|w t id o Hth Hf|w limit e s Hl He
    |w err closed s He|w id|w t err Hc].
  - destruct (blk_OpenStream _ _ _ _ _ He) as [H1 H2]. apply binv_blk; auto; [|congruence].
    by destruct b.
  - destruct (blk_Start _ _ _ _ _ _ He Hwa). apply binv_blk; auto. congruence.
  - by apply binv_emit.
  - apply binv_blk; try done; intros; simplify_eq; done.
  - apply binv_blk; try done; intros; simplify_eq; done.
  - apply binv_blk; try done; intros; simplify_eq; done.
  - destruct (blk_critical _ _ _ _ _ _ _ _ _ _ Hinv Hth He Hw Hwa). apply binv_blk; auto.
    intros; simplify_eq. by destruct p.
  - apply binv_blk; try done; intros; simplify_eq; done.
  - pose proof (pre_num _ _ _ (proj1 Hinv)).
    unfold UpdateStreamLimit in He. case_match; simplify_eq; [apply binv_state; auto|].
    case_decide; simplify_option_eq; [apply binv_state; auto|]. unblocked.
    apply binv_state; [done|right; cbn; split; [lia|done]|]. intros _ _. cbn. lia.
  - apply binv_state; [done|..]; unfold CloseSession in He; case_match; simplify_eq; auto.
    + destruct (pre_open _ _ _ (proj1 Hinv)) as (Hnd & Hch & _); [done|].
      rewrite closeChans_spec in He by (done || (cbn; rewrite Hch; set_solver)). by simplify_eq/=; left.
    + destruct (pre_open _ _ _ (proj1 Hinv)) as (Hnd & Hch & _); [done|].
      rewrite closeChans_spec in He by (done || (cbn; rewrite Hch; set_solver)). by simplify_eq/=.
  - apply binv_state; auto.
  - apply binv_state; auto.
Qed.

Lemma binv_reachable m w : 0 <= m < 2 ^ 64 -> reachable m w -> winv w /\ binv w.
Proof.
  intros Hm H. pose proof (winv_new _ Hm) as H1. pose proof (binv_new m) as H2.
  revert H1 H2. induction H; eauto using winv_step, binv_step.
Qed.

End concurrent.

Arguments pc : clear implicits.
Arguments world : clear implicits.
