(* ===== verification/OutgoingStreamsGuarantees.v ===== *)
(** * What the map of outgoing streams guarantees

    The theorems about the step relation of [OutgoingStreamsSafety]: the limit,
    absence of panics, progress, order, the reports to the peer, and what
    closing the session does. *)

From S2P Require Import Prelude Errors Quicvarint Protocol OutgoingStreams OutgoingStreamsSafety.

Section guarantees.
Context {T : Type}.
Implicit Types (w : world T) (s : outgoingStreamsMap T).

(** ** The streams *)

(** Every stream that was returned to a caller is in the map until it is
    removed, and is closed when the session is. *)
Record sinv w : Prop := mkSinv {
  s_opened : forall v id, (v, id) ∈ w_opened w -> id ∈ w_ids w /\
    (id ∈ w_removed w \/
     match o_m (w_s w) with Some m => m !! id = Some v | None => v ∈ w_closed w end);
  s_dom : forall m id, o_m (w_s w) = Some m -> is_Some (m !! id) -> id ∈ w_ids w;
  s_pending : forall t c v id, w_threads w !! t = Some (POpened c (Ok (v, id))) ->
    id ∈ w_ids w /\ (forall m, o_m (w_s w) = Some m -> m !! id = None) /\
    (forall v', (v', id) ∉ w_opened w);
  s_distinct : forall t1 t2 c1 c2 v1 v2 id,
    w_threads w !! t1 = Some (POpened c1 (Ok (v1, id))) ->
    w_threads w !! t2 = Some (POpened c2 (Ok (v2, id))) -> t1 = t2;
}.

(** The goroutine has a stream that it has not delivered. *)
Definition has_stream (p : pc T) : bool :=
  match p with POpened _ (Ok _) => true | _ => false end.

Lemma sinv_frame w s' th' ctx bl cl' : sinv w -> o_m s' = o_m (w_s w) ->
  w_closed w ⊆ cl' ->
  (forall t p, th' !! t = Some p -> has_stream p = true -> w_threads w !! t = Some p) ->
  sinv (mkWorld s' th' ctx bl (w_opened w) cl' (w_removed w) (w_ids w)).
Proof.
  intros [Ho Hd Hp Hx] Hm Hcl Hth. constructor; cbn; rewrite ?Hm; try done.
  - intros v id Hin. destruct (Ho v id Hin) as [? [?|H]]; split; auto.
    right. case_match; [done|]. by apply Hcl.
  - intros t c v id Ht. eapply Hp. by apply Hth.
  - intros t1 t2 c1 c2 v1 v2 id H1 H2. eapply Hx; by apply Hth.
Qed.

Lemma has_stream_goto w t p : has_stream p = false ->
  forall t' p', goto t p w !! t' = Some p' -> has_stream p' = true -> w_threads w !! t' = Some p'.
Proof. unfold goto. intros Hp t' p' [[<- <-]|[? ?]]%lookup_insert_Some ?; congruence. Qed.

(** A stream that nobody has seen enters the map. *)
Lemma sinv_insert w t v id m s' r ctx bl ids : sinv w -> o_m (w_s w) = Some m ->
  o_m s' = Some (<[id := v]> m) -> w_ids w ⊆ ids -> id ∈ ids -> m !! id = None ->
  (forall v', (v', id) ∉ w_opened w) ->
  (forall t' c v', t' <> t -> w_threads w !! t' <> Some (POpened c (Ok (v', id)))) ->
  sinv (mkWorld s' (goto t (PDone r) w) ctx bl (w_opened w ++ [(v, id)]) (w_closed w)
    (w_removed w) ids).
Proof.
  intros [Ho Hd Hp Hx] Hm Hm' Hids Hid Hnone Hnew Hoth. unfold goto. constructor; cbn; rewrite ?Hm'.
  - intros v' id' [Hin|E%list_elem_of_singleton]%elem_of_app.
    + destruct (Ho _ _ Hin) as [? H]. rewrite Hm in H. split; [set_solver|].
      destruct H; [by left|right]. rewrite lookup_insert_ne; [done|]. intros ->.
      by apply (Hnew v').
    + injection E as -> ->. split; [done|]. right. apply lookup_insert_eq.
  - intros m' id' [= <-] [v' [[-> _]|[_ ?]]%lookup_insert_Some]; [done|]. apply Hids. eauto.
  - intros t' c v' id' [[_ ?]|[Hne Ht]]%lookup_insert_Some; [done|].
    destruct (Hp _ _ _ _ Ht) as (? & Hmm & ?).
    assert (id' <> id) by (intros ->; by apply (Hoth t' c v')).
    split_and!; [set_solver| |].
    + intros m' [= <-]. rewrite lookup_insert_ne by done. auto.
    + intros v'' [?|[= -> ->]%list_elem_of_singleton]%elem_of_app; naive_solver.
  - intros t1 t2 c1 c2 v1 v2 id' [[_ ?]|[? ?]]%lookup_insert_Some [[_ ?]|[? ?]]%lookup_insert_Some;
      try done. by eapply Hx.
Qed.

Lemma sinv_ids w ids : sinv w -> w_ids w ⊆ ids ->
  sinv (mkWorld (w_s w) (w_threads w) (w_ctxErr w) (w_blocked w) (w_opened w) (w_closed w)
    (w_removed w) ids).
Proof.
  intros [Ho Hd Hp Hx] Hs. constructor; cbn; try done.
  - intros v id Hin. destruct (Ho v id Hin). split; [set_solver|done].
  - intros m id Hm Hid. apply Hs. by eapply Hd.
  - intros t c v id Ht. destruct (Hp _ _ _ _ Ht). split; [set_solver|done].
Qed.

Lemma m_OpenStream s o r b s' : OpenStream o s = Some (r, b, s') ->
  newly_opened o r = [] /\ o_m s' = o_m s \/
  exists v id m, o = Ok (v, id) /\ r = Ok v /\ b = None /\ o_m s = Some m /\
    o_m s' = Some (<[id := v]> m).
Proof.
  unfold OpenStream, insertStream. intros He.
  destruct (o_closeErr s); [simplify_eq; left; by destruct o|].
  case_decide; [simplify_eq; left; by destruct o|].
  case_decide.
  { destruct (o_blockedSent s); simplify_eq/=; left; by destruct o. }
  destruct o as [[v id]|e]; simplify_option_eq.
  - right. do 3 eexists. done.
  - unblocked. by left.
Qed.

Lemma m_resume t id bl r s p s' : (forall l, has_stream (bl l) = false) ->
  resume t id bl r s = Some (p, s') -> o_m s' = o_m s /\ has_stream p = false.
Proof.
  intros Hbl. unfold resume. destruct r as [[e|]|l|]; intros He; simplify_option_eq; try done.
  match goal with H : addStreamCtxCancel _ _ _ = _ |- _ => by apply blk_register in H as [c ->] end.
Qed.

Lemma m_Start s t id ctxErr p s' :
  (let '(r, s') := OpenStreamSyncStart t ctxErr s in resume t id PBlocked1 r s') = Some (p, s') ->
  o_m s' = o_m s /\ has_stream p = false.
Proof.
  destruct (OpenStreamSyncStart t ctxErr s) as [r s1] eqn:E. intros He.
  apply (m_resume _ _ PBlocked1) in He as [-> ->]; [|done]. split; [|done].
  revert E. unfold OpenStreamSyncStart, waitStart.
  destruct (o_closeErr s); [by intros [= <- <-]|]. destruct ctxErr; [by intros [= <- <-]|].
  case_decide; [by intros [= <- <-]|]. by case_decide; intros [= <- <-].
Qed.

Lemma m_waitWoken s t ctxErr r s' : waitWoken t ctxErr s = Some (r, s') -> o_m s' = o_m s.
Proof.
  unfold waitWoken, deleteChan. intros He. destruct (o_closeErr s); [by simplify_eq|].
  destruct ctxErr; [simplify_option_eq; by unblocked|]. cbn in He.
  destruct (o_openQueue s); [done|]. destruct (decide _) in He.
  - destruct (o_blockedSent s); by simplify_eq.
  - simplify_option_eq. by unblocked.
Qed.

Lemma m_critical s t id ctxErr p p' closed s' :
  critical t id ctxErr p s = Some (p', closed, s') -> wants_lock p = true ->
  (forall id o, p <> POpened id o) ->
  o_m s' = o_m s /\ has_stream p' = false /\ closed = [].
Proof.
  intros He Hp Hn. destruct p; try done; unfold critical in He; simplify_option_eq; destruct_pairs.
  - by edestruct (m_resume t id PBlocked1) as [-> ->].
  - unfold waitCtxDone, deleteChan in *. by unblocked.
  - match goal with H : waitWoken _ _ _ = Some _ |- _ => apply m_waitWoken in H as <- end.
    by edestruct (m_resume t id PBlocked2) as [-> ->].
  - by edestruct (m_resume t id PBlocked2) as [-> ->].
  - by destruct (Hn id0 r).
Qed.

Lemma m_Finish s id o r closed s' : OpenStreamSyncFinish id o s = Some (r, closed, s') ->
  newly_opened o r = [] /\ o_m s' = o_m s \/
  exists v sid m, o = Ok (v, sid) /\ r = Ok v /\ closed = [] /\ o_m s = Some m /\
    o_m s' = Some (<[sid := v]> m).
Proof.
  unfold OpenStreamSyncFinish, insertStream. cbn.
  destruct (o_closeErr s) as [ce|], o as [[v sid]|e]; intros He; simplify_option_eq; try by left.
  - right. do 3 eexists. done.
  - unblocked. by left.
Qed.

Lemma m_closeChans q s s' :
  foldr (fun c o => o ≫= closeChan c) (Some s) q = Some s' -> o_m s' = o_m s.
Proof.
  revert s'. induction q as [|c q IH]; intros s' He; simpl in He; [by simplify_eq|].
  unfold closeChan in He. simplify_option_eq. auto.
Qed.

Lemma m_CloseSession s err closed s' : CloseSession err s = Some (closed, s') ->
  o_m s' = o_m s /\ closed = [] \/
  o_m s' = None /\ closed = (map_to_list (default ∅ (o_m s))).*2.
Proof.
  unfold CloseSession. intros He. destruct (o_closeErr s); simplify_option_eq; [auto|].
  right. split; [done|]. by match goal with H : foldr _ _ _ = _ |- _ => apply m_closeChans in H as -> end.
Qed.

Lemma m_UpdateStreamLimit s limit e s' : UpdateStreamLimit limit s = Some (e, s') -> o_m s' = o_m s.
Proof.
  unfold UpdateStreamLimit. intros He. destruct (o_closeErr s); [by simplify_eq|].
  case_decide; simplify_option_eq; [done|]. by unblocked.
Qed.

Lemma sinv_new m : sinv (newWorld m).
Proof.
  constructor; cbn; intros *; rewrite ?lookup_empty; try done; [set_solver|].
  intros [= <-]. rewrite lookup_empty. by intros [].
Qed.

(** QUIC returns a stream to a goroutine. *)
Lemma sinv_receive w t id o : sinv w -> fresh_stream w o ->
  sinv (mkWorld (w_s w) (goto t (POpened id o) w) (w_ctxErr w) (w_blocked w)
      (w_opened w) (w_closed w) (w_removed w) (used_ids o ∪ w_ids w)).
Proof.
  intros Hs Hf. destruct o as [[v sid]|e]; simpl in *.
  2: { rewrite (left_id_L ∅ (∪)). eapply sinv_frame; [done..|]. by apply has_stream_goto. }
  destruct Hs as [Ho Hd Hp Hx]. unfold goto. constructor; cbn.
  - intros v' id' Hin. destruct (Ho _ _ Hin). split; [set_solver|done].
  - intros m id' Hm Hid. apply elem_of_union. right. by eapply Hd.
  - intros t' c v' id' [[<- [= <- <- <-]]|[Hne Ht]]%lookup_insert_Some.
    + split_and!; [set_solver| |].
      * intros m Hm. apply eq_None_not_Some. intros Hid. apply Hf. by eapply Hd.
      * intros v' Hin. by destruct (Ho _ _ Hin).
    + destruct (Hp _ _ _ _ Ht) as (? & ? & ?). split_and!; [set_solver|done..].
  - intros t1 t2 c1 c2 v1 v2 id' [[<- [= <- <- <-]]|[? H1]]%lookup_insert_Some
      [[<- E]|[? H2]]%lookup_insert_Some; try done.
    + by destruct (Hp _ _ _ _ H2).
    + injection E as <- <- <-. by destruct (Hp _ _ _ _ H1).
    + by eapply Hx.
Qed.

Lemma sinv_step w w' : sinv w -> step w w' -> sinv w'.
Proof.
  intros Hs Hstep. destruct Hstep as
    [w t o r b s Hth Hf He|w t id p s Hth Hid He|w t p l Hth Hp|w t err Hth Hc|w t Hth Hbuf
    |w t Hth Hcl|w t id p p' closed s Hth Hw Hid He|w t id o Hth Hf|w limit e s Hl He
    |w err closed s He|w id|w t err Hc].
  - apply m_OpenStream in He as [[-> Hm]|(v & id & m & -> & -> & -> & Hm & Hm')].
    + rewrite app_nil_r. refine (sinv_ids (mkWorld s _ _ _ _ _ _ (w_ids w)) _ _ _); [|cbn; set_solver].
      apply sinv_frame; try done. apply has_stream_goto. by destruct b.
    + simpl in Hf. eapply sinv_insert; try done; [cbn; set_solver|cbn; set_solver| | |].
      * apply eq_None_not_Some. intros Hd. apply Hf. by eapply (s_dom _ Hs).
      * intros v' Hin. by destruct (s_opened _ Hs _ _ Hin).
      * intros t' c v' _ Ht'. by destruct (s_pending _ Hs _ _ _ _ Ht').
  - apply m_Start in He as [Hm Hp]. apply sinv_frame; try done. by apply has_stream_goto.
  - apply sinv_frame; try done. apply has_stream_goto. by destruct p.
  - apply sinv_frame; try done. by apply has_stream_goto.
  - apply sinv_frame; try done. by apply has_stream_goto.
  - apply sinv_frame; try done. by apply has_stream_goto.
  - assert ((exists c o, p = POpened c o) \/ forall c o, p <> POpened c o) as [(c & o & ->)|Hh].
    { destruct p; try (right; done). left. eauto. }
    + unfold critical in He.
      destruct (OpenStreamSyncFinish c o (w_s w)) as [[[r cl] s1]|] eqn:E; simplify_eq/=.
      apply m_Finish in E as [[-> Hm]|(v & sid & m & -> & -> & -> & Hm & Hm')].
      * rewrite app_nil_r. apply sinv_frame; try done; [set_solver|]. by apply has_stream_goto.
      * rewrite app_nil_r. destruct (s_pending _ Hs _ _ _ _ Hth) as (? & ? & ?).
        eapply sinv_insert; try done; [auto|].
        intros t' c' v' Hne Ht'. by apply Hne; eapply (s_distinct _ Hs).
    + apply m_critical in He as (Hm & Hp & ->); [|done..].
      replace (match p' with PDone r => _ | _ => [] end) with (@nil (T * Z)).
      2: { destruct p'; try done. destruct p; try done. by edestruct Hh. }
      rewrite !app_nil_r. apply sinv_frame; try done. by apply has_stream_goto.
  - by apply sinv_receive.
  - apply m_UpdateStreamLimit in He. by apply sinv_frame.
  - apply m_CloseSession in He as [[Hm ->]|[Hm ->]].
    { rewrite app_nil_r. by apply sinv_frame. }
    destruct Hs as [Ho Hd Hp Hx]. constructor; cbn; rewrite ?Hm; try done.
    + intros v id Hin. destruct (Ho _ _ Hin) as [? [?|H]]; split; auto. right.
      apply elem_of_app. destruct (o_m (w_s w)) as [m|]; [right|by left].
      apply list_elem_of_fmap. exists (id, v). split; [done|]. by apply elem_of_map_to_list.
    + intros t c v id Ht. by destruct (Hp _ _ _ _ Ht) as (? & ? & ?).
  - destruct Hs as [Ho Hd Hp Hx]. constructor; cbn; try done.
    + intros v id' Hin. destruct (Ho _ _ Hin) as [? H]. split; [done|].
      destruct H as [?|H]; [left; set_solver|].
      destruct (decide (id' = id)) as [->|]; [left; set_solver|right].
      destruct (o_m (w_s w)); simpl; [|done]. by rewrite lookup_delete_ne.
    + intros m' id' Hm'. destruct (o_m (w_s w)) as [m|]; simplify_eq/=.
      intros [v [_ ?]%lookup_delete_Some]. by eapply Hd.
    + intros t c v id' Ht. destruct (Hp _ _ _ _ Ht) as (? & Hmm & ?). split_and!; try done.
      intros m' Hm'. destruct (o_m (w_s w)) as [m|]; simplify_eq/=.
      apply lookup_delete_None. auto.
  - by apply sinv_frame.
Qed.

Lemma sinv_reachable m w : reachable m w -> sinv w.
Proof.
  intros H. pose proof (sinv_new m) as H1. revert H1. induction H; eauto using sinv_step.
Qed.

(** ** The queue *)

Lemma q_OpenStream s o r b s' : OpenStream o s = Some (r, b, s') -> o_openQueue s' = o_openQueue s.
Proof.
  unfold OpenStream, insertStream. intros He. destruct (o_closeErr s); [by simplify_eq|].
  case_decide; [by simplify_eq|]. case_decide; [by destruct (o_blockedSent s); simplify_eq/=|].
  destruct o as [[v id]|e]; simplify_option_eq; [done|]. by unblocked.
Qed.

Lemma q_resume t id bl r s p s' : resume t id bl r s = Some (p, s') -> o_openQueue s' = o_openQueue s.
Proof.
  unfold resume. destruct r as [[e|]|l|]; intros He; simplify_option_eq; try done.
  by match goal with H : addStreamCtxCancel _ _ _ = _ |- _ => apply blk_register in H as [c ->] end.
Qed.

Lemma q_Start s t id ctxErr p s' :
  (let '(r, s') := OpenStreamSyncStart t ctxErr s in resume t id PBlocked1 r s') = Some (p, s') ->
  o_openQueue s' = o_openQueue s \/ o_openQueue s' = o_openQueue s ++ [t].
Proof.
  destruct (OpenStreamSyncStart t ctxErr s) as [r s1] eqn:E. intros He.
  apply q_resume in He as ->. revert E. unfold OpenStreamSyncStart, waitStart.
  destruct (o_closeErr s); [intros [= <- <-]; auto|]. destruct ctxErr; [intros [= <- <-]; auto|].
  case_decide; [intros [= <- <-]; auto|]. case_decide; intros [= <- <-]; auto.
Qed.

Lemma q_critical s t id ctxErr p p' closed s' :
  critical t id ctxErr p s = Some (p', closed, s') -> wants_lock p = true ->
  o_openQueue s' `sublist_of` o_openQueue s.
Proof.
  intros He Hp. destruct p; try done; unfold critical in He; simplify_option_eq; destruct_pairs.
  - by erewrite (q_resume t id PBlocked1).
  - unfold waitCtxDone, deleteChan in *. unblocked. cbn. apply sublist_filter.
  - erewrite (q_resume t id PBlocked2) by done.
    match goal with H : waitWoken _ _ _ = Some _ |- _ => revert H end.
    unfold waitWoken, deleteChan. destruct (o_closeErr s); [by intros [= <- <-]|].
    destruct ctxErr; [intros; simplify_option_eq; unblocked; cbn; apply sublist_filter|]. cbn.
    destruct (o_openQueue s); [done|]. destruct (decide _).
    + destruct (o_blockedSent s); intros [= <- <-]; cbn; by apply sublist_cons.
    + intros ?; simplify_option_eq; unblocked; cbn; by apply sublist_cons.
  - by erewrite (q_resume t id PBlocked2).
  - unfold OpenStreamSyncFinish, insertStream in *. cbn in *.
    destruct (o_closeErr s) as [ce|], r as [[v sid]|e]; simplify_option_eq; unblocked; done.
Qed.

Lemma q_UpdateStreamLimit s limit e s' : UpdateStreamLimit limit s = Some (e, s') ->
  o_openQueue s' = o_openQueue s.
Proof.
  unfold UpdateStreamLimit. intros He. destruct (o_closeErr s); [by simplify_eq|].
  case_decide; simplify_option_eq; [done|]. by unblocked.
Qed.

Lemma q_CloseSession s err closed s' : CloseSession err s = Some (closed, s') ->
  o_openQueue s' `sublist_of` o_openQueue s.
Proof.
  unfold CloseSession. intros He. destruct (o_closeErr s); simplify_option_eq; [done|].
  apply sublist_nil_l.
Qed.

Lemma queue_step w w' : step w w' ->
  (exists t, o_openQueue (w_s w') = o_openQueue (w_s w) ++ [t]) \/
  o_openQueue (w_s w') `sublist_of` o_openQueue (w_s w).
Proof.
  intros []; cbn; try (by right).
  - right. by erewrite q_OpenStream.
  - match goal with H : context [OpenStreamSyncStart] |- _ => apply q_Start in H as [-> | ->] end; eauto.
  - right. by eapply q_critical.
  - right. by erewrite q_UpdateStreamLimit.
  - right. by eapply q_CloseSession.
Qed.

(** Only the goroutine that has been woken leaves the queue with credit. *)
Lemma served_step w w' t p p' : step w w' -> w_threads w !! t = Some p -> queued p = true ->
  w_threads w' !! t = Some p' -> reserved p' = true -> o_closeErr (w_s w) = None -> p = PWoken.
Proof.
  intros Hstep Ht Hq Ht' Hr Ho.
  assert (p <> p') as Hne by (intros <-; by destruct p).
  destruct Hstep; cbn in *; unfold goto in *; try congruence;
    apply lookup_insert_Some in Ht' as [[-> <-]|[? ?]]; try congruence; simplify_eq; try done.
  { by destruct p0. }
  match goal with H : wants_lock ?p = true |- _ => destruct p end;
    try done; simpl in *; simplify_option_eq; destruct_pairs; try done.
  unfold waitAfterBlocked in *. rewrite Ho in *. by simplify_eq/=.
Qed.

(** ** An executable version of the step relation *)

Inductive action : Type :=
| AOpenStream (t : nat) (o : result error (T * Z))
| AOpenStreamSync (t : nat) (id : Z)
| AQueueBlocked (t : nat)
| ACtxDone (t : nat)
| AReceive (t : nat)
| AReceiveClosed (t : nat)
| ACritical (t : nat) (id : Z)
| AQUIC (t : nat) (o : result error (T * Z))
| AUpdateStreamLimit (limit : Z)
| ACloseSession (err : error)
| ARemoveStream (id : Z)
| ACancel (t : nat) (err : error).

#[local] Instance fresh_stream_dec w o : Decision (fresh_stream w o).
Proof. destruct o as [[v id]|e]; unfold fresh_stream; apply _. Defined.

Definition is_waiting (p : pc T) : bool := match p with PWaiting => true | _ => false end.

Definition act w (a : action) : option (world T) :=
  match a with
  | AOpenStream t o =>
      guard (w_threads w !! t = None);; guard (fresh_stream w o);;
      '(r, b, s) ← OpenStream o (w_s w);
      Some (mkWorld s (goto t (match b with Some l => PBlocked0 l | None => PDone r end) w)
        (w_ctxErr w) (w_blocked w) (w_opened w ++ newly_opened o r) (w_closed w)
        (w_removed w) (used_ids o ∪ w_ids w))
  | AOpenStreamSync t id =>
      guard (w_threads w !! t = None);; guard (o_streamCtxs (w_s w) !! id = None);;
      '(p, s) ← (let '(r, s') := OpenStreamSyncStart t (w_ctxErr w !! t) (w_s w) in
                 resume t id PBlocked1 r s');
      Some (mkWorld s (goto t p w) (w_ctxErr w) (w_blocked w) (w_opened w) (w_closed w)
        (w_removed w) (w_ids w))
  | AQueueBlocked t =>
      p ← w_threads w !! t; l ← pending_blocked p;
      Some (mkWorld (w_s w) (goto t (after_blocked p) w) (w_ctxErr w) (w_blocked w ++ [l])
        (w_opened w) (w_closed w) (w_removed w) (w_ids w))
  | ACtxDone t =>
      p ← w_threads w !! t; guard (is_waiting p = true);; err ← w_ctxErr w !! t;
      Some (mkWorld (w_s w) (goto t PCancelled w) (w_ctxErr w) (w_blocked w)
        (w_opened w) (w_closed w) (w_removed w) (w_ids w))
  | AReceive t =>
      p ← w_threads w !! t; guard (is_waiting p = true);; guard (t ∈ o_chanBuf (w_s w));;
      Some (mkWorld (set_chanBuf (o_chanBuf (w_s w) ∖ {[t]}) (w_s w)) (goto t PWoken w)
        (w_ctxErr w) (w_blocked w) (w_opened w) (w_closed w) (w_removed w) (w_ids w))
  | AReceiveClosed t =>
      p ← w_threads w !! t; guard (is_waiting p = true);; guard (t ∈ o_chanClosed (w_s w));;
      Some (mkWorld (w_s w) (goto t PWoken w) (w_ctxErr w) (w_blocked w)
        (w_opened w) (w_closed w) (w_removed w) (w_ids w))
  | ACritical t id =>
      p ← w_threads w !! t; guard (wants_lock p = true);;
      guard (o_streamCtxs (w_s w) !! id = None);;
      '(p', closed, s) ← critical t id (w_ctxErr w !! t) p (w_s w);
      Some (mkWorld s (goto t p' w) (w_ctxErr w) (w_blocked w)
        (w_opened w ++ match p' with PDone r => newly_opened (from_QUIC p) r | _ => [] end)
        (w_closed w ++ closed) (w_removed w) (w_ids w))
  | AQUIC t o =>
      p ← w_threads w !! t; guard (fresh_stream w o);;
      match p with
      | POpening id =>
          Some (mkWorld (w_s w) (goto t (POpened id o) w) (w_ctxErr w) (w_blocked w)
            (w_opened w) (w_closed w) (w_removed w) (used_ids o ∪ w_ids w))
      | _ => None
      end
  | AUpdateStreamLimit limit =>
      guard (0 <= limit < 2 ^ 64);; '(e, s) ← UpdateStreamLimit limit (w_s w);
      Some (mkWorld s (w_threads w) (w_ctxErr w) (w_blocked w)
        (w_opened w) (w_closed w) (w_removed w) (w_ids w))
  | ACloseSession err =>
      '(closed, s) ← CloseSession err (w_s w);
      Some (mkWorld s (w_threads w) (w_ctxErr w) (w_blocked w)
        (w_opened w) (w_closed w ++ closed) (w_removed w) (w_ids w))
  | ARemoveStream id =>
      Some (mkWorld (removeStream id (w_s w)) (w_threads w) (w_ctxErr w) (w_blocked w)
        (w_opened w) (w_closed w) ({[id]} ∪ w_removed w) (w_ids w))
  | ACancel t err =>
      guard (w_ctxErr w !! t = None);;
      Some (mkWorld (w_s w) (w_threads w) (<[t := err]> (w_ctxErr w)) (w_blocked w)
        (w_opened w) (w_closed w) (w_removed w) (w_ids w))
  end.

Fixpoint acts w (l : list action) : option (world T) :=
  match l with [] => Some w | a :: l => w ← act w a; acts w l end.

Lemma act_sound w a w' : act w a = Some w' -> step w w'.
Proof.
  destruct a; simpl; intros He; simplify_option_eq; destruct_pairs;
    repeat match goal with
    | H : is_waiting ?p = true |- _ => destruct p; try done; clear H
    end.
  - by apply step_OpenStream.
  - by eapply step_OpenStreamSync.
  - by apply step_queueBlocked.
  - by eapply step_ctxDone.
  - by apply step_receive.
  - by apply step_receiveClosed.
  - by eapply step_critical.
  - case_match; simplify_eq. by apply step_openStreamSync.
  - by eapply step_UpdateStreamLimit.
  - by eapply step_CloseSession.
  - apply step_removeStream.
  - by apply step_cancel.
Qed.

Lemma acts_sound m l w : acts (newWorld m) l = Some w -> reachable m w.
Proof.
  unfold reachable. generalize (newWorld m : world T) as w0.
  induction l as [|a l IH]; simpl; intros w0 He; [by simplify_eq|].
  destruct (act w0 a) eqn:E; [|done]. eapply rtc_l; [by eapply act_sound|]. by apply IH.
Qed.

(** ** Theorems *)

(** The stream limit of the peer is never exceeded. In every reachable
    state, under any interleaving of callers, limit updates, cancellations and
    closing: the streams that were returned, together with those that a
    goroutine is about to open, are at most the largest limit received, and the
    64-bit counter counts them exactly while the session is open (also after
    failed attempts to open a stream). *)
Theorem outgoing_limit_respected (m : Z) w : 0 <= m < 2 ^ 64 -> reachable m w ->
  Z.of_nat (length (w_opened w)) <= o_maxStreams (w_s w) < 2 ^ 64 /\
  (o_closeErr (w_s w) = None ->
   o_numStreams (w_s w) = Z.of_nat (length (w_opened w)) + Z.of_nat (nreserved (w_threads w)) /\
   o_numStreams (w_s w) <= o_maxStreams (w_s w)).
Proof.
  intros Hm Hr. pose proof (winv_reachable _ _ Hm Hr) as [[Hnum Hcnt _ _ _ _] _].
  unfold opened_count in *. split; [lia|]. intros Ho. specialize (Hcnt Ho). lia.
Qed.

(** C23: the code never panics: in no reachable state does a critical section
    send on a closed channel, close a channel twice, slice an empty queue or
    write to the map after it was set to nil. *)
Theorem outgoing_no_panic (m : Z) w : 0 <= m < 2 ^ 64 -> reachable m w -> ~ panics w.
Proof.
  intros Hm Hr [o He|t id p Ht Hp Hid He|limit He|err He];
    pose proof (winv_reachable _ _ Hm Hr) as Hinv.
  - pose proof (not_elem_of_dom_1 (M := gmap nat) (w_threads w) _ (is_fresh (dom (w_threads w)))) as Hf.
    by eapply ensures_None, He; apply (inv_OpenStream _ _ _ _ o Hinv Hf).
  - by eapply ensures_None, He; apply (inv_critical _ _ _ t id _ p Hinv Ht Hp Hid).
  - unfold UpdateStreamLimit in He. destruct Hinv as [Hp _].
    destruct (o_closeErr (w_s w)) eqn:Ho; [done|]. case_decide; [done|].
    unfold maybeUnblockOpenSync in He. cbn in He. destruct (pre_open _ _ _ Hp Ho) as (_ & Hcl & _).
    destruct (o_openQueue (w_s w)); [done|]. rewrite Hcl in He. repeat case_decide; set_solver.
  - by eapply ensures_None, He; apply (inv_CloseSession _ _ _ err Hinv).
Qed.

(** C2: no wakeup is lost. While the session is open and the peer allows
    another stream, the goroutine at the head of the queue can run: it needs no
    event other than its own turn to take the mutex. Without credit, the
    current limit has been reported to the peer in WT_STREAMS_BLOCKED, or
    a goroutine that can run is about to report it. *)
Theorem outgoing_no_lost_wakeup (m : Z) w (t : nat) :
  0 <= m < 2 ^ 64 -> reachable m w -> o_closeErr (w_s w) = None ->
  head (o_openQueue (w_s w)) = Some t ->
  (o_numStreams (w_s w) < o_maxStreams (w_s w) -> runnable w t) /\
  (o_maxStreams (w_s w) <= o_numStreams (w_s w) ->
   o_maxStreams (w_s w) ∈ w_blocked w \/
   exists t' p, w_threads w !! t' = Some p /\
     pending_blocked p = Some (o_maxStreams (w_s w)) /\ runnable w t').
Proof.
  intros Hm Hr Ho Hh. destruct (binv_reachable _ _ Hm Hr) as [[Hp Hw] Hb]. split.
  - intros Hlt. assert (t ∈ o_openQueue (w_s w)) as Hin.
    { destruct (o_openQueue (w_s w)); simplify_eq/=. by left. }
    destruct (pre_dom _ _ _ Hp t) as [p Ht]; [by left|]. exists p. split; [done|].
    pose proof (pre_thread _ _ _ Hp _ _ Ht) as Hok. apply (ok_queue _ _ _ Hok Ho) in Hin.
    destruct (Hw Ho t Hh Hlt) as [?|E]; [|rewrite Ht in E; simplify_eq; by left].
    destruct p; try done; eauto.
  - intros Hle. destruct (b_sent _ Hb) as [?|(t' & p & Ht & Hp')].
    + apply (b_waiting _ Hb); [done| |done]. by intros E; rewrite E in Hh.
    + by left.
    + right. exists t', p. split_and!; try done. exists p. rewrite Hp'. eauto.
Qed.

(** WT_STREAMS_BLOCKED is queued at most once for each limit, and never for
    a limit that the peer has not set. *)
Theorem outgoing_blocked_once (m : Z) w : 0 <= m < 2 ^ 64 -> reachable m w ->
  NoDup (w_blocked w) /\ (forall l, l ∈ w_blocked w -> l <= o_maxStreams (w_s w)) /\
  (forall t p l, w_threads w !! t = Some p -> pending_blocked p = Some l -> l ∉ w_blocked w).
Proof.
  intros Hm Hr. destruct (binv_reachable _ _ Hm Hr) as [_ [Hnd Hem Hpe _ _ _]].
  split_and!; [done|..]; [intros; by apply Hem|intros; by eapply Hpe].
Qed.

(** Waiting goroutines are served in the order in which they came. A step
    appends to the queue or removes from it without reordering; a goroutine that
    leaves it with credit was its head, and there was credit. *)
Theorem outgoing_fifo (m : Z) w w' (t : nat) (p' : pc T) :
  0 <= m < 2 ^ 64 -> reachable m w -> step w w' ->
  ((exists t, o_openQueue (w_s w') = o_openQueue (w_s w) ++ [t]) \/
   o_openQueue (w_s w') `sublist_of` o_openQueue (w_s w)) /\
  (t ∈ o_openQueue (w_s w) -> w_threads w' !! t = Some p' -> reserved p' = true ->
   head (o_openQueue (w_s w)) = Some t /\ o_numStreams (w_s w) < o_maxStreams (w_s w)).
Proof.
  intros Hm Hr Hs. split; [by apply queue_step|]. intros Hin Ht' Hr'.
  pose proof (winv_reachable _ _ Hm Hr) as [Hp _].
  assert (o_closeErr (w_s w) = None) as Ho.
  { destruct (open_dec (w_s w)) as [|Ho]; [done|].
    destruct (pre_closed _ _ _ Hp Ho) as [E _]. rewrite E in Hin. set_solver. }
  destruct (pre_dom _ _ _ Hp t) as [p Ht]; [by left|].
  pose proof (pre_thread _ _ _ Hp _ _ Ht) as Hok.
  pose proof (proj2 (ok_queue _ _ _ Hok Ho) Hin) as Hq.
  apply (ok_token _ _ _ Hok Ho Hq). right. by eapply served_step.
Qed.

(** C24: closing the session releases everybody: afterwards a goroutine has
    returned, or can run, or is in QUIC's [OpenStreamSync] with a cancelled
    context. No channel is left on which somebody waits for ever. *)
Theorem outgoing_close_releases (m : Z) w (t : nat) (p : pc T) :
  0 <= m < 2 ^ 64 -> reachable m w -> o_closeErr (w_s w) <> None ->
  w_threads w !! t = Some p ->
  (exists r, p = PDone r) \/ runnable w t \/
  (exists id, p = POpening id /\ t ∈ o_cancelled (w_s w)).
Proof.
  intros Hm Hr Hc Ht. pose proof (winv_reachable _ _ Hm Hr) as [Hp _].
  pose proof (pre_thread _ _ _ Hp _ _ Ht) as Hok.
  assert (wants_lock p = true \/ is_Some (pending_blocked p) \/
     p = PWaiting /\ (t ∈ o_chanBuf (w_s w) \/ t ∈ o_chanClosed (w_s w)) -> runnable w t) as Hrun
    by (intros ?; by exists p).
  destruct p as [l|l| | | | |l| |id|id o|r];
    try (right; left; apply Hrun; by auto);
    try (right; left; apply Hrun; right; left; by eexists).
  - right; left. apply Hrun. right; right. split; [done|]. right. by apply (ok_closed _ _ _ Hok).
  - right; right. exists id. split; [done|]. by eapply (ok_cancelled _ _ _ Hok).
  - by left; exists r.
Qed.

(** C25: every stream is closed with the session. A stream that was returned
    to a caller is in the map until it is removed; after [CloseSession],
    [closeWithSession] has been called on it unless it was removed. A goroutine
    that comes back from QUIC with a stream after the session was closed does
    not return the stream: it closes it and returns the session's error. *)
Theorem outgoing_streams_closed (m : Z) w (v : T) (id : Z) :
  reachable m w ->
  ((v, id) ∈ w_opened w ->
   id ∈ w_removed w \/
   match o_m (w_s w) with Some m => m !! id = Some v | None => v ∈ w_closed w end) /\
  (forall t c err w', o_closeErr (w_s w) = Some err ->
   w_threads w !! t = Some (POpened c (Ok (v, id))) ->
   step w w' -> w_threads w' !! t <> w_threads w !! t ->
   w_threads w' !! t = Some (PDone (Err err)) /\ w_closed w' = w_closed w ++ [v] /\
   w_opened w' = w_opened w).
Proof.
  intros Hr. pose proof (sinv_reachable _ _ Hr) as Hs. split.
  { intros Hin. by destruct (s_opened _ Hs _ _ Hin). }
  intros t c err w' Hc Ht Hstep Hne. clear Hs Hr.
  destruct Hstep; cbn in *; unfold goto in *; try done;
    match type of Hne with <[?t0 := _]> _ !! _ <> _ =>
      destruct (decide (t0 = t)) as [->|]; [|by rewrite lookup_insert_ne in Hne] end; simplify_eq.
  rewrite lookup_insert_eq. unfold critical, OpenStreamSyncFinish in *. cbn in *.
  rewrite Hc in *. simplify_option_eq. by rewrite app_nil_r.
Qed.

End guarantees.

Arguments action : clear implicits.

(** ** Witnesses *)

(** Limit 1: goroutine 0 opens a stream, goroutine 1 waits, reports the limit,
    and is woken by the new limit 2. *)
Definition exampleWait : list (action nat) :=
  [AOpenStream 0 (Ok (7%nat, 0)); AOpenStreamSync 1 5; AQueueBlocked 1; ACritical 1 5;
   AUpdateStreamLimit 2].

(** ... it takes its turn and opens a stream, and then the session is closed. *)
Definition exampleOpen : list (action nat) :=
  exampleWait ++ [AReceive 1; ACritical 1 5; AQUIC 1 (Ok (8%nat, 4)); ACloseSession ErrCanceled].

Definition exampleWaiting : world nat := default (newWorld 1) (acts (newWorld 1) exampleWait).
Definition exampleWoken : world nat := default (newWorld 1) (act exampleWaiting (AReceive 1)).
Definition exampleServed : world nat := default (newWorld 1) (act exampleWoken (ACritical 1 5)).
Definition exampleClosed : world nat := default (newWorld 1) (acts (newWorld 1) exampleOpen).

Lemma exampleWaiting_reachable : reachable 1 exampleWaiting.
Proof. apply (acts_sound _ exampleWait). vm_compute. reflexivity. Qed.

Lemma exampleWoken_reachable : reachable 1 exampleWoken.
Proof. apply (acts_sound _ (exampleWait ++ [AReceive 1])). vm_compute. reflexivity. Qed.

Lemma exampleClosed_reachable : reachable 1 exampleClosed.
Proof. apply (acts_sound _ exampleOpen). vm_compute. reflexivity. Qed.

Lemma outgoing_limit_respected_witness :
  w_opened exampleWaiting = [(7%nat, 0)] /\
  Z.of_nat (length (w_opened exampleWaiting)) <= o_maxStreams (w_s exampleWaiting) < 2 ^ 64.
Proof.
  split; [vm_compute; reflexivity|].
  apply (outgoing_limit_respected 1 exampleWaiting); [lia|exact exampleWaiting_reachable].
Defined.

Lemma outgoing_no_panic_witness : ~ panics exampleWaiting.
Proof. apply (outgoing_no_panic 1); [lia|exact exampleWaiting_reachable]. Defined.

Lemma outgoing_no_lost_wakeup_witness : runnable exampleWaiting 1.
Proof.
  apply (outgoing_no_lost_wakeup 1 exampleWaiting 1).
  - lia.
  - exact exampleWaiting_reachable.
  - vm_compute; reflexivity.
  - vm_compute; reflexivity.
  - vm_compute; reflexivity.
Defined.

Lemma outgoing_blocked_once_witness :
  w_blocked exampleWaiting = [1] /\ NoDup (w_blocked exampleWaiting).
Proof.
  split; [vm_compute; reflexivity|].
  apply (outgoing_blocked_once 1); [lia|exact exampleWaiting_reachable].
Defined.

Lemma outgoing_fifo_witness :
  head (o_openQueue (w_s exampleWoken)) = Some 1%nat /\
  o_numStreams (w_s exampleWoken) < o_maxStreams (w_s exampleWoken).
Proof.
  apply (outgoing_fifo 1 exampleWoken exampleServed 1 (POpening 5)).
  - lia.
  - exact exampleWoken_reachable.
  - apply (act_sound _ (ACritical 1 5)). vm_compute; reflexivity.
  - vm_compute. left.
  - vm_compute; reflexivity.
  - reflexivity.
Defined.

Lemma outgoing_close_releases_witness :
  (exists r, POpened 5 (Ok (8%nat, 4)) = PDone r) \/ runnable exampleClosed 1 \/
  (exists id, POpened 5 (Ok (8%nat, 4)) = POpening id /\ 1%nat ∈ o_cancelled (w_s exampleClosed)).
Proof.
  apply (outgoing_close_releases 1).
  - lia.
  - exact exampleClosed_reachable.
  - vm_compute; discriminate.
  - vm_compute; reflexivity.
Defined.

Lemma outgoing_streams_closed_witness :
  0 ∈ w_removed exampleClosed \/ 7%nat ∈ w_closed exampleClosed.
Proof.
  apply (outgoing_streams_closed 1 exampleClosed 7%nat 0).
  - exact exampleClosed_reachable.
  - vm_compute. left.
Defined.
