(* ===== verification/Semaphore.v ===== *)
(** * The map of outgoing streams as a first-in first-out semaphore

    An abstract specification of [OutgoingStreams]: a counting semaphore with a
    queue, whose limit can be raised and which can be shut. The goroutines of
    [OutgoingStreamsSafety] refine it: what they and the peer can observe of each
    other, credit given and taken back, the queue, limits and the end, is what
    the semaphore allows. *)

From S2P Require Import Prelude Refinement Errors Protocol OutgoingStreams OutgoingStreamsSafety OutgoingStreamsGuarantees.

(** ** The specification *)

Record semaphore := mkSemaphore {
  sem_limit : Z;
  sem_used : Z;
  sem_queue : list nat;
  sem_open : bool;
}.

Inductive sem_event : Type :=
(** goroutine [t] gets credit for a stream; joins the queue; leaves it without *)
| Grant (t : nat)
| Enqueue (t : nat)
| Leave (t : nat)
(** it gives back its credit, because QUIC did not open the stream *)
| Release (t : nat)
| Raise (limit : Z)
| Shut.

Definition newSemaphore (limit : Z) : semaphore := mkSemaphore limit 0 [] true.

Inductive sem_step : semaphore -> option sem_event -> semaphore -> Prop :=
| sem_grant l n t : n < l -> sem_step (mkSemaphore l n [] true) (Some (Grant t)) (mkSemaphore l (n + 1) [] true)
| sem_serve l n t q : n < l -> sem_step (mkSemaphore l n (t :: q) true) (Some (Grant t)) (mkSemaphore l (n + 1) q true)
| sem_enqueue l n q t : q <> [] \/ l <= n -> t ∉ q ->
    sem_step (mkSemaphore l n q true) (Some (Enqueue t)) (mkSemaphore l n (q ++ [t]) true)
| sem_leave l n q t : t ∈ q ->
    sem_step (mkSemaphore l n q true) (Some (Leave t)) (mkSemaphore l n (filter (fun c => c <> t) q) true)
| sem_release l n q t : 0 < n -> sem_step (mkSemaphore l n q true) (Some (Release t)) (mkSemaphore l (n - 1) q true)
| sem_raise l n q l' : l < l' -> sem_step (mkSemaphore l n q true) (Some (Raise l')) (mkSemaphore l' n q true)
| sem_shut l n q : sem_step (mkSemaphore l n q true) (Some Shut) (mkSemaphore l n [] false).

(** A step that can be unobservable, and then changes nothing. *)
Definition sem_moves (a : semaphore) (o : option sem_event) (a' : semaphore) : Prop :=
  match o with None => a' = a | Some _ => sem_step a o a' end.

Section refinement.
Context {T : Type}.
Implicit Types (w : world T) (s : outgoingStreamsMap T) (p : pc T).

(** ** What can be observed of the goroutines *)

(** Goroutine [t] went from [p] to [p']. *)
Definition event_of (t : nat) (x x' : option (pc T)) : option sem_event :=
  match x, x' with
  | None, Some p' =>
      if queued p' then Some (Enqueue t)
      else if reserved p' then Some (Grant t)
      else match p' with PDone (Ok _) => Some (Grant t) | _ => None end
  | Some p, Some p' =>
      if queued p then
        if queued p' then None else if reserved p' then Some (Grant t) else Some (Leave t)
      else if reserved p then
        match p' with PDone (Err _) => Some (Release t) | _ => None end
      else None
  | _, None => None
  end.

Definition isOpen s : bool := match o_closeErr s with None => true | Some _ => false end.

(** A step of the goroutines with what can be observed of it; nothing can once
    the session is closed. *)
Definition observes w (o : option sem_event) w' : Prop :=
  if isOpen (w_s w) then
    match o with
    | Some Shut => isOpen (w_s w') = false
    | Some (Raise l) => l = o_maxStreams (w_s w') /\ l <> o_maxStreams (w_s w)
    | Some e => exists t, event_of t (w_threads w !! t) (w_threads w' !! t) = Some e
    | None => isOpen (w_s w') = true /\ o_maxStreams (w_s w') = o_maxStreams (w_s w) /\
        forall t, event_of t (w_threads w !! t) (w_threads w' !! t) = None
    end
  else o = None.

Definition observed w (o : option sem_event) w' : Prop := step w w' /\ observes w o w'.

(** The semaphore that a map is. *)
Definition semaphoreOf s : semaphore := mkSemaphore (o_maxStreams s) (o_numStreams s) (o_openQueue s) (isOpen s).

(** ** Lemmas *)

Lemma event_same t (x : option (pc T)) : event_of t x x = None.
Proof. destruct x as [[]|]; done. Qed.

Lemma event_thread t (x x' : option (pc T)) e : event_of t x x' = Some e -> e <> Shut /\ forall l, e <> Raise l.
Proof. unfold event_of. intros H. repeat case_match; simplify_eq; split; try done; by intros. Qed.

(** The events of a step of one goroutine that does not close the session or
    raise the limit. *)
Lemma observes_goto w o s t p' ctx bl op cl re ids : isOpen (w_s w) = true -> isOpen s = true ->
  o_maxStreams s = o_maxStreams (w_s w) ->
  observes w o (mkWorld s (goto t p' w) ctx bl op cl re ids) <-> o = event_of t (w_threads w !! t) (Some p').
Proof.
  intros Ho Hs Hm. unfold observes, goto. rewrite Ho. cbn. set (e := event_of t _ _).
  assert (forall t', event_of t' (w_threads w !! t') (<[t:=p']> (w_threads w) !! t') = if decide (t' = t) then e else None) as He.
  { intros t'. destruct (decide (t' = t)) as [->|]; [by rewrite lookup_insert_eq|].
    by rewrite lookup_insert_ne, event_same by done. }
  assert (forall e', (exists t', event_of t' (w_threads w !! t') (<[t:=p']> (w_threads w) !! t') = Some e') <-> Some e' = e) as Hex.
  { intros e'. split; [intros [t' H]; rewrite He in H; by case_decide|]. intros ->. exists t. rewrite He. by case_decide. }
  pose proof (event_thread t (w_threads w !! t) (Some p')) as Hne. fold e in Hne.
  destruct o as [[]|]; try apply Hex.
  - split; [intros []; congruence|]. intros H. by destruct (proj2 (Hne _ (eq_sym H)) limit).
  - split; [congruence|]. intros H. by destruct (proj1 (Hne _ (eq_sym H))).
  - split; [|intros H; split_and!; try done; intros t'; rewrite He; by case_decide].
    intros (_ & _ & H). specialize (H t). rewrite He in H. by case_decide.
Qed.

(** Nothing but the state of the map changes. *)
Lemma observes_map w o s ctx bl op cl re ids : isOpen (w_s w) = true ->
  observes w o (mkWorld s (w_threads w) ctx bl op cl re ids) <->
  match o with
  | Some Shut => isOpen s = false
  | Some (Raise l) => l = o_maxStreams s /\ l <> o_maxStreams (w_s w)
  | Some _ => False
  | None => isOpen s = true /\ o_maxStreams s = o_maxStreams (w_s w)
  end.
Proof.
  intros Ho. unfold observes. rewrite Ho. cbn. destruct o as [[]|]; try done;
    try (split; [intros [t' H]; by rewrite event_same in H|done]).
  split; [tauto|]. intros [? ?]. split_and!; try done. intros. apply event_same.
Qed.

(** What one goroutine does with the mutex, while the session is open. *)
Definition does (t : nat) (x : option (pc T)) (p' : pc T) s s' : Prop :=
  isOpen s' = true /\ o_maxStreams s' = o_maxStreams s /\
  sem_moves (semaphoreOf s) (event_of t x (Some p')) (semaphoreOf s').

Lemma does_OpenStream s th n t o r b s' : inv s th n -> isOpen s = true ->
  OpenStream o s = Some (r, b, s') ->
  does t None (match b with Some l => PBlocked0 l | None => PDone r end) s s'.
Proof.
  intros [Hp _] Ho. pose proof (pre_num _ _ _ Hp) as Hn. unfold isOpen in Ho.
  unfold OpenStream, insertStream, does, semaphoreOf, isOpen. destruct (o_closeErr s) eqn:Hc; [done|].
  case_decide as Hq; [intros; simplify_eq; by rewrite Hc|]. case_decide as Hl.
  { destruct (o_blockedSent s); intros; simplify_eq/=; by rewrite ?Hc. }
  assert (o_openQueue s = []) as Eq by (destruct (o_openQueue s); [done|cbn in Hq; lia]).
  intros H. destruct o as [[v id]|e]; simplify_option_eq; unblocked; cbn; rewrite ?Hc, Eq, (u64_id (_ + 1)) by lia.
  - split_and!; try done. apply sem_grant. lia.
  - rewrite u64_id by lia. split_and!; try done. f_equal. lia.
Qed.

Lemma does_Start s th n t id ctxErr p s' : inv s th n -> isOpen s = true -> th !! t = None ->
  (let '(r, s') := OpenStreamSyncStart t ctxErr s in resume t id PBlocked1 r s') = Some (p, s') ->
  does t None p s s'.
Proof.
  intros [Hp _] Ho Ht. pose proof (pre_num _ _ _ Hp) as Hn. pose proof (proj1 (fresh_not_queued _ _ _ _ Hp Ht)).
  unfold isOpen in Ho. unfold OpenStreamSyncStart, waitStart, does, semaphoreOf, isOpen.
  destruct (o_closeErr s) eqn:Hc; [done|]. destruct ctxErr; [intros; simplify_eq/=; by rewrite Hc|].
  case_decide as Hf.
  { unfold resume. intros; simplify_option_eq.
    match goal with H : addStreamCtxCancel _ _ _ = _ |- _ => apply blk_register in H as [c ->] end.
    cbn. rewrite Hc. destruct Hf as [-> ?]. rewrite u64_id by lia. split_and!; try done. by apply sem_grant. }
  assert (o_openQueue s <> [] \/ o_maxStreams s <= o_numStreams s) as Hw.
  { destruct (o_openQueue s); [right|by left]. apply Z.nlt_ge. by intros ?; apply Hf. }
  case_decide; intros; simplify_eq/=; rewrite Hc; split_and!; try done; by apply sem_enqueue.
Qed.

Lemma does_critical s th n t id ctxErr p p' closed s' : inv s th n -> isOpen s = true -> th !! t = Some p ->
  wants_lock p = true -> critical t id ctxErr p s = Some (p', closed, s') -> does t (Some p) p' s s'.
Proof.
  intros [Hp _] Ho Ht Hw He. pose proof (pre_num _ _ _ Hp) as Hn. unfold isOpen in Ho.
  pose proof (pre_thread _ _ _ Hp _ _ Ht) as Hok. destruct (o_closeErr s) eqn:Hc; [done|].
  unfold does, semaphoreOf, isOpen. destruct p; try done; unfold critical in He.
  - unfold waitAfterBlocked, resume in He. rewrite Hc in He. by simplify_option_eq.
  - unfold waitCtxDone, deleteChan in He. simplify_option_eq. unblocked. cbn. rewrite ?Hc.
    split_and!; try done. apply sem_leave. by apply (ok_queue _ _ _ Hok).
  - destruct (ok_token _ _ _ Hok Hc eq_refl (or_intror eq_refl)) as [Hh Hlt].
    unfold waitWoken, deleteChan in He. rewrite Hc in He. destruct ctxErr as [err|].
    { simplify_option_eq. unblocked. cbn. rewrite ?Hc.
      split_and!; try done. apply sem_leave. by apply (ok_queue _ _ _ Hok). }
    cbn in He. destruct (o_openQueue s) as [|c q] eqn:Eq; [done|]. simplify_eq/=.
    rewrite u64_id in He by lia. 
    destruct (decide _) as [Hb|Hb] in He; [destruct (o_blockedSent s)|]; unfold resume in He; simplify_option_eq; unblocked;
      repeat match goal with H : addStreamCtxCancel _ _ _ = _ |- _ => apply blk_register in H as [? ->] end;
      cbn; rewrite ?Hc; split_and!; try done; by apply sem_serve.
  - unfold waitAfterBlocked2, resume in He. rewrite Hc in He. simplify_option_eq.
    match goal with H : addStreamCtxCancel _ _ _ = _ |- _ => apply blk_register in H as [c ->] end.
    cbn. by rewrite ?Hc.
  - pose proof (pre_count _ _ _ Hp Hc). pose proof (reserved_count th t (reserved_at_Some _ _ _ Ht)).
    unfold OpenStreamSyncFinish, insertStream in He. cbn in He. rewrite Hc in He.
    destruct r as [[v sid]|e]; simplify_option_eq; unblocked; cbn; rewrite ?Hc; [done|].
    rewrite u64_id by lia. split_and!; try done. apply sem_release. lia.
Qed.

(** When the session is closed, nothing changes any more. *)
Lemma closed_map w w' : winv w -> isOpen (w_s w) = false -> step w w' -> semaphoreOf (w_s w') = semaphoreOf (w_s w).
Proof.
  intros [Hp _] Ho Hstep. unfold isOpen in Ho. destruct (o_closeErr (w_s w)) as [ce|] eqn:Hc; [|done].
  destruct (pre_closed _ _ _ Hp) as [Hq Hm]; [congruence|]. unfold semaphoreOf, isOpen.
  destruct Hstep as [w t o r b s Hth Hf He|w t id p s Hth Hid He|w t p l Hth Hl|w t err Hth He|w t Hth Hb
    |w t Hth Hb|w t id p p' closed s Hth Hw Hid He|w t id o Hth Hf|w limit e s Hl He
    |w err closed s He|w id|w t err He]; cbn in *; try done.
  - unfold OpenStream in He. rewrite Hc in He. by simplify_eq.
  - unfold OpenStreamSyncStart in He. rewrite Hc in He. by simplify_eq/=.
  - destruct p; try done; unfold critical, waitAfterBlocked, waitAfterBlocked2, waitWoken, waitCtxDone, OpenStreamSyncFinish in He;
      rewrite ?Hc in He; simplify_option_eq; unblocked; cbn; rewrite ?Hc, ?Hq; try done.
    destruct r as [[]|]; simplify_eq/=; by rewrite Hc, Hq.
  - unfold UpdateStreamLimit in He. rewrite Hc in He. by simplify_eq.
  - unfold CloseSession in He. rewrite Hc in He. by simplify_eq.
Qed.

(** Every step has exactly one observation, and the semaphore makes the same move. *)
Definition simulated w w' : Prop :=
  exists o, (forall o', observes w o' w' <-> o' = o) /\ sem_moves (semaphoreOf (w_s w)) o (semaphoreOf (w_s w')).

Lemma simulated_goto w t x s p' ctx bl op cl re ids : isOpen (w_s w) = true -> w_threads w !! t = x ->
  does t x p' (w_s w) s -> simulated w (mkWorld s (goto t p' w) ctx bl op cl re ids).
Proof.
  intros Ho <- (Hs & Hm & Hd). eexists. split; [|exact Hd]. intros o. by apply observes_goto.
Qed.

Lemma same_map s : s = set_chanBuf (o_chanBuf s) s.
Proof. by destruct s. Qed.

(** A goroutine that does not take the mutex. *)
Lemma simulated_quiet w t p s p' ctx bl op cl re ids : isOpen (w_s w) = true -> w_threads w !! t = Some p ->
  event_of t (Some p) (Some p') = None -> (exists b, s = set_chanBuf b (w_s w)) ->
  simulated w (mkWorld s (goto t p' w) ctx bl op cl re ids).
Proof. intros Ho Ht He [b ->]. eapply simulated_goto; [done..|]. split_and!; [done..|]. by rewrite He. Qed.

Lemma simulated_map w s o ctx bl op cl re ids : isOpen (w_s w) = true ->
  (forall o', match o' with
    | Some Shut => isOpen s = false
    | Some (Raise l) => l = o_maxStreams s /\ l <> o_maxStreams (w_s w)
    | Some _ => False
    | None => isOpen s = true /\ o_maxStreams s = o_maxStreams (w_s w)
    end <-> o' = o) ->
  sem_moves (semaphoreOf (w_s w)) o (semaphoreOf s) -> simulated w (mkWorld s (w_threads w) ctx bl op cl re ids).
Proof. intros Ho He Hm. exists o. split; [|done]. intros o'. by rewrite observes_map. Qed.

Lemma simulated_same w s ctx bl op cl re ids : isOpen (w_s w) = true ->
  semaphoreOf s = semaphoreOf (w_s w) -> simulated w (mkWorld s (w_threads w) ctx bl op cl re ids).
Proof.
  intros Ho He. apply (simulated_map _ _ None); [done| |done].
  injection He as Hm Hn Hq Hs. intros [[]|]; rewrite ?Hm, ?Hs, ?Ho; naive_solver.
Qed.

Lemma simulated_Update w limit e s ctx bl op cl re ids : winv w -> isOpen (w_s w) = true ->
  UpdateStreamLimit limit (w_s w) = Some (e, s) -> simulated w (mkWorld s (w_threads w) ctx bl op cl re ids).
Proof.
  intros [Hp _] Ho. pose proof (pre_num _ _ _ Hp) as Hn. pose proof Ho as Ho'. unfold isOpen in Ho'. unfold UpdateStreamLimit.
  destruct (o_closeErr (w_s w)) eqn:Hc; [done|]. case_decide; intros He; simplify_option_eq; [by apply simulated_same|].
  unblocked. apply (simulated_map _ _ (Some (Raise limit))); [done| |].
  - unfold isOpen. cbn. rewrite Hc. intros [[]|]; split; try done; [by intros [-> ?]|intros [= ->]; split; [done|lia]|lia].
  - unfold semaphoreOf, isOpen. cbn. rewrite Hc. apply sem_raise. lia.
Qed.

Lemma simulated_Close w err closed s ctx bl op cl re ids : winv w -> isOpen (w_s w) = true ->
  CloseSession err (w_s w) = Some (closed, s) -> simulated w (mkWorld s (w_threads w) ctx bl op cl re ids).
Proof.
  intros [Hp _] Ho. pose proof Ho as Ho'. unfold isOpen in Ho'. unfold CloseSession.
  destruct (o_closeErr (w_s w)) eqn:Hc; [done|]. destruct (pre_open _ _ _ Hp Hc) as (Hnd & Hch & _).
  rewrite closeChans_spec by (done || (cbn; rewrite Hch; set_solver)). intros [= <- <-].
  apply (simulated_map _ _ (Some Shut)); [done| |].
  - cbn. intros [[]|]; split; try done; [|by intros []]. intros [-> ?]. done.
  - unfold semaphoreOf, isOpen. cbn. rewrite Hc. apply sem_shut.
Qed.

Lemma step_simulated w w' : winv w -> step w w' -> simulated w w'.
Proof.
  intros Hinv Hstep. destruct (isOpen (w_s w)) eqn:Ho.
  2: { exists None. split; [intros o'; unfold observes; by rewrite Ho|]. by apply closed_map. }
  destruct Hstep as [w t o r b s Hth Hf He|w t id p s Hth Hid He|w t p l Hth Hl|w t err Hth He|w t Hth Hb
    |w t Hth Hb|w t id p p' closed s Hth Hw Hid He|w t id o Hth Hf|w limit e s Hl He
    |w err closed s He|w id|w t err He].
  - by eapply simulated_goto, does_OpenStream.
  - by eapply simulated_goto, does_Start.
  - eapply simulated_quiet; [done..| |eauto using same_map]. by destruct p.
  - by eapply simulated_quiet; [..|eauto using same_map].
  - by eapply simulated_quiet; [..|eauto].
  - by eapply simulated_quiet; [..|eauto using same_map].
  - by eapply simulated_goto, does_critical.
  - by eapply simulated_quiet; [..|eauto using same_map].
  - by eapply simulated_Update.
  - by eapply simulated_Close.
  - by apply simulated_same.
  - by apply simulated_same.
Qed.

Lemma simulated_exec a o a' : sem_moves a o a' -> execution sem_step a (option_list o) a'.
Proof. destruct o; intros H; [by apply exec_one|]. rewrite H. apply exec_nil. Qed.

(** The map is the semaphore in every reachable state. *)
Lemma semaphore_simulation m : 0 <= m < 2 ^ 64 ->
  ForwardSimulation (newWorld m) observed (newSemaphore m) sem_step
    (fun w a => reachable m w /\ a = semaphoreOf (w_s w)).
Proof.
  intros Hm. constructor; [split; [apply rtc_refl|done]|]. intros w a o w' [Hr ->] [Hst Ho].
  pose proof (winv_reachable _ _ Hm Hr) as Hinv. destruct (step_simulated _ _ Hinv Hst) as (o1 & Hobs & Hmv).
  apply Hobs in Ho as ->. eexists. split; [by apply simulated_exec|]. split; [|done]. by eapply rtc_r.
Qed.

Lemma reachable_execution m w : 0 <= m < 2 ^ 64 ->
  reachable m w <-> exists t, execution observed (newWorld m) t w.
Proof.
  intros Hm. split.
  - intros H. unfold reachable in H. apply (rtc_ind_r (fun w => exists t, execution observed (newWorld m) t w)) in H; [done|..].
    + exists []. apply exec_nil.
    + intros w1 w2 Hr Hst [t Ht]. destruct (step_simulated _ _ (winv_reachable _ _ Hm Hr) Hst) as (o & Hobs & _).
      eexists. eapply exec_snoc; [done|]. split; [done|]. by apply Hobs.
  - intros [t Ht]. apply (rtc_subrel (silent observed)); [|apply rtc_exec; by exists t].
    by intros ? ? (o & ? & _).
Qed.

(** C1: the map of outgoing streams implements a first-in first-out semaphore,
    and the limit of the peer is never exceeded. Every state that concurrent
    calls of [OpenStream] and [OpenStreamSync], limit updates, stream removals,
    cancellations and closing the session can reach, interleaved in any way, is
    the end of an execution with observations, and every step from there has
    exactly one; the semaphore can do what is observed in any such execution,
    and its state is then that of the map. So credit goes to a caller that does
    not wait only when nobody waits, and otherwise to the one that has waited
    longest, never beyond the limit, and what is taken without a stream being
    opened is given back. The streams that were returned are at most the limit,
    and while the session is open the 64-bit counter is their number and that of
    the goroutines that are about to open one. *)
Theorem outgoing_refines_semaphore m w : 0 <= m < 2 ^ 64 ->
  (reachable m w <-> exists t, execution observed (newWorld m) t w) /\
  (reachable m w -> forall w', step w w' -> exists! o, observes w o w') /\
  (forall t, execution observed (newWorld m) t w ->
    execution sem_step (newSemaphore m) t (semaphoreOf (w_s w))) /\
  (reachable m w -> let a := semaphoreOf (w_s w) in
    Z.of_nat (length (w_opened w)) <= sem_limit a < 2 ^ 64 /\
    (sem_open a = true ->
     sem_used a = Z.of_nat (length (w_opened w)) + Z.of_nat (nreserved (w_threads w)) /\
     sem_used a <= sem_limit a)).
Proof.
  intros Hm. split; [by apply reachable_execution|]. split_and!.
  - intros Hr w' Hst. destruct (step_simulated _ _ (winv_reachable _ _ Hm Hr) Hst) as (o & Ho & _).
    exists o. split; [by apply Ho|]. by intros o' ->%Ho.
  - intros t Ht. by destruct (sim_from_init _ _ _ _ (semaphore_simulation m Hm) _ _ Ht) as (a & Ha & _ & ->).
  - intros Hr. destruct (outgoing_limit_respected m w Hm Hr) as [Hle Heq]. split; [done|].
    unfold semaphoreOf, isOpen. cbn. destruct (o_closeErr (w_s w)); [done|]. intros _. by apply Heq.
Qed.

End refinement.

(** ** Witnesses *)

(** Limit 1, raised to 2: goroutine 0 has a stream, goroutine 1 waits. *)
Lemma outgoing_refines_semaphore_witness :
  semaphoreOf (w_s exampleWaiting) = mkSemaphore 2 1 [1%nat] true /\
  exists t, execution sem_step (newSemaphore 1) t (semaphoreOf (w_s exampleWaiting)).
Proof.
  split; [vm_compute; reflexivity|].
  destruct (outgoing_refines_semaphore 1 exampleWaiting) as (Hr & _ & Hs & _); [lia|].
  destruct (proj1 Hr exampleWaiting_reachable) as [t Ht]. exists t. exact (Hs t Ht).
Defined.
