(* ===== verification/IncomingStreams.v ===== *)
(** * Incoming streams ([streams_map_incoming.go])

    The accept queue and the map of incoming streams of a session. A method is
    cut where it releases a mutex, and the pieces are composed twice: here
    without interruption ([AddStream], [RemoveStream]), and in
    [IncomingStreamsSafety] with everything else in between.

    The context of the map is the cause it was cancelled with; the notification
    channel has one buffered place, so it is a boolean. [None] is a Go panic. *)

From S2P Require Import Prelude Errors Quicvarint Protocol.

(** ** The accept queue *)

Record acceptQueue (T : Type) := mkAcceptQueue {
  (** the channel holds a notification *)
  aq_c : bool;
  aq_queue : list T;
}.
Arguments mkAcceptQueue {T} _ _.
Arguments aq_c {T} _.
Arguments aq_queue {T} _.

Definition newAcceptQueue {T} : acceptQueue T := mkAcceptQueue false [].

(** [add] appends with the mutex held, and notifies after releasing it; when
    the channel is full the [default] case is taken. *)
Definition acceptQueue_append {T} (strm : T) (q : acceptQueue T) : acceptQueue T :=
  mkAcceptQueue (aq_c q) (aq_queue q ++ [strm]).

Definition acceptQueue_notify {T} (q : acceptQueue T) : acceptQueue T :=
  mkAcceptQueue true (aq_queue q).

Definition acceptQueue_add {T} (strm : T) (q : acceptQueue T) : acceptQueue T :=
  acceptQueue_notify (acceptQueue_append strm q).

Definition acceptQueue_next {T} (q : acceptQueue T) : option T * acceptQueue T :=
  match aq_queue q with
  | [] => (None, q)
  | strm :: queue => (Some strm, mkAcceptQueue (aq_c q) queue)
  end.

(** ** The map *)

Section incoming.
Context {T : Type}.

Record incomingStreamsMap := mkIncomingStreamsMap {
  (** [context.Cause(s.ctx)] *)
  i_closeErr : option error;
  i_acceptQueue : acceptQueue T;
  i_queuedMaxStreams : Z;
  (** [None] is the nil map *)
  i_m : option (gmap Z T);
  i_numStreams : Z;
  i_maxStreams : Z;
  i_maxOpenStreams : Z;
}.

Definition newIncomingStreamsMap (maxOpenStreams : Z) : incomingStreamsMap :=
  let maxOpenStreams := Z.min maxOpenStreams maxStreamsLimit in
  mkIncomingStreamsMap None newAcceptQueue maxOpenStreams (Some ∅) 0 maxOpenStreams
    maxOpenStreams.

Definition set_acceptQueue (q : acceptQueue T) (s : incomingStreamsMap) : incomingStreamsMap :=
  mkIncomingStreamsMap (i_closeErr s) q (i_queuedMaxStreams s) (i_m s) (i_numStreams s)
    (i_maxStreams s) (i_maxOpenStreams s).

(** The first critical section of [AddStream]. *)
Inductive addResult : Type :=
(** closed: the stream is closed with this error *)
| AddClosed (closeErr : error)
(** the peer exceeded its limit *)
| AddRefused (err : error)
| Added.

Definition addLocked (id : Z) (strm : T) (s : incomingStreamsMap)
  : option (addResult * incomingStreamsMap) :=
  match i_closeErr s with
  | Some closeErr => Some (AddClosed closeErr, s)
  | None =>
      if decide (i_maxStreams s <= i_numStreams s) then
        Some (AddRefused (ErrHTTP3 WTFlowControlErrorCode
                (str "webtransport: peer opened more than " ++ itoa (i_maxStreams s)
                 ++ str " streams")), s)
      else
        m ← i_m s;
        Some (Added, mkIncomingStreamsMap (i_closeErr s) (i_acceptQueue s) (i_queuedMaxStreams s)
          (Some (<[id := strm]> m)) (u64 (i_numStreams s + 1)) (i_maxStreams s)
          (i_maxOpenStreams s))
  end.

(** The whole method: its result, and the calls of [closeWithSession]. *)
Definition AddStream (id : Z) (strm : T) (s : incomingStreamsMap)
  : option (option error * list (T * error) * incomingStreamsMap) :=
  '(r, s) ← addLocked id strm s;
  match r with
  | AddClosed closeErr => Some (None, [(strm, closeErr)], s)
  | AddRefused err => Some (Some err, [], s)
  | Added => Some (None, [], set_acceptQueue (acceptQueue_add strm (i_acceptQueue s)) s)
  end.

(** The first critical section of [RemoveStream]: the new limit, if the second
    one is to queue it. *)
Definition removeLocked (id : Z) (s : incomingStreamsMap) : option Z * incomingStreamsMap :=
  match default ∅ (i_m s) !! id with
  | None => (None, s)
  | Some _ =>
      let m := delete id (default ∅ (i_m s)) in
      let s := mkIncomingStreamsMap (i_closeErr s) (i_acceptQueue s) (i_queuedMaxStreams s)
        (Some m) (i_numStreams s) (i_maxStreams s) (i_maxOpenStreams s) in
      if decide (Z.of_nat (size m) < i_maxOpenStreams s /\ i_maxStreams s < maxStreamsLimit) then
        let maxStreams := Z.min (u64 (u64 (i_numStreams s + i_maxOpenStreams s)
          - Z.of_nat (size m))) maxStreamsLimit in
        if decide (i_maxStreams s < maxStreams) then
          (Some maxStreams, mkIncomingStreamsMap (i_closeErr s) (i_acceptQueue s)
            (i_queuedMaxStreams s) (Some m) (i_numStreams s) maxStreams (i_maxOpenStreams s))
        else (None, s)
      else (None, s)
  end.

(** The second critical section, with the other mutex: the calls of
    [queueMaxStreams]. *)
Definition removeQueue (maxStreams : Z) (s : incomingStreamsMap) : list Z * incomingStreamsMap :=
  if decide (i_queuedMaxStreams s < maxStreams) then
    ([maxStreams], mkIncomingStreamsMap (i_closeErr s) (i_acceptQueue s) maxStreams (i_m s)
      (i_numStreams s) (i_maxStreams s) (i_maxOpenStreams s))
  else ([], s).

Definition RemoveStream (id : Z) (s : incomingStreamsMap) : list Z * incomingStreamsMap :=
  match removeLocked id s with
  | (Some maxStreams, s) => removeQueue maxStreams s
  | (None, s) => ([], s)
  end.

(** [AcceptStream] before its loop, and one turn of the loop up to the
    [select]: what it returns, if it returns. *)
Definition acceptStart (s : incomingStreamsMap) : option error := i_closeErr s.

Definition acceptTry (s : incomingStreamsMap) : option T * incomingStreamsMap :=
  let '(r, q) := acceptQueue_next (i_acceptQueue s) in (r, set_acceptQueue q s).

(** The case [<-s.acceptQueue.c] of the [select]. *)
Definition acceptReceive (s : incomingStreamsMap) : option incomingStreamsMap :=
  if aq_c (i_acceptQueue s)
  then Some (set_acceptQueue (mkAcceptQueue false (aq_queue (i_acceptQueue s))) s)
  else None.

(** The first component lists the streams on which [closeWithSession(err)] is
    called. *)
Definition CloseSession (err : error) (s : incomingStreamsMap) : list T * incomingStreamsMap :=
  match i_closeErr s with
  | Some _ => ([], s)
  | None =>
      ((map_to_list (default ∅ (i_m s))).*2,
       mkIncomingStreamsMap (Some err) (i_acceptQueue s) (i_queuedMaxStreams s) None
         (i_numStreams s) (i_maxStreams s) (i_maxOpenStreams s))
  end.

End incoming.

Arguments incomingStreamsMap : clear implicits.

(** ** Sequential behaviour

    The invariant between two calls when no method is interrupted: the limit
    leaves room for exactly the streams that may still be open at the same
    time, and has been queued. *)

Section sequential.
Context {T : Type}.
Implicit Types (s : incomingStreamsMap T) (m : gmap Z T).

(** The limit that goes with [num] streams, [open] of which are open. *)
Definition limitFor (maxOpen num open : Z) : Z := Z.min (num - open + maxOpen) maxStreamsLimit.

Definition credit_inv s : Prop :=
  forall m, i_m s = Some m ->
  0 <= i_maxOpenStreams s <= maxStreamsLimit /\
  Z.of_nat (size m) <= i_numStreams s <= i_maxStreams s /\
  i_maxStreams s = limitFor (i_maxOpenStreams s) (i_numStreams s) (Z.of_nat (size m)).

Lemma maxStreamsLimit_val : maxStreamsLimit = 2 ^ 60.
Proof. reflexivity. Qed.

Lemma credit_new maxOpen : 0 <= maxOpen -> credit_inv (newIncomingStreamsMap maxOpen : incomingStreamsMap T).
Proof.
  intros ? m [= <-]. cbn. unfold limitFor. pose proof maxStreamsLimit_val.
  rewrite map_size_empty. lia.
Qed.

(** The streams that are open at the same time are within the configured
    maximum. *)
Lemma credit_open_bound s m : credit_inv s -> i_m s = Some m ->
  Z.of_nat (size m) <= i_maxOpenStreams s.
Proof. intros H Hm. destruct (H m Hm) as (? & ? & E). unfold limitFor in E. lia. Qed.

Lemma credit_add s id strm r s' : credit_inv s ->
  (forall m, i_m s = Some m -> m !! id = None) ->
  addLocked id strm s = Some (r, s') -> credit_inv s'.
Proof.
  intros H Hfresh. unfold addLocked. destruct (i_closeErr s); [by intros [= <- <-]|].
  case_decide as Hlt; [by intros [= <- <-]|].
  destruct (i_m s) as [m|] eqn:Hm; [|done]. intros [= <- <-] m' [= <-]. cbn.
  destruct (H m Hm) as (? & ? & E). pose proof maxStreamsLimit_val.
  rewrite map_size_insert_None by auto. unfold limitFor in *. rewrite u64_id; lia.
Qed.

(** [RemoveStream] computes the new limit without overflow; it grows by the
    stream that was removed, unless it has reached the maximum. *)
Lemma removeLocked_spec s m id v : credit_inv s -> i_m s = Some m -> m !! id = Some v ->
  let limit := limitFor (i_maxOpenStreams s) (i_numStreams s) (Z.of_nat (size (delete id m))) in
  i_maxStreams s <= limit /\
  removeLocked id s =
    (if decide (i_maxStreams s < limit) then Some limit else None,
     mkIncomingStreamsMap (i_closeErr s) (i_acceptQueue s) (i_queuedMaxStreams s)
       (Some (delete id m)) (i_numStreams s) limit (i_maxOpenStreams s)).
Proof.
  intros H Hm Hid limit. destruct (H m Hm) as (Ho & Hn & E).
  pose proof (credit_open_bound s m H Hm). pose proof maxStreamsLimit_val.
  assert (Z.of_nat (size (delete id m)) = Z.of_nat (size m) - 1) as Hsz.
  { rewrite map_size_delete, Hid. assert (size m <> 0%nat); [|lia].
    apply map_size_ne_0_lookup. eauto. }
  subst limit. unfold removeLocked. rewrite Hm. simpl. rewrite Hid. cbn. rewrite Hsz.
  unfold limitFor in *. split; [lia|].
  rewrite (u64_id (_ + _)) by lia. rewrite u64_id by lia.
  replace (i_numStreams s + i_maxOpenStreams s - (Z.of_nat (size m) - 1))
    with (i_numStreams s - (Z.of_nat (size m) - 1) + i_maxOpenStreams s) by lia.
  repeat case_decide; try lia; f_equal; f_equal; lia.
Qed.

Lemma credit_remove s id r s' : credit_inv s -> removeLocked id s = (r, s') -> credit_inv s'.
Proof.
  intros H He. destruct (i_m s) as [m|] eqn:Hm.
  2: { unfold removeLocked in He. rewrite Hm in He. simpl in He. rewrite lookup_empty in He. by simplify_eq. }
  destruct (m !! id) as [v|] eqn:Hid.
  2: { unfold removeLocked in He. rewrite Hm in He. simpl in He. rewrite Hid in He. by simplify_eq. }
  destruct (removeLocked_spec s m id v H Hm Hid) as [Hle E]. rewrite E in He. simplify_eq.
  intros m' [= <-]. cbn. destruct (H m Hm) as (Ho & Hn & Hl). pose proof (map_size_delete id m) as Hsz.
  rewrite Hid in Hsz. split_and!; try done; lia.
Qed.

Lemma credit_close s err : credit_inv s -> credit_inv (CloseSession err s).2.
Proof. unfold CloseSession. by destruct (i_closeErr s). Qed.

End sequential.
