(* ===== verification/IncomingStreamsSafety.v ===== *)
(** * The goroutines that add, accept and remove incoming streams

    The pieces of [IncomingStreams] as a step relation: streams arrive, are
    accepted and removed by any number of goroutines, interleaved wherever no
    mutex is held. *)

From S2P Require Import Prelude Errors Quicvarint Protocol IncomingStreams.

Section concurrent.
Context {T : Type}.
Implicit Types (s : incomingStreamsMap T) (m : gmap Z T) (v : T).

(** ** Goroutines *)

Inductive ipc : Type :=
(** [AddStream] is about to append to the accept queue, to notify *)
| IAppend (v : T)
| INotify
(** [RemoveStream] is about to enter its second critical section *)
| IQueueMax (maxStreams : Z)
(** one of the two has returned *)
| IReturned (err : option error)
(** [AcceptStream] is about to look at the queue; is in the [select]; has
    returned *)
| ICheck
| ISelect
| IAccepted (r : result error T).

Record iworld := mkIWorld {
  iw_s : incomingStreamsMap T;
  iw_threads : gmap nat ipc;
  (** the streams that entered the map, with their IDs, and those that were
      appended to the queue, accepted, closed and removed *)
  iw_added : list (T * Z);
  iw_appended : list T;
  iw_accepted : list T;
  iw_closed : list T;
  iw_removed : gset Z;
  (** the IDs of all streams that arrived *)
  iw_ids : gset Z;
  (** the calls of [queueMaxStreams] *)
  iw_queued : list Z;
}.

Definition newIWorld (maxOpen : Z) : iworld :=
  mkIWorld (newIncomingStreamsMap maxOpen) ∅ [] [] [] [] ∅ ∅ [].

Definition igoto (t : nat) (p : ipc) (w : iworld) : gmap nat ipc := <[t := p]> (iw_threads w).

Definition afterAdd (v : T) (r : addResult) : ipc :=
  match r with
  | AddClosed _ => IReturned None
  | AddRefused err => IReturned (Some err)
  | Added => IAppend v
  end.

Definition closedByAdd (v : T) (r : addResult) : list T :=
  match r with AddClosed _ => [v] | _ => [] end.

Definition enteredByAdd (v : T) (id : Z) (r : addResult) : list (T * Z) :=
  match r with Added => [(v, id)] | _ => [] end.

Inductive istep : iworld -> iworld -> Prop :=
| istep_add w t id v r s :
    iw_threads w !! t = None -> id ∉ iw_ids w -> addLocked id v (iw_s w) = Some (r, s) ->
    istep w (mkIWorld s (igoto t (afterAdd v r) w) (iw_added w ++ enteredByAdd v id r)
      (iw_appended w) (iw_accepted w) (iw_closed w ++ closedByAdd v r) (iw_removed w)
      ({[id]} ∪ iw_ids w) (iw_queued w))
| istep_append w t v :
    iw_threads w !! t = Some (IAppend v) ->
    istep w (mkIWorld (set_acceptQueue (acceptQueue_append v (i_acceptQueue (iw_s w))) (iw_s w))
      (igoto t INotify w) (iw_added w) (iw_appended w ++ [v]) (iw_accepted w) (iw_closed w)
      (iw_removed w) (iw_ids w) (iw_queued w))
| istep_notify w t :
    iw_threads w !! t = Some INotify ->
    istep w (mkIWorld (set_acceptQueue (acceptQueue_notify (i_acceptQueue (iw_s w))) (iw_s w))
      (igoto t (IReturned None) w) (iw_added w) (iw_appended w) (iw_accepted w) (iw_closed w)
      (iw_removed w) (iw_ids w) (iw_queued w))
| istep_remove w t id r s :
    iw_threads w !! t = None -> removeLocked id (iw_s w) = (r, s) ->
    istep w (mkIWorld s
      (igoto t (match r with Some n => IQueueMax n | None => IReturned None end) w) (iw_added w)
      (iw_appended w) (iw_accepted w) (iw_closed w) ({[id]} ∪ iw_removed w) (iw_ids w) (iw_queued w))
| istep_queueMax w t n :
    iw_threads w !! t = Some (IQueueMax n) ->
    istep w (mkIWorld (removeQueue n (iw_s w)).2 (igoto t (IReturned None) w) (iw_added w)
      (iw_appended w) (iw_accepted w) (iw_closed w) (iw_removed w) (iw_ids w)
      (iw_queued w ++ (removeQueue n (iw_s w)).1))
| istep_accept w t :
    iw_threads w !! t = None ->
    istep w (mkIWorld (iw_s w)
      (igoto t (match acceptStart (iw_s w) with Some err => IAccepted (Err err) | None => ICheck end) w)
      (iw_added w) (iw_appended w) (iw_accepted w) (iw_closed w) (iw_removed w) (iw_ids w) (iw_queued w))
| istep_try w t r s :
    iw_threads w !! t = Some ICheck -> acceptTry (iw_s w) = (r, s) ->
    istep w (mkIWorld s
      (igoto t (match r with Some v => IAccepted (Ok v) | None => ISelect end) w) (iw_added w)
      (iw_appended w) (iw_accepted w ++ option_list r) (iw_closed w) (iw_removed w) (iw_ids w)
      (iw_queued w))
| istep_receive w t s :
    iw_threads w !! t = Some ISelect -> acceptReceive (iw_s w) = Some s ->
    istep w (mkIWorld s (igoto t ICheck w) (iw_added w) (iw_appended w) (iw_accepted w)
      (iw_closed w) (iw_removed w) (iw_ids w) (iw_queued w))
(** [ctx.Done()], or the context of the map *)
| istep_done w t err :
    iw_threads w !! t = Some ISelect ->
    istep w (mkIWorld (iw_s w) (igoto t (IAccepted (Err err)) w) (iw_added w) (iw_appended w)
      (iw_accepted w) (iw_closed w) (iw_removed w) (iw_ids w) (iw_queued w))
| istep_close w err closed s :
    CloseSession err (iw_s w) = (closed, s) ->
    istep w (mkIWorld s (iw_threads w) (iw_added w) (iw_appended w) (iw_accepted w)
      (iw_closed w ++ closed) (iw_removed w) (iw_ids w) (iw_queued w)).

Definition ireachable (maxOpen : Z) (w : iworld) : Prop := rtc istep (newIWorld maxOpen) w.

(** ** The stream limit *)

Record limit_inv (maxOpen : Z) (w : iworld) : Prop := mkLimitInv {
  l_maxOpen : i_maxOpenStreams (iw_s w) = Z.min maxOpen maxStreamsLimit;
  l_credit : credit_inv (iw_s w);
  l_chain : chain (Z.min maxOpen maxStreamsLimit) (iw_queued w) (i_queuedMaxStreams (iw_s w));
  l_queued : i_queuedMaxStreams (iw_s w) <= i_maxStreams (iw_s w);
  l_pending : forall t n, iw_threads w !! t = Some (IQueueMax n) -> n <= i_maxStreams (iw_s w);
  l_announced : i_maxStreams (iw_s w) = i_queuedMaxStreams (iw_s w) \/
    exists t, iw_threads w !! t = Some (IQueueMax (i_maxStreams (iw_s w)));
  l_closed : i_closeErr (iw_s w) = None <-> is_Some (i_m (iw_s w));
  l_ids : forall m id, i_m (iw_s w) = Some m -> is_Some (m !! id) -> id ∈ iw_ids w;
}.

Definition limit_view s : Z * Z * Z * Z * option (gmap Z T) * option error :=
  (i_maxOpenStreams s, i_queuedMaxStreams s, i_numStreams s, i_maxStreams s, i_m s, i_closeErr s).

(** Steps that change neither the limits nor the goroutines that announce them. *)
Lemma limit_inv_frame maxOpen w s t p ad ap ac cl re :
  limit_inv maxOpen w -> limit_view s = limit_view (iw_s w) ->
  (forall n, p <> IQueueMax n) -> (forall n, iw_threads w !! t <> Some (IQueueMax n)) ->
  limit_inv maxOpen (mkIWorld s (igoto t p w) ad ap ac cl re (iw_ids w) (iw_queued w)).
Proof.
  intros [H1 H2 H3 H4 H5 H6 H7 H8] E Hp Ht. unfold limit_view in E. injection E as E1 E2 E3 E4 E5 E6.
  unfold credit_inv in H2. constructor; unfold igoto; cbn; unfold credit_inv; rewrite ?E1, ?E2, ?E3, ?E4, ?E5, ?E6; try done.
  - intros t' n [[<- ?]|[? ?]]%lookup_insert_Some; [by destruct (Hp n)|by eapply H5].
  - destruct H6 as [?|[t' Ht']]; [by left|right]. exists t'.
    rewrite lookup_insert_ne; [done|]. intros ->. by eapply Ht.
Qed.

Lemma limit_inv_new maxOpen : 0 <= maxOpen -> limit_inv maxOpen (newIWorld maxOpen).
Proof.
  intros. constructor; unfold igoto; cbn; try done; [by apply credit_new|by left|].
  intros m id [= <-]. rewrite lookup_empty. by intros [].
Qed.

Lemma limit_inv_step maxOpen w w' : limit_inv maxOpen w -> istep w w' -> limit_inv maxOpen w'.
Proof.
  intros Hinv Hstep. destruct Hstep as
    [w t id v r s Ht Hid He|w t v Ht|w t Ht|w t id r s Ht He|w t n Ht|w t Ht|w t r s Ht He
    |w t s Ht He|w t err Ht|w err closed s He];
    try (apply limit_inv_frame; try done; by rewrite ?Ht).
  - pose proof Hinv as [H1 H2 H3 H4 H5 H6 H7 H8].
    assert (credit_inv s) as Hcr.
    { eapply credit_add; [done| |done]. intros m Hm. apply eq_None_not_Some. intros Hs. apply Hid. eauto. }
    assert (forall m, i_m s = Some m -> i_m (iw_s w) = Some m \/
      exists m0, i_m (iw_s w) = Some m0 /\ m = <[id := v]> m0) as Hm.
    { unfold addLocked in He. destruct (i_closeErr (iw_s w)); [simplify_eq; auto|].
      case_decide; simplify_option_eq; [auto|]. naive_solver. }
    assert (limit_view s = limit_view (iw_s w) \/ r = Added /\ i_maxOpenStreams s = i_maxOpenStreams (iw_s w) /\
      i_queuedMaxStreams s = i_queuedMaxStreams (iw_s w) /\ i_maxStreams s = i_maxStreams (iw_s w) /\
      i_closeErr s = i_closeErr (iw_s w) /\ is_Some (i_m s) /\ is_Some (i_m (iw_s w))) as Hv.
    { unfold addLocked in He. destruct (i_closeErr (iw_s w)); [simplify_eq; auto|].
      case_decide; simplify_option_eq; [auto|]. right. cbn. by eauto 10. }
    assert (i_maxOpenStreams s = i_maxOpenStreams (iw_s w) /\
      i_queuedMaxStreams s = i_queuedMaxStreams (iw_s w) /\ i_maxStreams s = i_maxStreams (iw_s w) /\
      (i_closeErr s = None <-> is_Some (i_m s))) as (E1 & E2 & E3 & E4).
    { destruct Hv as [E|(_ & -> & -> & -> & -> & ? & ?)]; [|tauto].
      unfold limit_view in E. injection E as -> -> _ -> -> ->. done. }
    constructor; unfold igoto; cbn; rewrite ?E1, ?E2, ?E3; try done.
    + intros t' n [[<- Hp]|[? ?]]%lookup_insert_Some; [by destruct r|by eapply H5].
    + destruct H6 as [?|[t' Ht']]; [by left|right]. exists t'.
      rewrite lookup_insert_ne; [done|congruence].
    + intros m id' Hm' Hs. apply elem_of_union. destruct (Hm m Hm') as [?|(m0 & ? & ->)]; [right; eauto|].
      destruct Hs as [x [[-> _]|[_ ?]]%lookup_insert_Some]; [set_solver|right; eauto].
  - pose proof Hinv as [H1 H2 H3 H4 H5 H6 H7 H8].
    assert (credit_inv s) as Hcr by by eapply credit_remove.
    destruct (default ∅ (i_m (iw_s w)) !! id) as [v|] eqn:Hid.
    2: { unfold removeLocked in He. rewrite Hid in He. simplify_eq. apply limit_inv_frame; try done. by rewrite Ht. }
    destruct (i_m (iw_s w)) as [m|] eqn:Hm; [|done].
    destruct (removeLocked_spec _ m id v H2 Hm Hid) as [Hle E]. rewrite E in He. simplify_eq.
    set (lim := limitFor _ _ _) in *. constructor; unfold igoto; cbn; try done.
    + lia.
    + intros t' n [[<- Hp]|[? Ht']]%lookup_insert_Some; [|apply H5 in Ht'; lia].
      case_decide; simplify_eq; lia.
    + case_decide as Hlt.
      * right. exists t. apply lookup_insert_eq.
      * assert (lim = i_maxStreams (iw_s w)) as -> by lia.
        destruct H6 as [?|[t' Ht']]; [by left|right]. exists t'.
        rewrite lookup_insert_ne; [done|congruence].
    + split; [eauto|]. intros _. by apply H7.
    + intros m' id' [= <-] [x [_ ?]%lookup_delete_Some]. eauto.
  - pose proof Hinv as [H1 H2 H3 H4 H5 H6 H7 H8]. unfold removeQueue. case_decide as Hlt; simpl.
    + constructor; unfold igoto; cbn; try done.
      * by eapply chain_snoc.
      * by apply (H5 t).
      * intros t' n' [[<- ?]|[? ?]]%lookup_insert_Some; [done|by eapply H5].
      * destruct H6 as [?|[t' Ht']]; [pose proof (H5 _ _ Ht); lia|].
        destruct (decide (t' = t)) as [->|]; [rewrite Ht in Ht'; simplify_eq; by left|right].
        exists t'. by rewrite lookup_insert_ne.
    + rewrite app_nil_r. constructor; unfold igoto; cbn; try done.
      * intros t' n' [[<- ?]|[? ?]]%lookup_insert_Some; [done|by eapply H5].
      * destruct H6 as [?|[t' Ht']]; [by left|].
        destruct (decide (t' = t)) as [->|]; [rewrite Ht in Ht'; simplify_eq; left; lia|right].
        exists t'. by rewrite lookup_insert_ne.
  - apply limit_inv_frame; try done; [by destruct (acceptStart _)|by rewrite Ht].
  - unfold acceptTry in He. destruct (acceptQueue_next _) as [r' q]. simplify_eq.
    apply limit_inv_frame; try done; [by destruct r|by rewrite Ht].
  - unfold acceptReceive in He. case_match; simplify_eq. apply limit_inv_frame; try done. by rewrite Ht.
  - destruct Hinv as [H1 H2 H3 H4 H5 H6 H7 H8].
    pose proof (credit_close (iw_s w) err H2) as Hcr. rewrite He in Hcr. simpl in Hcr.
    unfold CloseSession in He. destruct (i_closeErr (iw_s w)) eqn:Ho; simplify_eq.
    + constructor; unfold igoto; cbn; rewrite ?Ho; done.
    + constructor; unfold igoto; cbn; try done.
Qed.

Lemma limit_inv_reachable maxOpen w : 0 <= maxOpen -> ireachable maxOpen w -> limit_inv maxOpen w.
Proof.
  intros Hm H. apply limit_inv_new in Hm. revert Hm. induction H; eauto using limit_inv_step.
Qed.

(** ** The accept queue *)

(** The streams that are in the map but not in the queue yet. *)
Definition appending (th : gmap nat ipc) : list T :=
  omap (fun tp : nat * ipc => match tp.2 with IAppend v => Some v | _ => None end) (map_to_list th).

Record queue_inv (w : iworld) : Prop := mkQueueInv {
  q_order : iw_appended w = iw_accepted w ++ aq_queue (i_acceptQueue (iw_s w));
  q_added : (iw_added w).*1 ≡ₚ iw_appended w ++ appending (iw_threads w);
}.

Lemma appending_insert_new th t p : th !! t = None ->
  appending (<[t := p]> th) ≡ₚ
  option_list (match p with IAppend v => Some v | _ => None end) ++ appending th.
Proof.
  intros Ht. unfold appending. rewrite map_to_list_insert by done. simpl. by case_match.
Qed.

Lemma appending_insert th t p p0 : th !! t = Some p0 ->
  option_list (match p0 with IAppend v => Some v | _ => None end) ++ appending (<[t := p]> th) ≡ₚ
  option_list (match p with IAppend v => Some v | _ => None end) ++ appending th.
Proof.
  intros Ht. rewrite <- (insert_delete_id th t p0) at 2 by done.
  rewrite <- (insert_delete_eq th t p).
  rewrite !appending_insert_new by apply lookup_delete_eq.
  rewrite !app_assoc. f_equiv. apply Permutation_app_comm.
Qed.

Lemma appending_quiet w t p : (forall v, p <> IAppend v) ->
  (forall v, iw_threads w !! t <> Some (IAppend v)) ->
  appending (igoto t p w) ≡ₚ appending (iw_threads w).
Proof.
  intros Hp Ht. unfold igoto. destruct (iw_threads w !! t) as [p0|] eqn:E.
  - pose proof (appending_insert _ _ p _ E) as H.
    destruct p, p0; simpl in H; try done; naive_solver.
  - rewrite appending_insert_new by done. destruct p; try done. naive_solver.
Qed.

Lemma queue_inv_frame w s t p cl re ids qd : queue_inv w ->
  aq_queue (i_acceptQueue s) = aq_queue (i_acceptQueue (iw_s w)) ->
  (forall v, p <> IAppend v) -> (forall v, iw_threads w !! t <> Some (IAppend v)) ->
  queue_inv (mkIWorld s (igoto t p w) (iw_added w) (iw_appended w) (iw_accepted w) cl re ids qd).
Proof.
  intros [H1 H2] Hq Hp Ht. constructor; cbn; [by rewrite Hq|]. by rewrite appending_quiet.
Qed.

Lemma queue_inv_step w w' : queue_inv w -> istep w w' -> queue_inv w'.
Proof.
  intros Hinv Hstep. destruct Hstep as
    [w t id v r s Ht Hid He|w t v Ht|w t Ht|w t id r s Ht He|w t n Ht|w t Ht|w t r s Ht He
    |w t s Ht He|w t err Ht|w err closed s He].
  - assert (aq_queue (i_acceptQueue s) = aq_queue (i_acceptQueue (iw_s w))) as Hq.
    { unfold addLocked in He. destruct (i_closeErr (iw_s w)); [by simplify_eq|].
      case_decide; by simplify_option_eq. }
    destruct r; simpl; rewrite ?app_nil_r; try (apply queue_inv_frame; try done; by rewrite Ht).
    destruct Hinv as [H1 H2]. constructor; cbn; [by rewrite Hq|].
    unfold igoto. rewrite appending_insert_new by done. rewrite fmap_app, H2. simpl. solve_Permutation.
  - destruct Hinv as [H1 H2]. constructor; cbn.
    + by rewrite H1, app_assoc.
    + rewrite H2. pose proof (appending_insert _ _ INotify _ Ht) as H. simpl in H.
      unfold igoto. rewrite <- app_assoc. f_equiv. by rewrite <- H.
  - apply queue_inv_frame; try done. by rewrite Ht.
  - apply queue_inv_frame; try done; [|by destruct r|by rewrite Ht].
    unfold removeLocked in He. repeat case_match; by simplify_eq.
  - apply queue_inv_frame; try done; [|by rewrite Ht]. unfold removeQueue. by case_decide.
  - apply queue_inv_frame; try done; [by destruct (acceptStart _)|by rewrite Ht].
  - unfold acceptTry, acceptQueue_next in He.
    destruct (aq_queue (i_acceptQueue (iw_s w))) as [|v q] eqn:Eq; simplify_eq; simpl.
    + rewrite app_nil_r. apply queue_inv_frame; try done. by rewrite Ht.
    + destruct Hinv as [H1 H2]. constructor; cbn.
      * by rewrite H1, Eq, <- app_assoc.
      * rewrite appending_quiet; [done|done|by rewrite Ht].
  - unfold acceptReceive in He. case_match; simplify_eq. apply queue_inv_frame; try done. by rewrite Ht.
  - apply queue_inv_frame; try done. by rewrite Ht.
  - destruct Hinv as [H1 H2]. unfold CloseSession in He. constructor; cbn; [|done].
    destruct (i_closeErr (iw_s w)); by simplify_eq.
Qed.

Lemma queue_inv_reachable maxOpen w : ireachable maxOpen w -> queue_inv w.
Proof.
  intros H. assert (queue_inv (newIWorld maxOpen)) as H1 by done.
  revert H1. induction H; eauto using queue_inv_step.
Qed.

(** ** Wakeups of [AcceptStream] *)

Definition accepting (p : ipc) : bool := match p with ICheck | ISelect => true | _ => false end.

(** At most one goroutine is in [AcceptStream]. *)
Definition one_accepter (w : iworld) : Prop := forall t1 t2 p1 p2,
  iw_threads w !! t1 = Some p1 -> iw_threads w !! t2 = Some p2 ->
  accepting p1 = true -> accepting p2 = true -> t1 = t2.

Definition ireachable1 (maxOpen : Z) (w : iworld) : Prop :=
  rtc (fun w w' => istep w w' /\ one_accepter w) (newIWorld maxOpen) w.

(** A notification is in the channel or about to be sent. *)
Definition notified (w : iworld) : Prop :=
  aq_c (i_acceptQueue (iw_s w)) = true \/ exists t, iw_threads w !! t = Some INotify.

Definition accept_inv (w : iworld) : Prop := forall t,
  aq_queue (i_acceptQueue (iw_s w)) <> [] -> iw_threads w !! t = Some ISelect -> notified w.

Lemma accept_inv_frame w s t p ad ap ac cl re ids qd : accept_inv w ->
  i_acceptQueue s = i_acceptQueue (iw_s w) -> p <> ISelect -> iw_threads w !! t <> Some INotify ->
  accept_inv (mkIWorld s (igoto t p w) ad ap ac cl re ids qd).
Proof.
  unfold accept_inv, notified, igoto. cbn. intros H -> Hp Ht t' Hq [[_ ?]|[Hne Ht']]%lookup_insert_Some; [done|].
  destruct (H t' Hq Ht') as [?|[t0 Ht0]]; [by left|right]. exists t0.
  rewrite lookup_insert_ne; [done|]. by intros ->.
Qed.

Lemma accept_inv_step w w' : accept_inv w -> istep w w' -> one_accepter w -> accept_inv w'.
Proof.
  intros Hinv Hstep Hone. destruct Hstep as
    [w t id v r s Ht Hid He|w t v Ht|w t Ht|w t id r s Ht He|w t n Ht|w t Ht|w t r s Ht He
    |w t s Ht He|w t err Ht|w err closed s He].
  - apply accept_inv_frame; try done; [|by destruct r|by rewrite Ht].
    unfold addLocked in He. destruct (i_closeErr (iw_s w)); [by simplify_eq|].
    case_decide; by simplify_option_eq.
  - intros t' _ _. right. exists t. apply lookup_insert_eq.
  - intros t' _ _. by left.
  - apply accept_inv_frame; try done; [|by destruct r|by rewrite Ht].
    unfold removeLocked in He. repeat case_match; by simplify_eq.
  - apply accept_inv_frame; try done; [|by rewrite Ht]. unfold removeQueue. by case_decide.
  - apply accept_inv_frame; try done; [by destruct (acceptStart _)|by rewrite Ht].
  - intros t' Hq Ht'. cbn in *. unfold igoto in Ht'.
    apply lookup_insert_Some in Ht' as [[-> Hp]|[Hne Ht']].
    + unfold acceptTry, acceptQueue_next in He.
      destruct (aq_queue (i_acceptQueue (iw_s w))) eqn:Eq; simplify_eq/=; congruence.
    + destruct Hne. by eapply Hone.
  - intros t' Hq Ht'. cbn in *. unfold igoto in Ht'.
    apply lookup_insert_Some in Ht' as [[_ ?]|[Hne Ht']]; [done|]. destruct Hne. by eapply Hone.
  - apply accept_inv_frame; try done. by rewrite Ht.
  - intros t' Hq Ht'. unfold CloseSession in He. cbn in *.
    destruct (i_closeErr (iw_s w)); simplify_eq/=; by eapply Hinv.
Qed.

Lemma accept_inv_reachable maxOpen w : ireachable1 maxOpen w -> accept_inv w.
Proof.
  intros H. assert (accept_inv (newIWorld maxOpen)) as H1 by (intros t; done).
  revert H1. induction H as [|w1 w2 w3 [? ?]]; eauto using accept_inv_step.
Qed.

(** ** Closing *)

Record close_inv (w : iworld) : Prop := mkCloseInv {
  c_added : forall v id, (v, id) ∈ iw_added w -> id ∈ iw_ids w /\
    (id ∈ iw_removed w \/
     match i_m (iw_s w) with Some m => m !! id = Some v | None => v ∈ iw_closed w end);
}.

Lemma close_inv_frame w s th ap ac cl qd : close_inv w -> i_m s = i_m (iw_s w) ->
  iw_closed w ⊆ cl ->
  close_inv (mkIWorld s th (iw_added w) ap ac cl (iw_removed w) (iw_ids w) qd).
Proof.
  intros [H] Hm Hcl. constructor; cbn. rewrite Hm. intros v id Hin.
  destruct (H v id Hin) as [? [?|Hx]]; split; auto. right. case_match; auto.
Qed.

Lemma close_inv_step w w' : close_inv w -> istep w w' -> close_inv w'.
Proof.
  intros Hinv Hstep. destruct Hstep as
    [w t id v r s Ht Hid He|w t v Ht|w t Ht|w t id r s Ht He|w t n Ht|w t Ht|w t r s Ht He
    |w t s Ht He|w t err Ht|w err closed s He]; try by apply close_inv_frame.
  - destruct Hinv as [H]. constructor; cbn. unfold addLocked in He.
    assert (forall v' id', (v', id') ∈ iw_added w -> i_m s = i_m (iw_s w) ->
      id' ∈ {[id]} ∪ iw_ids w /\ (id' ∈ iw_removed w \/
      match i_m s with Some m => m !! id' = Some v' | None => v' ∈ iw_closed w ++ closedByAdd v r end)) as Hold.
    { intros v' id' Hin ->. destruct (H _ _ Hin) as [? [?|Hx]]; (split; [set_solver|]); [by left|right].
      case_match; [done|set_solver]. }
    destruct (i_closeErr (iw_s w)); [simplify_eq; rewrite app_nil_r; auto|].
    case_decide; simplify_option_eq; [rewrite app_nil_r; auto|].
    intros v' id' [Hin|[= -> ->]%list_elem_of_singleton]%elem_of_app.
    + destruct (H _ _ Hin) as [? [?|Hx]]; (split; [set_solver|]); [by left|right].
      by rewrite lookup_insert_ne by congruence.
    + split; [set_solver|]. right. apply lookup_insert_eq.
  - destruct Hinv as [H]. constructor; cbn. intros v' id' Hin. destruct (H _ _ Hin) as [? Hx].
    split; [done|]. destruct Hx as [?|Hx]; [left; set_solver|].
    destruct (decide (id' = id)) as [->|]; [left; set_solver|right].
    unfold removeLocked in He. destruct (i_m (iw_s w)) as [m|] eqn:Em; simpl in He.
    + repeat case_match; simplify_eq/=; rewrite ?Em, ?lookup_delete_ne; done.
    + rewrite lookup_empty in He. simplify_eq. by rewrite Em.
  - apply close_inv_frame; try done. unfold removeQueue. by case_decide.
  - apply close_inv_frame; try done. unfold acceptTry in He. destruct (acceptQueue_next _). by simplify_eq.
  - apply close_inv_frame; try done. unfold acceptReceive in He. case_match; by simplify_eq.
  - unfold CloseSession in He. destruct (i_closeErr (iw_s w)); simplify_eq.
    { by apply close_inv_frame; [| |set_solver]. }
    destruct Hinv as [H]. constructor; cbn. intros v id Hin. destruct (H _ _ Hin) as [? [?|Hx]]; split; auto.
    right. apply elem_of_app. destruct (i_m (iw_s w)) as [m|]; [right|by left].
    apply list_elem_of_fmap. exists (id, v). split; [done|]. by apply elem_of_map_to_list.
Qed.

Lemma close_inv_reachable maxOpen w : ireachable maxOpen w -> close_inv w.
Proof.
  intros H. assert (close_inv (newIWorld maxOpen)) as H1 by (constructor; cbn; set_solver).
  revert H1. induction H; eauto using close_inv_step.
Qed.

(** ** An executable version of the step relation *)

Inductive iaction : Type :=
| IAdd (t : nat) (id : Z) (v : T)
| IDoAppend (t : nat)
| IDoNotify (t : nat)
| IRemove (t : nat) (id : Z)
| IDoQueueMax (t : nat)
| IAccept (t : nat)
| ITry (t : nat)
| IReceive (t : nat)
| IDone (t : nat) (err : error)
| IClose (err : error).

Definition iact (w : iworld) (a : iaction) : option iworld :=
  match a with
  | IAdd t id v =>
      guard (iw_threads w !! t = None);; guard (id ∉ iw_ids w);;
      '(r, s) ← addLocked id v (iw_s w);
      Some (mkIWorld s (igoto t (afterAdd v r) w) (iw_added w ++ enteredByAdd v id r)
        (iw_appended w) (iw_accepted w) (iw_closed w ++ closedByAdd v r) (iw_removed w)
        ({[id]} ∪ iw_ids w) (iw_queued w))
  | IDoAppend t =>
      match iw_threads w !! t with
      | Some (IAppend v) =>
          Some (mkIWorld (set_acceptQueue (acceptQueue_append v (i_acceptQueue (iw_s w))) (iw_s w))
            (igoto t INotify w) (iw_added w) (iw_appended w ++ [v]) (iw_accepted w) (iw_closed w)
            (iw_removed w) (iw_ids w) (iw_queued w))
      | _ => None
      end
  | IDoNotify t =>
      match iw_threads w !! t with
      | Some INotify =>
          Some (mkIWorld (set_acceptQueue (acceptQueue_notify (i_acceptQueue (iw_s w))) (iw_s w))
            (igoto t (IReturned None) w) (iw_added w) (iw_appended w) (iw_accepted w) (iw_closed w)
            (iw_removed w) (iw_ids w) (iw_queued w))
      | _ => None
      end
  | IRemove t id =>
      guard (iw_threads w !! t = None);;
      let '(r, s) := removeLocked id (iw_s w) in
      Some (mkIWorld s
        (igoto t (match r with Some n => IQueueMax n | None => IReturned None end) w) (iw_added w)
        (iw_appended w) (iw_accepted w) (iw_closed w) ({[id]} ∪ iw_removed w) (iw_ids w) (iw_queued w))
  | IDoQueueMax t =>
      match iw_threads w !! t with
      | Some (IQueueMax n) =>
          Some (mkIWorld (removeQueue n (iw_s w)).2 (igoto t (IReturned None) w) (iw_added w)
            (iw_appended w) (iw_accepted w) (iw_closed w) (iw_removed w) (iw_ids w)
            (iw_queued w ++ (removeQueue n (iw_s w)).1))
      | _ => None
      end
  | IAccept t =>
      guard (iw_threads w !! t = None);;
      Some (mkIWorld (iw_s w)
        (igoto t (match acceptStart (iw_s w) with Some err => IAccepted (Err err) | None => ICheck end) w)
        (iw_added w) (iw_appended w) (iw_accepted w) (iw_closed w) (iw_removed w) (iw_ids w) (iw_queued w))
  | ITry t =>
      match iw_threads w !! t with
      | Some ICheck =>
          let '(r, s) := acceptTry (iw_s w) in
          Some (mkIWorld s
            (igoto t (match r with Some v => IAccepted (Ok v) | None => ISelect end) w) (iw_added w)
            (iw_appended w) (iw_accepted w ++ option_list r) (iw_closed w) (iw_removed w) (iw_ids w)
            (iw_queued w))
      | _ => None
      end
  | IReceive t =>
      match iw_threads w !! t with
      | Some ISelect =>
          s ← acceptReceive (iw_s w);
          Some (mkIWorld s (igoto t ICheck w) (iw_added w) (iw_appended w) (iw_accepted w)
            (iw_closed w) (iw_removed w) (iw_ids w) (iw_queued w))
      | _ => None
      end
  | IDone t err =>
      match iw_threads w !! t with
      | Some ISelect =>
          Some (mkIWorld (iw_s w) (igoto t (IAccepted (Err err)) w) (iw_added w) (iw_appended w)
            (iw_accepted w) (iw_closed w) (iw_removed w) (iw_ids w) (iw_queued w))
      | _ => None
      end
  | IClose err =>
      let '(closed, s) := CloseSession err (iw_s w) in
      Some (mkIWorld s (iw_threads w) (iw_added w) (iw_appended w) (iw_accepted w)
        (iw_closed w ++ closed) (iw_removed w) (iw_ids w) (iw_queued w))
  end.

Fixpoint iacts (w : iworld) (l : list iaction) : option iworld :=
  match l with [] => Some w | a :: l => w ← iact w a; iacts w l end.

Lemma iact_sound w a w' : iact w a = Some w' -> istep w w'.
Proof.
  destruct a; simpl; intros He.
  - simplify_option_eq; destruct_pairs. by apply istep_add.
  - repeat case_match; simplify_eq. by apply istep_append.
  - repeat case_match; simplify_eq. by apply istep_notify.
  - simplify_option_eq. destruct (removeLocked id (iw_s w)) eqn:E. simplify_eq. by apply istep_remove.
  - repeat case_match; simplify_eq. by apply istep_queueMax.
  - simplify_option_eq. by apply istep_accept.
  - case_match; [|done]. case_match; try done. destruct (acceptTry (iw_s w)) eqn:E. simplify_eq.
    by eapply istep_try.
  - case_match; [|done]. case_match; try done. simplify_option_eq. by apply istep_receive.
  - repeat case_match; simplify_eq. by apply istep_done.
  - destruct (CloseSession err (iw_s w)) eqn:E. simplify_eq. by eapply istep_close.
Qed.

Lemma iacts_sound maxOpen l w : iacts (newIWorld maxOpen) l = Some w -> ireachable maxOpen w.
Proof.
  unfold ireachable. generalize (newIWorld maxOpen) as w0.
  induction l as [|a l IH]; simpl; intros w0 He; [by simplify_eq|].
  destruct (iact w0 a) eqn:E; [|done]. eapply rtc_l; [by eapply iact_sound|]. by apply IH.
Qed.

(** The same with at most one accepter. *)
Definition one_accepterb (w : iworld) : bool :=
  bool_decide (length (filter (fun tp => accepting tp.2 = true) (map_to_list (iw_threads w))) <= 1)%nat.

Lemma one_accepterb_sound w : one_accepterb w = true -> one_accepter w.
Proof.
  unfold one_accepterb. rewrite bool_decide_eq_true. intros Hlen t1 t2 p1 p2 H1 H2 Ha1 Ha2.
  assert (forall t p, iw_threads w !! t = Some p -> accepting p = true ->
    (t, p) ∈ filter (fun tp => accepting tp.2 = true) (map_to_list (iw_threads w))) as Hin.
  { intros. apply list_elem_of_filter. split; [done|]. by apply elem_of_map_to_list. }
  pose proof (Hin _ _ H1 Ha1) as Hi1. pose proof (Hin _ _ H2 Ha2) as Hi2.
  destruct (filter _ _) as [|x [|y l]]; simpl in Hlen; [set_solver| |lia].
  apply list_elem_of_singleton in Hi1, Hi2. congruence.
Qed.

Fixpoint iacts1 (w : iworld) (l : list iaction) : option iworld :=
  match l with
  | [] => Some w
  | a :: l => guard (one_accepterb w = true);; w ← iact w a; iacts1 w l
  end.

Lemma iacts1_sound maxOpen l w : iacts1 (newIWorld maxOpen) l = Some w -> ireachable1 maxOpen w.
Proof.
  unfold ireachable1. generalize (newIWorld maxOpen) as w0.
  induction l as [|a l IH]; simpl; intros w0 He; [by simplify_eq|]. simplify_option_eq.
  eapply rtc_l; [split; [by eapply iact_sound|by apply one_accepterb_sound]|]. by apply IH.
Qed.

(** ** Theorems *)

(** C3: the peer gets exactly the credit that was configured. In every
    reachable state, under any interleaving of arrivals, removals and
    announcements, and without overflow of the 64-bit counters: at most the
    configured number of streams is open at a time; the limit in force allows
    exactly as many further streams as may still be open at the same time (up
    to the protocol's maximum 2^60); a stream within the last limit that was
    announced is accepted; and the limit in force has been announced, or a
    [RemoveStream] is about to announce it. *)
Theorem incoming_credit (maxOpen : Z) (w : iworld) m :
  0 <= maxOpen -> ireachable maxOpen w -> i_m (iw_s w) = Some m ->
  let s := iw_s w in
  let announced := default 0 (last (Z.min maxOpen maxStreamsLimit :: iw_queued w)) in
  Z.of_nat (size m) <= Z.min maxOpen maxStreamsLimit /\
  i_numStreams s <= i_maxStreams s /\
  i_maxStreams s = Z.min (i_numStreams s + (Z.min maxOpen maxStreamsLimit - Z.of_nat (size m)))
                         maxStreamsLimit /\
  (forall id v, i_numStreams s < announced -> exists s', addLocked id v s = Some (Added, s')) /\
  ((forall t n, iw_threads w !! t <> Some (IQueueMax n)) -> announced = i_maxStreams s).
Proof.
  intros Hmax Hr Hm s announced.
  pose proof (limit_inv_reachable _ _ Hmax Hr) as [H1 H2 H3 H4 H5 H6 H7 H8].
  pose proof (credit_open_bound _ _ H2 Hm). destruct (H2 m Hm) as (Ho & Hn & E). unfold limitFor in E.
  assert (announced = i_queuedMaxStreams s) as Ha.
  { subst announced. by erewrite chain_last by done. }
  rewrite H1 in *. fold s in H, Hn, E, H4. split_and!; try lia.
  - intros id v Hlt. assert (i_closeErr s = None) as Hc by (apply H7; eauto).
    unfold addLocked. rewrite Hc, decide_False by lia. subst s. rewrite Hm. simpl. eauto.
  - intros Hnone. rewrite Ha. destruct H6 as [E6|[t Ht]]; [by subst s|]. by destruct (Hnone _ _ Ht).
Qed.

(** WT_MAX_STREAMS capsules are queued with strictly increasing limits,
    all above the initial limit and at most 2^60, however the two critical
    sections of concurrent [RemoveStream] calls interleave. The peer, which
    treats a limit that does not increase as an error, accepts every one. *)
Theorem max_streams_increasing (maxOpen : Z) (w : iworld) :
  0 <= maxOpen -> ireachable maxOpen w ->
  StronglySorted Z.lt (Z.min maxOpen maxStreamsLimit :: iw_queued w) /\
  (is_Some (i_m (iw_s w)) -> Forall (fun n => n <= maxStreamsLimit) (iw_queued w)).
Proof.
  intros Hmax Hr. pose proof (limit_inv_reachable _ _ Hmax Hr) as [H1 H2 H3 H4 H5 H6 H7 H8].
  split; [by eapply chain_sorted|]. intros [m Hm]. destruct (H2 m Hm) as (_ & _ & E).
  unfold limitFor in E. apply chain_bounds in H3. inversion_clear H3.
  eapply Forall_impl; [done|]. simpl. lia.
Qed.

(** C33: streams are accepted in the order in which they were queued, each
    exactly once: what was queued is what was accepted followed by the queue,
    and what entered the map is what was queued and what is about to be. *)
Theorem accept_exactly_once (maxOpen : Z) (w : iworld) :
  ireachable maxOpen w ->
  iw_appended w = iw_accepted w ++ aq_queue (i_acceptQueue (iw_s w)) /\
  (iw_added w).*1 ≡ₚ iw_appended w ++ appending (iw_threads w).
Proof. intros Hr. by destruct (queue_inv_reachable _ _ Hr). Qed.

(** C34: with at most one goroutine in [AcceptStream] at a time, no wakeup is
    lost: when streams are queued, a goroutine that waits in the [select] finds
    a notification in the channel, or [AddStream] is about to send one. *)
Theorem accept_no_lost_wakeup (maxOpen : Z) (w : iworld) (t : nat) :
  ireachable1 maxOpen w -> iw_threads w !! t = Some ISelect ->
  aq_queue (i_acceptQueue (iw_s w)) <> [] ->
  (exists s, acceptReceive (iw_s w) = Some s) \/ exists t', iw_threads w !! t' = Some INotify.
Proof.
  intros Hr Ht Hq. destruct (accept_inv_reachable _ _ Hr t Hq Ht) as [Hc|]; [left|by right].
  unfold acceptReceive. rewrite Hc. eauto.
Qed.

(** Every incoming stream is closed with the session: one that entered the
    map stays there until it is removed, and [CloseSession] closes it. *)
Theorem incoming_streams_closed (maxOpen : Z) (w : iworld) (v : T) (id : Z) :
  ireachable maxOpen w -> (v, id) ∈ iw_added w ->
  id ∈ iw_removed w \/
  match i_m (iw_s w) with Some m => m !! id = Some v | None => v ∈ iw_closed w end.
Proof. intros Hr Hin. by destruct (c_added _ (close_inv_reachable _ _ Hr) _ _ Hin). Qed.

End concurrent.

Arguments ipc : clear implicits.
Arguments iworld : clear implicits.
Arguments iaction : clear implicits.

(** Two goroutines in [AcceptStream]: both find the queue empty, two streams
    arrive, the second notification finds the channel full, and one goroutine
    is left waiting for ever although a stream is queued. *)
Definition twoAccepters : list (iaction nat) :=
  [IAccept 0; ITry 0; IAccept 1; ITry 1; IAdd 2 0 7%nat; IDoAppend 2; IDoNotify 2;
   IAdd 3 4 8%nat; IDoAppend 3; IDoNotify 3; IReceive 0; ITry 0].

Theorem accept_lost_wakeup_two :
  exists w, ireachable 10 w /\ aq_queue (i_acceptQueue (iw_s w)) = [8%nat] /\
    iw_threads w !! 1%nat = Some ISelect /\ acceptReceive (iw_s w) = None /\
    forall t p, iw_threads w !! t = Some p -> p = ISelect \/ p = IReturned None \/ p = IAccepted (Ok 7%nat).
Proof.
  exists (default (newIWorld 10) (iacts (newIWorld 10) twoAccepters)). split_and!.
  - apply (iacts_sound 10 twoAccepters). vm_compute. reflexivity.
  - vm_compute. reflexivity.
  - vm_compute. reflexivity.
  - vm_compute. reflexivity.
  - intros t p Ht. apply elem_of_map_to_list in Ht. vm_compute in Ht. set_solver.
Qed.

(** ** Witnesses *)

(** At most 2 streams open: two arrive, one is accepted and removed, and the
    new limit 3 is announced. *)
Definition exampleAnnounce : list (iaction nat) :=
  [IAdd 0 0 7%nat; IDoAppend 0; IDoNotify 0; IAdd 1 4 8%nat; IAccept 2; ITry 2; IRemove 3 0;
   IDoQueueMax 3].

Definition exampleAnnounced : iworld nat := default (newIWorld 2) (iacts (newIWorld 2) exampleAnnounce).

Lemma exampleAnnounced_reachable : ireachable 2 exampleAnnounced.
Proof. apply (iacts_sound _ exampleAnnounce). vm_compute. reflexivity. Qed.

Lemma incoming_credit_witness :
  iw_queued exampleAnnounced = [3] /\
  exists s', addLocked 8 9%nat (iw_s exampleAnnounced) = Some (Added, s').
Proof.
  split; [vm_compute; reflexivity|].
  apply (incoming_credit 2 exampleAnnounced (default ∅ (i_m (iw_s exampleAnnounced)))).
  - lia.
  - exact exampleAnnounced_reachable.
  - vm_compute; reflexivity.
  - vm_compute; reflexivity.
Defined.

Lemma max_streams_increasing_witness :
  StronglySorted Z.lt (2 :: iw_queued exampleAnnounced).
Proof. apply (max_streams_increasing 2); [lia|exact exampleAnnounced_reachable]. Defined.

Lemma accept_exactly_once_witness :
  iw_appended exampleAnnounced = [7%nat] /\
  iw_appended exampleAnnounced =
    iw_accepted exampleAnnounced ++ aq_queue (i_acceptQueue (iw_s exampleAnnounced)).
Proof.
  split; [vm_compute; reflexivity|].
  apply (accept_exactly_once 2); exact exampleAnnounced_reachable.
Defined.

Lemma incoming_streams_closed_witness :
  4 ∈ iw_removed exampleAnnounced \/
  match i_m (iw_s exampleAnnounced) with
  | Some m => m !! 4 = Some 8%nat
  | None => 8%nat ∈ iw_closed exampleAnnounced
  end.
Proof.
  apply (incoming_streams_closed 2); [exact exampleAnnounced_reachable|].
  vm_compute. right. left.
Defined.

(** A goroutine waits in [AcceptStream], and a stream has been queued. *)
Lemma accept_no_lost_wakeup_witness :
  let w := default (newIWorld 1) (iacts1 (newIWorld 1) [IAccept 0; ITry 0; IAdd 1 0 7%nat; IDoAppend 1]) in
  (exists s, acceptReceive (iw_s w) = Some s) \/ exists t', iw_threads w !! t' = Some INotify.
Proof.
  intros w. apply (accept_no_lost_wakeup 1 w 0).
  - apply (iacts1_sound 1 [IAccept 0; ITry 0; IAdd 1 0 7%nat; IDoAppend 1]). vm_compute. reflexivity.
  - vm_compute; reflexivity.
  - vm_compute; discriminate.
Defined.
