(* ===== verification/SendStream.v ===== *)
(** * The sending side of a stream ([send_stream.go])

    The methods of [SendStream] are functions on its state. The results of the
    calls to the QUIC stream are their arguments, and the calls that change
    something outside of the stream are outputs, listed in order ([effect]).
    The step relation lets any number of goroutines call the methods; nothing
    else runs while the header is written, because [streamHdrMu] is held. The
    deadlines are modelled in [Deadline]. *)

From S2P Require Import Prelude Errors Quicvarint Protocol Config FlowControl.

(** ** State *)

Record SendStream := mkSendStream {
  streamHdr : gostring;
  writeErr : option error;
  (** [Some err] once [closeWithSession(err)] has run: [closed] is closed *)
  ss_closeErr : option error;
}.

Definition newSendStream (hdr : gostring) : SendStream := mkSendStream hdr None None.

(** What a method does to the QUIC stream and its owner. *)
Inductive effect : Type :=
(** QUIC accepted these bytes *)
| EWrite (b : gostring)
| ESetReliableBoundary
| ECancelWrite (code : Z)
| EClose
| ESetWriteDeadline (t : Z)
| EOnClose.

(** ** Methods *)

(** [wr] is the result of [s.str.Write]. *)
Definition maybeSendStreamHeader (wr : nat * option error) (s : SendStream)
  : option error * list effect * SendStream :=
  if decide (streamHdr s = []) then (None, [], s)
  else
    let '(n, err) := wr in
    let es := [EWrite (take n (streamHdr s)); ESetReliableBoundary] in
    match err with
    | Some err => (Some err, es, mkSendStream (drop n (streamHdr s)) (writeErr s) (ss_closeErr s))
    | None => (None, es, mkSendStream [] (writeErr s) (ss_closeErr s))
    end.

(** [write] up to the call of [writeData], which follows if there is no error. *)
Definition writeHeader (wr : nat * option error) (s : SendStream)
  : option error * list effect * SendStream :=
  match writeErr s with
  | Some err => (Some err, [], s)
  | None => maybeSendStreamHeader wr s
  end.

(** One pass of the loop of [writeData]: the result of [WriteWithLimit], and
    the result of [waitForUpdate] if it is called. *)
Record attempt := mkAttempt {
  at_n : nat;
  at_err : option error;
  at_wait : option error;
}.

(** The loop; [None] while it runs. *)
Fixpoint writeLoop (l : list attempt) (b : gostring) (written : nat) : option (nat * option error) :=
  match b with
  | [] => Some (written, None)
  | _ =>
      match l with
      | [] => None
      | a :: l =>
          let b := drop (at_n a) b in
          let written := (written + at_n a)%nat in
          match at_err a with
          | None => writeLoop l b written
          | Some err =>
              if negb (errors_Is err ErrWriteLimitReached) then Some (written, Some err)
              else
                match at_wait a with
                | Some err => Some (written, Some err)
                | None => writeLoop l b written
                end
          end
      end
  end.

(** [writeData]; without flow control, or without data, [WriteWithLimit] and
    [Write] are called once. *)
Definition writeData (fc : bool) (l : list attempt) (b : gostring) : option (nat * option error) :=
  if negb fc || bool_decide (b = []) then
    a ← head l; Some (at_n a, at_err a)
  else writeLoop l b 0.

Definition is_session_gone (err : error) : bool :=
  match as_quic_StreamError err with
  | Some (code, _) => bool_decide (code = WTSessionGoneErrorCode)
  | None => false
  end.

(** What [Write] makes of the error of [write]; [gone] is the result of
    [handleSessionGoneError] if it is called. *)
Definition sessionGone (gone : error) (err : option error) : option error :=
  match err with
  | Some err => Some (if is_session_gone err then gone else err)
  | None => None
  end.

Definition closeOnError (err : option error) : list effect :=
  match err with
  | Some err => if isTimeoutError err then [] else [EOnClose]
  | None => []
  end.

Definition Write_result `{!ErrorText} (gone : error) (r : nat * option error)
  : nat * option error * list effect :=
  let err := sessionGone gone r.2 in
  (r.1, maybeConvertStreamError err, closeOnError err).

(** [CancelWrite]: what it does itself, and what the goroutine it starts does:
    the header it writes, followed by these effects. *)
Definition CancelWrite (e : Z) (s : SendStream)
  : list effect * option (gostring * list effect) * SendStream :=
  match writeErr s with
  | Some _ => ([], None, s)
  | None =>
      if decide (0 < length (streamHdr s))%nat then
        ([], Some (streamHdr s, [ECancelWrite (webtransportCodeToHTTPCode e); EOnClose]),
         mkSendStream [] (Some (ErrStream (mkStreamError e false))) (ss_closeErr s))
      else ([ECancelWrite (webtransportCodeToHTTPCode e); EOnClose], None, s)
  end.

Definition Close (s : SendStream) : list effect * option (gostring * list effect) * SendStream :=
  match writeErr s with
  | Some _ => ([], None, s)
  | None =>
      if decide (0 < length (streamHdr s))%nat then
        ([], Some (streamHdr s, [EClose; EOnClose]),
         mkSendStream [] (Some (ErrNew (str "write on closed stream"))) (ss_closeErr s))
      else ([EOnClose; EClose], None, s)
  end.

(** The goroutine that sends a pending header. *)
Definition asyncHeader (n : nat) (hdr : gostring) : list effect :=
  [ESetWriteDeadline 0; EWrite (take n hdr)].

Definition closeWithSession (err : error) (s : SendStream) : list effect * SendStream :=
  match ss_closeErr s with
  | Some _ => ([], s)
  | None => ([ECancelWrite WTSessionGoneErrorCode], mkSendStream (streamHdr s) (writeErr s) (Some err))
  end.

(** ** What QUIC has received *)

Definition accepted (e : effect) : gostring := match e with EWrite b => b | _ => [] end.

Definition sent_bytes (log : list effect) : gostring := concat (accepted <$> log).

(** The reliable boundary: the number of bytes at the last call. *)
Fixpoint boundary_from (n b : nat) (log : list effect) : nat :=
  match log with
  | [] => b
  | ESetReliableBoundary :: log => boundary_from n n log
  | e :: log => boundary_from (n + length (accepted e)) b log
  end.

Definition boundary (log : list effect) : nat := boundary_from 0 0 log.

(** ** The goroutines *)

Inductive spc : Type :=
(** in [writeData], with this data left *)
| SData (b : gostring)
(** the goroutine started by [CancelWrite] or [Close], before the write *)
| SAsync (hdr : gostring) (after : list effect)
(** about to make these calls *)
| SCalls (es : list effect).

Record sworld := mkSWorld {
  sw_s : SendStream;
  sw_log : list effect;
  sw_threads : gmap nat spc;
}.

Definition newSWorld (hdr : gostring) : sworld := mkSWorld (newSendStream hdr) [] ∅.

(** The contract of [io.Writer]. *)
Definition write_ok (b : gostring) (wr : nat * option error) : Prop :=
  (wr.1 <= length b)%nat /\ (wr.1 < length b -> wr.2 <> None)%nat.

Definition spawned (a : option (gostring * list effect)) (u : nat) (th : gmap nat spc) : gmap nat spc :=
  match a with Some (hdr, after) => <[u := SAsync hdr after]> th | None => th end.

Inductive sstep : sworld -> sworld -> Prop :=
| sstep_Write w t b wr gone err es s :
    sw_threads w !! t = None -> write_ok (streamHdr (sw_s w)) wr ->
    writeHeader wr (sw_s w) = (err, es, s) ->
    sstep w (mkSWorld s (sw_log w ++ es)
      (<[t := match err with
              | Some _ => SCalls (closeOnError (sessionGone gone err))
              | None => SData b
              end]> (sw_threads w)))
| sstep_data w t b n :
    sw_threads w !! t = Some (SData b) -> (n <= length b)%nat ->
    sstep w (mkSWorld (sw_s w) (sw_log w ++ [EWrite (take n b)]) (<[t := SData (drop n b)]> (sw_threads w)))
| sstep_returns w t b gone err :
    sw_threads w !! t = Some (SData b) ->
    sstep w (mkSWorld (sw_s w) (sw_log w)
      (<[t := SCalls (closeOnError (sessionGone gone err))]> (sw_threads w)))
| sstep_CancelWrite w t u e es a s :
    sw_threads w !! t = None -> sw_threads w !! u = None -> t <> u -> 0 <= e < 2 ^ 32 ->
    CancelWrite e (sw_s w) = (es, a, s) ->
    sstep w (mkSWorld s (sw_log w) (spawned a u (<[t := SCalls es]> (sw_threads w))))
| sstep_Close w t u es a s :
    sw_threads w !! t = None -> sw_threads w !! u = None -> t <> u ->
    Close (sw_s w) = (es, a, s) ->
    sstep w (mkSWorld s (sw_log w) (spawned a u (<[t := SCalls es]> (sw_threads w))))
| sstep_async w t hdr after wr :
    sw_threads w !! t = Some (SAsync hdr after) -> write_ok hdr wr ->
    sstep w (mkSWorld (sw_s w) (sw_log w ++ asyncHeader wr.1 hdr)
      (<[t := SCalls (ESetReliableBoundary :: after)]> (sw_threads w)))
| sstep_call w t e es :
    sw_threads w !! t = Some (SCalls (e :: es)) ->
    sstep w (mkSWorld (sw_s w) (sw_log w ++ [e]) (<[t := SCalls es]> (sw_threads w)))
| sstep_closeWithSession w err es s :
    closeWithSession err (sw_s w) = (es, s) ->
    sstep w (mkSWorld s (sw_log w ++ es) (sw_threads w)).

Definition sreachable (hdr : gostring) (w : sworld) : Prop := rtc sstep (newSWorld hdr) w.

(** ** Lemmas: what QUIC has received *)

Lemma sent_bytes_app l1 l2 : sent_bytes (l1 ++ l2) = sent_bytes l1 ++ sent_bytes l2.
Proof. unfold sent_bytes. by rewrite fmap_app, concat_app. Qed.

Lemma boundary_from_app n b l1 l2 : boundary_from n b (l1 ++ l2) =
  boundary_from (n + length (sent_bytes l1)) (boundary_from n b l1) l2.
Proof.
  revert n b. unfold sent_bytes. induction l1 as [|e l1 IH]; intros n b; simpl; [f_equal; lia|].
  destruct e; simpl; rewrite IH; f_equal; rewrite ?length_app; change (list_fmap _ _ accepted l1) with (accepted <$> l1); lia.
Qed.

Lemma boundary_app l1 l2 : boundary (l1 ++ l2) =
  boundary_from (length (sent_bytes l1)) (boundary l1) l2.
Proof. unfold boundary. by rewrite boundary_from_app. Qed.

Arguments sent_bytes : simpl never.
Arguments boundary : simpl never.

(** ** The phases of the header *)

(** Calls that neither write nor move the boundary; and that do not reset the
    stream with an application's code either. *)
Definition plain_call (e : effect) : Prop :=
  match e with EWrite _ | ESetReliableBoundary => False | _ => True end.
Definition quiet_call (e : effect) : Prop :=
  plain_call e /\ match e with ECancelWrite c => c < firstErrorCode | _ => True end.

Definition ok_pending (p : spc) : Prop :=
  match p with SCalls es => Forall quiet_call es | _ => False end.
Definition ok_sent (p : spc) : Prop :=
  match p with SData _ => True | SCalls es => Forall plain_call es | SAsync _ _ => False end.
Definition ok_ended (p : spc) : Prop :=
  match p with SCalls es => Forall plain_call es | _ => False end.

Inductive phase (hdr : gostring) : sworld -> Prop :=
(** the rest of the header is to be sent by the next [Write] *)
| ph_pending w :
    streamHdr (sw_s w) <> [] -> writeErr (sw_s w) = None ->
    sent_bytes (sw_log w) ++ streamHdr (sw_s w) = hdr ->
    boundary (sw_log w) = length (sent_bytes (sw_log w)) ->
    map_Forall (fun _ => ok_pending) (sw_threads w) -> phase hdr w
(** the header has been sent *)
| ph_sent w p :
    streamHdr (sw_s w) = [] -> writeErr (sw_s w) = None ->
    sent_bytes (sw_log w) = hdr ++ p -> boundary (sw_log w) = length hdr ->
    map_Forall (fun _ => ok_sent) (sw_threads w) -> phase hdr w
(** a goroutine is about to send it, to set the boundary; has done both *)
| ph_async w u r after :
    streamHdr (sw_s w) = [] -> writeErr (sw_s w) <> None ->
    sent_bytes (sw_log w) ++ r = hdr -> boundary (sw_log w) = length (sent_bytes (sw_log w)) ->
    sw_threads w !! u = Some (SAsync r after) -> Forall plain_call after ->
    map_Forall (fun t p => t = u \/ ok_pending p) (sw_threads w) -> phase hdr w
| ph_boundary w u r after :
    streamHdr (sw_s w) = [] -> writeErr (sw_s w) <> None ->
    sent_bytes (sw_log w) ++ r = hdr ->
    sw_threads w !! u = Some (SCalls (ESetReliableBoundary :: after)) -> Forall plain_call after ->
    map_Forall (fun t p => t = u \/ ok_pending p) (sw_threads w) -> phase hdr w
| ph_ended w r :
    streamHdr (sw_s w) = [] -> writeErr (sw_s w) <> None ->
    sent_bytes (sw_log w) ++ r = hdr -> boundary (sw_log w) = length (sent_bytes (sw_log w)) ->
    map_Forall (fun _ => ok_ended) (sw_threads w) -> phase hdr w.

(** Resets with an application's code happen at a boundary that covers all
    bytes of the header that QUIC has. *)
Definition resets_ok (hdr : gostring) (log : list effect) : Prop :=
  forall l1 c l2, log = l1 ++ ECancelWrite c :: l2 -> firstErrorCode <= c ->
  boundary l1 = Nat.min (length hdr) (length (sent_bytes l1)).

Lemma resets_ok_snoc hdr log e : resets_ok hdr log ->
  (forall c, e = ECancelWrite c -> firstErrorCode <= c ->
   boundary log = Nat.min (length hdr) (length (sent_bytes log))) ->
  resets_ok hdr (log ++ [e]).
Proof.
  intros H He l1 c l2 E Hc. destruct l2 as [|x l2 _] using rev_ind.
  - apply app_inj_tail in E as [<- ->]. by apply (He c).
  - rewrite app_comm_cons, app_assoc in E. apply app_inj_tail in E as [-> _]. by eapply H.
Qed.

Lemma resets_ok_app hdr log es : resets_ok hdr log ->
  Forall (fun e => match e with ECancelWrite c => c < firstErrorCode | _ => True end) es ->
  resets_ok hdr (log ++ es).
Proof.
  intros H Hes. revert log H. induction Hes as [|e es He _ IH]; intros log H; [by rewrite app_nil_r|].
  replace (log ++ e :: es) with ((log ++ [e]) ++ es) by by rewrite <- app_assoc. apply IH, resets_ok_snoc; [done|]. intros c -> ?. lia.
Qed.

Lemma boundary_covers hdr w : phase hdr w ->
  (forall t es, sw_threads w !! t = Some (SCalls (ESetReliableBoundary :: es)) -> False) ->
  boundary (sw_log w) = Nat.min (length hdr) (length (sent_bytes (sw_log w))).
Proof.
  intros [w' H1 H2 <- H4 H5|w' p H1 H2 H3 H4 H5|w' u r after H1 H2 <- H4 H5 H6 H7
    |w' u r after H1 H2 <- H4 H5 H6|w' r H1 H2 <- H4 H5] Hn; rewrite ?H4, ?length_app; try lia.
  - rewrite H3, length_app. lia.
  - by destruct (Hn _ _ H4).
Qed.

Lemma app_code_range e : 0 <= e < 2 ^ 32 -> firstErrorCode <= webtransportCodeToHTTPCode e.
Proof. intros. unfold webtransportCodeToHTTPCode, firstErrorCode, u64. lia. Qed.

Lemma closeOnError_quiet err : Forall quiet_call (closeOnError err).
Proof. destruct err; simpl; [case_match|]; repeat constructor. Qed.

Lemma quiet_plain es : Forall quiet_call es -> Forall plain_call es.
Proof. intros H. eapply Forall_impl; [done|]. by intros ? []. Qed.

Lemma ok_pending_ended p : ok_pending p -> ok_ended p.
Proof. destruct p; try done. apply quiet_plain. Qed.

Lemma plain_log log e : plain_call e ->
  sent_bytes (log ++ [e]) = sent_bytes log /\ boundary (log ++ [e]) = boundary log.
Proof.
  intros He. rewrite sent_bytes_app, boundary_app. unfold sent_bytes at 2.
  destruct e; try done; simpl; by rewrite app_nil_r.
Qed.

Lemma header_log log b :
  sent_bytes (log ++ [EWrite b; ESetReliableBoundary]) = sent_bytes log ++ b /\
  boundary (log ++ [EWrite b; ESetReliableBoundary]) = length (sent_bytes log ++ b).
Proof.
  rewrite sent_bytes_app, boundary_app. unfold sent_bytes at 2. simpl.
  rewrite app_nil_r, length_app. done.
Qed.

Lemma forall_insert {P : nat -> spc -> Prop} t p (th : gmap nat spc) :
  map_Forall P th -> P t p -> map_Forall P (<[t := p]> th).
Proof. intros. by apply map_Forall_insert_2. Qed.

(** [Write] up to [writeData]. *)
Lemma phase_Write hdr w t b wr gone err es s :
  phase hdr w -> sw_threads w !! t = None -> write_ok (streamHdr (sw_s w)) wr ->
  writeHeader wr (sw_s w) = (err, es, s) ->
  phase hdr (mkSWorld s (sw_log w ++ es)
    (<[t := match err with
            | Some _ => SCalls (closeOnError (sessionGone gone err))
            | None => SData b
            end]> (sw_threads w))).
Proof.
  intros Hph Ht [Hn Hshort] He. pose proof (closeOnError_quiet (sessionGone gone err)) as Hq.
  unfold writeHeader, maybeSendStreamHeader in He. destruct wr as [n err0]; simpl in *.
  destruct Hph as [w H1 H2 <- H4 H5|w p H1 H2 H3 H4 H5|w u r after H1 H2 <- H4 H5 H6 H7
    |w u r after H1 H2 <- H4 H5 H6|w r H1 H2 <- H4 H5].
  - rewrite H2, decide_False in He by done.
    destruct (header_log (sw_log w) (take n (streamHdr (sw_s w)))) as [Hs Hb].
    destruct err0 as [e|]; simplify_eq; cbn in *.
    + destruct (decide (drop n (streamHdr (sw_s w)) = [])) as [E|E].
      * apply ph_sent with []; cbn; rewrite ?Hs, ?Hb; try done.
        -- rewrite app_nil_r. rewrite <- (take_drop n (streamHdr (sw_s w))) at 2. by rewrite E, app_nil_r.
        -- rewrite <- (take_drop n (streamHdr (sw_s w))) at 2. by rewrite E, app_nil_r.
        -- apply forall_insert; [|by apply quiet_plain].
           eapply map_Forall_impl; [done|]. intros ? []; try done. apply quiet_plain.
      * apply ph_pending; cbn; rewrite ?Hs, ?Hb; try done.
        -- by rewrite <- app_assoc, take_drop.
        -- by apply forall_insert.
    + assert (take n (streamHdr (sw_s w)) = streamHdr (sw_s w)) as E.
      { apply firstn_all2. destruct (decide (n < length (streamHdr (sw_s w)))%nat) as [Hlt|]; [|lia].
        by destruct (Hshort Hlt). }
      rewrite E in *. apply ph_sent with []; cbn; rewrite ?Hs, ?Hb, ?app_nil_r; try done.
      apply forall_insert; [|done].
      eapply map_Forall_impl; [done|]. intros ? []; try done. apply quiet_plain.
  - rewrite H2, decide_True in He by done. simplify_eq. rewrite app_nil_r.
    apply ph_sent with p; cbn; try done. by apply forall_insert.
  - destruct (writeErr (sw_s w)) eqn:E; [|done]. simplify_eq. rewrite app_nil_r.
    apply ph_async with u r after; cbn; rewrite ?E; try done.
    + rewrite lookup_insert_ne; [done|congruence].
    + apply forall_insert; [done|by right].
  - destruct (writeErr (sw_s w)) eqn:E; [|done]. simplify_eq. rewrite app_nil_r.
    apply ph_boundary with u r after; cbn; rewrite ?E; try done.
    + rewrite lookup_insert_ne; [done|congruence].
    + apply forall_insert; [done|by right].
  - destruct (writeErr (sw_s w)) eqn:E; [|done]. simplify_eq. rewrite app_nil_r.
    apply ph_ended with r; cbn; rewrite ?E; try done.
    apply forall_insert; [done|by apply quiet_plain].
Qed.

(** [CancelWrite] and [Close]: nothing, or the header goes to a goroutine, or
    the calls are made. *)
Lemma phase_spawn hdr w t u es a s : phase hdr w ->
  sw_threads w !! t = None -> sw_threads w !! u = None -> t <> u ->
  (writeErr (sw_s w) <> None -> es = [] /\ a = None /\ s = sw_s w) ->
  (writeErr (sw_s w) = None -> streamHdr (sw_s w) <> [] ->
   es = [] /\ (exists after, a = Some (streamHdr (sw_s w), after) /\ Forall plain_call after) /\
   streamHdr s = [] /\ writeErr s <> None) ->
  (writeErr (sw_s w) = None -> streamHdr (sw_s w) = [] ->
   Forall plain_call es /\ a = None /\ s = sw_s w) ->
  phase hdr (mkSWorld s (sw_log w) (spawned a u (<[t := SCalls es]> (sw_threads w)))).
Proof.
  intros Hph Ht Hu Htu HA HB HC.
  destruct Hph as [w H1 H2 <- H4 H5|w p H1 H2 H3 H4 H5|w u' r after H1 H2 <- H4 H5 H6 H7
    |w u' r after H1 H2 <- H4 H5 H6|w r H1 H2 <- H4 H5].
  - destruct (HB H2 H1) as (-> & (after & -> & Haf) & Hs & He). simpl.
    apply ph_async with u (streamHdr (sw_s w)) after; cbn; try done.
    + apply lookup_insert_eq.
    + apply forall_insert; [|by left]. apply forall_insert; [|right; constructor].
      eapply map_Forall_impl; [done|]. auto.
  - destruct (HC H2 H1) as (Hes & -> & ->). simpl. apply ph_sent with p; cbn; try done.
    by apply forall_insert.
  - destruct (HA H2) as (-> & -> & ->). simpl. apply ph_async with u' r after; cbn; try done.
    + rewrite lookup_insert_ne; [done|congruence].
    + apply forall_insert; [done|right; constructor].
  - destruct (HA H2) as (-> & -> & ->). simpl. apply ph_boundary with u' r after; cbn; try done.
    + rewrite lookup_insert_ne; [done|congruence].
    + apply forall_insert; [done|right; constructor].
  - destruct (HA H2) as (-> & -> & ->). simpl. apply ph_ended with r; cbn; try done.
    apply forall_insert; [done|constructor].
Qed.

Lemma CancelWrite_cases e s es a s' : CancelWrite e s = (es, a, s') ->
  (writeErr s <> None -> es = [] /\ a = None /\ s' = s) /\
  (writeErr s = None -> streamHdr s <> [] ->
   es = [] /\ (exists after, a = Some (streamHdr s, after) /\ Forall plain_call after) /\
   streamHdr s' = [] /\ writeErr s' <> None) /\
  (writeErr s = None -> streamHdr s = [] -> Forall plain_call es /\ a = None /\ s' = s).
Proof.
  unfold CancelWrite. intros H. destruct (writeErr s); [by simplify_eq|].
  destruct (streamHdr s) eqn:E; simpl in H; simplify_eq/=; split_and!; try done.
  - intros. split_and!; try done. repeat constructor.
  - intros. split_and!; try done. eexists. split; [done|]. repeat constructor.
Qed.

Lemma Close_cases s es a s' : Close s = (es, a, s') ->
  (writeErr s <> None -> es = [] /\ a = None /\ s' = s) /\
  (writeErr s = None -> streamHdr s <> [] ->
   es = [] /\ (exists after, a = Some (streamHdr s, after) /\ Forall plain_call after) /\
   streamHdr s' = [] /\ writeErr s' <> None) /\
  (writeErr s = None -> streamHdr s = [] -> Forall plain_call es /\ a = None /\ s' = s).
Proof.
  unfold Close. intros H. destruct (writeErr s); [by simplify_eq|].
  destruct (streamHdr s) eqn:E; simpl in H; simplify_eq/=; split_and!; try done.
  - intros. split_and!; try done. repeat constructor.
  - intros. split_and!; try done. eexists. split; [done|]. repeat constructor.
Qed.

(** One call of a goroutine. *)
Lemma phase_call hdr w t e es : phase hdr w -> sw_threads w !! t = Some (SCalls (e :: es)) ->
  phase hdr (mkSWorld (sw_s w) (sw_log w ++ [e]) (<[t := SCalls es]> (sw_threads w))).
Proof.
  intros Hph Ht.
  destruct Hph as [w H1 H2 <- H4 H5|w p H1 H2 H3 H4 H5|w u r after H1 H2 <- H4 H5 H6 H7
    |w u r after H1 H2 <- H4 H5 H6|w r H1 H2 <- H4 H5].
  - pose proof (H5 _ _ Ht) as Hc. inversion_clear Hc as [|? ? [Hp _] Hes].
    destruct (plain_log (sw_log w) e Hp) as [Hs Hb].
    apply ph_pending; cbn; rewrite ?Hs, ?Hb; try done. by apply forall_insert.
  - pose proof (H5 _ _ Ht) as Hc. inversion_clear Hc as [|? ? Hp Hes].
    destruct (plain_log (sw_log w) e Hp) as [Hs Hb].
    apply ph_sent with p; cbn; rewrite ?Hs, ?Hb; try done. by apply forall_insert.
  - destruct (H7 _ _ Ht) as [->|Hc]; [congruence|]. inversion_clear Hc as [|? ? [Hp _] Hes].
    destruct (plain_log (sw_log w) e Hp) as [Hs Hb].
    apply ph_async with u r after; cbn; rewrite ?Hs, ?Hb; try done.
    + rewrite lookup_insert_ne; [done|congruence].
    + apply forall_insert; [done|by right].
  - destruct (decide (t = u)) as [->|Hne].
    + rewrite H4 in Ht. simplify_eq. apply ph_ended with r; cbn.
      * done.
      * done.
      * rewrite sent_bytes_app. unfold sent_bytes at 2. simpl. by rewrite app_nil_r.
      * rewrite boundary_app, sent_bytes_app. unfold sent_bytes at 3. simpl. by rewrite app_nil_r.
      * intros t' p' [[<- <-]|[? Ht']]%lookup_insert_Some; [done|].
        destruct (H6 _ _ Ht') as [->|?]; [done|]. by apply ok_pending_ended.
    + destruct (H6 _ _ Ht) as [->|Hc]; [done|]. inversion_clear Hc as [|? ? [Hp _] Hes].
      destruct (plain_log (sw_log w) e Hp) as [Hs Hb].
      apply ph_boundary with u r after; cbn; rewrite ?Hs, ?Hb; try done.
      * rewrite lookup_insert_ne; done.
      * apply forall_insert; [done|by right].
  - pose proof (H5 _ _ Ht) as Hc. inversion_clear Hc as [|? ? Hp Hes].
    destruct (plain_log (sw_log w) e Hp) as [Hs Hb].
    apply ph_ended with r; cbn; rewrite ?Hs, ?Hb; try done. by apply forall_insert.
Qed.

(** The goroutine that sends the header. *)
Lemma phase_async hdr w t h after (wr : nat * option error) : phase hdr w ->
  sw_threads w !! t = Some (SAsync h after) ->
  phase hdr (mkSWorld (sw_s w) (sw_log w ++ asyncHeader wr.1 h)
    (<[t := SCalls (ESetReliableBoundary :: after)]> (sw_threads w))).
Proof.
  intros Hph Ht.
  destruct Hph as [w H1 H2 <- H4 H5|w p H1 H2 H3 H4 H5|w u r after' H1 H2 <- H4 H5 H6 H7
    |w u r after' H1 H2 <- H4 H5 H6|w r H1 H2 <- H4 H5].
  - by pose proof (H5 _ _ Ht).
  - by pose proof (H5 _ _ Ht).
  - destruct (H7 _ _ Ht) as [->|Hc]; [|done]. rewrite H5 in Ht. simplify_eq.
    apply ph_boundary with u (drop wr.1 h) after; cbn; try done.
    + rewrite sent_bytes_app. unfold sent_bytes at 2. simpl.
      by rewrite app_nil_r, <- app_assoc, take_drop.
    + apply lookup_insert_eq.
    + apply forall_insert; [done|by left].
  - destruct (H6 _ _ Ht) as [->|Hc]; [congruence|done].
  - by pose proof (H5 _ _ Ht).
Qed.

(** Steps that change neither the header nor the bytes. *)
Lemma phase_closeWithSession hdr w err es s : phase hdr w ->
  closeWithSession err (sw_s w) = (es, s) ->
  phase hdr (mkSWorld s (sw_log w ++ es) (sw_threads w)).
Proof.
  unfold closeWithSession. intros Hph He.
  destruct (ss_closeErr (sw_s w)); simplify_eq; [rewrite app_nil_r; by destruct w|].
  destruct (plain_log (sw_log w) (ECancelWrite WTSessionGoneErrorCode) I) as [Hs Hb].
  destruct Hph as [w H1 H2 H3 H4 H5|w p H1 H2 H3 H4 H5|w u r after H1 H2 H3 H4 H5 H6 H7
    |w u r after H1 H2 H3 H4 H5 H6|w r H1 H2 H3 H4 H5];
    [eapply ph_pending|eapply ph_sent|eapply ph_async|eapply ph_boundary|eapply ph_ended];
    cbn; rewrite ?Hs, ?Hb; done.
Qed.

Lemma phase_data hdr w t b p es : phase hdr w -> sw_threads w !! t = Some (SData b) ->
  ok_sent p -> (exists x, es = [EWrite x]) \/ es = [] ->
  phase hdr (mkSWorld (sw_s w) (sw_log w ++ es) (<[t := p]> (sw_threads w))).
Proof.
  intros Hph Ht Hp Hes.
  destruct Hph as [w H1 H2 H3 H4 H5|w q H1 H2 H3 H4 H5|w u r after H1 H2 H3 H4 H5 H6 H7
    |w u r after H1 H2 H3 H4 H5 H6|w r H1 H2 H3 H4 H5].
  - by pose proof (H5 _ _ Ht).
  - destruct Hes as [[x ->]| ->].
    + apply ph_sent with (q ++ x); cbn; try done; [| |by apply forall_insert].
      * rewrite sent_bytes_app, H3. unfold sent_bytes. simpl. by rewrite app_nil_r, app_assoc.
      * by rewrite boundary_app.
    + rewrite app_nil_r. apply ph_sent with q; cbn; try done. by apply forall_insert.
  - destruct (H7 _ _ Ht) as [->|?]; [congruence|done].
  - destruct (H6 _ _ Ht) as [->|?]; [congruence|done].
  - by pose proof (H5 _ _ Ht).
Qed.

(** Before an application's reset the boundary is set. *)
Lemma phase_reset hdr w t c es : phase hdr w -> firstErrorCode <= c ->
  sw_threads w !! t = Some (SCalls (ECancelWrite c :: es)) ->
  boundary (sw_log w) = Nat.min (length hdr) (length (sent_bytes (sw_log w))).
Proof.
  intros Hph Hc Ht.
  destruct Hph as [w H1 H2 <- H4 H5|w p H1 H2 H3 H4 H5|w u r after H1 H2 <- H4 H5 H6 H7
    |w u r after H1 H2 <- H4 H5 H6|w r H1 H2 <- H4 H5]; rewrite ?H4, ?H3, ?length_app; try lia.
  destruct (H6 _ _ Ht) as [->|Hq]; [congruence|]. inversion_clear Hq as [|? ? [_ Hx] _]. lia.
Qed.

Lemma phase_new hdr : phase hdr (newSWorld hdr).
Proof.
  destruct (decide (hdr = [])) as [->|].
  - apply ph_sent with []; cbn; done.
  - apply ph_pending; cbn; done.
Qed.

Definition sinv (hdr : gostring) (w : sworld) : Prop := phase hdr w /\ resets_ok hdr (sw_log w).

Lemma writeHeader_quiet wr s err es s' : writeHeader wr s = (err, es, s') ->
  Forall (fun e => match e with ECancelWrite c => c < firstErrorCode | _ => True end) es.
Proof.
  unfold writeHeader, maybeSendStreamHeader. destruct (writeErr s); [intros [= <- <- <-]; constructor|].
  case_decide; [intros [= <- <- <-]; constructor|].
  destruct wr as [n [e|]]; intros [= <- <- <-]; repeat constructor.
Qed.

Lemma send_inv_step hdr w w' : sinv hdr w -> sstep w w' -> sinv hdr w'.
Proof.
  intros [Hph Hres] Hstep. destruct Hstep as
    [w t b wr gone err es s Ht Hwr He|w t b n Ht Hn|w t b gone err Ht|w t u e es a s Ht Hu Hne Hcode He
    |w t u es a s Ht Hu Hne He|w t h after wr Ht Hwr|w t e es Ht|w err es s He]; split; cbn.
  - by eapply phase_Write.
  - apply resets_ok_app; [done|]. by eapply writeHeader_quiet.
  - eapply phase_data; eauto. done.
  - apply resets_ok_app; [done|]. repeat constructor.
  - rewrite <- (app_nil_r (sw_log w)). eapply phase_data; eauto.
    apply quiet_plain, closeOnError_quiet.
  - done.
  - destruct (CancelWrite_cases _ _ _ _ _ He) as (? & ? & ?). by apply phase_spawn.
  - done.
  - destruct (Close_cases _ _ _ _ He) as (? & ? & ?). by apply phase_spawn.
  - done.
  - by apply phase_async.
  - apply resets_ok_app; [done|]. repeat constructor.
  - by apply phase_call.
  - apply resets_ok_snoc; [done|]. intros c -> Hc. by eapply phase_reset.
  - by eapply phase_closeWithSession.
  - apply resets_ok_app; [done|]. unfold closeWithSession in He.
    destruct (ss_closeErr (sw_s w)); simplify_eq; repeat constructor.
Qed.

Lemma send_inv_reachable hdr w : sreachable hdr w -> sinv hdr w.
Proof.
  intros H. assert (sinv hdr (newSWorld hdr)) as H1.
  { split; [apply phase_new|]. intros l1 c l2 E. by destruct l1. }
  revert H1. induction H; eauto using send_inv_step.
Qed.

(** ** Lemmas: the loop of [writeData] *)

(** The contract of [WriteWithLimit], along the data that is left. *)
Fixpoint attempts_ok (l : list attempt) (b : gostring) : Prop :=
  match l with
  | [] => True
  | a :: l => write_ok b (at_n a, at_err a) /\ attempts_ok l (drop (at_n a) b)
  end.

Lemma writeLoop_spec l b k n err : attempts_ok l b -> writeLoop l b k = Some (n, err) ->
  (k <= n <= k + length b)%nat /\ (err = None <-> n = k + length b)%nat \/
  (k <= n <= k + length b)%nat /\ err <> None.
Proof.
  revert b k. induction l as [|a l IH]; intros b k Hok H.
  - destruct b; simplify_eq/=. left. split; [lia|]. split; [lia|done].
  - destruct b as [|x b]; [simplify_eq/=; left; split; [lia|]; split; [lia|done]|].
    destruct Hok as [[Hn Hs] Hok]. simpl fst in *; simpl snd in *.
    assert (length (drop (at_n a) (x :: b)) = length (x :: b) - at_n a)%nat as Hl by apply length_drop.
    cbn [writeLoop] in H. destruct (at_err a) as [e|].
    + destruct (errors_Is e ErrWriteLimitReached); simpl negb in H; cbv iota in H.
      * destruct (at_wait a); [simplify_eq; right; split; [lia|done]|].
        destruct (IH _ _ Hok H) as [[? ?]|[? ?]]; [left|right]; (split; [lia|]); [|done].
        rewrite H1. lia.
      * simplify_eq. right. split; [lia|done].
    + destruct (IH _ _ Hok H) as [[? ?]|[? ?]]; [left|right]; (split; [lia|]); [|done].
      rewrite H1. lia.
Qed.

(** ** Theorems *)



(** The result of [writeData] with flow control. For every behaviour of
    QUIC that respects the contract of [WriteWithLimit], when the loop returns,
    the count is the number of bytes accepted, at most the length of the data,
    and without an error the whole data was accepted. *)
Theorem writeData_result (l : list attempt) (b : gostring) (n : nat) (err : option error) :
  attempts_ok l b -> b <> [] -> writeData true l b = Some (n, err) ->
  (n <= length b)%nat /\ (err = None -> n = length b).
Proof.
  intros Hok Hb. unfold writeData. rewrite bool_decide_eq_false_2 by done. simpl. intros H.
  destruct (writeLoop_spec _ _ _ _ _ Hok H) as [[? Hi]|[? ?]]; (split; [lia|]); [|done].
  intros He. apply Hi in He. lia.
Qed.

(** ** Witnesses *)

(** [Write] sends one byte of the header and times out; [CancelWrite] starts a
    goroutine, which sends the second byte, sets the boundary and resets. *)
Definition exampleReset : sworld :=
  mkSWorld (mkSendStream [] (Some (ErrStream (mkStreamError 5 false))) None)
    [EWrite [x41]; ESetReliableBoundary; ESetWriteDeadline 0; EWrite [x01]; ESetReliableBoundary;
     ECancelWrite (webtransportCodeToHTTPCode 5)]
    (<[2%nat := SCalls [EOnClose]]> (<[1%nat := SCalls []]> (<[0%nat := SCalls []]> ∅))).

Lemma exampleReset_reachable : sreachable [x41; x01] exampleReset.
Proof.
  unfold sreachable.
  eapply rtc_l.
  { apply (sstep_Write _ 0 [x61] (1%nat, Some ErrDeadlineExceeded) ErrEOF (Some ErrDeadlineExceeded)).
    - reflexivity.
    - split; simpl; [lia|done].
    - reflexivity. }
  eapply rtc_l.
  { apply (sstep_CancelWrite _ 1 2 5); [reflexivity..|lia|lia|reflexivity]. }
  eapply rtc_l.
  { apply (sstep_async _ 2 [x01] [ECancelWrite (webtransportCodeToHTTPCode 5); EOnClose] (1%nat, None)).
    - reflexivity.
    - split; simpl; lia. }
  eapply rtc_l; [eapply (sstep_call _ 2); reflexivity|].
  eapply rtc_l; [eapply (sstep_call _ 2); reflexivity|].
  match goal with |- rtc _ ?a ?b => replace a with b by (vm_compute; reflexivity) end.
  apply rtc_refl.
Qed.



(** QUIC takes two of three bytes, the limit is raised, and it takes the rest. *)
Lemma writeData_result_witness :
  writeData true [mkAttempt 2 (Some ErrWriteLimitReached) None; mkAttempt 1 None None] [x61; x62; x63]
    = Some (3%nat, None) /\ (3 <= 3)%nat.
Proof.
  split; [reflexivity|].
  apply (writeData_result [mkAttempt 2 (Some ErrWriteLimitReached) None; mkAttempt 1 None None]
    [x61; x62; x63] 3 None); [|done|reflexivity].
  simpl. repeat split; simpl; try lia; try done.
Defined.
