(* ===== verification/Deadline.v ===== *)
(** * Waiting with a deadline ([send_stream.go], [receive_stream.go])

    Both stream types wait in the same kind of loop: make the notification
    channel, then repeatedly read the deadline, start a timer for it and wait
    in a [select] for an event, the timer, or a notification. The loops are
    [waitForUpdate] (events: the context of the QUIC stream is done, the limit
    was updated) and the two [handleSessionGoneError] (event: the stream was
    closed with the session). [SetWriteDeadline] and [SetReadDeadline] change
    the deadline.

    A time is a number, the zero time is 0; the notification channel is
    [None] while it is nil, and holds a value or not afterwards. *)

From S2P Require Import Prelude Errors.

(** ** State and operations *)

Record deadlineState := mkDeadline {
  deadline : Z;
  deadlineNotifyCh : option bool;
}.

Definition newDeadline : deadlineState := mkDeadline 0 None.

(** The part of [SetWriteDeadline] and [SetReadDeadline] under the mutex. *)
Definition setDeadline (t : Z) (d : deadlineState) : deadlineState :=
  mkDeadline t (match deadlineNotifyCh d with None => None | Some _ => Some true end).

(** The methods; [r] is the result of the method of the QUIC stream. *)
Definition SetWriteDeadline `{!ErrorText} (t : Z) (r : option error) (d : deadlineState)
  : option error * deadlineState := (maybeConvertStreamError r, setDeadline t d).

Definition SetReadDeadline `{!ErrorText} (t : Z) (r : option error) (d : deadlineState)
  : option error * deadlineState := (maybeConvertStreamError r, setDeadline t d).

(** [if s.deadlineNotifyCh == nil { s.deadlineNotifyCh = make(chan struct{}, 1) }] *)
Definition makeNotifyCh (d : deadlineState) : deadlineState :=
  mkDeadline (deadline d) (match deadlineNotifyCh d with None => Some false | c => c end).

(** Where the waiting goroutine is: before making the channel; at the head of
    the loop; in the [select], with a timer that fires at the given time if
    there is one; returned. *)
Inductive waiter : Type :=
| DStart
| DLoop
| DSelect (timer : option Z)
| DReturned (r : option error).

(** One pass from the head of the loop: reads the deadline at time [now]. *)
Definition loopHead (now : Z) (d : deadlineState) : waiter :=
  if decide (deadline d = 0) then DSelect None
  else if decide (0 < deadline d - now) then DSelect (Some (now + (deadline d - now)))
  else DReturned (Some ErrDeadlineExceeded).

(** What the [select] can do, when the cases for [ready] results can proceed. *)
Definition selectCases (ready : list (option error)) (now : Z) (timer : option Z) (d : deadlineState)
  : list (waiter * deadlineState) :=
  ((fun r => (DReturned r, d)) <$> ready) ++
  (match timer with
   | Some t => if decide (t <= now) then [(DReturned (Some ErrDeadlineExceeded), d)] else []
   | None => []
   end) ++
  (match deadlineNotifyCh d with
   | Some true => [(DLoop, mkDeadline (deadline d) (Some false))]
   | _ => []
   end).

(** The next step of the loop, in all possible ways. *)
Definition turn (ready : list (option error)) (now : Z) (p : waiter) (d : deadlineState)
  : list (waiter * deadlineState) :=
  match p with
  | DStart => [(DLoop, makeNotifyCh d)]
  | DLoop => [(loopHead now d, d)]
  | DSelect timer => selectCases ready now timer d
  | DReturned _ => []
  end.

(** [streamErr]: the cause with which the context of the QUIC stream is done;
    [updated]: that channel is closed. *)
Definition waitForUpdate (streamErr : option error) (updated : bool) (now : Z) (p : waiter) (d : deadlineState)
  : list (waiter * deadlineState) :=
  turn (option_list (Some <$> streamErr) ++ (if updated then [None] else [])) now p d.

(** [closeErr]: the error with which the stream was closed with the session. *)
Definition SendStream_handleSessionGoneError (closeErr : option error) (now : Z) (p : waiter)
    (d : deadlineState) : list (waiter * deadlineState) :=
  turn (option_list (Some <$> closeErr)) now p d.

Definition ReceiveStream_handleSessionGoneError (closeErr : option error) (now : Z) (p : waiter)
    (d : deadlineState) : list (waiter * deadlineState) :=
  turn (option_list (Some <$> closeErr)) now p d.

(** ** The goroutine and its environment *)

Record dworld := mkDWorld {
  dw_d : deadlineState;
  dw_now : Z;
  (** the results of the cases of the [select] that can proceed *)
  dw_ready : list (option error);
  dw_waiter : waiter;
}.

Definition newDWorld (d : deadlineState) (now : Z) : dworld := mkDWorld d now [] DStart.

(** A step of the waiting goroutine itself. *)
Definition down (w w' : dworld) : Prop :=
  exists p d, (p, d) ∈ turn (dw_ready w) (dw_now w) (dw_waiter w) (dw_d w) /\
    w' = mkDWorld d (dw_now w) (dw_ready w) p.

Inductive dstep : dworld -> dworld -> Prop :=
| dstep_set w t :
    dstep w (mkDWorld (setDeadline t (dw_d w)) (dw_now w) (dw_ready w) (dw_waiter w))
| dstep_tick w now :
    dw_now w < now -> dstep w (mkDWorld (dw_d w) now (dw_ready w) (dw_waiter w))
| dstep_ready w r :
    dstep w (mkDWorld (dw_d w) (dw_now w) (r :: dw_ready w) (dw_waiter w))
| dstep_own w w' : down w w' -> dstep w w'.

Definition dreachable (d : deadlineState) (now : Z) (w : dworld) : Prop :=
  rtc dstep (newDWorld d now) w.

(** ** The invariant *)

(** In the [select], the timer belongs to the current deadline or a
    notification is waiting. *)
Definition dinv (w : dworld) : Prop :=
  match dw_waiter w with
  | DStart => True
  | DLoop => is_Some (deadlineNotifyCh (dw_d w))
  | DSelect timer =>
      deadlineNotifyCh (dw_d w) = Some true \/
      deadlineNotifyCh (dw_d w) = Some false /\
      timer = (if decide (deadline (dw_d w) = 0) then None else Some (deadline (dw_d w)))
  | DReturned _ => True
  end.

Lemma dinv_own w w' : dinv w -> down w w' -> dinv w'.
Proof.
  unfold dinv. intros H (p & d & Hin & ->). destruct (dw_waiter w) as [| |timer|r]; simpl in *.
  - apply list_elem_of_singleton in Hin as [= -> ->]. unfold makeNotifyCh; cbn.
    destruct (deadlineNotifyCh _); eauto.
  - apply list_elem_of_singleton in Hin as [= -> ->]. unfold loopHead.
    destruct H as [b Hc]. case_decide as Hz; [|case_decide; [|done]]; rewrite Hc;
      (destruct b; [by left|right]; split; [done|]); repeat case_decide; try done.
    f_equal. lia.
  - unfold selectCases in Hin. rewrite !elem_of_app, list_elem_of_fmap in Hin.
    destruct Hin as [(r & [= -> ->] & _)|[Ht|Hn]]; [done| |].
    + destruct timer; [|set_solver]. case_decide; [|set_solver].
      by apply list_elem_of_singleton in Ht as [= -> ->].
    + destruct (deadlineNotifyCh (dw_d w)) as [[]|]; [|set_solver..].
      apply list_elem_of_singleton in Hn as [= -> ->]. by eexists.
  - set_solver.
Qed.

Lemma dinv_step w w' : dinv w -> dstep w w' -> dinv w'.
Proof.
  intros H Hs. destruct Hs as [w t|w now|w r|w w' Ho]; [|exact H..|by eapply dinv_own].
  unfold dinv in *; cbn. destruct (dw_waiter w); try done.
  - destruct H as [b ->]. eauto.
  - left. by destruct H as [-> | [-> _]].
Qed.

Lemma dinv_reachable d now w : dreachable d now w -> dinv w.
Proof.
  intros H. assert (dinv (newDWorld d now)) as H1 by exact I.
  revert H1. induction H; eauto using dinv_step.
Qed.

Lemma down_notify w timer : dw_waiter w = DSelect timer -> deadlineNotifyCh (dw_d w) = Some true ->
  exists w', down w w'.
Proof.
  intros Hw Hn. eexists _, _, _. split; [|reflexivity]. rewrite Hw. simpl. unfold selectCases.
  rewrite Hn, !elem_of_app. right; right. by left.
Qed.

Lemma down_timer w t : dw_waiter w = DSelect (Some t) -> t <= dw_now w -> exists w', down w w'.
Proof.
  intros Hw Ht. eexists _, _, _. split; [|reflexivity]. rewrite Hw. simpl. unfold selectCases.
  rewrite decide_True, !elem_of_app by done. right; left. by left.
Qed.

(** ** Theorem *)


