(* ===== verification/SendFlow.v ===== *)
(** * Writers that share the session's flow control ([send_stream.go], [flow_control.go])

    Any number of goroutines runs the loop of [writeData], on any number of
    streams, with one [outgoingDataFlowController], while WT_MAX_DATA capsules
    raise the limit. QUIC's [WriteWithLimit] asks for credit as often as it
    likes; it returns [ErrWriteLimitReached] only after it was granted less
    than it asked for. *)

From S2P Require Import Prelude Errors Quicvarint Protocol Config FlowControl.

(** ** Goroutines *)

Inductive wpc : Type :=
(** at the head of the loop *)
| WLoop
(** in [WriteWithLimit], with the channel that [NextUpdate] returned; whether
    it was granted less than it asked for *)
| WWrite (c : nat) (exhausted : bool)
(** it returned [ErrWriteLimitReached]; in [waitForUpdate] *)
| WLimited (c : nat)
| WWaiting (c : nat)
| WReturned.

Record wworld := mkWWorld {
  ww_fc : outgoingDataFlowController;
  (** the WT_DATA_BLOCKED capsules that were queued *)
  ww_blocked : list Z;
  ww_threads : gmap nat wpc;
}.

Definition newWWorld (maxData : Z) : wworld :=
  mkWWorld (newOutgoingDataFlowController maxData) [] ∅.

Inductive wstep : wworld -> wworld -> Prop :=
| wstep_start w t :
    ww_threads w !! t = None ->
    wstep w (mkWWorld (ww_fc w) (ww_blocked w) (<[t := WLoop]> (ww_threads w)))
| wstep_next w t :
    ww_threads w !! t = Some WLoop ->
    wstep w (mkWWorld (ww_fc w) (ww_blocked w)
      (<[t := WWrite (NextUpdate (ww_fc w)) false]> (ww_threads w)))
| wstep_grant w t c x n :
    ww_threads w !! t = Some (WWrite c x) -> 0 <= n < 2 ^ 63 ->
    wstep w (mkWWorld (AddBytesSent (ww_fc w) n).2 (ww_blocked w)
      (<[t := WWrite c (x || bool_decide ((AddBytesSent (ww_fc w) n).1 < n))]> (ww_threads w)))
| wstep_written w t c x p :
    ww_threads w !! t = Some (WWrite c x) -> p = WLoop \/ p = WReturned ->
    wstep w (mkWWorld (ww_fc w) (ww_blocked w) (<[t := p]> (ww_threads w)))
| wstep_limited w t c :
    ww_threads w !! t = Some (WWrite c true) ->
    wstep w (mkWWorld (ww_fc w) (ww_blocked w) (<[t := WLimited c]> (ww_threads w)))
| wstep_report w t c :
    ww_threads w !! t = Some (WLimited c) ->
    wstep w (mkWWorld (IsNewlyBlocked (ww_fc w)).2
      (ww_blocked w ++ (let '(blocked, maxData) := (IsNewlyBlocked (ww_fc w)).1 in
                        if blocked then [maxData] else []))
      (<[t := WWaiting c]> (ww_threads w)))
| wstep_updated w t c :
    ww_threads w !! t = Some (WWaiting c) -> c ∈ closedChans (ww_fc w) ->
    wstep w (mkWWorld (ww_fc w) (ww_blocked w) (<[t := WLoop]> (ww_threads w)))
(** the deadline, or the context of the stream *)
| wstep_abort w t c :
    ww_threads w !! t = Some (WWaiting c) ->
    wstep w (mkWWorld (ww_fc w) (ww_blocked w) (<[t := WReturned]> (ww_threads w)))
| wstep_limit w m :
    0 <= m < 2 ^ 63 ->
    wstep w (mkWWorld (UpdateMaxData (ww_fc w) m).2 (ww_blocked w) (ww_threads w)).

Definition wreachable (maxData : Z) (w : wworld) : Prop := rtc wstep (newWWorld maxData) w.

(** ** The invariant *)

Definition no_credit (f : outgoingDataFlowController) : Prop := bytesSent f = out_maxData f.

(** As long as the channel of a goroutine is the current one, nothing was
    granted after the goroutine found that there is no credit. *)
Definition writer_ok (f : outgoingDataFlowController) (p : wpc) : Prop :=
  match p with
  | WLoop | WReturned => True
  | WWrite c x => (c <= updated f)%nat /\ (c = updated f -> x = true -> no_credit f)
  | WLimited c => (c <= updated f)%nat /\ (c = updated f -> no_credit f)
  | WWaiting c => (c <= updated f)%nat /\
      (c = updated f -> no_credit f /\ lastBlockedAt f = out_maxData f)
  end.

Record wwinv (w : wworld) : Prop := mkWWInv {
  wi_fc : out_inv (ww_fc w);
  wi_chain : chain (-1) (ww_blocked w) (lastBlockedAt (ww_fc w));
  wi_writers : map_Forall (fun _ => writer_ok (ww_fc w)) (ww_threads w);
}.

Lemma wwinv_new m : 0 <= m < 2 ^ 63 -> wwinv (newWWorld m).
Proof. intros. constructor; cbn; [by apply out_inv_new|done|apply map_Forall_empty]. Qed.

Lemma writer_ok_mono f f' p : writer_ok f p -> updated f' = updated f ->
  (no_credit f -> no_credit f') ->
  (lastBlockedAt f = out_maxData f -> lastBlockedAt f' = out_maxData f') -> writer_ok f' p.
Proof. intros H Hu Hc Hl. destruct p; simpl in *; rewrite ?Hu; naive_solver. Qed.

Lemma wwinv_local w t p : wwinv w -> writer_ok (ww_fc w) p ->
  wwinv (mkWWorld (ww_fc w) (ww_blocked w) (<[t := p]> (ww_threads w))).
Proof. intros [H1 H2 H3] Hp. constructor; cbn; [done|done|]. by apply map_Forall_insert_2. Qed.

Lemma wwinv_step w w' : wwinv w -> wstep w w' -> wwinv w'.
Proof.
  intros Hinv Hs. destruct Hs as
    [w t Ht|w t Ht|w t c x n Ht Hn|w t c x p Ht Hp|w t c Ht|w t c Ht|w t c Ht Hc|w t c Ht|w m Hm].
  - by apply wwinv_local.
  - apply wwinv_local; [done|]. simpl. split; [unfold NextUpdate; lia|done].
  - destruct Hinv as [H1 H2 H3]. pose proof (H3 _ _ Ht) as [Hle Hx].
    pose proof (AddBytesSent_inv _ n H1 (proj1 Hn)) as H1'.
    rewrite AddBytesSent_spec in * by (done || lia). cbn in *.
    constructor; cbn; try done.
    assert (forall p, writer_ok (ww_fc w) p -> writer_ok (mkOutgoingFC (out_maxData (ww_fc w))
      (bytesSent (ww_fc w) + n `min` (out_maxData (ww_fc w) - bytesSent (ww_fc w)))
      (lastBlockedAt (ww_fc w)) (updated (ww_fc w)) (closedChans (ww_fc w))) p) as Hmono.
    { intros p Hp. eapply writer_ok_mono; try done. unfold no_credit; cbn. lia. }
    apply map_Forall_insert_2.
    + split; [done|]. intros E. rewrite orb_true_iff, bool_decide_eq_true. unfold no_credit; cbn.
      intros [->|Hlt]; [|lia]. specialize (Hx E eq_refl). unfold no_credit in Hx. lia.
    + eapply map_Forall_impl; [done|]. auto.
  - apply wwinv_local; [done|]. by destruct Hp as [-> | ->].
  - pose proof (wi_writers _ Hinv _ _ Ht) as [Hle Hx]. apply wwinv_local; [done|]. simpl. auto.
  - destruct Hinv as [H1 H2 H3]. pose proof (H3 _ _ Ht) as [Hle Hx].
    pose proof (IsNewlyBlocked_inv _ H1) as H1'. destruct H1 as (Hb & _ & Hl & _).
    unfold IsNewlyBlocked in *. case_decide as Hd; cbn in *.
    + rewrite app_nil_r. apply wwinv_local; [by constructor|]. simpl. split; [done|].
      intros E. specialize (Hx E). unfold no_credit in Hx. split; [done|]. lia.
    + constructor; cbn; try done.
      * eapply chain_snoc; [done|]. lia.
      * apply map_Forall_insert_2; [simpl; split; [done|]; intros E; by split; [apply Hx|]|].
        eapply map_Forall_impl; [done|]. intros ? p Hp. by eapply writer_ok_mono; [exact Hp|..]; unfold no_credit; cbn.
  - by apply wwinv_local.
  - by apply wwinv_local.
  - destruct Hinv as [H1 H2 H3]. pose proof (UpdateMaxData_inv _ m H1 Hm) as H1'.
    unfold UpdateMaxData in *. case_decide; cbn in *; constructor; cbn; try done.
    eapply map_Forall_impl; [done|]. intros ? p Hp. destruct p; simpl in *; try done.
    all: destruct Hp; split; [lia|]; intros E; lia.
Qed.

Lemma wwinv_reachable m w : 0 <= m < 2 ^ 63 -> wreachable m w -> wwinv w.
Proof.
  intros Hm H. apply wwinv_new in Hm. revert Hm. induction H; eauto using wwinv_step.
Qed.

(** ** Theorem *)


(** A limit of 4: a writer asks for 6 bytes, gets 4, reports and waits. *)
Definition exampleBlocked : wworld :=
  mkWWorld (mkOutgoingFC 4 4 4 0 ∅) [4] (<[0%nat := WWaiting 0]> ∅).

Lemma exampleBlocked_reachable : wreachable 4 exampleBlocked.
Proof.
  unfold wreachable.
  eapply rtc_l; [apply (wstep_start _ 0); reflexivity|].
  eapply rtc_l; [apply (wstep_next _ 0); reflexivity|].
  eapply rtc_l; [apply (wstep_grant _ 0 0 false 6); [reflexivity|lia]|].
  eapply rtc_l; [apply (wstep_limited _ 0 0); vm_compute; reflexivity|].
  eapply rtc_l; [apply (wstep_report _ 0 0); vm_compute; reflexivity|].
  match goal with |- rtc _ ?a ?b => replace a with b by (vm_compute; reflexivity) end.
  apply rtc_refl.
Qed.

