(* ===== verification/ReceiveStream.v ===== *)
(** * The receiving side of a stream ([receive_stream.go])

    The methods of [ReceiveStream]; the results of the calls to the QUIC stream
    are arguments. The bytes of a stream are counted for the session's flow
    control at two places, which run concurrently: in [Read], and in the
    callback that QUIC calls once it knows the final size of the stream. *)

From S2P Require Import Prelude Errors Quicvarint Protocol Config FlowControl SendStream.

(** ** State and methods *)

Record ReceiveStream := mkReceiveStream {
  (** [s.fc != nil] *)
  rs_fc : bool;
  bytesRead : Z;
  finalSizeKnown : bool;
  rs_closeErr : option error;
}.

Definition newReceiveStream (streamHeaderLen : Z) (fc : bool) : ReceiveStream :=
  mkReceiveStream fc streamHeaderLen false None.

(** The critical section of [Read] after QUIC returned [n] bytes: the argument
    of [addBytesRead]. *)
Definition countRead (n : Z) (s : ReceiveStream) : Z * ReceiveStream :=
  if finalSizeKnown s then (0, s)
  else (n, mkReceiveStream (rs_fc s) (i64 (bytesRead s + n)) (finalSizeKnown s) (rs_closeErr s)).

(** The critical section of [onReceiveFinalSize]. *)
Definition countFinalSize (size : Z) (s : ReceiveStream) : Z * ReceiveStream :=
  (i64 (size - bytesRead s), mkReceiveStream (rs_fc s) size true (rs_closeErr s)).

(** [addBytesRead]: the new controller, the limits it advertises, and the calls
    of [onFlowControlError]. *)
Definition addBytesRead (hasFC : bool) (n : Z) (fc : incomingDataFlowController)
  : list error * list Z * incomingDataFlowController :=
  if negb hasFC || bool_decide (n = 0) then ([], [], fc)
  else
    let '(err, updates, fc) := AddBytesRead fc n in (option_list err, updates, fc).

(** [Read] without interruption: [r] is the result of [s.str.Read], [gone] that
    of [handleSessionGoneError] if it is called. *)
Definition Read_result `{!ErrorText} (gone : error) (r : nat * option error)
    (s : ReceiveStream) (fc : incomingDataFlowController)
  : nat * option error * (list error * list Z * incomingDataFlowController) * list effect * ReceiveStream :=
  let '(counted, s) :=
    if rs_fc s
    then let '(newlyRead, s) := countRead (Z.of_nat r.1) s in (addBytesRead (rs_fc s) newlyRead fc, s)
    else (([], [], fc), s) in
  let err := sessionGone gone r.2 in
  (r.1, maybeConvertStreamError err, counted, closeOnError err, s).

(** The calls that [CancelRead] makes: [s.str.CancelRead] with this code, then
    [onClose]. *)
Definition CancelRead (e : Z) : Z := webtransportCodeToHTTPCode e.

(** The code of the call of [s.str.CancelRead], if there is one. *)
Definition receive_closeWithSession (err : error) (s : ReceiveStream) : option Z * ReceiveStream :=
  match rs_closeErr s with
  | Some _ => (None, s)
  | None => (Some WTSessionGoneErrorCode,
             mkReceiveStream (rs_fc s) (bytesRead s) (finalSizeKnown s) (Some err))
  end.

(** ** The goroutines *)

Inductive rpc : Type :=
(** [Read] got this many bytes from QUIC and is about to count them *)
| RGot (n : Z)
(** [Read] or the callback is about to call [addBytesRead] *)
| RAdd (n : Z)
| RReturned.

Record rworld := mkRWorld {
  rw_s : ReceiveStream;
  (** the bytes that QUIC delivered to [Read] *)
  rw_delivered : Z;
  rw_finalSize : option Z;
  (** the arguments of the calls of [AddBytesRead] *)
  rw_added : list Z;
  rw_threads : gmap nat rpc;
}.

Definition newRWorld (hdrLen : Z) : rworld := mkRWorld (newReceiveStream hdrLen true) 0 None [] ∅.

(** What [addBytesRead] passes on. *)
Definition passed_on (n : Z) : list Z := if bool_decide (n = 0) then [] else [n].

(** QUIC delivers at most the bytes of the stream behind its header, and knows
    the final size at most once, when it is not smaller than what it delivered. *)
Inductive rstep (hdrLen : Z) : rworld -> rworld -> Prop :=
| rstep_Read w t n :
    rw_threads w !! t = None -> 0 <= n ->
    hdrLen + rw_delivered w + n <= default (2 ^ 62 - 1) (rw_finalSize w) ->
    rstep hdrLen w (mkRWorld (rw_s w) (rw_delivered w + n) (rw_finalSize w) (rw_added w)
      (<[t := RGot n]> (rw_threads w)))
| rstep_count w t n :
    rw_threads w !! t = Some (RGot n) ->
    rstep hdrLen w (mkRWorld (countRead n (rw_s w)).2 (rw_delivered w) (rw_finalSize w) (rw_added w)
      (<[t := RAdd (countRead n (rw_s w)).1]> (rw_threads w)))
| rstep_finalSize w t size :
    rw_threads w !! t = None -> rw_finalSize w = None ->
    hdrLen + rw_delivered w <= size < 2 ^ 62 ->
    rstep hdrLen w (mkRWorld (countFinalSize size (rw_s w)).2 (rw_delivered w) (Some size) (rw_added w)
      (<[t := RAdd (countFinalSize size (rw_s w)).1]> (rw_threads w)))
| rstep_add w t n :
    rw_threads w !! t = Some (RAdd n) ->
    rstep hdrLen w (mkRWorld (rw_s w) (rw_delivered w) (rw_finalSize w) (rw_added w ++ passed_on n)
      (<[t := RReturned]> (rw_threads w))).

Definition rreachable (hdrLen : Z) (w : rworld) : Prop := rtc (rstep hdrLen) (newRWorld hdrLen) w.

(** ** The invariant *)

Definition got (p : rpc) : Z := match p with RGot n => n | _ => 0 end.
Definition adding (p : rpc) : Z := match p with RAdd n => n | _ => 0 end.

Record rinv (hdrLen : Z) (w : rworld) : Prop := mkRInv {
  r_known : finalSizeKnown (rw_s w) = true <-> is_Some (rw_finalSize w);
  r_counted : zsum id (rw_added w) + msum adding (rw_threads w) = bytesRead (rw_s w) - hdrLen;
  r_size : match rw_finalSize w with
           | Some size => bytesRead (rw_s w) = size /\ hdrLen + rw_delivered w <= size < 2 ^ 62
           | None => bytesRead (rw_s w) + msum got (rw_threads w) = hdrLen + rw_delivered w /\
                     hdrLen + rw_delivered w < 2 ^ 62
           end;
  r_nonneg : map_Forall (fun _ p => 0 <= got p /\ 0 <= adding p) (rw_threads w);
  r_positive : Forall (fun n => 0 < n) (rw_added w);
  r_range : 0 <= hdrLen <= bytesRead (rw_s w) /\ 0 <= rw_delivered w;
}.

Lemma passed_on_sum n : zsum id (passed_on n) = n.
Proof. unfold passed_on, zsum. case_bool_decide; simpl; unfold id; lia. Qed.

Lemma rinv_new hdrLen : 0 <= hdrLen < 2 ^ 62 -> rinv hdrLen (newRWorld hdrLen).
Proof.
  intros. constructor; cbn -[msum]; rewrite ?msum_empty; try done; unfold zsum; simpl; lia.
Qed.

Lemma msum_got_bound th : map_Forall (fun _ p => 0 <= got p /\ 0 <= adding p) th ->
  forall t p, th !! t = Some p -> 0 <= got p <= msum got th.
Proof.
  intros Hn t p Ht. split; [by apply (Hn _ _ Ht)|].
  rewrite <- (insert_delete_id th t p) by done.
  rewrite msum_insert_new by apply lookup_delete_eq.
  assert (0 <= msum got (delete t th)); [|lia]. apply msum_nonneg.
  intros t' p' [_ Hin]%lookup_delete_Some. by apply (Hn _ _ Hin).
Qed.

Lemma rinv_step hdrLen w w' : rinv hdrLen w -> rstep hdrLen w w' -> rinv hdrLen w'.
Proof.
  intros [Hk Hc Hs Hn Hp Hr] Hstep. destruct Hstep as
    [w t n Ht Hn0 Hle|w t n Ht|w t size Ht Hf Hle|w t n Ht].
  - constructor; cbn; rewrite ?msum_insert_new by done; simpl; try done; try lia.
    + destruct (rw_finalSize w); simpl in *; lia.
    + apply map_Forall_insert_2; [simpl; lia|done].
  - pose proof (msum_got_bound _ Hn _ _ Ht) as Hb. simpl in Hb.
    unfold countRead. destruct (finalSizeKnown (rw_s w)) eqn:Ek; cbn.
    + destruct (proj1 Hk eq_refl) as [size Hsize]. rewrite Hsize in *.
      constructor; cbn; rewrite ?(msum_insert _ _ _ _ _ Ht), ?Hsize; simpl; try done; try lia.
      apply map_Forall_insert_2; [simpl; lia|done].
    + destruct (rw_finalSize w) as [size|] eqn:Hsize; [by pose proof (proj2 Hk ltac:(eauto))|].
      rewrite i64_id by lia.
      constructor; cbn; rewrite ?(msum_insert _ _ _ _ _ Ht), ?Hsize; simpl; try done; try lia.
      apply map_Forall_insert_2; [simpl; lia|done].
  - rewrite Hf in Hs, Hk. unfold countFinalSize; cbn.
    assert (0 <= msum got (rw_threads w)).
    { apply msum_nonneg. intros t' p' Hin. by apply (Hn _ _ Hin). }
    rewrite i64_id by lia.
    constructor; cbn; rewrite ?msum_insert_new by done; simpl; try done; try lia.
    apply map_Forall_insert_2; [simpl; lia|done].
  - pose proof (Hn _ _ Ht) as [_ Hn1]. simpl in Hn1.
    constructor; cbn; rewrite ?(msum_insert _ _ _ _ _ Ht), ?zsum_app, ?passed_on_sum; simpl; try done; try lia.
    + apply map_Forall_insert_2; [simpl; lia|done].
    + apply Forall_app_2; [done|]. unfold passed_on. case_bool_decide; repeat constructor. lia.
Qed.

Lemma rinv_reachable hdrLen w : 0 <= hdrLen < 2 ^ 62 -> rreachable hdrLen w -> rinv hdrLen w.
Proof.
  intros Hh H. apply rinv_new in Hh. revert Hh. induction H; eauto using rinv_step.
Qed.

(** ** Theorem *)

(** C21: every byte is counted exactly once, however calls of [Read] interleave
    with the final-size callback. Before the final size is known, the bytes
    passed to the session's flow control, those about to be passed and those
    about to be counted are the bytes that were read; afterwards, the bytes
    passed and about to be passed are the whole stream without its header,
    whether or not they are ever read. Every call passes a positive number. *)
Theorem bytes_counted_once (hdrLen : Z) (w : rworld) :
  0 <= hdrLen < 2 ^ 62 -> rreachable hdrLen w ->
  zsum id (rw_added w) + msum adding (rw_threads w) =
    match rw_finalSize w with
    | Some size => size - hdrLen
    | None => rw_delivered w - msum got (rw_threads w)
    end /\
  ((forall t p, rw_threads w !! t = Some p -> p = RReturned) ->
   zsum id (rw_added w) = match rw_finalSize w with Some size => size - hdrLen | None => rw_delivered w end) /\
  Forall (fun n => 0 < n) (rw_added w).
Proof.
  intros Hh Hr. pose proof (rinv_reachable _ _ Hh Hr) as [Hk Hc Hs Hn Hp Hx].
  assert (zsum id (rw_added w) + msum adding (rw_threads w) =
    match rw_finalSize w with Some size => size - hdrLen
    | None => rw_delivered w - msum got (rw_threads w) end) as E.
  { destruct (rw_finalSize w); lia. }
  split_and!; [done| |done]. intros Hall.
  rewrite (msum_zero adding), (msum_zero got) in E by (intros t p Ht; by rewrite (Hall t p Ht)).
  destruct (rw_finalSize w); lia.
Qed.

(** A header of 2 bytes; [Read] got 5 bytes, the final size 12 is announced
    before they are counted: 10 bytes are passed on. *)
Definition exampleFinal : rworld :=
  mkRWorld (mkReceiveStream true 12 true None) 5 (Some 12) [10]
    (<[1%nat := RReturned]> (<[0%nat := RReturned]> ∅)).

Lemma bytes_counted_once_witness : zsum id (rw_added exampleFinal) = 12 - 2.
Proof.
  apply (bytes_counted_once 2 exampleFinal).
  - lia.
  - unfold rreachable.
    eapply rtc_l; [apply (rstep_Read _ _ 0 5); [reflexivity|lia|simpl; lia]|].
    eapply rtc_l; [apply (rstep_finalSize _ _ 1 12); [reflexivity|reflexivity|simpl; lia]|].
    eapply rtc_l; [apply (rstep_count _ _ 0 5); reflexivity|].
    eapply rtc_l; [apply (rstep_add _ _ 1 10); vm_compute; reflexivity|].
    eapply rtc_l; [apply (rstep_add _ _ 0 0); vm_compute; reflexivity|].
    match goal with |- rtc _ ?a ?b => replace a with b by (vm_compute; reflexivity) end.
    apply rtc_refl.
  - intros t p Ht. apply elem_of_map_to_list in Ht. vm_compute in Ht.
    repeat (apply elem_of_cons in Ht as [[= -> ->]|Ht]; [reflexivity|]). by apply elem_of_nil in Ht.
Defined.
