(* ===== verification/Stream.v ===== *)
(** * Bidirectional streams ([stream.go])

    A [Stream] is a [SendStream] and a [ReceiveStream]. Each half reports that
    it is closed, possibly more than once; [registerClose] passes this on once
    both are. [onClose] then removes the stream from its map, which is
    [RemoveStream] of [IncomingStreams] for a stream that the peer opened and
    [removeStream] of [OutgoingStreams] for the others. *)

From S2P Require Import Prelude Errors Quicvarint Protocol Config FlowControl SendStream ReceiveStream.
From S2P Require Import Deadline.
From S2P Require OutgoingStreams IncomingStreams.

(** ** State and methods *)

Record Stream := mkStream {
  sendStr : SendStream;
  recvStr : ReceiveStream;
  sendSideClosed : bool;
  recvSideClosed : bool;
}.

Definition newStream (hdr : gostring) (fc : bool) (receiveHeaderLen : Z) : Stream :=
  mkStream (newSendStream hdr) (newReceiveStream receiveHeaderLen fc) false false.

(** The first component says whether [onClose] is called. *)
Definition registerClose (isSendSide : bool) (s : Stream) : bool * Stream :=
  let s :=
    if isSendSide then mkStream (sendStr s) (recvStr s) true (recvSideClosed s)
    else mkStream (sendStr s) (recvStr s) (sendSideClosed s) true in
  (sendSideClosed s && recvSideClosed s, s).

Definition with_sendStr (s : Stream) (ss : SendStream) : Stream :=
  mkStream ss (recvStr s) (sendSideClosed s) (recvSideClosed s).

Definition Stream_CancelWrite (e : Z) (s : Stream)
  : list effect * option (gostring * list effect) * Stream :=
  let '(es, a, ss) := CancelWrite e (sendStr s) in (es, a, with_sendStr s ss).

Definition Stream_Close (s : Stream) : list effect * option (gostring * list effect) * Stream :=
  let '(es, a, ss) := Close (sendStr s) in (es, a, with_sendStr s ss).

Definition Stream_CancelRead (e : Z) : Z := CancelRead e.

(** The deadlines of the two halves are apart. [w] and [r] are the results of
    the methods of the QUIC stream; the first component lists the arguments of
    [errors.Join]. *)
Definition Stream_SetDeadline `{!ErrorText} (t : Z) (w r : option error) (dw dr : deadlineState)
  : list (option error) * deadlineState * deadlineState :=
  let '(err1, dw) := SetWriteDeadline t w dw in
  let '(err2, dr) := SetReadDeadline t r dr in
  ([err1; err2], dw, dr).

(** The effects on the sending half, and the code of the call of
    [s.str.CancelRead] if there is one. *)
Definition Stream_closeWithSession (err : error) (s : Stream) : list effect * option Z * Stream :=
  let '(es, ss) := closeWithSession err (sendStr s) in
  let '(code, rs) := receive_closeWithSession err (recvStr s) in
  (es, code, mkStream ss rs (sendSideClosed s) (recvSideClosed s)).

(** ** Reports of the two halves, in any order and number *)

(** How often [onClose] is called. *)
Fixpoint closings (l : list bool) (s : Stream) : nat :=
  match l with
  | [] => 0
  | side :: l =>
      let '(closed, s) := registerClose side s in
      ((if closed then 1 else 0) + closings l s)%nat
  end.

(** The stream's entry in the map of incoming streams, and the limits queued. *)
Fixpoint removals {T} (n : nat) (id : Z) (s : IncomingStreams.incomingStreamsMap T)
  : list Z * IncomingStreams.incomingStreamsMap T :=
  match n with
  | O => ([], s)
  | S n =>
      let '(l1, s) := IncomingStreams.RemoveStream id s in
      let '(l2, s) := removals n id s in (l1 ++ l2, s)
  end.

(** ** Lemmas *)

Lemma closings_spec l s : sendSideClosed s && recvSideClosed s = false ->
  (0 < closings l s)%nat <->
  (sendSideClosed s = true \/ true ∈ l) /\ (recvSideClosed s = true \/ false ∈ l).
Proof.
  revert s. induction l as [|side l IH]; intros s Hs; simpl.
  - split; [lia|]. intros [[E1|?] [E2|?]]; [by rewrite E1, E2 in Hs|set_solver..].
  - destruct side, s as [ss rs [] []]; simpl in *; try done;
      try (split; [intros _; split; auto; right; by left|lia]);
      rewrite IH by done; simpl; set_solver.
Qed.

Lemma RemoveStream_gone {T} id (s : IncomingStreams.incomingStreamsMap T) :
  default ∅ (IncomingStreams.i_m s) !! id = None -> IncomingStreams.RemoveStream id s = ([], s).
Proof. unfold IncomingStreams.RemoveStream, IncomingStreams.removeLocked. by intros ->. Qed.

Lemma RemoveStream_removes {T} id (s : IncomingStreams.incomingStreamsMap T) :
  default ∅ (IncomingStreams.i_m (IncomingStreams.RemoveStream id s).2) !! id = None.
Proof.
  unfold IncomingStreams.RemoveStream, IncomingStreams.removeLocked, IncomingStreams.removeQueue.
  destruct (default ∅ (IncomingStreams.i_m s) !! id) eqn:E; [|done].
  repeat case_decide; simpl; apply lookup_delete_eq.
Qed.

Lemma removals_gone {T} n id (s : IncomingStreams.incomingStreamsMap T) :
  default ∅ (IncomingStreams.i_m s) !! id = None -> removals n id s = ([], s).
Proof. intros H. induction n as [|n IH]; simpl; [done|]. by rewrite RemoveStream_gone, IH. Qed.

Lemma removals_once {T} n id (s : IncomingStreams.incomingStreamsMap T) : (0 < n)%nat ->
  removals n id s = IncomingStreams.RemoveStream id s.
Proof.
  destruct n as [|n]; [lia|]. intros _. simpl. pose proof (RemoveStream_removes id s) as H.
  destruct (IncomingStreams.RemoveStream id s) as [l1 s1]. rewrite removals_gone by done.
  by rewrite app_nil_r.
Qed.

(** ** Theorem *)

(** A bidirectional stream gives back its credit exactly once, and only
    when both halves are closed. For any sequence of reports by the two halves
    ([true] is the sending half): the calls of [onClose] have together the
    effect of one [RemoveStream] if both halves have reported, and none
    otherwise. *)
Theorem stream_removed_once {T} (l : list bool) (hdr : gostring) (fc : bool) (headerLen id : Z)
    (s : IncomingStreams.incomingStreamsMap T) :
  removals (closings l (newStream hdr fc headerLen)) id s =
  if bool_decide (true ∈ l /\ false ∈ l) then IncomingStreams.RemoveStream id s else ([], s).
Proof.
  pose proof (closings_spec l (newStream hdr fc headerLen) eq_refl) as H. simpl in H.
  case_bool_decide as Hl.
  - apply removals_once, H. destruct Hl; auto.
  - destruct (closings l (newStream hdr fc headerLen)) as [|n]; [done|].
    exfalso. apply Hl. destruct H as [H _]. destruct (H ltac:(lia)) as [[?|?] [?|?]]; done.
Qed.
