(* ===== verification/SessionManager.v ===== *)
(** * Associating streams with sessions ([session_manager.go])

    The session manager of a QUIC connection. Every method holds the mutex from
    beginning to end, so it is one function from the old state to the calls it
    makes, in order, and the new state. Streams and sessions are opaque.
    [None] is a Go panic: a nil pointer is dereferenced. *)

From S2P Require Import Prelude Errors Quicvarint Protocol.

Section manager.
(** Bidirectional and unidirectional QUIC streams, and sessions. *)
Context {Str UStr Sess : Type}.

(** ** State *)

Record streamWithHeader (T : Type) := mkStreamWithHeader {
  swh_Stream : T;
  HeaderLen : Z;
}.
Arguments mkStreamWithHeader {T} _ _.
Arguments swh_Stream {T} _.
Arguments HeaderLen {T} _.

Record unestablishedSession := mkUnestablished {
  Streams : list (streamWithHeader Str);
  UniStreams : list (streamWithHeader UStr);
  (** the timer is not nil *)
  Timer : bool;
}.

Record sessionEntry := mkSessionEntry {
  Unestablished : option unestablishedSession;
  Session : option Sess;
}.

Definition maxRecentlyClosedSessions : nat := 16.

Record sessionManager := mkSessionManager {
  sessions : gmap Z sessionEntry;
  recentlyClosedSessions : list Z;
}.

Definition newSessionManager : sessionManager := mkSessionManager ∅ [].

(** The calls that the methods make. *)
Inductive call : Type :=
| MCancelRead (s : Str + UStr) (code : Z)
| MCancelWrite (s : Str) (code : Z)
| MAddIncoming (sess : Sess) (s : Str) (headerLen : Z)
| MAddIncomingUni (sess : Sess) (s : UStr) (headerLen : Z)
| MTimerStart (id : Z)
| MTimerReset (id : Z)
| MTimerStop (id : Z)
(** [context.AfterFunc(s.Context(), func() { m.deleteSession(id) })] *)
| MWatch (sess : Sess) (id : Z).

(** ** Methods *)

(** The entry for [id], if there is one and otherwise a new one; [None] when
    [id] was closed recently. *)
Definition lookupEntry (id : Z) (m : sessionManager) : option sessionEntry :=
  match sessions m !! id with
  | Some entry => Some entry
  | None =>
      if decide (id ∈ recentlyClosedSessions m) then None
      else Some (mkSessionEntry (Some (mkUnestablished [] [] false)) None)
  end.

(** [m.resetTimer(id)], given the buffered streams of the entry. *)
Definition resetTimer (id : Z) (u : unestablishedSession) : list call * unestablishedSession :=
  if Timer u then ([MTimerReset id], u)
  else ([MTimerStart id], mkUnestablished (Streams u) (UniStreams u) true).

Definition set_entry (id : Z) (entry : sessionEntry) (m : sessionManager) : sessionManager :=
  mkSessionManager (<[id := entry]> (sessions m)) (recentlyClosedSessions m).

Definition AddStream (s : Str) (id headerLen : Z) (m : sessionManager)
  : option (list call * sessionManager) :=
  match lookupEntry id m with
  | None =>
      Some ([MCancelRead (inl s) WTBufferedStreamRejectedErrorCode;
             MCancelWrite s WTBufferedStreamRejectedErrorCode], m)
  | Some entry =>
      let m := set_entry id entry m in
      match Session entry with
      | Some sess => Some ([MAddIncoming sess s headerLen], m)
      | None =>
          u ← Unestablished entry;
          let u := mkUnestablished (Streams u ++ [mkStreamWithHeader s headerLen]) (UniStreams u) (Timer u) in
          let '(calls, u) := resetTimer id u in
          Some (calls, set_entry id (mkSessionEntry (Some u) None) m)
      end
  end.

Definition AddUniStream (s : UStr) (id headerLen : Z) (m : sessionManager)
  : option (list call * sessionManager) :=
  match lookupEntry id m with
  | None => Some ([MCancelRead (inr s) WTBufferedStreamRejectedErrorCode], m)
  | Some entry =>
      let m := set_entry id entry m in
      match Session entry with
      | Some sess => Some ([MAddIncomingUni sess s headerLen], m)
      | None =>
          u ← Unestablished entry;
          let u := mkUnestablished (Streams u) (UniStreams u ++ [mkStreamWithHeader s headerLen]) (Timer u) in
          let '(calls, u) := resetTimer id u in
          Some (calls, set_entry id (mkSessionEntry (Some u) None) m)
      end
  end.

(** What happens to buffered streams: they are rejected, or handed over. *)
Definition rejectAll (u : unestablishedSession) : list call :=
  concat ((fun s => [MCancelRead (inl (swh_Stream s)) WTBufferedStreamRejectedErrorCode;
                     MCancelWrite (swh_Stream s) WTBufferedStreamRejectedErrorCode]) <$> Streams u) ++
  ((fun s => MCancelRead (inr (swh_Stream s)) WTBufferedStreamRejectedErrorCode) <$> UniStreams u).

Definition handOver (sess : Sess) (u : unestablishedSession) : list call :=
  ((fun s => MAddIncoming sess (swh_Stream s) (HeaderLen s)) <$> Streams u) ++
  ((fun s => MAddIncomingUni sess (swh_Stream s) (HeaderLen s)) <$> UniStreams u).

Definition onTimer (id : Z) (m : sessionManager) : option (list call * sessionManager) :=
  match sessions m !! id with
  | None => Some ([], m)
  | Some entry =>
      match Session entry with
      | Some _ => Some ([], m)
      | None =>
          u ← Unestablished entry;
          Some (rejectAll u, mkSessionManager (delete id (sessions m)) (recentlyClosedSessions m))
      end
  end.

Definition AddSession (id : Z) (sess : Sess) (m : sessionManager) : list call * sessionManager :=
  let calls :=
    match sessions m !! id with
    | Some (mkSessionEntry (Some u) _) =>
        handOver sess u ++ (if Timer u then [MTimerStop id] else [])
    | _ => []
    end in
  (calls ++ [MWatch sess id], set_entry id (mkSessionEntry None (Some sess)) m).

Definition deleteSession (id : Z) (m : sessionManager) : sessionManager :=
  let recent := recentlyClosedSessions m ++ [id] in
  mkSessionManager (delete id (sessions m))
    (if decide (maxRecentlyClosedSessions < length recent)%nat then tail recent else recent).

Definition Close (m : sessionManager) : list call * sessionManager :=
  (concat ((fun e : Z * sessionEntry =>
     match Unestablished e.2 with
     | Some u => if Timer u then [MTimerStop e.1] else []
     | None => []
     end) <$> map_to_list (sessions m)),
   mkSessionManager ∅ (recentlyClosedSessions m)).

(** ** The life of the streams

    A stream with its kind and the session and header length it was added
    with. [m_fate] says what a call does with a stream; [m_dropped] collects
    the buffered streams that [Close] and [deleteSession] forget. *)

Definition item : Type := (Str + UStr) * Z.

Definition delivered (c : call) : list (Sess * item) :=
  match c with
  | MAddIncoming sess s h => [(sess, (inl s, h))]
  | MAddIncomingUni sess s h => [(sess, (inr s, h))]
  | _ => []
  end.

Definition rejected (c : call) : list (Str + UStr) :=
  match c with MCancelRead s _ => [s] | _ => [] end.

Definition items (u : unestablishedSession) : list item :=
  ((fun s => (inl (swh_Stream s), HeaderLen s)) <$> Streams u) ++
  ((fun s => (inr (swh_Stream s), HeaderLen s)) <$> UniStreams u).

Definition buffered (m : sessionManager) (id : Z) : list item :=
  match sessions m !! id with
  | Some (mkSessionEntry (Some u) _) => items u
  | _ => []
  end.

Record mworld := mkMWorld {
  mw_m : sessionManager;
  (** the sessions that were added; those whose context is done *)
  mw_established : gmap Z Sess;
  mw_ended : list Z;
  mw_closed : bool;
  (** for every session ID: the streams that were added for it, handed over,
      rejected, and dropped when the connection was closed *)
  mw_added : Z -> list item;
  mw_delivered : Z -> list (Sess * item);
  mw_rejected : Z -> list (Str + UStr);
  mw_dropped : Z -> list item;
}.

Definition at_id {A} (f : Z -> list A) (id : Z) (l : list A) : Z -> list A :=
  fun id' => if decide (id' = id) then f id ++ l else f id'.

Definition newMWorld : mworld :=
  mkMWorld newSessionManager ∅ [] false (fun _ => []) (fun _ => []) (fun _ => []) (fun _ => []).

(** The calls of one method concern one session ID. *)
Definition after (w : mworld) (id : Z) (added : list item) (calls : list call) (m : sessionManager) : mworld :=
  mkMWorld m (mw_established w) (mw_ended w) (mw_closed w)
    (at_id (mw_added w) id added)
    (at_id (mw_delivered w) id (concat (delivered <$> calls)))
    (at_id (mw_rejected w) id (concat (rejected <$> calls)))
    (mw_dropped w).

Inductive mstep : mworld -> mworld -> Prop :=
| mstep_AddStream w s id h calls m :
    AddStream s id h (mw_m w) = Some (calls, m) ->
    mstep w (after w id [(inl s, h)] calls m)
| mstep_AddUniStream w s id h calls m :
    AddUniStream s id h (mw_m w) = Some (calls, m) ->
    mstep w (after w id [(inr s, h)] calls m)
| mstep_onTimer w id calls m :
    onTimer id (mw_m w) = Some (calls, m) ->
    mstep w (after w id [] calls m)
(** the IDs of the CONNECT streams are never reused *)
| mstep_AddSession w id sess calls m :
    mw_established w !! id = None -> AddSession id sess (mw_m w) = (calls, m) ->
    mstep w (let w := after w id [] calls m in
      mkMWorld (mw_m w) (<[id := sess]> (mw_established w)) (mw_ended w) (mw_closed w)
        (mw_added w) (mw_delivered w) (mw_rejected w) (mw_dropped w))
(** the function passed to [context.AfterFunc] runs once *)
| mstep_deleteSession w id :
    is_Some (mw_established w !! id) -> id ∉ mw_ended w ->
    mstep w (mkMWorld (deleteSession id (mw_m w)) (mw_established w) (mw_ended w ++ [id]) (mw_closed w)
      (mw_added w) (mw_delivered w) (mw_rejected w) (at_id (mw_dropped w) id (buffered (mw_m w) id)))
| mstep_Close w calls m :
    Close (mw_m w) = (calls, m) ->
    mstep w (mkMWorld m (mw_established w) (mw_ended w) true (mw_added w) (mw_delivered w)
      (mw_rejected w) (fun id => mw_dropped w id ++ buffered (mw_m w) id)).

Definition mreachable (w : mworld) : Prop := rtc mstep newMWorld w.

(** ** The invariant *)

(** Exactly one of the two pointers is not nil; buffered streams have a timer;
    an established session is the one that was added. *)
Definition entry_ok (w : mworld) (id : Z) (e : sessionEntry) : Prop :=
  (exists u, e = mkSessionEntry (Some u) None /\ Timer u = true) \/
  (exists sess, e = mkSessionEntry None (Some sess) /\ mw_established w !! id = Some sess /\ id ∉ mw_ended w).

Definition conserved (w : mworld) (id : Z) : Prop :=
  (mw_added w id).*1 ≡ₚ (mw_delivered w id).*2.*1 ++ mw_rejected w id ++
    (mw_dropped w id).*1 ++ (buffered (mw_m w) id).*1.

Record minv (w : mworld) : Prop := mkMInv {
  mi_entries : map_Forall (entry_ok w) (sessions (mw_m w));
  mi_recent : recentlyClosedSessions (mw_m w) = drop (length (mw_ended w) - 16) (mw_ended w);
  mi_gone : forall id, id ∈ recentlyClosedSessions (mw_m w) -> sessions (mw_m w) !! id = None;
  mi_ended : NoDup (mw_ended w) /\ forall id, id ∈ mw_ended w -> is_Some (mw_established w !! id);
  mi_present : mw_closed w = false -> forall id sess, mw_established w !! id = Some sess ->
    id ∉ mw_ended w -> sessions (mw_m w) !! id = Some (mkSessionEntry None (Some sess));
  mi_conserved : forall id, conserved w id;
  mi_dropped : mw_closed w = false -> forall id, mw_dropped w id = [];
  mi_delivered : forall id sess i, (sess, i) ∈ mw_delivered w id -> mw_established w !! id = Some sess;
}.

Lemma tail_drop_1 {A} (l : list A) : tail l = drop 1 l.
Proof. by destruct l. Qed.

Lemma recent_push (l : list Z) id :
  (let r := drop (length l - 16) l ++ [id] in
   if decide (maxRecentlyClosedSessions < length r)%nat then tail r else r) =
  drop (length (l ++ [id]) - 16) (l ++ [id]).
Proof.
  cbv zeta. unfold maxRecentlyClosedSessions. rewrite !length_app, length_drop. simpl length.
  destruct (decide (16 <= length l)%nat) as [Hl|Hl].
  - rewrite decide_True by lia.
    rewrite (tail_drop_1 (_ ++ _)), !drop_app_le, drop_drop by (rewrite ?length_drop; lia).
    f_equal. f_equal. lia.
  - rewrite decide_False by lia. replace (length l - 16)%nat with 0%nat by lia.
    replace (length l + 1 - 16)%nat with 0%nat by lia. done.
Qed.

Lemma minv_new : minv newMWorld.
Proof.
  constructor; cbn; try done; try set_solver.
  - split; [apply NoDup_nil_2|set_solver].
  - intros id. unfold conserved, buffered. cbn. by rewrite lookup_empty.
Qed.

(** ** Lemmas: adding a stream *)

(** It is rejected, handed over, or buffered. *)
Inductive add_effect (m : sessionManager) (id : Z) (it : item) (calls : list call) (m' : sessionManager) : Prop :=
| ae_rejected :
    id ∈ recentlyClosedSessions m -> sessions m !! id = None -> m' = m ->
    concat (delivered <$> calls) = [] -> concat (rejected <$> calls) = [it.1] ->
    add_effect m id it calls m'
| ae_delivered sess :
    sessions m !! id = Some (mkSessionEntry None (Some sess)) -> m' = m ->
    concat (delivered <$> calls) = [(sess, it)] -> concat (rejected <$> calls) = [] ->
    add_effect m id it calls m'
| ae_buffered u :
    Timer u = true -> items u ≡ₚ buffered m id ++ [it] -> id ∉ recentlyClosedSessions m ->
    (forall sess, sessions m !! id <> Some (mkSessionEntry None (Some sess))) ->
    m' = set_entry id (mkSessionEntry (Some u) None) m ->
    concat (delivered <$> calls) = [] -> concat (rejected <$> calls) = [] ->
    add_effect m id it calls m'.

Lemma set_entry_id id e m : sessions m !! id = Some e -> set_entry id e m = m.
Proof. intros H. unfold set_entry. rewrite insert_id by done. by destruct m. Qed.

Lemma set_entry_twice id e e' m : set_entry id e (set_entry id e' m) = set_entry id e m.
Proof. unfold set_entry; simpl. by rewrite insert_insert_eq. Qed.

Lemma resetTimer_spec id u : exists calls u', resetTimer id u = (calls, u') /\ Timer u' = true /\
  Streams u' = Streams u /\ UniStreams u' = UniStreams u /\
  concat (delivered <$> calls) = [] /\ concat (rejected <$> calls) = [].
Proof. unfold resetTimer. destruct (Timer u) eqn:E; do 2 eexists; split_and!; done. Qed.

Lemma AddStream_effect w s id h : minv w ->
  ensures (AddStream s id h (mw_m w)) (fun '(calls, m') => add_effect (mw_m w) id (inl s, h) calls m').
Proof.
  intros [He Hr Hg _ _ _ _ _]. unfold AddStream, lookupEntry.
  destruct (sessions (mw_m w) !! id) as [e|] eqn:E.
  - destruct (He _ _ E) as [(u & -> & Ht)|(sess & -> & _)]; simpl.
    + destruct (resetTimer_spec id (mkUnestablished (Streams u ++ [mkStreamWithHeader s h]) (UniStreams u) (Timer u)))
        as (calls & u' & -> & Ht' & Hs & Hu & Hd & Hj). simpl.
      eapply (ae_buffered _ _ _ _ _ u'); try done.
      * unfold items, buffered. rewrite E, Hs, Hu. simpl. rewrite fmap_app. simpl. unfold items. solve_Permutation.
      * intros Hin. by rewrite Hg in E.
      * by rewrite E.
      * by rewrite set_entry_twice.
    + eapply ae_delivered; [done|by apply set_entry_id|done..].
  - case_decide as Hin; [by eapply ae_rejected|]. simpl. eapply (ae_buffered _ _ _ _ _ (mkUnestablished [mkStreamWithHeader s h] [] true)); try done.
    + unfold items, buffered. rewrite E. done.
    + by rewrite E.
    + by rewrite set_entry_twice.
Qed.

Lemma AddUniStream_effect w s id h : minv w ->
  ensures (AddUniStream s id h (mw_m w)) (fun '(calls, m') => add_effect (mw_m w) id (inr s, h) calls m').
Proof.
  intros [He Hr Hg _ _ _ _ _]. unfold AddUniStream, lookupEntry.
  destruct (sessions (mw_m w) !! id) as [e|] eqn:E.
  - destruct (He _ _ E) as [(u & -> & Ht)|(sess & -> & _)]; simpl.
    + destruct (resetTimer_spec id (mkUnestablished (Streams u) (UniStreams u ++ [mkStreamWithHeader s h]) (Timer u)))
        as (calls & u' & -> & Ht' & Hs & Hu & Hd & Hj). simpl.
      eapply (ae_buffered _ _ _ _ _ u'); try done.
      * unfold items, buffered. rewrite E, Hs, Hu. simpl. rewrite fmap_app. simpl. unfold items. solve_Permutation.
      * intros Hin. by rewrite Hg in E.
      * by rewrite E.
      * by rewrite set_entry_twice.
    + eapply ae_delivered; [done|by apply set_entry_id|done..].
  - case_decide as Hin; [by eapply ae_rejected|]. simpl. eapply (ae_buffered _ _ _ _ _ (mkUnestablished [] [mkStreamWithHeader s h] true)); try done.
    + unfold items, buffered. rewrite E. done.
    + by rewrite E.
    + by rewrite set_entry_twice.
Qed.

Lemma at_id_same {A} (f : Z -> list A) id l : at_id f id l id = f id ++ l.
Proof. unfold at_id. by rewrite decide_True. Qed.

Lemma at_id_other {A} (f : Z -> list A) id l id' : id' <> id -> at_id f id l id' = f id'.
Proof. intros. unfold at_id. by rewrite decide_False. Qed.

Lemma at_id_nil {A} (f : Z -> list A) id id' : at_id f id [] id' = f id'.
Proof. unfold at_id. case_decide as E; [|done]. by rewrite E, app_nil_r. Qed.

Lemma buffered_set id e m id' : buffered (set_entry id e m) id' =
  if decide (id' = id) then match Unestablished e with Some u => items u | None => [] end
  else buffered m id'.
Proof.
  unfold buffered, set_entry; simpl. case_decide as E.
  - rewrite E, lookup_insert_eq. by destruct e as [[]].
  - by rewrite lookup_insert_ne.
Qed.

Lemma entry_ok_ext w w' id e : entry_ok w id e -> mw_established w' !! id = mw_established w !! id ->
  (id ∈ mw_ended w' <-> id ∈ mw_ended w) -> entry_ok w' id e.
Proof.
  intros [?|(sess & -> & He & Hn)] E1 E2; [by left|right]. exists sess. rewrite E1, E2. done.
Qed.

Lemma minv_add w id it calls m' : minv w -> add_effect (mw_m w) id it calls m' ->
  minv (after w id [it] calls m').
Proof.
  intros [He Hr Hg Hen Hp Hc Hd Hdl] Hae. constructor; cbn.
  - assert (map_Forall (entry_ok w) (sessions m')) as H; [|exact H].
    destruct Hae as [? ? ->|? ? ->|u Ht Hi Hn Hs ->]; try done.
    apply map_Forall_insert_2; [|done]. left. eauto.
  - by destruct Hae as [? ? ->|? ? ->|u ? ? ? ? ->].
  - destruct Hae as [? ? ->|? ? ->|u Ht Hi Hn Hs ->]; try done. intros id' Hin. cbn.
    rewrite lookup_insert_ne; [by apply Hg|]. by intros ->.
  - done.
  - intros Hcl id' sess Hest Hne. specialize (Hp Hcl id' sess Hest Hne).
    destruct Hae as [? ? ->|? ? ->|u Ht Hi Hn Hs ->]; try done. cbn.
    rewrite lookup_insert_ne; [done|]. intros ->. by apply (Hs sess).
  - intros id'. specialize (Hc id'). unfold conserved in *; cbn.
    destruct (decide (id' = id)) as [->|Hne]; rewrite ?at_id_same, ?at_id_other by done.
    2: { destruct Hae as [? ? ->|? ? ->|u ? ? ? ? ->]; [done|done|].
         rewrite buffered_set, decide_False by done. done. }
    rewrite !fmap_app, Hc. destruct Hae as [? ? -> -> ->|sess ? -> -> ->|u Ht Hi Hn Hs -> -> ->]; simpl.
    + rewrite app_nil_r. solve_Permutation.
    + rewrite app_nil_r. solve_Permutation.
    + rewrite !app_nil_r, buffered_set, decide_True by done. simpl. rewrite Hi, fmap_app. simpl. solve_Permutation.
  - done.
  - intros id' sess i. destruct (decide (id' = id)) as [->|Hne]; rewrite ?at_id_same, ?at_id_other by done; [|apply Hdl].
    intros [Hin|Hin]%elem_of_app; [by eapply Hdl|].
    destruct Hae as [? ? ? E|sess' Hs ? E|u ? ? ? ? ? E]; rewrite E in Hin; try by apply elem_of_nil in Hin.
    apply list_elem_of_singleton in Hin. simplify_eq.
    destruct (He _ _ Hs) as [(u & ? & _)|(sess & ? & ? & _)]; simplify_eq. done.
Qed.

(** ** Lemmas: the other methods *)

Lemma rejectAll_rejected u : concat (rejected <$> rejectAll u) = (items u).*1.
Proof.
  unfold rejectAll, items. rewrite !fmap_app, concat_app. f_equal.
  - induction (Streams u) as [|s l IH]; [done|]. simpl. f_equal. exact IH.
  - induction (UniStreams u) as [|s l IH]; [done|]. simpl. f_equal. exact IH.
Qed.

Lemma rejectAll_delivered u : concat (delivered <$> rejectAll u) = [].
Proof.
  unfold rejectAll. rewrite !fmap_app, concat_app.
  assert (forall l : list (streamWithHeader Str), concat (delivered <$> concat ((fun s =>
    [MCancelRead (inl (swh_Stream s)) WTBufferedStreamRejectedErrorCode;
     MCancelWrite (swh_Stream s) WTBufferedStreamRejectedErrorCode]) <$> l)) = []) as ->.
  { induction l as [|s l IH]; [done|]. simpl. exact IH. }
  induction (UniStreams u) as [|s l IH]; [done|]. simpl. exact IH.
Qed.

Lemma handOver_delivered sess u : concat (delivered <$> handOver sess u) = (fun i => (sess, i)) <$> items u.
Proof.
  unfold handOver, items. rewrite !fmap_app, concat_app. f_equal.
  - induction (Streams u) as [|s l IH]; [done|]. simpl. f_equal. exact IH.
  - induction (UniStreams u) as [|s l IH]; [done|]. simpl. f_equal. exact IH.
Qed.

Lemma handOver_rejected sess u : concat (rejected <$> handOver sess u) = [].
Proof.
  unfold handOver. rewrite !fmap_app, concat_app.
  assert (forall l : list (streamWithHeader Str),
    concat (rejected <$> ((fun s => MAddIncoming sess (swh_Stream s) (HeaderLen s)) <$> l)) = []) as ->.
  { induction l as [|s l IH]; [done|]. simpl. exact IH. }
  induction (UniStreams u) as [|s l IH]; [done|]. simpl. exact IH.
Qed.

Lemma snd_tag {A B} (x : A) (l : list B) : ((fun i => (x, i)) <$> l).*2 = l.
Proof. induction l as [|y l IH]; [done|]. simpl. f_equal. exact IH. Qed.

Lemma buffered_delete id m r id' :
  buffered (mkSessionManager (delete id (sessions m)) r) id' =
  if decide (id' = id) then [] else buffered m id'.
Proof.
  unfold buffered; simpl. case_decide as E.
  - by rewrite E, lookup_delete_eq.
  - by rewrite lookup_delete_ne.
Qed.

Lemma buffered_established id m sess : sessions m !! id = Some (mkSessionEntry None (Some sess)) ->
  buffered m id = [].
Proof. unfold buffered. by intros ->. Qed.

Lemma onTimer_cases w id : minv w ->
  ensures (onTimer id (mw_m w)) (fun '(calls, m') =>
    calls = [] /\ m' = mw_m w \/
    exists u, sessions (mw_m w) !! id = Some (mkSessionEntry (Some u) None) /\ calls = rejectAll u /\
      m' = mkSessionManager (delete id (sessions (mw_m w))) (recentlyClosedSessions (mw_m w))).
Proof.
  intros [He _ _ _ _ _ _ _]. unfold onTimer.
  destruct (sessions (mw_m w) !! id) as [e|] eqn:E; [|simpl; by left].
  destruct (He _ _ E) as [(u & -> & _)|(sess & -> & _)]; simpl; [right; eauto|by left].
Qed.

Lemma after_nil w id : minv w -> minv (after w id [] [] (mw_m w)).
Proof.
  intros [He Hr Hg Hen Hp Hc Hd Hdl]. constructor; cbn; try done.
  - intros id'. unfold conserved; cbn. rewrite !at_id_nil. apply Hc.
  - intros id' sess i. rewrite at_id_nil. apply Hdl.
Qed.

Lemma minv_onTimer w id calls m' : minv w -> onTimer id (mw_m w) = Some (calls, m') ->
  minv (after w id [] calls m').
Proof.
  intros Hinv Eq. pose proof (ensures_Some _ _ _ (onTimer_cases w id Hinv) Eq) as Hcase. clear Eq.
  destruct Hcase as [[-> ->]|(u & Hu & -> & ->)]; [by apply after_nil|].
  destruct Hinv as [He Hr Hg Hen Hp Hc Hd Hdl]. constructor; cbn; try done.
  - assert (map_Forall (entry_ok w) (delete id (sessions (mw_m w)))) as H; [|exact H].
    by apply map_Forall_delete.
  - intros id' Hin. apply lookup_delete_None. auto.
  - intros Hcl id' sess Hest Hne. specialize (Hp Hcl id' sess Hest Hne).
    rewrite lookup_delete_ne; [done|]. intros ->. congruence.
  - intros id'. specialize (Hc id'). unfold conserved in *; cbn.
    rewrite at_id_nil, buffered_delete, rejectAll_delivered, rejectAll_rejected, at_id_nil.
    destruct (decide (id' = id)) as [->|Hne]; [|by rewrite at_id_other].
    rewrite at_id_same, Hc. unfold buffered. rewrite Hu. simpl. rewrite app_nil_r. solve_Permutation.
  - intros id' sess i. rewrite rejectAll_delivered, at_id_nil. apply Hdl.
Qed.

(** The two forms of the entry that [AddSession] finds. *)
Lemma AddSession_effect w id sess calls m' : minv w -> mw_established w !! id = None ->
  AddSession id sess (mw_m w) = (calls, m') ->
  m' = set_entry id (mkSessionEntry None (Some sess)) (mw_m w) /\
  concat (delivered <$> calls) = (fun i => (sess, i)) <$> buffered (mw_m w) id /\
  concat (rejected <$> calls) = [].
Proof.
  intros [He _ _ _ _ _ _ _] Hest. unfold AddSession. intros [= <- <-]. split; [done|].
  destruct (sessions (mw_m w) !! id) as [e|] eqn:E.
  - destruct (He _ _ E) as [(u & -> & Ht)|(s' & -> & ? & _)]; [|congruence].
    unfold buffered. rewrite E, Ht, !fmap_app, !concat_app, handOver_delivered, handOver_rejected.
    simpl. by rewrite !app_nil_r.
  - unfold buffered. by rewrite E.
Qed.

Lemma recent_established w id : minv w -> id ∈ recentlyClosedSessions (mw_m w) ->
  is_Some (mw_established w !! id).
Proof.
  intros [He Hr Hg [_ Hen] Hp Hc Hd Hdl] Hin. apply Hen. rewrite Hr in Hin.
  rewrite <- (take_drop (length (mw_ended w) - 16) (mw_ended w)). apply elem_of_app. by right.
Qed.

Lemma minv_AddSession w id sess calls m' : minv w -> mw_established w !! id = None ->
  AddSession id sess (mw_m w) = (calls, m') ->
  minv (let w := after w id [] calls m' in
    mkMWorld (mw_m w) (<[id := sess]> (mw_established w)) (mw_ended w) (mw_closed w)
      (mw_added w) (mw_delivered w) (mw_rejected w) (mw_dropped w)).
Proof.
  intros Hinv Hest Eq. pose proof (recent_established w id Hinv) as Hrec.
  destruct (AddSession_effect _ _ _ _ _ Hinv Hest Eq) as (-> & Ed & Er). clear Eq.
  destruct Hinv as [He Hr Hg [Hnd Hen] Hp Hc Hd Hdl].
  assert (id ∉ mw_ended w) as Hne by (intros Hin; destruct (Hen _ Hin); congruence).
  constructor; cbn; try done.
  - apply map_Forall_insert_2.
    + right. exists sess. cbn. rewrite lookup_insert_eq. done.
    + intros id' e Hl. destruct (He _ _ Hl) as [?|(s' & -> & Hs & ?)]; [by left|right].
      exists s'. cbn. rewrite lookup_insert_ne by congruence. done.
  - intros id' Hin. rewrite lookup_insert_ne; [by apply Hg|]. intros ->. destruct (Hrec Hin). congruence.
  - split; [done|]. intros id' Hin. destruct (decide (id = id')) as [->|?]; [by rewrite lookup_insert_eq|].
    rewrite lookup_insert_ne by done. auto.
  - intros Hcl id' s' [[<- <-]|[? ?]]%lookup_insert_Some Hn; [by rewrite lookup_insert_eq|].
    rewrite lookup_insert_ne by done. by apply Hp.
  - intros id'. specialize (Hc id'). unfold conserved in *; cbn.
    rewrite at_id_nil, Ed, Er, at_id_nil, buffered_set. simpl.
    destruct (decide (id' = id)) as [->|Hne']; [|by rewrite at_id_other].
    rewrite at_id_same, Hc, !fmap_app, snd_tag. simpl. rewrite app_nil_r. solve_Permutation.
  - intros id' s' i. destruct (decide (id' = id)) as [->|Hne']; rewrite ?at_id_same, ?at_id_other by done.
    + intros [Hin|Hin]%elem_of_app; [apply Hdl in Hin; congruence|]. rewrite Ed in Hin.
      apply list_elem_of_fmap in Hin as (? & [= -> ->] & _). apply lookup_insert_eq.
    + intros Hin. rewrite lookup_insert_ne by done. by eapply Hdl.
Qed.

Lemma minv_deleteSession w id : minv w -> is_Some (mw_established w !! id) -> id ∉ mw_ended w ->
  minv (mkMWorld (deleteSession id (mw_m w)) (mw_established w) (mw_ended w ++ [id]) (mw_closed w)
    (mw_added w) (mw_delivered w) (mw_rejected w) (at_id (mw_dropped w) id (buffered (mw_m w) id))).
Proof.
  intros [He Hr Hg [Hnd Hen] Hp Hc Hd Hdl] Hest Hne.
  assert (forall x, x ∈ recentlyClosedSessions (deleteSession id (mw_m w)) ->
    x = id \/ x ∈ recentlyClosedSessions (mw_m w)) as Hrec.
  { intros x. unfold deleteSession; simpl.
    destruct (decide (maxRecentlyClosedSessions < _)%nat); [|set_solver].
    destruct (recentlyClosedSessions (mw_m w)); set_solver. }
  constructor; cbn -[deleteSession].
  - intros id' e Hl. simpl in Hl. apply lookup_delete_Some in Hl as [Hne' Hl].
    eapply entry_ok_ext; [by apply He|done|]. simpl. set_solver.
  - unfold deleteSession; simpl. rewrite Hr. apply recent_push.
  - intros x [->|Hx]%Hrec; simpl; [apply lookup_delete_eq|]. apply lookup_delete_None. auto.
  - split.
    + apply NoDup_app. split_and!; [done|set_solver|apply NoDup_singleton].
    + intros x [?| ->%list_elem_of_singleton]%elem_of_app; auto.
  - intros Hcl id' sess Hs Hn. simpl. rewrite lookup_delete_ne by set_solver. apply Hp; set_solver.
  - intros id'. specialize (Hc id'). unfold conserved in *; cbn -[deleteSession].
    unfold deleteSession. rewrite buffered_delete. simpl.
    destruct (decide (id' = id)) as [->|Hne']; rewrite ?at_id_same, ?at_id_other by done; [|done].
    rewrite Hc, fmap_app. simpl. by rewrite app_nil_r.
  - intros Hcl id'. destruct (decide (id' = id)) as [->|Hne']; rewrite ?at_id_same, ?at_id_other by done; [|auto].
    rewrite (Hd Hcl). destruct Hest as [sess Hs].
    rewrite (buffered_established _ _ sess); [done|]. by apply Hp.
  - done.
Qed.

Lemma minv_Close w calls m' : minv w -> Close (mw_m w) = (calls, m') ->
  minv (mkMWorld m' (mw_established w) (mw_ended w) true (mw_added w) (mw_delivered w)
      (mw_rejected w) (fun id => mw_dropped w id ++ buffered (mw_m w) id)).
Proof.
  intros [He Hr Hg Hen Hp Hc Hd Hdl] [= _ <-]. constructor; cbn; try done.
  intros id'. specialize (Hc id'). unfold conserved in *; cbn.
  rewrite Hc, fmap_app. unfold buffered at 3. simpl. rewrite lookup_empty. simpl.
  by rewrite app_nil_r.
Qed.

Lemma minv_step w w' : minv w -> mstep w w' -> minv w'.
Proof.
  intros Hinv Hs. destruct Hs as
    [w s id h calls m Eq|w s id h calls m Eq|w id calls m Eq|w id sess calls m Hest Eq
    |w id Hest Hne|w calls m Eq].
  - apply minv_add; [done|]. exact (ensures_Some _ _ _ (AddStream_effect w s id h Hinv) Eq).
  - apply minv_add; [done|]. exact (ensures_Some _ _ _ (AddUniStream_effect w s id h Hinv) Eq).
  - by apply minv_onTimer.
  - by apply minv_AddSession.
  - by apply minv_deleteSession.
  - by eapply minv_Close.
Qed.

Lemma minv_reachable w : mreachable w -> minv w.
Proof.
  intros H. pose proof minv_new as H1. revert H1. induction H; eauto using minv_step.
Qed.

(** ** Theorems *)

(** C11: no stream is lost or delivered twice. For every session ID, the
    streams that were added are exactly those that were handed to a session,
    those that were rejected, those that are buffered, and those that were
    forgotten because the connection was closed; a stream is only handed to the
    session that was established under its ID. *)
Theorem streams_conserved (w : mworld) (id : Z) : mreachable w ->
  (mw_added w id).*1 ≡ₚ (mw_delivered w id).*2.*1 ++ mw_rejected w id ++
    (mw_dropped w id).*1 ++ (buffered (mw_m w) id).*1 /\
  (mw_closed w = false -> mw_dropped w id = []) /\
  (forall sess i, (sess, i) ∈ mw_delivered w id -> mw_established w !! id = Some sess).
Proof.
  intros Hr. destruct (minv_reachable _ Hr) as [_ _ _ _ _ Hc Hd Hdl].
  split_and!; [apply Hc|auto|apply Hdl].
Qed.

(** C32: the entries are well-formed and the methods never panic. In every
    reachable state exactly one of the two pointers of an entry is not nil
    (as the comment of [sessionEntry] claims), buffered streams have a timer
    that will reject them, a session that was added and has not ended is found
    under its ID until the connection closes, and at most 16 IDs of closed
    sessions are remembered: the last ones. *)
Theorem session_manager_wf (w : mworld) : mreachable w ->
  (forall id e, sessions (mw_m w) !! id = Some e ->
     (exists u, e = mkSessionEntry (Some u) None /\ Timer u = true) \/
     (exists sess, e = mkSessionEntry None (Some sess) /\ mw_established w !! id = Some sess)) /\
  (mw_closed w = false -> forall id sess, mw_established w !! id = Some sess -> id ∉ mw_ended w ->
     sessions (mw_m w) !! id = Some (mkSessionEntry None (Some sess))) /\
  recentlyClosedSessions (mw_m w) = drop (length (mw_ended w) - 16) (mw_ended w) /\
  (forall s id h, AddStream s id h (mw_m w) <> None) /\
  (forall s id h, AddUniStream s id h (mw_m w) <> None) /\
  (forall id, onTimer id (mw_m w) <> None).
Proof.
  intros Hr. pose proof (minv_reachable _ Hr) as Hinv. pose proof Hinv as [He Hrec _ _ Hp _ _ _].
  split_and!; [|done|done|..].
  - intros id e H. destruct (He _ _ H) as [?|(sess & ? & ? & _)]; eauto.
  - intros s id h. eapply ensures_None, AddStream_effect. done.
  - intros s id h. eapply ensures_None, AddUniStream_effect. done.
  - intros id. eapply ensures_None, onTimer_cases. done.
Qed.

(** Late streams are rejected, not buffered. A stream for one of the last
    16 sessions that ended is reset at once with
    [WTBufferedStreamRejectedErrorCode], in both directions, and changes
    nothing. *)
Theorem late_streams_rejected (w : mworld) (id : Z) (s : Str) (h : Z) : mreachable w ->
  id ∈ drop (length (mw_ended w) - 16) (mw_ended w) ->
  AddStream s id h (mw_m w) =
    Some ([MCancelRead (inl s) WTBufferedStreamRejectedErrorCode;
           MCancelWrite s WTBufferedStreamRejectedErrorCode], mw_m w).
Proof.
  intros Hr Hin. destruct (minv_reachable _ Hr) as [_ Hrec Hg _ _ _ _ _]. rewrite <- Hrec in Hin.
  unfold AddStream, lookupEntry. by rewrite (Hg _ Hin), decide_True.
Qed.

End manager.

Arguments mworld : clear implicits.

(** ** Witnesses *)

(** A stream for session 0 arrives and is buffered, the session is established,
    another stream arrives, and the session ends. *)
Definition exampleBuffered : mworld nat nat nat :=
  match AddStream 1%nat 0 3 (mw_m newMWorld) with
  | Some (calls, m) => after newMWorld 0 [(inl 1%nat, 3)] calls m
  | None => newMWorld
  end.

Definition exampleEstablished : mworld nat nat nat :=
  let '(calls, m) := AddSession 0 7%nat (mw_m exampleBuffered) in
  let w := after exampleBuffered 0 [] calls m in
  mkMWorld (mw_m w) (<[0 := 7%nat]> (mw_established w)) (mw_ended w) (mw_closed w)
    (mw_added w) (mw_delivered w) (mw_rejected w) (mw_dropped w).

Definition exampleEnded : mworld nat nat nat :=
  let w := exampleEstablished in
  mkMWorld (deleteSession 0 (mw_m w)) (mw_established w) (mw_ended w ++ [0]) (mw_closed w)
    (mw_added w) (mw_delivered w) (mw_rejected w) (at_id (mw_dropped w) 0 (buffered (mw_m w) 0)).

Lemma exampleEstablished_reachable : mreachable exampleEstablished.
Proof.
  eapply rtc_l; [apply (mstep_AddStream newMWorld 1%nat 0 3); vm_compute; reflexivity|].
  eapply rtc_l; [apply (mstep_AddSession _ 0 7%nat); vm_compute; reflexivity|].
  match goal with |- rtc _ ?a ?b => replace a with b by (vm_compute; reflexivity) end.
  apply rtc_refl.
Qed.

Lemma exampleEnded_reachable : mreachable exampleEnded.
Proof.
  eapply rtc_r; [exact exampleEstablished_reachable|].
  apply (mstep_deleteSession exampleEstablished 0).
  - by exists 7%nat.
  - vm_compute. by intros ?%elem_of_nil.
Qed.

Lemma streams_conserved_witness :
  mw_delivered exampleEstablished 0 = [(7%nat, (inl 1%nat, 3))] /\
  mw_dropped exampleEstablished 0 = [].
Proof.
  split; [vm_compute; reflexivity|].
  apply (streams_conserved exampleEstablished 0); [exact exampleEstablished_reachable|reflexivity].
Defined.

Lemma session_manager_wf_witness :
  sessions (mw_m exampleEstablished) !! 0 = Some (mkSessionEntry None (Some 7%nat)).
Proof.
  apply (session_manager_wf exampleEstablished).
  - exact exampleEstablished_reachable.
  - reflexivity.
  - vm_compute; reflexivity.
  - vm_compute. by intros ?%elem_of_nil.
Defined.

Lemma late_streams_rejected_witness :
  AddStream 2%nat 0 3 (mw_m exampleEnded) =
    Some ([MCancelRead (inl 2%nat) WTBufferedStreamRejectedErrorCode;
           MCancelWrite 2%nat WTBufferedStreamRejectedErrorCode], mw_m exampleEnded).
Proof.
  apply (late_streams_rejected exampleEnded 0 2%nat 3).
  - exact exampleEnded_reachable.
  - vm_compute. left.
Defined.
