(* ===== verification/Connection.v ===== *)
(** * A QUIC connection: from bytes to sessions ([server.go], [client_conn.go])

    The goroutines that [ServeQUICConn] and [NewClientConn] start for every
    stream that the peer opens, together with the session manager of the
    connection. A stream is a number, with its whole content: the bytes that
    the peer sends, after which reading fails. *)

From S2P Require Import Prelude Errors Quicvarint Protocol SessionManager.

(** ** State *)

Abbreviation managers := (@mworld nat nat nat).

(** What has been decided about a stream. *)
Record arrival := mkArrival {
  ar_stream : nat;
  ar_dir : direction;
  ar_content : gostring;
  ar_dispatch : dispatch;
}.

Record connection := mkConnection {
  k_manager : managers;
  k_log : list arrival;
}.

Definition newConnection : connection := mkConnection newMWorld [].

Section connection.
Context `{V : !Quicvarint}.
(** The endpoint that accepts the streams. *)
Context (e : endpoint).

Definition item_of (d : direction) (x : nat) : nat + nat :=
  match d with Bidi => inl x | Uni => inr x end.

(** [sessMgr.AddStream] or [sessMgr.AddUniStream] *)
Definition addStream (d : direction) (x : nat) (id headerLen : Z) (m : @sessionManager nat nat nat) :=
  match d with
  | Bidi => AddStream x id headerLen m
  | Uni => AddUniStream x id headerLen m
  end.

(** The goroutine of one stream. [None]: panic. *)
Definition accept (d : direction) (x : nat) (b : gostring) (k : connection) : option connection :=
  let r := (dispatchStream e d bytesReader b).1 in
  let log := k_log k ++ [mkArrival x d b r] in
  match r with
  | ToSession id headerLen =>
      '(calls, m) ← addStream d x id headerLen (mw_m (k_manager k));
      Some (mkConnection (after (k_manager k) id [(item_of d x, headerLen)] calls m) log)
  | _ => Some (mkConnection (k_manager k) log)
  end.

(** The IDs that [isValidSessionID] accepts; those of CONNECT streams are. *)
Definition validID (id : Z) : Prop := 0 <= id <= Max /\ id mod 4 = 0.

(** Timers, ends of sessions, and the end of the connection. *)
Inductive background : managers -> managers -> Prop :=
| bg_onTimer w id calls m : onTimer id (mw_m w) = Some (calls, m) -> background w (after w id [] calls m)
| bg_deleteSession w id : is_Some (mw_established w !! id) -> id ∉ mw_ended w ->
    background w (mkMWorld (deleteSession id (mw_m w)) (mw_established w) (mw_ended w ++ [id]) (mw_closed w)
      (mw_added w) (mw_delivered w) (mw_rejected w) (at_id (mw_dropped w) id (buffered (mw_m w) id)))
| bg_Close w calls m : Close (mw_m w) = (calls, m) ->
    background w (mkMWorld m (mw_established w) (mw_ended w) true (mw_added w) (mw_delivered w)
      (mw_rejected w) (fun id => mw_dropped w id ++ buffered (mw_m w) id)).

Inductive kstep (k : connection) : connection -> Prop :=
| kstep_accept d x b k' : accept d x b k = Some k' -> kstep k k'
| kstep_AddSession id sess calls m :
    validID id -> mw_established (k_manager k) !! id = None ->
    AddSession id sess (mw_m (k_manager k)) = (calls, m) ->
    kstep k (mkConnection
      (let w := after (k_manager k) id [] calls m in
       mkMWorld (mw_m w) (<[id := sess]> (mw_established w)) (mw_ended w) (mw_closed w)
         (mw_added w) (mw_delivered w) (mw_rejected w) (mw_dropped w)) (k_log k))
| kstep_background w : background (k_manager k) w -> kstep k (mkConnection w (k_log k)).

Definition kreachable (k : connection) : Prop := rtc kstep newConnection k.

(** The streams whose header names session [id], with the length of the header. *)
Definition named (id : Z) (log : list arrival) : list (nat + nat) :=
  omap (fun a =>
    match (dispatchStream e (ar_dir a) bytesReader (ar_content a)).1 with
    | ToSession id' _ => if decide (id' = id) then Some (item_of (ar_dir a) (ar_stream a)) else None
    | _ => None
    end) log.

(** ** The invariant *)

Record kinv (k : connection) : Prop := mkKInv {
  ki_manager : mreachable (k_manager k);
  ki_added id : (mw_added (k_manager k) id).*1 = named id (k_log k);
  ki_valid id entry : sessions (mw_m (k_manager k)) !! id = Some entry -> validID id;
}.

Lemma named_app id l1 l2 : named id (l1 ++ l2) = named id l1 ++ named id l2.
Proof. apply omap_app. Qed.

(** The entries of the manager after a stream was added. *)
Lemma addStream_sessions d x id h m calls m' i entry : addStream d x id h m = Some (calls, m') ->
  sessions m' !! i = Some entry -> i = id \/ is_Some (sessions m !! i).
Proof.
  intros He Hi. destruct (decide (i = id)) as [|Hne]; [by left|]. right. exists entry.
  rewrite <- Hi. symmetry. destruct d; simpl in He; unfold AddStream, AddUniStream, resetTimer, set_entry in He;
    repeat (case_match; simplify_option_eq); by rewrite ?lookup_insert_ne.
Qed.

Lemma background_frame w w' : background w w' ->
  mstep w w' /\ (forall id, mw_added w' id = mw_added w id) /\
  forall id, sessions (mw_m w') !! id = None \/ sessions (mw_m w') !! id = sessions (mw_m w) !! id.
Proof.
  intros [w0 id calls m He|w0 id H1 H2|w0 calls m He].
  - split_and!; [by constructor| |].
    + intros id'. simpl. unfold at_id. case_decide; [by subst; rewrite app_nil_r|done].
    + intros id'. simpl. unfold onTimer in He. repeat (case_match; simplify_option_eq); auto.
      destruct (decide (id' = id)) as [->|]; [left; apply lookup_delete_eq|right; by apply lookup_delete_ne].
  - split_and!; [by constructor|done|]. intros id'. simpl.
    destruct (decide (id' = id)) as [->|]; [left; apply lookup_delete_eq|right; by apply lookup_delete_ne].
  - split_and!; [by econstructor|done|]. intros id'. simpl. injection He as _ <-. left. apply lookup_empty.
Qed.

Lemma accept_ToSession d x b k id h : (dispatchStream e d bytesReader b).1 = ToSession id h ->
  accept d x b k =
  '(calls, m) ← addStream d x id h (mw_m (k_manager k));
  Some (mkConnection (after (k_manager k) id [(item_of d x, h)] calls m)
          (k_log k ++ [mkArrival x d b (ToSession id h)])).
Proof. unfold accept. by intros ->. Qed.

Context `{L : !QuicvarintLaws V}.

Lemma kinv_accept d x b k k' : kinv k -> accept d x b k = Some k' -> kinv k'.
Proof.
  intros [Hm Ha Hv] He. destruct (dispatchStream e d bytesReader b) as [r s'] eqn:E.
  assert ((forall id h, r <> ToSession id h) -> k' = mkConnection (k_manager k) (k_log k ++ [mkArrival x d b r]))
    as Hother.
  { intros Hr. unfold accept in He. rewrite E in He. simpl in He. destruct r; simplify_eq; try done. by edestruct Hr. }
  assert (forall id, named id [mkArrival x d b r] =
    match r with ToSession id' _ => if decide (id' = id) then [item_of d x] else [] | _ => [] end) as Hnamed.
  { intros id. unfold named. simpl. rewrite E. simpl. destruct r; try done. by case_decide. }
  destruct r as [| | |code|sid h];
    try (rewrite (Hother ltac:(done)); constructor; simpl; [done| |done]; intros id;
         by rewrite named_app, Hnamed, app_nil_r).
  rewrite (accept_ToSession d x b k sid h) in He by by rewrite E.
  destruct (addStream d x sid h _) as [[calls m]|] eqn:Eadd; [|done]. injection He as <-.
  apply dispatched_sound in E as (Hmod & Hrange & _). constructor; simpl.
  - eapply rtc_r; [exact Hm|]. destruct d; by constructor.
  - intros id. rewrite named_app, Hnamed, <- Ha. unfold at_id.
    destruct (decide (id = sid)) as [->|Hne]; [rewrite decide_True by done; by rewrite fmap_app|].
    rewrite decide_False by congruence. by rewrite app_nil_r.
  - intros id entry Hid. destruct (addStream_sessions _ _ _ _ _ _ _ _ _ Eadd Hid) as [->|[entry' ?]]; [done|].
    by eapply Hv.
Qed.

Lemma kinv_step k k' : kinv k -> kstep k k' -> kinv k'.
Proof.
  intros Hinv [d x b k1 He|id sess calls m Hid Hnew He|w Hbg]; [by eapply kinv_accept|..];
    destruct Hinv as [Hm Ha Hv].
  - constructor; simpl.
    + eapply rtc_r; [exact Hm|]. by apply mstep_AddSession.
    + intros id'. rewrite <- Ha. unfold at_id. case_decide; [by subst; rewrite app_nil_r|done].
    + intros id' entry. injection He as _ <-. simpl. intros [[<- _]|[_ ?]]%lookup_insert_Some; [done|by eapply Hv].
  - apply background_frame in Hbg as (Hs & Hadd & Hses). constructor; simpl.
    + by eapply rtc_r.
    + intros id. by rewrite Hadd.
    + intros id entry Hid. destruct (Hses id) as [E|E]; rewrite E in Hid; [done|by eapply Hv].
Qed.

Lemma kinv_reachable k : kreachable k -> kinv k.
Proof.
  intros H. assert (kinv newConnection) as Hs.
  { constructor; [apply rtc_refl|done|]. intros id entry. simpl. by rewrite lookup_empty. }
  revert Hs. induction H; eauto using kinv_step.
Qed.

(** A stream that is added finds a well-formed manager. *)
Lemma accept_total d x b k : kreachable k -> is_Some (accept d x b k).
Proof.
  intros [Hm _ _]%kinv_reachable. apply minv_reachable in Hm. pose proof (mi_entries _ Hm) as He.
  unfold accept. destruct (dispatchStream e d bytesReader b).1 as [| | |code|sid h]; eauto.
  assert (addStream d x sid h (mw_m (k_manager k)) <> None) as Hne.
  { destruct d; simpl; [eapply ensures_None, AddStream_effect|eapply ensures_None, AddUniStream_effect]; done. }
  destruct (addStream _ _ _ _ _) as [[calls m]|]; [|done]. simpl. eauto.
Qed.

End connection.

(** ** Theorem *)

(** C12: from bytes to sessions. On a QUIC connection, whatever streams the peer
    opens, in any order with the establishment and the end of sessions, timers and
    the end of the connection: the streams whose header names session [id] are, each
    exactly once, delivered, rejected, dropped at the end of the connection, or still
    buffered for that session, and no others are; a delivered stream goes to the
    session that was established with this ID. Only valid session IDs ever have an
    entry, whatever the headers say, and no content of a stream makes the goroutine
    that reads its header panic. *)
Theorem connection_delivers `{V : !Quicvarint} `{L : !QuicvarintLaws V} (e : endpoint) (k : connection) (id : Z) :
  kreachable e k ->
  let w := k_manager k in
  named e id (k_log k) ≡ₚ
    (mw_delivered w id).*2.*1 ++ mw_rejected w id ++ (mw_dropped w id).*1 ++ (buffered (mw_m w) id).*1 /\
  (forall sess it, (sess, it) ∈ mw_delivered w id -> mw_established w !! id = Some sess) /\
  (forall entry, sessions (mw_m w) !! id = Some entry -> 0 <= id <= Max /\ id mod 4 = 0) /\
  (forall d x b, is_Some (accept e d x b k)).
Proof.
  intros Hk w. pose proof (kinv_reachable e k Hk) as [Hm Ha Hv]. apply minv_reachable in Hm. split_and!.
  - rewrite <- Ha. apply (mi_conserved _ Hm).
  - intros sess it. apply (mi_delivered _ Hm).
  - intros entry. apply Hv.
  - intros d x b. by apply accept_total.
Qed.

Import (hints) Rfc9000.

(** Stream 1 arrives before session 4 is established, stream 2 is not for
    WebTransport, and stream 3 names a session ID that cannot exist. *)
Definition exampleConnection : connection :=
  default newConnection (
    k ← accept Protocol.Server Bidi 1 [x40; x41; x04; x68; x69] newConnection;
    k ← accept Protocol.Server Bidi 2 [x01; x00] k;
    accept Protocol.Server Uni 3 [x40; x54; x05] k).

Lemma exampleConnection_reachable : kreachable Protocol.Server exampleConnection.
Proof.
  eapply rtc_l; [eapply (kstep_accept _ _ Bidi 1 [x40; x41; x04; x68; x69]); reflexivity|].
  eapply rtc_l; [eapply (kstep_accept _ _ Bidi 2 [x01; x00]); reflexivity|].
  eapply rtc_l; [eapply (kstep_accept _ _ Uni 3 [x40; x54; x05]); reflexivity|]. apply rtc_refl.
Qed.

Lemma connection_delivers_witness :
  ar_dispatch <$> k_log exampleConnection = [ToSession 4 3; ToHTTP3; ConnClosed http3.ErrCodeIDError] /\
  [inl 1%nat] ≡ₚ (buffered (mw_m (k_manager exampleConnection)) 4).*1.
Proof.
  split; [reflexivity|].
  exact (proj1 (connection_delivers Protocol.Server exampleConnection 4 exampleConnection_reachable)).
Defined.
