(* ===== verification/Session.v ===== *)
(** * Sessions ([session.go])

    A session owns the CONNECT stream, four maps of streams and the two data
    flow controllers. Here its methods are functions on the whole state, run
    without interruption; [SessionLoops] interleaves those that share the
    capsule queue. Only the types of the streams are abstract.

    [Panic] stands for a Go panic, [Deadlock] for locking a mutex that the same
    goroutine holds. *)

From S2P Require Import Prelude Errors Quicvarint Protocol Config FlowControl Capsule.
From S2P Require Import SendStream.
From S2P Require OutgoingStreams IncomingStreams.

Inductive outcome (A : Type) : Type :=
| Returns (a : A)
| Deadlock
| Panic.
Arguments Returns {A} a.
Arguments Deadlock {A}.
Arguments Panic {A}.

#[export] Instance outcome_bind : MBind outcome := fun A B f m =>
  match m with Returns a => f a | Deadlock => Deadlock | Panic => Panic end.

Definition or_panic {A} (m : option A) : outcome A :=
  match m with Some a => Returns a | None => Panic end.

Section session.
Context `{ET : !ErrorText}.
(** Bidirectional, send and receive streams. *)
Context {B U R : Type}.

(** ** State *)

Record Session := mkSession {
  applicationProtocol : gostring;
  flowControlEnabled : bool;
  (** [s.ctx] is done *)
  ctxDone : bool;
  ses_closeErr : option error;
  capsuleQueue : list capsule;
  pendingCloseCapsule : option (Z * gostring);
  (** the channel holds a value *)
  capsuleQueueUpdated : bool;
  incomingStreams : IncomingStreams.incomingStreamsMap B;
  incomingUniStreams : IncomingStreams.incomingStreamsMap R;
  outgoingStreams : OutgoingStreams.outgoingStreamsMap B;
  outgoingUniStreams : OutgoingStreams.outgoingStreamsMap U;
  incomingDataFC : option incomingDataFlowController;
  outgoingDataFC : option outgoingDataFlowController;
}.

Definition maxQueuedOutgoingCapsules : nat := 4096.

(** The calls on the CONNECT stream. *)
Inductive strCall : Type :=
| StrWrite (b : gostring)
| StrTryWriteAll (b : gostring)
| StrCancelRead (code : Z)
| StrCancelWrite (code : Z)
| StrSetWriteDeadline
| StrClose.

Definition newSession (protocol : gostring) (fc : sessionFlowControl) : Session :=
  let on := Enabled fc in
  let limit (l : Z) := if on then l else maxStreamsLimit in
  mkSession protocol on false None [] None false
    (IncomingStreams.newIncomingStreamsMap (limit (MaxIncomingStreams fc)))
    (IncomingStreams.newIncomingStreamsMap (limit (MaxIncomingUniStreams fc)))
    (OutgoingStreams.newOutgoingStreamsMap (limit (MaxOutgoingStreams fc)))
    (OutgoingStreams.newOutgoingStreamsMap (limit (MaxOutgoingUniStreams fc)))
    (if on then Some (newIncomingDataFlowController 0 (MaxIncomingData fc)) else None)
    (if on then Some (newOutgoingDataFlowController (MaxOutgoingData fc)) else None).

Definition set_queue (q : list capsule) (pending : option (Z * gostring)) (updated : bool) (s : Session) : Session :=
  mkSession (applicationProtocol s) (flowControlEnabled s) (ctxDone s) (ses_closeErr s) q pending updated
    (incomingStreams s) (incomingUniStreams s) (outgoingStreams s) (outgoingUniStreams s)
    (incomingDataFC s) (outgoingDataFC s).

Definition set_outgoing (m : OutgoingStreams.outgoingStreamsMap B) (s : Session) : Session :=
  mkSession (applicationProtocol s) (flowControlEnabled s) (ctxDone s) (ses_closeErr s) (capsuleQueue s)
    (pendingCloseCapsule s) (capsuleQueueUpdated s) (incomingStreams s) (incomingUniStreams s) m
    (outgoingUniStreams s) (incomingDataFC s) (outgoingDataFC s).

Definition set_outgoingUni (m : OutgoingStreams.outgoingStreamsMap U) (s : Session) : Session :=
  mkSession (applicationProtocol s) (flowControlEnabled s) (ctxDone s) (ses_closeErr s) (capsuleQueue s)
    (pendingCloseCapsule s) (capsuleQueueUpdated s) (incomingStreams s) (incomingUniStreams s)
    (outgoingStreams s) m (incomingDataFC s) (outgoingDataFC s).

Definition set_outgoingFC (fc : outgoingDataFlowController) (s : Session) : Session :=
  mkSession (applicationProtocol s) (flowControlEnabled s) (ctxDone s) (ses_closeErr s) (capsuleQueue s)
    (pendingCloseCapsule s) (capsuleQueueUpdated s) (incomingStreams s) (incomingUniStreams s)
    (outgoingStreams s) (outgoingUniStreams s) (incomingDataFC s) (Some fc).

(** ** Closing *)

(** What [closeWithError] does to the streams of the four maps. *)
Record closedStreams := mkClosedStreams {
  cs_outgoing : list B;
  cs_outgoingUni : list U;
  cs_incoming : list B;
  cs_incomingUni : list R;
}.

(** The code with which the CONNECT stream is reset. *)
Definition closeCode (closeErr : error) : Z :=
  match as_http3_Error closeErr with
  | Some (code, _) => code
  | None =>
      match as_quic_StreamError closeErr with
      | Some (code, _) => code
      | None => WTSessionGoneErrorCode
      end
  end.

(** The result is [false] when the session is already closed. *)
Definition closeWithError (closeErr : error) (cap : option (Z * gostring)) (s : Session)
  : option (bool * closedStreams * list strCall * Session) :=
  match ses_closeErr s with
  | Some _ => Some (false, mkClosedStreams [] [] [] [], [], s)
  | None =>
      '(o, outgoing) ← OutgoingStreams.CloseSession closeErr (outgoingStreams s);
      '(ou, outgoingUni) ← OutgoingStreams.CloseSession closeErr (outgoingUniStreams s);
      let '(i, incoming) := IncomingStreams.CloseSession closeErr (incomingStreams s) in
      let '(iu, incomingUni) := IncomingStreams.CloseSession closeErr (incomingUniStreams s) in
      let calls := match cap with
                   | Some _ => [StrSetWriteDeadline]
                   | None => [StrCancelRead (closeCode closeErr); StrCancelWrite (closeCode closeErr)]
                   end in
      Some (true, mkClosedStreams o ou i iu, calls,
        mkSession (applicationProtocol s) (flowControlEnabled s) (ctxDone s) (Some closeErr) [] cap
          (match cap with Some _ => true | None => capsuleQueueUpdated s end)
          incoming incomingUni outgoing outgoingUni (incomingDataFC s) (outgoingDataFC s))
  end.

Definition flowControlError (err : error) : error := ErrHTTP3 WTFlowControlErrorCode (Error err).

Definition closeWithFlowControlError (err : error) (s : Session) :=
  closeWithError (flowControlError err) None s.

(** [CloseWithError] before it waits for the context of the session. *)
Definition CloseWithError (code : Z) (msg : gostring) (s : Session) :=
  closeWithError (ErrSession (mkSessionError false code msg)) (Some (code, msg)) s.

(** [err] is the result of [TryWriteAll]. *)
Definition closeSessionStream `{!Quicvarint} (err : option error) (code : Z) (msg : gostring) : list strCall :=
  [StrTryWriteAll (closeSessionCapsule_Append code msg [])] ++
  (match err with Some _ => [StrCancelWrite WTSessionGoneErrorCode] | None => [] end) ++
  [StrCancelRead WTSessionGoneErrorCode; StrClose].

(** ** The capsule queue *)

(** [holdsCloseMx]: the calling goroutine holds [closeMx]. *)
Definition queueCapsule (holdsCloseMx : bool) (c : capsule) (s : Session) : outcome Session :=
  if ctxDone s then Returns s
  else if decide (maxQueuedOutgoingCapsules <= length (capsuleQueue s))%nat then
    if holdsCloseMx then Deadlock
    else
      '(_, _, _, s) ← or_panic (closeWithError (ErrHTTP3 http3.ErrCodeExcessiveLoad
                                 (str "webtransport: outgoing capsule queue full")) None s);
      Returns s
  else Returns (set_queue (capsuleQueue s ++ [c]) (pendingCloseCapsule s) true s).

(** ** Opening streams

    [qstr] is what the QUIC connection returns. The methods hold [closeMx] from
    beginning to end. *)

Definition OpenStream (qstr : result error (B * Z)) (s : Session) : outcome (result error B * Session) :=
  match ses_closeErr s with
  | Some err => Returns (Err err, s)
  | None =>
      '(r, blocked, m) ← or_panic (OutgoingStreams.OpenStream qstr (outgoingStreams s));
      let s := set_outgoing m s in
      s ← match blocked with
          | Some limit => queueCapsule true (streamsBlockedBidiCapsule limit) s
          | None => Returns s
          end;
      Returns (r, s)
  end.

Definition OpenUniStream (qstr : result error (U * Z)) (s : Session) : outcome (result error U * Session) :=
  match ses_closeErr s with
  | Some err => Returns (Err err, s)
  | None =>
      '(r, blocked, m) ← or_panic (OutgoingStreams.OpenStream qstr (outgoingUniStreams s));
      let s := set_outgoingUni m s in
      s ← match blocked with
          | Some limit => queueCapsule true (streamsBlockedUniCapsule limit) s
          | None => Returns s
          end;
      Returns (r, s)
  end.

(** ** Reading from the CONNECT stream *)

(** The [switch] of [readFromConnectStream]: the error with which the session
    is closed, if it is. *)
Definition handleCapsule (c : capsule) (s : Session) : option (option error * Session) :=
  match c with
  | closeSessionCapsule code msg => Some (Some (ErrSession (ToSessionError code msg)), s)
  | maxDataCapsule v =>
      match outgoingDataFC s with
      | None => Some (None, s)
      | Some fc =>
          let '(err, fc) := UpdateMaxData fc (i64 v) in
          Some (option_map flowControlError err, set_outgoingFC fc s)
      end
  | maxStreamsBidiCapsule v =>
      if negb (flowControlEnabled s) then Some (None, s)
      else
        '(err, m) ← OutgoingStreams.UpdateStreamLimit v (outgoingStreams s);
        Some (option_map flowControlError err, set_outgoing m s)
  | maxStreamsUniCapsule v =>
      if negb (flowControlEnabled s) then Some (None, s)
      else
        '(err, m) ← OutgoingStreams.UpdateStreamLimit v (outgoingUniStreams s);
        Some (option_map flowControlError err, set_outgoingUni m s)
  | streamsBlockedBidiCapsule _ | streamsBlockedUniCapsule _ | dataBlockedCapsule _ => Some (None, s)
  end.

(** The loop: the error with which the session is closed, and the state before
    that. [None] when the fuel [n] for the loop or [fuel] for the parser runs
    out, or on a panic. *)
Fixpoint readFromConnectStream `{!Quicvarint} `{!GoRuntime} {P} `{!CapsuleParser P}
    (n fuel : nat) (p : P) (s : Session) : option (error * Session) :=
  match n with
  | O => None
  | S n =>
      '(r, p) ← parseNextCapsule fuel p;
      match r with
      | Err err => Some (ErrHTTP3 http3.ErrCodeDatagramError (Error err), s)
      | Ok c =>
          '(close, s) ← handleCapsule c s;
          match close with
          | Some err => Some (err, s)
          | None => readFromConnectStream n fuel p s
          end
      end
  end.

(** ** Specification of reading: the capsules applied in order *)

Fixpoint applyCapsules (l : list capsule) (s : Session) : option (option error * Session) :=
  match l with
  | [] => Some (None, s)
  | c :: l =>
      '(close, s) ← handleCapsule c s;
      match close with
      | Some err => Some (Some err, s)
      | None => applyCapsules l s
      end
  end.

(** ** Lemmas *)

Lemma closeChans_fields {T} q (m m' : OutgoingStreams.outgoingStreamsMap T) :
  foldr (fun c o => o ≫= OutgoingStreams.closeChan c) (Some m) q = Some m' ->
  exists c, m' = OutgoingStreams.set_chanClosed c m.
Proof.
  revert m'. induction q as [|c q IH]; simpl; intros m' Hf.
  - simplify_eq. exists (OutgoingStreams.o_chanClosed m'). by destruct m'.
  - destruct (foldr _ _ q) as [m1|] eqn:Eq; [|done]. destruct (IH m1 eq_refl) as [c1 ->].
    simpl in Hf. unfold OutgoingStreams.closeChan in Hf. case_decide; simplify_eq. eauto.
Qed.

Lemma OutgoingCloseSession_spec {T} err (m : OutgoingStreams.outgoingStreamsMap T) l m' :
  OutgoingStreams.CloseSession err m = Some (l, m') ->
  match OutgoingStreams.o_closeErr m with
  | Some _ => l = [] /\ m' = m
  | None => l = (map_to_list (default ∅ (OutgoingStreams.o_m m))).*2 /\
      OutgoingStreams.o_closeErr m' = Some err /\
      OutgoingStreams.o_openQueue m' = [] /\ OutgoingStreams.o_m m' = None /\
      OutgoingStreams.o_maxStreams m' = OutgoingStreams.o_maxStreams m
  end.
Proof.
  unfold OutgoingStreams.CloseSession. destruct (OutgoingStreams.o_closeErr m) eqn:E.
  - by intros [= <- <-].
  - intros He. simplify_option_eq.
    match goal with H : foldr _ _ _ = Some _ |- _ => apply closeChans_fields in H as [c ->] end.
    done.
Qed.

Lemma IncomingCloseSession_spec {T} err (m : IncomingStreams.incomingStreamsMap T) l m' :
  IncomingStreams.CloseSession err m = (l, m') ->
  match IncomingStreams.i_closeErr m with
  | Some _ => l = [] /\ m' = m
  | None => l = (map_to_list (default ∅ (IncomingStreams.i_m m))).*2 /\
      IncomingStreams.i_closeErr m' = Some err /\ IncomingStreams.i_m m' = None
  end.
Proof.
  unfold IncomingStreams.CloseSession. by destruct (IncomingStreams.i_closeErr m); intros [= <- <-].
Qed.

(** ** Reading, against the specification *)

(** The error with which the loop closes the session. *)
Definition readResult (r : option error) (err : error) : Prop :=
  match r with
  | Some e => err = e
  | None => exists text, err = ErrHTTP3 http3.ErrCodeDatagramError text
  end.

Lemma read_loop `{!Quicvarint} `{!QuicvarintLaws _} `{!GoRuntime}
    {P} `{!CapsuleParser P} `{!CapsuleParserLaws _ _} n fuel p items s :
  Forall item_wf items -> payload p = [] -> rest p = concat (item_frame <$> items) ->
  (length items < n)%nat -> (length items < fuel)%nat ->
  match applyCapsules (sent <$> knowns items) s with
  | Some (r, s') => exists err, readFromConnectStream n fuel p s = Some (err, s') /\ readResult r err
  | None => readFromConnectStream n fuel p s = None
  end.
Proof.
  revert p items s. induction n as [|n IH]; intros p items s Hwf Hp Hr Hn Hf; [lia|].
  cbn [readFromConnectStream].
  destruct (parseNextCapsule_items fuel p items)
    as [[-> (e & p' & ->)]|(c & items' & p' & -> & -> & Hwf' & Hl & Hp' & Hr')]; try done.
  { simpl. eexists. split; [done|]. simpl. eauto. }
  cbn. destruct (handleCapsule (sent c) s) as [[[err|] s1]|]; cbn; [by eauto| |done].
  apply IH; try done; lia.
Qed.

(** ** What the capsules change *)

Definition bidiLimits (l : list capsule) : list Z :=
  omap (fun c => match c with maxStreamsBidiCapsule v => Some v | _ => None end) l.
Definition uniLimits (l : list capsule) : list Z :=
  omap (fun c => match c with maxStreamsUniCapsule v => Some v | _ => None end) l.
Definition dataLimits (l : list capsule) : list Z :=
  omap (fun c => match c with maxDataCapsule v => Some v | _ => None end) l.

Definition dataLimitOf (s : Session) : Z :=
  match outgoingDataFC s with Some fc => out_maxData fc | None => 0 end.

(** A map of outgoing streams before the session is closed. *)
Definition open_map {T} (m : OutgoingStreams.outgoingStreamsMap T) : Prop :=
  OutgoingStreams.o_closeErr m = None /\ OutgoingStreams.o_chanClosed m = ∅.

Definition flow_controlled (s : Session) : Prop :=
  flowControlEnabled s = true /\ is_Some (outgoingDataFC s) /\
  open_map (outgoingStreams s) /\ open_map (outgoingUniStreams s).

(** Why a capsule ends the session. *)
Definition rejected (c : capsule) (s : Session) (err : error) : Prop :=
  let violation cur v := v <= cur /\ exists e, err = ErrHTTP3 WTFlowControlErrorCode (Error e) in
  match c with
  | closeSessionCapsule code msg => err = ErrSession (mkSessionError true code msg)
  | maxDataCapsule v => violation (dataLimitOf s) v
  | maxStreamsBidiCapsule v => violation (OutgoingStreams.o_maxStreams (outgoingStreams s)) v
  | maxStreamsUniCapsule v => violation (OutgoingStreams.o_maxStreams (outgoingUniStreams s)) v
  | _ => False
  end.

Lemma UpdateStreamLimit_open {T} v (m : OutgoingStreams.outgoingStreamsMap T) : open_map m ->
  exists err m', OutgoingStreams.UpdateStreamLimit v m = Some (err, m') /\ open_map m' /\
    match err with
    | None => OutgoingStreams.o_maxStreams m < v /\ OutgoingStreams.o_maxStreams m' = v
    | Some _ => v <= OutgoingStreams.o_maxStreams m /\ m' = m
    end.
Proof.
  intros [Hm Hc]. unfold OutgoingStreams.UpdateStreamLimit. rewrite Hm. case_decide.
  { eexists (Some _), m. by split_and!. }
  unfold OutgoingStreams.maybeUnblockOpenSync. cbn.
  destruct (OutgoingStreams.o_openQueue m) as [|c q]; cbn.
  { eexists None, _; split_and!; try done; lia. }
  rewrite Hc. case_decide; cbn; [|rewrite decide_False by set_solver];
    (eexists None, _; split_and!; try done; lia).
Qed.

Definition is_close (c : capsule) : bool :=
  match c with closeSessionCapsule _ _ => true | _ => false end.

(** The three limits after capsules that are accepted. *)
Definition raised (l : list capsule) (s s' : Session) : Prop :=
  Forall (fun c => is_close c = false) l /\
  chain (OutgoingStreams.o_maxStreams (outgoingStreams s)) (bidiLimits l)
        (OutgoingStreams.o_maxStreams (outgoingStreams s')) /\
  chain (OutgoingStreams.o_maxStreams (outgoingUniStreams s)) (uniLimits l)
        (OutgoingStreams.o_maxStreams (outgoingUniStreams s')) /\
  chain (dataLimitOf s) (dataLimits l) (dataLimitOf s').

Lemma raised_cons c l s s1 s' : raised [c] s s1 -> raised l s1 s' -> raised (c :: l) s s'.
Proof.
  intros (Hc & Hb & Hu & Hd) (? & ? & ? & ?). unfold raised, bidiLimits, uniLimits, dataLimits in *.
  split; [by apply (Forall_app_2 _ [c])|]. clear Hc.
  destruct c; simpl in *; destruct_and?; split_and?; simplify_eq; try done;
    match goal with E : ?a = _ |- chain ?a _ _ => by rewrite E end.
Qed.

Ltac by_raised := unfold raised; cbn; split_and!; first [done | lia | by repeat constructor].

Lemma handleCapsule_spec c s : flow_controlled s -> capsule_wf c ->
  exists r s', handleCapsule c s = Some (r, s') /\ flow_controlled s' /\
    match r with
    | None => raised [c] s s'
    | Some err => rejected c s err
    end.
Proof.
  intros (Hfc & Hd & Hb & Hu) Hwf.
  destruct c as [code msg|v|v|v|v|v|v]; unfold handleCapsule; rewrite ?Hfc; cbn.
  - by eexists _, _.
  - destruct (Hd) as [fc Hfc']. rewrite Hfc', i64_id by (cbn in Hwf; unfold Max in Hwf; lia).
    unfold UpdateMaxData, raised, dataLimitOf.
    case_decide; cbn; eexists _, _; (split; [reflexivity|]); cbn; rewrite Hfc'.
    + split; [done|]. eauto.
    + split; [done|]. by_raised.
  - destruct (UpdateStreamLimit_open v _ Hb) as (err & m' & -> & Hm' & He). cbn.
    eexists _, _. split; [done|]. split; [done|].
    destruct err; cbn; [destruct He; eauto|]. destruct He as [? ?]. by_raised.
  - destruct (UpdateStreamLimit_open v _ Hu) as (err & m' & -> & Hm' & He). cbn.
    eexists _, _. split; [done|]. split; [done|].
    destruct err; cbn; [destruct He; eauto|]. destruct He as [? ?]. by_raised.
  - eexists _, _. split; [done|]. split; [done|]. by_raised.
  - eexists _, _. split; [done|]. split; [done|]. by_raised.
  - eexists _, _. split; [done|]. split; [done|]. by_raised.
Qed.

Lemma applyCapsules_spec l s : flow_controlled s -> Forall capsule_wf l ->
  exists l1 l2 s1 r s', applyCapsules l s = Some (r, s') /\ l = l1 ++ l2 /\ raised l1 s s1 /\
    match l2 with
    | [] => r = None /\ s' = s1
    | c :: _ => exists err, r = Some err /\ rejected c s1 err
    end.
Proof.
  intros Hs Hwf. revert s Hs. induction Hwf as [|c l Hc Hwf IH]; intros s Hs.
  { exists [], [], s, None, s. repeat split; constructor. }
  destruct (handleCapsule_spec c s Hs Hc) as ([err|] & s0 & E & Hs0 & H); simpl; rewrite E; simpl.
  - exists [], (c :: l), s, (Some err), s0. split; [done|]. split; [done|].
    split; [by repeat split; constructor|]. eauto.
  - destruct (IH s0 Hs0) as (l1 & l2 & s1 & r & s' & -> & -> & ? & ?).
    exists (c :: l1), l2, s1, r, s'. split; [done|]. split; [done|]. split; [|done].
    by eapply raised_cons.
Qed.

Lemma applyCapsules_off l s : flowControlEnabled s = false -> outgoingDataFC s = None ->
  exists r, applyCapsules l s = Some (r, s) /\
    r = head (omap (fun c => match c with
                             | closeSessionCapsule code msg => Some (ErrSession (mkSessionError true code msg))
                             | _ => None end) l).
Proof.
  intros Hf Hd. induction l as [|c l (r & E & Hr)]; simpl; [eauto|].
  destruct c; simpl; rewrite ?Hf, ?Hd; simpl; eauto.
Qed.

(** ** Closing, against the specification *)

(** No method leaves a map closed while the session is open, or the other way
    round. *)
Definition consistent (s : Session) : Prop :=
  OutgoingStreams.o_closeErr (outgoingStreams s) = ses_closeErr s /\
  OutgoingStreams.o_closeErr (outgoingUniStreams s) = ses_closeErr s /\
  IncomingStreams.i_closeErr (incomingStreams s) = ses_closeErr s /\
  IncomingStreams.i_closeErr (incomingUniStreams s) = ses_closeErr s.

Definition noStreams : closedStreams := mkClosedStreams [] [] [] [].

(** All streams of the four maps. *)
Definition allStreams (s : Session) : closedStreams :=
  mkClosedStreams (map_to_list (default ∅ (OutgoingStreams.o_m (outgoingStreams s)))).*2
    (map_to_list (default ∅ (OutgoingStreams.o_m (outgoingUniStreams s)))).*2
    (map_to_list (default ∅ (IncomingStreams.i_m (incomingStreams s)))).*2
    (map_to_list (default ∅ (IncomingStreams.i_m (incomingUniStreams s)))).*2.

(** What the methods return once the session is closed with [err]. *)
Definition refuses (err : error) (s : Session) : Prop :=
  (forall q, OpenStream q s = Returns (Err err, s)) /\
  (forall q, OpenUniStream q s = Returns (Err err, s)) /\
  IncomingStreams.acceptStart (incomingStreams s) = Some err /\
  IncomingStreams.acceptStart (incomingUniStreams s) = Some err /\
  (forall err' cap, closeWithError err' cap s = Some (false, noStreams, [], s)).

Lemma consistent_refuses err s : consistent s -> ses_closeErr s = Some err -> refuses err s.
Proof.
  intros (Ho & Hou & Hi & Hiu) E. unfold refuses, OpenStream, OpenUniStream, closeWithError.
  rewrite E. rewrite E in *. by split_and!.
Qed.

Lemma closeWithError_open err cap s r : consistent s -> ses_closeErr s = None ->
  closeWithError err cap s = Some r ->
  exists calls s', r = (true, allStreams s, calls, s') /\ consistent s' /\ ses_closeErr s' = Some err /\
    capsuleQueue s' = [] /\ pendingCloseCapsule s' = cap /\ ctxDone s' = ctxDone s /\
    (cap <> None -> calls = [StrSetWriteDeadline] /\ capsuleQueueUpdated s' = true) /\
    (cap = None -> calls = [StrCancelRead (closeCode err); StrCancelWrite (closeCode err)]).
Proof.
  intros (Ho & Hou & Hi & Hiu) E. unfold closeWithError. rewrite E. rewrite E in *.
  destruct (OutgoingStreams.CloseSession err (outgoingStreams s)) as [[o om]|] eqn:Eo; [|done]. cbn.
  destruct (OutgoingStreams.CloseSession err (outgoingUniStreams s)) as [[ou oum]|] eqn:Eou; [|done]. cbn.
  destruct (IncomingStreams.CloseSession err (incomingStreams s)) as [i im] eqn:Ei.
  destruct (IncomingStreams.CloseSession err (incomingUniStreams s)) as [iu ium] eqn:Eiu.
  apply OutgoingCloseSession_spec in Eo, Eou. apply IncomingCloseSession_spec in Ei, Eiu.
  rewrite Ho in Eo. rewrite Hou in Eou. rewrite Hi in Ei. rewrite Hiu in Eiu.
  destruct_and!. subst. intros [= <-]. eexists _, _. split; [reflexivity|].
  unfold consistent. cbn. split_and!; try done; by destruct cap.
Qed.

Lemma OpenStream_limit_iff {T} q (m : OutgoingStreams.outgoingStreamsMap T) :
  (exists r l m', OutgoingStreams.OpenStream q m = Some (r, Some l, m')) <->
  OutgoingStreams.o_closeErr m = None /\ OutgoingStreams.o_openQueue m = [] /\
  OutgoingStreams.o_maxStreams m <= OutgoingStreams.o_numStreams m /\
  OutgoingStreams.o_blockedSent m = false.
Proof.
  unfold OutgoingStreams.OpenStream. destruct (OutgoingStreams.o_closeErr m); [naive_solver|].
  destruct (OutgoingStreams.o_openQueue m) as [|c cs]; simpl length.
  2: { rewrite decide_True by lia. split; [by intros (? & ? & ? & [=])|by intros (_ & [=] & _)]. }
  rewrite decide_False by lia. case_decide; cbn.
  { destruct (OutgoingStreams.o_blockedSent m).
    - split; [by intros (? & ? & ? & [=])|by intros (_ & _ & _ & [=])].
    - split; [intros _; by split_and!|intros _; eauto]. }
  split; [|intros; lia]. intros (r & l & m' & He).
  destruct q as [[v id]|e]; simpl in He.
  - by destruct (OutgoingStreams.o_m m).
  - by destruct (OutgoingStreams.maybeUnblockOpenSync _).
Qed.

(** Opening a stream with the queue full. *)
Definition queue_full (s : Session) : Prop :=
  ctxDone s = false /\ (maxQueuedOutgoingCapsules <= length (capsuleQueue s))%nat.

Lemma queueCapsule_deadlock b c s :
  queueCapsule b c s = Deadlock <-> b = true /\ queue_full s.
Proof.
  unfold queueCapsule, queue_full. destruct (ctxDone s); [by split; intros; destruct_and?|].
  case_decide; [|split; [done|intros; destruct_and!; lia]].
  destruct b; [split; [by intros _; split_and!|done]|].
  destruct (closeWithError _ _ _) as [[[[??]?]?]|]; split; cbn; intros; destruct_and?; done.
Qed.

(** A map that has reached the limit of the peer, and has not told it. *)
Definition newly_blocked {T} (m : OutgoingStreams.outgoingStreamsMap T) : Prop :=
  OutgoingStreams.o_closeErr m = None /\ OutgoingStreams.o_openQueue m = [] /\
  OutgoingStreams.o_maxStreams m <= OutgoingStreams.o_numStreams m /\
  OutgoingStreams.o_blockedSent m = false.

Lemma open_deadlock {T} (q : result error (T * Z)) (m : OutgoingStreams.outgoingStreamsMap T)
    (upd : OutgoingStreams.outgoingStreamsMap T -> Session -> Session) (c : Z -> capsule) s :
  (forall m, ctxDone (upd m s) = ctxDone s) -> (forall m, capsuleQueue (upd m s) = capsuleQueue s) ->
  ('(r, blocked, m) ← or_panic (OutgoingStreams.OpenStream q m);
   let s := upd m s in
   s ← match blocked with Some limit => queueCapsule true (c limit) s | None => Returns s end;
   Returns (r, s)) = Deadlock <-> newly_blocked m /\ queue_full s.
Proof.
  intros Hc Hq. unfold newly_blocked. rewrite <- (OpenStream_limit_iff q m).
  destruct (OutgoingStreams.OpenStream q m) as [[[r [l|]] m']|]; cbn.
  - assert (queue_full (upd m' s) <-> queue_full s) as <- by (unfold queue_full; by rewrite Hc, Hq).
    assert (queueCapsule true (c l) (upd m' s) = Deadlock <-> queue_full (upd m' s)) as <-
      by (rewrite queueCapsule_deadlock; tauto).
    destruct (queueCapsule true (c l) (upd m' s)); cbn; (split; [|by intros [_ ?]]); by intros; split; [eauto|].
  - split; [done|]. by intros [(? & ? & ? & [=]) _].
  - split; [done|]. by intros [(? & ? & ? & [=]) _].
Qed.

End session.

Arguments Session : clear implicits.
Arguments closedStreams : clear implicits.

(** ** Examples for the theorems *)

Definition exampleText : ErrorText := {|
  HTTP3ErrorText := fun _ m => m; QuicStreamErrorText := fun _ _ => []; WriteLimitReachedText := [] |}.

(** Two streams of each kind in both directions, and 1000 bytes. *)
Definition exampleFC : sessionFlowControl := mkSessionFlowControl true 2 2 2 2 1000 1000.

Definition exampleSession : Session Z Z Z := newSession (str "proto") exampleFC.

Import (hints) Rfc9000.
Import (hints) SliceParser.

(** ** Theorems *)

(** C22: reading from the CONNECT stream with flow control. Whatever well-formed
    capsules the peer writes, known ones and others, the loop of
    [readFromConnectStream] terminates. The known capsules split into those that
    are accepted and a rest. The limits of the accepted ones increase strictly,
    for bidirectional streams, unidirectional streams and data separately,
    starting from the limits of the session, and the last ones are the limits
    afterwards. When the rest is empty, the stream has ended, and the session is
    closed with [ErrCodeDatagramError]. Otherwise the first capsule of the rest
    closes the session: it is the WT_CLOSE_SESSION of the peer, whose code and
    message make up the remote [SessionError], or it does not increase its limit,
    which is a flow control error. *)
Theorem connect_stream_limits `{ET : !ErrorText} {B U R} `{!Quicvarint} `{!QuicvarintLaws _} `{!GoRuntime}
    {P} `{!CapsuleParser P} `{!CapsuleParserLaws _ _}
    (items : list item) (p : P) (n fuel : nat) (s : Session B U R) :
  flow_controlled s -> Forall item_wf items -> payload p = [] -> rest p = foldl item_Append [] items ->
  (length items < n)%nat -> (length items < fuel)%nat ->
  exists l1 l2 s1 err s', sent <$> knowns items = l1 ++ l2 /\
    readFromConnectStream n fuel p s = Some (err, s') /\ raised l1 s s1 /\
    match l2 with
    | [] => s' = s1 /\ exists text, err = ErrHTTP3 http3.ErrCodeDatagramError text
    | c :: _ => rejected c s1 err
    end.
Proof.
  intros Hs Hwf Hp Hr Hn Hf. rewrite items_Append, app_nil_l in Hr by done.
  assert (Forall capsule_wf (sent <$> knowns items)) as Hc.
  { clear - Hwf. induction Hwf as [|[c|typ body] l Hi Hwf IH]; simpl; try done.
    constructor; [by destruct c|done]. }
  pose proof (read_loop n fuel p items s Hwf Hp Hr Hn Hf) as Hread.
  destruct (applyCapsules_spec _ s Hs Hc) as (l1 & l2 & s1 & r & s' & E & -> & Hraise & Hl2).
  rewrite E in Hread. destruct Hread as (err & -> & Herr).
  exists l1, l2, s1, err, s'. split_and!; try done.
  destruct l2 as [|c l2]; [by destruct Hl2 as [-> ->]|]. by destruct Hl2 as (e & -> & ?); simpl in *; subst.
Qed.

Lemma connect_stream_limits_witness :
  let items := [Known (maxDataCapsule 2000); Unknown 0x78ae []; Known (maxStreamsBidiCapsule 5);
                Known (maxDataCapsule 1500)] in
  exists l1 l2 s1 err s', sent <$> knowns items = l1 ++ l2 /\
    readFromConnectStream (ET := exampleText) 5 5 ([] : gostring, foldl item_Append [] items) exampleSession
      = Some (err, s') /\ raised l1 exampleSession s1 /\
    match l2 with
    | [] => s' = s1 /\ exists text, err = ErrHTTP3 http3.ErrCodeDatagramError text
    | c :: _ => rejected (ET := exampleText) c s1 err
    end.
Proof.
  intros items.
  refine (connect_stream_limits (ET := exampleText) items ([] : gostring, foldl item_Append [] items)
            5 5 exampleSession _ _ _ _ _ _).
  - repeat split. by eexists.
  - repeat (apply Forall_cons; split); [| | | |apply Forall_nil; exact I]; simpl;
      try (vm_compute; intuition congruence).
    unfold knownTypes. rewrite !not_elem_of_cons. split; [done|]. split; [done|].
    split_and!; try done. apply not_elem_of_nil.
  - reflexivity.
  - reflexivity.
  - simpl. lia.
  - simpl. lia.
Defined.

(** Without flow control nothing that the peer writes changes the session.
    The loop terminates, and ends with the first WT_CLOSE_SESSION, or with the end
    of the stream, which closes the session with [ErrCodeDatagramError]. *)
Theorem connect_stream_unlimited `{ET : !ErrorText} {B U R} `{!Quicvarint} `{!QuicvarintLaws _} `{!GoRuntime}
    {P} `{!CapsuleParser P} `{!CapsuleParserLaws _ _}
    (items : list item) (p : P) (n fuel : nat) (protocol : gostring) :
  Forall item_wf items -> payload p = [] -> rest p = foldl item_Append [] items ->
  (length items < n)%nat -> (length items < fuel)%nat ->
  exists err, readFromConnectStream n fuel p (newSession protocol noFlowControl : Session B U R)
    = Some (err, newSession protocol noFlowControl) /\
    readResult (head (omap (fun c => match c with
      | closeSessionCapsule code msg => Some (ErrSession (mkSessionError true code msg))
      | _ => None end) (sent <$> knowns items))) err.
Proof.
  intros Hwf Hp Hr Hn Hf. rewrite items_Append, app_nil_l in Hr by done.
  pose proof (read_loop n fuel p items (newSession protocol noFlowControl : Session B U R)
                Hwf Hp Hr Hn Hf) as Hread.
  destruct (applyCapsules_off (sent <$> knowns items) (newSession protocol noFlowControl : Session B U R))
    as (r & E & <-); [done..|]. rewrite E in Hread. exact Hread.
Qed.

Lemma connect_stream_unlimited_witness :
  let items := [Known (maxDataCapsule 2000); Known (closeSessionCapsule 7 (str "bye"));
                Known (maxStreamsBidiCapsule 5)] in
  exists err, readFromConnectStream (ET := exampleText) 4 4 ([] : gostring, foldl item_Append [] items)
    (newSession [] noFlowControl : Session Z Z Z) = Some (err, newSession [] noFlowControl) /\
    err = ErrSession (mkSessionError true 7 (str "bye")).
Proof.
  intros items.
  refine (connect_stream_unlimited (ET := exampleText) items ([] : gostring, foldl item_Append [] items)
            4 4 [] _ _ _ _ _).
  - repeat (apply Forall_cons; split); [| | |apply Forall_nil; exact I]; vm_compute; intuition congruence.
  - reflexivity.
  - reflexivity.
  - simpl. lia.
  - simpl. lia.
Defined.

(** C16: closing a session. The first call of [closeWithError] on an open session
    closes all four maps and every stream in them with its error, drops the queued
    capsules, and either leaves the close capsule to the writer, which is woken, or
    resets both directions of the CONNECT stream: with the code of an HTTP/3 error
    or of a QUIC stream error if the session is closed with one, otherwise with
    WT_SESSION_GONE. From then on the methods of the session return that error, and
    closing it again does nothing at all. *)
Theorem session_closed_once {B U R} (err : error) (cap : option (Z * gostring))
    (s : Session B U R) r :
  consistent s -> closeWithError err cap s = Some r ->
  match ses_closeErr s with
  | Some _ => r = (false, noStreams, [], s)
  | None => exists calls s', r = (true, allStreams s, calls, s') /\
      consistent s' /\ refuses err s' /\
      capsuleQueue s' = [] /\ pendingCloseCapsule s' = cap /\
      (cap <> None -> calls = [StrSetWriteDeadline] /\ capsuleQueueUpdated s' = true) /\
      (cap = None -> forall code, calls = [StrCancelRead code; StrCancelWrite code] <->
         match err with
         | ErrHTTP3 c _ => code = c
         | ErrQuicStream c _ => code = c
         | ErrWrap _ _ => code = closeCode err
         | _ => code = WTSessionGoneErrorCode
         end)
  end.
Proof.
  intros Hs He. destruct (ses_closeErr s) eqn:E.
  { unfold closeWithError in He. rewrite E in He. by simplify_eq. }
  destruct (closeWithError_open err cap s r Hs E He)
    as (calls & s' & -> & Hs' & Herr & ? & ? & ? & ? & Hcalls).
  exists calls, s'. split_and!; try done; [by apply consistent_refuses|].
  intros Hcap code. rewrite Hcalls by done.
  destruct err; unfold closeCode; cbn; split; intros; simplify_eq/=; done.
Qed.

Lemma session_closed_once_witness :
  match closeWithError (flowControlError (ET := exampleText) errMaxDataNotIncreased) None exampleSession with
  | Some r => exists calls s', r = (true, allStreams exampleSession, calls, s') /\
      consistent s' /\ refuses (flowControlError (ET := exampleText) errMaxDataNotIncreased) s' /\
      calls = [StrCancelRead WTFlowControlErrorCode; StrCancelWrite WTFlowControlErrorCode]
  | None => False
  end.
Proof.
  destruct (closeWithError _ None exampleSession) as [r|] eqn:E; [|by vm_compute in E].
  destruct (session_closed_once (flowControlError (ET := exampleText) errMaxDataNotIncreased) None exampleSession r) as (calls & s' & -> & ? & ? & _ & _ & _ & Hc);
    [by repeat split|exact E|]. exists calls, s'. split_and!; try done. by apply Hc.
Defined.

(** C37: [OpenStream] and [OpenUniStream] lock [closeMx] twice, and never return,
    exactly when the session is open, the limit of the peer is reached and it has
    not been told, and the capsule queue is full. *)
Theorem OpenStream_deadlock {B U R} (s : Session B U R) q qu :
  (OpenStream q s = Deadlock <->
   ses_closeErr s = None /\ newly_blocked (outgoingStreams s) /\ queue_full s) /\
  (OpenUniStream qu s = Deadlock <->
   ses_closeErr s = None /\ newly_blocked (outgoingUniStreams s) /\ queue_full s).
Proof.
  unfold OpenStream, OpenUniStream. destruct (ses_closeErr s).
  { split; (split; [done|by intros [? _]]). }
  split; erewrite open_deadlock by done; intuition.
Qed.

(** The state is reachable by calls of these methods: two streams are opened, and
    the peer does not read while 4096 window updates are queued. *)
Lemma OpenStream_deadlock_reached : exists s1 s2 s,
  OpenStream (Ok (0, 0)) exampleSession = Returns (Ok 0, s1) /\
  OpenStream (Ok (4, 4)) s1 = Returns (Ok 4, s2) /\
  foldl (fun o _ => s ← o; queueCapsule false (maxDataCapsule 2000) s) (Returns s2) (replicate 4096 tt) = Returns s /\
  OpenStream (Ok (8, 8)) s = Deadlock.
Proof.
  do 3 eexists. split; [vm_compute; reflexivity|]. split; [vm_compute; reflexivity|].
  split; [vm_compute; reflexivity|]. vm_compute. reflexivity.
Qed.
