(* ===== verification/SessionLoops.v ===== *)
(** * The capsule queue under concurrency ([session.go])

    [writeToConnectStream], [readFromConnectStream], [queueCapsule],
    [closeWithError] and [CloseWithError], cut at every lock, channel operation
    and write to the CONNECT stream, and interleaved in any order; the calls on
    that stream that come together, such as [CancelRead] and [CancelWrite], run
    together. One goroutine
    writes, one reads, and any number of them queue capsules and close the
    session. What the reader does with the capsules is in [Session]; closing the
    four maps touches nothing of what is modelled here. *)

From S2P Require Import Prelude Errors Protocol Capsule Session.

(** ** State *)

(** What happens on the CONNECT stream. *)
Inductive event : Type :=
| EvCapsule (c : capsule)
(** [Write] failed after some of the bytes *)
| EvPartial (c : capsule)
| EvCloseCapsule (code : Z) (msg : gostring)
| EvCall (c : strCall).

Record shared := mkShared {
  x_ctxDone : bool;
  x_closeErr : option error;
  x_queue : list capsule;
  x_pending : option (Z * gostring);
  (** the channel [capsuleQueueUpdated] holds a value *)
  x_updated : bool;
  x_trace : list event;
  (** every capsule that was ever appended to the queue *)
  x_enqueued : list capsule;
}.

Definition upd_ctx (x : shared) : shared :=
  mkShared true (x_closeErr x) (x_queue x) (x_pending x) (x_updated x) (x_trace x) (x_enqueued x).
Definition upd_err (e : error) (x : shared) : shared :=
  mkShared (x_ctxDone x) (Some e) (x_queue x) (x_pending x) (x_updated x) (x_trace x) (x_enqueued x).
Definition upd_queue (q : list capsule) (x : shared) : shared :=
  mkShared (x_ctxDone x) (x_closeErr x) q (x_pending x) (x_updated x) (x_trace x) (x_enqueued x).
Definition upd_pending (p : option (Z * gostring)) (x : shared) : shared :=
  mkShared (x_ctxDone x) (x_closeErr x) (x_queue x) p (x_updated x) (x_trace x) (x_enqueued x).
Definition upd_updated (b : bool) (x : shared) : shared :=
  mkShared (x_ctxDone x) (x_closeErr x) (x_queue x) (x_pending x) b (x_trace x) (x_enqueued x).
Definition emit (es : list event) (x : shared) : shared :=
  mkShared (x_ctxDone x) (x_closeErr x) (x_queue x) (x_pending x) (x_updated x) (x_trace x ++ es) (x_enqueued x).
Definition enqueue (c : capsule) (x : shared) : shared :=
  mkShared (x_ctxDone x) (x_closeErr x) (x_queue x ++ [c]) (x_pending x) (x_updated x) (x_trace x)
    (x_enqueued x ++ [c]).

(** ** [closeWithError] *)

Inductive closePc : Type :=
(** before locking [closeMx] *)
| CBegin
(** [closeErr] is set: the maps are closed, then the queue is replaced *)
| CQueue
(** before [SetWriteDeadline] and the notification *)
| CNotify
(** before [CancelRead] and [CancelWrite] *)
| CReset
| CRet (first : bool).

Record closing := mkClosing {
  cl_err : error;
  cl_cap : option (Z * gostring);
  cl_pc : closePc;
}.

Definition closeGoto (pc : closePc) (cl : closing) : closing := mkClosing (cl_err cl) (cl_cap cl) pc.

Definition closeStep (x : shared) (cl : closing) : shared * closing :=
  match cl_pc cl with
  | CBegin =>
      match x_closeErr x with
      | Some _ => (x, closeGoto (CRet false) cl)
      | None => (upd_err (cl_err cl) x, closeGoto CQueue cl)
      end
  | CQueue =>
      (upd_pending (cl_cap cl) (upd_queue [] x),
       closeGoto (match cl_cap cl with Some _ => CNotify | None => CReset end) cl)
  | CNotify => (upd_updated true (emit [EvCall StrSetWriteDeadline] x), closeGoto (CRet true) cl)
  | CReset =>
      (emit [EvCall (StrCancelRead (closeCode (cl_err cl))); EvCall (StrCancelWrite (closeCode (cl_err cl)))] x,
       closeGoto (CRet true) cl)
  | CRet first => (x, cl)
  end.

(** The result, once there is one. *)
Definition returned (cl : closing) : option bool :=
  match cl_pc cl with CRet first => Some first | _ => None end.

(** ** [writeToConnectStream] *)

Inductive writerPc : Type :=
| WSelect
(** before locking [capsuleQueueMx] at the top of the inner loop *)
| WTop
| WWrite (c : capsule)
(** [Write] has succeeded: before the head is removed *)
| WPop
| WClosing (part : bool) (cl : closing)
(** before reading [pendingCloseCapsule] again *)
| WRecheck
| WSendClose (code : Z) (msg : gostring)
| WDone.

(** The result of [Write] and of [TryWriteAll]. *)
Inductive writeResult : Type :=
| WroteAll
| WroteNone (err : error)
| WrotePart (err : error).

(** [pick]: the case [<-s.ctx.Done()] of the [select] is taken. [None]: the
    goroutine waits, or has returned. Returning runs [ctxCancel]. *)
Definition writerStep (pick : bool) (r : writeResult) (x : shared) (p : writerPc) : option (shared * writerPc) :=
  match p with
  | WSelect =>
      if pick then if x_ctxDone x then Some (upd_ctx x, WDone) else None
      else if x_updated x then Some (upd_updated false x, WTop) else None
  | WTop =>
      match x_pending x with
      | Some (code, msg) => Some (x, WSendClose code msg)
      | None => Some (x, match x_queue x with [] => WSelect | c :: _ => WWrite c end)
      end
  | WWrite c =>
      match r with
      | WroteAll => Some (emit [EvCapsule c] x, WPop)
      | WroteNone err => Some (x, WClosing false (mkClosing err None CBegin))
      | WrotePart err =>
          Some (emit [EvPartial c; EvCall (StrCancelRead WTSessionGoneErrorCode);
                      EvCall (StrCancelWrite WTSessionGoneErrorCode)] x,
                WClosing true (mkClosing err None CBegin))
      end
  | WPop => Some (upd_queue (match x_queue x with [] => [] | _ :: q => q end) x, WTop)
  | WClosing part cl =>
      match returned cl with
      | Some first => if part || first then Some (upd_ctx x, WDone) else Some (x, WRecheck)
      | None => let '(x, cl) := closeStep x cl in Some (x, WClosing part cl)
      end
  | WRecheck =>
      match x_pending x with
      | Some _ => Some (x, WTop)
      | None => Some (upd_ctx x, WDone)
      end
  | WSendClose code msg =>
      let es := match r with
                | WroteAll => [EvCloseCapsule code msg]
                | _ => [EvCall (StrCancelWrite WTSessionGoneErrorCode)]
                end in
      Some (upd_ctx (emit (es ++ [EvCall (StrCancelRead WTSessionGoneErrorCode); EvCall StrClose]) x), WDone)
  | WDone => None
  end.

(** ** The other goroutines *)

Inductive caller : Type :=
| KReader
| KCloseWithError
(** [queueCapsule], [closeWithFlowControlError], [addIncomingStream] *)
| KOther.

Inductive pc : Type :=
| ORead
(** [queueCapsule]: before looking at the context, before locking, before notifying *)
| OQueue (c : capsule)
| OAppend (c : capsule)
| ONotify
| OClosing (k : caller) (cl : closing)
(** [CloseWithError]: [<-s.ctx.Done()] *)
| OWaitCtx
| ODone.

Definition queueFullError : error :=
  ErrHTTP3 http3.ErrCodeExcessiveLoad (str "webtransport: outgoing capsule queue full").

(** [closeErr]: the error with which the reader closes the session. *)
Definition otherStep (closeErr : error) (x : shared) (p : pc) : option (shared * pc) :=
  match p with
  | ORead => Some (x, OClosing KReader (mkClosing closeErr None CBegin))
  | OQueue c => Some (x, if x_ctxDone x then ODone else OAppend c)
  | OAppend c =>
      if decide (maxQueuedOutgoingCapsules <= length (x_queue x))%nat
      then Some (x, OClosing KOther (mkClosing queueFullError None CBegin))
      else Some (enqueue c x, ONotify)
  | ONotify => Some (upd_updated true x, ODone)
  | OClosing k cl =>
      match returned cl with
      | Some first =>
          match k with
          | KReader => Some (upd_ctx x, ODone)
          | KCloseWithError => Some (x, if first then OWaitCtx else ODone)
          | KOther => Some (x, ODone)
          end
      | None => let '(x, cl) := closeStep x cl in Some (x, OClosing k cl)
      end
  | OWaitCtx => if x_ctxDone x then Some (x, ODone) else None
  | ODone => None
  end.

#[local] Opaque maxQueuedOutgoingCapsules.

(** ** Interleaving *)

Record world := mkWorld {
  w_x : shared;
  w_writer : writerPc;
  w_others : gmap nat pc;
}.

Definition start : world :=
  mkWorld (mkShared false None [] None false [] []) WSelect {[0%nat := ORead]}.

(** How a goroutine enters. *)
Inductive enters : pc -> Prop :=
| enters_queueCapsule c : enters (OQueue c)
| enters_CloseWithError code msg :
    enters (OClosing KCloseWithError
      (mkClosing (ErrSession (mkSessionError false code msg)) (Some (code, msg)) CBegin))
| enters_closeWithError err : enters (OClosing KOther (mkClosing err None CBegin)).

Inductive step : world -> world -> Prop :=
| step_writer pick r w x p : writerStep pick r (w_x w) (w_writer w) = Some (x, p) ->
    step w (mkWorld x p (w_others w))
| step_other err t w x p p' : w_others w !! t = Some p -> otherStep err (w_x w) p = Some (x, p') ->
    step w (mkWorld x (w_writer w) (<[t := p']> (w_others w)))
| step_enter t p w : w_others w !! t = None -> enters p ->
    step w (mkWorld (w_x w) (w_writer w) (<[t := p]> (w_others w)))
(** the context that the session was made with is cancelled *)
| step_cancel w : step w (mkWorld (upd_ctx (w_x w)) (w_writer w) (w_others w)).

Definition reachable (w : world) : Prop := rtc step start w.

(** ** Closing: one owner

    The call of [closeWithError] that sets [closeErr] owns the rest of the
    closing; so does a goroutine that waits in [CloseWithError] afterwards. *)

Definition owns (pc : closePc) : bool :=
  match pc with CBegin | CRet false => false | _ => true end.

(** The queue has been replaced. *)
Definition late (pc : closePc) : bool :=
  match pc with CNotify | CReset | CRet true => true | _ => false end.

Definition writerTok (p : writerPc) : Z :=
  match p with WClosing _ cl => if owns (cl_pc cl) then 1 else 0 | _ => 0 end.

Definition tok (p : pc) : Z :=
  match p with
  | OClosing _ cl => if owns (cl_pc cl) then 1 else 0
  | OWaitCtx => 1
  | _ => 0
  end.

(** What holds for a call of [closeWithError]. *)
Record closing_ok (x : shared) (cl : closing) : Prop := {
  co_err : owns (cl_pc cl) = true -> x_closeErr x = Some (cl_err cl);
  co_cap code msg : cl_cap cl = Some (code, msg) -> cl_err cl = ErrSession (mkSessionError false code msg);
  co_queue : cl_pc cl = CQueue -> x_pending x = None;
  co_notify : cl_pc cl = CNotify -> cl_cap cl <> None;
  co_reset : cl_pc cl = CReset -> cl_cap cl = None;
  co_pending : late (cl_pc cl) = true -> x_pending x = cl_cap cl;
}.

Definition pc_ok (x : shared) (p : pc) : Prop :=
  match p with
  | OClosing k cl => closing_ok x cl /\ (k = KCloseWithError <-> cl_cap cl <> None)
  | OWaitCtx => x_pending x <> None
  | _ => True
  end.

Definition writer_ok (x : shared) (p : writerPc) : Prop :=
  match p with
  | WClosing _ cl => closing_ok x cl /\ cl_cap cl = None
  | WSendClose code msg => x_pending x = Some (code, msg)
  | WDone => x_ctxDone x = true
  | _ => True
  end.

Record inv (w : world) : Prop := {
  v_writer : writer_ok (w_x w) (w_writer w);
  v_others t p : w_others w !! t = Some p -> pc_ok (w_x w) p;
  v_tok : writerTok (w_writer w) + msum tok (w_others w) <= 1;
  v_open : x_closeErr (w_x w) = None -> writerTok (w_writer w) + msum tok (w_others w) = 0;
  v_pending code msg : x_pending (w_x w) = Some (code, msg) ->
    x_closeErr (w_x w) = Some (ErrSession (mkSessionError false code msg));
}.

Lemma tok_range p : 0 <= tok p <= 1.
Proof. destruct p; simpl; try lia. case_match; lia. Qed.

Lemma writerTok_range p : 0 <= writerTok p <= 1.
Proof. destruct p; simpl; try lia. case_match; lia. Qed.

Lemma tok_le m t p : m !! t = Some p -> tok p <= msum tok m.
Proof.
  intros H. pose proof (msum_insert tok m t (ODone) p H) as E.
  pose proof (msum_nonneg tok (<[t := ODone]> m)) as Hn. simpl in E.
  assert (0 <= msum tok (<[t := ODone]> m)); [|lia]. apply Hn. intros. apply tok_range.
Qed.

(** What a step of a goroutine means for the others; [k] and [k'] are its
    tokens before and after. *)
Inductive effect (x x' : shared) (k k' : Z) : Prop :=
| effect_keeps : x_closeErr x' = x_closeErr x -> x_pending x' = x_pending x -> k' <= k -> effect x x' k k'
| effect_first e : x_closeErr x = None -> x_closeErr x' = Some e -> x_pending x' = x_pending x ->
    k = 0 -> k' <= 1 -> effect x x' k k'
| effect_queued : x_closeErr x' = x_closeErr x -> x_pending x = None -> k = 1 -> k' <= 1 ->
    (forall code msg, x_pending x' = Some (code, msg) ->
       x_closeErr x' = Some (ErrSession (mkSessionError false code msg))) ->
    effect x x' k k'.

Lemma pc_ok_effect x x' k k' p : pc_ok x p -> effect x x' k k' -> k + tok p <= 1 ->
  (x_closeErr x = None -> tok p = 0) -> pc_ok x' p.
Proof.
  intros Hp He Hk Hopen. assert (tok p = 0 \/ x_closeErr x' = x_closeErr x /\ x_pending x' = x_pending x) as H.
  { destruct He; [by right|left; auto|]. left. pose proof (tok_range p). lia. }
  destruct p as [|c|c| |kl cl| |]; simpl in *; try done.
  - destruct Hp as [[H1 H2 H3 H4 H5 H6] Hk']. split; [|done].
    destruct H as [H|[E1 E2]]; [|by constructor; rewrite ?E1, ?E2]. destruct (cl_pc cl) as [| | | |[]] eqn:E; simpl in *; try done.
    + by constructor; rewrite ?E.
    + by constructor; rewrite ?E.
  - destruct H as [H|[_ ->]]; done.
Qed.

Lemma writer_ok_effect x x' k k' p : writer_ok x p -> effect x x' k k' -> k + writerTok p <= 1 ->
  (x_closeErr x = None -> writerTok p = 0) -> (x_ctxDone x = true -> x_ctxDone x' = true) ->
  writer_ok x' p.
Proof.
  intros Hp He Hk Hopen Hctx. destruct p as [| |c| |part cl| |code msg|]; simpl in *; auto.
  - destruct Hp as [Hp Hc]. split; [|done].
    by apply (pc_ok_effect x x' k k' (OClosing KOther cl)).
  - destruct He; congruence.
Qed.

Lemma closeStep_ok x cl x' cl' : closing_ok x cl -> closeStep x cl = (x', cl') ->
  (forall code msg, x_pending x = Some (code, msg) ->
    x_closeErr x = Some (ErrSession (mkSessionError false code msg))) ->
  closing_ok x' cl' /\ cl_cap cl' = cl_cap cl /\ x_ctxDone x' = x_ctxDone x /\
  effect x x' (if owns (cl_pc cl) then 1 else 0) (if owns (cl_pc cl') then 1 else 0).
Proof.
  intros [H1 H2 H3 H4 H5 H6] He Hpend. destruct cl as [err cap [| | | |first]]; unfold closeStep in He; simpl in *.
  - destruct (x_closeErr x) as [e|] eqn:E; injection He as <- <-; simpl.
    + split; [|by split_and!; [..|apply effect_keeps]]. by constructor.
    + split; [|split_and!; try done; by eapply effect_first; simpl; try lia]. constructor; simpl; try done.
      intros _. destruct (x_pending x) as [[code msg]|] eqn:Ep; [|done]. specialize (Hpend code msg eq_refl). congruence.
  - injection He as <- <-. destruct cap as [[code msg]|]; simpl in *.
    + split; [by constructor; simpl; auto|]. split_and!; try done. apply effect_queued; simpl; auto; try lia.
      intros ? ? [= <- <-]. rewrite H1 by done. by rewrite (H2 code msg).
    + split; [by constructor; simpl; auto|]. split_and!; try done. by apply effect_queued; simpl; auto.
  - injection He as <- <-. split; [|by split_and!; [..|apply effect_keeps]].
    by constructor; simpl; auto.
  - injection He as <- <-. split; [|by split_and!; [..|apply effect_keeps]].
    by constructor; simpl; auto.
  - injection He as <- <-. split; [by constructor|]. split_and!; try done. by apply effect_keeps.
Qed.

Lemma returned_Some cl first : returned cl = Some first -> cl_pc cl = CRet first.
Proof. unfold returned. destruct (cl_pc cl); congruence. Qed.

Lemma otherStep_ok err x p x' p' : pc_ok x p -> otherStep err x p = Some (x', p') ->
  (forall code msg, x_pending x = Some (code, msg) ->
    x_closeErr x = Some (ErrSession (mkSessionError false code msg))) ->
  pc_ok x' p' /\ (x_ctxDone x = true -> x_ctxDone x' = true) /\ effect x x' (tok p) (tok p').
Proof.
  intros Hp He Hpend. destruct p as [|c|c| |k cl| |]; simpl in He.
  - simplify_eq. simpl. split_and!; try done; first [by constructor|by apply effect_keeps].
  - simplify_eq. split; [by case_match|]. split; [done|]. by case_match; apply effect_keeps.
  - case_decide; simplify_eq; simpl; [|by split_and!; [..|apply effect_keeps]].
    split_and!; try done; first [by constructor|by apply effect_keeps].
  - simplify_eq. by split_and!; [..|apply effect_keeps].
  - destruct Hp as [Hp Hk]. destruct (returned cl) as [first|] eqn:Hf.
    + apply returned_Some in Hf as Hpc.
      destruct k; simplify_eq; simpl; rewrite ?Hpc.
      * split_and!; try done. apply effect_keeps; simpl; try done; by destruct first.
      * destruct first; simpl; (split_and!; try done; [..|by apply effect_keeps]).
        rewrite (co_pending _ _ Hp) by (by rewrite Hpc). by apply Hk.
      * split_and!; try done. apply effect_keeps; simpl; try done; by destruct first.
    + destruct (closeStep x cl) as [x1 cl1] eqn:E. simplify_eq. simpl.
      destruct (closeStep_ok x cl x' cl1 Hp E Hpend) as (? & -> & -> & ?). by split_and!.
  - by case_match; simplify_eq; split_and!; [..|apply effect_keeps].
  - done.
Qed.

Lemma writerStep_ok pick r x p x' p' : writer_ok x p -> writerStep pick r x p = Some (x', p') ->
  (forall code msg, x_pending x = Some (code, msg) ->
    x_closeErr x = Some (ErrSession (mkSessionError false code msg))) ->
  writer_ok x' p' /\ (x_ctxDone x = true -> x_ctxDone x' = true) /\
  effect x x' (writerTok p) (writerTok p').
Proof.
  intros Hp He Hpend. destruct p as [| |c| |part cl| |code msg|]; simpl in He.
  - destruct pick; [destruct (x_ctxDone x) eqn:E|destruct (x_updated x)]; simplify_eq;
      by split_and!; [..|apply effect_keeps].
  - destruct (x_pending x) as [[code msg]|] eqn:E; simplify_eq; [by split_and!; [..|apply effect_keeps]|].
    by destruct (x_queue x'); split_and!; [..|apply effect_keeps| | |apply effect_keeps].
  - destruct r; simplify_eq; simpl; split_and!; try done; first [by apply effect_keeps|by constructor].
  - simplify_eq. by split_and!; [..|apply effect_keeps].
  - destruct Hp as [Hp Hc]. destruct (returned cl) as [first|] eqn:Hf.
    + apply returned_Some in Hf as Hpc. unfold writerTok. rewrite Hpc.
      destruct (part || first)%bool; simplify_eq; split_and!; try done;
        apply effect_keeps; simpl; try done; by destruct first.
    + destruct (closeStep x cl) as [x1 cl1] eqn:E. simplify_eq. simpl.
      destruct (closeStep_ok x cl x' cl1 Hp E Hpend) as (? & -> & -> & ?). by split_and!.
  - destruct (x_pending x); simplify_eq; by split_and!; [..|apply effect_keeps].
  - simplify_eq. by split_and!; [..|apply effect_keeps].
  - done.
Qed.

Lemma v_pending_effect x x' k k' : effect x x' k k' ->
  (forall code msg, x_pending x = Some (code, msg) ->
    x_closeErr x = Some (ErrSession (mkSessionError false code msg))) ->
  forall code msg, x_pending x' = Some (code, msg) ->
    x_closeErr x' = Some (ErrSession (mkSessionError false code msg)).
Proof.
  intros [Hc Hp _|e Hc _ Hp _ _|] Hpend; [by rewrite Hc, Hp| |done].
  rewrite Hp. intros ? ? E. apply Hpend in E. congruence.
Qed.

Lemma loops_inv_start : inv start.
Proof.
  constructor; simpl; try done.
  by intros t p [<- <-]%lookup_singleton_Some.
Qed.

Lemma loops_inv_step w w' : inv w -> step w w' -> inv w'.
Proof.
  intros [Hw Ho Ht Hopen Hpend] He. pose proof (writerTok_range (w_writer w)) as Hwr.
  assert (0 <= msum tok (w_others w)) as Hmr by (apply msum_nonneg; intros; apply tok_range).
  destruct He as [pick r w x p He|err t w x p p' Hl He|t p w Hl He|w]; simpl in *.
  - destruct (writerStep_ok _ _ _ _ _ _ Hw He Hpend) as (Hw' & Hctx & Hef).
    constructor; simpl; try done.
    + intros t q Hq. pose proof (tok_le _ _ _ Hq). pose proof (tok_range q).
      eapply pc_ok_effect; [by eapply Ho|done|lia|]. intros E. specialize (Hopen E). lia.
    + destruct Hef; lia.
    + destruct Hef as [Hc _ ?| |Hc ? ? ? ?]; [rewrite Hc; intros E; pose proof (writerTok_range p); specialize (Hopen E); lia|congruence|].
      rewrite Hc. intros E. specialize (Hopen E). lia.
    + by eapply v_pending_effect.
  - destruct (otherStep_ok _ _ _ _ _ (Ho _ _ Hl) He Hpend) as (Hp' & Hctx & Hef).
    pose proof (tok_le _ _ _ Hl). pose proof (msum_insert tok (w_others w) t p' p Hl) as E.
    pose proof (tok_range p). pose proof (tok_range p').
    constructor; simpl; rewrite ?E; try done.
    + eapply writer_ok_effect; try done; [lia|]. intros E'. specialize (Hopen E'). lia.
    + intros t' q [[<- <-]|[Hne Hq]]%lookup_insert_Some; [done|].
      assert (tok p + tok q <= msum tok (w_others w)).
      { pose proof (msum_insert tok (w_others w) t ODone p Hl) as E1.
        pose proof (tok_le (<[t:=ODone]> (w_others w)) t' q ltac:(by rewrite lookup_insert_ne)). simpl in E1. lia. }
      pose proof (tok_range q).
      eapply pc_ok_effect; [by eapply Ho|done|lia|]. intros E'. specialize (Hopen E'). lia.
    + destruct Hef; lia.
    + destruct Hef as [Hc _ ?| |Hc ? ? ? ?]; [rewrite Hc; intros E'; specialize (Hopen E'); lia|congruence|].
      rewrite Hc. intros E'. specialize (Hopen E'). lia.
    + by eapply v_pending_effect.
  - assert (tok p = 0) as Hz by (by destruct He).
    constructor; simpl; rewrite ?msum_insert_new, ?Hz by done; try done.
    intros t' q [[<- <-]|[Hne Hq]]%lookup_insert_Some; [|by eapply Ho].
    by destruct He; simpl; try done; (split; [constructor; simpl; intros; congruence|]).
  - constructor; simpl; try done.
    + apply (writer_ok_effect (w_x w) _ 0 0); try done; [by apply effect_keeps|lia|].
      intros E. specialize (Hopen E). lia.
    + intros t q Hq. eapply (pc_ok_effect (w_x w) _ 0 0); [by eapply Ho|by apply effect_keeps| |].
      * pose proof (tok_range q). lia.
      * intros E. specialize (Hopen E). pose proof (tok_le _ _ _ Hq). pose proof (tok_range q). lia.
Qed.

Lemma loops_inv_reachable w : reachable w -> inv w.
Proof.
  intros H. assert (inv start) as Hs by apply loops_inv_start. revert Hs.
  induction H; eauto using loops_inv_step.
Qed.

(** ** What is on the stream *)

Definition is_data (e : event) : bool := match e with EvCall _ => false | _ => true end.
Definition data (x : shared) : list event := filter (fun e => is_data e) (x_trace x).

(** The queued capsules that are not completely written. *)
Definition remaining (p : writerPc) (q : list capsule) : list capsule :=
  match p with
  | WWrite c => c :: tail q
  | WPop => tail q
  | _ => q
  end.

(** Those that the writer may still write: none, once it has seen an error or
    the close capsule. *)
Definition unwritten (x : shared) (p : writerPc) : list capsule :=
  match p with
  | WSelect | WWrite _ | WPop => remaining p (x_queue x)
  | WTop => match x_pending x with Some _ => [] | None => x_queue x end
  | _ => []
  end.

(** How the stream ends, and the capsules behind those that are complete. *)
Inductive stream_end (x : shared) (p : writerPc) : list event -> list capsule -> Prop :=
| end_open : stream_end x p [] (unwritten x p)
| end_partial c : (match p with WClosing true _ | WDone => True | _ => False end) ->
    stream_end x p [EvPartial c] [c]
| end_close code msg : p = WDone ->
    x_closeErr x = Some (ErrSession (mkSessionError false code msg)) ->
    stream_end x p [EvCloseCapsule code msg] [].

(** While the session is open the head of the queue is the capsule that is
    being written. *)
Definition head_ok (x : shared) (p : writerPc) : Prop :=
  match p with
  | WWrite c => head (x_queue x) = Some c
  | WPop => x_queue x <> []
  | _ => True
  end.

Record wire (x : shared) (p : writerPc) (cs : list capsule) (tl : list event) (rest : list capsule) : Prop := {
  wi_data : data x = (EvCapsule <$> cs) ++ tl;
  wi_end : stream_end x p tl rest;
  wi_sub : cs ++ rest `sublist_of` x_enqueued x;
  wi_open : x_closeErr x = None -> tl = [] ->
    cs ++ remaining p (x_queue x) = x_enqueued x /\ head_ok x p;
  wi_len : (length (x_queue x) <= maxQueuedOutgoingCapsules)%nat;
}.

(** What [closeWithError] and the other goroutines do to the queue. *)
Inductive queue_effect (x x' : shared) : Prop :=
| qe_same : x_queue x' = x_queue x -> x_enqueued x' = x_enqueued x -> queue_effect x x'
| qe_append c : x_queue x' = x_queue x ++ [c] -> x_enqueued x' = x_enqueued x ++ [c] ->
    (length (x_queue x) < maxQueuedOutgoingCapsules)%nat -> queue_effect x x'
| qe_clear : x_queue x' = [] -> x_enqueued x' = x_enqueued x -> x_closeErr x <> None -> queue_effect x x'.

(** The error and the close capsule, once set, stay; nothing is written. *)
Record bystander (x x' : shared) : Prop := {
  by_data : data x' = data x;
  by_err e : x_closeErr x = Some e -> x_closeErr x' = Some e;
  by_pending : x_pending x <> None -> x_pending x' = x_pending x;
  by_queue : queue_effect x x';
}.

Lemma data_emit es x : data (emit es x) = data x ++ filter (fun e => is_data e) es.
Proof. apply filter_app. Qed.

Lemma data_calls es x : filter (fun e => is_data e) es = [] -> data (emit es x) = data x.
Proof. intros E. by rewrite data_emit, E, app_nil_r. Qed.

Lemma closeStep_bystander x cl x' cl' : closing_ok x cl -> closeStep x cl = (x', cl') -> bystander x x'.
Proof.
  intros Hp He. destruct cl as [err cap [| | | |first]]; unfold closeStep in He; simpl in *.
  - destruct (x_closeErr x) eqn:E; injection He as <- <-; constructor; try done; try (by apply qe_same); congruence.
  - injection He as <- <-. constructor; try done; [by rewrite (co_queue _ _ Hp)|].
    apply qe_clear; try done. by rewrite (co_err _ _ Hp).
  - injection He as <- <-. constructor; try done; [by apply (data_calls [_])|by apply qe_same].
  - injection He as <- <-. constructor; try done; [by apply (data_calls [_; _])|by apply qe_same].
  - injection He as <- <-. constructor; try done. by apply qe_same.
Qed.

Lemma otherStep_bystander err x p x' p' : pc_ok x p -> otherStep err x p = Some (x', p') -> bystander x x'.
Proof.
  intros Hp He. assert (bystander x x) as Hrefl by (constructor; try done; by apply qe_same).
  destruct p as [|c|c| |k cl| |]; simpl in He; simplify_eq; try done.
  - case_decide; simplify_eq; [done|]. constructor; try done. eapply qe_append; try done. simpl. lia.
  - constructor; try done. by apply qe_same.
  - destruct (returned cl) as [first|].
    + destruct k; simplify_eq; try done. constructor; try done. by apply qe_same.
    + destruct (closeStep x cl) as [x1 cl1] eqn:E. simplify_eq. eapply closeStep_bystander; [apply Hp|done].
  - by case_match; simplify_eq.
Qed.

Lemma remaining_append p q c : remaining p (q ++ [c]) `sublist_of` remaining p q ++ [c].
Proof.
  destruct p; simpl; try done; destruct q; simpl; try done; [|by apply sublist_nil_l].
  by apply sublist_skip, sublist_nil_l.
Qed.

Lemma remaining_nil p q : remaining p [] `sublist_of` remaining p q.
Proof. destruct p; simpl; try apply sublist_nil_l. apply sublist_skip, sublist_nil_l. Qed.

Lemma unwritten_remaining x p : unwritten x p `sublist_of` remaining p (x_queue x).
Proof. destruct p; simpl; try apply sublist_nil_l; try done. case_match; [apply sublist_nil_l|done]. Qed.

Lemma bystander_sub x x' p : bystander x x' -> exists new,
  unwritten x' p `sublist_of` unwritten x p ++ new /\ x_enqueued x' = x_enqueued x ++ new.
Proof.
  intros [_ _ Hp Hq].
  assert (exists new, remaining p (x_queue x') `sublist_of` remaining p (x_queue x) ++ new /\
    x_enqueued x' = x_enqueued x ++ new) as (new & Hsub & Henq).
  { destruct Hq as [-> ->|c -> -> _| -> -> _].
    - exists []. by rewrite !app_nil_r.
    - exists [c]. split; [apply remaining_append|done].
    - exists []. rewrite !app_nil_r. split; [apply remaining_nil|done]. }
  exists new. split; [|done]. destruct p; simpl in *; try done; try apply sublist_nil_l.
  destruct (x_pending x); [rewrite Hp by done; apply sublist_nil_l|].
  destruct (x_pending x'); [apply sublist_nil_l|done].
Qed.

(** While the session is open nothing is dropped. *)
Lemma queue_effect_open x x' p : queue_effect x x' -> x_closeErr x = None -> head_ok x p ->
  exists new, remaining p (x_queue x') = remaining p (x_queue x) ++ new /\
    x_enqueued x' = x_enqueued x ++ new /\ head_ok x' p.
Proof.
  intros [Hq ->|c Hq -> _|] Hopen Hh; [| |done]; unfold head_ok in *; rewrite Hq.
  - exists []. by rewrite !app_nil_r.
  - exists [c]. destruct p; simpl in *; try done; by destruct (x_queue x).
Qed.

Lemma queue_effect_len x x' : queue_effect x x' ->
  (length (x_queue x) <= maxQueuedOutgoingCapsules)%nat ->
  (length (x_queue x') <= maxQueuedOutgoingCapsules)%nat.
Proof. intros [-> _|c -> _ ?| -> _ _]; rewrite ?length_app; simpl; lia. Qed.

Lemma wire_bystander x x' p cs tl rest : wire x p cs tl rest -> bystander x x' ->
  exists rest', wire x' p cs tl rest'.
Proof.
  intros [Hd He Hs Ho Hl] Hby. destruct (bystander_sub _ _ p Hby) as (new & Hsub & Henq).
  destruct Hby as [Hd' Herr _ Hq].
  assert (x_closeErr x' = None -> x_closeErr x = None) as Hnone.
  { intros E. destruct (x_closeErr x) as [e|] eqn:E'; [|done]. rewrite (Herr e) in E; done. }
  assert (x_closeErr x' = None -> tl = [] ->
    cs ++ remaining p (x_queue x') = x_enqueued x' /\ head_ok x' p) as Ho'.
  { intros E Htl. destruct (Ho (Hnone E) Htl) as [Hcs Hh].
    destruct (queue_effect_open _ _ p Hq (Hnone E) Hh) as (new' & -> & -> & Hh').
    by rewrite app_assoc, Hcs. }
  assert (forall l, cs ++ l `sublist_of` x_enqueued x -> cs ++ l `sublist_of` x_enqueued x') as Hgrow.
  { intros l Hc. rewrite Henq. by apply sublist_inserts_r. }
  pose proof (queue_effect_len _ _ Hq Hl) as Hl'. rewrite <- Hd' in Hd.
  destruct He as [|c Hpc|code msg Hpc Hce].
  - exists (unwritten x' p). constructor; try done; [apply end_open|].
    rewrite Henq. etrans; [by apply sublist_app|]. rewrite app_assoc. by apply sublist_app.
  - exists [c]. constructor; try done; [by apply end_partial|by apply Hgrow].
  - exists []. constructor; try done; [apply end_close; auto|by apply Hgrow].
Qed.

Definition writing (p : writerPc) : bool :=
  match p with WClosing true _ | WDone => false | _ => true end.

Lemma stream_end_writing x p tl rest : writing p = true -> stream_end x p tl rest ->
  tl = [] /\ rest = unwritten x p.
Proof. intros Hp [|c Hc|]; [done|by destruct p as [| | | |[]| | |]|by subst]. Qed.

(** A step that writes nothing. *)
Lemma wire_move x x' p p' cs tl rest : writing p = true -> wire x p cs tl rest ->
  data x' = data x -> x_enqueued x' = x_enqueued x -> x_closeErr x' = x_closeErr x ->
  unwritten x' p' `sublist_of` unwritten x p ->
  (x_closeErr x = None -> head_ok x p ->
    remaining p' (x_queue x') = remaining p (x_queue x) /\ head_ok x' p') ->
  (length (x_queue x') <= length (x_queue x))%nat ->
  wire x' p' cs [] (unwritten x' p').
Proof.
  intros Hp [Hd He Hs Ho Hl] Ed Ee Ec Hsub Hopen Hlen.
  destruct (stream_end_writing _ _ _ _ Hp He) as [-> ->]. constructor.
  - by rewrite Ed.
  - apply end_open.
  - rewrite Ee. etrans; [|done]. by apply sublist_app.
  - rewrite Ec, Ee. intros E _. destruct (Ho E eq_refl) as [Hcs Hh].
    destruct (Hopen E Hh) as [-> ?]. done.
  - lia.
Qed.

Lemma wire_writer pick r x p x' p' cs tl rest : writer_ok x p -> wire x p cs tl rest ->
  (forall code msg, x_pending x = Some (code, msg) ->
    x_closeErr x = Some (ErrSession (mkSessionError false code msg))) ->
  writerStep pick r x p = Some (x', p') -> exists cs' tl' rest', wire x' p' cs' tl' rest'.
Proof.
  intros Hp Hw Hpend He. destruct p as [| |c| |part cl| |code msg|]; simpl in He.
  - exists cs, [], (unwritten x' p').
    destruct pick; [destruct (x_ctxDone x)|destruct (x_updated x)]; simplify_eq;
      (eapply wire_move; [|exact Hw|..]); try done; simpl; try apply sublist_nil_l; try lia.
    destruct (x_pending x); [apply sublist_nil_l|done].
  - exists cs, [], (unwritten x' p').
    destruct (x_pending x) as [[code msg]|] eqn:E; [|destruct (x_queue x) eqn:Eq]; simplify_eq;
      (eapply wire_move; [|exact Hw|..]); try done; simpl; rewrite ?E, ?Eq; done.
  - destruct Hw as [Hd Hend Hs Ho Hl]. destruct (stream_end_writing x (WWrite c) tl rest eq_refl Hend) as [-> ->].
    rewrite app_nil_r in Hd. simpl in *. destruct r; injection He as <- <-.
    + exists (cs ++ [c]), [], (tail (x_queue x)). constructor; simpl; try done.
      * by rewrite data_emit, Hd, fmap_app, app_nil_r.
      * apply end_open.
      * by rewrite <- app_assoc.
      * intros E _. rewrite <- app_assoc. destruct (Ho E eq_refl) as [Hcs Hh]. split; [done|].
        by destruct (x_queue x).
    + exists cs, [], []. constructor; simpl; try done.
      * by rewrite app_nil_r.
      * apply end_open.
      * etrans; [|done]. apply sublist_app; [done|apply sublist_nil_l].
      * intros E _. destruct (Ho E eq_refl) as [<- Hh]. split; [|done]. by destruct (x_queue x); simplify_eq/=.
    + exists cs, [EvPartial c], [c]. constructor; simpl; try done.
      * by rewrite data_emit, Hd.
      * by apply end_partial.
      * etrans; [|done]. apply sublist_app; [done|]. apply sublist_skip, sublist_nil_l.
  - exists cs, [], (unwritten x' p'). simplify_eq. (eapply wire_move; [|exact Hw|..]); try done; simpl.
    + destruct (x_pending x); [apply sublist_nil_l|]. by destruct (x_queue x).
    + destruct (x_queue x); simpl; lia.
  - destruct (returned cl) as [first|] eqn:Hf.
    + destruct part; simpl in He.
      * simplify_eq. destruct Hw as [Hd Hend Hs Ho Hl].
        exists cs, tl, rest. constructor; simpl; try done. destruct Hend; [|by apply end_partial|done].
        apply (end_open (upd_ctx x) WDone).
      * exists cs, [], (unwritten x' p'). destruct first; simplify_eq; (eapply wire_move; [|exact Hw|..]); try done; simpl; lia.
    + destruct (closeStep x cl) as [x1 cl1] eqn:E. simplify_eq.
      destruct (wire_bystander x x' (WClosing part cl) cs tl rest Hw) as [rest' [Hd Hend Hs Ho Hl]].
      { eapply closeStep_bystander; [apply Hp|done]. }
      exists cs, tl, rest'. constructor; try done.
      destruct Hend; [apply (end_open x' (WClosing part cl1))|by apply end_partial|done].
  - exists cs, [], (unwritten x' p').
    destruct (x_pending x) eqn:E; simplify_eq; (eapply wire_move; [|exact Hw|..]); try done; simpl; rewrite ?E; try done; lia.
  - destruct Hw as [Hd Hend Hs Ho Hl]. destruct (stream_end_writing x (WSendClose code msg) tl rest eq_refl Hend) as [-> ->].
    rewrite app_nil_r in Hd. simpl in *. pose proof (Hpend _ _ Hp) as Herr.
    destruct r; injection He as <- <-.
    + exists cs, [EvCloseCapsule code msg], []. constructor; simpl; try done; try congruence; [|by apply end_close].
      etrans; [exact (data_emit _ x)|by rewrite Hd].
    + exists cs, [], []. constructor; simpl; try done; try congruence; [|apply end_open].
      etrans; [exact (data_emit _ x)|by rewrite Hd].
    + exists cs, [], []. constructor; simpl; try done; try congruence; [|apply end_open].
      etrans; [exact (data_emit _ x)|by rewrite Hd].
  - done.
Qed.

Lemma wire_start : wire (w_x start) (w_writer start) [] [] [].
Proof. constructor; simpl; try done; [apply end_open|lia]. Qed.

Lemma wire_step w w' : inv w -> (exists cs tl rest, wire (w_x w) (w_writer w) cs tl rest) -> step w w' ->
  exists cs tl rest, wire (w_x w') (w_writer w') cs tl rest.
Proof.
  intros Hinv (cs & tl & rest & Hw) He. destruct He as [pick r w x p He|err t w x p p' Hl He|t p w Hl He|w]; simpl in *.
  - eapply wire_writer; [apply Hinv|done|apply Hinv|done].
  - edestruct wire_bystander as [rest' ?]; [done| |by eauto].
    eapply otherStep_bystander; [by eapply Hinv|done].
  - eauto.
  - edestruct (wire_bystander (w_x w) (upd_ctx (w_x w))) as [rest' ?]; [done| |by eauto].
    constructor; try done. by apply qe_same.
Qed.

Lemma wire_reachable w : reachable w -> exists cs tl rest, wire (w_x w) (w_writer w) cs tl rest.
Proof.
  intros H. assert (inv start /\ exists cs tl rest, wire (w_x start) (w_writer start) cs tl rest) as [Hi Hw].
  { split; [apply loops_inv_start|]. do 3 eexists. apply wire_start. }
  revert Hi Hw. induction H; [done|]. eauto using loops_inv_step, wire_step.
Qed.

(** ** Notifications

    [work] is what the writer must not sleep on, and [notifying] says which
    goroutines are about to notify it. *)

Section notifications.
Context (work : shared -> Prop) (notifying : pc -> bool).
Hypothesis otherStep_notify : forall err x p x' p', pc_ok x p -> otherStep err x p = Some (x', p') ->
  x_updated x' = true \/ notifying p' = true \/
  x_updated x' = x_updated x /\ notifying p = false /\ (work x' -> work x).
Hypothesis work_ctx : forall x, work (upd_ctx x) -> work x.
Hypothesis no_work : forall x, x_pending x = None -> x_queue x = [] -> ~ work x.

(** When the writer waits although there is work, it has been notified, or is
    about to be. *)
Definition notified (w : world) : Prop :=
  w_writer w = WSelect -> work (w_x w) ->
  x_updated (w_x w) = true \/ exists t p, w_others w !! t = Some p /\ notifying p = true.

Lemma notified_step w w' : inv w -> notified w -> step w w' -> notified w'.
Proof.
  intros Hinv Hn He. destruct He as [pick r w x p He|err t w x p p' Hl He|t p w Hl He|w]; unfold notified in *; simpl in *.
  - intros -> Hwork. destruct (w_writer w) as [| |c| |part cl| |code msg|]; simpl in He.
    + destruct pick; [by destruct (x_ctxDone _)|by destruct (x_updated _)].
    + destruct (x_pending (w_x w)) as [[??]|] eqn:E; [done|].
      destruct (x_queue (w_x w)) eqn:Eq; simplify_eq. by destruct (no_work (w_x w)).
    + by destruct r.
    + done.
    + destruct (returned cl) as [first|]; [by destruct (part || first)%bool|]. by destruct (closeStep _ _).
    + by destruct (x_pending _).
    + done.
    + done.
  - intros E Hwork. destruct (otherStep_notify _ _ _ _ _ (v_others _ Hinv _ _ Hl) He)
      as [?|[?|(Eu & Hp & Hw)]]; [by left| |].
    + right. exists t, p'. by rewrite lookup_insert_eq.
    + rewrite Eu. destruct (Hn E (Hw Hwork)) as [?|(t' & q & Hq & Hnq)]; [by left|right].
      exists t', q. split; [|done]. rewrite lookup_insert_ne; [done|]. intros ->. congruence.
  - intros E Hwork. destruct (Hn E Hwork) as [?|(t' & q & Hq & Hnq)]; [by left|right].
    exists t', q. split; [|done]. rewrite lookup_insert_ne; [done|]. intros ->. congruence.
  - intros E Hwork. auto.
Qed.

Lemma notified_reachable w : reachable w -> notified w.
Proof.
  intros H. assert (inv start /\ notified start) as [Hi Hn].
  { split; [apply loops_inv_start|]. intros _ Hw. by destruct (no_work (w_x start)). }
  revert Hi Hn. induction H; [done|]. eauto using loops_inv_step, notified_step.
Qed.

End notifications.

Definition closeNotifying (p : pc) : bool :=
  match p with OClosing _ cl => match cl_pc cl with CNotify => true | _ => false end | _ => false end.
Definition notifying (p : pc) : bool :=
  match p with ONotify => true | _ => closeNotifying p end.

Definition has_close (x : shared) : Prop := x_pending x <> None.
Definition has_work (x : shared) : Prop := x_queue x <> [] \/ has_close x.

Lemma closing_notify k cl x x' cl' : closing_ok x cl -> closeStep x cl = (x', cl') -> returned cl = None ->
  x_updated x' = true \/ closeNotifying (OClosing k cl') = true \/
  x_updated x' = x_updated x /\ closeNotifying (OClosing k cl) = false /\
  (has_close x' -> has_close x) /\ (has_work x' -> has_work x).
Proof.
  intros Hp He Hf. destruct cl as [ce cap [| | | |first]]; unfold closeStep in He; simpl in *; try done.
  - right; right. by destruct (x_closeErr x); simplify_eq; split_and!.
  - simplify_eq. destruct cap; [auto|]. right; right. unfold has_work, has_close. simpl. naive_solver.
  - simplify_eq. by left.
  - simplify_eq. right; right. by split_and!.
Qed.

Lemma otherStep_close err x p x' p' : pc_ok x p -> otherStep err x p = Some (x', p') ->
  x_updated x' = true \/ closeNotifying p' = true \/
  x_updated x' = x_updated x /\ closeNotifying p = false /\ (has_close x' -> has_close x).
Proof.
  intros Hp He. destruct p as [|c|c| |k cl| |]; simpl in He; simplify_eq; auto 10.
  - case_decide; simplify_eq; auto 10.
  - destruct (returned cl) as [first|] eqn:Hf.
    + apply returned_Some in Hf. right; right. simpl. rewrite Hf. destruct k; simplify_eq; auto.
    + destruct (closeStep x cl) as [x1 cl1] eqn:E. simplify_eq.
      destruct (closing_notify k cl x x' cl1 (proj1 Hp) E Hf) as [?|[?|(? & ? & ? & ?)]]; auto 10.
  - case_match; simplify_eq; auto 10.
Qed.

Lemma otherStep_work err x p x' p' : pc_ok x p -> otherStep err x p = Some (x', p') ->
  x_updated x' = true \/ notifying p' = true \/
  x_updated x' = x_updated x /\ notifying p = false /\ (has_work x' -> has_work x).
Proof.
  intros Hp He. destruct p as [|c|c| |k cl| |]; simpl in He; simplify_eq; auto 10.
  - case_decide; simplify_eq; auto 10.
  - destruct (returned cl) as [first|] eqn:Hf.
    + apply returned_Some in Hf. right; right. simpl. rewrite Hf. destruct k; simplify_eq; auto.
    + destruct (closeStep x cl) as [x1 cl1] eqn:E. simplify_eq.
      destruct (closing_notify k cl x x' cl1 (proj1 Hp) E Hf) as [?|[?|(? & ? & ? & ?)]]; auto 10.
  - case_match; simplify_eq; auto 10.
Qed.

Lemma close_notified w : reachable w -> notified has_close closeNotifying w.
Proof.
  apply notified_reachable; [apply otherStep_close|done|]. intros x E _ H. by destruct H.
Qed.

Lemma work_notified w : reachable w -> notified has_work notifying w.
Proof.
  apply notified_reachable; [apply otherStep_work|done|]. intros x E Eq [H|H]; by destruct H.
Qed.

(** ** Waiting in [CloseWithError] *)

(** The number of steps that the writer can still take once the close capsule
    is queued. *)
Definition rank (p : writerPc) : nat :=
  match p with
  | WDone => 0
  | WSendClose _ _ => 1
  | WTop => 2
  | WSelect | WPop | WRecheck => 3
  | WClosing _ cl => match cl_pc cl with CRet _ => 4 | CReset | CNotify => 5 | CQueue => 6 | CBegin => 7 end
  | WWrite _ => 8
  end.

Lemma rank_bound p : (rank p <= 8)%nat.
Proof. destruct p; simpl; try lia. case_match; lia. Qed.

Lemma rank_decreases pick r x p x' p' : has_close x -> writerStep pick r x p = Some (x', p') ->
  (rank p' < rank p)%nat.
Proof.
  unfold has_close. intros Hc He. destruct p as [| |c| |part cl| |code msg|]; simpl in He; simplify_eq; simpl; try lia.
  - destruct pick; [destruct (x_ctxDone x)|destruct (x_updated x)]; simplify_eq; simpl; lia.
  - destruct (x_pending x) as [[??]|]; simplify_eq; simpl; lia.
  - destruct r; simplify_eq; simpl; lia.
  - destruct (returned cl) as [first|] eqn:Hf.
    + apply returned_Some in Hf. rewrite Hf. destruct (part || first)%bool; simplify_eq; simpl; lia.
    + destruct cl as [ce cap [| | | |first]]; unfold closeStep in He; simpl in He; try done.
      * destruct (x_closeErr x); simplify_eq; simpl; lia.
      * destruct cap; simplify_eq; simpl; lia.
      * simplify_eq; simpl; lia.
      * simplify_eq; simpl; lia.
  - destruct (x_pending x); simplify_eq; simpl; lia.
Qed.

Definition waits (t : nat) (w : world) : Prop := w_others w !! t = Some OWaitCtx.

Lemma waits_close t w : inv w -> waits t w -> has_close (w_x w).
Proof. intros Hinv Hw. apply (v_others _ Hinv _ _ Hw). Qed.

Lemma closeNotifying_tok p : closeNotifying p = true -> tok p = 1.
Proof. destruct p; simpl; try done. by case_match. Qed.

(** The writer is never stuck. *)
Lemma waits_enabled t w : reachable w -> waits t w -> x_ctxDone (w_x w) = false ->
  exists pick, forall r, is_Some (writerStep pick r (w_x w) (w_writer w)).
Proof.
  intros Hr Hw Hctx. pose proof (loops_inv_reachable w Hr) as Hinv. pose proof (waits_close t w Hinv Hw) as Hc.
  pose proof (close_notified w Hr) as Hn. exists false. intros r.
  destruct (w_writer w) as [| |c| |part cl| |code msg|] eqn:E; simpl.
  - destruct (Hn E Hc) as [->|(t' & p & Hp & Hnp)]; [done|].
    pose proof (closeNotifying_tok p Hnp) as Htok. exfalso.
    assert (t <> t') as Hne by (intros ->; unfold waits in Hw; simplify_eq).
    pose proof (msum_insert tok (w_others w) t ODone OWaitCtx Hw) as E1.
    pose proof (tok_le (<[t:=ODone]> (w_others w)) t' p ltac:(by rewrite lookup_insert_ne)) as E2.
    pose proof (v_tok _ Hinv). pose proof (writerTok_range (w_writer w)). simpl in E1. lia.
  - by destruct (x_pending (w_x w)) as [[??]|].
  - by destruct r.
  - done.
  - destruct (returned cl) as [first|]; [by destruct (part || first)%bool|]. by destruct (closeStep _ _).
  - by destruct (x_pending (w_x w)).
  - done.
  - pose proof (v_writer _ Hinv) as Hwr. rewrite E in Hwr. simpl in Hwr. congruence.
Qed.

(** [run n w w']: from [w] to [w'], with [n] steps of the writer. *)
Inductive run : nat -> world -> world -> Prop :=
| run_nil w : run 0 w w
| run_writer n pick r w x p w' : writerStep pick r (w_x w) (w_writer w) = Some (x, p) ->
    run n (mkWorld x p (w_others w)) w' -> run (S n) w w'
| run_other n w w1 w' : step w w1 -> w_writer w1 = w_writer w -> run n w1 w' -> run n w w'.

Lemma has_close_step w w' : inv w -> step w w' -> has_close (w_x w) -> has_close (w_x w').
Proof.
  intros Hinv He Hc. destruct He as [pick r w x p He|err t w x p p' Hl He|t p w Hl He|w]; simpl; try done.
  - destruct (writerStep_ok _ _ _ _ _ _ (v_writer _ Hinv) He (v_pending _ Hinv)) as (_ & _ & [_ Hp _|? _ _ Hp _ _|? Hp ? ? ?]);
      [by unfold has_close; rewrite Hp..|done].
  - destruct (otherStep_ok _ _ _ _ _ (v_others _ Hinv _ _ Hl) He (v_pending _ Hinv)) as (_ & _ & [_ Hp _|? _ _ Hp _ _|? Hp ? ? ?]);
      [by unfold has_close; rewrite Hp..|done].
Qed.

Lemma waits_step t w w' : step w w' -> waits t w -> waits t w' \/ x_ctxDone (w_x w') = true.
Proof.
  unfold waits. intros He Hw. destruct He as [pick r w x p He|err t' w x p p' Hl He|t' p w Hl He|w]; simpl; auto.
  - destruct (decide (t' = t)) as [->|]; [|left; by rewrite lookup_insert_ne].
    simplify_eq. simpl in He. destruct (x_ctxDone (w_x w)) eqn:E; simplify_eq. auto.
  - left. rewrite lookup_insert_ne; [done|]. intros ->. congruence.
Qed.

Lemma ctx_step w w' : inv w -> step w w' -> x_ctxDone (w_x w) = true -> x_ctxDone (w_x w') = true.
Proof.
  intros Hinv He Hc. destruct He as [pick r w x p He|err t w x p p' Hl He|t p w Hl He|w]; simpl; try done.
  - by apply (writerStep_ok _ _ _ _ _ _ (v_writer _ Hinv) He (v_pending _ Hinv)).
  - by apply (otherStep_ok _ _ _ _ _ (v_others _ Hinv _ _ Hl) He (v_pending _ Hinv)).
Qed.

Lemma run_spec t n w w' : run n w w' -> reachable w -> has_close (w_x w) ->
  (waits t w \/ x_ctxDone (w_x w) = true) ->
  (n + rank (w_writer w') <= rank (w_writer w))%nat /\ reachable w' /\
  (waits t w' \/ x_ctxDone (w_x w') = true).
Proof.
  intros Hrun. induction Hrun as [w|n pick r w x p w' He Hrun IH|n w w1 w' He Ew Hrun IH]; intros Hr Hc Hw.
  - done.
  - pose proof (loops_inv_reachable w Hr) as Hinv. pose proof (step_writer pick r w x p He) as Hs.
    destruct IH as (Hrank & ? & ?); [by eapply rtc_r|by eapply has_close_step|by destruct Hw; [eapply waits_step|right; eapply ctx_step]|].
    split; [|done]. pose proof (rank_decreases _ _ _ _ _ _ Hc He). simpl in *. lia.
  - pose proof (loops_inv_reachable w Hr) as Hinv. rewrite <- Ew.
    apply IH; [by eapply rtc_r|by eapply has_close_step|by destruct Hw; [eapply waits_step|right; eapply ctx_step]].
Qed.

(** ** Executing a schedule *)

Inductive action : Type :=
| AWriter (pick : bool) (r : writeResult)
| AOther (err : error) (t : nat)
| AQueue (t : nat) (c : capsule)
| ACloseWithError (t : nat) (code : Z) (msg : gostring)
| ACancel.

Definition perform (a : action) (w : world) : option world :=
  match a with
  | AWriter pick r =>
      '(x, p) ← writerStep pick r (w_x w) (w_writer w); Some (mkWorld x p (w_others w))
  | AOther err t =>
      p ← w_others w !! t; '(x, p) ← otherStep err (w_x w) p;
      Some (mkWorld x (w_writer w) (<[t := p]> (w_others w)))
  | AQueue t c =>
      match w_others w !! t with
      | Some _ => None
      | None => Some (mkWorld (w_x w) (w_writer w) (<[t := OQueue c]> (w_others w)))
      end
  | ACloseWithError t code msg =>
      match w_others w !! t with
      | Some _ => None
      | None => Some (mkWorld (w_x w) (w_writer w) (<[t := OClosing KCloseWithError
          (mkClosing (ErrSession (mkSessionError false code msg)) (Some (code, msg)) CBegin)]> (w_others w)))
      end
  | ACancel => Some (mkWorld (upd_ctx (w_x w)) (w_writer w) (w_others w))
  end.

Definition performs (l : list action) : option world :=
  foldl (fun o a => w ← o; perform a w) (Some start) l.

Lemma perform_step a w w' : perform a w = Some w' -> step w w'.
Proof.
  destruct a as [pick r|err t|t c|t code msg|]; simpl; intros He.
  - destruct (writerStep _ _ _ _) as [[x p]|] eqn:E; simplify_eq/=. by eapply step_writer.
  - destruct (w_others w !! t) as [p|] eqn:E; simpl in He; [|done].
    destruct (otherStep _ _ _) as [[x p']|] eqn:E'; simplify_eq/=. by eapply step_other.
  - destruct (w_others w !! t) eqn:E; simplify_eq/=. by apply step_enter; [|constructor].
  - destruct (w_others w !! t) eqn:E; simplify_eq/=. by apply step_enter; [|constructor].
  - simplify_eq. apply step_cancel.
Qed.

Lemma performs_reachable l w : performs l = Some w -> reachable w.
Proof.
  unfold performs. revert w. induction l as [|a l IH] using rev_ind; intros w He.
  - simplify_eq/=. apply rtc_refl.
  - rewrite foldl_app in He. simpl in He. destruct (foldl _ _ l) as [w0|] eqn:E; simpl in He; [|done].
    eapply rtc_r; [by apply IH|by eapply perform_step].
Qed.

(** The writer is in [Write] with the second capsule when the session is closed. *)
Definition exampleRun : list action :=
  let other t := AOther ErrEOF t in
  [AQueue 1 (maxDataCapsule 10); other 1%nat; other 1%nat; other 1%nat;
   AWriter false WroteAll; AWriter false WroteAll; AWriter false WroteAll; AWriter false WroteAll;
   AQueue 2 (maxDataCapsule 20); other 2%nat; other 2%nat;
   AWriter false WroteAll; ACloseWithError 3 7 (str "bye");
   other 3%nat; other 3%nat; other 3%nat; other 3%nat].

(** ** Theorems *)

(** C9: what the peer sees on the CONNECT stream, under every interleaving of the
    writer, the reader, and the goroutines that queue capsules and close the
    session. The capsules that are written completely are a subsequence of those
    that were queued: in order, each at most once. Behind them comes nothing, or
    the beginning of one more queued capsule after which nothing is ever written,
    or a single WT_CLOSE_SESSION with the code and message of the call of
    [CloseWithError] that closed the session. As long as the session is open, the
    queue is exactly what was queued and not written. It never exceeds 4096. *)
Theorem connect_stream_order (w : world) : reachable w ->
  exists cs tl, data (w_x w) = (EvCapsule <$> cs) ++ tl /\
    (tl = [] /\ cs `sublist_of` x_enqueued (w_x w) \/
     (exists c, tl = [EvPartial c] /\ cs ++ [c] `sublist_of` x_enqueued (w_x w) /\
        (w_writer w = WDone \/ exists cl, w_writer w = WClosing true cl)) \/
     (exists code msg, tl = [EvCloseCapsule code msg] /\ cs `sublist_of` x_enqueued (w_x w) /\
        x_closeErr (w_x w) = Some (ErrSession (mkSessionError false code msg)) /\ w_writer w = WDone)) /\
    (x_closeErr (w_x w) = None -> tl = [] -> cs ++ remaining (w_writer w) (x_queue (w_x w)) = x_enqueued (w_x w)) /\
    (length (x_queue (w_x w)) <= maxQueuedOutgoingCapsules)%nat.
Proof.
  intros H. destruct (wire_reachable w H) as (cs & tl & rest & [Hd He Hs Ho Hl]).
  exists cs, tl. split; [done|]. split; [|split; [|done]].
  - destruct He as [|c Hp|code msg Hp Herr].
    + left. split; [done|]. etrans; [|done]. by apply sublist_inserts_r.
    + right; left. exists c. split_and!; try done. destruct (w_writer w) as [| | | |[] cl| | |]; eauto; done.
    + right; right. exists code, msg. rewrite app_nil_r in Hs. by split_and!.
  - intros Hopen Htl. by apply Ho.
Qed.

Lemma connect_stream_order_witness :
  match performs (exampleRun ++ [AWriter false WroteAll; AWriter false WroteAll; AWriter false WroteAll; AWriter false WroteAll]) with
  | Some w => data (w_x w) = [EvCapsule (maxDataCapsule 10); EvCapsule (maxDataCapsule 20); EvCloseCapsule 7 (str "bye")] /\
      (length (x_queue (w_x w)) <= maxQueuedOutgoingCapsules)%nat
  | None => False
  end.
Proof.
  destruct (performs (exampleRun ++ _)) as [w|] eqn:E; [|by vm_compute in E].
  split; [vm_compute in E; injection E as <-; reflexivity|].
  destruct (connect_stream_order w (performs_reachable _ _ E)) as (cs & tl & _ & _ & _ & Hl). exact Hl.
Defined.

(** C18: no capsule is forgotten. In a session that is open, when the writer waits,
    has no notification, and no goroutine is about to send one, every capsule that
    was ever queued is on the stream, in the order of queueing. *)
Theorem capsules_delivered (w : world) : reachable w ->
  x_closeErr (w_x w) = None -> w_writer w = WSelect -> x_updated (w_x w) = false ->
  (forall t p, w_others w !! t = Some p -> notifying p = false) ->
  data (w_x w) = EvCapsule <$> x_enqueued (w_x w) /\ x_queue (w_x w) = [].
Proof.
  intros H Hopen Hw Hu Hn. destruct (wire_reachable w H) as (cs & tl & rest & [Hd He Hs Ho Hl]).
  assert (x_queue (w_x w) = []) as Hq.
  { destruct (x_queue (w_x w)) as [|c q] eqn:Eq; [done|].
    destruct (work_notified w H Hw) as [?|(t & p & Hp & ?)]; [left; congruence|congruence|].
    by rewrite (Hn t p Hp) in *. }
  split; [|done]. rewrite Hw in *.
  assert (tl = []) as -> by (destruct He; done). destruct (Ho Hopen eq_refl) as [Hcs _].
  simpl in Hcs. rewrite Hq, app_nil_r in Hcs. by rewrite Hd, app_nil_r, Hcs.
Qed.

Lemma capsules_delivered_witness :
  match performs (take 8 exampleRun ++ [AWriter false WroteAll]) with
  | Some w => data (w_x w) = EvCapsule <$> x_enqueued (w_x w) /\ x_queue (w_x w) = []
  | None => False
  end.
Proof.
  destruct (performs (take 8 exampleRun ++ [AWriter false WroteAll])) as [w|] eqn:E; [|by vm_compute in E].
  apply (capsules_delivered w (performs_reachable _ _ E)); vm_compute in E; injection E as <-;
    [reflexivity..|].
  apply (bool_decide_unpack (map_Forall (fun _ p => notifying p = false) _)). reflexivity.
Defined.


