(* ===== verification/Origin.v ===== *)
(** * The origin check of the server ([server.go])

    [checkSameOrigin] and [equalASCIIFold], which compares hosts rune by rune,
    ignoring the case of ASCII letters. The specification compares bytes. *)

From S2P Require Import Prelude Errors Utf8.

(** ** The comparison *)

(** [if 'A' <= r && r <= 'Z' { r = r + 'a' - 'A' }] *)
Definition foldRune (r : Z) : Z := if decide (65 <= r <= 90) then r + 97 - 65 else r.

(** [None] when the fuel runs out. *)
Fixpoint equalASCIIFold (fuel : nat) (s t : gostring) : option bool :=
  match s, t with
  | [], _ | _, [] => Some (bool_decide (s = t))
  | _, _ =>
      match fuel with
      | O => None
      | S fuel =>
          let '(sr, size) := DecodeRune s in
          let s := drop size s in
          let '(tr, size) := DecodeRune t in
          let t := drop size t in
          if decide (sr = tr) then equalASCIIFold fuel s t
          else if decide (foldRune sr = foldRune tr) then equalASCIIFold fuel s t
          else Some false
      end
  end.

Definition foldFuel (s : gostring) : nat := S (length s).

(** [origin] is [r.Header.Get("Origin")], [host] is [r.Host], and [parseHost]
    the [Host] that [url.Parse] finds. *)
Definition checkSameOrigin (parseHost : gostring -> result error gostring) (origin host : gostring)
  : option bool :=
  if decide (origin = []) then Some true
  else
    match parseHost origin with
    | Err _ => Some false
    | Ok uHost => equalASCIIFold (foldFuel uHost) uHost host
    end.

(** ** Specification: lower-case ASCII letters *)

Definition lowerByte (b : byte) : byte := if between 65 90 b then byte_of (byte_val b + 32) else b.
Definition lower (s : gostring) : gostring := lowerByte <$> s.

(** [utf8.EncodeRune] for the runes that occur. *)
Definition encodeRune (r : Z) : gostring :=
  if decide (r < 0x80) then [byte_of r]
  else if decide (r < 0x800) then [byte_of (0xC0 + r / 64); byte_of (0x80 + r mod 64)]
  else if decide (r < 0x10000) then
    [byte_of (0xE0 + r / 64 / 64); byte_of (0x80 + r / 64 mod 64); byte_of (0x80 + r mod 64)]
  else [byte_of (0xF0 + r / 64 / 64 / 64); byte_of (0x80 + r / 64 / 64 mod 64);
        byte_of (0x80 + r / 64 mod 64); byte_of (0x80 + r mod 64)].

(** ** Lemmas on bytes *)

Lemma lowerByte_val b : byte_val (lowerByte b) = foldRune (byte_val b).
Proof. by destruct b. Qed.

(** Nothing else than the letters is affected. *)
Lemma lowerByte_between lo hi b : 90 < lo \/ hi < 65 -> 122 < lo \/ hi < 97 ->
  between lo hi (lowerByte b) = between lo hi b.
Proof.
  intros. unfold between. apply bool_decide_ext. rewrite lowerByte_val. unfold foldRune.
  case_decide; lia.
Qed.

Lemma lowerByte_high b : between 0x80 0xFF b = true -> lowerByte b = b.
Proof. by destruct b. Qed.

Lemma cont_high b : cont b = true -> between 0x80 0xFF b = true.
Proof. unfold cont, between. rewrite !bool_decide_eq_true. lia. Qed.

Lemma cont_lower b : cont (lowerByte b) = cont b.
Proof. apply lowerByte_between; lia. Qed.

Lemma low6_lower b : cont b = true -> low6 (lowerByte b) = low6 b.
Proof. intros H. by rewrite lowerByte_high by by apply cont_high. Qed.

Lemma second3_lower b0 b1 : second3 b0 (lowerByte b1) = second3 b0 b1.
Proof. unfold second3. repeat case_decide; try apply cont_lower; apply lowerByte_between; lia. Qed.

Lemma second4_lower b0 b1 : second4 b0 (lowerByte b1) = second4 b0 b1.
Proof. unfold second4. repeat case_decide; try apply cont_lower; apply lowerByte_between; lia. Qed.

(** ** Runes of more than one byte *)

Lemma between_spec lo hi b : between lo hi b = true <-> lo <= byte_val b <= hi.
Proof. apply bool_decide_eq_true. Qed.

Lemma cont_low6 b : cont b = true -> byte_val b = 0x80 + low6 b /\ 0 <= low6 b < 64.
Proof. unfold cont, low6. rewrite between_spec. lia. Qed.

Lemma rune2 b0 b1 : between 0xC2 0xDF b0 = true -> cont b1 = true ->
  let r := byte_val b0 mod 32 * 64 + low6 b1 in 0x80 <= r /\ encodeRune r = [b0; b1].
Proof.
  rewrite between_spec. intros H0 [E1 H1]%cont_low6 r.
  assert (0x80 <= r < 0x800) as Hr by (subst r; lia). split; [lia|]. unfold encodeRune.
  rewrite decide_False, decide_True by lia.
  rewrite <- (byte_of_val b0), <- (byte_of_val b1). subst r. repeat f_equal; lia.
Qed.

Lemma rune3 b0 b1 b2 : between 0xE0 0xEF b0 = true -> second3 b0 b1 && cont b2 = true ->
  let r := (byte_val b0 mod 16 * 64 + low6 b1) * 64 + low6 b2 in 0x80 <= r /\ encodeRune r = [b0; b1; b2].
Proof.
  rewrite between_spec. intros H0 [H1 [E2 H2]%cont_low6]%andb_true_iff r.
  pose proof (cont_low6 b1 (second3_cont _ _ H1)) as [E1 Hb1].
  assert (byte_val b0 = 0xE0 -> 0xA0 <= byte_val b1) as Hover.
  { intros E. unfold second3 in H1. rewrite decide_True in H1 by done. apply between_spec in H1. lia. }
  assert (0x800 <= r < 0x10000) as Hr by (subst r; lia). split; [lia|]. unfold encodeRune.
  rewrite !decide_False, decide_True by lia.
  rewrite <- (byte_of_val b0), <- (byte_of_val b1), <- (byte_of_val b2). subst r. repeat f_equal; lia.
Qed.

Lemma rune4 b0 b1 b2 b3 : between 0xF0 0xF4 b0 = true -> second4 b0 b1 && cont b2 && cont b3 = true ->
  let r := ((byte_val b0 mod 8 * 64 + low6 b1) * 64 + low6 b2) * 64 + low6 b3 in
  0x80 <= r /\ encodeRune r = [b0; b1; b2; b3].
Proof.
  rewrite between_spec. intros H0 [[H1 [E2 H2]%cont_low6]%andb_true_iff [E3 H3]%cont_low6]%andb_true_iff r.
  pose proof (cont_low6 b1 (second4_cont _ _ H1)) as [E1 Hb1].
  assert (byte_val b0 = 0xF0 -> 0x90 <= byte_val b1) as Hover.
  { intros E. unfold second4 in H1. rewrite decide_True in H1 by done. apply between_spec in H1. lia. }
  assert (0x10000 <= r) as Hr by (subst r; lia). split; [lia|]. unfold encodeRune.
  rewrite !decide_False by lia.
  rewrite <- (byte_of_val b0), <- (byte_of_val b1), <- (byte_of_val b2), <- (byte_of_val b3).
  subst r. repeat f_equal; lia.
Qed.

(** ** Decoding lower-case strings *)

Lemma foldRune_high r : 0x80 <= r -> foldRune r = r.
Proof. intros. unfold foldRune. rewrite decide_False; lia. Qed.

Lemma DecodeRune_lower s :
  DecodeRune (lower s) = (foldRune (DecodeRune s).1, (DecodeRune s).2).
Proof.
  destruct s as [|b0 s1]; [done|]. unfold DecodeRune, lower; simpl fmap. cbn beta iota.
  rewrite (lowerByte_between 0xC2), (lowerByte_between 0xE0), (lowerByte_between 0xF0) by lia.
  assert (between 0 127 (lowerByte b0) = between 0 127 b0) as -> by by destruct b0.
  destruct (between 0 127 b0) eqn:E0; [by rewrite lowerByte_val|].
  assert (lowerByte b0 = b0) as -> by by destruct b0.
  destruct (between 0xC2 0xDF b0) eqn:E2; [|destruct (between 0xE0 0xEF b0) eqn:E3;
    [|destruct (between 0xF0 0xF4 b0) eqn:E4; [|done]]].
  - destruct s1 as [|b1 s1]; [done|]. simpl. rewrite cont_lower. destruct (cont b1) eqn:E; [|done].
    simpl. rewrite low6_lower, foldRune_high by (done || by apply rune2). done.
  - destruct s1 as [|b1 [|b2 s1]]; [done..|]. simpl. rewrite second3_lower, cont_lower.
    destruct (second3 b0 b1 && cont b2) eqn:E; [|done]. pose proof (rune3 b0 b1 b2 E3 E) as [? _].
    apply andb_true_iff in E as [? ?]. simpl.
    rewrite !low6_lower, foldRune_high by (done || by eapply second3_cont). done.
  - destruct s1 as [|b1 [|b2 [|b3 s1]]]; [done..|]. simpl. rewrite second4_lower, !cont_lower.
    destruct (second4 b0 b1 && cont b2 && cont b3) eqn:E; [|done]. pose proof (rune4 b0 b1 b2 b3 E4 E) as [? _].
    apply andb_true_iff in E as [[? ?]%andb_true_iff ?]. simpl.
    rewrite !low6_lower, foldRune_high by (done || by eapply second4_cont). done.
Qed.

(** The encoding of one rune, in front of anything. *)
Lemma is_char_DecodeRune c : is_char c = true ->
  exists r, (forall s, DecodeRune (c ++ s) = (r, length c)) /\ encodeRune r = c.
Proof.
  unfold is_char. destruct c as [|b0 c]; [done|]. unfold DecodeRune; simpl app; cbn beta iota.
  destruct (between 0 127 b0) eqn:E1.
  { destruct c as [|? ?]; [|done]. intros _. exists (byte_val b0). split; [done|].
    apply between_spec in E1. unfold encodeRune. rewrite decide_True by lia. by rewrite byte_of_val. }
  destruct (between 0xC2 0xDF b0) eqn:E2; [|destruct (between 0xE0 0xEF b0) eqn:E3;
    [|destruct (between 0xF0 0xF4 b0) eqn:E4; [|by destruct c]]].
  - destruct c as [|b1 [|? ?]]; simpl; [done| |by destruct (cont b1)].
    destruct (cont b1) eqn:E; [|done]. intros _. eexists. split; [done|]. by apply rune2.
  - destruct c as [|b1 [|b2 [|? ?]]]; simpl; [done..| |by destruct (_ && _)].
    destruct (second3 b0 b1 && cont b2) eqn:E; [|done]. intros _. eexists. split; [done|]. by apply rune3.
  - destruct c as [|b1 [|b2 [|b3 [|? ?]]]]; simpl; [done..| |by destruct (_ && _ && _)].
    destruct (second4 b0 b1 && cont b2 && cont b3) eqn:E; [|done]. intros _. eexists. split; [done|].
    by apply rune4.
Qed.

Lemma foldRune_RuneError r : foldRune r = RuneError -> r = RuneError.
Proof. unfold foldRune, RuneError. case_decide; lia. Qed.

Lemma is_char_lower c : is_char c = true -> is_char (lower c) = true.
Proof.
  unfold is_char. rewrite DecodeRune_lower. destruct (DecodeRune c) as [r n]; simpl.
  assert (length (lower c) = length c) as -> by apply length_fmap.
  intros [[-> ->]%andb_true_iff Hr%negb_true_iff%bool_decide_eq_false]%andb_true_iff; simpl.
  apply negb_true_iff, bool_decide_eq_false. intros [?%foldRune_RuneError ?]. by apply Hr.
Qed.

(** A valid string begins with the encoding of its first rune. *)
Lemma Valid_DecodeRune s : Valid s -> s <> [] -> exists r c s',
  s = c ++ s' /\ Valid s' /\ DecodeRune s = (r, length c) /\ lower c = encodeRune (foldRune r).
Proof.
  intros [|c s' Hc Hv] Hne; [done|]. destruct (is_char_DecodeRune c Hc) as (r & Hr & _).
  exists r, c, s'. split_and!; try done.
  destruct (is_char_DecodeRune (lower c) (is_char_lower c Hc)) as (r2 & Hr2 & <-).
  specialize (Hr []). specialize (Hr2 []). rewrite app_nil_r in *.
  rewrite DecodeRune_lower, Hr in Hr2. by simplify_eq/=.
Qed.

Lemma DecodeRune_width s : s <> [] -> (1 <= (DecodeRune s).2)%nat.
Proof.
  destruct s as [|b0 s]; [done|]. intros _. unfold DecodeRune. repeat (case_match; simpl; try lia).
Qed.

Lemma equalASCIIFold_step fuel s t : s <> [] -> t <> [] ->
  equalASCIIFold (S fuel) s t =
    (if decide (foldRune (DecodeRune s).1 = foldRune (DecodeRune t).1)
     then equalASCIIFold fuel (drop (DecodeRune s).2 s) (drop (DecodeRune t).2 t) else Some false).
Proof.
  intros Hs Ht. destruct s as [|b s], t as [|b' t]; try done. cbn [equalASCIIFold].
  destruct (DecodeRune (b :: s)) as [sr n], (DecodeRune (b' :: t)) as [tr m]. cbn.
  destruct (decide (sr = tr)) as [->|]; [by rewrite decide_True|done].
Qed.

Lemma equalASCIIFold_end fuel s t : s = [] \/ t = [] ->
  equalASCIIFold fuel s t = Some (bool_decide (s = t)).
Proof. by intros [-> | ->]; destruct fuel; [..|destruct s|destruct s]. Qed.

Lemma lower_drop n s : lower (drop n s) = drop n (lower s).
Proof. apply fmap_drop. Qed.

(** Enough fuel for the first string is enough. *)
Lemma equalASCIIFold_total fuel s t : (length s < fuel)%nat -> exists b,
  equalASCIIFold fuel s t = Some b /\ (lower s = lower t -> b = true) /\
  (Valid s -> Valid t -> b = true -> lower s = lower t).
Proof.
  revert s t. induction fuel as [|fuel IH]; intros s t Hf; [lia|].
  destruct (decide (s = [] \/ t = [])) as [He|He].
  { rewrite equalASCIIFold_end by done. eexists. split; [done|]. rewrite bool_decide_eq_true.
    split; [|by intros _ _ ->]. by destruct He as [-> | ->]; [destruct t|destruct s]. }
  assert (s <> [] /\ t <> []) as [Hs Ht] by tauto. rewrite equalASCIIFold_step by done.
  pose proof (DecodeRune_width s Hs) as Hw. case_decide as Hfold.
  2: { exists false. split_and!; try done. intros E.
       pose proof (DecodeRune_lower s) as E1. rewrite E, DecodeRune_lower in E1. by simplify_eq/=. }
  destruct (IH (drop (DecodeRune s).2 s) (drop (DecodeRune t).2 t)) as (b & -> & Hc & Hb).
  { rewrite length_drop. destruct s; [done|]. simpl in *. lia. }
  exists b. split; [done|]. split.
  - intros E. apply Hc. rewrite !lower_drop, E.
    pose proof (DecodeRune_lower s) as E1. rewrite E, DecodeRune_lower in E1. by injection E1 as _ ->.
  - intros Hvs Hvt Htrue.
    destruct (Valid_DecodeRune s Hvs Hs) as (r & c & s' & -> & Hs' & Er & Hl).
    destruct (Valid_DecodeRune t Hvt Ht) as (r' & c' & t' & -> & Ht' & Er' & Hl').
    rewrite Er, Er' in *. simpl in *. rewrite !drop_app_length in Hb.
    unfold lower in *. rewrite !fmap_app, Hl, Hl', Hfold, Hb; done.
Qed.

(** What acceptance means on valid UTF-8. *)
Lemma checkSameOrigin_sound parseHost origin host : Valid host ->
  (forall u, parseHost origin = Ok u -> Valid u) -> checkSameOrigin parseHost origin host = Some true ->
  origin = [] \/ exists u, parseHost origin = Ok u /\ lower u = lower host.
Proof.
  unfold checkSameOrigin. intros Hv Hvu. case_decide as Ho; [by left|].
  destruct (parseHost origin) as [u|e]; [|done]. intros He. right. exists u. split; [done|].
  destruct (equalASCIIFold_total (foldFuel u) u host) as (b & E & _ & Hb); [unfold foldFuel; lia|].
  rewrite E in He. simplify_eq. auto.
Qed.

(** ** Theorems *)

(** C36: the same-origin check. It always terminates. On valid UTF-8 it accepts a
    request exactly when it has no Origin header, or the host of the origin and
    the host of the request are equal byte by byte after lower-casing the ASCII
    letters. On arbitrary bytes it still accepts all such hosts. An origin that
    does not parse is refused. *)
Theorem checkSameOrigin_spec (parseHost : gostring -> result error gostring) (origin host : gostring) :
  exists b, checkSameOrigin parseHost origin host = Some b /\
    (origin = [] \/ (exists u, parseHost origin = Ok u /\ lower u = lower host) -> b = true) /\
    (Valid host -> (forall u, parseHost origin = Ok u -> Valid u) ->
     b = true -> origin = [] \/ exists u, parseHost origin = Ok u /\ lower u = lower host).
Proof.
  unfold checkSameOrigin. case_decide as Ho; [exists true; by split_and!; auto|].
  destruct (parseHost origin) as [u|e]; [|exists false; by naive_solver].
  destruct (equalASCIIFold_total (foldFuel u) u host) as (b & -> & Hc & Hb); [unfold foldFuel; lia|].
  exists b. split; [done|]. split.
  - intros [?|(u' & [= <-] & ?)]; [done|auto].
  - intros Hv Hvu ->. right. exists u. split; [done|]. auto.
Qed.

(** Two different invalid strings count as equal. *)
Lemma equalASCIIFold_invalid :
  equalASCIIFold (foldFuel [byte_of 0x80]) [byte_of 0x80] [byte_of 0xFF] = Some true /\
  lower [byte_of 0x80] <> lower [byte_of 0xFF].
Proof. by split. Qed.
