(* ===== verification/Negotiation.v ===== *)
(** * Negotiating the application protocol ([server.go], [client_conn.go])

    The client offers a list of protocols in the header WT-Available-Protocols
    of its request, the server selects one and returns it in WT-Protocol, and
    the client checks the answer. Structured fields are parsed and serialised by
    [github.com/dunglas/httpsfv], which is an interface with laws here. A header
    is the list of its values; an absent one is the empty list. *)

From S2P Require Import Prelude Errors.

(** ** The structured field library *)

(** The values, as far as the package tells them apart: [i.Value.(string)]
    and [item.(httpsfv.Item)]. *)
Inductive bareItem : Type :=
| SFString (s : gostring)
| SFOther.

Inductive member : Type :=
| SFItem (v : bareItem)
| SFInnerList.

(** [MarshalList] is [Marshal] of a list of string items, [MarshalItem] of one. *)
Class StructuredFields := {
  UnmarshalList : list gostring -> result error (list member);
  UnmarshalItem : list gostring -> result error bareItem;
  MarshalList : list gostring -> result error gostring;
  MarshalItem : gostring -> result error gostring;
}.

(** An absent list is the empty list, and a list can be serialised exactly if
    its members can. *)
Class StructuredFieldsLaws `(!StructuredFields) := {
  UnmarshalList_absent : UnmarshalList [] = Ok [];
  MarshalItem_member l h s : MarshalList l = Ok h -> s ∈ l -> exists v, MarshalItem s = Ok v;
  UnmarshalList_MarshalList l h : MarshalList l = Ok h ->
    UnmarshalList [h] = Ok ((fun s => SFItem (SFString s)) <$> l);
  UnmarshalItem_MarshalItem s h : MarshalItem s = Ok h -> UnmarshalItem [h] = Ok (SFString s);
}.

(** The verb [%q] of [fmt]. *)
Class GoQuote := quoted : gostring -> gostring.

Section negotiation.
Context `{ET : !ErrorText} `{SF : !StructuredFields} `{Q : !GoQuote}.

(** ** Server *)

(** The loop that collects the offers; [None] when a member is not a string. *)
Fixpoint collectOffered (list_ : list member) (offered : list gostring) : option (list gostring) :=
  match list_ with
  | [] => Some offered
  | SFItem (SFString protocol) :: list_ => collectOffered list_ (offered ++ [protocol])
  | _ => None
  end.

(** The second loop, up to the [break]. *)
Fixpoint firstSupported (supported offered : list gostring) : gostring :=
  match offered with
  | [] => []
  | p :: offered => if decide (p ∈ supported) then p else firstSupported supported offered
  end.

Definition selectProtocol (supported : list gostring) (theirs : list gostring) : gostring :=
  match UnmarshalList theirs with
  | Err _ => []
  | Ok list_ =>
      match collectOffered list_ [] with
      | None => []
      | Some offered => firstSupported supported offered
      end
  end.

(** The values of WT-Protocol in the response; [header] is what the handler has
    set before. *)
Definition answerHeader (selectedProtocol : gostring) (header : list gostring) : result error (list gostring) :=
  if decide (selectedProtocol = []) then Ok header
  else
    match MarshalItem selectedProtocol with
    | Err err => Err (ErrWrap (str "failed to marshal selected protocol: " ++ Error err) err)
    | Ok v => Ok (header ++ [v])
    end.

(** ** Client *)

(** [Header.Get] *)
Definition getHeader (header : list gostring) : gostring := default [] (head header).

(** The values of WT-Available-Protocols in the request. *)
Definition offerHeader (applicationProtocols header : list gostring) : result error (list gostring) :=
  if decide (0 < length applicationProtocols /\ getHeader header = [])%nat then
    match MarshalList applicationProtocols with
    | Err err => Err (ErrWrap (str "failed to marshal application protocols: " ++ Error err) err)
    | Ok protocols => Ok [protocols]
    end
  else Ok header.

Definition negotiateProtocol (applicationProtocols theirs : list gostring) : result error gostring :=
  match UnmarshalItem theirs with
  | Err err => Err (ErrWrap (str "webtransport: invalid WT-Protocol header: " ++ Error err) err)
  | Ok SFOther => Err (ErrNew (str "webtransport: invalid WT-Protocol header: value is not a string"))
  | Ok (SFString negotiatedProtocol) =>
      if decide (negotiatedProtocol ∈ applicationProtocols) then Ok negotiatedProtocol
      else Err (ErrNew (str "webtransport: server selected application protocol " ++
                        quoted negotiatedProtocol ++ str " that wasn't offered"))
  end.

(** What [dial] does with the header of the response: WT-Protocol may be
    absent. *)
Definition responseProtocol (applicationProtocols theirs : list gostring) : result error gostring :=
  match theirs with
  | [] => Ok []
  | _ => negotiateProtocol applicationProtocols theirs
  end.

(** ** Lemmas *)

Lemma collectOffered_strings l acc :
  collectOffered ((fun s => SFItem (SFString s)) <$> l) acc = Some (acc ++ l).
Proof.
  revert acc. induction l as [|p l IH]; intros acc; simpl; [by rewrite app_nil_r|].
  by rewrite IH, <- app_assoc.
Qed.

(** The protocols that both sides know, in the order of the offer. *)
Definition common (supported offered : list gostring) : list gostring :=
  filter (fun p => p ∈ supported) offered.

Lemma firstSupported_common supported offered :
  firstSupported supported offered = default [] (head (common supported offered)).
Proof.
  unfold common. induction offered as [|p offered IH]; [done|]. simpl. rewrite filter_cons.
  by case_decide.
Qed.

Lemma firstSupported_in supported offered :
  firstSupported supported offered = [] \/
  firstSupported supported offered ∈ supported /\ firstSupported supported offered ∈ offered.
Proof.
  induction offered as [|p offered IH]; simpl; [by left|]. case_decide; [set_solver|]. set_solver.
Qed.

Lemma selectProtocol_supported supported theirs :
  selectProtocol supported theirs = [] \/ selectProtocol supported theirs ∈ supported.
Proof.
  unfold selectProtocol. destruct (UnmarshalList theirs) as [l|e]; [|by left].
  destruct (collectOffered l []) as [offered|]; [|by left].
  destruct (firstSupported_in supported offered) as [?|[? _]]; auto.
Qed.

End negotiation.

(** ** An implementation of the interface

    Every string is followed by a comma; strings with commas are refused. *)

Module CommaSeparated.

Definition comma : byte := byte_of 44.

Definition marshal (l : list gostring) : result error gostring :=
  if decide (Forall (fun s => comma ∉ s) l) then Ok (concat ((fun s => s ++ [comma]) <$> l))
  else Err (ErrNew []).

Fixpoint split (s cur : gostring) : list gostring :=
  match s with
  | [] => []
  | b :: s => if decide (b = comma) then cur :: split s [] else split s (cur ++ [b])
  end.

#[export] Instance fields : StructuredFields := {|
  UnmarshalList := fun h => Ok ((fun s => SFItem (SFString s)) <$> split (concat h) []);
  UnmarshalItem := fun h => match split (concat h) [] with [s] => Ok (SFString s) | _ => Ok SFOther end;
  MarshalList := marshal;
  MarshalItem := fun s => marshal [s];
|}.

Lemma split_cons b s cur :
  split (b :: s) cur = (if decide (b = comma) then cur :: split s [] else split s (cur ++ [b])).
Proof. reflexivity. Qed.

Lemma split_app s cur tl : comma ∉ s -> split (s ++ comma :: tl) cur = (cur ++ s) :: split tl [].
Proof.
  revert cur. induction s as [|b s IH]; intros cur Hs.
  - cbn [app]. by rewrite split_cons, decide_True, app_nil_r.
  - apply not_elem_of_cons in Hs as [Hb Hs]. cbn [app]. rewrite split_cons, decide_False by done.
    by rewrite IH, <- app_assoc.
Qed.

Lemma split_marshal l h : marshal l = Ok h -> split h [] = l.
Proof.
  unfold marshal. case_decide as Hl; [|done]. intros [= <-].
  induction Hl as [|s l Hs Hl IH]; [done|]. 
  rewrite fmap_cons, concat_cons, <- app_assoc. cbn [app]. by rewrite split_app, IH.
Qed.

#[export] Instance laws : StructuredFieldsLaws fields.
Proof.
  split; simpl.
  - done.
  - unfold marshal. intros l h s. case_decide as Hl; [|done]. intros _ Hs.
    rewrite decide_True; [eauto|]. rewrite Forall_singleton. rewrite Forall_forall in Hl. auto.
  - intros l h H%split_marshal. by rewrite app_nil_r, H.
  - intros s h H%split_marshal. by rewrite app_nil_r, H.
Qed.

#[export] Instance quote : GoQuote := fun s => s.

End CommaSeparated.

(** The whole exchange: the server can serialise its answer, and the client
    reads the same protocol from it. *)
Lemma negotiate `{ET : !ErrorText} `{SF : !StructuredFields} `{!StructuredFieldsLaws _}
    `{Q : !GoQuote} (mine supported hdr : list gostring) : offerHeader mine [] = Ok hdr ->
  selectProtocol supported hdr = default [] (head (common supported mine)) /\
  exists answer, answerHeader (selectProtocol supported hdr) [] = Ok answer /\
    responseProtocol mine answer = Ok (selectProtocol supported hdr).
Proof.
  intros Hoffer. assert (selectProtocol supported hdr = firstSupported supported mine /\
    (mine = [] \/ exists h, MarshalList mine = Ok h)) as [Hsel Hmine].
  { unfold offerHeader, selectProtocol in *. destruct mine as [|p mine].
    - simplify_eq/=. rewrite UnmarshalList_absent. auto.
    - rewrite decide_True in Hoffer by (simpl; split; [lia|done]).
      destruct (MarshalList (p :: mine)) as [h|e] eqn:Eh; simplify_eq.
      rewrite (UnmarshalList_MarshalList (p :: mine) h), collectOffered_strings by done. eauto. }
  rewrite Hsel. split; [apply firstSupported_common|]. unfold answerHeader. case_decide as Hs.
  { rewrite Hs. eexists. by split. }
  destruct (firstSupported_in supported mine) as [?|[_ Hin]]; [done|].
  destruct Hmine as [->|[h Hh]]; [done|].
  destruct (MarshalItem_member mine h _ Hh Hin) as [v Hv]. rewrite Hv. eexists. split; [done|].
  simpl. unfold negotiateProtocol. rewrite (UnmarshalItem_MarshalItem _ v) by done. by rewrite decide_True.
Qed.

(** ** Theorems *)

Import (hints) CommaSeparated.

Definition noText : ErrorText := {|
  HTTP3ErrorText := fun _ m => m; QuicStreamErrorText := fun _ _ => []; WriteLimitReachedText := [] |}.

(** The two endpoints agree on the first protocol of the client that the server
    supports. *)
Example negotiate_example :
  let mine := [str "chat-v2"; str "chat-v1"; str "echo"] in
  let supported := [str "echo"; str "chat-v1"] in
  exists hdr answer, offerHeader (ET := noText) mine [] = Ok hdr /\
    selectProtocol supported hdr = str "chat-v1" /\
    answerHeader (ET := noText) (str "chat-v1") [] = Ok answer /\
    responseProtocol (ET := noText) mine answer = Ok (str "chat-v1").
Proof. do 2 eexists. vm_compute. auto. Qed.

(** Whatever the headers contain, the server only ever selects a protocol that
    it supports, and the client only ever accepts one that it offered. *)
Theorem negotiation_sound `{ET : !ErrorText} `{SF : !StructuredFields} `{Q : !GoQuote}
    (mine supported theirs : list gostring) :
  (selectProtocol supported theirs = [] \/ selectProtocol supported theirs ∈ supported) /\
  (forall p, responseProtocol mine theirs = Ok p -> p = [] /\ theirs = [] \/ p ∈ mine).
Proof.
  split; [apply selectProtocol_supported|]. intros p. unfold responseProtocol, negotiateProtocol.
  destruct theirs as [|h theirs]; [intros [= <-]; auto|].
  destruct (UnmarshalItem _) as [[s|]|e]; try done. case_decide; intros [= <-]. auto.
Qed.
