(* ===== verification/Server.v ===== *)
(** * The server ([server.go])

    The settings that [init] advertises, the connections that the server knows,
    and [Upgrade], which turns a CONNECT request into a session. [connsMx] and
    the mutexes of the session managers are held for whole functions of this
    file; [world] interleaves these functions. The dispatch of streams is in
    [Protocol], the origin check in [Origin], the selection of the application
    protocol in [Negotiation]. *)

From S2P Require Import Prelude Errors Quicvarint Protocol Config Negotiation.
From S2P Require Import Utf8 Origin SessionManager.

(** ** Settings *)

(** [s.AdditionalSettings] after [ConfigureHTTP3Server]; [None] is the nil map. *)
Definition ConfigureHTTP3Server (additional : option (gmap Z Z)) : gmap Z Z :=
  let settings := default ∅ additional in
  let settings := <[settingsEnableWebtransportDraft06 := 1]> settings in
  let settings := <[settingsWebTransportEnabled := 1]> settings in
  <[settingsWebTransportMaxSessions := Z.shiftl 1 62 - 1]> settings.

Definition zeroConfig : Config := mkConfig 0 0 0.

(** [init]: the configuration, and the settings of [H3] if it is set. *)
Definition init (config : option Config) (h3 : option (option (gmap Z Z))) : Config * option (gmap Z Z) :=
  let config := default zeroConfig config in
  (config, (fun additional => addSettings config (ConfigureHTTP3Server additional)) <$> h3).

(** [timeout], in nanoseconds. *)
Definition timeout (reorderingTimeout : Z) : Z :=
  if decide (reorderingTimeout = 0) then 5 * 10 ^ 9 else reorderingTimeout.

(** ** State *)

(** What a session is made from. *)
Record established := mkEstablished {
  es_conn : nat;
  es_id : Z;
  es_protocol : gostring;
  es_fc : sessionFlowControl;
}.

Abbreviation manager := (@sessionManager nat nat established).

(** [conns] maps connections to the managers, which live in [heap]: the
    functions that clean up keep them when the map is gone. [None] is the nil
    map. *)
Record Server := mkServer {
  sv_conns : option (gmap nat nat);
  sv_closed : bool;
  sv_ctxDone : bool;
  sv_heap : gmap nat manager;
}.

Definition newServer : Server := mkServer (Some ∅) false false ∅.

(** [s.initOnce.Do]; [None] is a server that has not been initialized. It is called
    by every method, so that a server that was closed stays closed. *)
Definition initialize (s : option Server) : Server := match s with Some s => s | None => newServer end.

Definition setConns (c : option (gmap nat nat)) (s : Server) : Server :=
  mkServer c (sv_closed s) (sv_ctxDone s) (sv_heap s).
Definition setManager (m : nat) (mgr : manager) (s : Server) : Server :=
  mkServer (sv_conns s) (sv_closed s) (sv_ctxDone s) (<[m := mgr]> (sv_heap s)).

Definition managerOf (conn : nat) (s : Server) : option nat := default ∅ (sv_conns s) !! conn.

Definition ErrServerClosed : error := ErrOther (str "http: Server closed") false.

(** Calls on a QUIC connection and on the stream of a request. *)
Inductive serverCall : Type :=
| CloseConn (conn : nat) (code : Z)
| ReqCancelRead (code : Z)
| ReqCancelWrite (code : Z)
| ReqOK.

(** ** Connections *)

(** The beginning of [ServeQUICConn], up to the call of [AfterFunc]: the
    manager of the connection. [fresh] is a new manager; [dgrams] and [resets]
    are the local capabilities of the connection. [None]: panic. *)
Definition serveConn (dgrams resets : bool) (conn fresh : nat) (s : Server)
  : option (result error nat * list serverCall * Server) :=
  if negb dgrams then
    Some (Err (ErrNew (str "webtransport: QUIC DATAGRAM support required, enable it via QUICConfig.EnableDatagrams")), [], s)
  else if negb resets then
    Some (Err (ErrNew (str "webtransport: QUIC Stream Resets with Partial Delivery required, enable it via QUICConfig.EnableStreamResetPartialDelivery")), [], s)
  else if sv_closed s then Some (Err ErrServerClosed, [CloseConn conn 0], s)
  else
    match managerOf conn s with
    | Some m => Some (Ok m, [], s)
    | None =>
        conns ← sv_conns s;
        Some (Ok fresh, [], setManager fresh newSessionManager (setConns (Some (<[conn := fresh]> conns)) s))
    end.

(** The function that runs when the connection is done: first this, ... *)
Definition forgetConn (conn : nat) (s : Server) : Server := setConns (delete conn <$> sv_conns s) s.

(** ... then [sessMgr.Close()]. *)
Definition closeManager (m : nat) (s : Server) : Server :=
  match sv_heap s !! m with
  | Some mgr => setManager m (SessionManager.Close mgr).2 s
  | None => s
  end.

Definition isClosed (s : Server) : bool := sv_closed s.

(** [Close], with [connsMx] held: ... *)
Definition closeConns (s : Server) : list serverCall * Server :=
  let conns := map_to_list (default ∅ (sv_conns s)) in
  ((fun c : nat * nat => CloseConn c.1 0) <$> conns,
   foldr (fun c s => closeManager c.2 s) (mkServer None true (sv_ctxDone s) (sv_heap s)) conns).

(** ... and [s.ctxCancel()], after it is released. *)
Definition ctxCancel (s : Server) : Server := mkServer (sv_conns s) (sv_closed s) true (sv_heap s).

(** ** [Upgrade] *)

Record request := mkRequest {
  r_Method : gostring;
  r_Proto : gostring;
  (** [r.Header.Get("Origin")] and [r.Host] *)
  r_Origin : gostring;
  r_Host : gostring;
  (** the value for [quicConnKey] in the context *)
  r_conn : option nat;
  r_available : list gostring;
}.

(** [CheckOrigin] after [init]; [parseHost] is the [Host] that [url.Parse] finds.
    The fuel of [checkSameOrigin] is always enough. *)
Definition initCheckOrigin (parseHost : gostring -> result error gostring) (custom : option (request -> bool))
  : request -> bool :=
  match custom with
  | Some f => f
  | None => fun r => default false (checkSameOrigin parseHost (r_Origin r) (r_Host r))
  end.

(** How waiting for the SETTINGS of the client ends. *)
Inductive settingsWait : Type :=
| SettingsReceived (settings : http3_Settings)
| ConnDone (cause : error)
| WaitTimeout.

Section upgrade.
Context `{ET : !ErrorText} `{SF : !StructuredFields}.

(** Everything before the mutex is locked: the connection, the selected
    protocol, the values of WT-Protocol in the response, the settings. *)
Definition upgradeChecks (checkOrigin : request -> bool) (supported header : list gostring) (r : request)
    (wait : settingsWait)
  : result error (nat * gostring * list gostring * http3_Settings) :=
  if decide (r_Method r <> str "CONNECT") then
    Err (ErrNew (str "expected CONNECT request, got " ++ r_Method r))
  else if negb (isWebTransportProtocol (r_Proto r)) then
    Err (ErrNew (str "unexpected protocol: " ++ r_Proto r))
  else if negb (checkOrigin r) then Err (ErrNew (str "webtransport: request origin not allowed"))
  else
    match r_conn r with
    | None => Err (ErrNew (str "webtransport: missing QUIC connection"))
    | Some conn =>
        let selectedProtocol := selectProtocol supported (r_available r) in
        match wait with
        | ConnDone cause => Err cause
        | WaitTimeout => Err (ErrNew (str "webtransport: didn't receive the client's SETTINGS on time"))
        | SettingsReceived settings =>
            if negb (EnableDatagrams settings) then Err (ErrNew (str "webtransport: missing datagram support"))
            else
              match answerHeader selectedProtocol header with
              | Err err => Err err
              | Ok header => Ok (conn, selectedProtocol, header, settings)
              end
        end
    end.

(** [for _, entry := range sessMgr.sessions { if entry.Session != nil ... }] *)
Definition hasSession (mgr : manager) : bool :=
  existsb (fun e : Z * sessionEntry => bool_decide (Session e.2 <> None)) (map_to_list (sessions mgr)).

Definition multipleSessions : error := ErrNew (str "webtransport: multiple sessions require flow control").

(** The part under the mutex, and the end. *)
Definition upgradeLocked (conn : nat) (id : Z) (protocol : gostring) (fc : sessionFlowControl) (s : Server)
  : option (result error established * list serverCall * Server) :=
  match managerOf conn s with
  | None => Some (Err (ErrNew (str "webtransport: connection session manager not found")), [], s)
  | Some m =>
      mgr ← sv_heap s !! m;
      if negb (Enabled fc) && hasSession mgr then
        Some (Err multipleSessions,
              [ReqCancelRead http3.ErrCodeRequestRejected; ReqCancelWrite http3.ErrCodeRequestRejected], s)
      else
        let sess := mkEstablished conn id protocol fc in
        Some (Ok sess, [ReqOK], setManager m (AddSession id sess mgr).2 s)
  end.

(** [config] is [s.config] and [id] the ID of the request stream. *)
Definition Upgrade (config : Config) (checkOrigin : request -> bool) (supported header : list gostring)
    (r : request) (wait : settingsWait) (id : Z) (s : Server) : option (result error established * list gostring * list serverCall * Server) :=
  match upgradeChecks checkOrigin supported header r wait with
  | Err err => Some (Err err, header, [], s)
  | Ok (conn, protocol, header, settings) =>
      '(res, calls, s) ← upgradeLocked conn id protocol (Config_sessionFlowControl config (Some settings)) s;
      Some (res, header, calls, s)
  end.

End upgrade.

(** ** Interleaving

    The functions that run when connections are done are in [w_watch] until
    they run, and in [w_closing] between their two steps. Whether flow control
    is used is a matter of the connection: it depends on the configuration of
    the server and the settings of the client. *)

Section world.
Context (fcOf : nat -> sessionFlowControl).

Record world := mkWorld {
  w_s : Server;
  w_watch : list (nat * nat);
  w_closing : list (nat * nat);
}.

Definition start : world := mkWorld newServer [] [].

(** What the goroutines of a connection do with its manager. *)
Inductive managerStep : manager -> manager -> Prop :=
| ms_AddStream stream id h mgr calls mgr' : AddStream stream id h mgr = Some (calls, mgr') -> managerStep mgr mgr'
| ms_AddUniStream stream id h mgr calls mgr' : AddUniStream stream id h mgr = Some (calls, mgr') -> managerStep mgr mgr'
| ms_onTimer id mgr calls mgr' : onTimer id mgr = Some (calls, mgr') -> managerStep mgr mgr'
| ms_deleteSession id mgr : managerStep mgr (deleteSession id mgr).

Inductive step : world -> world -> Prop :=
| step_serve dgrams resets conn fresh w m calls s :
    sv_heap (w_s w) !! fresh = None -> serveConn dgrams resets conn fresh (w_s w) = Some (Ok m, calls, s) ->
    step w (mkWorld s ((conn, m) :: w_watch w) (w_closing w))
| step_done conn m w l1 l2 : w_watch w = l1 ++ (conn, m) :: l2 ->
    step w (mkWorld (forgetConn conn (w_s w)) (l1 ++ l2) ((conn, m) :: w_closing w))
| step_closeManager conn m w l1 l2 : w_closing w = l1 ++ (conn, m) :: l2 ->
    step w (mkWorld (closeManager m (w_s w)) (w_watch w) (l1 ++ l2))
| step_upgrade conn id protocol w res calls s :
    upgradeLocked conn id protocol (fcOf conn) (w_s w) = Some (res, calls, s) ->
    step w (mkWorld s (w_watch w) (w_closing w))
| step_manager m w mgr mgr' : sv_heap (w_s w) !! m = Some mgr -> managerStep mgr mgr' ->
    step w (mkWorld (setManager m mgr' (w_s w)) (w_watch w) (w_closing w))
| step_closeConns w : step w (mkWorld (closeConns (w_s w)).2 (w_watch w) (w_closing w))
| step_ctxCancel w : step w (mkWorld (ctxCancel (w_s w)) (w_watch w) (w_closing w)).

Definition reachable (w : world) : Prop := rtc step start w.

(** ** The established sessions of a manager *)

Definition sessionAt (mgr : manager) (id : Z) : option established := sessions mgr !! id ≫= Session.

Lemma sessionAt_insert id e mgr i :
  sessionAt (set_entry id e mgr) i = (if decide (i = id) then Session e else sessionAt mgr i).
Proof.
  unfold sessionAt, set_entry. simpl. case_decide; subst; [by rewrite lookup_insert_eq|].
  by rewrite lookup_insert_ne.
Qed.

Lemma sessionAt_AddSession id sess mgr i :
  sessionAt (AddSession id sess mgr).2 i = (if decide (i = id) then Some sess else sessionAt mgr i).
Proof. unfold AddSession. simpl. by rewrite sessionAt_insert. Qed.

Lemma sessionAt_new i : sessionAt newSessionManager i = None.
Proof. unfold sessionAt. simpl. by rewrite lookup_empty. Qed.

Lemma sessionAt_Close mgr i : sessionAt (SessionManager.Close mgr).2 i = None.
Proof. unfold sessionAt. simpl. by rewrite lookup_empty. Qed.

Lemma hasSession_false mgr i : hasSession mgr = false -> sessionAt mgr i = None.
Proof.
  intros H. destruct (sessionAt mgr i) as [sess|] eqn:E; [exfalso|done].
  unfold sessionAt in E. apply bind_Some in E as (e & He & Hs).
  assert (hasSession mgr = true); [|congruence]. apply existsb_exists. exists (i, e).
  split; [by apply list_elem_of_In, elem_of_map_to_list|]. apply bool_decide_eq_true. simpl. by rewrite Hs.
Qed.

(** Streams, timers and ends of sessions add no session. *)
Ltac same_sessions :=
  simplify_option_eq; rewrite ?sessionAt_insert; repeat case_decide; subst; try done;
  unfold sessionAt; match goal with E : _ !! _ = _ |- _ => by rewrite E end.

Lemma sessionAt_AddStream x id h mgr calls mgr' i :
  AddStream x id h mgr = Some (calls, mgr') -> sessionAt mgr' i = sessionAt mgr i.
Proof.
  unfold AddStream, lookupEntry. intros He. destruct (sessions mgr !! id) as [e|] eqn:E.
  - destruct (Session e) as [sess|] eqn:Es; [same_sessions|]. simplify_option_eq.
    destruct (resetTimer _ _). same_sessions.
  - case_decide; simplify_eq/=; [done|same_sessions].
Qed.

Lemma sessionAt_AddUniStream x id h mgr calls mgr' i :
  AddUniStream x id h mgr = Some (calls, mgr') -> sessionAt mgr' i = sessionAt mgr i.
Proof.
  unfold AddUniStream, lookupEntry. intros He. destruct (sessions mgr !! id) as [e|] eqn:E.
  - destruct (Session e) as [sess|] eqn:Es; [same_sessions|]. simplify_option_eq.
    destruct (resetTimer _ _). same_sessions.
  - case_decide; simplify_eq/=; [done|same_sessions].
Qed.

Lemma sessionAt_delete id mgr r i sess :
  sessionAt (mkSessionManager (delete id (sessions mgr)) r) i = Some sess -> sessionAt mgr i = Some sess.
Proof.
  unfold sessionAt; simpl. destruct (decide (i = id)) as [->|]; [by rewrite lookup_delete_eq|].
  by rewrite lookup_delete_ne.
Qed.

Lemma managerStep_sessions mgr mgr' i sess : managerStep mgr mgr' ->
  sessionAt mgr' i = Some sess -> sessionAt mgr i = Some sess.
Proof.
  intros [x id h mgr0 calls mgr1 He|x id h mgr0 calls mgr1 He|id mgr0 calls mgr1 He|id mgr0].
  - by erewrite sessionAt_AddStream.
  - by erewrite sessionAt_AddUniStream.
  - unfold onTimer in He. repeat (case_match; simplify_option_eq; try done). apply sessionAt_delete.
  - apply sessionAt_delete.
Qed.

(** ** The invariant *)

Definition pairs (w : world) : list (nat * nat) := w_watch w ++ w_closing w.

Definition sessionIn (w : world) (m : nat) (i : Z) (sess : established) : Prop :=
  exists mgr, sv_heap (w_s w) !! m = Some mgr /\ sessionAt mgr i = Some sess.

Record inv (w : world) : Prop := {
  i_watch c m : managerOf c (w_s w) = Some m -> (c, m) ∈ w_watch w;
  i_heap c m : (c, m) ∈ pairs w -> is_Some (sv_heap (w_s w) !! m);
  i_conn c1 c2 m : (c1, m) ∈ pairs w -> (c2, m) ∈ pairs w -> c1 = c2;
  i_sess m i sess : sessionIn w m i sess -> (es_conn sess, m) ∈ pairs w /\ es_fc sess = fcOf (es_conn sess);
  i_one m i1 i2 s1 s2 : sessionIn w m i1 s1 -> sessionIn w m i2 s2 -> Enabled (es_fc s1) = false -> i1 = i2;
  i_closed : sv_closed (w_s w) = true <-> sv_conns (w_s w) = None;
}.

(** A step that touches neither the heap, but for fewer sessions, nor adds
    connections. *)
Lemma inv_shrink w w' : inv w ->
  (forall c m, managerOf c (w_s w') = Some m -> managerOf c (w_s w) = Some m) ->
  (forall c m, managerOf c (w_s w') = Some m -> (c, m) ∈ w_watch w -> (c, m) ∈ w_watch w') ->
  (forall c m, (c, m) ∈ pairs w' -> (c, m) ∈ pairs w) ->
  (forall m, is_Some (sv_heap (w_s w) !! m) -> is_Some (sv_heap (w_s w') !! m)) ->
  (forall m i sess, sessionIn w' m i sess -> sessionIn w m i sess) ->
  (forall m i sess, sessionIn w' m i sess -> (es_conn sess, m) ∈ pairs w -> (es_conn sess, m) ∈ pairs w') ->
  (sv_closed (w_s w') = true <-> sv_conns (w_s w') = None) -> inv w'.
Proof.
  intros [Hw Hh Hc Hs Ho _] H1 H2 H3 H4 H5 H6 H7. constructor; try done; eauto.
  intros m i sess Hin. destruct (Hs m i sess (H5 _ _ _ Hin)) as [? ?]. eauto.
Qed.

Lemma sessionIn_setManager w w' m mgr mgr' i sess m' :
  w_s w' = setManager m mgr' (w_s w) -> sv_heap (w_s w) !! m = Some mgr ->
  (forall j sess, sessionAt mgr' j = Some sess -> sessionAt mgr j = Some sess) ->
  sessionIn w' m' i sess -> sessionIn w m' i sess.
Proof.
  intros Ew Hm Hsub (mgr0 & Hmgr & Hs). rewrite Ew in Hmgr. simpl in Hmgr.
  apply lookup_insert_Some in Hmgr as [[<- <-]|[_ Hmgr]]; [|by exists mgr0]. exists mgr. auto.
Qed.

Lemma heap_setManager m mgr' s m' : is_Some (sv_heap s !! m') -> is_Some (sv_heap (setManager m mgr' s) !! m').
Proof. intros H. simpl. destruct (decide (m = m')) as [->|]; [by rewrite lookup_insert_eq|by rewrite lookup_insert_ne]. Qed.

Lemma managerOf_forget c c' s m : managerOf c (forgetConn c' s) = Some m ->
  managerOf c s = Some m /\ c <> c'.
Proof.
  unfold managerOf, forgetConn. simpl. destruct (sv_conns s); simpl; [|by rewrite lookup_empty].
  intros [? ?]%lookup_delete_Some. auto.
Qed.

(** [closeManager], as the other functions see it. *)
Lemma closeManager_fields m s : sv_conns (closeManager m s) = sv_conns s /\
  sv_closed (closeManager m s) = sv_closed s /\
  (forall m', is_Some (sv_heap s !! m') -> is_Some (sv_heap (closeManager m s) !! m')) /\
  (forall m' mgr' i sess, sv_heap (closeManager m s) !! m' = Some mgr' -> sessionAt mgr' i = Some sess ->
     m' <> m /\ sv_heap s !! m' = Some mgr').
Proof.
  unfold closeManager. destruct (sv_heap s !! m) as [mgr|] eqn:E.
  - split_and!; try done; [intros; by apply heap_setManager|]. simpl. intros m' mgr' i sess Hm Hs.
    apply lookup_insert_Some in Hm as [[<- <-]|[? ?]]; [|auto].
    assert (None = Some sess); [|done]. rewrite <- Hs. symmetry. apply (sessionAt_Close mgr).
  - split_and!; try done. intros m' mgr' i sess Hm Hs. split; [|done]. intros ->. congruence.
Qed.

Lemma closeConns_fields s : sv_conns (closeConns s).2 = None /\ sv_closed (closeConns s).2 = true /\
  (forall m', is_Some (sv_heap s !! m') -> is_Some (sv_heap (closeConns s).2 !! m')) /\
  (forall m' mgr' i sess, sv_heap (closeConns s).2 !! m' = Some mgr' -> sessionAt mgr' i = Some sess ->
     sv_heap s !! m' = Some mgr' /\ forall c, managerOf c s <> Some m').
Proof.
  unfold closeConns, managerOf. simpl.
  assert (forall c m', default ∅ (sv_conns s) !! c = Some m' -> (c, m') ∈ map_to_list (default ∅ (sv_conns s))) as Hin.
  { intros c m' Hc. by apply elem_of_map_to_list. }
  revert Hin. generalize (default ∅ (sv_conns s)) as conns. intros conns.
  generalize (map_to_list conns) as l. intros l Hin.
  assert (let s' := foldr (fun c s => closeManager c.2 s) (mkServer None true (sv_ctxDone s) (sv_heap s)) l in
    sv_conns s' = None /\ sv_closed s' = true /\
    (forall m', is_Some (sv_heap s !! m') -> is_Some (sv_heap s' !! m')) /\
    (forall m' mgr' i sess, sv_heap s' !! m' = Some mgr' -> sessionAt mgr' i = Some sess ->
       sv_heap s !! m' = Some mgr' /\ m' ∉ l.*2)) as (H1 & H2 & H3 & H4).
  { clear. induction l as [|[c m] l (H1 & H2 & H3 & H4)]; simpl in *.
    - split_and!; try done. intros. split; [done|]. apply not_elem_of_nil.
    - destruct (closeManager_fields m (foldr (fun c s => closeManager c.2 s) (mkServer None true (sv_ctxDone s) (sv_heap s)) l))
        as (-> & -> & Hh & Hs). split_and!; [done|done|auto|].
      intros m' mgr' i sess Hm Hsess. destruct (Hs _ _ _ _ Hm Hsess) as [Hne Hm'].
      destruct (H4 _ _ _ _ Hm' Hsess) as [? ?]. split; [done|]. by apply not_elem_of_cons. }
  split_and!; try done. intros m' mgr' i sess Hm Hsess. destruct (H4 _ _ _ _ Hm Hsess) as [? Hl].
  split; [done|]. intros c Hc. apply Hl. apply list_elem_of_fmap. exists (c, m'). auto.
Qed.

Lemma sessionIn_start m i sess : ~ sessionIn start m i sess.
Proof.
  intros (mgr & Hm & _). change ((∅ : gmap nat manager) !! m = Some mgr) in Hm.
  by rewrite lookup_empty in Hm.
Qed.

Lemma server_inv_start : inv start.
Proof.
  constructor; try done.
  - intros c m Hin. by apply not_elem_of_nil in Hin.
  - intros c1 c2 m Hin. by apply not_elem_of_nil in Hin.
  - intros m i sess Hin. by apply sessionIn_start in Hin.
  - intros m i1 i2 s1 s2 Hin. by apply sessionIn_start in Hin.
Qed.

Lemma inv_serve dgrams resets conn fresh w m calls s : inv w -> sv_heap (w_s w) !! fresh = None ->
  serveConn dgrams resets conn fresh (w_s w) = Some (Ok m, calls, s) ->
  inv (mkWorld s ((conn, m) :: w_watch w) (w_closing w)).
Proof.
  intros Hinv Hfresh He. pose proof Hinv as [Hw Hh Hc Hs Ho Hcl]. unfold serveConn in He.
  destruct dgrams; [|done]. destruct resets; [|done]. simpl in He.
  destruct (sv_closed (w_s w)) eqn:Eclosed; [done|]. destruct (managerOf conn (w_s w)) as [m0|] eqn:Em.
  - simplify_eq. specialize (Hw _ _ Em). eapply inv_shrink; try done; simpl.
    + intros c m' _ ?. by right.
    + intros c m' [[= -> ->]|?]%elem_of_cons; [|done]. by apply elem_of_app; left.
    + intros m' i sess Hin Hp. by right.
    + by rewrite Eclosed.
  - destruct (sv_conns (w_s w)) as [conns|] eqn:Ec; simplify_eq/=.
    assert (forall c, (c, m) ∉ pairs w) as Hnew.
    { intros c Hin. destruct (Hh _ _ Hin) as [? ?]. congruence. }
    assert (forall m' i sess, sessionIn (mkWorld (setManager m newSessionManager
        (setConns (Some (<[conn := m]> conns)) (w_s w))) ((conn, m) :: w_watch w) (w_closing w)) m' i sess ->
        sessionIn w m' i sess) as Hsub.
    { intros m' i sess (mgr & Hm & Hsess). simpl in Hm.
      apply lookup_insert_Some in Hm as [[<- <-]|[_ Hm]]; [by rewrite sessionAt_new in Hsess|by exists mgr]. }
    unfold pairs in *. constructor; unfold pairs; simpl.
    + intros c m' H. unfold managerOf in *. simpl in H. rewrite Ec in *. simpl in *.
      apply lookup_insert_Some in H as [[<- <-]|[_ H]]; [by left|right]. by apply Hw.
    + intros c m' [[= -> ->]|Hin]%elem_of_cons; [by rewrite lookup_insert_eq|].
      apply heap_setManager. by eapply Hh.
    + intros c1 c2 m' H1 H2. apply elem_of_cons in H1, H2. destruct H1 as [E1|H1], H2 as [E2|H2].
      * congruence.
      * injection E1 as -> ->. by apply Hnew in H2.
      * injection E2 as -> ->. by apply Hnew in H1.
      * by eapply Hc.
    + intros m' i sess Hin. destruct (Hs m' i sess (Hsub _ _ _ Hin)). split; [by right|done].
    + intros m' i1 i2 s1 s2 H1 H2. eapply Ho; by apply Hsub.
    + rewrite Eclosed. by split.
Qed.

Lemma inv_upgrade conn id protocol w res calls s : inv w ->
  upgradeLocked conn id protocol (fcOf conn) (w_s w) = Some (res, calls, s) ->
  inv (mkWorld s (w_watch w) (w_closing w)).
Proof.
  intros Hinv He. pose proof Hinv as [Hw Hh Hc Hs Ho Hcl]. unfold upgradeLocked in He.
  destruct (managerOf conn (w_s w)) as [m|] eqn:Em; [|by simplify_eq; destruct w].
  destruct (sv_heap (w_s w) !! m) as [mgr|] eqn:Emgr; [|done]. simpl in He.
  destruct (negb (Enabled (fcOf conn)) && hasSession mgr) eqn:Emult; [by simplify_eq; destruct w|].
  simplify_eq/=. set (sess := mkEstablished conn id protocol (fcOf conn)).
  assert (forall m' i s', sessionIn (mkWorld (setManager m (AddSession id sess mgr).2 (w_s w)) (w_watch w) (w_closing w)) m' i s' ->
    sessionIn w m' i s' \/ m' = m /\ i = id /\ s' = sess) as Hcases.
  { intros m' i s' (mgr' & Hm & Hsess).
    change (<[m := (AddSession id sess mgr).2]> (sv_heap (w_s w)) !! m' = Some mgr') in Hm.
    apply lookup_insert_Some in Hm as [[<- <-]|[_ Hm]]; [|left; by exists mgr'].
    rewrite sessionAt_AddSession in Hsess. case_decide; simplify_eq; [by right|left; by exists mgr]. }
  assert ((conn, m) ∈ pairs w) as Hpair by (apply elem_of_app; left; by apply Hw).
  constructor; simpl; try done.
  - intros c m' Hin. by apply heap_setManager, (Hh c).
  - intros m' i s' [Hin|(-> & -> & ->)]%Hcases; [by eapply Hs|]. by split.
  - assert (forall i s', sessionIn w m i s' -> Enabled (es_fc s') = Enabled (fcOf conn)) as Hsame.
    { intros i s' Hin. destruct (Hs _ _ _ Hin) as [Hp ->]. by rewrite (Hc _ _ _ Hp Hpair). }
    assert (Enabled (fcOf conn) = false -> forall i s', ~ sessionIn w m i s') as Hnone.
    { intros E i s' (mgr' & Hm & Hsess). rewrite Emgr in Hm. simplify_eq. rewrite E in Emult. simpl in Emult.
      by rewrite hasSession_false in Hsess. }
    intros m' i1 i2 s1 s2 [H1|(-> & -> & ->)]%Hcases [H2|(E2 & -> & ->)]%Hcases E; try done.
    + by eapply Ho.
    + subst m'. rewrite (Hsame _ _ H1) in E. by destruct (Hnone E i1 s1).
    + simpl in E. by destruct (Hnone E i2 s2).
Qed.

Lemma server_inv_step w w' : inv w -> step w w' -> inv w'.
Proof.
  intros Hinv He.
  destruct He as [dg rs conn fresh w m calls s Hf He|conn m w l1 l2 E|conn m w l1 l2 E|conn id pr w res calls s He|m w mgr mgr' Hm He|w|w].
  - by eapply inv_serve.
  - pose proof Hinv as [Hw Hh Hc Hs Ho Hcl].
    assert (forall c m', (c, m') ∈ pairs w <-> (c, m') ∈ (l1 ++ l2) ++ (conn, m) :: w_closing w) as Hp.
    { intros c m'. unfold pairs. rewrite E. rewrite !elem_of_app, !elem_of_cons. tauto. }
    eapply inv_shrink; try done; simpl.
    + intros c m' [? _]%managerOf_forget. done.
    + intros c m' [_ Hne]%managerOf_forget. rewrite E, !elem_of_app, elem_of_cons.
      intros [?|[[=]|?]]; [by left|congruence|by right].
    + intros c m'. apply Hp.
    + intros m' i sess _. apply Hp.
    + rewrite Hcl. by destruct (sv_conns (w_s w)).
  - pose proof Hinv as [Hw Hh Hc Hs Ho Hcl].
    destruct (closeManager_fields m (w_s w)) as (E1 & E2 & E3 & E4).
    eapply inv_shrink; try done; simpl; unfold managerOf, pairs; simpl; rewrite ?E1, ?E2; try done.
    + intros c m'. rewrite E, !elem_of_app, elem_of_cons. tauto.
    + intros m' i sess (mgr & Hm & Hsess). destruct (E4 _ _ _ _ Hm Hsess) as [_ Hm']. by exists mgr.
    + intros m' i sess (mgr & Hm & Hsess). destruct (E4 _ _ _ _ Hm Hsess) as [Hne _].
      rewrite E, !elem_of_app, elem_of_cons. intros [?|[?|[[=]|?]]]; [by left|by right; left|congruence|by right; right].
  - by eapply inv_upgrade.
  - eapply inv_shrink; try done; simpl.
    + intros m'. apply heap_setManager.
    + intros m' i sess Hin. eapply (sessionIn_setManager w _ m mgr mgr'); [|done| |exact Hin]; [done|].
      intros j s'. by apply managerStep_sessions.
    + apply Hinv.
  - pose proof Hinv as [Hw Hh Hc Hs Ho Hcl]. destruct (closeConns_fields (w_s w)) as (E1 & E2 & E3 & E4).
    eapply inv_shrink; try done; cbn [w_s w_watch w_closing]; unfold managerOf; rewrite ?E1, ?E2; try done.
    intros m' i sess (mgr & Hm & Hsess). destruct (E4 _ _ _ _ Hm Hsess) as [Hm' _]. by exists mgr.
  - eapply inv_shrink; try done. apply Hinv.
Qed.

Lemma server_inv_reachable w : reachable w -> inv w.
Proof.
  intros H. assert (inv start) as Hs by apply server_inv_start. revert Hs. induction H; eauto using server_inv_step.
Qed.

End world.

Arguments world : clear implicits.

(** ** Examples *)

Definition plainFC (c : nat) : sessionFlowControl := noFlowControl.

Definition exampleWorld : world :=
  let sess := mkEstablished 7 0 [] noFlowControl in
  mkWorld (mkServer (Some {[7%nat := 0%nat]}) false false
    {[0%nat := (AddSession 0 sess newSessionManager).2]}) [(7%nat, 0%nat)] [].

Lemma exampleWorld_reachable : reachable plainFC exampleWorld.
Proof.
  eapply rtc_l; [eapply (step_serve plainFC true true 7 0); [reflexivity|reflexivity]|].
  eapply rtc_l; [eapply (step_upgrade plainFC 7 0 []); reflexivity|]. apply rtc_refl.
Qed.

(** ** Theorems *)

(** Sessions and connections under every interleaving of the server's methods.
    Without flow control a connection has at most one session at a time: two
    established sessions of the same manager are the same one. Every established
    session belongs to a connection for which the function that closes its manager
    is still to run, so that no session outlives its connection. After [Close] no
    connection is known. *)
Theorem server_sessions (fcOf : nat -> sessionFlowControl) (w : world) : reachable fcOf w ->
  (forall m i1 i2 s1 s2, sessionIn w m i1 s1 -> sessionIn w m i2 s2 ->
     Enabled (fcOf (es_conn s1)) = false -> i1 = i2) /\
  (forall m i sess, sessionIn w m i sess -> (es_conn sess, m) ∈ w_watch w ++ w_closing w) /\
  (sv_closed (w_s w) = true -> forall c, managerOf c (w_s w) = None).
Proof.
  intros H. destruct (server_inv_reachable fcOf w H) as [_ _ _ Hs Ho Hcl]. split_and!.
  - intros m i1 i2 s1 s2 H1 H2 E. eapply Ho; [done..|]. destruct (Hs _ _ _ H1) as [_ ->]. done.
  - intros m i sess Hin. apply (Hs m i sess Hin).
  - intros E%Hcl c. unfold managerOf. rewrite E. apply lookup_empty.
Qed.

Lemma server_sessions_witness :
  let sess := mkEstablished 7 0 [] noFlowControl in
  sessionIn exampleWorld 0 0 sess /\ (7%nat, 0%nat) ∈ w_watch exampleWorld ++ w_closing exampleWorld.
Proof.
  intros sess. assert (sessionIn exampleWorld 0 0 sess) as Hin.
  { exists (AddSession 0 sess newSessionManager).2. split; reflexivity. }
  split; [exact Hin|].
  exact (proj1 (proj2 (server_sessions plainFC exampleWorld exampleWorld_reachable)) 0%nat 0 sess Hin).
Defined.


Definition exampleRequest : request :=
  mkRequest (str "CONNECT") protocolHeader (str "https://EXAMPLE.org") (str "example.org") (Some 7%nat) [].

(** The host of an https URL without a path. *)
Definition exampleParse (url : gostring) : result error gostring := Ok (drop 8 url).

Definition exampleSettings : http3_Settings := mkSettings true true (Some {[settingsWebTransportEnabled := 1]}).


(** [closeConns]. Every connection that the server knows is closed, and its manager
    has no session any more; afterwards no connection is accepted, and no request
    is upgraded. *)
Theorem server_close (s : Server) :
  let '(calls, s') := closeConns s in
  (forall c m, managerOf c s = Some m -> CloseConn c 0 ∈ calls /\
     forall mgr i, sv_heap s' !! m = Some mgr -> sessionAt mgr i = None) /\
  (forall conn fresh, serveConn true true conn fresh s' = Some (Err ErrServerClosed, [CloseConn conn 0], s')) /\
  (forall conn id protocol fc, exists err, upgradeLocked conn id protocol fc s' = Some (Err err, [], s')).
Proof.
  destruct (closeConns s) as [calls s'] eqn:E. destruct (closeConns_fields s) as (E1 & E2 & E3 & E4).
  rewrite E in *. cbn [snd] in *. split_and!.
  - intros c m Hm. split.
    + unfold closeConns in E. injection E as <- _. apply list_elem_of_fmap. exists (c, m). split; [done|].
      by apply elem_of_map_to_list.
    + intros mgr i Hmgr. destruct (sessionAt mgr i) as [sess|] eqn:Es; [|done].
      destruct (E4 _ _ _ _ Hmgr Es) as [_ Hno]. by destruct (Hno c).
  - intros conn fresh. unfold serveConn. simpl. by rewrite E2.
  - intros conn id protocol fc. unfold upgradeLocked, managerOf. rewrite E1. simpl.
    rewrite lookup_empty. eauto.
Qed.
