(* ===== verification/ServerShutdown.v ===== *)
(** * The goroutines of the server and its shutdown ([server.go])

    [Serve] accepts connections and starts [ServeQUICConn] for each, in
    goroutines that [refCount] counts; [ServeQUICConn] accepts streams and starts
    a goroutine for each, which it waits for; [Close] closes all connections,
    cancels the context and waits until the counter is zero. Here every goroutine
    is a value, and a step runs one of them up to the next point where another
    one may run. The parts that change connections and session managers are those
    of [Server], which this file refines.

    Code outside of the repository takes part as follows. [quic.ListenEarly] and
    [NewRawServerConn] succeed or fail. [Accept], [AcceptStream] and
    [AcceptUniStream] return something that has arrived, or an error when the
    context is cancelled (a stream: also when the connection is closed). Reading
    from a stream fails when its connection is closed. The HTTP/3 connection and
    the request handlers of the application return at the latest when the
    connection is closed; a handler that does not would block [Close]. *)

From S2P Require Import Prelude Refinement Errors Quicvarint Protocol Config SessionManager Server.

(** ** Goroutines *)

(** The goroutine of a stream in [ServeQUICConn]: it reads the header, or runs
    [HandleRequestStream] or [HandleUnidirectionalStream]. *)
Inductive handler : Type :=
| HHeader (d : direction) (x : nat)
| HHTTP3.

(** Where a goroutine that runs [Serve] ([ListenAndServe]) or [ServeQUICConn] is. *)
Inductive routine : Type :=
(** [ListenAndServe]: before it resolves its address and opens the socket *)
| RSocket
(** [serve]: at [ListenEarly]; at [Accept]; before [isClosed]; before the
    [CloseWithError] after it *)
| RListen
| RAccept
| RCheck (conn : nat)
| RRefuse (conn : nat)
(** [ServeQUICConn]: at the beginning, with the capabilities of the connection;
    before the [CloseWithError] of the guard; before [AfterFunc]; before
    [NewRawServerConn]; waiting for the two loops and the goroutines of the
    streams *)
| RConn (conn : nat) (dgrams resets : bool)
| RReject (calls : list serverCall)
| RRegistered (conn m : nat)
| RRaw (conn m : nat)
| RLoops (conn m : nat) (bidi uni : bool) (handlers : list handler).

(** Where a call of [Close] is: before the mutex, before [ctxCancel], before
    [H3.Close], in [refCount.Wait], returned. *)
Inductive closer : Type := CLock | CCancel | CH3 | CWait | CReturned.

#[export] Instance closer_eq_dec : EqDecision closer.
Proof. solve_decision. Defined.

(** ** State *)

Record shared := mkShared {
  x_s : Server;
  (** the connections whose context is done *)
  x_dead : gset nat;
  (** the connections and streams that [Accept], [AcceptStream] and
      [AcceptUniStream] have not returned yet *)
  x_pending : list nat;
  x_streams : list (nat * direction * nat);
  (** the functions given to [AfterFunc], and those that are at [sessMgr.Close] *)
  x_watch : list (nat * nat);
  x_closing : list (nat * nat);
  (** the goroutines that close the connection when the context is cancelled *)
  x_guards : list nat;
  (** the connections that [Accept] returned *)
  x_accepted : gset nat;
}.

Definition set_s (s : Server) (x : shared) : shared :=
  mkShared s (x_dead x) (x_pending x) (x_streams x) (x_watch x) (x_closing x) (x_guards x) (x_accepted x).
Definition set_pending (l : list nat) (x : shared) : shared :=
  mkShared (x_s x) (x_dead x) l (x_streams x) (x_watch x) (x_closing x) (x_guards x) (x_accepted x).
Definition set_streams (l : list (nat * direction * nat)) (x : shared) : shared :=
  mkShared (x_s x) (x_dead x) (x_pending x) l (x_watch x) (x_closing x) (x_guards x) (x_accepted x).
Definition set_watch (l : list (nat * nat)) (x : shared) : shared :=
  mkShared (x_s x) (x_dead x) (x_pending x) (x_streams x) l (x_closing x) (x_guards x) (x_accepted x).
Definition set_closing (l : list (nat * nat)) (x : shared) : shared :=
  mkShared (x_s x) (x_dead x) (x_pending x) (x_streams x) (x_watch x) l (x_guards x) (x_accepted x).
Definition set_guards (l : list nat) (x : shared) : shared :=
  mkShared (x_s x) (x_dead x) (x_pending x) (x_streams x) (x_watch x) (x_closing x) l (x_accepted x).
Definition accepts (c : nat) (x : shared) : shared :=
  mkShared (x_s x) (x_dead x) (x_pending x) (x_streams x) (x_watch x) (x_closing x) (x_guards x)
    ({[c]} ∪ x_accepted x).

(** [conn.CloseWithError], or the end of the connection for another reason. *)
Definition kill (c : nat) (x : shared) : shared :=
  mkShared (x_s x) ({[c]} ∪ x_dead x) (x_pending x) (x_streams x) (x_watch x) (x_closing x) (x_guards x)
    (x_accepted x).

Definition performCall (c : serverCall) (x : shared) : shared :=
  match c with CloseConn conn _ => kill conn x | _ => x end.

Definition perform (calls : list serverCall) (x : shared) : shared := foldr performCall x calls.

(** Who is responsible for a step: the code, as soon as its condition holds;
    something outside that may or may not happen; something outside that gives
    the server more to do. *)
Inductive origin : Type := Code | External | New.

(** ** Steps *)

(** What the goroutine of a stream does once it knows the beginning of the
    stream. *)
Inductive handled (conn m : nat) (d : direction) (stream : nat) (x : shared) : dispatch -> shared -> list handler -> Prop :=
| handled_ignored : handled conn m d stream x Ignored x []
| handled_http3 : handled conn m d stream x ToHTTP3 x [HHTTP3]
| handled_cancelled r w : handled conn m d stream x (Cancelled r w) x []
| handled_connClosed code : handled conn m d stream x (ConnClosed code) (perform [CloseConn conn code] x) []
| handled_bidi id n mgr calls mgr' : d = Bidi ->
    sv_heap (x_s x) !! m = Some mgr -> SessionManager.AddStream stream id n mgr = Some (calls, mgr') ->
    handled conn m d stream x (ToSession id n) (set_s (setManager m mgr' (x_s x)) x) []
| handled_uni id n mgr calls mgr' : d = Uni ->
    sv_heap (x_s x) !! m = Some mgr -> SessionManager.AddUniStream stream id n mgr = Some (calls, mgr') ->
    handled conn m d stream x (ToSession id n) (set_s (setManager m mgr' (x_s x)) x) [].

(** A loop of [ServeQUICConn] for one direction. *)
Definition looping (d : direction) (bidi uni : bool) : bool := match d with Bidi => bidi | Uni => uni end.

(** What becomes of a goroutine: nothing, one, or two when it starts another. *)
Inductive rstep (x : shared) : routine -> origin -> shared -> list routine -> Prop :=
| r_socket : rstep x RSocket Code x [RListen]
| r_socketErr : rstep x RSocket Code x []
| r_listen : rstep x RListen Code x [RAccept]
| r_listenErr : rstep x RListen Code x []
| r_accept c l : x_pending x = c :: l ->
    rstep x RAccept Code (accepts c (set_pending l x)) [RCheck c]
| r_acceptDone : sv_ctxDone (x_s x) = true -> rstep x RAccept Code x []
| r_acceptErr : rstep x RAccept External x []
(** [serve] sets the two capabilities in the configuration of the listener *)
| r_check c : rstep x (RCheck c) Code x
    (if isClosed (x_s x) then [RRefuse c] else [RAccept; RConn c true true])
| r_refuse c : rstep x (RRefuse c) Code (perform [CloseConn c 0] x) [RAccept]
| r_serve c dgrams resets fresh res calls s :
    sv_heap (x_s x) !! fresh = None -> serveConn dgrams resets c fresh (x_s x) = Some (res, calls, s) ->
    rstep x (RConn c dgrams resets) Code (set_s s x)
      (match res with Ok m => [RRegistered c m] | Err _ => [RReject calls] end)
| r_reject calls : rstep x (RReject calls) Code (perform calls x) []
| r_afterFunc c m : rstep x (RRegistered c m) Code (set_watch ((c, m) :: x_watch x) x) [RRaw c m]
| r_raw c m : rstep x (RRaw c m) Code (set_guards (c :: x_guards x) x) [RLoops c m true true []]
| r_rawErr c m : rstep x (RRaw c m) Code x []
| r_acceptStream c m bidi uni hs d stream l1 l2 :
    looping d bidi uni = true -> x_streams x = l1 ++ (c, d, stream) :: l2 ->
    rstep x (RLoops c m bidi uni hs) Code (set_streams (l1 ++ l2) x)
      [RLoops c m bidi uni (HHeader d stream :: hs)]
| r_acceptStreamErr c m bidi uni hs d :
    looping d bidi uni = true -> sv_ctxDone (x_s x) = true \/ c ∈ x_dead x ->
    rstep x (RLoops c m bidi uni hs) Code x
      [RLoops c m (match d with Bidi => false | Uni => bidi end)
                  (match d with Bidi => uni | Uni => false end) hs]
| r_header c m bidi uni hs1 hs2 d stream r x' h :
    handled c m d stream x r x' h ->
    rstep x (RLoops c m bidi uni (hs1 ++ HHeader d stream :: hs2)) External x'
      [RLoops c m bidi uni (hs1 ++ h ++ hs2)]
| r_headerErr c m bidi uni hs1 hs2 d stream :
    c ∈ x_dead x ->
    rstep x (RLoops c m bidi uni (hs1 ++ HHeader d stream :: hs2)) Code x [RLoops c m bidi uni (hs1 ++ hs2)]
| r_http3 c m bidi uni hs1 hs2 :
    rstep x (RLoops c m bidi uni (hs1 ++ HHTTP3 :: hs2)) External x [RLoops c m bidi uni (hs1 ++ hs2)]
| r_http3Err c m bidi uni hs1 hs2 :
    c ∈ x_dead x ->
    rstep x (RLoops c m bidi uni (hs1 ++ HHTTP3 :: hs2)) Code x [RLoops c m bidi uni (hs1 ++ hs2)]
| r_wait c m : rstep x (RLoops c m false false []) Code x [].

(** The goroutines that nobody waits for, and what happens outside. *)
Inductive xstep (fcOf : nat -> sessionFlowControl) (x : shared) : origin -> shared -> Prop :=
| x_done c m l1 l2 : c ∈ x_dead x -> x_watch x = l1 ++ (c, m) :: l2 ->
    xstep fcOf x Code
      (set_s (forgetConn c (x_s x)) (set_closing ((c, m) :: x_closing x) (set_watch (l1 ++ l2) x)))
| x_closeManager c m l1 l2 : x_closing x = l1 ++ (c, m) :: l2 ->
    xstep fcOf x Code (set_s (closeManager m (x_s x)) (set_closing (l1 ++ l2) x))
| x_guardCtx c l1 l2 : x_guards x = l1 ++ c :: l2 -> sv_ctxDone (x_s x) = true ->
    xstep fcOf x Code (perform [CloseConn c 0] (set_guards (l1 ++ l2) x))
| x_guardDead c l1 l2 : x_guards x = l1 ++ c :: l2 -> c ∈ x_dead x ->
    xstep fcOf x Code (set_guards (l1 ++ l2) x)
| x_dies c : xstep fcOf x External (kill c x)
| x_upgrade conn id protocol res calls s :
    upgradeLocked conn id protocol (fcOf conn) (x_s x) = Some (res, calls, s) ->
    xstep fcOf x External (set_s s x)
| x_manager m mgr mgr' : sv_heap (x_s x) !! m = Some mgr -> managerStep mgr mgr' ->
    xstep fcOf x External (set_s (setManager m mgr' (x_s x)) x)
| x_newConn c : xstep fcOf x New (set_pending (x_pending x ++ [c]) x)
| x_newStream c d stream : xstep fcOf x New (set_streams (x_streams x ++ [(c, d, stream)]) x).

(** The goroutines that run [Serve] or [ServeQUICConn], each with whether
    [refCount] counts it (one that the application started is not counted), and
    the calls of [Close]. *)
Record world := mkWorld {
  w_x : shared;
  w_routines : list (bool * routine);
  w_closers : list closer;
}.

Definition start : world := mkWorld (mkShared newServer ∅ [] [] [] [] [] ∅) [] [].

Definition refCount (w : world) : nat := length (filter (fun r : bool * routine => r.1 = true) (w_routines w)).

(** One step of [Close]. *)
Definition closerStep (x : shared) (c : closer) : shared * closer :=
  match c with
  | CLock => (perform (closeConns (x_s x)).1 (set_s (closeConns (x_s x)).2 x), CCancel)
  | CCancel => (set_s (ctxCancel (x_s x)) x, CH3)
  | CH3 => (x, CWait)
  | CWait | CReturned => (x, CReturned)
  end.

Inductive step (fcOf : nat -> sessionFlowControl) (w : world) : origin -> world -> Prop :=
| step_routine l1 l2 b r o x' rs :
    w_routines w = l1 ++ (b, r) :: l2 -> rstep (w_x w) r o x' rs ->
    step fcOf w o (mkWorld x' (l1 ++ (pair b <$> rs) ++ l2) (w_closers w))
| step_shared o x' : xstep fcOf (w_x w) o x' -> step fcOf w o (mkWorld x' (w_routines w) (w_closers w))
| step_closer l1 l2 c x' c' :
    w_closers w = l1 ++ c :: l2 -> c <> CReturned -> (c = CWait -> refCount w = 0%nat) ->
    closerStep (w_x w) c = (x', c') ->
    step fcOf w Code (mkWorld x' (w_routines w) (l1 ++ c' :: l2))
| step_Serve : step fcOf w New (mkWorld (w_x w) ((true, RListen) :: w_routines w) (w_closers w))
| step_ListenAndServe : step fcOf w New (mkWorld (w_x w) ((true, RSocket) :: w_routines w) (w_closers w))
| step_ServeQUICConn c dgrams resets :
    step fcOf w New (mkWorld (w_x w) ((false, RConn c dgrams resets) :: w_routines w) (w_closers w))
| step_Close : step fcOf w New (mkWorld (w_x w) (w_routines w) (CLock :: w_closers w)).

Definition anyStep (fcOf : nat -> sessionFlowControl) (w w' : world) : Prop := exists o, step fcOf w o w'.

Definition reachable (fcOf : nat -> sessionFlowControl) (w : world) : Prop := rtc (anyStep fcOf) start w.

(** ** Frames *)

#[local] Arguments closeConns _ : simpl never.

Lemma perform_spec calls x : exists dead, x_dead x ⊆ dead /\
  (forall c code, CloseConn c code ∈ calls -> c ∈ dead) /\
  perform calls x = mkShared (x_s x) dead (x_pending x) (x_streams x) (x_watch x) (x_closing x) (x_guards x) (x_accepted x).
Proof.
  induction calls as [|call calls (dead & Hsub & Hin & IH)].
  - exists (x_dead x). split_and!; [done| |by destruct x]. intros ? ? []%not_elem_of_nil.
  - unfold perform in *. simpl. rewrite IH. destruct call as [c code|code|code|]; simpl.
    1: exists ({[c]} ∪ dead); split_and!; [set_solver| |done];
       intros c' code' [[= -> ->]|?]%elem_of_cons; [set_solver|]; apply elem_of_union; eauto.
    all: exists dead; split_and!; [done| |done]; intros c' code' [?|?]%elem_of_cons; [done|eauto].
Qed.

Ltac destruct_perform :=
  repeat match goal with
  | |- context [perform ?l ?x] =>
      let d := fresh "dead" in let H1 := fresh "Hsub" in let H2 := fresh "Hkilled" in let E := fresh "E" in
      destruct (perform_spec l x) as (d & H1 & H2 & E); rewrite E in *; clear E
  end.

(** ** The work that is left

    Every step of the code takes some of it, nothing outside adds to it but new
    connections, streams and calls. *)

Definition handlerWork (h : handler) : nat := match h with HHeader _ _ => 2 | HHTTP3 => 1 end.

Definition work (r : routine) : nat :=
  match r with
  | RSocket => 3
  | RListen => 2
  | RAccept => 1
  | RCheck _ => 11
  | RRefuse _ => 2
  | RConn _ _ _ => 9
  | RReject _ => 1
  | RRegistered _ _ => 8
  | RRaw _ _ => 5
  | RLoops _ _ bidi uni hs => 1 + Nat.b2n bidi + Nat.b2n uni + sum_list_with handlerWork hs
  end.

Definition closerWork (c : closer) : nat :=
  match c with CLock => 4 | CCancel => 3 | CH3 => 2 | CWait => 1 | CReturned => 0 end.

Definition sharedWork (x : shared) : nat :=
  11 * length (x_pending x) + 3 * length (x_streams x) + 2 * length (x_watch x) +
  length (x_closing x) + length (x_guards x).

Definition totalWork (w : world) : nat :=
  sharedWork (w_x w) + sum_list_with (fun r : bool * routine => work r.2) (w_routines w) +
  sum_list_with closerWork (w_closers w).

Definition cost (o : origin) : nat := match o with Code => 1 | _ => 0 end.

Lemma sum_list_with_pair b rs : sum_list_with (fun r : bool * routine => work r.2) (pair b <$> rs) = sum_list_with work rs.
Proof. induction rs; simpl; auto. Qed.

Lemma handled_work c m d stream x r x' h : handled c m d stream x r x' h ->
  sharedWork x' = sharedWork x /\ (sum_list_with handlerWork h <= 1)%nat.
Proof. destruct 1; destruct_perform; unfold sharedWork; simpl; auto. Qed.

Lemma rstep_work x r o x' rs : rstep x r o x' rs ->
  (cost o + sharedWork x' + sum_list_with work rs <= sharedWork x + work r)%nat.
Proof.
  destruct 1 as [| | | |c l E| | |c|c|c dg rt fresh res calls s _ _|calls|c m|c m|c m|c m bi un hs d n l1 l2 Hl E
    |c m bi un hs d Hl _|c m bi un hs1 hs2 d n r x' h Hh|c m bi un hs1 hs2 d n|c m bi un hs1 hs2|c m bi un hs1 hs2|c m];
    destruct_perform; try (unfold sharedWork; simpl; rewrite ?sum_list_with_app; simpl; lia).
  - unfold sharedWork. simpl. rewrite E. simpl. lia.
  - destruct (isClosed _); simpl; lia.
  - destruct res; unfold sharedWork; simpl; lia.
  - unfold sharedWork. simpl. rewrite E, !length_app. simpl. lia.
  - destruct d; simpl in Hl; subst; simpl; lia.
  - apply handled_work in Hh as [-> Hh]. simpl. rewrite !sum_list_with_app. simpl. lia.
Qed.

Lemma xstep_work fcOf x o x' : xstep fcOf x o x' -> o <> New -> (cost o + sharedWork x' <= sharedWork x)%nat.
Proof.
  destruct 1 as [c m l1 l2 _ E|c m l1 l2 E|c l1 l2 E _|c l1 l2 E _| | | | |]; intros Ho; try done;
    destruct_perform; unfold sharedWork; simpl; rewrite ?E, ?length_app; simpl; lia.
Qed.

Lemma closerStep_work x c x' c' : closerStep x c = (x', c') -> c <> CReturned ->
  (1 + sharedWork x' + closerWork c' <= sharedWork x + closerWork c)%nat.
Proof.
  destruct c; simpl; intros [= <- <-] Hc; try done; destruct_perform; unfold sharedWork; simpl; lia.
Qed.

Lemma step_work fcOf w o w' : step fcOf w o w' -> o <> New -> (cost o + totalWork w' <= totalWork w)%nat.
Proof.
  destruct 1 as [l1 l2 b r o x' rs E Hr|o x' Hx|l1 l2 c x' c' E Hc _ Hs| | | |]; intros Ho; try done;
    unfold totalWork; simpl.
  - apply rstep_work in Hr. rewrite E, !sum_list_with_app, sum_list_with_pair. simpl. lia.
  - apply xstep_work in Hx; [lia|done].
  - apply closerStep_work in Hs; [|done]. rewrite E, !sum_list_with_app. simpl. lia.
Qed.

(** ** The refinement of [Server]

    The functions of [Server] run in these goroutines, and nothing else changes
    its state. A connection whose function is about to be given to [AfterFunc]
    counts as watched. *)

Definition registered (r : bool * routine) : option (nat * nat) :=
  match r.2 with RRegistered c m => Some (c, m) | _ => None end.

Record implements (w : world) (a : Server.world) : Prop := {
  im_s : Server.w_s a = x_s (w_x w);
  im_watch : Server.w_watch a ≡ₚ x_watch (w_x w) ++ omap registered (w_routines w);
  im_closing : Server.w_closing a = x_closing (w_x w);
}.

Section refinement.
Context (fcOf : nat -> sessionFlowControl).

Definition concreteStep (w : world) (e : option unit) (w' : world) : Prop := e = None /\ anyStep fcOf w w'.
Definition abstractStep (a : Server.world) (e : option unit) (a' : Server.world) : Prop :=
  e = None /\ Server.step fcOf a a'.

Lemma abs_stay w w' a : implements w a ->
  x_s (w_x w') = x_s (w_x w) -> x_watch (w_x w') ++ omap registered (w_routines w') ≡ₚ
    x_watch (w_x w) ++ omap registered (w_routines w) -> x_closing (w_x w') = x_closing (w_x w) ->
  exists a', execution abstractStep a [] a' /\ implements w' a'.
Proof.
  intros [H1 H2 H3] E1 E2 E3. exists a. split; [apply exec_nil|]. constructor; [congruence| |congruence].
  by rewrite E2.
Qed.

Lemma abs_go w' a a' : Server.step fcOf a a' -> implements w' a' ->
  exists a', execution abstractStep a [] a' /\ implements w' a'.
Proof. intros H Hi. exists a'. split; [|done]. by apply (exec_one abstractStep a None). Qed.

(** A step that changes only the managers or [sv_ctxDone]. *)
Lemma abs_same w w' a s : implements w a ->
  Server.step fcOf a (Server.mkWorld s (Server.w_watch a) (Server.w_closing a)) ->
  x_s (w_x w') = s -> x_watch (w_x w') ++ omap registered (w_routines w') ≡ₚ
    x_watch (w_x w) ++ omap registered (w_routines w) -> x_closing (w_x w') = x_closing (w_x w) ->
  exists a', execution abstractStep a [] a' /\ implements w' a'.
Proof.
  intros [H1 H2 H3] Hs E1 E2 E3. eapply abs_go; [exact Hs|].
  constructor; simpl; [done| |congruence]. by rewrite E2.
Qed.

Lemma registered_app l1 b rs l2 : omap registered (l1 ++ (pair b <$> rs) ++ l2) ≡ₚ
  omap registered (pair b <$> rs) ++ omap registered (l1 ++ l2).
Proof. rewrite !omap_app. rewrite !(assoc_L (++)). f_equiv. apply Permutation_app_comm. Qed.

(** Steps of a goroutine that neither register a connection nor watch one. *)
Lemma abs_quiet w a l1 l2 b r x' rs : implements w a -> w_routines w = l1 ++ (b, r) :: l2 ->
  omap registered (pair b <$> rs) = omap registered [(b, r)] ->
  x_s x' = x_s (w_x w) -> x_watch x' = x_watch (w_x w) -> x_closing x' = x_closing (w_x w) ->
  exists a', execution abstractStep a [] a' /\
    implements (mkWorld x' (l1 ++ (pair b <$> rs) ++ l2) (w_closers w)) a'.
Proof.
  intros Hi E Er E1 E2 E3. eapply abs_stay; [exact Hi|done| |done]. simpl. rewrite E2, E.
  rewrite (registered_app l1 b rs l2), Er. f_equiv.
  change (l1 ++ (b, r) :: l2) with (l1 ++ (pair b <$> [r]) ++ l2). by rewrite (registered_app l1 b [r] l2).
Qed.

Lemma abs_handled w a c m d stream r x' h rts : implements w a -> handled c m d stream (w_x w) r x' h ->
  omap registered rts ≡ₚ omap registered (w_routines w) ->
  exists a', execution abstractStep a [] a' /\ implements (mkWorld x' rts (w_closers w)) a'.
Proof.
  intros Hi Hh Er. destruct Hh as [| |rd wr|code|id n mgr calls mgr' -> Hm He|id n mgr calls mgr' -> Hm He].
  1-3: eapply abs_stay; [exact Hi|done| |done]; simpl; by rewrite Er.
  - destruct_perform. eapply abs_stay; [exact Hi|done| |done]. simpl. by rewrite Er.
  - eapply (abs_same w); [exact Hi| |reflexivity|simpl; by rewrite Er|done].
    rewrite <- (im_s _ _ Hi) in *. by eapply (step_manager fcOf m a mgr mgr'); [|eapply ms_AddStream].
  - eapply (abs_same w); [exact Hi| |reflexivity|simpl; by rewrite Er|done].
    rewrite <- (im_s _ _ Hi) in *. by eapply (step_manager fcOf m a mgr mgr'); [|eapply ms_AddUniStream].
Qed.

Lemma serveConn_Err dg rt c fresh s e calls s' :
  serveConn dg rt c fresh s = Some (Err e, calls, s') -> s' = s.
Proof. unfold serveConn. intros. by repeat (case_match; simplify_option_eq). Qed.

Lemma abs_rstep w a l1 l2 b r o x' rs : implements w a -> w_routines w = l1 ++ (b, r) :: l2 ->
  rstep (w_x w) r o x' rs ->
  exists a', execution abstractStep a [] a' /\
    implements (mkWorld x' (l1 ++ (pair b <$> rs) ++ l2) (w_closers w)) a'.
Proof.
  intros Hi E Hr. assert (omap registered (w_routines w) ≡ₚ
    omap registered [(b, r)] ++ omap registered (l1 ++ l2)) as Hp.
  { rewrite E. apply (registered_app l1 b [r] l2). }
  destruct Hr as [| | | |c l Ep| | |c|c|c dg rt fresh res calls s Hf Hs|calls|c m|c m|c m|c m bi un hs d n k1 k2 Hl Ek
    |c m bi un hs d Hl _|c m bi un hs1 hs2 d n r x' h Hh|c m bi un hs1 hs2 d n|c m bi un hs1 hs2|c m bi un hs1 hs2|c m];
    destruct_perform; try (by eapply abs_quiet).
  - destruct (isClosed _); by eapply abs_quiet.
  - destruct Hi as [H1 H2 H3]. destruct res as [m|e].
    + eapply abs_go.
      * rewrite <- H1 in *. by eapply (step_serve fcOf dg rt c fresh a m).
      * constructor; simpl; [done| |done]. rewrite H2, Hp.
        rewrite (registered_app l1 b [RRegistered c m] l2). simpl. by rewrite Permutation_middle.
    + apply serveConn_Err in Hs as ->. by eapply abs_quiet.
  - eapply abs_stay; [exact Hi|done| |done]. simpl. rewrite Hp. rewrite (registered_app l1 b [RRaw c m] l2).
    simpl. by rewrite Permutation_middle.
  - eapply abs_handled; [done..|]. rewrite Hp. by rewrite (registered_app l1 b [_] l2).
Qed.

Lemma abs_xstep w a o x' : implements w a -> xstep fcOf (w_x w) o x' ->
  exists a', execution abstractStep a [] a' /\ implements (mkWorld x' (w_routines w) (w_closers w)) a'.
Proof.
  intros Hi Hx.
  destruct Hx as [c m l1 l2 _ E|c m l1 l2 E|c l1 l2 E _|c l1 l2 E _|c|c id pr res calls s Hu|m mgr mgr' Hm Hs|c|c d n];
    destruct_perform; try (by eapply abs_stay).
  - destruct Hi as [H1 H2 H3]. rewrite E in H2.
    assert ((c, m) ∈ Server.w_watch a) as (k1 & k2 & Ea)%list_elem_of_split.
    { rewrite H2. set_solver. }
    eapply abs_go; [by eapply (step_done fcOf c m a k1 k2)|]. constructor; simpl; [by rewrite H1| |by rewrite H3].
    apply (Permutation_cons_inv (a := (c, m))). rewrite Permutation_middle, <- Ea, H2.
    rewrite <- !(assoc_L (++)). simpl. by rewrite <- Permutation_middle.
  - destruct Hi as [H1 H2 H3]. rewrite E in H3.
    eapply abs_go; [by eapply (step_closeManager fcOf c m a l1 l2)|]. constructor; simpl; [by rewrite H1|done|done].
  - eapply (abs_same w); [exact Hi| |reflexivity|done|done].
    rewrite <- (im_s _ _ Hi) in *. by eapply (step_upgrade fcOf c id pr a).
  - eapply (abs_same w); [exact Hi| |reflexivity|done|done].
    rewrite <- (im_s _ _ Hi) in *. by eapply (step_manager fcOf m a mgr mgr').
Qed.

Lemma abs_closerStep w a c x' c' cl : implements w a -> closerStep (w_x w) c = (x', c') ->
  exists a', execution abstractStep a [] a' /\ implements (mkWorld x' (w_routines w) cl) a'.
Proof.
  intros Hi. destruct c; simpl; try (intros [= <- <-]; by eapply abs_stay).
  - intros [= <- <-]. destruct_perform. eapply (abs_same w); [exact Hi| |reflexivity|done|done].
    rewrite <- (im_s _ _ Hi). apply step_closeConns.
  - intros [= <- <-]. eapply (abs_same w); [exact Hi| |reflexivity|done|done].
    rewrite <- (im_s _ _ Hi). apply step_ctxCancel.
Qed.

Lemma server_simulation : ForwardSimulation start concreteStep Server.start abstractStep implements.
Proof.
  constructor; [by constructor|]. intros w a e w' Hi [-> [o He]]. simpl.
  destruct He as [l1 l2 b r o x' rs E Hr|o x' Hx|l1 l2 c x' c' E _ _ Hs| | | |].
  - by eapply abs_rstep.
  - by eapply abs_xstep.
  - by eapply abs_closerStep.
  - by eapply abs_stay.
  - by eapply abs_stay.
  - by eapply abs_stay.
  - by eapply abs_stay.
Qed.

(** Every state of these goroutines implements a reachable state of [Server]. *)
Lemma reachable_implements w : reachable fcOf w -> exists a, Server.reachable fcOf a /\ implements w a.
Proof.
  intros H. assert (exists t, execution concreteStep start t w) as [t Ht].
  { apply rtc_exec. eapply rtc_subrel; [|exact H]. intros w1 w2 Hs. by exists None. }
  destruct (sim_from_init _ _ _ _ server_simulation _ _ Ht) as (a & Ha & Hi). exists a. split; [|done].
  assert (rtc (silent abstractStep) Server.start a) as Hrtc by (apply rtc_exec; by exists t).
  eapply rtc_subrel; [|exact Hrtc]. by intros a1 a2 [? [_ ?]].
Qed.

End refinement.

(** ** The connections that the server is responsible for *)

(** A goroutine that is going to close the connection, whatever happens. *)
Definition willClose (c : nat) (r : routine) : Prop :=
  match r with
  | RCheck c' | RRefuse c' | RConn c' true true => c' = c
  | RReject calls => CloseConn c 0 ∈ calls
  | _ => False
  end.

(** The part of [Serve]. *)
Definition serves (r : routine) : bool :=
  match r with RSocket | RListen | RAccept | RCheck _ | RRefuse _ => true | _ => false end.

Definition known (c : nat) (s : Server) : Prop := sv_closed s = false /\ is_Some (managerOf c s).

Record winv (w : world) : Prop := {
  wi_counted b r : (b, r) ∈ w_routines w -> serves r = true -> b = true;
  wi_guard b c m bi un hs : (b, RLoops c m bi un hs) ∈ w_routines w ->
    c ∈ x_dead (w_x w) \/ c ∈ x_guards (w_x w);
  wi_watch c m : (c, m) ∈ x_watch (w_x w) \/ (exists b, (b, RRegistered c m) ∈ w_routines w) ->
    c ∈ x_dead (w_x w) \/ known c (x_s (w_x w));
  wi_accepted c : c ∈ x_accepted (w_x w) ->
    c ∈ x_dead (w_x w) \/ known c (x_s (w_x w)) \/ exists r, (true, r) ∈ w_routines w /\ willClose c r;
}.

(** What a step of a goroutine does to the connections. *)
Record rframe (x : shared) (r : routine) (x' : shared) (rs : list routine) : Prop := {
  rf_dead : x_dead x ⊆ x_dead x';
  rf_guards : x_guards x ⊆ x_guards x';
  rf_known c : known c (x_s x) -> known c (x_s x');
  rf_serves r' : r' ∈ rs -> serves r' = true -> serves r = true;
  rf_loops c m bi un hs : RLoops c m bi un hs ∈ rs ->
    (exists bi un hs, r = RLoops c m bi un hs) \/ c ∈ x_guards x';
  rf_registered c m : RRegistered c m ∈ rs -> known c (x_s x');
  rf_watch c m : (c, m) ∈ x_watch x' -> (c, m) ∈ x_watch x \/ r = RRegistered c m;
  rf_willClose c : willClose c r -> c ∈ x_dead x' \/ known c (x_s x') \/ exists r', r' ∈ rs /\ willClose c r';
  rf_accepted c : c ∈ x_accepted x' -> c ∈ x_accepted x \/ r = RAccept /\ RCheck c ∈ rs;
}.

Lemma handled_frame c m d stream x r x' h : handled c m d stream x r x' h ->
  x_dead x ⊆ x_dead x' /\ x_guards x' = x_guards x /\ x_accepted x' = x_accepted x /\
  x_watch x' = x_watch x /\ forall c, known c (x_s x) -> known c (x_s x').
Proof. destruct 1; destruct_perform; simpl; by split_and!. Qed.

Lemma serveConn_known dg rt c fresh s m calls s' : serveConn dg rt c fresh s = Some (Ok m, calls, s') ->
  known c s' /\ forall c', known c' s -> known c' s'.
Proof.
  unfold serveConn, known, managerOf. intros He.
  destruct dg; [|done]. destruct rt; [|done]. simpl in He. destruct (sv_closed s) eqn:Ec; [done|].
  destruct (default ∅ (sv_conns s) !! c) as [m0|] eqn:Em; [simplify_eq; rewrite Ec; by rewrite Em|].
  destruct (sv_conns s) as [conns|] eqn:Es; simplify_eq/=. split; [by rewrite lookup_insert_eq|].
  intros c' [? ?]. split; [done|]. destruct (decide (c = c')) as [->|]; [by rewrite lookup_insert_eq|].
  by rewrite lookup_insert_ne.
Qed.

Lemma serveConn_rejected c fresh s e calls s' : serveConn true true c fresh s = Some (Err e, calls, s') ->
  CloseConn c 0 ∈ calls.
Proof.
  unfold serveConn. simpl. intros He. destruct (sv_closed s); [simplify_eq; by left|].
  destruct (managerOf c s); [done|]. by destruct (sv_conns s).
Qed.

Lemma rstep_frame x r o x' rs : rstep x r o x' rs -> rframe x r x' rs.
Proof.
  destruct 1 as [| | | |c l E| | |c|c|c dg rt fresh res calls s _ Hs|calls|c m|c m|c m|c m bi un hs d n l1 l2 Hl E
    |c m bi un hs d Hl _|c m bi un hs1 hs2 d n r x' h Hh|c m bi un hs1 hs2 d n|c m bi un hs1 hs2|c m bi un hs1 hs2|c m];
    destruct_perform; try (constructor; simpl; set_solver by eauto).
  - destruct (isClosed _); constructor; simpl; set_solver by eauto.
  - destruct res as [m|e].
    + apply serveConn_known in Hs as [Hk Hks]. constructor; simpl; try set_solver by eauto.
      intros c' Hc. destruct dg; [|done]. destruct rt; [|done]. subst. auto.
    + pose proof (serveConn_Err _ _ _ _ _ _ _ _ Hs) as ->. constructor; simpl; try set_solver by eauto.
      intros c' Hc. destruct dg; [|done]. destruct rt; [|done]. subst. right; right.
      exists (RReject calls). split; [set_solver|]. by eapply serveConn_rejected.
  - destruct (handled_frame _ _ _ _ _ _ _ _ Hh) as (H1 & H2 & H3 & H4 & H5).
    constructor; simpl; rewrite ?H2, ?H3, ?H4; set_solver by eauto.
Qed.

Lemma closeConns_kills c s : known c s -> CloseConn c 0 ∈ (closeConns s).1.
Proof.
  intros [_ [m Hm]]. unfold closeConns. simpl. apply list_elem_of_fmap. exists (c, m).
  split; [done|]. by apply elem_of_map_to_list.
Qed.

(** What the other steps do. *)
Lemma xstep_frame fcOf x o x' : xstep fcOf x o x' ->
  x_dead x ⊆ x_dead x' /\ x_accepted x' = x_accepted x /\ x_watch x' ⊆ x_watch x /\
  (forall c, c ∈ x_guards x -> c ∈ x_dead x' \/ c ∈ x_guards x') /\
  forall c, known c (x_s x) -> c ∈ x_dead x' \/ known c (x_s x').
Proof.
  destruct 1 as [c m l1 l2 Hc E|c m l1 l2 E|c l1 l2 E _|c l1 l2 E Hc|c|c id pr res calls s Hu|m mgr mgr' Hm Hs|c|c d n];
    destruct_perform; simpl; split_and!; rewrite ?E; auto; try set_solver.
  - intros c' [H1 [m' H2]]. destruct (decide (c' = c)) as [->|Hne]; [by left|right]. split; [done|].
    unfold managerOf, forgetConn in *. simpl. destruct (sv_conns (x_s x)); simpl in *; [|by rewrite lookup_empty in H2].
    by rewrite lookup_delete_ne.
  - intros c' [H1 H2]. right. destruct (closeManager_fields m (x_s x)) as (E1 & E2 & _).
    unfold known, managerOf. by rewrite E1, E2.
  - intros c' Hk. right. unfold upgradeLocked in Hu.
    destruct (managerOf c _) as [m|]; [|by simplify_eq]. destruct (sv_heap _ !! m); [|done]. simpl in Hu.
    destruct (_ && _); by simplify_eq/=.
Qed.

Lemma closerStep_frame x c x' c' : closerStep x c = (x', c') ->
  x_dead x ⊆ x_dead x' /\ x_accepted x' = x_accepted x /\ x_watch x' = x_watch x /\ x_guards x' = x_guards x /\
  forall c, known c (x_s x) -> c ∈ x_dead x' \/ known c (x_s x').
Proof.
  destruct c; simpl; intros [= <- <-]; destruct_perform; simpl; split_and!; auto.
  intros c Hk. left. eapply Hkilled. by apply closeConns_kills.
Qed.

Lemma elem_of_mid {A} (l1 l2 : list A) x y : y ∈ l1 ++ x :: l2 -> y = x \/ forall k, y ∈ l1 ++ k ++ l2.
Proof. intros [H|[->|H]%elem_of_cons]%elem_of_app; [right|by left|right]; intros k; rewrite !elem_of_app; auto. Qed.

Lemma elem_of_mid_inv {A} (l1 k l2 : list A) x y : y ∈ l1 ++ k ++ l2 -> y ∈ k \/ y ∈ l1 ++ x :: l2.
Proof. rewrite !elem_of_app, elem_of_cons. tauto. Qed.

Lemma winv_same x' w : winv w -> x_dead (w_x w) ⊆ x_dead x' -> x_accepted x' = x_accepted (w_x w) ->
  x_watch x' ⊆ x_watch (w_x w) -> (forall c, c ∈ x_guards (w_x w) -> c ∈ x_dead x' \/ c ∈ x_guards x') ->
  (forall c, known c (x_s (w_x w)) -> c ∈ x_dead x' \/ known c (x_s x')) ->
  forall cl, winv (mkWorld x' (w_routines w) cl).
Proof.
  intros [H1 H2 H4 H3] Hd Ha Hwt Hg Hk cl. constructor; simpl; [exact H1| | |].
  - intros b c m bi un hs Hin. destruct (H2 _ _ _ _ _ _ Hin); [left; set_solver|auto].
  - intros c m Hin. assert (c ∈ x_dead (w_x w) \/ known c (x_s (w_x w))) as [?|Hkn]; [|left; set_solver|auto].
    apply (H4 c m). destruct Hin; [left; set_solver|by right].
  - intros c Hc. rewrite Ha in Hc. destruct (H3 _ Hc) as [?|[Hkn|?]]; [left; set_solver| |auto].
    destruct (Hk _ Hkn); auto.
Qed.

Lemma winv_routine w l1 l2 b r x' rs : winv w -> w_routines w = l1 ++ (b, r) :: l2 ->
  rframe (w_x w) r x' rs -> winv (mkWorld x' (l1 ++ (pair b <$> rs) ++ l2) (w_closers w)).
Proof.
  intros [H1 H2 H4 H3] E [Fd Fg Fk Fs Fl Fr Ft Fw Fa].
  assert (forall q, q ∈ pair b <$> rs -> exists r', q = (b, r') /\ r' ∈ rs) as Hq.
  { intros q (r' & -> & Hr')%list_elem_of_fmap. eauto. }
  assert ((b, r) ∈ w_routines w) as Hr by (rewrite E; set_solver).
  constructor; simpl.
  - intros b' r' [(r2 & [= <- <-] & Hr2)%Hq|Hin]%(elem_of_mid_inv _ _ _ (b, r)) Hs; [eauto|].
    rewrite <- E in Hin. eauto.
  - intros b' c m bi un hs [(r2 & [= <- <-] & Hr2)%Hq|Hin]%(elem_of_mid_inv _ _ _ (b, r)).
    + destruct (Fl _ _ _ _ _ Hr2) as [(bi' & un' & hs' & ->)|?]; [|by right].
      destruct (H2 _ _ _ _ _ _ Hr); [left|right]; set_solver.
    + rewrite <- E in Hin. destruct (H2 _ _ _ _ _ _ Hin); [left|right]; set_solver.
  - intros c m Hin. assert (c ∈ x_dead (w_x w) \/ known c (x_s (w_x w)) \/ known c (x_s x')) as [?|[?|?]];
      [|left; set_solver|auto|auto].
    destruct Hin as [Hin|(b' & [(r2 & [= <- <-] & Hr2)%Hq|Hin]%(elem_of_mid_inv _ _ _ (b, r)))].
    + destruct (Ft _ _ Hin) as [?| ->]; [destruct (H4 c m); auto|destruct (H4 c m); eauto].
    + right; right. eauto.
    + rewrite <- E in Hin. destruct (H4 c m); eauto.
  - intros c Hc. destruct (Fa _ Hc) as [Hc'|[-> Hin]].
    + destruct (H3 _ Hc') as [?|[?|(r' & Hr' & Hw)]]; [left; set_solver|auto|].
      rewrite E in Hr'. apply elem_of_mid in Hr' as [[= <- ->]|Hin]; [|right; right; by exists r'].
      destruct (Fw _ Hw) as [?|[?|(r2 & Hr2 & Hw2)]]; [auto|auto|]. right; right. exists r2. split; [|done].
      rewrite !elem_of_app. right; left. by apply list_elem_of_fmap_2.
    + right; right. exists (RCheck c). split; [|done]. rewrite (H1 _ _ Hr eq_refl).
      rewrite !elem_of_app. right; left. by apply list_elem_of_fmap_2.
Qed.

Lemma shutdown_winv_reachable fcOf w : reachable fcOf w -> winv w.
Proof.
  intros H. assert (winv start) as Hs.
  { constructor; simpl; set_solver. }
  revert Hs. induction H as [|w1 w2 w3 [o He] _ IH]; [done|]. intros Hi. apply IH. clear IH.
  destruct He as [l1 l2 b r o x' rs E Hr|o x' Hx|l1 l2 c x' c' E _ _ Hs| | |c dg rt|].
  - eapply winv_routine; [done..|]. by eapply rstep_frame.
  - apply xstep_frame in Hx as (? & ? & ? & ? & ?). by apply winv_same.
  - apply closerStep_frame in Hs as (? & ? & Hw & Hg & ?). apply winv_same; rewrite ?Hw, ?Hg; auto.
  - destruct Hi as [H1 H2 H4 H3]. constructor; simpl; set_solver by eauto.
  - destruct Hi as [H1 H2 H4 H3]. constructor; simpl; set_solver by eauto.
  - destruct Hi as [H1 H2 H4 H3]. constructor; simpl; set_solver by eauto.
  - by destruct Hi.
Qed.

(** ** The phases of [Close] *)

Record pinv (w : world) : Prop := {
  pi_closed c : c ∈ w_closers w -> c <> CLock -> sv_closed (x_s (w_x w)) = true;
  pi_done c : c ∈ w_closers w -> c <> CLock -> c <> CCancel -> sv_ctxDone (x_s (w_x w)) = true;
  pi_ctx : sv_ctxDone (x_s (w_x w)) = true -> sv_closed (x_s (w_x w)) = true;
}.

Definition flags (s : Server) : bool * bool := (sv_closed s, sv_ctxDone s).

Lemma closeManager_flags m s : flags (closeManager m s) = flags s.
Proof. unfold closeManager. by destruct (sv_heap s !! m). Qed.

Lemma serveConn_flags dg rt c fresh s res calls s' :
  serveConn dg rt c fresh s = Some (res, calls, s') -> flags s' = flags s.
Proof. unfold serveConn. intros. by repeat (case_match; simplify_option_eq). Qed.

Lemma rstep_flags x r o x' rs : rstep x r o x' rs -> flags (x_s x') = flags (x_s x).
Proof.
  destruct 1; destruct_perform; try done; simpl.
  - by eapply serveConn_flags.
  - match goal with H : handled _ _ _ _ _ _ _ _ |- _ => destruct H end; destruct_perform; done.
Qed.

Lemma xstep_flags fcOf x o x' : xstep fcOf x o x' -> flags (x_s x') = flags (x_s x).
Proof.
  destruct 1 as [| | | | |c id pr res calls s Hu| | |]; destruct_perform; try done; simpl.
  - apply closeManager_flags.
  - unfold upgradeLocked in Hu. destruct (managerOf c _) as [m|]; [|by simplify_eq].
    destruct (sv_heap _ !! m); [|done]. simpl in Hu. destruct (_ && _); by simplify_eq/=.
Qed.

Lemma closeConns_flags s : flags (closeConns s).2 = (true, sv_ctxDone s).
Proof.
  unfold closeConns. simpl. generalize (map_to_list (default ∅ (sv_conns s))) as l. intros l.
  induction l as [|[c m] l IH]; [done|]. simpl. by rewrite closeManager_flags.
Qed.

Lemma pinv_flags x' w rts : pinv w -> flags (x_s x') = flags (x_s (w_x w)) -> pinv (mkWorld x' rts (w_closers w)).
Proof. intros [H1 H2 H3] [= E1 E2]. constructor; simpl; rewrite ?E1, ?E2; eauto. Qed.

Lemma pinv_reachable fcOf w : reachable fcOf w -> pinv w.
Proof.
  intros H. assert (pinv start) as Hs by (constructor; simpl; set_solver).
  revert Hs. induction H as [|w1 w2 w3 [o He] _ IH]; [done|]. intros Hi. apply IH. clear IH.
  destruct He as [l1 l2 b r o x' rs E Hr|o x' Hx|l1 l2 c x' c' E Hc _ Hs| | |c dg rt|].
  - eapply pinv_flags; [done|by eapply rstep_flags].
  - eapply pinv_flags; [done|by eapply xstep_flags].
  - destruct Hi as [H1 H2 H3]. assert (c ∈ w_closers w1) as Hin by (rewrite E; set_solver).
    assert (forall q, q ∈ l1 ++ c' :: l2 -> q = c' \/ q ∈ w_closers w1) as Hq by (rewrite E; set_solver).
    destruct c; simpl in Hs; injection Hs as <- <-; destruct_perform; try done.
    + pose proof (closeConns_flags (x_s (w_x w1))) as [= E1 E2].
      constructor; simpl; rewrite ?E1, ?E2; [done| |done]. intros q [->|?]%Hq; [done|eauto].
    + constructor; simpl; try done; [|by intros; eapply H1]. intros q [->|?]%Hq ?; [by eapply H1|eauto].
    + constructor; simpl; try done; [eauto|]. intros q [->|?]%Hq ? ?; [by eapply H2|eauto].
    + constructor; simpl; try done; [eauto|]. intros q [->|?]%Hq ? ?; [by eapply H2|eauto].
  - destruct Hi as [H1 H2 H3]. by constructor.
  - destruct Hi as [H1 H2 H3]. by constructor.
  - destruct Hi as [H1 H2 H3]. by constructor.
  - destruct Hi as [H1 H2 H3]. constructor; simpl; [| |done].
    + intros q [->|?]%elem_of_cons; [done|eauto].
    + intros q [->|?]%elem_of_cons; [done|eauto].
Qed.

(** ** Progress *)

(** Nothing is left: no goroutine, no session, no open connection. *)
Record finished (w : world) : Prop := {
  fin_routines : w_routines w = [];
  fin_guards : x_guards (w_x w) = [];
  fin_watch : x_watch (w_x w) = [];
  fin_closing : x_closing (w_x w) = [];
  fin_closers : Forall (eq CReturned) (w_closers w);
  fin_accepted : x_accepted (w_x w) ⊆ x_dead (w_x w);
  fin_sessions m mgr i : sv_heap (x_s (w_x w)) !! m = Some mgr -> sessionAt mgr i = None;
}.

Section progress.
Context (fcOf : nat -> sessionFlowControl) (w : world).
Context (Hreach : reachable fcOf w) (Hdone : sv_ctxDone (x_s (w_x w)) = true).

Lemma serve_enabled c dg rt : exists x' rs, rstep (w_x w) (RConn c dg rt) Code x' rs.
Proof.
  destruct (reachable_implements _ _ Hreach) as (a & Ha & [Ea _ _]).
  pose proof (i_closed _ _ (server_inv_reachable _ _ Ha)) as Hcl. rewrite Ea in Hcl.
  assert (exists res calls s, serveConn dg rt c (fresh (dom (sv_heap (x_s (w_x w))))) (x_s (w_x w)) =
    Some (res, calls, s)) as (res & calls & s & Hs).
  { unfold serveConn. destruct dg; simpl; [|eauto]. destruct rt; simpl; [|eauto].
    destruct (sv_closed (x_s (w_x w))); [eauto|]. destruct (managerOf _ _); [eauto|].
    destruct (sv_conns (x_s (w_x w))); [simpl; eauto|]. destruct Hcl as [_ Hcl]. discriminate (Hcl eq_refl). }
  do 2 eexists. eapply r_serve; [|exact Hs]. apply not_elem_of_dom, is_fresh.
Qed.

Lemma routine_enabled r : (forall c m bi un hs, r = RLoops c m bi un hs -> c ∈ x_dead (w_x w)) ->
  exists x' rs, rstep (w_x w) r Code x' rs.
Proof.
  intros Hd. destruct r as [| | |c|c|c dg rt|calls|c m|c m|c m [|] un hs]; try (by do 2 eexists; constructor).
  - apply serve_enabled.
  - do 2 eexists. apply (r_acceptStreamErr _ _ _ true un hs Bidi); auto.
  - destruct un; [do 2 eexists; apply (r_acceptStreamErr _ _ _ false true hs Uni); auto|].
    pose proof (Hd _ _ _ _ _ eq_refl) as Hc. destruct hs as [|[d n|] hs]; do 2 eexists.
    + apply r_wait.
    + by apply (r_headerErr _ _ _ _ _ [] hs).
    + by apply (r_http3Err _ _ _ _ _ [] hs).
Qed.

Definition enabled : Prop := exists w', step fcOf w Code w'.

Lemma guards_progress : enabled \/ x_guards (w_x w) = [].
Proof.
  destruct (x_guards (w_x w)) as [|c l] eqn:E; [by right|left].
  eexists. eapply step_shared. by eapply (x_guardCtx _ _ c [] l).
Qed.

Lemma routines_progress : x_guards (w_x w) = [] -> enabled \/ w_routines w = [].
Proof.
  intros Hg. destruct (w_routines w) as [|[b r] l] eqn:E; [by right|left].
  destruct (routine_enabled r) as (x' & rs & Hr).
  - intros c m bi un hs ->. destruct (wi_guard _ (shutdown_winv_reachable _ _ Hreach) b c m bi un hs) as [?|Hin]; [|done|].
    + rewrite E. by left.
    + rewrite Hg in Hin. by apply not_elem_of_nil in Hin.
  - eexists. by eapply (step_routine fcOf w [] l b r).
Qed.

Lemma closing_progress : enabled \/ x_closing (w_x w) = [].
Proof.
  destruct (x_closing (w_x w)) as [|[c m] l] eqn:E; [by right|left].
  eexists. eapply step_shared. by eapply (x_closeManager _ _ c m [] l).
Qed.

Lemma done_known c : ~ known c (x_s (w_x w)).
Proof. intros [E _]. by rewrite (pi_ctx _ (pinv_reachable _ _ Hreach) Hdone) in E. Qed.

Lemma watch_progress : enabled \/ x_watch (w_x w) = [].
Proof.
  destruct (x_watch (w_x w)) as [|[c m] l] eqn:E; [by right|left].
  destruct (wi_watch _ (shutdown_winv_reachable _ _ Hreach) c m) as [?|Hk]; [left; rewrite E; by left| |by destruct (done_known c)].
  eexists. eapply step_shared. by eapply (x_done _ _ c m [] l).
Qed.

Lemma closers_progress : w_routines w = [] -> enabled \/ Forall (eq CReturned) (w_closers w).
Proof.
  intros Hr. destruct (decide (Forall (eq CReturned) (w_closers w))) as [|Hn]; [by right|left].
  apply not_Forall_Exists, Exists_exists in Hn; [|apply _]. destruct Hn as (c & (l1 & l2 & E)%list_elem_of_split & Hc).
  destruct (closerStep (w_x w) c) as [x' c'] eqn:Hs. eexists. eapply (step_closer fcOf w l1 l2 c); [done|congruence| |done].
  intros _. unfold refCount. by rewrite Hr.
Qed.

(** The code can go on unless it is finished. *)
Lemma shutdown_progress : enabled \/ finished w.
Proof.
  destruct guards_progress as [|Hg]; [by left|]. destruct (routines_progress Hg) as [|Hr]; [by left|].
  destruct closing_progress as [|Hc]; [by left|]. destruct watch_progress as [|Hw]; [by left|].
  destruct (closers_progress Hr) as [|Hcl]; [by left|]. right. constructor; try done.
  - intros c [?|[Hk|(r & Hin & _)]]%(wi_accepted _ (shutdown_winv_reachable _ _ Hreach)); [done|by destruct (done_known c)|].
    rewrite Hr in Hin. by apply not_elem_of_nil in Hin.
  - intros m mgr i Hm. destruct (sessionAt mgr i) as [sess|] eqn:Es; [exfalso|done].
    destruct (reachable_implements _ _ Hreach) as (a & Ha & [E1 E2 E3]).
    assert (sessionIn a m i sess) as Hin by (exists mgr; by rewrite E1).
    destruct (i_sess _ _ (server_inv_reachable _ _ Ha) _ _ _ Hin) as [Hp _]. unfold pairs in Hp.
    rewrite E2, E3, Hc, Hw, Hr in Hp. by apply not_elem_of_nil in Hp.
Qed.

End progress.

(** ** Executions without new connections, streams and calls *)

(** The number counts the steps of the code. *)
Inductive run (fcOf : nat -> sessionFlowControl) : nat -> world -> world -> Prop :=
| run_refl w : run fcOf 0 w w
| run_step o n w w' w'' : o <> New -> step fcOf w o w' -> run fcOf n w' w'' -> run fcOf (cost o + n) w w''.

Lemma run_work fcOf n w w' : run fcOf n w w' -> (n + totalWork w' <= totalWork w)%nat.
Proof. induction 1 as [|o n w w' w'' Ho Hs _ IH]; [done|]. pose proof (step_work _ _ _ _ Hs Ho). lia. Qed.

Lemma run_reachable fcOf n w w' : run fcOf n w w' -> reachable fcOf w -> reachable fcOf w'.
Proof.
  induction 1 as [|o n w w' w'' _ Hs _ IH]; [done|]. intros H. apply IH. eapply rtc_r; [exact H|]. by exists o.
Qed.

Lemma step_ctxDone fcOf w o w' : step fcOf w o w' -> sv_ctxDone (x_s (w_x w)) = true -> sv_ctxDone (x_s (w_x w')) = true.
Proof.
  destruct 1 as [l1 l2 b r o x' rs _ Hr|o x' Hx|l1 l2 c x' c' _ _ _ Hs| | |c dg rt|]; intros H; try done; simpl.
  - apply rstep_flags in Hr as [= _ ->]. done.
  - apply xstep_flags in Hx as [= _ ->]. done.
  - destruct c; simpl in Hs; injection Hs as <- <-; destruct_perform; try done; simpl.
    by pose proof (closeConns_flags (x_s (w_x w))) as [= _ ->].
Qed.

Lemma run_ctxDone fcOf n w w' : run fcOf n w w' -> sv_ctxDone (x_s (w_x w)) = true -> sv_ctxDone (x_s (w_x w')) = true.
Proof. induction 1; eauto using step_ctxDone. Qed.

(** Some execution of the code finishes. *)
Lemma shutdown_finishes fcOf k w : (totalWork w <= k)%nat -> reachable fcOf w ->
  sv_ctxDone (x_s (w_x w)) = true -> exists n w', run fcOf n w w' /\ finished w'.
Proof.
  revert w. induction k as [|k IH]; intros w Hk Hr Hd; destruct (shutdown_progress fcOf w Hr Hd) as [[w1 Hs]|Hf];
    try (by exists 0%nat, w; split; [apply run_refl|]); pose proof (step_work _ _ _ _ Hs ltac:(done)); [simpl in *; lia|].
  destruct (IH w1) as (n & w' & Hn & Hf); [simpl in *; lia|eapply rtc_r; [exact Hr|by eexists]|by eapply step_ctxDone|].
  exists (cost Code + n)%nat, w'. split; [by eapply run_step|done].
Qed.

(** ** Examples *)

(** A listener and one connection with a session and a stream that the HTTP/3
    connection handles, while [Close] is called. *)
Definition exampleServer : Server :=
  mkServer (Some {[7%nat := 0%nat]}) false false
    {[0%nat := (AddSession 0 (mkEstablished 7 0 [] noFlowControl) newSessionManager).2]}.

Definition exampleServing (cl : list closer) : world :=
  mkWorld (mkShared exampleServer ∅ [] [] [(7%nat, 0%nat)] [] [7%nat] {[7%nat]})
    [(true, RAccept); (true, RLoops 7 0 true true [HHTTP3])] cl.

Lemma by_routine fcOf l1 l2 b r x o x' rs cl w : rstep x r o x' rs ->
  rtc (anyStep fcOf) (mkWorld x' (l1 ++ (pair b <$> rs) ++ l2) cl) w ->
  rtc (anyStep fcOf) (mkWorld x (l1 ++ (b, r) :: l2) cl) w.
Proof. intros H. apply rtc_l. exists o. by eapply (step_routine fcOf (mkWorld x _ cl) l1 l2 b r). Qed.

Lemma by_shared fcOf x o x' rts cl w : xstep fcOf x o x' ->
  rtc (anyStep fcOf) (mkWorld x' rts cl) w -> rtc (anyStep fcOf) (mkWorld x rts cl) w.
Proof. intros H. apply rtc_l. exists o. by apply (step_shared fcOf (mkWorld x rts cl)). Qed.

Lemma exampleServing_reachable : reachable plainFC (exampleServing [CLock]).
Proof.
  unfold reachable, start. set (acc := [(true, RAccept)]).
  eapply rtc_l; [eexists; apply step_Serve|]. eapply rtc_l; [eexists; apply step_Close|].
  cbn [w_x w_routines w_closers].
  eapply by_shared; [apply (x_newConn _ _ 7)|]. eapply by_shared; [apply (x_newStream _ _ 7 Bidi 4)|].
  eapply (by_routine _ [] [] true RListen); [apply r_listen|].
  eapply (by_routine _ [] [] true RAccept); [by apply r_accept|].
  eapply (by_routine _ [] [] true (RCheck 7)); [apply r_check|].
  eapply (by_routine _ acc [] true (RConn 7 true true)); [by eapply (r_serve _ 7 true true 0)|].
  eapply (by_routine _ acc [] true (RRegistered 7 0)); [apply r_afterFunc|].
  eapply (by_routine _ acc [] true (RRaw 7 0)); [apply r_raw|].
  eapply (by_routine _ acc [] true (RLoops 7 0 true true [])); [by eapply (r_acceptStream _ 7 0 true true [] Bidi 4 [] [])|].
  eapply (by_routine _ acc [] true (RLoops 7 0 true true [HHeader Bidi 4]));
    [eapply (r_header _ 7 0 true true [] [] Bidi 4); apply handled_http3|].
  eapply by_shared; [eapply (x_upgrade plainFC _ 7 0 []); reflexivity|]. apply rtc_refl.
Qed.

(** The call of [Close] has cancelled the context. *)
Definition exampleCancelled : world :=
  let x := w_x (exampleServing []) in
  mkWorld (perform (closeConns (x_s x)).1 (set_s (ctxCancel (closeConns (x_s x)).2) x))
    (w_routines (exampleServing [])) [CH3].

Lemma exampleCancelled_reachable : reachable plainFC exampleCancelled.
Proof.
  eapply rtc_trans; [apply exampleServing_reachable|].
  eapply rtc_l; [exists Code; by eapply (step_closer plainFC _ [] [] CLock)|].
  eapply rtc_l; [exists Code; by eapply (step_closer plainFC _ [] [] CCancel)|]. apply rtc_refl.
Qed.

(** ** Theorems *)

(** C13: the goroutines of the server refine [Server]. However they are
    interleaved, every state they reach is one that the methods of [Server]
    reach, with the same connections, session managers and sessions; the
    connections that are to be given to [AfterFunc], and those that have been, are
    the watched ones. So what [Server] guarantees holds of the goroutines:
    without flow control a connection has one session, and no session outlives
    its connection. *)
Theorem shutdown_refines_server (fcOf : nat -> sessionFlowControl) (w : world) : reachable fcOf w ->
  (exists a, Server.reachable fcOf a /\ implements w a) /\
  (forall m mgr i1 i2 s1 s2, sv_heap (x_s (w_x w)) !! m = Some mgr ->
     sessionAt mgr i1 = Some s1 -> sessionAt mgr i2 = Some s2 -> Enabled (fcOf (es_conn s1)) = false -> i1 = i2) /\
  (forall m mgr i sess, sv_heap (x_s (w_x w)) !! m = Some mgr -> sessionAt mgr i = Some sess ->
     (es_conn sess, m) ∈ x_watch (w_x w) \/ (es_conn sess, m) ∈ x_closing (w_x w) \/
     exists b, (b, RRegistered (es_conn sess) m) ∈ w_routines w).
Proof.
  intros H. destruct (reachable_implements _ _ H) as (a & Ha & Hi). split; [by exists a|].
  destruct Hi as [E1 E2 E3]. destruct (server_inv_reachable _ _ Ha) as [_ _ _ Hs Ho _]. split.
  - intros m mgr i1 i2 s1 s2 Hm H1 H2 He. assert (sessionIn a m i1 s1) as Hin1 by (exists mgr; by rewrite E1).
    eapply (Ho m); [exact Hin1|exists mgr; by rewrite E1|]. by destruct (Hs _ _ _ Hin1) as [_ ->].
  - intros m mgr i sess Hm Hsess. destruct (Hs m i sess) as [Hp _]; [exists mgr; by rewrite E1|].
    unfold pairs in Hp. rewrite E2, E3, !elem_of_app in Hp. destruct Hp as [[?|Hp]|?]; auto. right; right.
    apply list_elem_of_omap in Hp as ([b r] & Hin & Er). unfold registered in Er. simpl in Er. destruct r; try done. injection Er as <- <-. by exists b.
Qed.

Lemma shutdown_refines_server_witness :
  exists mgr, sv_heap (x_s (w_x (exampleServing [CLock]))) !! 0%nat = Some mgr /\
    sessionAt mgr 0 = Some (mkEstablished 7 0 [] noFlowControl) /\
    (7%nat, 0%nat) ∈ x_watch (w_x (exampleServing [CLock])).
Proof.
  eexists. split; [reflexivity|]. split; [reflexivity|].
  destruct (proj2 (proj2 (shutdown_refines_server plainFC _ exampleServing_reachable)) 0%nat _ 0
    (mkEstablished 7 0 [] noFlowControl) eq_refl eq_refl) as [H|[H|[b H]]]; [exact H|inversion H|].
  exfalso. apply elem_of_cons in H as [[=]|H]. apply elem_of_cons in H as [[=]|H]. inversion H.
Defined.

(** C14: [Close] returns. Once a call of [Close] has cancelled the context, the code
    takes at most [totalWork] more steps, whatever happens outside, unless new
    connections, streams or calls come; it can go on until nothing is left, so
    that there is an execution, and every one that is long enough ends so: every
    goroutine of [Serve], of [ServeQUICConn] and of the streams has ended, counted
    or not, as have those that watch the connections; every call of [Close] has
    returned; the connections that were accepted are closed; no session manager
    holds a session. *)
Theorem Close_returns (fcOf : nat -> sessionFlowControl) (w : world) :
  reachable fcOf w -> sv_ctxDone (x_s (w_x w)) = true ->
  (forall n w', run fcOf n w w' -> (n <= totalWork w)%nat) /\
  (forall n w', run fcOf n w w' -> (exists w'', step fcOf w' Code w'') \/ finished w') /\
  exists n w', run fcOf n w w' /\ finished w'.
Proof.
  intros Hr Hd. split_and!.
  - intros n w' H%run_work. lia.
  - intros n w' H. apply shutdown_progress; [by eapply run_reachable|by eapply run_ctxDone].
  - by eapply shutdown_finishes.
Qed.

Lemma Close_returns_witness :
  w_closers exampleCancelled = [CH3] /\ exists n w', (n <= 10)%nat /\ run plainFC n exampleCancelled w' /\ finished w'.
Proof.
  split; [reflexivity|].
  destruct (Close_returns plainFC exampleCancelled exampleCancelled_reachable eq_refl) as (H1 & _ & n & w' & Hn & Hf).
  exists n, w'. split; [|by split]. exact (H1 n w' Hn).
Defined.

(** C27: when a call of [Close] returns from [refCount.Wait], every connection that
    a listener has handed to the server is closed: those with a session manager
    by [Close] itself, the others by [ServeQUICConn] or, without serving them at
    all, by the loop of [serve]. Until then, each of the latter has a goroutine
    that will close it. *)
Theorem Close_closes_connections (fcOf : nat -> sessionFlowControl) (w : world) (c : nat) :
  reachable fcOf w -> c ∈ x_accepted (w_x w) -> sv_closed (x_s (w_x w)) = true ->
  c ∈ x_dead (w_x w) \/ (0 < refCount w)%nat /\ exists r, (true, r) ∈ w_routines w /\ willClose c r.
Proof.
  intros Hr Hc Hcl. destruct (wi_accepted _ (shutdown_winv_reachable _ _ Hr) c Hc) as [?|[[E _]|(r & Hin & Hw)]];
    [by left|congruence|right]. split; [|by exists r].
  unfold refCount. destruct (filter _ _) eqn:E; [|simpl; lia].
  assert ((true, r) ∈ filter (fun r : bool * routine => r.1 = true) (w_routines w)) as Hf by (by apply list_elem_of_filter).
  rewrite E in Hf. by apply not_elem_of_nil in Hf.
Qed.

(** A connection that [Accept] returned while [Close] had already run. *)
Definition exampleLate : world :=
  mkWorld (mkShared (mkServer None true true ∅) ∅ [] [] [] [] [] {[7%nat]}) [(true, RCheck 7)] [CWait].

Lemma exampleLate_reachable : reachable plainFC exampleLate.
Proof.
  unfold reachable, start.
  eapply rtc_l; [eexists; apply step_Serve|]. eapply rtc_l; [eexists; apply step_Close|].
  cbn [w_x w_routines w_closers].
  eapply by_shared; [apply (x_newConn _ _ 7)|].
  eapply (by_routine _ [] [] true RListen); [apply r_listen|].
  eapply rtc_l; [exists Code; by eapply (step_closer plainFC _ [] [] CLock)|].
  eapply rtc_l; [exists Code; by eapply (step_closer plainFC _ [] [] CCancel)|].
  eapply rtc_l; [exists Code; by eapply (step_closer plainFC _ [] [] CH3)|].
  eapply (by_routine _ [] [] true RAccept); [by apply r_accept|]. apply rtc_refl.
Qed.

Lemma Close_closes_connections_witness :
  (7%nat ∉ x_dead (w_x exampleLate)) /\ exists r, (true, r) ∈ w_routines exampleLate /\ willClose 7 r.
Proof.
  assert (7%nat ∉ x_dead (w_x exampleLate)) as Hn by (apply not_elem_of_empty). split; [exact Hn|].
  destruct (Close_closes_connections plainFC exampleLate 7 exampleLate_reachable) as [H|[_ H]].
  - change (7%nat ∈ ({[7%nat]} : gset nat)). by apply elem_of_singleton.
  - reflexivity.
  - destruct (Hn H).
  - exact H.
Defined.
