(* ===== verification/ClientConn.v ===== *)
(** * The client ([client_conn.go], [transport.go])

    [NewClientConn], [dial] and [Transport.Dial]. The results of the calls on
    the QUIC connection and the request stream are arguments, and the calls
    themselves are listed in order. *)

From S2P Require Import Prelude Errors Quicvarint Protocol Config Capsule Negotiation.
From S2P Require Import Session.

(** ** [NewClientConn] *)

(** What a client connection keeps. *)
Record ClientConn := mkClientConn {
  cc_config : Config;
  cc_applicationProtocols : list gostring;
  (** the additional settings that it sends *)
  cc_settings : gmap Z Z;
  (** the timeout of the session manager, in nanoseconds *)
  cc_timeout : Z;
}.

Definition newClientSettings (config : Config) : gmap Z Z :=
  addSettings config {[settingsWebTransportEnabled := 1]}.

(** [dgrams] and [resets] are the local capabilities of the connection. *)
Definition NewClientConn (dgrams resets : bool) (config : option Config) (protocols : list gostring)
    (reorderingTimeout : Z) : result error ClientConn :=
  if negb dgrams then
    Err (ErrNew (str "webtransport: DATAGRAM support required, enable it via QUICConfig.EnableDatagrams"))
  else if negb resets then
    Err (ErrNew (str "webtransport: stream reset partial delivery required, enable it via QUICConfig.EnableStreamResetPartialDelivery"))
  else
    let config := default (mkConfig 0 0 0) config in
    Ok (mkClientConn config protocols (newClientSettings config)
          (if decide (reorderingTimeout = 0) then 5 * 10 ^ 9 else reorderingTimeout)).

(** ** [dial] *)

(** The cases of the two [select] statements. *)
Inductive waited : Type :=
| Ready
| CtxDone (cause : error)
| ConnDone (cause : error)
| TransportDone (cause : error).

Record response := mkResponse {
  StatusCode : Z;
  (** the values of WT-Protocol; none when it is absent *)
  WTProtocol : list gostring;
}.

(** How everything that [dial] calls ends. *)
Record dialEnv := mkDialEnv {
  de_handshake : waited;
  de_datagramsRemote : bool;
  de_resetsRemote : bool;
  de_settingsReceived : waited;
  de_settings : http3_Settings;
  (** the ID of the request stream *)
  de_openRequestStream : result error Z;
  de_sendRequestHeader : option error;
  de_readResponse : result error response;
  de_tryWriteAll : option error;
}.

Inductive clientCall : Type :=
| SendRequestHeader (proto : gostring) (available : list gostring)
| OnStream (c : strCall)
| AddSession (id : Z) (protocol : gostring) (fc : sessionFlowControl)
| CloseConn (code : Z) (msg : gostring)
(** [context.AfterFunc(sess.Context(), ...)]: [CloseConn] when the session ends *)
| CloseConnAfterSession (code : Z) (msg : gostring).

Definition cancelRequest : list clientCall :=
  [OnStream (StrCancelRead http3.ErrCodeRequestCanceled); OnStream (StrCancelWrite http3.ErrCodeRequestCanceled)].

(** The session: its ID, protocol and limits. *)
Record dialed := mkDialed {
  di_id : Z;
  di_protocol : gostring;
  di_fc : sessionFlowControl;
}.

Section dial.
Context `{ET : !ErrorText} `{SF : !StructuredFields} `{Q : !GoQuote} `{V : !Quicvarint}.

(** The error of a [select], if it is not the first case. *)
Definition waitError (what : gostring) (w : waited) : option error :=
  match w with
  | Ready => None
  | CtxDone cause => Some (ErrWrap (str "error waiting for " ++ what ++ str ": " ++ Error cause) cause)
  | ConnDone cause | TransportDone cause => Some cause
  end.

Definition missing (msg : gostring) : error := ErrRequirementsNotMet (mkRequirementsNotMetError msg).

(** What the settings of the server must contain. *)
Definition checkSettings (settings : http3_Settings) : option error :=
  if negb (EnableExtendedConnect settings) then Some (missing (str "server didn't enable Extended CONNECT"))
  else if negb (EnableDatagrams settings) then Some (missing (str "server didn't enable HTTP/3 datagram support"))
  else
    match Other settings with
    | None => Some (missing (str "server didn't enable WebTransport"))
    | Some other =>
        match other !! settingsWebTransportEnabled with
        | None => Some (missing (str "server didn't enable WebTransport"))
        | Some s => if decide (s = 0) then Some (missing (str "server didn't enable WebTransport")) else None
        end
    end.

(** Everything before the request stream is opened: the values of
    WT-Available-Protocols in the request. *)
Definition dialChecks (c : ClientConn) (header : list gostring) (e : dialEnv) : result error (list gostring) :=
  match offerHeader (cc_applicationProtocols c) header with
  | Err err => Err err
  | Ok available =>
      match waitError (str "QUIC handshake") (de_handshake e) with
      | Some err => Err err
      | None =>
          if negb (de_datagramsRemote e) then Err (missing (str "server didn't enable QUIC datagram support"))
          else if negb (de_resetsRemote e) then
            Err (missing (str "server didn't enable QUIC stream reset partial delivery"))
          else
            match waitError (str "HTTP/3 settings") (de_settingsReceived e) with
            | Some err => Err err
            | None =>
                match checkSettings (de_settings e) with
                | Some err => Err err
                | None => Ok available
                end
            end
      end
  end.

(** The rest, on the request stream [id]. *)
Definition dialRequest (c : ClientConn) (available : list gostring) (id : Z) (e : dialEnv)
  : option response * result error dialed * list clientCall :=
  let send := [SendRequestHeader protocolHeader available] in
  match de_sendRequestHeader e with
  | Some err => (None, Err err, send ++ cancelRequest)
  | None =>
      match de_readResponse e with
      | Err err => (None, Err err, send ++ cancelRequest)
      | Ok rsp =>
          if decide (StatusCode rsp < 200 \/ 300 <= StatusCode rsp) then
            (Some rsp, Err (ErrNew (str "received status " ++ itoa (StatusCode rsp))), send ++ [OnStream StrClose])
          else
            match responseProtocol (cc_applicationProtocols c) (WTProtocol rsp) with
            | Err err =>
                (Some rsp, Err (ErrSession (mkSessionError false WTALPNErrorCode (Error err))),
                 send ++ (OnStream <$> closeSessionStream (de_tryWriteAll e) WTALPNErrorCode (Error err)))
            | Ok protocol =>
                let fc := Config_sessionFlowControl (cc_config c) (Some (de_settings e)) in
                (Some rsp, Ok (mkDialed id protocol fc), send ++ [AddSession id protocol fc])
            end
      end
  end.

Definition dial (c : ClientConn) (header : list gostring) (e : dialEnv)
  : option response * result error dialed * list clientCall :=
  match dialChecks c header e with
  | Err err => (None, Err err, [])
  | Ok available =>
      match de_openRequestStream e with
      | Err err => (None, Err err, [])
      | Ok id => dialRequest c available id e
      end
  end.

(** [ClientConn.Dial]; [u] is the error of [url.Parse]. *)
Definition ClientConn_Dial (u : option error) (c : ClientConn) (header : list gostring) (e : dialEnv)
  : option response * result error dialed * list clientCall :=
  match u with
  | Some err => (None, Err err, [])
  | None => dial c header e
  end.

(** ** [Transport] *)

(** [d.ctx] is done; [None] before [init]. *)
Record Transport := mkTransport { tr_ctxDone : option bool }.

Definition newTransport : Transport := mkTransport None.

(** [d.initOnce.Do(func() { d.init() })] *)
Definition initOnce (d : Transport) : Transport :=
  mkTransport (match tr_ctxDone d with None => Some false | done => done end).

(** [None] is a panic: [d.ctxCancel] is nil. *)
Definition Transport_Close (d : Transport) : option Transport :=
  match tr_ctxDone d with
  | None => None
  | Some _ => Some (mkTransport (Some true))
  end.

(** The check of [d.QUICConfig]; a config that is not set enables both. *)
Definition checkQUICConfig (quicConf : option (bool * bool)) : option error :=
  match quicConf with
  | None => None
  | Some (dgrams, resets) =>
      if negb dgrams then
        Some (ErrNew (str "webtransport: DATAGRAM support required, enable it via QUICConfig.EnableDatagrams"))
      else if negb resets then
        Some (ErrNew (str "webtransport: stream reset partial delivery required, enable it via QUICConfig.EnableStreamResetPartialDelivery"))
      else None
  end.

(** The code and the message with which a failed [Dial] closes the connection. *)
Definition closeReason (err : error) : Z * gostring :=
  match as_RequirementsNotMetError err with
  | Some reqErr => (WTRequirementsNotMetErrorCode, RequirementsNotMetError_Message reqErr)
  | None => (http3.ErrCodeNoError, [])
  end.

(** [quicConf]: the two flags of [d.QUICConfig], if it is set; [host] is the
    result of [url.Parse]; [qconn] that of dialing: the local capabilities. *)
Definition Dial (quicConf : option (bool * bool)) (config : option Config) (protocols : list gostring)
    (reorderingTimeout : Z) (host : result error gostring) (qconn : result error (bool * bool))
    (header : list gostring) (e : dialEnv) : option response * result error dialed * list clientCall :=
  match checkQUICConfig quicConf, host, qconn with
  | Some err, _, _ | None, Err err, _ | None, Ok _, Err err => (None, Err err, [])
  | None, Ok _, Ok (dgrams, resets) =>
      match NewClientConn dgrams resets config protocols reorderingTimeout with
      | Err err => (None, Err err, [CloseConn http3.ErrCodeNoError []])
      | Ok c =>
          match dial c header e with
          | (rsp, Err err, calls) =>
              let '(code, msg) := closeReason err in
              (rsp, Err err, calls ++ [CloseConn code msg])
          | (rsp, Ok sess, calls) =>
              (rsp, Ok sess, calls ++ [CloseConnAfterSession http3.ErrCodeNoError []])
          end
      end
  end.

End dial.

(** ** Lemmas *)

Section lemmas.
Context `{ET : !ErrorText} `{SF : !StructuredFields} `{Q : !GoQuote} `{V : !Quicvarint}.

Definition webTransportEnabled (settings : http3_Settings) : Prop :=
  EnableExtendedConnect settings = true /\ EnableDatagrams settings = true /\
  exists other v, Other settings = Some other /\ other !! settingsWebTransportEnabled = Some v /\ v <> 0.

Lemma checkSettings_None settings : checkSettings settings = None <-> webTransportEnabled settings.
Proof.
  unfold checkSettings, webTransportEnabled.
  destruct (EnableExtendedConnect settings), (EnableDatagrams settings), (Other settings) as [other|]; simpl;
    try (split; [done|naive_solver]).
  destruct (other !! settingsWebTransportEnabled) as [v|] eqn:E; [|split; [done|naive_solver]].
  case_decide; split; try done; naive_solver.
Qed.

Lemma dialChecks_Ok c header e available : dialChecks c header e = Ok available ->
  offerHeader (cc_applicationProtocols c) header = Ok available /\
  de_handshake e = Ready /\ de_datagramsRemote e = true /\ de_resetsRemote e = true /\
  de_settingsReceived e = Ready /\ webTransportEnabled (de_settings e).
Proof.
  unfold dialChecks. intros He. destruct (offerHeader _ _) as [h|err]; [|done].
  destruct (de_handshake e); try done. simpl in He.
  destruct (de_datagramsRemote e); [|done]. destruct (de_resetsRemote e); [|done]. simpl in He.
  destruct (de_settingsReceived e); try done. simpl in He.
  destruct (checkSettings (de_settings e)) eqn:Ec; [done|]. apply checkSettings_None in Ec. by simplify_eq.
Qed.

(** The sending side of the request stream is ended. *)
Definition ends (c : clientCall) : bool :=
  match c with OnStream (StrCancelWrite _) | OnStream StrClose => true | _ => false end.

Definition addsSession (c : clientCall) : bool := match c with AddSession _ _ _ => true | _ => false end.

Definition closesConn (c : clientCall) : bool :=
  match c with CloseConn _ _ | CloseConnAfterSession _ _ => true | _ => false end.

Lemma dialRequest_Err c available id e rsp err calls :
  dialRequest c available id e = (rsp, Err err, calls) ->
  existsb ends calls = true /\ existsb addsSession calls = false.
Proof.
  unfold dialRequest. intros He. destruct (de_sendRequestHeader e); [by simplify_eq|].
  destruct (de_readResponse e) as [r|?]; [|by simplify_eq]. case_decide; [by simplify_eq|].
  destruct (responseProtocol _ _) as [p|perr]; [done|]. simplify_eq. unfold closeSessionStream.
  by destruct (de_tryWriteAll e).
Qed.

Lemma dialRequest_Ok c available id e rsp sess calls :
  dialRequest c available id e = (rsp, Ok sess, calls) ->
  AddSession (di_id sess) (di_protocol sess) (di_fc sess) ∈ calls.
Proof.
  unfold dialRequest. intros He. destruct (de_sendRequestHeader e); [done|].
  destruct (de_readResponse e) as [r|?]; [|done]. case_decide; [done|].
  destruct (responseProtocol _ _) as [p|perr]; [|done]. simplify_eq. simpl. right. left.
Qed.

Lemma NewClientConn_Err dgrams resets config protocols timeout err :
  NewClientConn dgrams resets config protocols timeout = Err err -> as_RequirementsNotMetError err = None.
Proof. unfold NewClientConn. destruct dgrams, resets; simpl; intros; by simplify_eq. Qed.

(** [ClientConn.dial] leaves the connection alone. *)
Lemma dial_keeps_conn c header e : existsb closesConn (dial c header e).2 = false.
Proof.
  unfold dial. destruct (dialChecks c header e) as [available|]; [|done].
  destruct (de_openRequestStream e) as [id|]; [|done]. unfold dialRequest.
  destruct (de_sendRequestHeader e); [done|]. destruct (de_readResponse e) as [r|]; [|done].
  case_decide; [done|]. destruct (responseProtocol _ _); [done|]. unfold closeSessionStream.
  by destruct (de_tryWriteAll e).
Qed.

(** When a requirement fails, the message is the reason. *)
Lemma closeReason_spec err :
  closeReason err =
  match as_RequirementsNotMetError err with
  | Some m => (0x212c0d48, RequirementsNotMetError_Message m)
  | None => (0x100, [])
  end.
Proof. unfold closeReason. by destruct (as_RequirementsNotMetError err). Qed.

(** [Close] before the first [Dial] or [NewClientConn] calls a nil function. *)
Lemma Transport_Close_panics : Transport_Close newTransport = None.
Proof. done. Qed.

Lemma Transport_Close_initialized d : exists d', Transport_Close (initOnce d) = Some d'.
Proof. destruct d as [[]]; simpl; eauto. Qed.

End lemmas.

(** ** Theorems *)


(** [Transport.Dial] owns the QUIC connection that it dials: if there is one, the
    calls of [dial] are followed by exactly one that closes it. After an error the
    connection is closed at once, with WT_REQUIREMENTS_NOT_MET and the message of
    the error when a requirement is not met, and with H3_NO_ERROR otherwise. With a
    session it is closed when the session ends. Nothing else closes it. *)
Theorem Dial_closes `{ET : !ErrorText} `{SF : !StructuredFields} `{Q : !GoQuote} `{V : !Quicvarint}
    (quicConf : option (bool * bool)) (config : option Config) (protocols header : list gostring)
    (reorderingTimeout : Z) (host : gostring) (local : bool * bool) (e : dialEnv) rsp res calls :
  checkQUICConfig quicConf = None ->
  Dial quicConf config protocols reorderingTimeout (Ok host) (Ok local) header e = (rsp, res, calls) ->
  exists calls' last, calls = calls' ++ [last] /\ existsb closesConn calls' = false /\
    match res with
    | Ok sess =>
        last = CloseConnAfterSession http3.ErrCodeNoError [] /\
        AddSession (di_id sess) (di_protocol sess) (di_fc sess) ∈ calls'
    | Err err =>
        (forall m, as_RequirementsNotMetError err = Some m ->
           last = CloseConn WTRequirementsNotMetErrorCode (RequirementsNotMetError_Message m)) /\
        (as_RequirementsNotMetError err = None -> last = CloseConn http3.ErrCodeNoError [])
    end.
Proof.
  intros Hconf. unfold Dial. rewrite Hconf. destruct local as [dgrams resets].
  destruct (NewClientConn dgrams resets config protocols reorderingTimeout) as [c|err] eqn:Enew; intros He.
  - pose proof (dial_keeps_conn c header e) as Hkeep.
    destruct (dial c header e) as [[rsp' [sess|err]] calls'] eqn:Ed; simpl in Hkeep.
    + simplify_eq. exists calls', (CloseConnAfterSession http3.ErrCodeNoError []). split_and!; try done.
      unfold dial in Ed. destruct (dialChecks c header e); [|done]. destruct (de_openRequestStream e); [|done].
      by apply dialRequest_Ok in Ed.
    + destruct (closeReason err) as [code msg] eqn:Er. simplify_eq. exists calls', (CloseConn code msg).
      unfold closeReason in Er. split_and!; [done..| |]; intros; destruct (as_RequirementsNotMetError err);
        by simplify_eq.
  - simplify_eq. exists [], (CloseConn http3.ErrCodeNoError []). apply NewClientConn_Err in Enew.
    split_and!; try done. intros m Hm. by rewrite Enew in Hm.
Qed.

(** A server that supports everything but WebTransport. *)
Definition exampleEnv : dialEnv :=
  mkDialEnv Ready true true Ready (mkSettings true true None) (Ok 0) None (Ok (mkResponse 200 [])) None.

Lemma Dial_closes_witness :
  let '(rsp, res, calls) := Dial (ET := noText) (SF := CommaSeparated.fields) (Q := CommaSeparated.quote)
    (V := Rfc9000.quicvarint) None None [] 0 (Ok []) (Ok (true, true)) [] exampleEnv in
  exists calls', calls = calls' ++ [CloseConn WTRequirementsNotMetErrorCode
                                      (str "server didn't enable WebTransport")] /\
    existsb closesConn calls' = false.
Proof.
  destruct (Dial _ _ _ _ _ _ _ _) as [[rsp res] calls] eqn:E.
  destruct (Dial_closes (ET := noText) (SF := CommaSeparated.fields) (Q := CommaSeparated.quote)
    (V := Rfc9000.quicvarint) None None [] [] 0 [] (true, true) exampleEnv rsp res calls eq_refl E)
    as (calls' & last & Hc & Hk & Hres).
  exists calls'. split; [|exact Hk]. rewrite Hc. f_equal. f_equal.
  vm_compute in E. injection E as _ <- _. rewrite (proj1 Hres _ eq_refl). reflexivity.
Defined.
