(* ===== verification/SessionStreams.v ===== *)
(** * The streams of a session ([session.go], [streams_map_outgoing.go])

    [Session] leaves the streams abstract, and [Stream], [SendStream] and
    [ReceiveStream] know nothing of sessions. Here they are put together. A
    stream is an object that its user, the session and its map share, so the
    maps hold stream IDs, which are references to entries of [world]: this is
    where the callbacks that the constructors of the streams get are run.

    The methods run without interruption, apart from [OpenStreamSync], which is
    cut where it releases the mutex of its map. *)

From S2P Require Import Prelude Errors Quicvarint Protocol Config FlowControl Capsule.
From S2P Require Import SendStream ReceiveStream Stream Session.
From S2P Require OutgoingStreams OutgoingStreamsSafety IncomingStreams.

(** ** State *)

(** A stream. [en_local]: it was opened here, so that its [onClose] is
    [removeStream] of the map of outgoing streams; [en_gone]: [onClose] has been
    called. *)
Record entry (S : Type) := mkEntry {
  en_str : S;
  en_local : bool;
  en_gone : bool;
}.
Arguments mkEntry {S} _ _ _.
Arguments en_str {S} _.
Arguments en_local {S} _.
Arguments en_gone {S} _.

Abbreviation session := (@Session Z Z Z).

Record world := mkWorld {
  w_s : session;
  w_bidi : gmap Z (entry Stream);
  w_send : gmap Z (entry SendStream);
  w_recv : gmap Z (entry ReceiveStream);
}.

(** The calls on the QUIC streams and on the CONNECT stream. *)
Inductive call : Type :=
| OnSend (id : Z) (e : effect)
| OnCancelRead (id code : Z)
| OnConnect (c : strCall).

Definition set_s (s : session) (w : world) : world := mkWorld s (w_bidi w) (w_send w) (w_recv w).
Definition set_bidi (h : gmap Z (entry Stream)) (w : world) : world := mkWorld (w_s w) h (w_send w) (w_recv w).
Definition set_send (h : gmap Z (entry SendStream)) (w : world) : world := mkWorld (w_s w) (w_bidi w) h (w_recv w).
Definition set_recv (h : gmap Z (entry ReceiveStream)) (w : world) : world := mkWorld (w_s w) (w_bidi w) (w_send w) h.

Definition set_incoming (m : IncomingStreams.incomingStreamsMap Z) (s : session) : session :=
  mkSession (applicationProtocol s) (flowControlEnabled s) (ctxDone s) (ses_closeErr s) (capsuleQueue s)
    (pendingCloseCapsule s) (capsuleQueueUpdated s) m (incomingUniStreams s) (outgoingStreams s)
    (outgoingUniStreams s) (incomingDataFC s) (outgoingDataFC s).
Definition set_incomingUni (m : IncomingStreams.incomingStreamsMap Z) (s : session) : session :=
  mkSession (applicationProtocol s) (flowControlEnabled s) (ctxDone s) (ses_closeErr s) (capsuleQueue s)
    (pendingCloseCapsule s) (capsuleQueueUpdated s) (incomingStreams s) m (outgoingStreams s)
    (outgoingUniStreams s) (incomingDataFC s) (outgoingDataFC s).
Definition set_ctxDone (s : session) : session :=
  mkSession (applicationProtocol s) (flowControlEnabled s) true (ses_closeErr s) (capsuleQueue s)
    (pendingCloseCapsule s) (capsuleQueueUpdated s) (incomingStreams s) (incomingUniStreams s)
    (outgoingStreams s) (outgoingUniStreams s) (incomingDataFC s) (outgoingDataFC s).

(** ** Closing *)

Section entries.
Context {S : Type} (close : S -> S) (calls : Z -> S -> list call).

Definition with_str (f : S -> S) (en : entry S) : entry S := mkEntry (f (en_str en)) (en_local en) (en_gone en).

(** [closeWithSession] on the streams [ids]. *)
Fixpoint closeEntries (ids : list Z) (h : gmap Z (entry S)) : list call * gmap Z (entry S) :=
  match ids with
  | [] => ([], h)
  | id :: ids =>
      match h !! id with
      | None => closeEntries ids h
      | Some en =>
          let '(cs, h') := closeEntries ids (<[id := with_str close en]> h) in
          (calls id (en_str en) ++ cs, h')
      end
  end.
End entries.

Definition closeBidi (err : error) : list Z -> gmap Z (entry Stream) -> list call * gmap Z (entry Stream) :=
  closeEntries (fun s => (Stream_closeWithSession err s).2)
    (fun id s => let '(es, code, _) := Stream_closeWithSession err s in
       (OnSend id <$> es) ++ (OnCancelRead id <$> option_list code)).
Definition closeSend (err : error) : list Z -> gmap Z (entry SendStream) -> list call * gmap Z (entry SendStream) :=
  closeEntries (fun s => (closeWithSession err s).2) (fun id s => OnSend id <$> (closeWithSession err s).1).
Definition closeRecv (err : error) : list Z -> gmap Z (entry ReceiveStream) -> list call * gmap Z (entry ReceiveStream) :=
  closeEntries (fun s => (receive_closeWithSession err s).2)
    (fun id s => OnCancelRead id <$> option_list (receive_closeWithSession err s).1).

Section streams.
Context `{ET : !ErrorText} `{V : !Quicvarint}.
Context (sessionID : Z).

(** [Session.closeWithError] with the streams that it closes. *)
Definition closeWithError (closeErr : error) (cap : option (Z * gostring)) (w : world)
  : option (bool * list call * world) :=
  '(first, cs, calls, s) ← Session.closeWithError closeErr cap (w_s w);
  let '(c1, bidi) := closeBidi closeErr (cs_outgoing cs) (w_bidi w) in
  let '(c2, send) := closeSend closeErr (cs_outgoingUni cs) (w_send w) in
  let '(c3, bidi) := closeBidi closeErr (cs_incoming cs) bidi in
  let '(c4, recv) := closeRecv closeErr (cs_incomingUni cs) (w_recv w) in
  Some (first, c1 ++ c2 ++ c3 ++ c4 ++ (OnConnect <$> calls), mkWorld s bidi send recv).

(** [queueCapsule] of a goroutine that does not hold [closeMx]. *)
Definition queueCapsule (c : capsule) (w : world) : option (list call * world) :=
  if ctxDone (w_s w) then Some ([], w)
  else if decide (maxQueuedOutgoingCapsules <= length (capsuleQueue (w_s w)))%nat then
    '(_, calls, w) ← closeWithError (ErrHTTP3 http3.ErrCodeExcessiveLoad
                       (str "webtransport: outgoing capsule queue full")) None w;
    Some (calls, w)
  else Some ([], set_s (set_queue (capsuleQueue (w_s w) ++ [c]) (pendingCloseCapsule (w_s w)) true (w_s w)) w).

Fixpoint queueCapsules (l : list capsule) (w : world) : option (list call * world) :=
  match l with
  | [] => Some ([], w)
  | c :: l => '(c1, w) ← queueCapsule c w; '(c2, w) ← queueCapsules l w; Some (c1 ++ c2, w)
  end.

(** ** Incoming streams *)

Definition hasReceiveFC (s : session) : bool := bool_decide (is_Some (incomingDataFC s)).

Definition addIncomingStream (id streamHeaderLen : Z) (w : world) : option (list call * world) :=
  let strm := newStream [] (hasReceiveFC (w_s w)) (i64 streamHeaderLen) in
  let bidi := <[id := mkEntry strm false false]> (w_bidi w) in
  '(err, closed, m) ← IncomingStreams.AddStream id id (incomingStreams (w_s w));
  let s := set_incoming m (w_s w) in
  match err, closed with
  | Some err, _ =>
      let '(c1, bidi) := closeBidi err [id] bidi in
      '(_, c2, w) ← closeWithError err None (set_bidi bidi (set_s s w));
      Some (c1 ++ c2, w)
  | None, (_, closeErr) :: _ =>
      let '(c1, bidi) := closeBidi closeErr [id] bidi in Some (c1, set_bidi bidi (set_s s w))
  | None, [] => Some ([], set_bidi bidi (set_s s w))
  end.

Definition addIncomingUniStream (id streamHeaderLen : Z) (w : world) : option (list call * world) :=
  let strm := newReceiveStream (i64 streamHeaderLen) (hasReceiveFC (w_s w)) in
  let recv := <[id := mkEntry strm false false]> (w_recv w) in
  '(err, closed, m) ← IncomingStreams.AddStream id id (incomingUniStreams (w_s w));
  let s := set_incomingUni m (w_s w) in
  match err, closed with
  | Some err, _ =>
      let '(c1, recv) := closeRecv err [id] recv in
      '(_, c2, w) ← closeWithError err None (set_recv recv (set_s s w));
      Some (c1 ++ c2, w)
  | None, (_, closeErr) :: _ =>
      let '(c1, recv) := closeRecv closeErr [id] recv in Some (c1, set_recv recv (set_s s w))
  | None, [] => Some ([], set_recv recv (set_s s w))
  end.

(** ** Outgoing streams *)

(** The streams that the callbacks of [newOutgoingBidiStreamsMap] and
    [newOutgoingUniStreamsMap] make from a QUIC stream. *)
Definition outgoingStream (s : session) : Stream :=
  newStream (newOutgoingStreamHeader webTransportFrameType sessionID) (hasReceiveFC s) 0.
Definition outgoingUniStream : SendStream :=
  newSendStream (newOutgoingStreamHeader webTransportUniStreamType sessionID).

(** [openStream] of the maps: the stream and its ID. *)
Definition callback (qstr : result error Z) : result error (Z * Z) :=
  match qstr with Ok id => Ok (id, id) | Err err => Err err end.

(** [qstr] is the result of [conn.OpenStream]. *)
Definition OpenStream (qstr : result error Z) (w : world) : outcome (result error Z * world) :=
  '(r, s) ← Session.OpenStream (callback qstr) (w_s w);
  let w := match r with
           | Ok id => set_bidi (<[id := mkEntry (outgoingStream s) true false]> (w_bidi w)) w
           | Err _ => w
           end in
  Returns (r, set_s s w).

Definition OpenUniStream (qstr : result error Z) (w : world) : outcome (result error Z * world) :=
  '(r, s) ← Session.OpenUniStream (callback qstr) (w_s w);
  let w := match r with
           | Ok id => set_send (<[id := mkEntry outgoingUniStream true false]> (w_send w)) w
           | Err _ => w
           end in
  Returns (r, set_s s w).

(** [OpenStreamSync] and [OpenUniStreamSync]: before the call on the map, the
    return value if they return, and after it. *)
Definition OpenStreamSync_enter (s : session) : option error := ses_closeErr s.
Definition OpenStreamSync_exit (r : result error Z) (s : session) : result error Z :=
  match ses_closeErr s with Some closeErr => Err closeErr | None => r end.
Definition OpenUniStreamSync_enter (s : session) : option error := ses_closeErr s.
Definition OpenUniStreamSync_exit (r : result error Z) (s : session) : result error Z :=
  match ses_closeErr s with Some closeErr => Err closeErr | None => r end.

(** The end of the call on the map: the callback has returned, and the mutex is
    taken for the last time. [ctx] is the number of the cancel function. *)
Definition OpenStreamSync_finish (ctx : Z) (qstr : result error Z) (w : world)
  : option (result error Z * list call * world) :=
  let bidi := match qstr with
              | Ok id => <[id := mkEntry (outgoingStream (w_s w)) true false]> (w_bidi w)
              | Err _ => w_bidi w
              end in
  '(r, closed, m) ← OutgoingStreams.OpenStreamSyncFinish ctx (callback qstr) (outgoingStreams (w_s w));
  let '(calls, bidi) := closeBidi (default ErrEOF (OutgoingStreams.o_closeErr m)) closed bidi in
  Some (r, calls, set_bidi bidi (set_s (set_outgoing m (w_s w)) w)).

Definition OpenUniStreamSync_finish (ctx : Z) (qstr : result error Z) (w : world)
  : option (result error Z * list call * world) :=
  let send := match qstr with
              | Ok id => <[id := mkEntry outgoingUniStream true false]> (w_send w)
              | Err _ => w_send w
              end in
  '(r, closed, m) ← OutgoingStreams.OpenStreamSyncFinish ctx (callback qstr) (outgoingUniStreams (w_s w));
  let '(calls, send) := closeSend (default ErrEOF (OutgoingStreams.o_closeErr m)) closed send in
  Some (r, calls, set_send send (set_s (set_outgoingUni m (w_s w)) w)).

(** ** [onClose] *)

Definition onCloseBidi (id : Z) (local : bool) (w : world) : option (list call * world) :=
  let s := w_s w in
  if local then
    Some ([], set_s (set_outgoing (OutgoingStreams.removeStream id (outgoingStreams s)) s) w)
  else
    let '(limits, m) := IncomingStreams.RemoveStream id (incomingStreams s) in
    queueCapsules (maxStreamsBidiCapsule <$> limits) (set_s (set_incoming m s) w).

Definition onCloseSend (id : Z) (w : world) : world :=
  set_s (set_outgoingUni (OutgoingStreams.removeStream id (outgoingUniStreams (w_s w))) (w_s w)) w.

Definition onCloseRecv (id : Z) (w : world) : option (list call * world) :=
  let '(limits, m) := IncomingStreams.RemoveStream id (incomingUniStreams (w_s w)) in
  queueCapsules (maxStreamsUniCapsule <$> limits) (set_s (set_incomingUni m (w_s w)) w).

(** One half of a bidirectional stream reports that it is closed. *)
Definition halfClosed (id : Z) (isSendSide : bool) (w : world) : option (list call * world) :=
  en ← w_bidi w !! id;
  let '(closed, s) := registerClose isSendSide (en_str en) in
  let w := set_bidi (<[id := mkEntry s (en_local en) (en_gone en || closed)]> (w_bidi w)) w in
  if closed then onCloseBidi id (en_local en) w else Some ([], w).

Definition gone {S} (en : entry S) : entry S := mkEntry (en_str en) (en_local en) true.

Definition sendClosed (id : Z) (w : world) : option world :=
  en ← w_send w !! id; Some (onCloseSend id (set_send (<[id := gone en]> (w_send w)) w)).

Definition recvClosed (id : Z) (w : world) : option (list call * world) :=
  en ← w_recv w !! id; onCloseRecv id (set_recv (<[id := gone en]> (w_recv w)) w).

(** ** Capsules of the peer *)

(** One turn of [readFromConnectStream]. *)
Definition receiveCapsule (c : capsule) (w : world) : option (list call * world) :=
  '(err, s) ← handleCapsule c (w_s w);
  match err with
  | None => Some ([], set_s s w)
  | Some err => '(_, calls, w) ← closeWithError err None (set_s s w); Some (calls, w)
  end.

End streams.

(** ** The steps of a session *)

(** The critical sections of [OpenStreamSync] but the last, on a map. *)
Inductive syncStep (m : OutgoingStreams.outgoingStreamsMap Z) : OutgoingStreams.outgoingStreamsMap Z -> Prop :=
| sync_start t id ctxErr p m' :
    (let '(r, m1) := OutgoingStreams.OpenStreamSyncStart t ctxErr m in
     OutgoingStreamsSafety.resume t id OutgoingStreamsSafety.PBlocked1 r m1) = Some (p, m') ->
    syncStep m m'
| sync_critical t id ctxErr p p' closed m' :
    (forall i r, p <> OutgoingStreamsSafety.POpened i r) ->
    OutgoingStreamsSafety.critical t id ctxErr p m = Some (p', closed, m') ->
    syncStep m m'
| sync_receive b : syncStep m (OutgoingStreams.set_chanBuf b m).

(** What users and QUIC do with the halves of a stream. *)
Inductive sendMethod (s : SendStream) : SendStream -> Prop :=
| sm_Write wr : sendMethod s (writeHeader wr s).2
| sm_CancelWrite e : sendMethod s (CancelWrite e s).2
| sm_Close : sendMethod s (Close s).2.

Inductive recvMethod (s : ReceiveStream) : ReceiveStream -> Prop :=
| rm_Read n : recvMethod s (countRead n s).2
| rm_finalSize size : recvMethod s (countFinalSize size s).2.

Inductive bidiMethod (s : Stream) : Stream -> Prop :=
| bm_send ss : sendMethod (sendStr s) ss -> bidiMethod s (with_sendStr s ss)
| bm_recv rs : recvMethod (recvStr s) rs ->
    bidiMethod s (mkStream (sendStr s) rs (sendSideClosed s) (recvSideClosed s)).

(** QUIC never uses an ID twice. *)
Definition fresh {S} (qstr : result error Z) (h : gmap Z (entry S)) : Prop :=
  match qstr with Ok id => h !! id = None | Err _ => True end.

Section steps.
Context `{ET : !ErrorText} `{V : !Quicvarint}.
Context (sessionID : Z).

Inductive step (w : world) : world -> Prop :=
| st_OpenStream qstr r w' :
    fresh qstr (w_bidi w) -> OpenStream sessionID qstr w = Returns (r, w') -> step w w'
| st_OpenUniStream qstr r w' :
    fresh qstr (w_send w) -> OpenUniStream sessionID qstr w = Returns (r, w') -> step w w'
| st_sync m : syncStep (outgoingStreams (w_s w)) m -> step w (set_s (set_outgoing m (w_s w)) w)
| st_syncUni m : syncStep (outgoingUniStreams (w_s w)) m -> step w (set_s (set_outgoingUni m (w_s w)) w)
| st_finish ctx qstr r calls w' :
    fresh qstr (w_bidi w) -> OpenStreamSync_finish sessionID ctx qstr w = Some (r, calls, w') -> step w w'
| st_finishUni ctx qstr r calls w' :
    fresh qstr (w_send w) -> OpenUniStreamSync_finish sessionID ctx qstr w = Some (r, calls, w') -> step w w'
| st_addIncoming id len calls w' :
    w_bidi w !! id = None -> addIncomingStream id len w = Some (calls, w') -> step w w'
| st_addIncomingUni id len calls w' :
    w_recv w !! id = None -> addIncomingUniStream id len w = Some (calls, w') -> step w w'
| st_bidi id en s : w_bidi w !! id = Some en -> bidiMethod (en_str en) s ->
    step w (set_bidi (<[id := mkEntry s (en_local en) (en_gone en)]> (w_bidi w)) w)
| st_send id en s : w_send w !! id = Some en -> sendMethod (en_str en) s ->
    step w (set_send (<[id := mkEntry s (en_local en) (en_gone en)]> (w_send w)) w)
| st_recv id en s : w_recv w !! id = Some en -> recvMethod (en_str en) s ->
    step w (set_recv (<[id := mkEntry s (en_local en) (en_gone en)]> (w_recv w)) w)
| st_halfClosed id side calls w' : halfClosed id side w = Some (calls, w') -> step w w'
| st_sendClosed id w' : sendClosed id w = Some w' -> step w w'
| st_recvClosed id calls w' : recvClosed id w = Some (calls, w') -> step w w'
| st_capsule c calls w' : receiveCapsule c w = Some (calls, w') -> step w w'
| st_queue c calls w' : queueCapsule c w = Some (calls, w') -> step w w'
| st_close err cap first calls w' : closeWithError err cap w = Some (first, calls, w') -> step w w'
| st_accept m : (exists r, IncomingStreams.acceptTry (incomingStreams (w_s w)) = (r, m)) \/
      IncomingStreams.acceptReceive (incomingStreams (w_s w)) = Some m ->
    step w (set_s (set_incoming m (w_s w)) w)
| st_acceptUni m : (exists r, IncomingStreams.acceptTry (incomingUniStreams (w_s w)) = (r, m)) \/
      IncomingStreams.acceptReceive (incomingUniStreams (w_s w)) = Some m ->
    step w (set_s (set_incomingUni m (w_s w)) w)
| st_ctxDone : step w (set_s (set_ctxDone (w_s w)) w).

Definition start (protocol : gostring) (fc : sessionFlowControl) : world :=
  mkWorld (newSession protocol fc) ∅ ∅ ∅.

Definition reachable (protocol : gostring) (fc : sessionFlowControl) (w : world) : Prop :=
  rtc step (start protocol fc) w.

End steps.

(** ** The invariant of one kind of stream *)

Section kind.
Context {S : Type} (errs : S -> list (option error)).

(** Open entries are registered, or have just been closed with [e]. *)
Definition kind_pre (e : error) (h : gmap Z (entry S)) (held : bool -> Z -> Prop) : Prop :=
  forall id en, h !! id = Some en -> en_gone en = false ->
  held (en_local en) id /\ Forall (eq None) (errs (en_str en)) \/ Forall (eq (Some e)) (errs (en_str en)).

(** The invariant of one kind of stream: entries that are not gone are registered
    while the session is open, and closed with its error afterwards. *)
Definition kind_ok (closeErr : option error) (h : gmap Z (entry S)) (held : bool -> Z -> Prop) : Prop :=
  forall id en, h !! id = Some en -> en_gone en = false ->
  match closeErr with
  | None => held (en_local en) id /\ Forall (eq None) (errs (en_str en))
  | Some e => Forall (eq (Some e)) (errs (en_str en))
  end.

Lemma kind_ok_pre e h held : kind_ok None h held -> kind_pre e h held.
Proof. intros H id en He Hg. left. by apply (H id en). Qed.

Lemma kind_ok_held c h (held held' : bool -> Z -> Prop) :
  (forall l id, held l id -> held' l id) -> kind_ok c h held -> kind_ok c h held'.
Proof. intros Hh H id en He Hg. specialize (H id en He Hg). destruct c; [done|]. naive_solver. Qed.

(** Entry [id] is replaced, and no other one loses its registration. *)
Lemma kind_ok_insert c h (held held' : bool -> Z -> Prop) id en :
  (forall l id', id' <> id -> held l id' -> held' l id') ->
  (en_gone en = false -> match c with
   | None => held' (en_local en) id /\ Forall (eq None) (errs (en_str en))
   | Some e => Forall (eq (Some e)) (errs (en_str en))
   end) ->
  kind_ok c h held -> kind_ok c (<[id := en]> h) held'.
Proof.
  intros Hh Hen H id' en' He Hg. destruct (decide (id' = id)) as [->|Hne].
  - rewrite lookup_insert_eq in He. simplify_eq. by apply Hen.
  - rewrite lookup_insert_ne in He by done. specialize (H id' en' He Hg).
    destruct c; [done|]. destruct H; auto.
Qed.

End kind.

(** ** Lemmas on closing *)

Section entries.
Context {S : Type} (close : S -> S) (calls : Z -> S -> list call) (errs : S -> list (option error)).
Context (close_close : forall s, close (close s) = close s).

Lemma closeEntries_lookup ids h id :
  (closeEntries close calls ids h).2 !! id =
  (if decide (id ∈ ids) then with_str close <$> h !! id else h !! id).
Proof.
  revert h. induction ids as [|id' ids IH]; intros h; cbn [closeEntries].
  { by rewrite decide_False by apply not_elem_of_nil. }
  destruct (h !! id') as [en|] eqn:E.
  - specialize (IH (<[id' := with_str close en]> h)).
    destruct (closeEntries close calls ids _) as [cs h']. simpl in *. rewrite IH.
    destruct (decide (id = id')) as [->|Hne].
    + rewrite (decide_True (P := id' ∈ id' :: ids)) by by left. rewrite lookup_insert_eq, E. simpl.
      case_decide; [|done]. unfold with_str; simpl. by rewrite close_close.
    + rewrite lookup_insert_ne by done.
      destruct (decide (id ∈ ids)) as [Hin|Hin]; [rewrite decide_True by by right|rewrite decide_False by set_solver]; done.
  - rewrite IH. destruct (decide (id = id')) as [->|Hne].
    + rewrite E. by repeat case_decide.
    + destruct (decide (id ∈ ids)) as [Hin|Hin]; [rewrite decide_True by by right|rewrite decide_False by set_solver]; done.
Qed.

(** Closing everything that is registered. *)
Lemma kind_close e ids h held held' :
  (forall s, Forall (eq None) (errs s) \/ Forall (eq (Some e)) (errs s) -> Forall (eq (Some e)) (errs (close s))) ->
  (forall l id, held l id -> id ∈ ids) -> kind_pre errs e h held ->
  kind_ok errs (Some e) (closeEntries close calls ids h).2 held'.
Proof.
  intros Hclose Hids H id en He Hg. rewrite closeEntries_lookup in He. case_decide as Hin.
  - apply fmap_Some in He as (en0 & He & ->). apply Hclose.
    destruct (H id en0 He Hg) as [[_ ?]|?]; auto.
  - destruct (H id en He Hg) as [[Hheld _]|?]; [|done]. by destruct (Hin (Hids _ _ Hheld)).
Qed.

Lemma closeEntries_app ids1 ids2 h :
  (closeEntries close calls (ids1 ++ ids2) h).2 =
  (closeEntries close calls ids2 (closeEntries close calls ids1 h).2).2.
Proof.
  apply map_eq. intros id. rewrite !closeEntries_lookup.
  destruct (decide (id ∈ ids1)) as [H1|H1], (decide (id ∈ ids2)) as [H2|H2];
    case_decide as H3; rewrite elem_of_app in H3; try tauto.
  destruct (h !! id) as [en|]; [|done]. simpl. unfold with_str; simpl. by rewrite close_close.
Qed.

End entries.

Definition errsBidi (s : Stream) : list (option error) := [ss_closeErr (sendStr s); rs_closeErr (recvStr s)].
Definition errsSend (s : SendStream) : list (option error) := [ss_closeErr s].
Definition errsRecv (s : ReceiveStream) : list (option error) := [rs_closeErr s].

Lemma closeWithSession_twice err s : (closeWithSession err (closeWithSession err s).2).2 = (closeWithSession err s).2.
Proof. unfold closeWithSession. by destruct (ss_closeErr s) eqn:E; simpl; rewrite ?E. Qed.

Lemma receive_closeWithSession_twice err s :
  (receive_closeWithSession err (receive_closeWithSession err s).2).2 = (receive_closeWithSession err s).2.
Proof. unfold receive_closeWithSession. by destruct (rs_closeErr s) eqn:E; simpl; rewrite ?E. Qed.

Lemma Stream_closeWithSession_state err s :
  (Stream_closeWithSession err s).2 =
  mkStream (closeWithSession err (sendStr s)).2 (receive_closeWithSession err (recvStr s)).2
    (sendSideClosed s) (recvSideClosed s).
Proof.
  unfold Stream_closeWithSession. by destruct (closeWithSession _ _), (receive_closeWithSession _ _).
Qed.

Lemma Stream_closeWithSession_twice err s :
  (Stream_closeWithSession err (Stream_closeWithSession err s).2).2 = (Stream_closeWithSession err s).2.
Proof.
  rewrite !Stream_closeWithSession_state. cbn [sendStr recvStr sendSideClosed recvSideClosed].
  by rewrite closeWithSession_twice, receive_closeWithSession_twice.
Qed.

Lemma close_errsSend e s : Forall (eq None) (errsSend s) \/ Forall (eq (Some e)) (errsSend s) ->
  Forall (eq (Some e)) (errsSend (closeWithSession e s).2).
Proof.
  unfold errsSend, closeWithSession. rewrite !Forall_singleton.
  intros [E|E]; rewrite <- E; simpl; congruence.
Qed.

Lemma close_errsRecv e s : Forall (eq None) (errsRecv s) \/ Forall (eq (Some e)) (errsRecv s) ->
  Forall (eq (Some e)) (errsRecv (receive_closeWithSession e s).2).
Proof.
  unfold errsRecv, receive_closeWithSession. rewrite !Forall_singleton.
  intros [E|E]; rewrite <- E; simpl; congruence.
Qed.

Lemma close_errsBidi e s : Forall (eq None) (errsBidi s) \/ Forall (eq (Some e)) (errsBidi s) ->
  Forall (eq (Some e)) (errsBidi (Stream_closeWithSession e s).2).
Proof.
  pose proof (close_errsSend e (sendStr s)) as Hs. pose proof (close_errsRecv e (recvStr s)) as Hr.
  rewrite Stream_closeWithSession_state. unfold errsBidi, errsSend, errsRecv in *. simpl.
  rewrite !Forall_cons in *. naive_solver.
Qed.

(** ** The invariant *)

Definition heldO (m : OutgoingStreams.outgoingStreamsMap Z) (id : Z) : Prop :=
  default ∅ (OutgoingStreams.o_m m) !! id = Some id.
Definition heldI (m : IncomingStreams.incomingStreamsMap Z) (id : Z) : Prop :=
  default ∅ (IncomingStreams.i_m m) !! id = Some id.

Definition heldBidi (s : session) (local : bool) (id : Z) : Prop :=
  if local then heldO (outgoingStreams s) id else heldI (incomingStreams s) id.
Definition heldSend (s : session) (local : bool) (id : Z) : Prop := heldO (outgoingUniStreams s) id.
Definition heldRecv (s : session) (local : bool) (id : Z) : Prop := heldI (incomingUniStreams s) id.

(** The maps are closed with the session, and their entries are references. *)
Definition map_okO (c : option error) (m : OutgoingStreams.outgoingStreamsMap Z) : Prop :=
  OutgoingStreams.o_closeErr m = c /\ forall id v, default ∅ (OutgoingStreams.o_m m) !! id = Some v -> v = id.
Definition map_okI (c : option error) (m : IncomingStreams.incomingStreamsMap Z) : Prop :=
  IncomingStreams.i_closeErr m = c /\ forall id v, default ∅ (IncomingStreams.i_m m) !! id = Some v -> v = id.

Record maps_ok (s : session) : Prop := mkMapsOk {
  m_o : map_okO (ses_closeErr s) (outgoingStreams s);
  m_ou : map_okO (ses_closeErr s) (outgoingUniStreams s);
  m_i : map_okI (ses_closeErr s) (incomingStreams s);
  m_iu : map_okI (ses_closeErr s) (incomingUniStreams s);
}.

Record inv (w : world) : Prop := mkInv {
  v_maps : maps_ok (w_s w);
  v_bidi : kind_ok errsBidi (ses_closeErr (w_s w)) (w_bidi w) (heldBidi (w_s w));
  v_send : kind_ok errsSend (ses_closeErr (w_s w)) (w_send w) (heldSend (w_s w));
  v_recv : kind_ok errsRecv (ses_closeErr (w_s w)) (w_recv w) (heldRecv (w_s w));
}.

(** What the invariant says about a session depends on these parts of it. *)
Definition sameO (m m' : OutgoingStreams.outgoingStreamsMap Z) : Prop :=
  OutgoingStreams.o_closeErr m' = OutgoingStreams.o_closeErr m /\ OutgoingStreams.o_m m' = OutgoingStreams.o_m m.
Definition sameI (m m' : IncomingStreams.incomingStreamsMap Z) : Prop :=
  IncomingStreams.i_closeErr m' = IncomingStreams.i_closeErr m /\ IncomingStreams.i_m m' = IncomingStreams.i_m m.

Record same_maps (s s' : session) : Prop := mkSameMaps {
  sm_err : ses_closeErr s' = ses_closeErr s;
  sm_o : sameO (outgoingStreams s) (outgoingStreams s');
  sm_ou : sameO (outgoingUniStreams s) (outgoingUniStreams s');
  sm_i : sameI (incomingStreams s) (incomingStreams s');
  sm_iu : sameI (incomingUniStreams s) (incomingUniStreams s');
}.

Lemma same_maps_refl s : same_maps s s.
Proof. by repeat split. Qed.

Lemma map_okO_same c m m' : sameO m m' -> map_okO c m -> map_okO c m'.
Proof. intros [E1 E2]. unfold map_okO. by rewrite E1, E2. Qed.
Lemma map_okI_same c m m' : sameI m m' -> map_okI c m -> map_okI c m'.
Proof. intros [E1 E2]. unfold map_okI. by rewrite E1, E2. Qed.

Lemma maps_ok_same s s' : same_maps s s' -> maps_ok s -> maps_ok s'.
Proof.
  intros [E H1 H2 H3 H4] [G1 G2 G3 G4]. constructor; rewrite E;
    eauto using map_okO_same, map_okI_same.
Qed.

Lemma inv_same s w : same_maps (w_s w) s -> inv w -> inv (set_s s w).
Proof.
  intros Hs [Hm Hb Hse Hr]. pose proof (maps_ok_same _ _ Hs Hm) as Hm'. destruct Hs as [E [_ H1] [_ H2] [_ H3] [_ H4]].
  constructor; simpl; [done|..]; rewrite E; (eapply kind_ok_held; [|done]);
    unfold heldBidi, heldSend, heldRecv, heldO, heldI; intros l id; rewrite ?H1, ?H2, ?H3, ?H4; done.
Qed.

(** [closeWithSession] is called on every stream that a map holds. *)
Lemma closedO c e m l m' : map_okO c m -> OutgoingStreams.o_closeErr m = None ->
  OutgoingStreams.CloseSession e m = Some (l, m') ->
  map_okO (Some e) m' /\ forall id, heldO m id -> id ∈ l.
Proof.
  intros [Hc Hv] E He. pose proof (OutgoingCloseSession_spec _ _ _ _ He) as H. rewrite E in H.
  destruct H as (-> & H1 & _ & H2 & _). split.
  - split; [done|]. intros id v. rewrite H2. simpl. by rewrite lookup_empty.
  - intros id Hid. apply list_elem_of_fmap. exists (id, id). split; [done|]. by apply elem_of_map_to_list.
Qed.

Lemma closedI c e m l m' : map_okI c m -> IncomingStreams.i_closeErr m = None ->
  IncomingStreams.CloseSession e m = (l, m') ->
  map_okI (Some e) m' /\ forall id, heldI m id -> id ∈ l.
Proof.
  intros [Hc Hv] E He. pose proof (IncomingCloseSession_spec _ _ _ _ He) as H. rewrite E in H.
  destruct H as (-> & H1 & H2). split.
  - split; [done|]. intros id v. rewrite H2. simpl. by rewrite lookup_empty.
  - intros id Hid. apply list_elem_of_fmap. exists (id, id). split; [done|]. by apply elem_of_map_to_list.
Qed.

Lemma closeBidi_app e ids1 ids2 h :
  (closeBidi e ids2 (closeBidi e ids1 h).2).2 = (closeBidi e (ids1 ++ ids2) h).2.
Proof. unfold closeBidi. rewrite closeEntries_app; [done|]. apply Stream_closeWithSession_twice. Qed.

Section proofs.
Context `{ET : !ErrorText} `{V : !Quicvarint}.

(** The streams of an open session may include one that has just been closed
    with the error with which the session is then closed. *)
Record closable (e : error) (w : world) : Prop := mkClosable {
  c_maps : maps_ok (w_s w);
  c_bidi : kind_pre errsBidi e (w_bidi w) (heldBidi (w_s w));
  c_send : kind_pre errsSend e (w_send w) (heldSend (w_s w));
  c_recv : kind_pre errsRecv e (w_recv w) (heldRecv (w_s w));
}.

Lemma inv_closable e w : inv w -> ses_closeErr (w_s w) = None -> closable e w.
Proof.
  intros [Hm Hb Hs Hr] E. rewrite E in *. constructor; [done|by apply kind_ok_pre..].
Qed.

Lemma closeWithError_ends e cap w first calls w' :
  closable e w -> ses_closeErr (w_s w) = None -> closeWithError e cap w = Some (first, calls, w') ->
  first = true /\ ses_closeErr (w_s w') = Some e /\ inv w'.
Proof.
  intros [[Ho Hou Hi Hiu] Hb Hs Hr] E. unfold closeWithError, Session.closeWithError. rewrite E.
  destruct (OutgoingStreams.CloseSession e (outgoingStreams (w_s w))) as [[lo mo]|] eqn:E1; [|done].
  destruct (OutgoingStreams.CloseSession e (outgoingUniStreams (w_s w))) as [[lou mou]|] eqn:E2; [|done].
  destruct (IncomingStreams.CloseSession e (incomingStreams (w_s w))) as [li mi] eqn:E3.
  destruct (IncomingStreams.CloseSession e (incomingUniStreams (w_s w))) as [liu miu] eqn:E4.
  cbn [mbind option_bind cs_outgoing cs_outgoingUni cs_incoming cs_incomingUni].
  rewrite E in *.
  eapply closedO in E1 as [M1 H1]; [|exact Ho|apply Ho].
  eapply closedO in E2 as [M2 H2]; [|exact Hou|apply Hou].
  eapply closedI in E3 as [M3 H3]; [|exact Hi|apply Hi].
  eapply closedI in E4 as [M4 H4]; [|exact Hiu|apply Hiu].
  pose proof (closeBidi_app e lo li (w_bidi w)) as Happ.
  destruct (closeBidi e lo (w_bidi w)) as [c1 b1] eqn:F1. simpl in Happ.
  destruct (closeSend e lou (w_send w)) as [c2 s2] eqn:F2.
  destruct (closeBidi e li b1) as [c3 b3] eqn:F3. simpl in Happ.
  destruct (closeRecv e liu (w_recv w)) as [c4 r4] eqn:F4.
  intros [= <- <- <-]. split; [done|]. split; [done|]. constructor; cbn [w_s w_bidi w_send w_recv ses_closeErr].
  - by constructor.
  - rewrite Happ. unfold closeBidi. eapply kind_close; [..|exact Hb].
    + apply Stream_closeWithSession_twice.
    + apply close_errsBidi.
    + intros [|] id Hid; apply elem_of_app; [left; by apply H1|right; by apply H3].
  - change s2 with (c2, s2).2. rewrite <- F2. unfold closeSend. eapply kind_close; [..|exact Hs].
    + apply closeWithSession_twice.
    + apply close_errsSend.
    + intros l id Hid. by apply H2.
  - change r4 with (c4, r4).2. rewrite <- F4. unfold closeRecv. eapply kind_close; [..|exact Hr].
    + apply receive_closeWithSession_twice.
    + apply close_errsRecv.
    + intros l id Hid. by apply H4.
Qed.

Lemma closeWithError_closed e e' cap w : ses_closeErr (w_s w) = Some e' ->
  closeWithError e cap w = Some (false, [], w).
Proof. intros E. unfold closeWithError, Session.closeWithError. rewrite E. simpl. by destruct w. Qed.

Lemma closeWithError_reset e w first calls w' :
  ses_closeErr (w_s w) = None -> closeWithError e None w = Some (first, calls, w') ->
  ses_closeErr (w_s w') = Some e /\
  exists others, calls = others ++ [OnConnect (StrCancelRead (closeCode e)); OnConnect (StrCancelWrite (closeCode e))].
Proof.
  intros E. unfold closeWithError, Session.closeWithError. rewrite E.
  destruct (OutgoingStreams.CloseSession e (outgoingStreams (w_s w))) as [[lo mo]|]; [|done].
  destruct (OutgoingStreams.CloseSession e (outgoingUniStreams (w_s w))) as [[lou mou]|]; [|done].
  destruct (IncomingStreams.CloseSession e (incomingStreams (w_s w))) as [li mi].
  destruct (IncomingStreams.CloseSession e (incomingUniStreams (w_s w))) as [liu miu].
  cbn [mbind option_bind cs_outgoing cs_outgoingUni cs_incoming cs_incomingUni].
  destruct (closeBidi e lo (w_bidi w)) as [c1 b1], (closeSend e lou (w_send w)) as [c2 s2].
  destruct (closeBidi e li b1) as [c3 b3], (closeRecv e liu (w_recv w)) as [c4 r4].
  intros [= <- <- <-]. split; [done|]. exists (c1 ++ c2 ++ c3 ++ c4). by rewrite <- !app_assoc.
Qed.

Lemma inv_closeWithError e cap w first calls w' :
  inv w -> closeWithError e cap w = Some (first, calls, w') -> inv w'.
Proof.
  intros Hinv He. destruct (ses_closeErr (w_s w)) as [e'|] eqn:E.
  - rewrite (closeWithError_closed e e') in He by done. by simplify_eq.
  - by eapply closeWithError_ends; [eapply inv_closable| |].
Qed.

Lemma inv_queueCapsule c w calls w' : inv w -> queueCapsule c w = Some (calls, w') -> inv w'.
Proof.
  intros Hinv. unfold queueCapsule. destruct (ctxDone (w_s w)); [by intros [= <- <-]|]. case_decide.
  - destruct (closeWithError _ _ w) as [[[first cs] w1]|] eqn:E; [|done]. intros [= <- <-].
    by eapply inv_closeWithError.
  - intros [= <- <-]. by apply inv_same.
Qed.

Lemma inv_queueCapsules l w calls w' : inv w -> queueCapsules l w = Some (calls, w') -> inv w'.
Proof.
  revert w calls. induction l as [|c l IH]; intros w calls Hinv; cbn [queueCapsules]; [by intros [= <- <-]|].
  destruct (queueCapsule c w) as [[c1 w1]|] eqn:E1; [|done]. cbn [mbind option_bind].
  destruct (queueCapsules l w1) as [[c2 w2]|] eqn:E2; [|done]. intros [= <- <-].
  eapply IH; [|done]. by eapply inv_queueCapsule.
Qed.

Lemma queueCapsule_session c w :
  Session.queueCapsule false c (w_s w) =
  match queueCapsule c w with Some (_, w') => Returns (w_s w') | None => Panic end.
Proof.
  unfold Session.queueCapsule, queueCapsule. destruct (ctxDone (w_s w)); [done|]. case_decide; [|done].
  unfold closeWithError. destruct (Session.closeWithError _ _ _) as [[[[first cs] calls] s]|]; [|done].
  cbn [mbind option_bind or_panic outcome_bind].
  destruct (closeBidi _ (cs_outgoing cs) _) as [? h], (closeSend _ _ _), (closeRecv _ _ _).
  by destruct (closeBidi _ (cs_incoming cs) h).
Qed.

End proofs.

(** ** What the operations of the maps change *)

Lemma sameO_trans m1 m2 m3 : sameO m1 m2 -> sameO m2 m3 -> sameO m1 m3.
Proof. unfold sameO. intuition congruence. Qed.

Lemma resume_same t id b r (m1 m' : OutgoingStreams.outgoingStreamsMap Z) p :
  OutgoingStreamsSafety.resume t id b r m1 = Some (p, m') -> sameO m1 m'.
Proof.
  unfold OutgoingStreamsSafety.resume, OutgoingStreams.addStreamCtxCancel. intros He.
  repeat case_match; simplify_option_eq; by split.
Qed.

Lemma resume_bind_same t id b r (m1 m' : OutgoingStreams.outgoingStreamsMap Z) p closed :
  OutgoingStreamsSafety.resume t id b r m1 ≫= (fun '(p, s) => Some (p, @nil Z, s)) = Some (p, closed, m') -> sameO m1 m'.
Proof.
  destruct (OutgoingStreamsSafety.resume _ _ _ _ _) as [[? ?]|] eqn:E'; [|done]. intros He. simplify_eq/=.
  by eapply resume_same.
Qed.

Lemma syncStep_same m m' : syncStep m m' -> sameO m m'.
Proof.
  intros [t id ctxErr p m2 He|t id ctxErr p p' closed m2 Hp He|b]; [| |by split].
  - destruct (OutgoingStreams.OpenStreamSyncStart t ctxErr m) as [r m1] eqn:E.
    eapply sameO_trans; [|by eapply resume_same].
    unfold OutgoingStreams.OpenStreamSyncStart, OutgoingStreams.waitStart in E.
    repeat case_match; simplify_eq/=; by split.
  - unfold OutgoingStreamsSafety.critical in He. destruct p; simplify_eq; try (by split).
    + by eapply resume_bind_same.
    + unfold OutgoingStreams.waitCtxDone in He. simplify_option_eq. OutgoingStreams.unblocked. by split.
    + destruct (OutgoingStreams.waitWoken _ _ _) as [[r m1]|] eqn:E; [|done].
      eapply sameO_trans; [|by eapply resume_bind_same].
      unfold OutgoingStreams.waitWoken in E. repeat (case_match; simplify_option_eq); OutgoingStreams.unblocked; by split.
    + by eapply resume_bind_same.
    + by edestruct Hp.
Qed.

Definition addedO (id : Z) (m m' : OutgoingStreams.outgoingStreamsMap Z) : Prop :=
  OutgoingStreams.o_closeErr m' = OutgoingStreams.o_closeErr m /\
  default ∅ (OutgoingStreams.o_m m') = <[id := id]> (default ∅ (OutgoingStreams.o_m m)).
Definition addedI (id : Z) (m m' : IncomingStreams.incomingStreamsMap Z) : Prop :=
  IncomingStreams.i_closeErr m' = IncomingStreams.i_closeErr m /\
  default ∅ (IncomingStreams.i_m m') = <[id := id]> (default ∅ (IncomingStreams.i_m m)).

Lemma OpenStream_map q m r b m' : OutgoingStreams.OpenStream (callback q) m = Some (r, b, m') ->
  match r with
  | Ok id => q = Ok id /\ OutgoingStreams.o_closeErr m = None /\ b = None /\ addedO id m m'
  | Err _ => sameO m m'
  end.
Proof.
  unfold OutgoingStreams.OpenStream, OutgoingStreams.insertStream, callback. intros He.
  repeat (case_match; simplify_option_eq); OutgoingStreams.unblocked; try done.
  split_and!; [done..|]. unfold addedO. simpl.
  match goal with H : _ = Some _ |- _ => by rewrite H end.
Qed.

Lemma Finish_map ctx q m r closed m' :
  OutgoingStreams.OpenStreamSyncFinish ctx (callback q) m = Some (r, closed, m') ->
  match q, r with
  | Ok id, Ok id' => id' = id /\ closed = [] /\ OutgoingStreams.o_closeErr m = None /\ addedO id m m'
  | Ok id, Err _ => closed = [id] /\ is_Some (OutgoingStreams.o_closeErr m) /\ sameO m m'
  | Err _, _ => closed = [] /\ sameO m m'
  end.
Proof.
  unfold OutgoingStreams.OpenStreamSyncFinish, OutgoingStreams.insertStream, callback. intros He.
  destruct q as [id|err]; destruct (OutgoingStreams.o_closeErr _) as [ce|] eqn:E; simplify_option_eq;
    OutgoingStreams.unblocked; simpl in *; split_and!; try done; try by eexists.
  unfold addedO. simpl. match goal with H : _ = Some _ |- _ => by rewrite H end.
Qed.

Lemma UpdateStreamLimit_same limit (m m' : OutgoingStreams.outgoingStreamsMap Z) e :
  OutgoingStreams.UpdateStreamLimit limit m = Some (e, m') -> sameO m m'.
Proof.
  unfold OutgoingStreams.UpdateStreamLimit. intros He.
  repeat (case_match; simplify_option_eq); OutgoingStreams.unblocked; by split.
Qed.

Lemma AddStream_map id m err closed m' : IncomingStreams.AddStream id id m = Some (err, closed, m') ->
  match IncomingStreams.i_closeErr m with
  | Some e => err = None /\ closed = [(id, e)] /\ m' = m
  | None =>
      if decide (IncomingStreams.i_maxStreams m <= IncomingStreams.i_numStreams m) then
        (exists e, err = Some e) /\ closed = [] /\ m' = m
      else
        err = None /\ closed = [] /\ addedI id m m' /\
        IncomingStreams.i_numStreams m' = u64 (IncomingStreams.i_numStreams m + 1) /\
        IncomingStreams.i_acceptQueue m' = IncomingStreams.acceptQueue_add id (IncomingStreams.i_acceptQueue m)
  end.
Proof.
  unfold IncomingStreams.AddStream, IncomingStreams.addLocked. intros He.
  destruct (IncomingStreams.i_closeErr m) as [e|] eqn:E; [by simplify_eq/=|].
  case_decide; [simplify_eq/=; eauto|].
  destruct (IncomingStreams.i_m m) as [h|] eqn:Eh; [|done]. simplify_eq/=. split_and!; try done.
  unfold addedI. simpl. by rewrite E, Eh.
Qed.

Lemma RemoveStream_map id (m : IncomingStreams.incomingStreamsMap Z) limits m' :
  IncomingStreams.RemoveStream id m = (limits, m') ->
  IncomingStreams.i_closeErr m' = IncomingStreams.i_closeErr m /\
  (forall id', id' <> id -> default ∅ (IncomingStreams.i_m m') !! id' = default ∅ (IncomingStreams.i_m m) !! id') /\
  default ∅ (IncomingStreams.i_m m') !! id = None.
Proof.
  unfold IncomingStreams.RemoveStream, IncomingStreams.removeLocked, IncomingStreams.removeQueue. intros He.
  destruct (default ∅ (IncomingStreams.i_m m) !! id) eqn:E; [|by simplify_eq].
  repeat case_decide; simplify_eq/=; split_and!; try done;
    try apply lookup_delete_eq; intros id' Hne; by rewrite lookup_delete_ne.
Qed.

Lemma addedO_ok c id m m' : addedO id m m' -> map_okO c m -> map_okO c m'.
Proof.
  intros [E1 E2] [Hc Hv]. split; [congruence|]. intros id' v. rewrite E2. intros [[<- <-]|[_ Hm]]%lookup_insert_Some; auto.
Qed.
Lemma addedI_ok c id m m' : addedI id m m' -> map_okI c m -> map_okI c m'.
Proof.
  intros [E1 E2] [Hc Hv]. split; [congruence|]. intros id' v. rewrite E2. intros [[<- <-]|[_ Hm]]%lookup_insert_Some; auto.
Qed.

Lemma addedO_held id m m' id' : addedO id m m' -> heldO m' id' <-> id' = id \/ heldO m id'.
Proof.
  intros [_ E]. unfold heldO. rewrite E. destruct (decide (id' = id)) as [->|Hne];
    [rewrite lookup_insert_eq|rewrite lookup_insert_ne by done]; naive_solver.
Qed.
Lemma addedI_held id m m' id' : addedI id m m' -> heldI m' id' <-> id' = id \/ heldI m id'.
Proof.
  intros [_ E]. unfold heldI. rewrite E. destruct (decide (id' = id)) as [->|Hne];
    [rewrite lookup_insert_eq|rewrite lookup_insert_ne by done]; naive_solver.
Qed.

Lemma sendMethod_errs s s' : sendMethod s s' -> errsSend s' = errsSend s.
Proof.
  unfold errsSend. intros [wr|e|].
  - unfold writeHeader, maybeSendStreamHeader. by repeat case_match.
  - unfold CancelWrite. by repeat case_match.
  - unfold Close. by repeat case_match.
Qed.

Lemma recvMethod_errs s s' : recvMethod s s' -> errsRecv s' = errsRecv s.
Proof. unfold errsRecv. intros [n|n]; [|done]. unfold countRead. by case_match. Qed.

Lemma bidiMethod_errs s s' : bidiMethod s s' -> errsBidi s' = errsBidi s.
Proof.
  unfold errsBidi. intros [ss H|rs H]; simpl.
  - apply sendMethod_errs in H. unfold errsSend in H. congruence.
  - apply recvMethod_errs in H. unfold errsRecv in H. congruence.
Qed.

(** ** The steps preserve the invariant *)

Lemma closeEntries_insert {S} (close : S -> S) calls id en h :
  (closeEntries close calls [id] (<[id := en]> h)).2 = <[id := with_str close en]> h.
Proof. simpl. by rewrite lookup_insert_eq, insert_insert_eq. Qed.

Lemma errs_newStream hdr fc n : Forall (eq None) (errsBidi (newStream hdr fc n)).
Proof. by repeat constructor. Qed.
Lemma errs_newSendStream hdr : Forall (eq None) (errsSend (newSendStream hdr)).
Proof. by repeat constructor. Qed.
Lemma errs_newReceiveStream n fc : Forall (eq None) (errsRecv (newReceiveStream n fc)).
Proof. by repeat constructor. Qed.

(** The session changes to [s], and entry [id] of one kind is replaced. *)
Lemma inv_put_bidi id en s w : inv w -> maps_ok s -> ses_closeErr s = ses_closeErr (w_s w) ->
  (forall l id', id' <> id -> heldBidi (w_s w) l id' -> heldBidi s l id') ->
  (forall l id', heldSend (w_s w) l id' -> heldSend s l id') ->
  (forall l id', heldRecv (w_s w) l id' -> heldRecv s l id') ->
  (en_gone en = false -> match ses_closeErr s with
   | None => heldBidi s (en_local en) id /\ Forall (eq None) (errsBidi (en_str en))
   | Some e => Forall (eq (Some e)) (errsBidi (en_str en))
   end) ->
  inv (set_bidi (<[id := en]> (w_bidi w)) (set_s s w)).
Proof.
  intros [Hm Hb Hs Hr] Hm' E H1 H2 H3 Hen. constructor; simpl; [done|..].
  - eapply kind_ok_insert; [exact H1|done|by rewrite E].
  - rewrite E. by eapply kind_ok_held.
  - rewrite E. by eapply kind_ok_held.
Qed.

Lemma inv_put_send id en s w : inv w -> maps_ok s -> ses_closeErr s = ses_closeErr (w_s w) ->
  (forall l id', heldBidi (w_s w) l id' -> heldBidi s l id') ->
  (forall l id', id' <> id -> heldSend (w_s w) l id' -> heldSend s l id') ->
  (forall l id', heldRecv (w_s w) l id' -> heldRecv s l id') ->
  (en_gone en = false -> match ses_closeErr s with
   | None => heldSend s (en_local en) id /\ Forall (eq None) (errsSend (en_str en))
   | Some e => Forall (eq (Some e)) (errsSend (en_str en))
   end) ->
  inv (set_send (<[id := en]> (w_send w)) (set_s s w)).
Proof.
  intros [Hm Hb Hs Hr] Hm' E H1 H2 H3 Hen. constructor; simpl; [done|..].
  - rewrite E. by eapply kind_ok_held.
  - eapply kind_ok_insert; [exact H2|done|by rewrite E].
  - rewrite E. by eapply kind_ok_held.
Qed.

Lemma inv_put_recv id en s w : inv w -> maps_ok s -> ses_closeErr s = ses_closeErr (w_s w) ->
  (forall l id', heldBidi (w_s w) l id' -> heldBidi s l id') ->
  (forall l id', heldSend (w_s w) l id' -> heldSend s l id') ->
  (forall l id', id' <> id -> heldRecv (w_s w) l id' -> heldRecv s l id') ->
  (en_gone en = false -> match ses_closeErr s with
   | None => heldRecv s (en_local en) id /\ Forall (eq None) (errsRecv (en_str en))
   | Some e => Forall (eq (Some e)) (errsRecv (en_str en))
   end) ->
  inv (set_recv (<[id := en]> (w_recv w)) (set_s s w)).
Proof.
  intros [Hm Hb Hs Hr] Hm' E H1 H2 H3 Hen. constructor; simpl; [done|..].
  - rewrite E. by eapply kind_ok_held.
  - rewrite E. by eapply kind_ok_held.
  - eapply kind_ok_insert; [exact H3|done|by rewrite E].
Qed.

(** An operation on one of the maps; the others are the same. *)
Lemma maps_ok_outgoing m s : maps_ok s -> map_okO (ses_closeErr s) m -> maps_ok (set_outgoing m s).
Proof. intros [? ? ? ?] ?. by constructor. Qed.
Lemma maps_ok_outgoingUni m s : maps_ok s -> map_okO (ses_closeErr s) m -> maps_ok (set_outgoingUni m s).
Proof. intros [? ? ? ?] ?. by constructor. Qed.
Lemma maps_ok_incoming m s : maps_ok s -> map_okI (ses_closeErr s) m -> maps_ok (set_incoming m s).
Proof. intros [? ? ? ?] ?. by constructor. Qed.
Lemma maps_ok_incomingUni m s : maps_ok s -> map_okI (ses_closeErr s) m -> maps_ok (set_incomingUni m s).
Proof. intros [? ? ? ?] ?. by constructor. Qed.

Create HintDb maps.
#[local] Hint Resolve maps_ok_outgoing maps_ok_outgoingUni maps_ok_incoming maps_ok_incomingUni
  addedO_ok addedI_ok map_okO_same map_okI_same m_o m_ou m_i m_iu : maps.

Section preservation.
Context `{ET : !ErrorText} `{V : !Quicvarint}.
Context (sessionID : Z).

Lemma same_maps_outgoing m s : sameO (outgoingStreams s) m -> same_maps s (set_outgoing m s).
Proof. intros. by constructor. Qed.
Lemma same_maps_outgoingUni m s : sameO (outgoingUniStreams s) m -> same_maps s (set_outgoingUni m s).
Proof. intros. by constructor. Qed.
Lemma same_maps_incoming m s : sameI (incomingStreams s) m -> same_maps s (set_incoming m s).
Proof. intros. by constructor. Qed.
Lemma same_maps_incomingUni m s : sameI (incomingUniStreams s) m -> same_maps s (set_incomingUni m s).
Proof. intros. by constructor. Qed.

(** Opening. *)
Lemma queue_holding c (s s1 s' : session) : Session.queueCapsule true c s1 = Returns s' ->
  same_maps s s1 -> same_maps s s'.
Proof.
  unfold Session.queueCapsule. destruct (ctxDone s1); [by intros [= <-]|].
  destruct (decide _); [done|]. intros [= <-] [? ? ? ? ?]. by constructor.
Qed.

Lemma OpenStream_session q s r s' : Session.OpenStream (callback q) s = Returns (r, s') ->
  match r with
  | Ok id => q = Ok id /\ exists m, OutgoingStreams.o_closeErr (outgoingStreams s) = None /\
      addedO id (outgoingStreams s) m /\ s' = set_outgoing m s
  | Err _ => same_maps s s'
  end.
Proof.
  unfold Session.OpenStream. destruct (ses_closeErr s); [by intros [= <- <-]; apply same_maps_refl|].
  destruct (OutgoingStreams.OpenStream _ _) as [[[r' b] m]|] eqn:E; [|done]. apply OpenStream_map in E.
  cbn [or_panic mbind outcome_bind]. intros He. destruct r' as [id|err].
  - destruct E as (-> & Ho & -> & Hadd). simplify_eq/=. split; [done|]. by exists m.
  - destruct b as [limit|]; [|simplify_eq/=; by apply same_maps_outgoing].
    destruct (Session.queueCapsule _ _ _) as [s1| |] eqn:Eq; [|done..]. simplify_eq/=.
    eapply queue_holding; [exact Eq|by apply same_maps_outgoing].
Qed.

Lemma OpenUniStream_session q s r s' : Session.OpenUniStream (callback q) s = Returns (r, s') ->
  match r with
  | Ok id => q = Ok id /\ exists m, OutgoingStreams.o_closeErr (outgoingUniStreams s) = None /\
      addedO id (outgoingUniStreams s) m /\ s' = set_outgoingUni m s
  | Err _ => same_maps s s'
  end.
Proof.
  unfold Session.OpenUniStream. destruct (ses_closeErr s); [by intros [= <- <-]; apply same_maps_refl|].
  destruct (OutgoingStreams.OpenStream _ _) as [[[r' b] m]|] eqn:E; [|done]. apply OpenStream_map in E.
  cbn [or_panic mbind outcome_bind]. intros He. destruct r' as [id|err].
  - destruct E as (-> & Ho & -> & Hadd). simplify_eq/=. split; [done|]. by exists m.
  - destruct b as [limit|]; [|simplify_eq/=; by apply same_maps_outgoingUni].
    destruct (Session.queueCapsule _ _ _) as [s1| |] eqn:Eq; [|done..]. simplify_eq/=.
    eapply queue_holding; [exact Eq|by apply same_maps_outgoingUni].
Qed.

(** A stream enters the map of bidirectional streams that it belongs to. *)
Lemma streams_opened id m strm w : inv w -> OutgoingStreams.o_closeErr (outgoingStreams (w_s w)) = None ->
  addedO id (outgoingStreams (w_s w)) m -> Forall (eq None) (errsBidi strm) ->
  inv (set_bidi (<[id := mkEntry strm true false]> (w_bidi w)) (set_s (set_outgoing m (w_s w)) w)).
Proof.
  intros Hinv Ho Hadd Herr. pose proof (v_maps _ Hinv) as Hm. destruct (m_o _ Hm) as [E _].
  apply inv_put_bidi; simpl; eauto with maps.
  - intros [|] id' Hne; [|done]. unfold heldBidi. simpl. rewrite (addedO_held _ _ _ _ Hadd). auto.
  - intros _. rewrite <- E, Ho. split; [|done]. unfold heldBidi. simpl. rewrite (addedO_held _ _ _ _ Hadd). auto.
Qed.

Lemma inv_openedUni id m strm w : inv w -> OutgoingStreams.o_closeErr (outgoingUniStreams (w_s w)) = None ->
  addedO id (outgoingUniStreams (w_s w)) m -> Forall (eq None) (errsSend strm) ->
  inv (set_send (<[id := mkEntry strm true false]> (w_send w)) (set_s (set_outgoingUni m (w_s w)) w)).
Proof.
  intros Hinv Ho Hadd Herr. pose proof (v_maps _ Hinv) as Hm. destruct (m_ou _ Hm) as [E _].
  apply inv_put_send; simpl; eauto with maps.
  - intros l id' Hne. unfold heldSend. simpl. rewrite (addedO_held _ _ _ _ Hadd). auto.
  - intros _. rewrite <- E, Ho. split; [|done]. unfold heldSend. simpl. rewrite (addedO_held _ _ _ _ Hadd). auto.
Qed.

Lemma streams_OpenStream q w r w' : inv w -> OpenStream sessionID q w = Returns (r, w') -> inv w'.
Proof.
  intros Hinv. unfold OpenStream. destruct (Session.OpenStream _ _) as [[r' s]| |] eqn:E; [|done..].
  apply OpenStream_session in E. cbn [mbind outcome_bind]. intros [= -> <-]. destruct r as [id|err].
  - destruct E as (_ & m & Ho & Hadd & ->). apply (streams_opened id m _ w); [done..|apply errs_newStream].
  - by apply inv_same.
Qed.

Lemma inv_OpenUniStream q w r w' : inv w -> OpenUniStream sessionID q w = Returns (r, w') -> inv w'.
Proof.
  intros Hinv. unfold OpenUniStream. destruct (Session.OpenUniStream _ _) as [[r' s]| |] eqn:E; [|done..].
  apply OpenUniStream_session in E. cbn [mbind outcome_bind]. intros [= -> <-]. destruct r as [id|err].
  - destruct E as (_ & m & Ho & Hadd & ->). apply (inv_openedUni id m _ w); [done..|apply errs_newSendStream].
  - by apply inv_same.
Qed.

(** A stream that comes too late is closed at once. *)
Lemma inv_late_bidi e id strm s w local : inv w -> same_maps (w_s w) s -> ses_closeErr (w_s w) = Some e ->
  Forall (eq None) (errsBidi strm) ->
  inv (set_bidi (closeBidi e [id] (<[id := mkEntry strm local false]> (w_bidi w))).2 (set_s s w)).
Proof.
  intros Hinv Hs E Herr. unfold closeBidi. rewrite closeEntries_insert.
  apply (inv_same _ _ Hs) in Hinv. pose proof (sm_err _ _ Hs) as E'.
  apply (inv_put_bidi id _ s (set_s s w)); try done; [apply Hinv|]. intros _. rewrite E', E.
  apply close_errsBidi. by left.
Qed.

Lemma inv_late_send e id strm s w local : inv w -> same_maps (w_s w) s -> ses_closeErr (w_s w) = Some e ->
  Forall (eq None) (errsSend strm) ->
  inv (set_send (closeSend e [id] (<[id := mkEntry strm local false]> (w_send w))).2 (set_s s w)).
Proof.
  intros Hinv Hs E Herr. unfold closeSend. rewrite closeEntries_insert.
  apply (inv_same _ _ Hs) in Hinv. pose proof (sm_err _ _ Hs) as E'.
  apply (inv_put_send id _ s (set_s s w)); try done; [apply Hinv|]. intros _. rewrite E', E.
  apply close_errsSend. by left.
Qed.

Lemma inv_late_recv e id strm s w local : inv w -> same_maps (w_s w) s -> ses_closeErr (w_s w) = Some e ->
  Forall (eq None) (errsRecv strm) ->
  inv (set_recv (closeRecv e [id] (<[id := mkEntry strm local false]> (w_recv w))).2 (set_s s w)).
Proof.
  intros Hinv Hs E Herr. unfold closeRecv. rewrite closeEntries_insert.
  apply (inv_same _ _ Hs) in Hinv. pose proof (sm_err _ _ Hs) as E'.
  apply (inv_put_recv id _ s (set_s s w)); try done; [apply Hinv|]. intros _. rewrite E', E.
  apply close_errsRecv. by left.
Qed.

Lemma inv_finish ctx q w r calls w' : inv w ->
  OpenStreamSync_finish sessionID ctx q w = Some (r, calls, w') -> inv w'.
Proof.
  intros Hinv. unfold OpenStreamSync_finish.
  destruct (OutgoingStreams.OpenStreamSyncFinish _ _ _) as [[[r' closed] m]|] eqn:E; [|done].
  apply Finish_map in E. cbn [mbind option_bind]. destruct q as [id|err].
  - destruct r' as [id'|err'].
    + destruct E as (-> & -> & Ho & Hadd). intros [= <- <- <-].
      apply (streams_opened id m _ w); [done..|apply errs_newStream].
    + destruct E as (-> & [e He] & Hsame). destruct (closeBidi _ _ _) as [cs h] eqn:Ec. intros [= <- <- <-].
      change h with (cs, h).2. rewrite <- Ec, (proj1 Hsame), He.
      apply (inv_late_bidi e id _ _ w true); [done|by apply same_maps_outgoing| |apply errs_newStream].
      destruct (m_o _ (v_maps _ Hinv)) as [E _]. congruence.
  - destruct E as [-> Hsame]. intros [= <- <- <-]. by apply (inv_same _ w (same_maps_outgoing m _ Hsame)).
Qed.

Lemma inv_finishUni ctx q w r calls w' : inv w ->
  OpenUniStreamSync_finish sessionID ctx q w = Some (r, calls, w') -> inv w'.
Proof.
  intros Hinv. unfold OpenUniStreamSync_finish.
  destruct (OutgoingStreams.OpenStreamSyncFinish _ _ _) as [[[r' closed] m]|] eqn:E; [|done].
  apply Finish_map in E. cbn [mbind option_bind]. destruct q as [id|err].
  - destruct r' as [id'|err'].
    + destruct E as (-> & -> & Ho & Hadd). intros [= <- <- <-].
      apply (inv_openedUni id m _ w); [done..|apply errs_newSendStream].
    + destruct E as (-> & [e He] & Hsame). destruct (closeSend _ _ _) as [cs h] eqn:Ec. intros [= <- <- <-].
      change h with (cs, h).2. rewrite <- Ec, (proj1 Hsame), He.
      apply (inv_late_send e id _ _ w true); [done|by apply same_maps_outgoingUni| |apply errs_newSendStream].
      destruct (m_ou _ (v_maps _ Hinv)) as [E _]. congruence.
  - destruct E as [-> Hsame]. intros [= <- <- <-]. by apply (inv_same _ w (same_maps_outgoingUni m _ Hsame)).
Qed.

(** Streams of the peer. *)
Lemma inv_addIncoming id len w calls w' : inv w -> addIncomingStream id len w = Some (calls, w') -> inv w'.
Proof.
  intros Hinv. pose proof (v_maps _ Hinv) as Hm. destruct (m_i _ Hm) as [Ec Hv]. unfold addIncomingStream.
  destruct (IncomingStreams.AddStream _ _ _) as [[[err closed] m]|] eqn:E; [|done].
  apply AddStream_map in E. cbn [mbind option_bind].
  destruct (IncomingStreams.i_closeErr _) as [e|] eqn:Ei; [|case_decide].
  - destruct E as (-> & -> & ->). destruct (closeBidi _ _ _) as [cs h] eqn:Eh. intros [= <- <-].
    change h with (cs, h).2. rewrite <- Eh.
    apply (inv_late_bidi e id _ _ w false); [done|by apply same_maps_incoming|done|apply errs_newStream].
  - destruct E as ([e ->] & -> & ->). destruct (closeBidi _ _ _) as [cs h] eqn:Eh.
    destruct (closeWithError _ _ _) as [[[first c2] w2]|] eqn:Ew; [|done]. intros [= <- <-].
    eapply closeWithError_ends in Ew as (_ & _ & ?); [done| |done].
    destruct Hinv as [_ Hb Hs Hr]. rewrite <- Ec in *. constructor; simpl.
    + by apply maps_ok_incoming; [|rewrite <- Ec].
    + change h with (cs, h).2. rewrite <- Eh. unfold closeBidi. rewrite closeEntries_insert.
      intros id' en Hen Hg. apply lookup_insert_Some in Hen as [[<- <-]|[_ Hen]].
      * right. apply close_errsBidi. left. apply errs_newStream.
      * left. by apply (Hb id').
    + by apply kind_ok_pre.
    + by apply kind_ok_pre.
  - destruct E as (-> & -> & Hadd & _). intros [= <- <-].
    apply (inv_put_bidi id _ (set_incoming m (w_s w)) w); simpl; eauto with maps.
    + intros [|] id' Hne; [done|]. unfold heldBidi. simpl. rewrite (addedI_held _ _ _ _ Hadd). auto.
    + intros _. rewrite <- Ec. split; [|apply errs_newStream].
      unfold heldBidi. simpl. rewrite (addedI_held _ _ _ _ Hadd). auto.
Qed.

Lemma inv_addIncomingUni id len w calls w' : inv w -> addIncomingUniStream id len w = Some (calls, w') -> inv w'.
Proof.
  intros Hinv. pose proof (v_maps _ Hinv) as Hm. destruct (m_iu _ Hm) as [Ec Hv]. unfold addIncomingUniStream.
  destruct (IncomingStreams.AddStream _ _ _) as [[[err closed] m]|] eqn:E; [|done].
  apply AddStream_map in E. cbn [mbind option_bind].
  destruct (IncomingStreams.i_closeErr _) as [e|] eqn:Ei; [|case_decide].
  - destruct E as (-> & -> & ->). destruct (closeRecv _ _ _) as [cs h] eqn:Eh. intros [= <- <-].
    change h with (cs, h).2. rewrite <- Eh.
    apply (inv_late_recv e id _ _ w false); [done|by apply same_maps_incomingUni|done|apply errs_newReceiveStream].
  - destruct E as ([e ->] & -> & ->). destruct (closeRecv _ _ _) as [cs h] eqn:Eh.
    destruct (closeWithError _ _ _) as [[[first c2] w2]|] eqn:Ew; [|done]. intros [= <- <-].
    eapply closeWithError_ends in Ew as (_ & _ & ?); [done| |done].
    destruct Hinv as [_ Hb Hs Hr]. rewrite <- Ec in *. constructor; simpl.
    + by apply maps_ok_incomingUni; [|rewrite <- Ec].
    + by apply kind_ok_pre.
    + by apply kind_ok_pre.
    + change h with (cs, h).2. rewrite <- Eh. unfold closeRecv. rewrite closeEntries_insert.
      intros id' en Hen Hg. apply lookup_insert_Some in Hen as [[<- <-]|[_ Hen]].
      * right. apply close_errsRecv. left. apply errs_newReceiveStream.
      * left. by apply (Hr id').
  - destruct E as (-> & -> & Hadd & _). intros [= <- <-].
    apply (inv_put_recv id _ (set_incomingUni m (w_s w)) w); simpl; eauto with maps.
    + intros l id' Hne. unfold heldRecv. simpl. rewrite (addedI_held _ _ _ _ Hadd). auto.
    + intros _. rewrite <- Ec. split; [|apply errs_newReceiveStream].
      unfold heldRecv. simpl. rewrite (addedI_held _ _ _ _ Hadd). auto.
Qed.

(** Streams that end. *)
Lemma heldO_remove id m id' : id' <> id -> heldO m id' -> heldO (OutgoingStreams.removeStream id m) id'.
Proof.
  unfold heldO, OutgoingStreams.removeStream. simpl. destruct (OutgoingStreams.o_m m); [|done].
  intros ?. simpl. by rewrite lookup_delete_ne.
Qed.

Lemma map_okO_remove c id m : map_okO c m -> map_okO c (OutgoingStreams.removeStream id m).
Proof.
  intros [E H]. split; [done|]. unfold OutgoingStreams.removeStream. simpl. intros id' v.
  destruct (OutgoingStreams.o_m m) as [h|]; simpl; [|by rewrite lookup_empty].
  intros [_ ?]%lookup_delete_Some. by apply H.
Qed.

Lemma map_okI_remove c id m limits m' : IncomingStreams.RemoveStream id m = (limits, m') ->
  map_okI c m -> map_okI c m' /\ forall id', id' <> id -> heldI m id' -> heldI m' id'.
Proof.
  intros (E & Hne & Hid)%RemoveStream_map [Hc Hv]. unfold heldI. split; [split; [congruence|]|].
  - intros id' v. destruct (decide (id' = id)) as [->|?]; [by rewrite Hid|]. rewrite Hne by done. apply Hv.
  - intros id' ?. by rewrite Hne.
Qed.

Lemma inv_halfClosed id side w calls w' : inv w -> halfClosed id side w = Some (calls, w') -> inv w'.
Proof.
  intros Hinv. pose proof (v_maps _ Hinv) as Hm. unfold halfClosed.
  destruct (w_bidi w !! id) as [en|] eqn:E; [|done]. cbn [mbind option_bind].
  destruct (registerClose side (en_str en)) as [closed s] eqn:Er.
  assert (errsBidi s = errsBidi (en_str en)) as Herr.
  { unfold registerClose in Er. by destruct side; simplify_eq. }
  destruct closed.
  - unfold onCloseBidi. destruct (en_local en).
    + intros [= <- <-]. apply (inv_put_bidi id _ (set_outgoing _ (w_s w)) w); eauto using map_okO_remove with maps.
      * intros [|] id' Hne; [|done]. by apply heldO_remove.
      * simpl. rewrite orb_true_r. done.
    + simpl. destruct (IncomingStreams.RemoveStream _ _) as [limits m] eqn:Ei. intros He.
      eapply inv_queueCapsules; [|exact He].
      eapply map_okI_remove in Ei as [Hm' Hheld]; [|apply (m_i _ Hm)].
      apply (inv_put_bidi id _ (set_incoming _ (w_s w)) w); eauto with maps.
      * intros [|] id' Hne; [done|]. by apply Hheld.
      * simpl. rewrite orb_true_r. done.
  - intros [= <- <-]. apply (inv_put_bidi id _ (w_s w) w); try done. simpl. rewrite orb_false_r, Herr.
    apply (v_bidi _ Hinv _ _ E).
Qed.

Lemma inv_sendClosed id w w' : inv w -> sendClosed id w = Some w' -> inv w'.
Proof.
  intros Hinv. pose proof (v_maps _ Hinv) as Hm. unfold sendClosed.
  destruct (w_send w !! id) as [en|] eqn:E; [|done]. intros [= <-]. unfold onCloseSend. simpl.
  apply (inv_put_send id _ (set_outgoingUni _ (w_s w)) w); eauto using map_okO_remove with maps; [|done].
  intros l id' Hne. by apply heldO_remove.
Qed.

Lemma inv_recvClosed id w calls w' : inv w -> recvClosed id w = Some (calls, w') -> inv w'.
Proof.
  intros Hinv. pose proof (v_maps _ Hinv) as Hm. unfold recvClosed.
  destruct (w_recv w !! id) as [en|] eqn:E; [|done]. cbn [mbind option_bind]. unfold onCloseRecv. simpl.
  destruct (IncomingStreams.RemoveStream _ _) as [limits m] eqn:Ei. intros He.
  eapply inv_queueCapsules; [|exact He].
  eapply map_okI_remove in Ei as [Hm' Hheld]; [|apply (m_iu _ Hm)].
  apply (inv_put_recv id _ (set_incomingUni _ (w_s w)) w); eauto with maps; try done.
Qed.

(** Capsules of the peer. *)
Lemma handleCapsule_same c s err s' : handleCapsule c s = Some (err, s') -> same_maps s s'.
Proof.
  unfold handleCapsule. intros He.
  destruct c; try (by simplify_eq; apply same_maps_refl).
  - destruct (outgoingDataFC s) as [fc|]; [|by simplify_eq; apply same_maps_refl].
    destruct (UpdateMaxData _ _). simplify_eq. by constructor.
  - destruct (negb _); [by simplify_eq; apply same_maps_refl|].
    destruct (OutgoingStreams.UpdateStreamLimit _ _) as [[? m]|] eqn:E; [|done]. simplify_eq/=.
    by eapply same_maps_outgoing, UpdateStreamLimit_same.
  - destruct (negb _); [by simplify_eq; apply same_maps_refl|].
    destruct (OutgoingStreams.UpdateStreamLimit _ _) as [[? m]|] eqn:E; [|done]. simplify_eq/=.
    by eapply same_maps_outgoingUni, UpdateStreamLimit_same.
Qed.

Lemma inv_receiveCapsule c w calls w' : inv w -> receiveCapsule c w = Some (calls, w') -> inv w'.
Proof.
  intros Hinv. unfold receiveCapsule.
  destruct (handleCapsule _ _) as [[err s]|] eqn:E; [|done]. apply handleCapsule_same in E.
  apply (inv_same _ _ E) in Hinv. cbn [mbind option_bind]. destruct err as [err|]; [|by intros [= <- <-]].
  destruct (closeWithError _ _ _) as [[[first cs] w2]|] eqn:Ew; [|done]. intros [= <- <-].
  by eapply inv_closeWithError.
Qed.

Lemma accept_same m m' :
  (exists r, IncomingStreams.acceptTry m = (r, m')) \/ IncomingStreams.acceptReceive m = Some m' ->
  @sameI m m'.
Proof.
  unfold IncomingStreams.acceptTry, IncomingStreams.acceptReceive.
  intros [[r He]|He]; repeat case_match; simplify_eq; by split.
Qed.

Lemma streams_inv_step w w' : inv w -> step sessionID w w' -> inv w'.
Proof.
  intros Hinv [];
    try (match goal with
    | H : OpenStream _ _ _ = _ |- _ => eapply streams_OpenStream
    | H : OpenUniStream _ _ _ = _ |- _ => eapply inv_OpenUniStream
    | H : OpenStreamSync_finish _ _ _ _ = _ |- _ => eapply inv_finish
    | H : OpenUniStreamSync_finish _ _ _ _ = _ |- _ => eapply inv_finishUni
    | H : addIncomingStream _ _ _ = _ |- _ => eapply inv_addIncoming
    | H : addIncomingUniStream _ _ _ = _ |- _ => eapply inv_addIncomingUni
    | H : halfClosed _ _ _ = _ |- _ => eapply inv_halfClosed
    | H : sendClosed _ _ = _ |- _ => eapply inv_sendClosed
    | H : recvClosed _ _ = _ |- _ => eapply inv_recvClosed
    | H : receiveCapsule _ _ = _ |- _ => eapply inv_receiveCapsule
    | H : queueCapsule _ _ = _ |- _ => eapply inv_queueCapsule
    | H : closeWithError _ _ _ = _ |- _ => eapply inv_closeWithError
    end; eassumption).
  - by apply inv_same; [apply same_maps_outgoing, syncStep_same|].
  - by apply inv_same; [apply same_maps_outgoingUni, syncStep_same|].
  - apply (inv_put_bidi id _ (w_s w) w); try done; [apply Hinv|]. simpl. erewrite bidiMethod_errs by done.
    by apply (v_bidi _ Hinv).
  - apply (inv_put_send id _ (w_s w) w); try done; [apply Hinv|]. simpl. erewrite sendMethod_errs by done.
    by apply (v_send _ Hinv).
  - apply (inv_put_recv id _ (w_s w) w); try done; [apply Hinv|]. simpl. erewrite recvMethod_errs by done.
    by apply (v_recv _ Hinv).
  - by apply inv_same; [apply same_maps_incoming, accept_same|].
  - by apply inv_same; [apply same_maps_incomingUni, accept_same|].
  - by apply inv_same; [repeat split|].
Qed.

Lemma streams_inv_start protocol fc : inv (start protocol fc).
Proof.
  constructor; [|intros id en He; simpl in He; by rewrite lookup_empty in He..].
  constructor; (split; [done|]); intros id v; simpl; by rewrite lookup_empty.
Qed.

Lemma streams_inv_reachable protocol fc w : reachable sessionID protocol fc w -> inv w.
Proof.
  intros H. pose proof (streams_inv_start protocol fc) as Hs. revert Hs. induction H; eauto using streams_inv_step.
Qed.

End preservation.

(** ** Examples *)

(** The peer may open one bidirectional stream at a time, and opens stream 0. *)
Definition exampleStreamFC : sessionFlowControl := mkSessionFlowControl true 1 1 1 1 1000 1000.

Definition openStreams : world :=
  match addIncomingStream 0 3 (start [] exampleStreamFC) with
  | Some (_, w) => w
  | None => start [] exampleStreamFC
  end.

Definition endedStreams : world :=
  match closeWithError (ErrSession (mkSessionError true 7 [])) None openStreams with
  | Some (_, _, w) => w
  | None => openStreams
  end.

Lemma openStreams_reachable : reachable (ET := exampleText) (V := Rfc9000.quicvarint) 0 [] exampleStreamFC openStreams.
Proof. apply rtc_once. eapply (st_addIncoming _ _ 0 3); reflexivity. Qed.

Lemma endedStreams_reachable : reachable (ET := exampleText) (V := Rfc9000.quicvarint) 0 [] exampleStreamFC endedStreams.
Proof.
  eapply rtc_r; [apply openStreams_reachable|].
  eapply (st_close _ _ (ErrSession (mkSessionError true 7 [])) None); reflexivity.
Qed.

(** ** Theorems *)



Definition resetStream (id : Z) : list call :=
  [OnSend id (ECancelWrite WTSessionGoneErrorCode); OnCancelRead id WTSessionGoneErrorCode].

(** C26: what becomes of a bidirectional stream that the peer opens. In a session
    that is closed it is reset in both directions, and nothing else happens. If it
    exceeds the limit, it is reset, and the session is closed with a flow control
    error: the CONNECT stream is reset with WT_FLOW_CONTROL_ERROR as the last
    thing, after the other streams. Otherwise it is registered, counted, and put at
    the end of the queue from which it is accepted, with a notification, and the
    bytes of its header count as read. *)
Theorem incoming_stream_admitted `{ET : !ErrorText} `{V : !Quicvarint} (sessionID : Z)
    (protocol : gostring) (fc : sessionFlowControl) (id len : Z) (w w' : world) calls :
  reachable sessionID protocol fc w -> addIncomingStream id len w = Some (calls, w') ->
  let m := incomingStreams (w_s w) in
  match ses_closeErr (w_s w) with
  | Some e => calls = resetStream id /\ w_s w' = w_s w
  | None =>
      if decide (IncomingStreams.i_maxStreams m <= IncomingStreams.i_numStreams m) then
        exists text others, ses_closeErr (w_s w') = Some (ErrHTTP3 WTFlowControlErrorCode text) /\
          calls = resetStream id ++ others ++
            [OnConnect (StrCancelRead WTFlowControlErrorCode); OnConnect (StrCancelWrite WTFlowControlErrorCode)]
      else
        calls = [] /\ ses_closeErr (w_s w') = None /\ heldI (incomingStreams (w_s w')) id /\
        IncomingStreams.i_numStreams (incomingStreams (w_s w')) = u64 (IncomingStreams.i_numStreams m + 1) /\
        IncomingStreams.i_acceptQueue (incomingStreams (w_s w')) =
          IncomingStreams.mkAcceptQueue true (IncomingStreams.aq_queue (IncomingStreams.i_acceptQueue m) ++ [id]) /\
        w_bidi w' !! id = Some (mkEntry (newStream [] (hasReceiveFC (w_s w)) (i64 len)) false false)
  end.
Proof.
  intros Hinv%streams_inv_reachable. destruct (m_i _ (v_maps _ Hinv)) as [Ec _]. unfold addIncomingStream.
  destruct (IncomingStreams.AddStream _ _ _) as [[[err closed] m]|] eqn:E; [|done].
  pose proof (AddStream_map _ _ _ _ _ E) as H. rewrite Ec in H. cbn [mbind option_bind].
  destruct (ses_closeErr (w_s w)) as [e|] eqn:Es; [|case_decide].
  - destruct H as (-> & -> & ->). simpl. rewrite lookup_insert_eq. intros [= <- <-]. split; [done|].
    by destruct (w_s w).
  - destruct H as ([e ->] & -> & ->). unfold IncomingStreams.AddStream, IncomingStreams.addLocked in E.
    rewrite Ec, decide_True in E by done. cbn [mbind option_bind] in E. injection E as <-.
    unfold closeBidi. cbn [closeEntries]. rewrite lookup_insert_eq.
    destruct (closeWithError _ _ _) as [[[first c2] w2]|] eqn:Ew; [|done].
    apply closeWithError_reset in Ew as [E' [others ->]]; [|done]. intros [= <- <-].
    do 2 eexists. split; [exact E'|reflexivity].
  - destruct H as (-> & -> & Hadd & Hn & Hq). intros [= <- <-]. simpl. split_and!; try done.
    + by apply (addedI_held _ _ _ _ Hadd); left.
    + apply lookup_insert_eq.
Qed.

Lemma incoming_stream_admitted_witness :
  exists calls w', addIncomingStream 4 3 openStreams = Some (calls, w') /\
    exists text others, ses_closeErr (w_s w') = Some (ErrHTTP3 WTFlowControlErrorCode text) /\
      calls = resetStream 4 ++ others ++
        [OnConnect (StrCancelRead WTFlowControlErrorCode); OnConnect (StrCancelWrite WTFlowControlErrorCode)].
Proof.
  do 2 eexists. split; [reflexivity|].
  exact (incoming_stream_admitted (ET := exampleText) (V := Rfc9000.quicvarint) 0 [] exampleStreamFC 4 3 openStreams
    _ _ openStreams_reachable eq_refl).
Defined.
