(* ===== verification/Handshake.v ===== *)
(** * A session from both ends ([server.go], [client_conn.go], [config.go])

    [ClientConn.dial] and [Server.Upgrade] put together. Between them are HTTP/3
    and QUIC, which deliver the settings, the request and the response. *)

From S2P Require Import Prelude Errors Quicvarint Protocol Config FlowControl Capsule Negotiation.
From S2P Require Import SessionManager Session Server ClientConn.
From S2P Require OutgoingStreams IncomingStreams.

(** ** What each side sees of the other *)

(** The settings of a server that was configured with [config], as HTTP/3
    delivers them: [ConfigureHTTP3Server] enables datagrams, and an HTTP/3 server
    always enables Extended CONNECT. *)
Definition serverSettings (config : Config) (additional : option (gmap Z Z)) : http3_Settings :=
  mkSettings true true (Server.init (Some config) (Some additional)).2.

(** Those of a client; [connect] is its value for Extended CONNECT. *)
Definition clientSettings (c : ClientConn) (connect : bool) : http3_Settings :=
  mkSettings true connect (Some (cc_settings c)).

(** The request of [dial] at the server; it has no Origin header. *)
Definition dialedRequest (host : gostring) (conn : nat) (available : list gostring) : request :=
  mkRequest (str "CONNECT") protocolHeader [] host (Some conn) available.

(** A network on which nothing fails: the server's settings and its answer
    arrive. *)
Definition goodNetwork (settings : http3_Settings) (id : Z) (answer : list gostring) : dialEnv :=
  mkDialEnv Ready true true Ready settings (Ok id) None (Ok (mkResponse 200 answer)) None.

(** ** Agreement of two sessions

    The limits with which [s1] starts to send are those that [s2] enforces. *)

Definition agrees {B1 U1 R1 B2 U2 R2} (s1 : @Session B1 U1 R1) (s2 : @Session B2 U2 R2) : Prop :=
  OutgoingStreams.o_maxStreams (outgoingStreams s1) = IncomingStreams.i_maxStreams (incomingStreams s2) /\
  OutgoingStreams.o_maxStreams (outgoingUniStreams s1) = IncomingStreams.i_maxStreams (incomingUniStreams s2) /\
  out_maxData <$> outgoingDataFC s1 = in_maxData <$> incomingDataFC s2 /\
  applicationProtocol s1 = applicationProtocol s2 /\
  flowControlEnabled s1 = flowControlEnabled s2.

(** ** Lemmas *)

Lemma serverSettings_advertised config additional :
  serverSettings config additional = advertised config (ConfigureHTTP3Server additional).
Proof. reflexivity. Qed.

(** The limits do not depend on Extended CONNECT. *)
Lemma clientSettings_fc cS c connect :
  Config_sessionFlowControl cS (Some (clientSettings c connect)) =
  Config_sessionFlowControl cS (Some (mkSettings true true (Some (cc_settings c)))).
Proof. reflexivity. Qed.

Lemma setIf_other b k v m i : i <> k -> setIf b k v m !! i = m !! i.
Proof. intros H. destruct b; simpl; [|done]. by apply lookup_insert_ne. Qed.

Lemma addSettings_other config m k :
  k <> settingsWebTransportInitialMaxStreamsBidi -> k <> settingsWebTransportInitialMaxStreamsUni ->
  k <> settingsWebTransportInitialMaxData -> addSettings config m !! k = m !! k.
Proof.
  intros H1 H2 H3. unfold addSettings. rewrite !setIf_other by done. by rewrite !lookup_delete_ne.
Qed.

Lemma serverSettings_enabled config additional : webTransportEnabled (serverSettings config additional).
Proof.
  split_and!; [done..|]. eexists _, 1. split; [reflexivity|]. split; [|done].
  rewrite addSettings_other by done. unfold ConfigureHTTP3Server.
  rewrite lookup_insert_ne by done. apply lookup_insert_eq.
Qed.

(** Sessions made from the limits that two configurations lead to. *)
Lemma sessions_agree cA cB mA mB p : Config_wf cA -> Config_wf cB ->
  forall {B1 U1 R1 B2 U2 R2},
  agrees (@newSession B1 U1 R1 p (Config_sessionFlowControl cA (Some (advertised cB mB))))
         (@newSession B2 U2 R2 p (Config_sessionFlowControl cB (Some (advertised cA mA)))).
Proof.
  intros HA HB. intros. rewrite !sessionFlowControl_advertised by done.
  assert (forall c, Config_wf c -> Z.min (streamLimit (Config_MaxIncomingStreams c)) maxStreamsLimit =
      streamLimit (Config_MaxIncomingStreams c) /\
    Z.min (streamLimit (Config_MaxIncomingUniStreams c)) maxStreamsLimit =
      streamLimit (Config_MaxIncomingUniStreams c)) as Hmin.
  { intros c (H1 & H2 & _). rewrite !streamLimit_spec by done. unfold maxStreamsLimit.
    change (Z.shiftl 1 60) with (2 ^ 60). lia. }
  destruct (Hmin cB HB) as [E1 E2].
  repeat case_decide; try tauto; unfold agrees; simpl; by rewrite ?E1, ?E2.
Qed.

(** ** Theorem *)

(** C7: the handshake succeeds, and both ends agree. A client dials a server, each
    with any configuration and any list of protocols, over a network that loses
    nothing; the server has no other session on the connection. Then [Upgrade]
    returns a session, and [dial] returns one when the answer arrives. Both have
    the ID of the request stream, and the first protocol of the client's list that
    the server supports. The sessions agree: what either is allowed to send (streams
    of both kinds, data) is exactly what the other one enforces, and both use flow
    control or neither does. *)
Theorem handshake_agrees `{ET : !ErrorText} `{SF : !StructuredFields} `{L : !StructuredFieldsLaws SF}
    `{Q : !GoQuote} `{V : !Quicvarint} (cC cS : Config) (additional : option (gmap Z Z))
    (mine supported hdr : list gostring) (t id : Z) (conn m : nat) (mgr : manager) (connect : bool)
    (parseHost : gostring -> result error gostring) (host : gostring) (c : ClientConn) (s : Server) :
  Config_wf cC -> Config_wf cS ->
  NewClientConn true true (Some cC) mine t = Ok c -> offerHeader mine [] = Ok hdr ->
  managerOf conn s = Some m -> sv_heap s !! m = Some mgr -> hasSession mgr = false ->
  exists answer sess s' d calls,
    Upgrade cS (initCheckOrigin parseHost None) supported [] (dialedRequest host conn hdr) (SettingsReceived (clientSettings c connect)) id s =
      Some (Ok sess, answer, [ReqOK], s') /\
    dial c [] (goodNetwork (serverSettings cS additional) id answer) =
      (Some (mkResponse 200 answer), Ok d, calls) /\
    di_id d = id /\ es_id sess = id /\
    di_protocol d = default [] (head (common supported mine)) /\ es_protocol sess = di_protocol d /\
    let client := @newSession Z Z Z (di_protocol d) (di_fc d) in
    let server := @newSession Z Z Z (es_protocol sess) (es_fc sess) in
    agrees client server /\ agrees server client.
Proof.
  intros HC HS Hnew Hoffer Hm Hmgr Hno. injection Hnew as <-.
  destruct (negotiate mine supported hdr Hoffer) as (Hsel & answer & Hans & Hresp).
  exists answer. do 4 eexists. split; [|split].
  - unfold Upgrade, upgradeChecks, upgradeLocked. cbn [r_Method r_Proto r_Origin r_Host r_conn r_available dialedRequest].
    rewrite decide_False by (intros H; by apply H). simpl negb.
    cbn [clientSettings EnableDatagrams]. simpl. rewrite Hans, Hm, Hmgr. simpl.
    rewrite Hno, andb_false_r. reflexivity.
  - unfold dial, dialChecks, goodNetwork. simpl. rewrite Hoffer.
    rewrite (proj2 (checkSettings_None _) (serverSettings_enabled cS additional)).
    unfold dialRequest. simpl. rewrite Hresp. reflexivity.
  - simpl. split_and!; try done;
      rewrite serverSettings_advertised, clientSettings_fc; by apply sessions_agree.
Qed.

(** A client that wants two streams, and a server that clips its limit of
    2^61 streams. *)
Definition exampleClient : Config := mkConfig 2 0 1000.
Definition exampleServer : Config := mkConfig (2 ^ 61) (-1) 5000.

Definition serving : Server := setManager 0 newSessionManager (setConns (Some {[7%nat := 0%nat]}) newServer).

Import (hints) CommaSeparated.

Lemma handshake_agrees_witness :
  exists answer sess s' d calls,
    Upgrade (ET := noText) exampleServer (initCheckOrigin exampleParse None) [str "echo"] []
      (dialedRequest (str "example.org") 7 [str "chat,echo,"]) (SettingsReceived (clientSettings
         (mkClientConn exampleClient [str "chat"; str "echo"] (newClientSettings exampleClient) (5 * 10 ^ 9)) false))
      0 serving = Some (Ok sess, answer, [ReqOK], s') /\
    dial (ET := noText) (Q := CommaSeparated.quote) (V := Rfc9000.quicvarint)
      (mkClientConn exampleClient [str "chat"; str "echo"] (newClientSettings exampleClient) (5 * 10 ^ 9)) []
      (goodNetwork (serverSettings exampleServer None) 0 answer) = (Some (mkResponse 200 answer), Ok d, calls) /\
    di_protocol d = str "echo" /\
    agrees (@newSession Z Z Z (di_protocol d) (di_fc d)) (@newSession Z Z Z (es_protocol sess) (es_fc sess)).
Proof.
  destruct (handshake_agrees (ET := noText) (Q := CommaSeparated.quote) (V := Rfc9000.quicvarint)
    exampleClient exampleServer None [str "chat"; str "echo"] [str "echo"] [str "chat,echo,"] 0 0 7 0
    newSessionManager false exampleParse (str "example.org")
    (mkClientConn exampleClient [str "chat"; str "echo"] (newClientSettings exampleClient) (5 * 10 ^ 9)) serving)
    as (answer & sess & s' & d & calls & H1 & H2 & H3 & H4 & H5 & H6 & H7 & _).
  - unfold Config_wf, is_int64. simpl. lia.
  - unfold Config_wf, is_int64. simpl. lia.
  - reflexivity.
  - vm_compute. reflexivity.
  - reflexivity.
  - reflexivity.
  - reflexivity.
  - exists answer, sess, s', d, calls. by split_and!.
Defined.
