(* ===== verification/StreamLink.v ===== *)
(** * Stream limits between two endpoints

    The map of outgoing streams of one endpoint and the map of incoming streams
    of the other, for the same direction of streams, with the streams and the
    WT_MAX_STREAMS capsules between them. All goroutines of both maps run as in
    [OutgoingStreamsSafety] and [IncomingStreamsSafety]. The streams that were
    opened arrive in any order; the capsules arrive in the order in which they
    were queued, because they travel on the CONNECT stream. *)

From S2P Require Import Prelude Errors Quicvarint Protocol.
From S2P Require Import OutgoingStreams OutgoingStreamsSafety OutgoingStreamsGuarantees.
From S2P Require Import IncomingStreams IncomingStreamsSafety.

Section link.
Context {T1 T2 : Type}.
(** The number of streams that the accepting endpoint allows to be open. *)
Context (maxOpen : Z).

Record link := mkStreamLink {
  l_out : world T1;
  l_in : iworld T2;
  (** how many of the announced limits the opening endpoint has processed *)
  l_delivered : nat;
}.

Definition initialLimit : Z := Z.min maxOpen maxStreamsLimit.

Definition newStreamLink : link := mkStreamLink (newWorld initialLimit) (newIWorld maxOpen) 0.

(** The streams that one endpoint has opened, and those of them that have not
    arrived. *)
Definition openedIDs (k : link) : list Z := (w_opened (l_out k)).*2.
Definition inFlight (k : link) (id : Z) : Prop := id ∈ openedIDs k /\ id ∉ iw_ids (l_in k).

(** [UpdateStreamLimit] with the mutex held. *)
Definition withMap (s : outgoingStreamsMap T1) (w : world T1) : world T1 :=
  mkWorld s (w_threads w) (w_ctxErr w) (w_blocked w) (w_opened w) (w_closed w) (w_removed w) (w_ids w).

Inductive lstep (k : link) : link -> Prop :=
(** a step of the opening endpoint that is not the processing of a limit *)
| lstep_out w : step (l_out k) w -> o_maxStreams (w_s w) = o_maxStreams (w_s (l_out k)) ->
    lstep k (mkStreamLink w (l_in k) (l_delivered k))
(** a step of the accepting endpoint; a stream that arrives has been opened *)
| lstep_in w : istep (l_in k) w -> (forall id, id ∈ iw_ids w -> id ∈ iw_ids (l_in k) \/ inFlight k id) ->
    lstep k (mkStreamLink (l_out k) w (l_delivered k))
(** the next capsule arrives *)
| lstep_capsule limit e s : iw_queued (l_in k) !! l_delivered k = Some limit ->
    UpdateStreamLimit limit (w_s (l_out k)) = Some (e, s) ->
    lstep k (mkStreamLink (withMap s (l_out k)) (l_in k) (S (l_delivered k))).

Definition lreachable (k : link) : Prop := rtc lstep newStreamLink k.

(** ** What the steps of the two maps do *)

Implicit Types (s : outgoingStreamsMap T1).

(** Closing is final. *)
Definition keeps_closed s s' : Prop := forall e, o_closeErr s = Some e -> o_closeErr s' = Some e.

Lemma closed_OpenStream s o r b s' : OpenStream o s = Some (r, b, s') -> keeps_closed s s'.
Proof. unfold OpenStream. intros He e Hc. rewrite Hc in He. by simplify_eq. Qed.

Lemma closed_resume t id bl r s p s' : resume t id bl r s = Some (p, s') -> keeps_closed s s'.
Proof.
  unfold resume. destruct r as [[e|]|l|]; intros He; simplify_option_eq; try by intros ?.
  match goal with H : addStreamCtxCancel _ _ _ = _ |- _ => apply blk_register in H as [c ->] end. by intros ?.
Qed.

Lemma closed_Start s t id ctxErr p s' :
  (let '(r, s') := OpenStreamSyncStart t ctxErr s in resume t id PBlocked1 r s') = Some (p, s') -> keeps_closed s s'.
Proof.
  destruct (OpenStreamSyncStart t ctxErr s) as [r s1] eqn:E. intros He%closed_resume e Hc. apply He.
  revert E. unfold OpenStreamSyncStart. rewrite Hc. by intros [= <- <-].
Qed.

Lemma closed_critical s t id ctxErr p p' closed s' :
  critical t id ctxErr p s = Some (p', closed, s') -> keeps_closed s s'.
Proof.
  intros He. destruct p; unfold critical in He; simplify_option_eq; destruct_pairs; try by intros ?.
  - by eapply closed_resume.
  - unfold waitCtxDone, deleteChan in *. unblocked. by intros ?.
  - match goal with H : resume _ _ _ _ _ = _ |- _ => apply closed_resume in H as Hr end.
    intros e Hc. apply Hr. match goal with H : waitWoken _ _ _ = Some _ |- _ => revert H end.
    unfold waitWoken. rewrite Hc. by intros [= <- <-].
  - by eapply closed_resume.
  - match goal with H : OpenStreamSyncFinish _ ?r _ = Some _ |- _ => revert H; destruct r as [[v sid]|err] end;
      unfold OpenStreamSyncFinish; intros Hf e Hc; cbn in Hf; rewrite Hc in Hf; by simplify_eq.
Qed.

Lemma closed_step (w w' : world T1) : step w w' -> keeps_closed (w_s w) (w_s w').
Proof.
  destruct 1; cbn; try by intros ?.
  - by eapply closed_OpenStream.
  - by eapply closed_Start.
  - by eapply closed_critical.
  - intros e' Hc. match goal with H : UpdateStreamLimit _ _ = _ |- _ => unfold UpdateStreamLimit in H; rewrite Hc in H end.
    by simplify_eq.
  - intros e' Hc. match goal with H : OutgoingStreams.CloseSession _ _ = _ |- _ => unfold OutgoingStreams.CloseSession in H; rewrite Hc in H end.
    by simplify_eq.
Qed.

(** A step opens at most one stream, with a new ID. *)
Lemma opened_step (w w' : world T1) : sinv w -> step w w' ->
  w_opened w' = w_opened w \/ exists v id, w_opened w' = w_opened w ++ [(v, id)] /\ id ∉ (w_opened w).*2.
Proof.
  intros Hs. destruct 1 as [w t o r b s _ Hf _| | | | | |w t id p p' closed s Ht| | | | |]; try by left.
  - cbn. unfold newly_opened. destruct o as [[v sid]|e]; [|left; by rewrite app_nil_r].
    destruct r; [|left; by rewrite app_nil_r]. right. exists v, sid. split; [done|].
    intros ([v' sid'] & -> & Hin)%list_elem_of_fmap. apply Hf. by apply (s_opened _ Hs) in Hin as [? _].
  - cbn. destruct p' as [| | | | | | | | | |r]; try (left; by rewrite app_nil_r). unfold newly_opened.
    destruct (from_QUIC p) as [[v sid]|e] eqn:E; [|left; by rewrite app_nil_r].
    destruct r; [|left; by rewrite app_nil_r]. right. exists v, sid. split; [done|].
    destruct p as [| | | | | | | | |c o|]; simplify_eq/=.
    destruct (s_pending _ Hs _ _ _ _ Ht) as (_ & _ & Hnew).
    intros ([v' sid'] & -> & Hin)%list_elem_of_fmap. by apply (Hnew v').
Qed.

Lemma removeLocked_frame id (s s' : incomingStreamsMap T2) r : removeLocked id s = (r, s') ->
  i_closeErr s' = i_closeErr s /\ i_numStreams s' = i_numStreams s /\
  (i_maxStreams s' = i_maxStreams s \/ i_maxStreams s' <= maxStreamsLimit).
Proof.
  unfold removeLocked. destruct (_ !! id); [|intros [= <- <-]; auto].
  repeat case_decide; intros [= <- <-]; cbn; split_and!; auto. right. lia.
Qed.

Lemma acceptTry_frame (s s' : incomingStreamsMap T2) r : acceptTry s = (r, s') -> exists q, s' = set_acceptQueue q s.
Proof. unfold acceptTry. destruct (acceptQueue_next _) as [r0 q]. intros [= <- <-]. eauto. Qed.

(** A stream arrives with [id]. *)
Definition arrives (s s' : incomingStreamsMap T2) : Prop :=
  i_closeErr s = None /\ i_numStreams s < i_maxStreams s /\ i_numStreams s' = u64 (i_numStreams s + 1) \/
  (i_closeErr s <> None \/ i_maxStreams s <= i_numStreams s) /\ i_numStreams s' = i_numStreams s.

Lemma addLocked_frame id v (s s' : incomingStreamsMap T2) r : addLocked id v s = Some (r, s') ->
  i_closeErr s' = i_closeErr s /\ i_maxStreams s' = i_maxStreams s /\ arrives s s'.
Proof.
  unfold addLocked, arrives. destruct (i_closeErr s) eqn:Ec.
  { intros [= <- <-]. split_and!; [done|done|]. right. split; [by left|done]. }
  case_decide; [intros [= <- <-]; split_and!; [done|done|right; split; [by right|done]]|]. destruct (i_m s); [|done]. intros [= <- <-]. cbn. split_and!; auto.
  left. split_and!; [done|lia|done].
Qed.

Record iframe (a a' : iworld T2) : Prop := {
  if_queued : exists l, iw_queued a' = iw_queued a ++ l;
  if_closed : i_closeErr (iw_s a') = None -> i_closeErr (iw_s a) = None;
  if_max : i_maxStreams (iw_s a') = i_maxStreams (iw_s a) \/ i_maxStreams (iw_s a') <= maxStreamsLimit;
  if_ids : iw_ids a' = iw_ids a /\ i_numStreams (iw_s a') = i_numStreams (iw_s a) \/
    exists id, (id ∉ iw_ids a) /\ iw_ids a' = {[id]} ∪ iw_ids a /\ arrives (iw_s a) (iw_s a');
}.

Lemma istep_frame (a a' : iworld T2) : istep a a' -> iframe a a'.
Proof.
  destruct 1 as [a t id v r s Ht Hid He|a t v Ht|a t Ht|a t id r s Ht He|a t n Ht|a t Ht|a t r s Ht He|a t s Ht He
    |a t err Ht|a err closed s He].
  - apply addLocked_frame in He as (E1 & E2 & E3). constructor; cbn; rewrite ?E1, ?E2; auto.
    + by exists []; rewrite app_nil_r.
    + right. by exists id.
  - constructor; cbn; auto. by exists []; rewrite app_nil_r.
  - constructor; cbn; auto. by exists []; rewrite app_nil_r.
  - apply removeLocked_frame in He as (E1 & E2 & E3). constructor; cbn; rewrite ?E1, ?E2; auto.
    by exists []; rewrite app_nil_r.
  - unfold removeQueue. case_decide; constructor; cbn; eauto.
  - constructor; cbn; auto. by exists []; rewrite app_nil_r.
  - apply acceptTry_frame in He as [q ->]. constructor; cbn; auto. by exists []; rewrite app_nil_r.
  - unfold acceptReceive in He. case_match; simplify_eq. constructor; cbn; auto. by exists []; rewrite app_nil_r.
  - constructor; cbn; auto. by exists []; rewrite app_nil_r.
  - unfold CloseSession in He. destruct (i_closeErr (iw_s a)) eqn:Ec; simplify_eq; constructor; cbn; auto;
      try done; by exists []; rewrite app_nil_r.
Qed.

(** ** The invariant *)

Context (HmaxOpen : 0 <= maxOpen).

Record linv (k : link) : Prop := {
  li_out : OutgoingStreamsSafety.reachable initialLimit (l_out k);
  li_in : ireachable maxOpen (l_in k);
  li_ids id : id ∈ iw_ids (l_in k) -> id ∈ openedIDs k;
  li_nodup : NoDup (openedIDs k);
  li_num : 0 <= i_numStreams (iw_s (l_in k)) <= Z.of_nat (size (iw_ids (l_in k)));
  li_count : i_closeErr (iw_s (l_in k)) = None ->
    i_numStreams (iw_s (l_in k)) = Z.of_nat (size (iw_ids (l_in k)));
  li_max : i_maxStreams (iw_s (l_in k)) <= maxStreamsLimit;
  (** the limit of the opening endpoint is one of those announced, and the last
      one that was delivered unless the session is closed *)
  li_limit : exists j, (j <= l_delivered k)%nat /\
    (initialLimit :: iw_queued (l_in k)) !! j = Some (o_maxStreams (w_s (l_out k))) /\
    (o_closeErr (w_s (l_out k)) = None -> j = l_delivered k);
}.

Lemma initialLimit_range : 0 <= initialLimit < 2 ^ 64.
Proof. unfold initialLimit. pose proof maxStreamsLimit_val. lia. Qed.

Lemma limits_sorted k : linv k -> StronglySorted Z.lt (initialLimit :: iw_queued (l_in k)).
Proof. intros Hk. eapply chain_sorted, (l_chain _ _ (limit_inv_reachable _ _ HmaxOpen (li_in _ Hk))). Qed.

Lemma announced_le k n : linv k -> n ∈ initialLimit :: iw_queued (l_in k) -> n <= i_maxStreams (iw_s (l_in k)).
Proof.
  intros Hk Hin. pose proof (limit_inv_reachable _ _ HmaxOpen (li_in _ Hk)) as Hl.
  pose proof (chain_bounds _ _ _ (l_chain _ _ Hl)) as Hb. rewrite Forall_forall in Hb.
  pose proof (Hb n Hin). pose proof (l_queued _ _ Hl). lia.
Qed.

Lemma out_limit_le k : linv k -> o_maxStreams (w_s (l_out k)) <= i_maxStreams (iw_s (l_in k)).
Proof.
  intros Hk. destruct (li_limit _ Hk) as (j & _ & Hj & _). apply announced_le; [done|]. by eapply list_elem_of_lookup_2.
Qed.

Lemma opened_le k : linv k -> Z.of_nat (length (openedIDs k)) <= o_maxStreams (w_s (l_out k)) < 2 ^ 64.
Proof.
  intros Hk. pose proof (winv_reachable _ _ initialLimit_range (li_out _ Hk)) as [[Hnum _ _ _ _ _] _].
  unfold opened_count in Hnum. unfold openedIDs. rewrite length_fmap. lia.
Qed.

(** The accepting endpoint has room for a stream that is in flight. *)
Lemma in_flight_room k id : linv k -> inFlight k id ->
  Z.of_nat (size (iw_ids (l_in k))) + 1 <= Z.of_nat (length (openedIDs k)).
Proof.
  intros Hk [Hin Hnew].
  assert (size ({[id]} ∪ iw_ids (l_in k)) <= size (list_to_set (openedIDs k) : gset Z))%nat as Hs.
  { apply subseteq_size. intros i. rewrite elem_of_list_to_set, elem_of_union, elem_of_singleton.
    intros [->|?]; [done|]. by apply li_ids. }
  rewrite size_list_to_set in Hs by apply Hk. rewrite size_union, size_singleton in Hs by set_solver. lia.
Qed.

Lemma linv_new : linv newStreamLink.
Proof.
  constructor; cbn; try done.
  - apply rtc_refl.
  - apply rtc_refl.
  - apply NoDup_nil_2.
  - lia.
  - by exists 0%nat.
Qed.

Lemma linv_out k w : linv k -> step (l_out k) w -> o_maxStreams (w_s w) = o_maxStreams (w_s (l_out k)) ->
  linv (mkStreamLink w (l_in k) (l_delivered k)).
Proof.
  intros Hk Hs Hm. pose proof (sinv_reachable _ _ (li_out _ Hk)) as Hsinv.
  destruct Hk as [H1 H2 H3 H4 H5 H6 H7 (j & Hj & Hl & Ho)].
  pose proof (opened_step _ _ Hsinv Hs) as Hop. unfold openedIDs in *. constructor; cbn; try done.
  - eapply rtc_r; [exact H1|exact Hs].
  - intros id Hid%H3. unfold openedIDs. cbn. destruct Hop as [->|(v & i & -> & _)]; [done|]. rewrite fmap_app. set_solver.
  - unfold openedIDs. cbn. destruct Hop as [->|(v & i & -> & Hn)]; [done|]. rewrite fmap_app. apply NoDup_app.
    split_and!; [done| |apply NoDup_singleton]. intros i' Hi' ->%list_elem_of_singleton. done.
  - exists j. rewrite Hm. split_and!; [done|done|]. intros Hn. apply Ho.
    destruct (o_closeErr (w_s (l_out k))) as [e|] eqn:E; [|done]. apply (closed_step _ _ Hs) in E. congruence.
Qed.

Lemma linv_in k w : linv k -> istep (l_in k) w ->
  (forall id, id ∈ iw_ids w -> id ∈ iw_ids (l_in k) \/ inFlight k id) ->
  linv (mkStreamLink (l_out k) w (l_delivered k)).
Proof.
  intros Hk Hs Harr. destruct (istep_frame _ _ Hs) as [[l Hq] Hcl Hmax Hids].
  assert (forall id, (id ∉ iw_ids (l_in k)) -> iw_ids w = {[id]} ∪ iw_ids (l_in k) ->
    Z.of_nat (size (iw_ids w)) = Z.of_nat (size (iw_ids (l_in k))) + 1 /\
    Z.of_nat (size (iw_ids (l_in k))) + 1 < 2 ^ 64 /\
    Z.of_nat (size (iw_ids (l_in k))) + 1 <= i_maxStreams (iw_s (l_in k))) as Hnew.
  { intros id Hn E. assert (inFlight k id) as Hf by (destruct (Harr id); [rewrite E; set_solver|done|done]).
    pose proof (in_flight_room _ _ Hk Hf). pose proof (opened_le _ Hk). pose proof (out_limit_le _ Hk).
    rewrite E, size_union, size_singleton by set_solver. lia. }
  destruct Hk as [H1 H2 H3 H4 H5 H6 H7 (j & Hj & Hl & Ho)]. constructor; cbn; try done.
  - eapply rtc_r; [exact H2|exact Hs].
  - intros id [?|[? _]]%Harr; [by apply H3|done].
  - destruct Hids as [[-> ->]|(id & Hn & E & [(_ & _ & ->)|[_ ->]])]; [done| |]; destruct (Hnew id Hn E) as (-> & ? & ?).
    + rewrite u64_id; lia.
    + lia.
  - intros Hc%Hcl. specialize (H6 Hc). destruct Hids as [[-> ->]|(id & Hn & E & [(_ & _ & ->)|[Hr ->]])]; [done| |];
      destruct (Hnew id Hn E) as (-> & ? & ?).
    + rewrite u64_id; lia.
    + destruct Hr as [?|?]; [done|lia].
  - destruct Hmax; lia.
  - exists j. split_and!; [done| |done]. rewrite Hq, app_comm_cons. by apply lookup_app_l_Some.
Qed.

Lemma sorted_next (l : list Z) j a b : StronglySorted Z.lt l -> l !! j = Some a -> l !! S j = Some b -> a < b.
Proof.
  intros Hs. revert j. induction Hs as [|x l _ IH Hf]; intros [|j] Ha Hb; simplify_eq/=; [|by eapply IH].
  rewrite Forall_forall in Hf. apply Hf. by eapply list_elem_of_lookup_2.
Qed.

(** The next limit is larger than the current one. *)
Lemma next_limit k limit : linv k -> iw_queued (l_in k) !! l_delivered k = Some limit ->
  0 <= limit < 2 ^ 64 /\ (o_closeErr (w_s (l_out k)) = None -> o_maxStreams (w_s (l_out k)) < limit).
Proof.
  intros Hk Hl. pose proof (limits_sorted _ Hk) as Hsorted.
  assert (limit <= maxStreamsLimit) as Hle.
  { etrans; [|exact (li_max _ Hk)]. apply announced_le; [done|]. right. by eapply list_elem_of_lookup_2. }
  assert (initialLimit < limit) as Hlt.
  { apply StronglySorted_inv in Hsorted as [_ Hf]. rewrite Forall_forall in Hf. apply Hf. by eapply list_elem_of_lookup_2. }
  pose proof initialLimit_range. pose proof maxStreamsLimit_val. split; [lia|].
  intros Ho. destruct (li_limit _ Hk) as (j & _ & Hj & Hd). rewrite (Hd Ho) in Hj.
  by eapply (sorted_next _ _ _ _ Hsorted Hj).
Qed.

Lemma linv_capsule k limit e s : linv k -> iw_queued (l_in k) !! l_delivered k = Some limit ->
  UpdateStreamLimit limit (w_s (l_out k)) = Some (e, s) ->
  linv (mkStreamLink (withMap s (l_out k)) (l_in k) (S (l_delivered k))).
Proof.
  intros Hk Hl He. destruct (next_limit k limit Hk Hl) as [Hrange Hlt].
  assert (step (l_out k) (withMap s (l_out k))) as Hs by (by eapply (step_UpdateStreamLimit _ limit e)).
  destruct Hk as [H1 H2 H3 H4 H5 H6 H7 (j & Hj & Hc & Ho)]. constructor; cbn; try done.
  - eapply rtc_r; [exact H1|exact Hs].
  - unfold UpdateStreamLimit in He. destruct (o_closeErr (w_s (l_out k))) as [err|] eqn:Eo.
    + simplify_eq. exists j. split_and!; [lia|done|]. by rewrite Eo.
    + rewrite decide_False in He by (specialize (Hlt eq_refl); lia). simplify_option_eq. unblocked.
      exists (S (l_delivered k)). by split_and!.
Qed.

Lemma linv_reachable k : lreachable k -> linv k.
Proof.
  intros H. pose proof linv_new as Hn. revert Hn. induction H as [|k1 k2 k3 Hs _ IH]; [done|].
  intros Hk. apply IH. destruct Hs; [by apply linv_out|by apply linv_in|by eapply linv_capsule].
Qed.

(** Neither endpoint refuses what the other has sent: streams that are in flight,
    and the next limit. *)
Definition refuses_nothing (k : link) : Prop :=
  (forall id v r (s : incomingStreamsMap T2), inFlight k id -> addLocked id v (iw_s (l_in k)) = Some (r, s) ->
     forall err, r <> AddRefused err) /\
  (forall limit e s, iw_queued (l_in k) !! l_delivered k = Some limit ->
     UpdateStreamLimit limit (w_s (l_out k)) = Some (e, s) -> e = None).

Lemma linv_refuses_nothing k : linv k -> refuses_nothing k.
Proof.
  intros Hk. split.
  - intros id v r s Hf He err ->. unfold addLocked in He. destruct (i_closeErr _); [done|].
    pose proof (in_flight_room _ _ Hk Hf). pose proof (opened_le _ Hk). pose proof (out_limit_le _ Hk).
    pose proof (li_num _ Hk). rewrite decide_False in He by lia. by destruct (i_m (iw_s (l_in k))).
  - intros limit e s Hl He. destruct (next_limit k limit Hk Hl) as [_ Hlt]. unfold UpdateStreamLimit in He.
    destruct (o_closeErr _); [by simplify_eq|]. rewrite decide_False in He by (specialize (Hlt eq_refl); lia).
    by simplify_option_eq.
Qed.

(** Nothing is on its way, at either endpoint or between them. *)
Definition settled (k : link) : Prop :=
  l_delivered k = length (iw_queued (l_in k)) /\
  (forall t n, iw_threads (l_in k) !! t <> Some (IQueueMax n)) /\
  (forall id, ~ inFlight k id).

(** ** Theorems *)

(** C4: the stream limits of two endpoints fit together. Whatever the goroutines of
    both do and however streams overtake each other: the accepting endpoint never
    refuses a stream of the other, which would end the session, and the opening
    endpoint never refuses a limit. No credit is lost: when nothing is on its way
    and both sides are open, the opening endpoint may open exactly as many
    further streams as the accepting one still allows to be open, up to 2^60 in
    total; so an endpoint that has to wait does so because all of its streams are
    still in use. *)
Theorem stream_limits_safe (k : link) : lreachable k ->
  (forall id v r (s : incomingStreamsMap T2), inFlight k id -> addLocked id v (iw_s (l_in k)) = Some (r, s) -> forall err, r <> AddRefused err) /\
  (forall limit e s, iw_queued (l_in k) !! l_delivered k = Some limit ->
     UpdateStreamLimit limit (w_s (l_out k)) = Some (e, s) -> e = None) /\
  (forall m, settled k -> o_closeErr (w_s (l_out k)) = None -> i_m (iw_s (l_in k)) = Some m ->
     o_maxStreams (w_s (l_out k)) - Z.of_nat (length (w_opened (l_out k))) =
     Z.min (initialLimit - Z.of_nat (size m)) (maxStreamsLimit - Z.of_nat (length (w_opened (l_out k))))).
Proof.
  intros Hr. pose proof (linv_reachable k Hr) as Hk. apply and_assoc. split; [by apply linv_refuses_nothing|].
  intros m (Hd & Hq & Hfl) Ho Hm. pose proof (limit_inv_reachable _ _ HmaxOpen (li_in _ Hk)) as Hli.
  destruct (li_limit _ Hk) as (j & _ & Hj & Hjd). rewrite (Hjd Ho), Hd in Hj.
  assert (o_maxStreams (w_s (l_out k)) = i_maxStreams (iw_s (l_in k))) as ->.
  { pose proof (chain_last _ _ _ (l_chain _ _ Hli)) as Hlast. rewrite last_lookup in Hlast. cbn in Hlast, Hj.
    unfold initialLimit in Hj. rewrite Hj in Hlast. injection Hlast as ->.
    destruct (l_announced _ _ Hli) as [E|[t Ht]]; [done|]. by destruct (Hq _ _ Ht). }
  assert (Z.of_nat (length (w_opened (l_out k))) = i_numStreams (iw_s (l_in k))) as ->.
  { rewrite (li_count _ Hk) by (apply (l_closed _ _ Hli); eauto).
    assert (iw_ids (l_in k) = list_to_set (openedIDs k)) as ->.
    { apply set_eq. intros id. rewrite elem_of_list_to_set. split; [by apply li_ids|]. intros Hin.
      destruct (decide (id ∈ iw_ids (l_in k))); [done|]. by destruct (Hfl id). }
    rewrite size_list_to_set by apply Hk. unfold openedIDs. by rewrite length_fmap. }
  destruct (l_credit _ _ Hli m Hm) as (_ & _ & ->). rewrite (l_maxOpen _ _ Hli). unfold limitFor, initialLimit. lia.
Qed.

End link.

(** ** Example

    One stream at a time: it is opened, arrives, is removed, and the new limit
    is announced and delivered. *)

Definition exampleOut : world nat :=
  mkWorld (mkOutgoingStreamsMap None ∅ [] 1 2 false (Some {[0 := 5%nat]}) ∅ ∅ ∅) {[0%nat := PDone (Ok 5%nat)]}
    ∅ [] [(5%nat, 0)] [] ∅ {[0]}.

(** The accepting endpoint after some of these actions. *)
Definition exampleIn (l : list (iaction nat)) : iworld nat := default (newIWorld 1) (iacts (newIWorld 1) l).

Definition arrival : iaction nat := IAdd 1%nat 0 9%nat.
Definition removal : list (iaction nat) := [arrival; IRemove 2%nat 0; IDoQueueMax 2%nat].

Definition exampleLink : link := mkStreamLink exampleOut (exampleIn removal) 1.

Lemma by_action (k : link (T1 := nat) (T2 := nat)) a w' kn :
  iact (l_in k) a = Some w' -> (forall id, id ∈ iw_ids w' -> id ∈ iw_ids (l_in k) \/ inFlight k id) ->
  rtc lstep (mkStreamLink (l_out k) w' (l_delivered k)) kn -> rtc lstep k kn.
Proof. intros Ha Hid. apply rtc_l, lstep_in; [by eapply iact_sound|done]. Qed.

Lemma exampleLink_reachable : lreachable 1 exampleLink.
Proof.
  eapply rtc_l; [eapply lstep_out; [eapply (step_OpenStream _ 0%nat (Ok (5%nat, 0))); [reflexivity| |reflexivity]|reflexivity]|].
  { apply not_elem_of_empty. }
  assert (forall id : Z, id ∈ ({[0]} ∪ ∅ : gset Z) -> id = 0) as H0 by set_solver.
  eapply (by_action _ arrival (exampleIn [arrival])); [vm_compute; reflexivity| |].
  { intros id Hid. right. apply H0 in Hid as ->. split; [by left|apply not_elem_of_empty]. }
  eapply (by_action _ (IRemove 2%nat 0) (exampleIn (take 2 removal))); [vm_compute; reflexivity|by left|].
  eapply (by_action _ (IDoQueueMax 2%nat) (exampleIn removal)); [vm_compute; reflexivity|by left|].
  eapply rtc_l; [eapply (lstep_capsule _ 2 None (w_s exampleOut)); vm_compute; reflexivity|]. apply rtc_refl.
Qed.

Lemma stream_limits_safe_witness : o_maxStreams (w_s (l_out exampleLink)) - 1 = Z.min 1 (2 ^ 60 - 1).
Proof.
  assert (0 <= 1) as H1 by lia.
  refine (proj2 (proj2 (stream_limits_safe 1 H1 exampleLink exampleLink_reachable)) ∅ _ _ _).
  - split; [reflexivity|]. split.
    + intros t n Ht. assert (iw_threads (l_in exampleLink) = {[1%nat := IAppend 9%nat; 2%nat := IReturned None]}) as E
        by reflexivity.
      rewrite E in Ht. apply lookup_insert_Some in Ht as [[_ Ht]|[_ Ht]]; [done|].
      by apply lookup_singleton_Some in Ht as [_ ?].
    + intros id [Hid Hn]. apply list_elem_of_singleton in Hid as ->. apply Hn. apply (bool_decide_unpack _). vm_compute. exact I.
  - reflexivity.
  - reflexivity.
Defined.
