(* ===== verification/Connected.v ===== *)
(** * Two connected sessions

    The sessions that [dial] and [Upgrade] make ([Handshake]) start in states from
    which the two maps of each kind of streams ([StreamLink]) and the two
    controllers of data ([DataLink]) can run against each other without ever
    violating a limit, in both directions. *)

From S2P Require Import Prelude Errors Quicvarint Protocol Config FlowControl Capsule Negotiation.
From S2P Require Import DataLink SessionManager Session Server ClientConn Handshake.
From S2P Require OutgoingStreams IncomingStreams OutgoingStreamsSafety IncomingStreamsSafety StreamLink.

(** ** The links between two sessions *)

(** Nothing has happened yet. *)
Definition streamsBetween {T1 T2} (out : OutgoingStreams.outgoingStreamsMap T1)
    (inc : IncomingStreams.incomingStreamsMap T2) : StreamLink.link :=
  StreamLink.mkStreamLink (OutgoingStreamsSafety.mkWorld out ∅ ∅ [] [] [] ∅ ∅)
    (IncomingStreamsSafety.mkIWorld inc ∅ [] [] [] [] ∅ ∅ []) 0.

Definition dataBetween (o : outgoingDataFlowController) (i : incomingDataFlowController) : dataLink := mkLink o i 0 [].

(** What [s1] sends is never refused by [s2], and the limits of [s2] never by [s1]. *)
Definition compatible {B1 U1 R1 B2 U2 R2} (s1 : @Session.Session B1 U1 R1) (s2 : @Session.Session B2 U2 R2) : Prop :=
  (forall k, rtc StreamLink.lstep (streamsBetween (outgoingStreams s1) (incomingStreams s2)) k ->
     StreamLink.refuses_nothing k) /\
  (forall k, rtc StreamLink.lstep (streamsBetween (outgoingUniStreams s1) (incomingUniStreams s2)) k ->
     StreamLink.refuses_nothing k) /\
  match outgoingDataFC s1, incomingDataFC s2 with
  | Some o, Some i => forall k, rtc link_step (dataBetween o i) k -> accepts k
  | None, None => True
  | _, _ => False
  end.

(** ** Lemmas *)

Lemma streams_compatible {T1 T2} limit k : 0 <= limit <= maxStreamsLimit ->
  rtc StreamLink.lstep (streamsBetween (T1 := T1) (T2 := T2) (OutgoingStreams.newOutgoingStreamsMap limit)
    (IncomingStreams.newIncomingStreamsMap limit)) k -> StreamLink.refuses_nothing k.
Proof.
  intros Hl Hk. assert (0 <= limit) as H0 by lia.
  apply (StreamLink.linv_refuses_nothing limit H0), (StreamLink.linv_reachable limit H0).
  unfold StreamLink.lreachable, StreamLink.newStreamLink, StreamLink.initialLimit. by rewrite Z.min_l by lia.
Qed.

Lemma data_compatible m k : 0 <= m < 2 ^ 63 ->
  rtc link_step (dataBetween (newOutgoingDataFlowController m) (newIncomingDataFlowController 0 m)) k -> accepts k.
Proof. intros Hm Hk. eapply link_inv_accepts, link_inv_reachable; [exact Hm|exact Hk]. Qed.

Lemma streamLimit_range l : is_int64 l -> 0 <= streamLimit l <= maxStreamsLimit.
Proof. intros H. rewrite streamLimit_spec, IncomingStreams.maxStreamsLimit_val by done. lia. Qed.

Lemma dataLimit_range l : 0 <= dataLimit l < 2 ^ 63.
Proof. rewrite dataLimit_spec. unfold Max. lia. Qed.

(** The sessions that two configurations lead to. *)
Lemma configured_compatible cA cB mA mB pA pB : Config_wf cA -> Config_wf cB ->
  forall {B1 U1 R1 B2 U2 R2},
  compatible (@newSession B1 U1 R1 pA (Config_sessionFlowControl cA (Some (advertised cB mB))))
             (@newSession B2 U2 R2 pB (Config_sessionFlowControl cB (Some (advertised cA mA)))).
Proof.
  intros HA HB. intros. rewrite !sessionFlowControl_advertised by done. pose proof HB as (H1 & H2 & H3).
  assert (0 <= maxStreamsLimit <= maxStreamsLimit) as Hmax by (rewrite IncomingStreams.maxStreamsLimit_val; lia).
  pose proof (streamLimit_range _ H1). pose proof (streamLimit_range _ H2). pose proof (dataLimit_range (Config_MaxIncomingData cB)).
  repeat case_decide; try tauto; unfold compatible; simpl; split_and!; try done; intros k;
    first [by apply streams_compatible|by apply data_compatible].
Qed.

(** The limits of the sessions of [dial] and [Upgrade]. *)
Lemma dial_limits `{ET : !ErrorText} `{SF : !StructuredFields} `{Q : !GoQuote} `{V : !Quicvarint} c header e rsp d calls :
  dial c header e = (rsp, Ok d, calls) -> di_fc d = Config_sessionFlowControl (cc_config c) (Some (de_settings e)).
Proof. unfold dial, dialRequest. intros Hd. repeat case_match; simplify_eq/=; done. Qed.

Lemma Upgrade_limits `{ET : !ErrorText} `{SF : !StructuredFields} config check supported header r settings id s sess answer calls s' :
  Upgrade config check supported header r (SettingsReceived settings) id s = Some (Ok sess, answer, calls, s') ->
  es_fc sess = Config_sessionFlowControl config (Some settings).
Proof.
  unfold Upgrade. destruct (upgradeChecks _ _ _ _ _) as [[[[conn protocol] hdr] st]|err] eqn:E; [|by intros ?].
  assert (st = settings) as ->.
  { unfold upgradeChecks in E. repeat case_match; simplify_eq; done. }
  unfold upgradeLocked. intros Hu. destruct (managerOf conn s) as [m|]; [|by simplify_eq/=].
  destruct (sv_heap s !! m) as [mgr|]; [|done]. simpl in Hu. case_match; by simplify_eq/=.
Qed.

(** ** Theorem *)

(** C8: a session that has been established works. A client dials a server, each with
    any configuration; the network, the requests and the headers are arbitrary,
    but each side has got the settings that the other one sends. If both end up
    with a session, then these sessions are compatible in both directions. However
    the goroutines of both sides, the streams and the capsules interleave: no
    stream exceeds the limit that its receiver enforces, neither do data, and no
    WT_MAX_STREAMS or WT_MAX_DATA capsule is refused; each of these would end the
    session with a flow control error. *)
Theorem established_sessions_compatible `{ET : !ErrorText} `{SF : !StructuredFields} `{Q : !GoQuote} `{V : !Quicvarint}
    (cC cS : Config) (additional : option (gmap Z Z)) (mine supported hdrC hdrS answer : list gostring) (t id : Z)
    (connect : bool) (check : request -> bool) (req : request) (s s' : Server) (c : ClientConn) (env : dialEnv)
    (rsp : option response) (d : dialed) (sess : established) callsC callsS :
  Config_wf cC -> Config_wf cS -> NewClientConn true true (Some cC) mine t = Ok c ->
  de_settings env = serverSettings cS additional ->
  dial c hdrC env = (rsp, Ok d, callsC) ->
  Upgrade cS check supported hdrS req (SettingsReceived (clientSettings c connect)) id s = Some (Ok sess, answer, callsS, s') ->
  let client := @newSession Z Z Z (di_protocol d) (di_fc d) in
  let server := @newSession Z Z Z (es_protocol sess) (es_fc sess) in
  compatible client server /\ compatible server client.
Proof.
  intros HC HS Hnew Henv Hd%dial_limits Hu%Upgrade_limits. injection Hnew as <-. simpl in Hd.
  rewrite Hd, Hu, Henv, serverSettings_advertised, clientSettings_fc. split; by apply configured_compatible.
Qed.

(** ** Example *)

Import (hints) CommaSeparated.

Definition exampleClientConn : ClientConn :=
  mkClientConn exampleClient [str "chat"; str "echo"] (newClientSettings exampleClient) (5 * 10 ^ 9).

Lemma established_sessions_compatible_witness :
  exists d sess, Enabled (di_fc d) = true /\ MaxOutgoingStreams (di_fc d) = 2 ^ 60 /\
    compatible (@newSession Z Z Z (di_protocol d) (di_fc d)) (@newSession Z Z Z (es_protocol sess) (es_fc sess)) /\
    compatible (@newSession Z Z Z (es_protocol sess) (es_fc sess)) (@newSession Z Z Z (di_protocol d) (di_fc d)).
Proof.
  set (env := goodNetwork (serverSettings exampleServer None) 0 [str "echo,"]).
  destruct (dial (ET := noText) (Q := CommaSeparated.quote) (V := Rfc9000.quicvarint) exampleClientConn [] env)
    as [[rsp [d|e]] callsC] eqn:Ed; [|by vm_compute in Ed].
  destruct (Upgrade (ET := noText) exampleServer (initCheckOrigin exampleParse None) [str "echo"] []
    (dialedRequest (str "example.org") 7 [str "chat,echo,"]) (SettingsReceived (clientSettings exampleClientConn false))
    0 serving) as [[[[[sess|e] answer] callsS] s']|] eqn:Eu; [|by vm_compute in Eu..].
  exists d, sess. split; [|split].
  - vm_compute in Ed. injection Ed as <- <- <-. reflexivity.
  - vm_compute in Ed. injection Ed as <- <- <-. reflexivity.
  - eapply (established_sessions_compatible (ET := noText) (Q := CommaSeparated.quote) (V := Rfc9000.quicvarint)
      exampleClient exampleServer None [str "chat"; str "echo"]) with (t := 0); [..|exact Ed|exact Eu].
    + unfold Config_wf, is_int64. simpl. lia.
    + unfold Config_wf, is_int64. simpl. lia.
    + reflexivity.
    + reflexivity.
Defined.
