(* ===== verification/SessionLink.v ===== *)
(** * The end of a session at both endpoints

    The goroutines of one endpoint, which write capsules to the CONNECT stream
    ([SessionLoops]), and the loop of the other, which reads them ([Session]).
    Between them are the bytes of the capsules that were written completely. *)

From S2P Require Import Prelude Errors Quicvarint Protocol Config FlowControl Capsule OutgoingStreams Session.
From S2P Require SessionLoops.

Import SessionLoops (world, w_x, x_closeErr, x_enqueued, x_trace, event, EvCapsule, EvPartial, EvCloseCapsule, EvCall).

(** ** What is on the wire *)

Definition eventItem (e : event) : option item :=
  match e with
  | EvCapsule c => Some (Known c)
  | EvCloseCapsule code msg => Some (Known (closeSessionCapsule code msg))
  | EvPartial _ | EvCall _ => None
  end.

(** The bytes of an endpoint that no [Write] left incomplete. *)
Definition wireBytes `{!Quicvarint} (w : world) : gostring := foldl item_Append [] (omap eventItem (x_trace (w_x w))).

(** A capsule that is queued: one of those for limits and blocking. *)
Definition queueable (c : capsule) : Prop := capsule_wf c /\ is_close c = false.

(** ** Lemmas *)

Lemma sorted_sublist (l1 l2 : list Z) : l1 `sublist_of` l2 -> StronglySorted Z.lt l2 -> StronglySorted Z.lt l1.
Proof.
  induction 1 as [|x l1 l2 Hsub IH|x l1 l2 Hsub IH]; intros Hs; [done| |].
  - apply StronglySorted_inv in Hs as [Hs Hf]. constructor; [by apply IH|].
    rewrite Forall_forall in *. intros y Hy. apply Hf. eapply elem_of_submseteq; [exact Hy|by apply sublist_submseteq].
  - apply StronglySorted_inv in Hs as [Hs _]. by apply IH.
Qed.

Lemma sublist_omap_mono {A B} (f : A -> option B) l1 l2 : l1 `sublist_of` l2 -> omap f l1 `sublist_of` omap f l2.
Proof.
  induction 1 as [|x l1 l2 _ IH|x l1 l2 _ IH]; simpl; [done| |]; destruct (f x); auto using sublist_skip, sublist_cons.
Qed.

Section link.
Context `{ET : !ErrorText} {B U R : Type}.
Implicit Types s : Session B U R.

(** The limits increase for each kind, beginning with those in force: what the
    maps and the flow controllers of an endpoint announce. *)
Definition increasing (l : list capsule) s : Prop :=
  StronglySorted Z.lt (o_maxStreams (outgoingStreams s) :: bidiLimits l) /\
  StronglySorted Z.lt (o_maxStreams (outgoingUniStreams s) :: uniLimits l) /\
  StronglySorted Z.lt (dataLimitOf s :: dataLimits l).

Lemma increasing_sublist l1 l2 s : l1 `sublist_of` l2 -> increasing l2 s -> increasing l1 s.
Proof.
  intros Hsub (H1 & H2 & H3).
  split_and!; (eapply sorted_sublist; [apply sublist_skip, sublist_omap_mono, Hsub|done]).
Qed.

Lemma applyCapsules_app l1 l2 s s1 : applyCapsules l1 s = Some (None, s1) ->
  applyCapsules (l1 ++ l2) s = applyCapsules l2 s1.
Proof.
  revert s. induction l1 as [|c l1 IH]; simpl; intros s He; [by simplify_eq|].
  destruct (handleCapsule c s) as [[[err|] s2]|]; simpl in *; [done| |done]. by apply IH.
Qed.

(** A limit behind accepted ones is not too small. *)
Lemma chain_next a l1 z v l2 : chain a l1 z -> StronglySorted Z.lt (a :: l1 ++ v :: l2) -> z < v.
Proof.
  revert a. induction l1 as [|x l1 IH]; simpl; intros a Hc Hs; apply StronglySorted_inv in Hs as [Hs Hf].
  - subst. by apply Forall_inv in Hf.
  - destruct Hc as [_ Hc]. by eapply IH.
Qed.

Lemma applyCapsules_accepts l s : flow_controlled s -> Forall queueable l -> increasing l s ->
  exists s', applyCapsules l s = Some (None, s') /\ raised l s s'.
Proof.
  intros Hs Hq (Hb & Hu & Hd). destruct (applyCapsules_spec l s Hs) as (l1 & l2 & s1 & r & s' & E & El & Hr & H).
  { eapply Forall_impl; [exact Hq|]. by intros c [? _]. }
  subst l. destruct l2 as [|c l2]; [destruct H as [-> ->]; rewrite app_nil_r in *; by exists s1|exfalso].
  destruct H as (err & _ & Hrej). apply Forall_app in Hq as [_ Hq]. apply Forall_inv in Hq as [_ Hnc].
  destruct Hr as (_ & Cb & Cu & Cd). unfold bidiLimits, uniLimits, dataLimits in *. rewrite !omap_app in *.
  destruct c; try done; destruct Hrej as [Hle _].
  - pose proof (chain_next _ _ _ _ _ Cd Hd). lia.
  - pose proof (chain_next _ _ _ _ _ Cb Hb). lia.
  - pose proof (chain_next _ _ _ _ _ Cu Hu). lia.
Qed.

(** What the other endpoint makes of capsules and, perhaps, a close capsule. *)
Lemma read_wire `{!Quicvarint} `{!QuicvarintLaws _} `{!GoRuntime} {P} `{!CapsuleParser P} `{!CapsuleParserLaws _ _}
    (cs : list capsule) (close : option (Z * gostring)) (p : P) (n fuel : nat) s :
  flow_controlled s -> Forall queueable cs -> increasing cs s ->
  (forall code msg, close = Some (code, msg) -> 0 <= code < 2 ^ 32) ->
  payload p = [] ->
  rest p = foldl item_Append []
    ((Known <$> cs) ++ option_list ((fun cm : Z * gostring => Known (closeSessionCapsule cm.1 cm.2)) <$> close)) ->
  (length cs + 1 < n)%nat -> (length cs + 1 < fuel)%nat ->
  exists err s', readFromConnectStream n fuel p s = Some (err, s') /\ raised cs s s' /\
    match close with
    | Some (code, msg) => err = ErrSession (mkSessionError true code (sentMessage msg))
    | None => exists text, err = ErrHTTP3 http3.ErrCodeDatagramError text
    end.
Proof.
  intros Hs Hq Hi Hcode Hp Hr Hn Hf. destruct (applyCapsules_accepts cs s Hs Hq Hi) as (s' & Ea & Hraise).
  set (items := (Known <$> cs) ++ _) in Hr.
  assert (Forall item_wf items) as Hwf.
  { apply Forall_app. split; [rewrite Forall_fmap; eapply Forall_impl; [exact Hq|]; by intros c [? _]|].
    destruct close as [[code msg]|]; simpl; constructor; [|constructor]. by eapply Hcode. }
  assert (length items <= length cs + 1)%nat as Hlen.
  { unfold items. rewrite length_app, length_fmap. destruct close; simpl; lia. }
  assert (sent <$> knowns items = cs ++
    option_list ((fun cm : Z * gostring => closeSessionCapsule cm.1 (sentMessage cm.2)) <$> close)) as Hk.
  { unfold items, knowns. rewrite omap_app, fmap_app. f_equal; [|by destruct close as [[]|]].
    clear - Hq. induction Hq as [|c cs [_ Hc] _ IH]; [done|]. simpl. f_equal; [by destruct c|done]. }
  rewrite items_Append, app_nil_l in Hr by done.
  pose proof (read_loop n fuel p items s Hwf Hp Hr ltac:(lia) ltac:(lia)) as Hread.
  rewrite Hk, (applyCapsules_app _ _ _ _ Ea) in Hread.
  destruct close as [[code msg]|]; simpl in Hread; destruct Hread as (err & -> & Herr); exists err, s'; by split_and!.
Qed.

(** What has been written completely, in the trace of the other endpoint. *)
Lemma wire_items (w : world) cs close :
  SessionLoops.data (w_x w) = (EvCapsule <$> cs) ++ option_list ((fun cm : Z * gostring => EvCloseCapsule cm.1 cm.2) <$> close) ->
  omap eventItem (x_trace (w_x w)) =
  (Known <$> cs) ++ option_list ((fun cm : Z * gostring => Known (closeSessionCapsule cm.1 cm.2)) <$> close).
Proof.
  intros Hd. assert (forall l : list event, omap eventItem l = omap eventItem (filter (fun e => SessionLoops.is_data e) l)) as Hf.
  { intros l. induction l as [|e l IH]; [done|]. destruct e; simpl; by first [exact IH|f_equal]. }
  rewrite Hf. unfold SessionLoops.data in Hd. rewrite Hd, omap_app. f_equal.
  - clear. induction cs; simpl; f_equal; done.
  - by destruct close as [[]|].
Qed.

End link.

(** ** Theorems *)

(** C10: both ends of a session see the same end. One endpoint runs all of its
    goroutines in any interleaving; the other one reads what the first has
    written completely. Provided that the limits that the first one queued
    increase, as its maps and flow controllers make them do, the second one
    accepts every capsule, in order, and its limits become the last ones that
    were written. If the first one has written WT_CLOSE_SESSION, because its
    application called [CloseWithError], then the second one is closed with a
    remote [SessionError] of the same code and of the message cut to 1024 bytes,
    while the error of the first one is the local [SessionError] with that code
    and the whole message. Otherwise the reading ends with an error of the
    stream. *)
Theorem session_end_agrees `{ET : !ErrorText} {B U R} `{!Quicvarint} `{!QuicvarintLaws _} `{!GoRuntime}
    {P} `{!CapsuleParser P} `{!CapsuleParserLaws _ _}
    (w : world) (p : P) (n fuel : nat) (s : Session B U R) :
  SessionLoops.reachable w -> (forall c, EvPartial c ∉ x_trace (w_x w)) ->
  Forall queueable (x_enqueued (w_x w)) -> increasing (x_enqueued (w_x w)) s -> flow_controlled s ->
  (forall code msg, x_closeErr (w_x w) = Some (ErrSession (mkSessionError false code msg)) -> 0 <= code < 2 ^ 32) ->
  payload p = [] -> rest p = wireBytes w ->
  (length (x_enqueued (w_x w)) + 1 < n)%nat -> (length (x_enqueued (w_x w)) + 1 < fuel)%nat ->
  exists cs close err s',
    SessionLoops.data (w_x w) = (EvCapsule <$> cs) ++ option_list ((fun cm : Z * gostring => EvCloseCapsule cm.1 cm.2) <$> close) /\
    cs `sublist_of` x_enqueued (w_x w) /\
    readFromConnectStream n fuel p s = Some (err, s') /\ raised cs s s' /\
    match close with
    | Some (code, msg) =>
        x_closeErr (w_x w) = Some (ErrSession (mkSessionError false code msg)) /\
        err = ErrSession (mkSessionError true code (sentMessage msg))
    | None => exists text, err = ErrHTTP3 http3.ErrCodeDatagramError text
    end.
Proof.
  intros Hw Hpart Hq Hi Hs Hcode Hp Hr Hn Hf.
  destruct (SessionLoops.wire_reachable w Hw) as (cs & tl & rst & [Hd He Hsub _ _]).
  assert (exists close, tl = option_list ((fun cm : Z * gostring => EvCloseCapsule cm.1 cm.2) <$> close) /\
    cs `sublist_of` x_enqueued (w_x w) /\
    forall code msg, close = Some (code, msg) -> x_closeErr (w_x w) = Some (ErrSession (mkSessionError false code msg)))
    as (close & -> & Hcs & Hclose).
  { destruct He as [|c _|code msg _ Herr].
    - exists None. split_and!; [done| |done]. etrans; [|exact Hsub]. by apply sublist_inserts_r.
    - destruct (Hpart c). assert (EvPartial c ∈ SessionLoops.data (w_x w)) as Hin by (rewrite Hd; set_solver).
      unfold SessionLoops.data in Hin. by apply list_elem_of_filter in Hin as [_ ?].
    - exists (Some (code, msg)). rewrite app_nil_r in Hsub. split_and!; [done|done|]. by intros ? ? [= <- <-]. }
  assert (length cs <= length (x_enqueued (w_x w)))%nat as Hlen by (by apply sublist_length).
  destruct (read_wire cs close p n fuel s Hs) as (err & s' & Hread & Hraise & Hend);
    [|by eapply increasing_sublist| |done| |lia|lia|].
  - rewrite Forall_forall in *. intros c Hc. apply Hq. eapply elem_of_submseteq; [exact Hc|by apply sublist_submseteq].
  - intros code msg E. by apply (Hcode code msg), Hclose.
  - rewrite Hr. unfold wireBytes. by rewrite (wire_items w cs close).
  - exists cs, close, err, s'. split_and!; try done. destruct close as [[code msg]|]; [|done]. split; [by apply Hclose|done].
Qed.

(** ** Example *)

Import (hints) Rfc9000.
Import (hints) SliceParser.

(** The endpoint that reads may send 5 bytes at first. *)
Definition examplePeer : Session Z Z Z := newSession (str "proto") (mkSessionFlowControl true 2 2 2 2 1000 5).

(** Limits of 10 and 20 bytes are announced, and then the session is closed. *)
Definition exampleWriting : option world :=
  SessionLoops.performs (SessionLoops.exampleRun ++ repeat (SessionLoops.AWriter false SessionLoops.WroteAll) 4).

Lemma session_end_agrees_witness :
  match exampleWriting with
  | Some w =>
      exists err s', readFromConnectStream (ET := exampleText) 4 4 ([] : gostring, wireBytes w) examplePeer = Some (err, s') /\
        raised [maxDataCapsule 10; maxDataCapsule 20] examplePeer s' /\
        err = ErrSession (mkSessionError true 7 (str "bye"))
  | None => False
  end.
Proof.
  destruct exampleWriting as [w|] eqn:E; [|by vm_compute in E].
  destruct (session_end_agrees (ET := exampleText) w ([] : gostring, wireBytes w) 4 4 examplePeer)
    as (cs & close & err & s' & Hd & _ & Hread & Hr & Hend).
  { exact (SessionLoops.performs_reachable _ _ E). }
  all: try (vm_compute in E; injection E as <-).
  - intros c. vm_compute. intros Hc.
    apply (proj1 (Forall_forall (fun e => e <> EvPartial c) _)) with (x := EvPartial c) in Hc; [done|by repeat constructor].
  - repeat constructor; vm_compute; done.
  - split_and!; repeat constructor; vm_compute; reflexivity.
  - repeat split. by eexists.
  - intros code msg Hc. by injection Hc as <- <-.
  - reflexivity.
  - reflexivity.
  - vm_compute. lia.
  - vm_compute. lia.
  - exists err, s'. split; [exact Hread|].
    destruct cs as [|c1 [|c2 [|c3 cs]]]; destruct close as [[code msg]|]; try discriminate Hd.
    injection Hd as <- <- <- <-. split; [exact Hr|]. destruct Hend as [_ ->]. reflexivity.
Defined.
