(* ===== verification/Delivery.v ===== *)
(** * A stream from one session to the other

    The way of a stream through both endpoints: [OpenStream] and the first
    [Write] in [SessionStreams] and [SendStream], the dispatch in [Protocol],
    the session manager in [SessionManager], and [addIncomingStream] of the
    session at the other end. QUIC delivers the bytes of the stream in order. *)

From S2P Require Import Prelude Errors Quicvarint Protocol Config FlowControl Capsule.
From S2P Require Import SendStream ReceiveStream Stream Session SessionStreams.
From S2P Require SessionManager OutgoingStreams IncomingStreams.

Abbreviation manager := (@SessionManager.sessionManager Z Z nat).

(** ** Lemmas *)

(** A stream header is not empty, and short. *)
Lemma header_length `{QL : QuicvarintLaws} d sid : 0 <= sid <= Max ->
  (2 <= length (newOutgoingStreamHeader (headerType d) sid) <= 16)%nat.
Proof.
  intros Hsid. pose proof (headerType_range d) as Hd. rewrite newOutgoingStreamHeader_app, length_app by done.
  pose proof (Append_length _ Hd). pose proof (Append_length _ Hsid).
  pose proof (Len_range _ Hd). pose proof (Len_range _ Hsid). lia.
Qed.

(** The manager gives a stream to an established session at once, and to a
    session that is established later. *)
Lemma manager_established (mgr : manager) (id sid len : Z) entry sess :
  SessionManager.sessions mgr !! sid = Some entry -> SessionManager.Session entry = Some sess ->
  exists mgr', SessionManager.AddStream id sid len mgr = Some ([SessionManager.MAddIncoming sess id len], mgr').
Proof.
  intros E Es. unfold SessionManager.AddStream, SessionManager.lookupEntry. rewrite E, Es. eauto.
Qed.

Lemma manager_reordered (mgr : manager) (id sid len : Z) sess :
  SessionManager.sessions mgr !! sid = None -> sid ∉ SessionManager.recentlyClosedSessions mgr ->
  exists mgr', SessionManager.AddStream id sid len mgr = Some ([SessionManager.MTimerStart sid], mgr') /\
    (SessionManager.AddSession sid sess mgr').1 =
      [SessionManager.MAddIncoming sess id len; SessionManager.MTimerStop sid; SessionManager.MWatch sess sid].
Proof.
  intros E Hr. unfold SessionManager.AddStream, SessionManager.lookupEntry. rewrite E, decide_False by done.
  simpl. eexists. split; [reflexivity|]. unfold SessionManager.AddSession. simpl.
  by rewrite lookup_insert_eq.
Qed.

(** ** Theorem *)

(** C38: a stream that one endpoint opens arrives at the other end of its session.
    After [OpenStream] the first [Write] sends a header. Whichever endpoint reads
    it, hands the stream to the session manager with the ID of the session and the
    exact length of the header, and leaves what follows to be read. The manager
    passes both on, at once when the session is established, and otherwise as soon
    as it is. A session that is open and has not used up its limit then queues the
    stream for [AcceptStream], and counts the header, and only the header, as
    already read: the payload alone counts for flow control. *)
Theorem opened_stream_arrives `{ET : !ErrorText} `{V : !Quicvarint} `{L : !QuicvarintLaws V}
    (sid id : Z) (w w' : world) (e : endpoint) {S} (rb : byteReader S) (s s' : S) :
  0 <= sid <= Max -> sid mod 4 = 0 -> OpenStream sid (Ok id) w = Returns (Ok id, w') ->
  exists en, w_bidi w' !! id = Some en /\
    let hdr := streamHdr (sendStr (en_str en)) in
    let len := Z.of_nat (length hdr) in
    (maybeSendStreamHeader (length hdr, None) (sendStr (en_str en))).1 = (None, [EWrite hdr; ESetReliableBoundary]) /\
    (yields rb s hdr s' -> dispatchStream e Bidi rb s = (ToSession sid len, s')) /\
    (forall (mgr : manager) entry sess,
       SessionManager.sessions mgr !! sid = Some entry -> SessionManager.Session entry = Some sess ->
       exists mgr', SessionManager.AddStream id sid len mgr =
         Some ([SessionManager.MAddIncoming sess id len], mgr')) /\
    (forall (mgr : manager) sess,
       SessionManager.sessions mgr !! sid = None -> sid ∉ SessionManager.recentlyClosedSessions mgr ->
       exists mgr', SessionManager.AddStream id sid len mgr = Some ([SessionManager.MTimerStart sid], mgr') /\
         (SessionManager.AddSession sid sess mgr').1 =
           [SessionManager.MAddIncoming sess id len; SessionManager.MTimerStop sid; SessionManager.MWatch sess sid]) /\
    (forall peer peer' calls, let m := incomingStreams (w_s peer) in
       IncomingStreams.i_closeErr m = None ->
       IncomingStreams.i_numStreams m < IncomingStreams.i_maxStreams m ->
       addIncomingStream id len peer = Some (calls, peer') ->
       calls = [] /\
       IncomingStreams.aq_queue (IncomingStreams.i_acceptQueue (incomingStreams (w_s peer'))) =
         IncomingStreams.aq_queue (IncomingStreams.i_acceptQueue m) ++ [id] /\
       exists en', w_bidi peer' !! id = Some en' /\ bytesRead (recvStr (en_str en')) = len).
Proof.
  intros Hsid Hmod Ho. unfold OpenStream in Ho.
  destruct (Session.OpenStream _ _) as [[r ses]| |]; [|done..]. cbn [mbind outcome_bind] in Ho.
  injection Ho as -> <-. eexists. split; [apply lookup_insert_eq|]. cbn [en_str outgoingStream newStream sendStr
    newSendStream streamHdr].
  pose proof (header_length Bidi sid Hsid) as Hlen. cbn [headerType] in Hlen. split_and!.
  - unfold maybeSendStreamHeader. simpl streamHdr. rewrite decide_False; [by rewrite firstn_all|].
    intros E. rewrite E in Hlen. simpl in Hlen. lia.
  - by apply (header_dispatched e Bidi).
  - intros. by eapply manager_established.
  - intros. by apply manager_reordered.
  - intros peer peer' calls. cbv zeta. intros Hopen Hroom. unfold addIncomingStream.
    destruct (IncomingStreams.AddStream _ _ _) as [[[err closed] m']|] eqn:E; [|done].
    apply AddStream_map in E. rewrite Hopen, decide_False in E by lia.
    destruct E as (-> & -> & Hadd & _ & Hq). intros [= <- <-]. split_and!; [done| |].
    + simpl. by rewrite Hq.
    + eexists. split; [apply lookup_insert_eq|]. simpl. apply i64_id. lia.
Qed.

Import (hints) Rfc9000.

(** The client opens stream 4 of session 0; its first bytes are 0x40 0x41 0x00. *)
Lemma opened_stream_arrives_witness :
  dispatchStream Server Bidi bytesReader ([x40; x41; x00] ++ str "hello") = (ToSession 0 3, str "hello").
Proof.
  destruct (opened_stream_arrives (ET := exampleText) 0 4 (start [] exampleStreamFC) _ Server bytesReader
    ([x40; x41; x00] ++ str "hello") (str "hello") ltac:(unfold Max; lia) eq_refl eq_refl)
    as (en & He & _ & Hd & _).
  vm_compute in He. injection He as <-. apply Hd. apply yields_bytes.
Defined.
