(* ===== verification/Interop.v ===== *)
(** * The interoperability endpoints ([interop])

    A client and a server that transfer files over a session: requests ["GET "]
    and a name, pushes ["PUSH "], a name, a line break and the content. What a
    goroutine reads from its stream is the whole content; the calls on streams and
    on the file system are outputs, their results arguments. Logging is left out. *)

From S2P Require Import Prelude Errors Utf8 GoStrings.

Definition getPrefix : gostring := str "GET ".
Definition pushPrefix : gostring := str "PUSH ".
Definition newline : byte := x0a.

(** Calls on a stream, and on the file system. *)
Inductive streamCall : Type :=
| SCancelRead (code : Z)
| SWrite (data : gostring)
| SClose.

Inductive fileCall : Type :=
| MkdirAll (path : gostring)
| WriteFile (path data : gostring).

Section interop.
Context `{ET : !ErrorText}.

(** [os.ReadFile] *)
Context (ReadFile : gostring -> result error gostring).

(** ** Requests and files *)

Definition parseRequest (data : gostring) : result error gostring :=
  if negb (HasPrefix data getPrefix) then Err (ErrNew (str "unexpected data, missing GET prefix"))
  else
    let filename := TrimSpace (TrimPrefix data getPrefix) in
    if decide (filename = []) then Err (ErrNew (str "missing filename in GET")) else Ok filename.

(** [strings.TrimPrefix(path, "/")], and the file under [/www]. *)
Definition readFile (path : gostring) : result error gostring :=
  let path := Join [str "/www"; TrimPrefix path [slash]] in
  match ReadFile path with
  | Err err => Err (ErrNew (str "failed to read file for " ++ path ++ str ": " ++ Error err))
  | Ok data => Ok data
  end.

(** [mkdir] and [write] are the results of [MkdirAll] and [WriteFile]. *)
Definition saveFile (mkdir write : option error) (name data : gostring) : list fileCall * option error :=
  let full := Join [str "/downloads"; name] in
  match mkdir with
  | Some err => ([MkdirAll (Dir full)], Some err)
  | None => ([MkdirAll (Dir full); WriteFile full data], write)
  end.

Definition requestFile (write : option error) (filename : gostring) : list streamCall * option error :=
  ([SWrite (getPrefix ++ filename); SClose], write).

Definition sendFile (write : option error) (filename : gostring) : list streamCall * option error :=
  match readFile filename with
  | Err err => ([], Some (ErrNew (str "failed to read file for " ++ filename ++ str ": " ++ Error err)))
  | Ok payload => ([SWrite payload], write)
  end.

Definition pushHeader (filename : gostring) : gostring := pushPrefix ++ Base filename ++ [newline].

(** The results of the two calls of [Write]. *)
Definition pushFile (write1 write2 : option error) (filename : gostring) : list streamCall * option error :=
  match readFile filename with
  | Err err => ([], Some (ErrNew (str "failed to read file for " ++ filename ++ str ": " ++ Error err)))
  | Ok payload =>
      match write1 with
      | Some err => ([SWrite (pushHeader filename)], Some err)
      | None => ([SWrite (pushHeader filename); SWrite payload], write2)
      end
  end.

(** What [storePush] and [storePushFromDatagram] do with a push; [what] is the
    data and [where_] the push in the error texts. *)
Definition storePushData (what where_ : gostring) (mkdir write : option error) (data endpoint : gostring)
  : list fileCall * option error :=
  if negb (HasPrefix data pushPrefix) then
    ([], Some (ErrNew (str "unexpected " ++ what ++ str ", missing PUSH prefix")))
  else
    let rest := TrimPrefix data pushPrefix in
    let '(name, payload, ok) := Cut rest newline in
    if negb ok then ([], Some (ErrNew (str "missing newline in " ++ where_)))
    else if decide (name = []) then ([], Some (ErrNew (str "missing filename in " ++ where_)))
    else
      let filename := TrimSpace name in
      let rel := Join [endpoint; Base filename] in
      saveFile mkdir write rel payload.

Definition storePushFromDatagram (mkdir write : option error) (data endpoint : gostring)
  : list fileCall * option error :=
  storePushData (str "datagram") (str "PUSH datagram") mkdir write data endpoint.

Definition storePush (mkdir write : option error) (data : result error gostring) (endpoint : gostring)
  : list fileCall * option error :=
  match data with
  | Err err => ([], Some err)
  | Ok data => storePushData (str "data") (str "PUSH") mkdir write data endpoint
  end.

(** ** The sending side: [runTransfer] *)

(** The goroutine of a bidirectional stream, given what [ReadAll] returns. *)
Definition serveBidi (endpoint : gostring) (data : result error gostring) (write : option error) : list streamCall :=
  match data with
  | Err _ => [SCancelRead 1234]
  | Ok data =>
      match parseRequest data with
      | Err _ => [SCancelRead 1234]
      | Ok filename => (sendFile write (Join [endpoint; filename])).1 ++ [SClose]
      end
  end.

(** The goroutine of a unidirectional stream: the calls on the stream that it
    opens; [open] is the error of [OpenUniStreamSync]. *)
Definition serveUni (endpoint : gostring) (data : result error gostring) (open write1 write2 : option error)
  : list streamCall :=
  match data with
  | Err _ => []
  | Ok data =>
      match parseRequest data with
      | Err _ => []
      | Ok filename =>
          match open with
          | Some _ => []
          | None => (pushFile write1 write2 (Join [endpoint; filename])).1 ++ [SClose]
          end
      end
  end.

(** The answer to a datagram, if there is one. *)
Definition answerDatagram (endpoint data : gostring) : option gostring :=
  match parseRequest data with
  | Err _ => None
  | Ok filename =>
      match readFile (Join [endpoint; filename]) with
      | Err _ => None
      | Ok payload => Some (pushHeader filename ++ payload)
      end
  end.

(** The loop over datagrams, each with the result of [SendDatagram]: what is
    sent, until a call fails or nothing more is received. *)
Fixpoint serveDatagrams (endpoint : gostring) (received : list (gostring * option error)) : list gostring :=
  match received with
  | [] => []
  | (data, send) :: received =>
      match answerDatagram endpoint data with
      | None => serveDatagrams endpoint received
      | Some payload => payload :: match send with Some _ => [] | None => serveDatagrams endpoint received end
      end
  end.

(** ** The receiving side *)

(** The goroutines of [runTransferUniReceive]: one for each request, and one for
    each push. *)
Definition requestUni (open write : option error) (req : gostring) : list streamCall * option error :=
  match open with
  | Some err => ([], Some err)
  | None =>
      let '(calls, err) := requestFile write req in
      (calls, (fun err => ErrWrap (str "failed to request file " ++ req ++ str ": " ++ Error err) err) <$> err)
  end.

Definition receiveUni (accepted : result error (result error gostring)) (mkdir write : option error)
    (endpoint : gostring) : list fileCall * option error :=
  match accepted with
  | Err err => ([], Some err)
  | Ok data => storePush mkdir write data endpoint
  end.

(** The goroutine of a request in [runTransferBidiReceive]; [data] is what
    [ReadAll] returns. *)
Definition receiveBidi (open write : option error) (data : result error gostring) (mkdir save : option error)
    (endpoint req : gostring) : list streamCall * list fileCall * option error :=
  match requestUni open write req with
  | (calls, Some err) => (calls, [], Some err)
  | (calls, None) =>
      match data with
      | Err err => (calls, [], Some (ErrWrap (str "failed to read response: " ++ Error err) err))
      | Ok data =>
          let '(files, err) := saveFile mkdir save (Join [endpoint; Base req]) data in
          (calls, files, err)
      end
  end.

(** The two goroutines of [runTransferDatagramReceive], which stop at the first
    error. The results of [SendDatagram] come with the requests, those of the
    file system with the datagrams. *)
Fixpoint sendRequests (requests : list (gostring * option error)) : list gostring * option error :=
  match requests with
  | [] => ([], None)
  | (req, send) :: requests =>
      match send with
      | Some err => ([getPrefix ++ req], 
                      Some (ErrWrap (str "failed to send GET datagram for " ++ req ++ str ": " ++ Error err) err))
      | None => let '(sent, err) := sendRequests requests in ((getPrefix ++ req) :: sent, err)
      end
  end.

(** [n] is the number of requests and [i] that of the datagram. *)
Fixpoint receivePushes (endpoint : gostring) (n i : Z)
    (received : list (result error gostring * option error * option error)) : list fileCall * option error :=
  match received with
  | [] => ([], None)
  | (data, mkdir, write) :: received =>
      match data with
      | Err err =>
          ([], Some (ErrWrap (str "receiving PUSH datagram " ++ itoa (i + 1) ++ str "/" ++ itoa n ++ str ": " ++ Error err) err))
      | Ok data =>
          match storePushFromDatagram mkdir write data endpoint with
          | (calls, Some err) => (calls, Some err)
          | (calls, None) =>
              let '(more, err) := receivePushes endpoint n (i + 1) received in (calls ++ more, err)
          end
      end
  end.

(** [errgroup]: the first error, in the order in which the goroutines end. *)
Definition egWait (results : list (option error)) : option error := head (omap id results).

End interop.

(** ** Lists of requests *)

Abbreviation requestMap := (gmap gostring (list gostring)).

(** One path of [parseServerRequests]. *)
Definition addServerRequest (requests : requestMap) (pathStr : gostring) : requestMap :=
  let pathStr := TrimPrefix (TrimSpace pathStr) [slash] in
  if decide (pathStr = []) then requests
  else
    let '(before, after, ok) := Cut pathStr slash in
    if negb ok then <[pathStr := []]> requests
    else <[before := default [] (requests !! before) ++ [after]]> requests.

(** [None] is the nil map. *)
Definition parseServerRequests (s : gostring) : option requestMap :=
  if decide (s = []) then None else Some (foldl addServerRequest ∅ (Fields s)).

Section client_requests.
(** The [Host] and the [Path] that [url.Parse] finds. *)
Context (parseURL : gostring -> result error (gostring * gostring)).

(** One URL of [parseClientRequests]; [None] is a panic. *)
Definition addClientRequest (urlStr : gostring) (requests : requestMap) : option (result error requestMap) :=
  let urlStr := TrimSpace urlStr in
  if decide (urlStr = []) then Some (Ok requests)
  else
    match parseURL urlStr with
    | Err err => Some (Err err)
    | Ok (host, path) =>
        if decide (countByte path slash < 2)%nat then Some (Ok (<[host ++ path := []]> requests))
        else
          match path with
          | [] => None
          | _ :: path =>
              let '(first, rest, ok) := Cut path slash in
              if negb ok then None
              else
                let k := host ++ [slash] ++ first in
                Some (Ok (<[k := default [] (requests !! k) ++ [rest]]> requests))
          end
    end.

Fixpoint addClientRequests (urls : list gostring) (requests : requestMap) : option (result error requestMap) :=
  match urls with
  | [] => Some (Ok requests)
  | urlStr :: urls =>
      r ← addClientRequest urlStr requests;
      match r with
      | Err err => Some (Err err)
      | Ok requests => addClientRequests urls requests
      end
  end.

Definition parseClientRequests (s : gostring) : option (result error (option requestMap)) :=
  if decide (s = []) then Some (Ok None)
  else
    r ← addClientRequests (Split s " "%byte) ∅;
    Some (match r with Err err => Err err | Ok requests => Ok (Some requests) end).

End client_requests.

(** [k[strings.Index(k, "/")+1:]] *)
Definition endpointOf (k : gostring) : gostring :=
  match Cut k slash with (_, after, true) => after | _ => k end.

(** The directories among the entries of [ReadDir]. *)
Definition discoverEndpoints (entries : result error (list (gostring * bool))) : result error (list gostring) :=
  match entries with
  | Err err => Err err
  | Ok entries => Ok (fst <$> filter (fun e : gostring * bool => e.2 = true) entries)
  end.

(** ** Lemmas *)

Definition wwwPath (endpoint r : gostring) : gostring := joinWith [str "/www"; endpoint; r] [slash].
Definition downloadDir (endpoint : gostring) : gostring := joinWith [str "/downloads"; endpoint] [slash].
Definition downloadPath (endpoint b : gostring) : gostring := joinWith [str "/downloads"; endpoint; b] [slash].

(** A request for a file by its name or a path of names, which trimming leaves
    alone. *)
Definition plainRequest (r : gostring) : Prop :=
  Forall plainName (Split r slash) /\ TrimSpace r = r /\ TrimSpace (Base r) = Base r /\ newline ∉ Base r.

#[export] Instance plainRequest_dec r : Decision (plainRequest r).
Proof. unfold plainRequest. apply _. Defined.

(** What a stream carries. *)
Definition written (calls : list streamCall) : gostring :=
  concat ((fun c => match c with SWrite data => data | _ => [] end) <$> calls).

(** The file system after some calls that succeed. *)
Definition writeFiles (calls : list fileCall) (files : gmap gostring gostring) : gmap gostring gostring :=
  foldl (fun files c => match c with WriteFile path data => <[path := data]> files | _ => files end) files calls.

Lemma downloadPath_inj endpoint b1 b2 : downloadPath endpoint b1 = downloadPath endpoint b2 -> b1 = b2.
Proof. unfold downloadPath. simpl. intros [= Heq%app_inv_head]. by injection Heq. Qed.

(** Decide a closed instance. *)
Ltac decide_plain := apply (bool_decide_unpack _); vm_compute; exact I.

Lemma plain_pair a b : plainName a -> plainName b -> Forall plainName [a; b].
Proof. intros Ha Hb. constructor; [done|]. by constructor. Qed.

Lemma plainRequest_names r : plainRequest r -> r = joinPath (Split r slash) /\ Split r slash <> [] /\ r <> [].
Proof.
  intros [H _]. split_and!; [by rewrite joinWith_Split|apply Split_ne|].
  intros ->. inversion H as [|? ? [Hne _] _]. by apply Hne.
Qed.

Lemma plainRequest_Base r : plainRequest r -> plainName (Base r).
Proof.
  intros Hr. destruct (plainRequest_names r Hr) as (E & Hne & _). destruct Hr as [H _].
  pose proof (Base_names _ Hne H) as Hl. rewrite <- E in Hl. symmetry in Hl. apply last_Some_elem_of in Hl.
  rewrite Forall_forall in H. auto.
Qed.

Lemma Base_plainName b : plainName b -> Base b = b.
Proof.
  intros H. pose proof (Base_names [b] ltac:(done) ltac:(by constructor)) as E. by injection E.
Qed.

Section laws.
Context `{ET : !ErrorText}.
Context (ReadFile : gostring -> result error gostring).

Lemma parseRequest_get r : r <> [] -> TrimSpace r = r -> parseRequest (getPrefix ++ r) = Ok r.
Proof. intros Hr Ht. unfold parseRequest. by rewrite HasPrefix_app, TrimPrefix_app, Ht, decide_False. Qed.

Lemma readFile_plain endpoint r content : plainName endpoint -> plainRequest r ->
  ReadFile (wwwPath endpoint r) = Ok content -> readFile ReadFile (Join [endpoint; r]) = Ok content.
Proof.
  intros He Hr Hc. destruct (plainRequest_names r Hr) as (E & Hne & _). destruct Hr as [H _].
  assert (Join [endpoint; r] = joinPath (endpoint :: Split r slash)) as ->.
  { rewrite E at 1. apply (Join_names [endpoint]); [done..|by constructor|done]. }
  assert (Forall plainName (endpoint :: Split r slash)) as Hall by (by constructor).
  destruct (joinPath_first (endpoint :: Split r slash) ltac:(done) Hall) as (b & t & Eb & Hb).
  unfold readFile.
  assert (TrimPrefix (joinPath (endpoint :: Split r slash)) [slash] = joinPath (endpoint :: Split r slash)) as ->.
  { rewrite Eb. unfold TrimPrefix, HasPrefix. rewrite bool_decide_eq_false_2; [done|]. intros [= ?]. done. }
  assert (Join [str "/www"; joinPath (endpoint :: Split r slash)] = wwwPath endpoint r) as ->.
  { rewrite (Join_root_names (str "www")); [|by decide_plain|done..].
    rewrite joinWith_cons, joinWith_cons, joinWith_Split by done. done. }
  by rewrite Hc.
Qed.

Lemma downloadPath_Join endpoint b : plainName endpoint -> plainName b ->
  Join [str "/downloads"; Join [endpoint; b]] = downloadPath endpoint b.
Proof.
  intros He Hb. assert (Join [endpoint; b] = joinPath [endpoint; b]) as ->.
  { apply (Join_names [endpoint] [b]); [done..|by constructor|by constructor]. }
  rewrite (Join_root_names (str "downloads")); [done|by decide_plain|done|by apply plain_pair].
Qed.

Lemma saveFile_plain mkdir write endpoint b data : plainName endpoint -> plainName b ->
  saveFile mkdir write (Join [endpoint; b]) data =
  match mkdir with
  | Some err => ([MkdirAll (downloadDir endpoint)], Some err)
  | None => ([MkdirAll (downloadDir endpoint); WriteFile (downloadPath endpoint b) data], write)
  end.
Proof.
  intros He Hb. unfold saveFile. rewrite downloadPath_Join by done.
  assert (Dir (downloadPath endpoint b) = downloadDir endpoint) as ->; [|done].
  apply (Dir_names [str "downloads"; endpoint] b); [apply plain_pair; [decide_plain|done]|done].
Qed.

(** The effect of storing a push. *)
Definition saved (endpoint r content : gostring) : list fileCall :=
  [MkdirAll (downloadDir endpoint); WriteFile (downloadPath endpoint (Base r)) content].

Lemma storePush_plain what where_ endpoint r content : plainName endpoint -> plainRequest r ->
  storePushData what where_ None None (pushHeader r ++ content) endpoint = (saved endpoint r content, None).
Proof.
  intros He Hr. pose proof (plainRequest_Base r Hr) as Hb. destruct Hr as (_ & _ & Ht & Hn).
  unfold storePushData, pushHeader. rewrite <- (assoc_L (++)), HasPrefix_app, TrimPrefix_app. simpl negb.
  rewrite <- (assoc_L (++)). change ([newline] ++ content) with (newline :: content). rewrite Cut_sep by done.
  simpl negb. rewrite decide_False by apply Hb. rewrite Ht, (Base_plainName (Base r)) by done.
  by rewrite saveFile_plain.
Qed.

(** [pushFile] is given the path with the endpoint, whose last element is the same. *)
Lemma Base_endpoint endpoint r : plainName endpoint -> plainRequest r -> Base (Join [endpoint; r]) = Base r.
Proof.
  intros He Hr. destruct (plainRequest_names r Hr) as (E & Hne & _). destruct Hr as [H _].
  assert (Join [endpoint; r] = joinPath (endpoint :: Split r slash)) as ->.
  { rewrite E at 1. apply (Join_names [endpoint]); [done..|by constructor|done]. }
  pose proof (Base_names (endpoint :: Split r slash) ltac:(done) ltac:(by constructor)) as E1.
  pose proof (Base_names _ Hne H) as E2. rewrite <- E in E2.
  assert (last (endpoint :: Split r slash) = last (Split r slash)) as El by (by destruct (Split r slash)).
  rewrite El, <- E2 in E1. by injection E1.
Qed.

(** Writing one file does not disturb the others. *)
Lemma writeFiles_saved endpoint (content : gostring -> gostring) rs files r :
  plainName endpoint -> NoDup (Base <$> rs) -> r ∈ rs ->
  writeFiles (concat ((fun r => saved endpoint r (content r)) <$> rs)) files !! downloadPath endpoint (Base r) =
  Some (content r).
Proof.
  intros He. revert files. assert (forall rs files, Base r ∉ Base <$> rs ->
    writeFiles (concat ((fun r => saved endpoint r (content r)) <$> rs)) files !! downloadPath endpoint (Base r) =
    files !! downloadPath endpoint (Base r)) as Hother.
  { clear rs. intros rs. induction rs as [|r' rs IH]; intros files Hn; [done|].
    rewrite fmap_cons, not_elem_of_cons in Hn. destruct Hn as [Hne Hn].
    unfold writeFiles in *. cbn [fmap list_fmap concat]. rewrite foldl_app, IH by done. simpl.
    rewrite lookup_insert_ne; [done|]. intros Heq%downloadPath_inj. congruence. }
  induction rs as [|r' rs IH]; intros files Hnd Hin; [by apply not_elem_of_nil in Hin|].
  rewrite fmap_cons, NoDup_cons in Hnd. destruct Hnd as [Hn Hnd].
  unfold writeFiles in *. cbn [fmap list_fmap concat]. rewrite foldl_app.
  destruct (decide (r = r')) as [->|Hne].
  - rewrite Hother by done. simpl. by rewrite lookup_insert_eq.
  - apply elem_of_cons in Hin as [?|Hin]; [done|]. by apply IH.
Qed.

End laws.

(** Where a file is saved, whatever the name in the push. *)
Lemma saveFile_inside `{ET : !ErrorText} mkdir write endpoint filename data path d : plainName endpoint ->
  WriteFile path d ∈ (saveFile mkdir write (Join [endpoint; Base filename]) data).1 ->
  d = data /\ (path = str "/downloads" \/ path = downloadDir endpoint \/
    exists b, plainName b /\ path = downloadPath endpoint b).
Proof.
  intros He Hin.
  assert (mkdir = None -> d = data /\ path = Join [str "/downloads"; Join [endpoint; Base filename]]) as Hp.
  { intros ->. unfold saveFile in Hin. simpl fst in Hin.
    apply elem_of_cons in Hin as [|[[= -> ->]|[]%not_elem_of_nil]%elem_of_cons]; done. }
  destruct mkdir as [err|].
  { unfold saveFile in Hin. simpl in Hin. by apply list_elem_of_singleton in Hin. }
  destruct (Hp eq_refl) as [-> ->]. split; [done|]. clear Hp.
  assert (plainName (str "downloads")) as Hd by (by decide_plain).
  assert (Join [str "/downloads"; joinPath [endpoint]] = downloadDir endpoint) as Hdir.
  { apply (Join_root_names (str "downloads") [endpoint]); [done..|by constructor]. }
  destruct (Base_cases filename) as [Hb|[->|[->| ->]]].
  - right; right. exists (Base filename). split; [done|].
    by apply downloadPath_Join.
  - right; left. rewrite <- Hdir. f_equal. f_equal. f_equal.
    apply (Join_relative [endpoint] _ [endpoint]); [done|by constructor|done].
  - right; left. rewrite <- Hdir. f_equal. f_equal. f_equal.
    apply (Join_relative [endpoint] _ [endpoint]); [done|by constructor|done].
  - left. assert (Join [endpoint; dotdot] = dot) as ->; [|by vm_compute].
    apply (Join_relative [endpoint] _ []); [done|by constructor|]. apply cleanElem_up, He.
Qed.

Lemma storePushData_inside `{ET : !ErrorText} what where_ mkdir write data endpoint path d : plainName endpoint ->
  WriteFile path d ∈ (storePushData what where_ mkdir write data endpoint).1 ->
  path = str "/downloads" \/ path = downloadDir endpoint \/ exists b, plainName b /\ path = downloadPath endpoint b.
Proof.
  intros He. unfold storePushData. destruct (negb (HasPrefix data pushPrefix)); [intros []%not_elem_of_nil|].
  destruct (Cut _ newline) as [[name payload] ok]. destruct (negb ok); [intros []%not_elem_of_nil|].
  case_decide; [intros []%not_elem_of_nil|]. intros Hin. by eapply saveFile_inside.
Qed.

(** A request can name a file outside of the directory of the endpoint. *)
Lemma request_escapes `{ET : !ErrorText} (ReadFile : gostring -> result error gostring) endpoint content :
  plainName endpoint -> ReadFile (str "/etc/passwd") = Ok content ->
  serveBidi ReadFile endpoint (Ok (str "GET ../../etc/passwd")) None = [SWrite content; SClose].
Proof.
  intros He Hc. unfold serveBidi.
  assert (parseRequest (str "GET ../../etc/passwd") = Ok (str "../../etc/passwd")) as -> by (by vm_compute).
  assert (Join [endpoint; str "../../etc/passwd"] = str "../etc/passwd") as ->.
  { apply (Join_relative [endpoint] _ [dotdot; str "etc"; str "passwd"]); [done|by constructor|].
    change (Split (str "../../etc/passwd") slash) with [dotdot; dotdot; str "etc"; str "passwd"].
    change (reverse [endpoint]) with [endpoint]. cbn [foldl]. rewrite cleanElem_up by done. by vm_compute. }
  unfold sendFile, readFile.
  assert (Join [str "/www"; TrimPrefix (str "../etc/passwd") [slash]] = str "/etc/passwd") as -> by (by vm_compute).
  by rewrite Hc.
Qed.

(** [parseClientRequests] does not index out of range. *)
Lemma parseClientRequests_total parseURL s : parseClientRequests parseURL s <> None.
Proof.
  unfold parseClientRequests. case_decide; [done|].
  assert (forall urls requests, is_Some (addClientRequests parseURL urls requests)) as Htotal.
  { intros urls. induction urls as [|u urls IH]; intros requests; simpl; [done|].
    assert (is_Some (addClientRequest parseURL u requests)) as [r ->].
    - unfold addClientRequest. case_decide; [done|]. destruct (parseURL _) as [[host path]|e]; [|done].
      case_decide as Hc; [done|]. destruct path as [|b path]; [simpl in Hc; unfold countByte in Hc; simpl in Hc; lia|].
      destruct (Cut path slash) as [[first rest] ok] eqn:E. destruct ok; [done|exfalso].
      apply Cut_spec in E as (Hn & -> & ->). unfold countByte in Hc. rewrite filter_cons in Hc.
      assert (filter (fun b => b = slash) path = []) as E.
      { clear Hc. induction path as [|b' path IHp]; [done|]. apply not_elem_of_cons in Hn as [? ?].
        rewrite filter_cons_False by congruence. auto. }
      rewrite E in Hc. case_decide; simpl in Hc; lia.
    - simpl. destruct r; [apply IH|done]. }
  destruct (Htotal (Split s " "%byte) ∅) as [r ->]. done.
Qed.

(** ** Theorems *)

(** C39: a transfer delivers the files. One endpoint requests files by plain names or
    paths; the other has them in the directory of its endpoint. In each of the
    three ways (unidirectional streams, bidirectional streams, datagrams), when
    every call succeeds, the requester creates its download directory and saves
    under the last element of each path exactly the bytes of the file, whatever
    they are, also if they contain line breaks or look like a push. If the last
    elements differ, the goroutines may store the files in any order and each is
    there at the end. *)
Theorem files_transferred `{ET : !ErrorText} (ReadFile : gostring -> result error gostring)
    (content : gostring -> gostring) (sender receiver : gostring) (rs : list gostring) :
  plainName sender -> plainName receiver -> Forall plainRequest rs ->
  (forall r, r ∈ rs -> ReadFile (wwwPath sender r) = Ok (content r)) ->
  (forall r, r ∈ rs ->
     let request := written (requestUni None None r).1 in
     (let answer := written (serveUni ReadFile sender (Ok request) None None None) in
      receiveUni (Ok (Ok answer)) None None receiver = (saved receiver r (content r), None)) /\
     (let answer := written (serveBidi ReadFile sender (Ok request) None) in
      (receiveBidi None None (Ok answer) None None receiver r).1.2 = saved receiver r (content r)) /\
     (exists datagram, answerDatagram ReadFile sender request = Some datagram /\
        storePushFromDatagram None None datagram receiver = (saved receiver r (content r), None))) /\
  (NoDup (Base <$> rs) -> forall order files r, order ≡ₚ rs -> r ∈ rs ->
     writeFiles (concat ((fun r => saved receiver r (content r)) <$> order)) files !! downloadPath receiver (Base r) =
     Some (content r)).
Proof.
  intros Hs Hr Hrs Hf. split.
  - intros r Hin request. assert (plainRequest r) as Hp by (rewrite Forall_forall in Hrs; auto).
    assert (request = getPrefix ++ r) as Hreq by (unfold request, written; cbn [requestUni requestFile fst fmap list_fmap concat]; by rewrite !app_nil_r).
    destruct (plainRequest_names r Hp) as (_ & _ & Hne). pose proof (plainRequest_Base r Hp) as Hb.
    assert (parseRequest request = Ok r) as Hparse by (rewrite Hreq; apply parseRequest_get; [done|apply Hp]).
    pose proof (readFile_plain ReadFile sender r (content r) Hs Hp (Hf r Hin)) as Hread. split_and!.
    + unfold serveUni, pushFile. rewrite Hparse, Hread. unfold written. cbn [fst app fmap list_fmap concat].
      rewrite !app_nil_r. unfold pushHeader at 1. rewrite Base_endpoint by done. by apply storePush_plain.
    + unfold serveBidi, sendFile. rewrite Hparse, Hread. unfold written. cbn [fst app fmap list_fmap concat].
      rewrite !app_nil_r. unfold receiveBidi, requestUni, requestFile. cbn [fmap option_fmap option_map].
      by rewrite saveFile_plain.
    + unfold answerDatagram. rewrite Hparse, Hread. eexists. split; [done|]. by apply storePush_plain.
  - intros Hnd order files r Ho Hin. apply writeFiles_saved; [done| |by rewrite Ho]. by rewrite Ho.
Qed.

(** Two files, one of which looks like a push. *)
Definition exampleContent (r : gostring) : gostring :=
  if decide (r = str "a.bin") then str "PUSH x" ++ [newline; newline] else str "b".
Definition exampleFiles (path : gostring) : result error gostring :=
  if decide (path = str "/www/in/a.bin") then Ok (exampleContent (str "a.bin"))
  else if decide (path = str "/www/in/sub/b.bin") then Ok (exampleContent (str "sub/b.bin")) else Err ErrEOF.

Lemma files_transferred_witness :
  let ET := Build_ErrorText (fun _ _ => []) (fun _ _ => []) [] in
  (receiveBidi None None (Ok (written (serveBidi exampleFiles (str "in") (Ok (str "GET a.bin")) None)))
     None None (str "out") (str "a.bin")).1.2 =
    [MkdirAll (str "/downloads/out"); WriteFile (str "/downloads/out/a.bin") (str "PUSH x" ++ [newline; newline])] /\
  writeFiles (saved (str "out") (str "sub/b.bin") (str "b") ++ saved (str "out") (str "a.bin") (exampleContent (str "a.bin"))) ∅
    !! str "/downloads/out/b.bin" = Some (str "b").
Proof.
  intros ET.
  destruct (files_transferred exampleFiles exampleContent (str "in") (str "out") [str "a.bin"; str "sub/b.bin"]) as [H1 H2].
  - decide_plain.
  - decide_plain.
  - decide_plain.
  - intros r [-> | [-> | []%not_elem_of_nil]%elem_of_cons]%elem_of_cons; vm_compute; reflexivity.
  - split.
    + exact (proj1 (proj2 (H1 (str "a.bin") ltac:(by left)))).
    + apply (H2 ltac:(decide_plain) [str "sub/b.bin"; str "a.bin"] ∅ (str "sub/b.bin")); [by constructor|right; by left].
Defined.

(** A push cannot be stored outside of the download directory. Whatever a peer
    sends as name, [Base] reduces it so that the only files written are one in
    the directory of the endpoint, or, for names like [".."], which are paths of
    directories, that directory or [/downloads] itself, on which the operating
    system refuses to write. The same holds of the names in requests, under
    which the answers on bidirectional streams are saved. *)
Theorem saved_inside_downloads `{ET : !ErrorText} (endpoint path d : gostring) (mkdir write : option error) :
  plainName endpoint ->
  (exists data, WriteFile path d ∈ (storePush mkdir write data endpoint).1) \/
  (exists data, WriteFile path d ∈ (storePushFromDatagram mkdir write data endpoint).1) \/
  (exists open w data req, WriteFile path d ∈ (receiveBidi open w data mkdir write endpoint req).1.2) ->
  path = str "/downloads" \/ path = downloadDir endpoint \/ exists b, plainName b /\ path = downloadPath endpoint b.
Proof.
  intros He [[data Hin]|[[data Hin]|(open & w & data & req & Hin)]].
  - destruct data as [data|err]; [by eapply storePushData_inside|by apply not_elem_of_nil in Hin].
  - by eapply storePushData_inside.
  - unfold receiveBidi in Hin. destruct (requestUni open w req) as [calls [err|]]; [by apply not_elem_of_nil in Hin|].
    destruct data as [data|err]; [|by apply not_elem_of_nil in Hin].
    destruct (saveFile mkdir write _ data) as [files err] eqn:E. eapply saveFile_inside; [done|]. by rewrite E.
Qed.

Lemma saved_inside_downloads_witness :
  let ET := Build_ErrorText (fun _ _ => []) (fun _ _ => []) [] in
  let path := str "/downloads/out/passwd" in
  path = str "/downloads" \/ path = downloadDir (str "out") \/ exists b, plainName b /\ path = downloadPath (str "out") b.
Proof.
  intros ET path. apply (saved_inside_downloads (str "out") path (str "x") None None).
  - decide_plain.
  - left. exists (Ok (str "PUSH ../../etc/passwd" ++ newline :: str "x")).
    vm_compute. right. left.
Defined.
