(* ===== verification/InteropMain.v ===== *)
(** * The two programs of the interoperability tests ([interop/client.go],
      [interop/server.go])

    [RunInteropClient] and [RunInteropServer]: the environment variables are
    arguments, and so are the results of the calls that open files, dial, listen
    and upgrade. The calls that matter to the other side and the file system are
    listed in order. [Interop] holds what a transfer does. *)

From S2P Require Import Prelude Errors GoStrings Interop.

(** ** Calls and results *)

Inductive way : Type := Unidirectional | Bidirectional | Datagrams.

Inductive transfer : Type :=
(** [runTransfer] *)
| Serve (endpoint : gostring)
(** [runTransferUniReceive], [runTransferBidiReceive], [runTransferDatagramReceive] *)
| Receive (w : way) (endpoint : gostring) (requests : list gostring).

Inductive mainCall : Type :=
(** the [webtransport.Transport] or the [webtransport.Server], with its protocols *)
| MEndpoint (protocols : list gostring)
| MDial (url : gostring)
| MHandleFunc (pattern : gostring)
| MListenAndServe
| MFile (c : fileCall)
| MTransfer (t : transfer)
(** [<-sess.Context().Done()] *)
| MWaitSession
| MCloseSession
(** [Close] of the [Transport] or the [Server] *)
| MClose.

Inductive ending : Type :=
| OsExit (code : Z)
| Returned (err : option error)
| Panicked.

(** Deferred calls run unless the program exits. *)
Definition deferred (cs : list mainCall) (run : list mainCall * ending) : list mainCall * ending :=
  (run.1 ++ match run.2 with OsExit _ => [] | _ => cs end, run.2).

Definition after (cs : list mainCall) (run : list mainCall * ending) : list mainCall * ending := (cs ++ run.1, run.2).

Definition fails (e : error) : list mainCall * ending := ([], Returned (Some e)).

Section main.
Context `{ET : !ErrorText}.

Definition failedTo (what : gostring) (err : error) : error := ErrWrap (str "failed to " ++ what ++ str ": " ++ Error err) err.

Definition errNoFlowControl : error := ErrNew (str "webtransport-go currently doesn't support flow control").

(** The protocol of the session is written to a file. *)
Definition writeProtocol (write : option error) (proto : gostring) : list mainCall * option error :=
  ([MFile (WriteFile (str "/downloads/negotiated_protocol.txt") proto)],
   failedTo (str "write negotiated_protocol.txt") <$> write).

(** ** The client *)

(** [c_dial]: the status and the protocol of the session; [c_ran]: what the
    function that runs the transfer returns. *)
Record clientResults := mkClientResults {
  c_log : option error;
  c_keyLog : option error;
  c_dial : result error (Z * gostring);
  c_write : option error;
  c_ran : option error;
}.

(** The [switch] on the test case; [sess] is [None] for a nil session. *)
Definition clientCase (o : clientResults) (testcase : gostring) (requestMap : requestMap) (sess : option gostring)
    (endpoint : gostring) (requests : list gostring) : list mainCall * ending :=
  if decide (testcase = str "handshake") then
    match sess with
    | None => ([], Panicked)
    | Some proto => let '(calls, err) := writeProtocol (c_write o) proto in (calls, Returned err)
    end
  else if decide (testcase = str "transfer") then
    match (map_to_list requestMap).*1 with
    | [] => ([], Panicked)
    | u :: _ => ([MTransfer (Serve (endpointOf u))], Returned None)
    end
  else if decide (testcase = str "transfer-unidirectional-receive") then
    ([MTransfer (Receive Unidirectional endpoint requests)], Returned (c_ran o))
  else if decide (testcase = str "transfer-bidirectional-receive") then
    ([MTransfer (Receive Bidirectional endpoint requests)], Returned (c_ran o))
  else if decide (testcase = str "transfer-datagram-receive") then
    ([MTransfer (Receive Datagrams endpoint requests)], Returned (c_ran o))
  else ([], OsExit 127).

(** [cl.Dial] for the only key, and the rest. *)
Definition clientSession (o : clientResults) (testcase : gostring) (requestMap : requestMap) : list mainCall * ending :=
  match map_to_list requestMap with
  | [] => clientCase o testcase requestMap None [] []
  | (k, v) :: _ =>
      after [MDial (str "https://" ++ k)]
        match c_dial o with
        | Err err => fails (failedTo (str "dial " ++ k) err)
        | Ok (status, proto) =>
            if decide (status < 200 \/ 300 <= status) then fails (ErrNew (str "unexpected status: " ++ itoa status))
            else deferred [MCloseSession] (clientCase o testcase requestMap (Some proto) (endpointOf k) v)
        end
  end.

Definition RunInteropClient (parseURL : gostring -> result error (gostring * gostring))
    (testcase requests protocols : gostring) (o : clientResults) : list mainCall * ending :=
  match parseClientRequests parseURL requests with
  | None => ([], Panicked)
  | Some (Err err) => fails err
  | Some (Ok m) =>
      if decide (1 < size (default ∅ m))%nat then fails errNoFlowControl
      else
        match c_log o, c_keyLog o with
        | Some err, _ => fails (failedTo (str "create log file") err)
        | None, Some err => fails (failedTo (str "create key log") err)
        | None, None =>
            after [MEndpoint (Split protocols " "%byte)] (deferred [MClose] (clientSession o testcase (default ∅ m)))
        end
  end.

(** ** The server *)

Definition serverCases : list gostring :=
  [str "handshake"; str "transfer"; str "transfer-unidirectional-send"; str "transfer-bidirectional-send";
   str "transfer-datagram-send"].

(** [s_session]: the endpoint and the protocol of the first session, or [None]
    when listening fails before there is one. *)
Record serverResults := mkServerResults {
  s_log : option error;
  s_keyLog : option error;
  s_cert : option error;
  s_entries : result error (list (gostring * bool));
  s_session : option (gostring * gostring);
  s_write : option error;
  s_ran : option error;
}.

(** The patterns of an endpoint, whose name does not end in a slash. *)
Definition patterns (ep : gostring) : list mainCall :=
  [MHandleFunc ([slash] ++ ep)] ++ (if decide (last ep = Some slash) then [] else [MHandleFunc ([slash] ++ ep ++ [slash])]).

(** The handler of an endpoint, given what [Upgrade] returns: a status, or what
    is sent on [sessChan]. *)
Definition endpointHandler {S} (ep : gostring) (upgrade : result error S) : Z + (gostring * S) :=
  match upgrade with Err _ => inl 500 | Ok sess => inr (ep, sess) end.

Definition serverCase (o : serverResults) (testcase endpoint proto : gostring) (requests : list gostring)
  : list mainCall * ending :=
  if decide (testcase = str "handshake") then
    let '(calls, err) := writeProtocol (s_write o) proto in
    match err with
    | Some err => (calls, Returned (Some err))
    | None => (calls ++ [MWaitSession], Returned None)
    end
  else if decide (testcase = str "transfer") then ([MTransfer (Serve endpoint)], Returned None)
  else if decide (testcase = str "transfer-datagram-send") then
    ([MTransfer (Receive Datagrams endpoint requests)], Returned (s_ran o))
  else if decide (testcase = str "transfer-unidirectional-send") then
    ([MTransfer (Receive Unidirectional endpoint requests)], Returned (s_ran o))
  else if decide (testcase = str "transfer-bidirectional-send") then
    ([MTransfer (Receive Bidirectional endpoint requests)], Returned (s_ran o))
  else ([], OsExit 127).

(** From the creation of the server on. *)
Definition serverSession (o : serverResults) (testcase : gostring) (requestMap : requestMap) : list mainCall * ending :=
  match discoverEndpoints (s_entries o) with
  | Err err => fails (failedTo (str "read /www") err)
  | Ok [] => fails (ErrNew (str "no endpoints discovered in /www"))
  | Ok endpoints =>
      after (concat (patterns <$> endpoints) ++ [MListenAndServe])
        match s_session o with
        | None => ([], OsExit 1)
        | Some (endpoint, proto) => serverCase o testcase endpoint proto (default [] (requestMap !! endpoint))
        end
  end.

Definition RunInteropServer (testcase requests protocols : gostring) (o : serverResults) : list mainCall * ending :=
  if decide (testcase ∉ serverCases) then ([], OsExit 127)
  else
    let requestMap := default ∅ (parseServerRequests requests) in
    if decide (1 < size requestMap)%nat then fails errNoFlowControl
    else
      match s_log o, s_keyLog o, s_cert o with
      | Some err, _, _ => fails (failedTo (str "create log file") err)
      | None, Some err, _ => fails (failedTo (str "create key log") err)
      | None, None, Some err => fails (failedTo (str "load certificate") err)
      | None, None, None =>
          after [MEndpoint (Split protocols " "%byte)] (deferred [MClose] (serverSession o testcase requestMap))
      end.

(** ** Lemmas *)

(** The URL of a file of an endpoint. *)
Definition fileURL (host ep f : gostring) : gostring := str "https://" ++ host ++ [slash] ++ ep ++ [slash] ++ f.
Definition filePath (ep f : gostring) : gostring := slash :: ep ++ slash :: f.

Definition receiveCase (w : way) : gostring :=
  match w with
  | Unidirectional => str "transfer-unidirectional-receive"
  | Bidirectional => str "transfer-bidirectional-receive"
  | Datagrams => str "transfer-datagram-receive"
  end.

Section requests.
Context (parseURL : gostring -> result error (gostring * gostring)) (host ep : gostring).
Context (Hep : slash ∉ ep).

(** A URL that stands alone between spaces, and that [url.Parse] splits as expected. *)
Definition plainURL (f : gostring) : Prop :=
  TrimSpace (fileURL host ep f) = fileURL host ep f /\ (" "%byte ∉ fileURL host ep f) /\
  parseURL (fileURL host ep f) = Ok (host, filePath ep f).

Lemma addClientRequest_file f requests : plainURL f ->
  addClientRequest parseURL (fileURL host ep f) requests =
  Some (Ok (<[host ++ [slash] ++ ep := default [] (requests !! (host ++ [slash] ++ ep)) ++ [f]]> requests)).
Proof.
  intros (Ht & _ & Hp). unfold addClientRequest. rewrite Ht, decide_False, Hp by done. unfold filePath.
  rewrite decide_False, Cut_sep by (done || (unfold countByte; rewrite filter_cons_True, filter_app, filter_cons_True by done;
    simpl; rewrite length_app; simpl; lia)). done.
Qed.

Lemma addClientRequests_files fs acc : Forall plainURL fs -> acc <> [] ->
  addClientRequests parseURL (fileURL host ep <$> fs) {[host ++ [slash] ++ ep := acc]} =
  Some (Ok {[host ++ [slash] ++ ep := acc ++ fs]}).
Proof.
  intros Hfs. revert acc. induction Hfs as [|f fs Hf _ IH]; intros acc Hacc; cbn [fmap list_fmap addClientRequests].
  - by rewrite app_nil_r.
  - rewrite addClientRequest_file by done. cbn [mbind option_bind]. rewrite lookup_singleton_eq, insert_singleton_eq.
    simpl default. rewrite IH by (by destruct acc). by rewrite <- (assoc_L (++)).
Qed.

Lemma parseClientRequests_files fs : fs <> [] -> Forall plainURL fs ->
  parseClientRequests parseURL (joinWith (fileURL host ep <$> fs) [" "%byte]) =
  Some (Ok (Some {[host ++ [slash] ++ ep := fs]})).
Proof.
  intros Hne Hfs. unfold parseClientRequests. destruct fs as [|f fs]; [done|].
  rewrite decide_False by (by destruct fs).
  rewrite Split_joinWith; [|done|rewrite Forall_fmap; eapply Forall_impl; [exact Hfs|by intros x (_ & ? & _)]].
  apply Forall_cons in Hfs as [Hf Hfs]. cbn [fmap list_fmap addClientRequests].
  rewrite addClientRequest_file by done. cbn [mbind option_bind]. rewrite lookup_empty, insert_empty.
  by rewrite addClientRequests_files.
Qed.

Lemma endpointOf_key : slash ∉ host -> endpointOf (host ++ [slash] ++ ep) = ep.
Proof. intros Hh. unfold endpointOf. simpl. by rewrite Cut_sep. Qed.

End requests.
End main.

(** Without a URL there is no session: the client dereferences a nil pointer or
    indexes an empty slice in two of its test cases, and panics nowhere else. *)
Lemma RunInteropClient_panics `{ET : !ErrorText} parseURL testcase requests protocols o :
  (RunInteropClient parseURL testcase requests protocols o).2 = Panicked <->
  exists m, parseClientRequests parseURL requests = Some (Ok m) /\ default ∅ m = ∅ /\
    c_log o = None /\ c_keyLog o = None /\ (testcase = str "handshake" \/ testcase = str "transfer").
Proof.
  unfold RunInteropClient. destruct (parseClientRequests parseURL requests) as [[m|err]|] eqn:E;
    [| |by destruct (parseClientRequests_total parseURL requests)].
  2: { split; [done|]. by intros (? & ? & _). }
  assert (forall sess ep rs, (sess <> None /\ default ∅ m <> ∅) \/ (sess = None /\ default ∅ m = ∅) ->
    (clientCase o testcase (default ∅ m) sess ep rs).2 = Panicked <->
    default ∅ m = ∅ /\ (testcase = str "handshake" \/ testcase = str "transfer")) as Hcase.
  { intros sess ep rs Hs. unfold clientCase. repeat case_decide; try (split; [done|]; by intros [_ [?|?]]).
    - destruct Hs as [[Hs Hm]|[-> Hm]]; [destruct sess; [split; [done|]; by intros [? _]|done]|]. split; [by auto|done].
    - destruct Hs as [[Hs Hm]|[-> Hm]]; [|rewrite Hm, map_to_list_empty; split; [by auto|done]].
      destruct (map_to_list (default ∅ m)) as [|[k v] l] eqn:El; [by apply map_to_list_empty_iff in El|].
      split; [done|]. by intros [? _]. }
  case_decide as Hsize.
  { split; [done|]. intros (m' & [= <-] & Hm & _). rewrite Hm, map_size_empty in Hsize. lia. }
  destruct (c_log o); [split; [done|]; by intros (? & _ & _ & ? & _)|].
  destruct (c_keyLog o); [split; [done|]; by intros (? & _ & _ & _ & ? & _)|].
  trans ((clientSession o testcase (default ∅ m)).2 = Panicked); [done|]. unfold clientSession.
  destruct (map_to_list (default ∅ m)) as [|[k v] l] eqn:El.
  - apply map_to_list_empty_iff in El. rewrite Hcase by auto. split; [intros [_ ?]; by exists m|].
    by intros (? & _ & _ & _ & _ & ?).
  - assert (default ∅ m <> ∅) as Hm by (intros Hm; by rewrite Hm, map_to_list_empty in El).
    trans False; [|split; [done|]; by intros (? & [= <-] & ? & _)]. split; [|done].
    unfold after. cbn [snd]. destruct (c_dial o) as [[status proto]|err]; [|done]. case_decide; [done|].
    unfold deferred. cbn [snd]. rewrite Hcase by (left; split; [done|exact Hm]). by intros [? _].
Qed.

(** ** Theorems *)

(** The two programs fit together. When the client is told to fetch files of one
    endpoint, and the server, which has that endpoint, to serve them, and every
    call succeeds, the client dials the URL of the endpoint, for which the server
    has registered a handler; the server then runs [runTransfer] for it, and the
    client the receiving function of its test case, with the names of the files
    in the order in which they were given. Both clean up. *)
Theorem interop_transfer `{ET : !ErrorText} (parseURL : gostring -> result error (gostring * gostring))
    (host ep protocols proto : gostring) (fs : list gostring) (w : way) (o : clientResults) (so : serverResults) entries :
  plainName ep -> slash ∉ host -> fs <> [] -> Forall (plainURL parseURL host ep) fs ->
  c_log o = None -> c_keyLog o = None -> c_dial o = Ok (200, proto) ->
  s_log so = None -> s_keyLog so = None -> s_cert so = None -> s_entries so = Ok entries -> (ep, true) ∈ entries ->
  s_session so = Some (ep, proto) ->
  RunInteropClient parseURL (receiveCase w) (joinWith (fileURL host ep <$> fs) [" "%byte]) protocols o =
    ([MEndpoint (Split protocols " "%byte); MDial (str "https://" ++ host ++ [slash] ++ ep);
      MTransfer (Receive w ep fs); MCloseSession; MClose], Returned (c_ran o)) /\
  exists calls, MHandleFunc ([slash] ++ ep) ∈ calls /\
    RunInteropServer (str "transfer") [] protocols so =
    ([MEndpoint (Split protocols " "%byte)] ++ calls ++ [MListenAndServe; MTransfer (Serve ep); MClose], Returned None).
Proof.
  intros (Hne & Hslash & _) Hh Hfs Hall Hl Hk Hd Hsl Hsk Hsc Hse Hin Hss. split.
  - unfold RunInteropClient. rewrite parseClientRequests_files by done. simpl default.
    rewrite map_size_singleton, decide_False, Hl, Hk by lia. unfold clientSession.
    rewrite map_to_list_singleton, Hd, (endpointOf_key host ep Hh : endpointOf (host ++ slash :: ep) = ep).
    rewrite decide_False by lia. by destruct w.
  - set (eps := fst <$> filter (fun e : gostring * bool => e.2 = true) entries).
    assert (ep ∈ eps) as Heps.
    { apply list_elem_of_fmap. exists (ep, true). split; [done|]. by apply list_elem_of_filter. }
    exists (concat (patterns <$> eps)). split.
    { apply list_elem_of_In, in_concat. exists (patterns ep). split; apply list_elem_of_In; [|by left].
      by apply list_elem_of_fmap_2. }
    unfold RunInteropServer. rewrite decide_False by (intros Hn; apply Hn; right; left).
    change (parseServerRequests []) with (@None requestMap). simpl default. rewrite map_size_empty, decide_False, Hsl, Hsk, Hsc by lia.
    unfold serverSession, discoverEndpoints. rewrite Hse, Hss. fold eps. clearbody eps. destruct eps as [|e eps]; [by apply not_elem_of_nil in Heps|].
    unfold after, deferred, serverCase. cbn [fst snd]. rewrite decide_False, decide_True by done. cbn [fst snd].
    by rewrite <- !(assoc_L (++)).
Qed.

(** Two files of the endpoint ["in"] are fetched by datagrams. *)
Definition exampleParse (url : gostring) : result error (gostring * gostring) :=
  if decide (url = str "https://server:443/in/a.bin") then Ok (str "server:443", str "/in/a.bin")
  else if decide (url = str "https://server:443/in/sub/b.bin") then Ok (str "server:443", str "/in/sub/b.bin")
  else Err ErrEOF.

Lemma interop_transfer_witness :
  let ET := Build_ErrorText (fun _ _ => []) (fun _ _ => []) [] in
  let o := mkClientResults None None (Ok (200, str "proto")) None None in
  RunInteropClient exampleParse (str "transfer-datagram-receive")
    (str "https://server:443/in/a.bin https://server:443/in/sub/b.bin") (str "proto other") o =
    ([MEndpoint [str "proto"; str "other"]; MDial (str "https://server:443/in");
      MTransfer (Receive Datagrams (str "in") [str "a.bin"; str "sub/b.bin"]); MCloseSession; MClose], Returned None).
Proof.
  intros ET o.
  refine (proj1 (interop_transfer exampleParse (str "server:443") (str "in") (str "proto other") (str "proto")
    [str "a.bin"; str "sub/b.bin"] Datagrams o
    (mkServerResults None None None (Ok [(str "in", true)]) (Some (str "in", str "proto")) None None)
    [(str "in", true)] _ _ _ _ _ _ _ _ _ _ _ _ _)); try reflexivity.
  - decide_plain.
  - decide_plain.
  - done.
  - repeat constructor; try reflexivity; decide_plain.
  - by left.
Defined.
