(* ===== verification/Programs.v ===== *)
(** * The example programs ([example]) and the browser test ([interop_chrome])

    The decisions of these programs: lists of protocols, the certificate and how
    the client checks it, addresses and pages, and what the browser test accepts.
    SHA-256 and the parsing of addresses are parameters; keys, signatures and
    listening are left out. Times are seconds since 1970 in UTC. *)

From S2P Require Import Prelude Errors GoStrings.

(** ** Base64 *)

Definition base64Alphabet : gostring := str "ABCDEFGHIJKLMNOPQRSTUVWXYZabcdefghijklmnopqrstuvwxyz0123456789+/".

Definition base64Char (n : Z) : byte := nth (Z.to_nat (n mod 64)) base64Alphabet x00.

Definition bits (a b c : byte) : Z := (byte_val a * 256 + byte_val b) * 256 + byte_val c.

(** [base64.RawStdEncoding.EncodeToString] *)
Fixpoint base64 (s : gostring) : gostring :=
  match s with
  | [] => []
  | [a] => [base64Char (bits a x00 x00 / 2 ^ 18); base64Char (bits a x00 x00 / 2 ^ 12)]
  | [a; b] =>
      [base64Char (bits a b x00 / 2 ^ 18); base64Char (bits a b x00 / 2 ^ 12); base64Char (bits a b x00 / 2 ^ 6)]
  | a :: b :: c :: s =>
      base64Char (bits a b c / 2 ^ 18) :: base64Char (bits a b c / 2 ^ 12) :: base64Char (bits a b c / 2 ^ 6) ::
      base64Char (bits a b c) :: base64 s
  end.

(** ** The flag [-protocols] of client and server *)

Definition parseProtocols (flag : gostring) : list gostring :=
  filter (fun p => p <> []) (TrimSpace <$> Split flag ","%byte).

Section programs.
Context `{ET : !ErrorText} (Sum256 : gostring -> gostring).

(** ** The client *)

(** What the server prints for its certificate. *)
Definition certificateHash (raw : gostring) : gostring := base64 (Sum256 raw).

(** The function [VerifyConnection], given the certificates of the peer. *)
Definition verifyHash (hash : gostring) (certs : list gostring) : option error :=
  match certs with
  | [] => Some (ErrNew (str "server didn't send a certificate"))
  | raw :: _ =>
      let got := certificateHash raw in
      if decide (got <> hash) then Some (ErrNew (str "server certificate hash mismatch: got " ++ got)) else None
  end.

Record tlsConfig := mkTLSConfig {
  InsecureSkipVerify : bool;
  VerifyConnection : option (list gostring -> option error);
}.

Definition clientTLSConfig (insecure : bool) (certHash : gostring) : tlsConfig :=
  let hash := TrimSpace certHash in
  if decide (hash = []) then mkTLSConfig insecure None else mkTLSConfig true (Some (verifyHash hash)).

(** Whether [crypto/tls] accepts these certificates; [trusted]: the chain is valid
    for the name of the server. *)
Definition tlsAccepts (conf : tlsConfig) (trusted : bool) (certs : list gostring) : bool :=
  (InsecureSkipVerify conf || trusted) &&
  match VerifyConnection conf with Some f => bool_decide (f certs = None) | None => true end.

(** What [runClient] prints and returns, given what [Dial] returns: the status and
    the protocol of the session. *)
Definition runClient (dial : result error (Z * gostring)) : list gostring * option error :=
  match dial with
  | Err err => ([], Some err)
  | Ok (status, proto) =>
      let line := str "HTTP status code: " ++ itoa status in
      if decide (status < 200 \/ 300 <= status) then ([line], Some (ErrNew (str "unexpected status: " ++ itoa status)))
      else ([line; str "negotiated protocol: " ++ proto], None)
  end.

(** ** The server *)

Definition day : Z := 24 * 60 * 60.

(** [Weekday] of a day since 1970, which began on a Thursday; Sunday is 0. *)
Definition weekday (d : Z) : Z := (d + 4) mod 7.

(** Midnight of the last Monday. *)
Definition validFrom (now : Z) : Z :=
  let d := now / day in day * (d - (weekday d + 6) mod 7).
Definition validUntil (now : Z) : Z := validFrom now + 13 * day.

(** The fields of the certificate that depend on the time. *)
Record certTemplate := mkCertTemplate {
  SerialNumber : Z;
  NotBefore : Z;
  NotAfter : Z;
}.

Definition exampleCert (now : Z) : certTemplate := mkCertTemplate (validFrom now) (validFrom now) (validUntil now).

(** [net.SplitHostPort] *)
Context (SplitHostPort : gostring -> result error (gostring * gostring)).

(** The address under which the local machine reaches [addr]. *)
Definition localAddr (addr : gostring) : gostring :=
  match SplitHostPort addr with
  | Ok ([], port) => str "localhost:" ++ port
  | _ => addr
  end.

Definition webTransportURL (addr : gostring) : gostring := str "https://" ++ localAddr addr ++ str "/webtransport".

Definition browserHTML (browserIndex certHash addr : gostring) : gostring :=
  ReplaceAll (ReplaceAll browserIndex (str "{{SERVER_CERTIFICATE_HASH}}") certHash)
    (str "{{WEBTRANSPORT_URL}}") (webTransportURL addr).

(** The handler of the page: [None] is [http.NotFound]. *)
Definition servePage (html path : gostring) : option gostring := if decide (path <> [slash]) then None else Some html.

(** The handler of sessions, given what [Upgrade] returns: the status that it
    writes, or what it prints. *)
Definition serveSession (upgrade : result error gostring) : Z + gostring :=
  match upgrade with
  | Err _ => inl 500
  | Ok proto => inr (str "negotiated protocol: " ++ proto)
  end.

End programs.

(** ** The browser test *)

Definition hexDigit (n : Z) : byte := nth (Z.to_nat n) (str "0123456789abcdef") x00.

(** The format [%#x] of a byte, and [%#v] of a slice that is not nil. *)
Definition hexByte (b : byte) : gostring :=
  str "0x" ++ (if decide (byte_val b < 16) then [] else [hexDigit (byte_val b / 16)]) ++ [hexDigit (byte_val b mod 16)].
Definition goSyntax (b : list byte) : gostring := str "[]byte{" ++ joinWith (hexByte <$> b) (str ", ") ++ str "}".

Definition formatByteSlice (b : list byte) : gostring :=
  ReplaceAll (ReplaceAll (goSyntax b) (str "[]byte{") (str "[")) (str "}") (str "]").

(** The page of [runHTTPServer]. *)
Definition testPage (indexHTML certHash data : gostring) : gostring :=
  ReplaceAll (ReplaceAll (ReplaceAll indexHTML (str "%%CERTHASH%%") (formatByteSlice certHash))
    (str "%%DATA%%") (formatByteSlice data)) (str "%%TEST%%") (str "unidirectional").

(** The serial number that [generateCert] makes from eight random bytes, which
    [u] reads in big endian. *)
Definition serialNumber (u : Z) : Z :=
  let serial := i64 u in if decide (serial < 0) then i64 (- serial) else serial.

Section test.
Context `{ET : !ErrorText} (data : gostring).

(** [n] turns of the loop of [runUnidirectionalTest]; stream [i] is what accepting
    and reading return in turn [i]. The text of [log.Fatal], if there is one. *)
Fixpoint checkStreams (stream : nat -> result error (result error gostring)) (n i : nat) : option gostring :=
  match n with
  | O => None
  | S n =>
      match stream i with
      | Err err => Some (str "failed to accept unidirectional stream: " ++ Error err)
      | Ok (Err err) => Some (str "failed to read all data: " ++ Error err)
      | Ok (Ok rvcd) => if decide (rvcd <> data) then Some (str "data doesn't match") else checkStreams stream n (S i)
      end
  end.

(** [closed]: the session is closed within five seconds. *)
Definition runUnidirectionalTest (stream : nat -> result error (result error gostring)) (closed : bool) : option gostring :=
  match checkStreams stream 5 0 with
  | Some text => Some text
  | None => if closed then None else Some (str "timed out waiting for the session to be closed")
  end.

End test.

(** ** Lemmas on Base64 *)

Definition base64Value (b : byte) : Z := default 64 (Z.of_nat <$> (fst <$> list_find (fun c => c = b) base64Alphabet)).

Lemma base64Value_char n : base64Value (base64Char n) = n mod 64.
Proof.
  unfold base64Char. pose proof (Z.mod_pos_bound n 64 ltac:(done)) as Hn. revert Hn. generalize (n mod 64). clear n.
  intros n Hn. assert (Forall (fun k => base64Value (nth k base64Alphabet x00) = Z.of_nat k) (seq 0 64)) as H.
  { apply (bool_decide_unpack _). vm_compute. exact I. }
  rewrite Forall_forall in H. rewrite H by (apply elem_of_seq; lia). lia.
Qed.

Lemma base64Char_inj n m : base64Char n = base64Char m -> n mod 64 = m mod 64.
Proof. intros H. by rewrite <- !base64Value_char, H. Qed.

Lemma base64Char_visible n : visible (base64Char n) /\ base64Char n <> ","%byte.
Proof.
  unfold base64Char. pose proof (Z.mod_pos_bound n 64 ltac:(done)) as Hn. revert Hn. generalize (n mod 64). clear n.
  intros n Hn. assert (Forall (fun k => visible (nth k base64Alphabet x00) /\ nth k base64Alphabet x00 <> ","%byte) (seq 0 64)) as H.
  { apply (bool_decide_unpack _). vm_compute. exact I. }
  rewrite Forall_forall in H. apply H. apply elem_of_seq. lia.
Qed.

Lemma bits_inj a b c a' b' c' :
  bits a b c / 2 ^ 18 mod 64 = bits a' b' c' / 2 ^ 18 mod 64 -> bits a b c / 2 ^ 12 mod 64 = bits a' b' c' / 2 ^ 12 mod 64 ->
  bits a b c / 2 ^ 6 mod 64 = bits a' b' c' / 2 ^ 6 mod 64 -> bits a b c mod 64 = bits a' b' c' mod 64 ->
  a = a' /\ b = b' /\ c = c'.
Proof.
  unfold bits. pose proof (byte_val_range a). pose proof (byte_val_range b). pose proof (byte_val_range c).
  pose proof (byte_val_range a'). pose proof (byte_val_range b'). pose proof (byte_val_range c'). intros E1 E2 E3 E4.
  assert (byte_val a = byte_val a' /\ byte_val b = byte_val b' /\ byte_val c = byte_val c') as (Ha & Hb & Hc) by lia.
  split_and!; by apply byte_val_inj.
Qed.

(** Eight bits fill one character and two bits of the next, and so on. *)
Lemma bits_low a b : (bits a b x00 mod 64 = 0) /\ (bits a x00 x00 / 2 ^ 6 mod 64 = 0).
Proof. unfold bits. change (byte_val x00) with 0. lia. Qed.

Lemma base64_inj s1 s2 : base64 s1 = base64 s2 -> s1 = s2.
Proof.
  revert s2. induction (Nat.lt_wf_0_projected (length (A := byte)) s1) as [s1 _ IH]. intros s2 E.
  destruct s1 as [|a [|b [|c s1]]], s2 as [|a' [|b' [|c' s2]]]; try discriminate E; [done| | |].
  - injection E as E1%base64Char_inj E2%base64Char_inj.
    destruct (bits_inj a x00 x00 a' x00 x00) as (-> & _); try done; [|].
    + by rewrite (proj2 (bits_low a x00)), (proj2 (bits_low a' x00)).
    + by rewrite (proj1 (bits_low a x00)), (proj1 (bits_low a' x00)).
  - injection E as E1%base64Char_inj E2%base64Char_inj E3%base64Char_inj.
    destruct (bits_inj a b x00 a' b' x00) as (-> & -> & _); try done.
    by rewrite (proj1 (bits_low a b)), (proj1 (bits_low a' b')).
  - injection E as E1%base64Char_inj E2%base64Char_inj E3%base64Char_inj E4%base64Char_inj E.
    destruct (bits_inj a b c a' b' c') as (-> & -> & ->); try done.
    by rewrite (IH s1 ltac:(simpl; lia) s2 E).
Qed.

Lemma base64_visible s : Forall visible (base64 s).
Proof.
  induction (Nat.lt_wf_0_projected (length (A := byte)) s) as [s _ IH].
  destruct s as [|a [|b [|c s]]]; cbn [base64]; repeat (constructor; [apply base64Char_visible|]); try constructor.
  apply IH. simpl. lia.
Qed.

Lemma base64_nonempty s : s <> [] -> base64 s <> [].
Proof. by destruct s as [|a [|b [|c s]]]. Qed.

(** ** Lemmas on the formats of Go *)

Lemma hexDigit_visible n : 0 <= n < 16 -> hexDigit n <> "["%byte /\ hexDigit n <> "}"%byte.
Proof.
  intros Hn. assert (Forall (fun k => nth k (str "0123456789abcdef") x00 <> "["%byte /\ nth k (str "0123456789abcdef") x00 <> "}"%byte)
    (seq 0 16)) as H.
  { apply (bool_decide_unpack _). vm_compute. exact I. }
  rewrite Forall_forall in H. apply H, elem_of_seq. lia.
Qed.

Definition bracketFree (s : gostring) : Prop := Forall (fun b => b <> "["%byte /\ b <> "}"%byte) s.

Lemma bracketFree_notin s : bracketFree s -> ("["%byte ∉ s) /\ ("}"%byte ∉ s).
Proof. unfold bracketFree. rewrite Forall_forall. intros H. split; intros Hin; by apply H in Hin as []. Qed.

Lemma hexByte_free b : bracketFree (hexByte b).
Proof.
  pose proof (byte_val_range b) as Hb. unfold hexByte, bracketFree. apply Forall_app; split; [|apply Forall_app; split].
  - by repeat constructor.
  - case_decide; constructor; [|constructor]. apply hexDigit_visible. lia.
  - constructor; [|constructor]. apply hexDigit_visible. lia.
Qed.

Lemma joined_free (l : list gostring) sep : Forall bracketFree l -> bracketFree sep -> bracketFree (joinWith l sep).
Proof.
  intros Hl Hs. induction Hl as [|s [|s' l'] Hb _ IH]; [constructor|done|].
  change (joinWith (s :: s' :: l') sep) with (s ++ sep ++ joinWith (s' :: l') sep).
  apply Forall_app; split; [done|]. by apply Forall_app.
Qed.

(** ** Theorems *)

(** A byte slice becomes the literal of a JavaScript array. *)
Theorem formatByteSlice_array b : formatByteSlice b = str "[" ++ joinWith (hexByte <$> b) (str ", ") ++ str "]".
Proof.
  set (l := joinWith (hexByte <$> b) (str ", ")).
  assert (bracketFree l) as Hl.
  { apply joined_free; [|by repeat constructor]. rewrite Forall_fmap. apply Forall_true. intros x. apply hexByte_free. }
  apply bracketFree_notin in Hl as [H1 H2]. unfold formatByteSlice, goSyntax. fold l.
  change (str "[]byte{") with ("["%byte :: str "]byte{"). change (str "}") with ["}"%byte].
  rewrite ReplaceAll_first by (rewrite not_elem_of_app, list_elem_of_singleton; by split).
  rewrite (assoc_L (++)), ReplaceAll_last; [by rewrite <- (assoc_L (++))|].
  change (str "[") with ["["%byte]. rewrite not_elem_of_app, list_elem_of_singleton. by split.
Qed.

(** A client that gets the hash that the server prints as its [-cert-hash] accepts
    the certificates that have the same SHA-256 digest, and no others, whatever a
    certificate authority says. *)
Theorem pinned_certificate (Sum256 : gostring -> gostring) (insecure trusted : bool) (raw : gostring) (certs : list gostring) :
  (forall s, length (Sum256 s) = 32%nat) ->
  tlsAccepts (clientTLSConfig Sum256 insecure (certificateHash Sum256 raw)) trusted certs = true <->
  exists leaf chain, certs = leaf :: chain /\ Sum256 leaf = Sum256 raw.
Proof.
  intros H32. unfold clientTLSConfig. cbv zeta. change (certificateHash Sum256 raw) with (base64 (Sum256 raw)).
  rewrite TrimSpace_visible by apply base64_visible.
  rewrite decide_False by (intros E; apply (base64_nonempty (Sum256 raw)); [|done]; intros E'; specialize (H32 raw); by rewrite E' in H32).
  unfold tlsAccepts, verifyHash. cbn [InsecureSkipVerify VerifyConnection orb andb]. rewrite bool_decide_eq_true.
  destruct certs as [|leaf chain]; [split; [done|]; by intros (? & ? & ? & _)|]. split.
  - case_decide as Hd; [done|]. intros _. exists leaf, chain. split; [done|]. by apply base64_inj.
  - intros (? & ? & [= <- <-] & E). unfold certificateHash. by rewrite E, decide_False by (intros H; by apply H).
Qed.

Lemma pinned_certificate_witness :
  let digest (s : gostring) := take 32 (s ++ repeat x00 32) in
  tlsAccepts (clientTLSConfig digest false (certificateHash digest (str "server"))) false [str "server"; str "CA"] = true.
Proof.
  intros digest. apply (pinned_certificate digest).
  - intros s. unfold digest. rewrite length_take, length_app, repeat_length. lia.
  - by exists (str "server"), [str "CA"].
Defined.

(** The certificate of the example is valid now and for more than six days from
    now, altogether for less than two weeks, and does not change until the next
    Monday. *)
Theorem certificate_window (now : Z) :
  NotBefore (exampleCert now) <= now /\ now + 6 * day < NotAfter (exampleCert now) /\
  NotAfter (exampleCert now) - NotBefore (exampleCert now) < 14 * day /\
  (forall later, NotBefore (exampleCert now) <= later < NotBefore (exampleCert now) + 7 * day ->
     exampleCert later = exampleCert now).
Proof.
  cbn. unfold validUntil, validFrom, weekday, day. split_and!; [lia..|].
  intros later H. unfold exampleCert, validUntil. assert (validFrom later = validFrom now) as ->; [|done].
  unfold validFrom, weekday, day. lia.
Qed.

(** On 2026-01-01, a Thursday. *)
Example certificate_2026 : exampleCert 1767225600 = mkCertTemplate 1766966400 1766966400 1768089600.
Proof. reflexivity. Qed.

(** The browser test passes exactly when five streams bring the data of the page and
    the session is closed in time. *)
Theorem browser_test_passes `{ET : !ErrorText} (data : gostring) stream closed :
  runUnidirectionalTest data stream closed = None <->
  closed = true /\ forall i, (i < 5)%nat -> stream i = Ok (Ok data).
Proof.
  assert (forall n i, checkStreams data stream n i = None <-> forall j, (i <= j < i + n)%nat -> stream j = Ok (Ok data)) as Hc.
  { intros n. induction n as [|n IH]; intros i; simpl; [split; [intros; lia|done]|].
    destruct (stream i) as [[rvcd|err]|err] eqn:E.
    - case_decide as Hd; [split; [done|]|].
      + intros H. rewrite H in E by lia. by simplify_eq.
      + subst rvcd. rewrite IH. split; intros H j Hj; [|apply H; lia].
        destruct (decide (j = i)) as [->|]; [done|]. apply H. lia.
    - split; [done|]. intros H. by rewrite H in E by lia.
    - split; [done|]. intros H. by rewrite H in E by lia. }
  unfold runUnidirectionalTest. destruct (checkStreams data stream 5 0) as [text|] eqn:E.
  - split; [done|]. intros [_ H]. assert (Some text = None) as H'; [|done]. rewrite <- E. apply Hc. intros j Hj. apply H. lia.
  - rewrite Hc in E. destruct closed; [|by split; [|intros []]]. split; [|done]. intros _. split; [done|]. intros i Hi. apply E. lia.
Qed.

(** The serial number is negative for one of all random values, the smallest
    integer, which has no opposite. *)
Lemma serialNumber_negative u : 0 <= u < 2 ^ 64 -> serialNumber u < 0 <-> u = 2 ^ 63.
Proof. intros Hu. unfold serialNumber, i64. case_decide; lia. Qed.

(** Protocols that are joined by commas are found again. *)
Lemma parseProtocols_join (ps : list gostring) :
  ps <> [] -> Forall (fun p => p <> [] /\ Forall visible p /\ (","%byte ∉ p)) ps -> parseProtocols (joinWith ps [","%byte]) = ps.
Proof.
  intros Hne Hps. unfold parseProtocols. rewrite Split_joinWith; [|done|eapply Forall_impl; [exact Hps|]; by intros p (_ & _ & ?)].
  clear Hne. induction Hps as [|p ps (Hp & Hv & _) _ IH]; [done|]. cbn [fmap list_fmap].
  rewrite TrimSpace_visible, filter_cons_True by done. by rewrite IH.
Qed.
