(* ===== verification/InteropLoops.v ===== *)
(** * The goroutines of [runTransfer] ([interop/interop.go])

    Three goroutines accept bidirectional streams, unidirectional streams and
    datagrams; each stream gets a goroutine of its own. What these do with a
    stream is in [Interop]. *)

From S2P Require Import Prelude Errors GoStrings Interop.

Inductive streamKind : Type := KBidi | KUni.

(** The goroutine of a stream is running, or has made these calls. *)
Inductive handling : Type :=
| Handling (k : streamKind)
| Handled (k : streamKind) (calls : list streamCall).

Record transferring := mkTransferring {
  (** the loops that run *)
  t_bidi : bool;
  t_uni : bool;
  t_datagrams : bool;
  (** the goroutines of the streams *)
  t_streams : gmap nat handling;
  (** the datagrams that were received and sent *)
  t_received : list gostring;
  t_sent : list gostring;
  (** [runTransfer] has returned *)
  t_returned : bool;
}.

Definition startTransfer : transferring := mkTransferring true true true ∅ [] [] false.

Definition running (k : streamKind) (s : transferring) : bool := match k with KBidi => t_bidi s | KUni => t_uni s end.

Definition stopLoop (k : streamKind) (s : transferring) : transferring :=
  mkTransferring (match k with KBidi => false | KUni => t_bidi s end) (match k with KBidi => t_uni s | KUni => false end)
    (t_datagrams s) (t_streams s) (t_received s) (t_sent s) (t_returned s).

Definition setStream (n : nat) (h : handling) (s : transferring) : transferring :=
  mkTransferring (t_bidi s) (t_uni s) (t_datagrams s) (<[n := h]> (t_streams s)) (t_received s) (t_sent s) (t_returned s).

Definition setDatagrams (on : bool) (received sent : list gostring) (s : transferring) : transferring :=
  mkTransferring (t_bidi s) (t_uni s) on (t_streams s) (t_received s ++ received) (t_sent s ++ sent) (t_returned s).

Definition finished (h : handling) : Prop := match h with Handling _ => False | Handled _ _ => True end.

#[export] Instance finished_dec h : Decision (finished h).
Proof. destruct h; apply _. Defined.

Definition allDone (s : transferring) : Prop :=
  t_bidi s = false /\ t_uni s = false /\ t_datagrams s = false /\
  map_Forall (fun _ h => finished h) (t_streams s).

Section loops.
Context `{ET : !ErrorText} (ReadFile : gostring -> result error gostring) (endpoint : gostring).

(** What the goroutine of a stream does, given what it reads and the results of its calls. *)
Definition serveStream (k : streamKind) (data : result error gostring) (open write1 write2 : option error) : list streamCall :=
  match k with
  | KBidi => serveBidi ReadFile endpoint data write1
  | KUni => serveUni ReadFile endpoint data open write1 write2
  end.

(** [true]: something arrives; [false]: everything else. *)
Inductive runTransfer (s : transferring) : bool -> transferring -> Prop :=
| rt_accept k n : running k s = true -> t_streams s !! n = None -> runTransfer s true (setStream n (Handling k) s)
(** [AcceptStream] or [AcceptUniStream] fails *)
| rt_acceptFails k : running k s = true -> runTransfer s false (stopLoop k s)
| rt_serve k n data open write1 write2 : t_streams s !! n = Some (Handling k) ->
    runTransfer s false (setStream n (Handled k (serveStream k data open write1 write2)) s)
| rt_datagram data : t_datagrams s = true -> answerDatagram ReadFile endpoint data = None ->
    runTransfer s true (setDatagrams true [data] [] s)
(** the answer is sent, or [SendDatagram] fails *)
| rt_answer data payload (send : option error) : t_datagrams s = true -> answerDatagram ReadFile endpoint data = Some payload ->
    runTransfer s true (setDatagrams (bool_decide (send = None)) [data] [payload] s)
| rt_receiveFails : t_datagrams s = true -> runTransfer s false (setDatagrams false [] [] s)
(** [wg.Wait] *)
| rt_return : allDone s -> t_returned s = false ->
    runTransfer s false (mkTransferring false false false (t_streams s) (t_received s) (t_sent s) true).

Definition transfers (s : transferring) : Prop := rtc (fun s s' => exists b, runTransfer s b s') startTransfer s.

(** ** Lemmas *)

Record transfer_inv (s : transferring) : Prop := mkTransferInv {
  ti_served : map_Forall (fun _ h => match h with
    | Handling _ => True
    | Handled k calls => exists data open write1 write2, calls = serveStream k data open write1 write2
    end) (t_streams s);
  ti_sent : t_sent s = omap (answerDatagram ReadFile endpoint) (t_received s);
  ti_returned : t_returned s = true -> allDone s;
}.

Lemma transfer_inv_step s b s' : transfer_inv s -> runTransfer s b s' -> transfer_inv s'.
Proof.
  intros [Hv Hs Hr] Hstep.
  assert (t_bidi s = true \/ t_uni s = true \/ t_datagrams s = true \/ (exists n k, t_streams s !! n = Some (Handling k)) ->
    t_returned s = false) as Hlive.
  { intros H. destruct (t_returned s); [|done]. destruct (Hr eq_refl) as (? & ? & ? & Ha).
    destruct H as [?|[?|[?|(n & k & Hn)]]]; [congruence..|]. by specialize (Ha _ _ Hn). }
  destruct Hstep as [k n Hk Hn|k Hk|k n data open w1 w2 Hn|data Hd Ha|data payload send Hd Ha|Hd|Hdone _]; constructor; cbn;
    try done; try (rewrite ?Hlive by (destruct k; naive_solver); done); try (rewrite Hlive by eauto; done).
  - by apply map_Forall_insert_2.
  - apply map_Forall_insert_2; [by eauto|done].
  - rewrite omap_app, app_nil_r, Hs. simpl. by rewrite Ha, app_nil_r.
  - rewrite omap_app, Hs. simpl. by rewrite Ha.
  - by rewrite !app_nil_r.
  - destruct Hdone as (_ & _ & _ & ?). by intros _.
Qed.

Lemma transfer_inv_reachable s : transfers s -> transfer_inv s.
Proof.
  intros H. assert (transfer_inv startTransfer) as H0 by (constructor; [apply map_Forall_empty|done|done]).
  revert H0. induction H as [|s1 s2 s3 [b Hs] _ IH]; [done|]. eauto using transfer_inv_step.
Qed.

(** What is left to do when nothing more arrives. *)
Definition left (s : transferring) : Z :=
  Z.b2z (t_bidi s) + Z.b2z (t_uni s) + Z.b2z (t_datagrams s) +
  msum (fun h => match h with Handling _ => 1 | Handled _ _ => 0 end) (t_streams s) + Z.b2z (negb (t_returned s)).

Lemma left_decreases s s' : runTransfer s false s' -> left s' = left s - 1.
Proof.
  intros Hstep. inversion Hstep as [|k Hk|k n data open w1 w2 Hn| | |Hd|(H1 & H2 & H3 & _) Hr]; subst; unfold left; cbn.
  - destruct k; simpl in *; rewrite Hk; simpl; lia.
  - rewrite (msum_insert _ _ _ _ _ Hn). lia.
  - rewrite Hd. simpl. lia.
  - rewrite H1, H2, H3, Hr. simpl. lia.
Qed.

Lemma left_nonneg s : 0 <= left s.
Proof.
  unfold left. assert (0 <= msum (fun h => match h with Handling _ => 1 | Handled _ _ => 0 end) (t_streams s)).
  { apply msum_nonneg. by intros n [] _. }
  destruct (t_bidi s), (t_uni s), (t_datagrams s), (t_returned s); simpl; lia.
Qed.

(** ** Theorem *)

(** [runTransfer] answers everything and returns. Whatever arrives in whatever
    order: each answered stream has been served by [serveBidi] or [serveUni], and
    the datagrams sent are the answers to those received, in order; once
    [runTransfer] has returned no goroutine is left, so every accepted stream has
    been answered. When nothing more arrives, because the session has ended, it
    does return: as long as it has not, some goroutine can go on, and the number
    of steps that remain is bounded by [left]. *)
Theorem runTransfer_answers (s : transferring) : transfers s ->
  (forall n k calls, t_streams s !! n = Some (Handled k calls) ->
     exists data open write1 write2, calls = serveStream k data open write1 write2) /\
  t_sent s = omap (answerDatagram ReadFile endpoint) (t_received s) /\
  (t_returned s = true -> allDone s /\ forall b s', ~ runTransfer s b s') /\
  (t_returned s = false -> exists s', runTransfer s false s') /\
  (forall n s', relations.nsteps (fun s s' => runTransfer s false s') n s s' -> Z.of_nat n <= left s).
Proof.
  intros [Hv Hs Hr]%transfer_inv_reachable. split_and!.
  - intros n k calls Hn. by apply (Hv _ _ Hn).
  - done.
  - intros Ht. split; [by apply Hr|]. destruct (Hr Ht) as (H1 & H2 & H3 & H4). intros b s' Hstep.
    inversion Hstep as [k n Hk|k Hk|k n data open w1 w2 Hn| | | |]; subst; try congruence.
    + destruct k; simpl in Hk; congruence.
    + destruct k; simpl in Hk; congruence.
    + by specialize (H4 _ _ Hn).
  - intros Ht. destruct (t_bidi s) eqn:E1; [eexists; by apply (rt_acceptFails _ KBidi)|].
    destruct (t_uni s) eqn:E2; [eexists; by apply (rt_acceptFails _ KUni)|].
    destruct (t_datagrams s) eqn:E3; [eexists; by apply rt_receiveFails|].
    destruct (decide (map_Forall (fun _ h => finished h) (t_streams s))) as [Ha|Ha].
    + eexists. by apply rt_return.
    + apply map_not_Forall in Ha as (n & [k|] & Hn & Hf); [|by destruct Hf|apply _].
      eexists. by apply (rt_serve _ k n (Err ErrEOF) None None None).
  - intros n. clear Hv Hs Hr. revert s. induction n as [|n IH]; intros s s' Hn; [pose proof (left_nonneg s); lia|].
    inversion Hn as [|? ? s1 ? Hstep Hrest]; subst. apply IH in Hrest. apply left_decreases in Hstep. lia.
Qed.

End loops.

(** Nothing arrives: four steps and the end. *)
Lemma runTransfer_answers_witness :
  let ET := Build_ErrorText (fun _ _ => []) (fun _ _ => []) [] in
  exists s, runTransfer (fun _ => Err ErrEOF) (str "in") startTransfer false s.
Proof.
  intros ET. refine (proj1 (proj2 (proj2 (proj2 (runTransfer_answers (fun _ => Err ErrEOF) (str "in") startTransfer _)))) eq_refl).
  apply rtc_refl.
Defined.
